(* ===== verification/_CoqProject ===== *)
-Q . S2P
Prelude.v
Hash.v
Heap.v
Random.v
RaftTypes.v
RaftLog.v
RaftVoters.v
RaftCodec.v
RaftCore.v
RaftCoreInv.v
RaftCoreOps.v
RaftCoreTyped.v
RaftSnapshot.v
RaftStorage.v
RaftMemoryStore.v
RaftWAL.v
RaftFileStore.v
RaftFileRecovery.v
RaftFileStoreInv.v
RaftFileStoreOps.v
RaftFileStoreOpen.v
RaftFileMachine.v
RaftFileStoreLaws.v
RaftNode.v
RaftNodeInv.v
RaftCluster.v
RaftFileCluster.v
WireFrame.v
WireStream.v
WireReplay.v
SwimTable.v
SwimDissemination.v
SwimEngine.v
