(* ===== verification/Prelude.v ===== *)
(** * Verification of Crane

    Crane is a distributed stream-processing system in Go.  Its coordinators
    replicate their state with a Raft library ([src/internal/raft]), its nodes find
    and watch each other with the SWIM protocol ([src/internal/swim]), and both
    exchange authenticated frames ([src/internal/wire]).  This development verifies
    the Raft library, from the bytes on disk to the safety of elections in a
    cluster of running nodes; the membership table, the gossip queue and the
    failure detector of SWIM; and the framing and replay defence of the wire
    protocol.

    ** Parts and files

    - [Prelude]: machine integers with explicit wrap-around, instants of time,
      outcomes of Go calls (value, error, panic, no return), the state-and-error
      monad in which methods are written, record update, big-endian bytes, weakest
      preconditions, and the tactics shared by all files.
    - [Hash]: SHA-256, HMAC-SHA-256 and CRC-32C as executable functions, checked
      on published test vectors.
    - [Heap]: package [container/heap] over its interface, a class.
    - [Random]: [random/bounded.go], uniform sampling by rejection over a tape of
      64-bit draws.

    Raft ([internal/raft]):
    - [RaftTypes]: [types.go], [messages.go], [ready.go], [progress.go],
      [errors.go]: values, messages and error classes.
    - [RaftLog]: [log.go], the checked log; every method of [Log].
    - [RaftVoters]: [voters.go], construction and fingerprint of a voter set.
    - [RaftCodec]: [codec.go], encoder, decoder and validation of every message.
    - [RaftCore]: [core.go], the deterministic protocol state machine: every
      handler of a message, the clock, proposals, snapshots, [Ready] and [Advance].
      [RaftCoreInv], [RaftCoreOps] and [RaftCoreTyped] hold its invariant.
    - [RaftSnapshot]: [snapshot.go], the snapshot envelope and its installation.
    - [RaftStorage]: [storage.go], durable states, persistence batches, their
      validation and effect, and the class [StoreLaws]: what a store promises to
      the node.
    - [RaftMemoryStore]: [memory_storage.go], the store with injected faults.
    - [RaftWAL]: [wal.go] and the scan of [store_lock_unix.go]: records,
      transactions, replay and the cut of a torn tail.
    - [RaftFileStore]: the rest of [store_lock_unix.go] on a model of the directory
      in which every system call may fail, and a power loss keeps of a file its
      present content or what was last synced and a prefix of what was appended
      since, and of the directory one version since its last sync.
      [RaftFileRecovery] and [RaftFileStoreInv]: what its files mean; [RaftFileStoreOps] and [RaftFileStoreOpen]: its
      operations and its opening keep that meaning; [RaftFileMachine]: the store as
      a machine with faults, power losses and openings; [RaftFileStoreLaws]: it is
      an instance of [StoreLaws].
    - [RaftNode]: [node.go], [node_durability.go], [leadership.go]: the owner loop
      around the core, with the store, the state machine and the transport as
      classes.  [RaftNodeInv]: its invariant, proved against [StoreLaws].
    - [RaftCluster]: nodes over an asynchronous network that may lose, delay,
      repeat and reorder messages, with crashes and restarts.  [RaftFileCluster]:
      the same with the file store and its power losses.

    Wire ([internal/wire]):
    - [WireFrame]: [types.go], [auth.go], [frame.go]: headers, limits, frames and
      their authentication.
    - [WireStream]: [stream.go]: frames on a TCP connection.
    - [WireReplay]: [replay.go]: the replay guard, an instance of [Heap].

    SWIM ([internal/swim]):
    - [SwimTable]: [member.go], [table.go]: the membership table.
    - [SwimDissemination]: [dissemination.go]: the queue of updates to gossip.
    - [SwimEngine]: [engine.go], [probe.go], [suspicion.go], [messages.go]: probes,
      suspicions and tombstones, every handler with the effects it asks for.

    ** Correspondence

    A method of a mutable Go object is a computation of the monad [M] over the
    record of its fields; a mutation made before an error return stays.  Slices
    are lists, maps are [gmap], deep copies are values.  Integers are [Z] within
    the range of their Go type; operations that can wrap are written with
    [wrap64].  Indexing out of range, writing a nil map and dereferencing nil are
    [Panic]; the decoders of the WAL, which read offsets taken from the bytes
    themselves, read with [bytesAt] and [uintAt], which panic out of range.  The
    fixed offsets of a wire frame, a snapshot envelope and an identity file are read
    with the total [sub], since each decoder first requires the length that holds
    them.  An error is its class: message texts are not modelled, and
    [errors.Is] compares classes.  Concurrency is interleaving: the node has one
    owner goroutine, and everything else that touches it places an event in its
    queue; an object with a mutex has atomic operations.  Readings of a clock and
    draws of a random source are arguments.

    ** What is shown

    - Elections: in every execution of a cluster at most one voter leads a term,
      by refinement of an abstract voting machine ([RaftCluster]), also over file
      stores that lose power ([RaftFileCluster]); a node hands over a message only
      after the state it vouches for is durable ([RaftNodeInv]).
    - Core: no operation panics, a change of the hard state is reported for
      persistence or taken over from a state that was already persisted, and fields
      stay in the range of their types.
    - Storage: an accepted batch keeps terms, votes and commits; the memory store
      and the file store implement their specifications; replay of a WAL cut at
      any byte yields the state of the last complete transaction and is total on
      any bytes; a store that was opened once opens again after any faults.  The
      theorems on the file store are about the operations the node issues
      ([node_op]): batches without a snapshot base or a snapshot, and captured
      snapshots ahead of the durable base.  The restriction matters:
      [RaftFileMachine] shows that a batch with a snapshot is acknowledged and
      leaves a store that does not open again.
    - Formats: messages, snapshot envelopes, storage identities and wire frames are
      decoded exactly from their canonical encodings; frames pass a connection
      whatever the pieces, and a reader is bounded on arbitrary input.
    - Replay: no authenticated request is accepted twice.
    - Membership: the table keeps the newest version of every node and gossip
      converges; an update leaves the queue only when it was sent often enough, was
      replaced by a newer one, or no member was alive; every suspicion and tombstone
      has a timer that ends it, a live node refutes a suspicion and queues the
      refutation, and every live peer is probed whatever happens between probes.
    - Log, voters, sampling, heaps: functional specifications of their operations.

    ** Bounds and fuel

    Loops that are not structural carry fuel that is proved sufficient: the length
    of the input for a scan of the WAL or a write, the number of log entries for
    the loops of the log, the position or the size for a sift of a heap, the
    entries of a replay cache for a purge, and the rest of the cycle for the choice
    of a probe.  [Blocked] marks a computation that still waits: rejection sampling
    over a finite tape, where it means that the tape is used up, and the drain loop
    of a node ([drainLoop]).  The fuel of that loop, two rounds per voter and three
    more, was chosen by reading the code and is not proved sufficient: a round that
    used it up would be [Blocked], and the theorems about nodes say nothing of what
    such a round would do next.

    ** Not modelled

    Message texts of errors; the scheduling of goroutines beyond the order of
    events; sockets, name resolution and the supervisor; the SWIM service around
    the engine with its join exchange, event subscriptions and incarnation file;
    gob payloads, whose format is reflection on Go types; the packages [crane/...]
    and the commands.  They were left out for their size, not for a difficulty of
    principle: the parts modelled are the ones the others build on. *)

From stdpp Require Export base gmap sets list fin_maps fin_sets.
From Stdlib Require Export ZArith Lia.
From Stdlib Require Export Strings.Byte.

Open Scope Z_scope.

(** ** Machine integers *)

(** Go's [uint64] and [uint16] values are integers of [Z] inside their range;
    arithmetic that can leave the range wraps explicitly. *)
Definition max_uint64 : Z := 18446744073709551615.
Definition max_uint32 : Z := 4294967295.
Definition max_uint16 : Z := 65535.
Definition max_int : Z := 9223372036854775807.

Definition is_u64 (z : Z) : Prop := 0 ≤ z ≤ max_uint64.
Definition is_u32 (z : Z) : Prop := 0 ≤ z ≤ max_uint32.
Definition is_u16 (z : Z) : Prop := 0 ≤ z ≤ max_uint16.
Definition is_u8 (z : Z) : Prop := 0 ≤ z ≤ 255.

Definition wrap64 (z : Z) : Z := z mod 18446744073709551616.

Ltac unfold_width :=
  unfold is_u64, is_u32, is_u16, is_u8, max_uint64, max_uint32, max_uint16, max_int in *.
Ltac ulia := unfold_width; lia.

Lemma wrap64_small (z : Z) : is_u64 z → wrap64 z = z.
Proof. intros H. unfold wrap64. apply Z.mod_small. ulia. Qed.

Lemma wrap64_range (z : Z) : is_u64 (wrap64 z).
Proof.
  unfold wrap64. pose proof (Z.mod_pos_bound z 18446744073709551616 eq_refl). ulia.
Qed.

(** ** Package [time]

    An instant is a number of nanoseconds, whole seconds from the zero time of
    package [time] and the nanoseconds within the second; [Add] saturates at the
    largest second. *)
Definition second : Z := 1000000000.
Definition maxTime : Z := max_int * second + 999999999.

Definition saturate (sec : Z) : Z := if max_int <? sec then max_int else if sec <? - max_int then - max_int else sec.
Definition Time_Add (t d : Z) : Z := saturate ((t + d) / second) * second + (t + d) mod second.

(** [time.UnixMilli]: the Unix epoch is 62135596800 seconds after the zero time. *)
Definition unixEpoch : Z := 62135596800 * second.
Definition UnixMilli (ms : Z) : Z := unixEpoch + ms * 1000000.

(** Instants far from the ends of the range, where [Add] is exact. *)
Definition sane_time (t : Z) : Prop := - (2 ^ 62 * second) ≤ t ≤ 2 ^ 62 * second.

Lemma Time_Add_exact (t d : Z) : sane_time t → - max_int ≤ d ≤ max_int → Time_Add t d = t + d.
Proof.
  unfold sane_time, Time_Add, saturate, second, max_int. intros Ht Hd.
  pose proof (Z.div_mod (t + d) 1000000000 ltac:(lia)). pose proof (Z.mod_pos_bound (t + d) 1000000000 ltac:(lia)).
  rewrite (proj2 (Z.ltb_ge _ _)), (proj2 (Z.ltb_ge _ _)) by lia. lia.
Qed.

(** ** Outcomes of Go calls

    A call returns a value, returns an error, panics (a nil-map write, an index
    out of range), or does not return because it still waits for a random sample
    that passes the rejection test of [random.Uint64n]. *)
Inductive outcome (E A : Type) : Type :=
| Ok (a : A)
| Err (e : E)
| Panic
| Blocked.
Arguments Ok {E A} a.
Arguments Err {E A} e.
Arguments Panic {E A}.
Arguments Blocked {E A}.

Definition outcome_bind {E A B : Type} (m : outcome E A) (k : A → outcome E B) : outcome E B :=
  match m with
  | Ok a => k a
  | Err e => Err e
  | Panic => Panic
  | Blocked => Blocked
  end.

Lemma Ok_inj {E A} (a b : A) : (Ok a : outcome E A) = Ok b → a = b.
Proof. congruence. Qed.

Definition is_Ok {E A} (o : outcome E A) : bool := match o with Ok _ => true | _ => false end.

(** ** State and error monad

    A Go method that mutates its receiver keeps every mutation made before an
    error return, so the state is threaded on every outcome. *)
Definition M (S E A : Type) : Type := S → outcome E A * S.

Definition ret {S E A} (a : A) : M S E A := λ s, (Ok a, s).
Definition throw {S E A} (e : E) : M S E A := λ s, (Err e, s).
Definition panic {S E A} : M S E A := λ s, (Panic, s).
Definition get {S E} : M S E S := λ s, (Ok s, s).
Definition put {S E} (s : S) : M S E unit := λ _, (Ok tt, s).
Definition modify {S E} (f : S → S) : M S E unit := λ s, (Ok tt, f s).
Definition bind {S E A B} (m : M S E A) (k : A → M S E B) : M S E B := λ s,
  match m s with
  | (Ok a, s') => k a s'
  | (Err e, s') => (Err e, s')
  | (Panic, s') => (Panic, s')
  | (Blocked, s') => (Blocked, s')
  end.
Definition lift {S E A} (o : outcome E A) : M S E A := λ s, (o, s).

(** Run a computation of a component on the field that holds it. *)
Definition zoom {S T E A} (view : S → T) (update : T → S → S) (m : M T E A) : M S E A := λ s,
  let (o, t) := m (view s) in (o, update t s).

(** [for _, x := range l { if err := f(x); err != nil { return err } }] *)
Fixpoint forEach {S E A} (l : list A) (f : A → M S E unit) : M S E unit :=
  match l with
  | [] => ret tt
  | x :: rest => bind (f x) (λ _, forEach rest f)
  end.

Declare Scope go_scope.
Delimit Scope go_scope with go.
Notation "'let?' x := m 'in' k" := (outcome_bind m (λ x, k))
  (at level 10, x pattern, k at level 200) : go_scope.
Notation "'let!' x := m 'in' k" := (bind m (λ x, k))
  (at level 10, x pattern, k at level 200) : go_scope.
Notation "m ;;! k" := (bind m (λ _, k)) (at level 100, right associativity) : go_scope.
Open Scope go_scope.

(** The monad law used to group a prefix of a sequence. *)
Lemma bind_assoc {S E A B C} (m : M S E A) (k : A → M S E B) (k' : B → M S E C) (s : S) :
  bind (bind m k) k' s = bind m (λ a, bind (k a) k') s.
Proof. unfold bind. by destruct (m s) as [[] ?]. Qed.

Lemma bind_ext {S E A B} (m : M S E A) (k k' : A → M S E B) (s : S) :
  (∀ a s', k a s' = k' a s') → bind m k s = bind m k' s.
Proof. intros H. unfold bind. destruct (m s) as [[] ?]; auto. Qed.

Lemma bind_group4 {S E A B C D F} (m1 : M S E A) (m2 : M S E B) (m3 : M S E C) (m4 : M S E D)
    (k : M S E F) (s : S) :
  (m1 ;;! m2 ;;! m3 ;;! m4 ;;! k) s = ((m1 ;;! m2 ;;! m3 ;;! m4) ;;! k) s.
Proof.
  rewrite bind_assoc. apply bind_ext. intros _ s1. rewrite bind_assoc. apply bind_ext.
  intros _ s2. by rewrite bind_assoc.
Qed.

(** ** Record update

    [r <| field := v |>] replaces one field.  A record type declares its
    constructor through [Settable]; the setter of a projection is derived. *)
Class Settable (R : Type) := eta_record : R → R.
Class Setter {R T : Type} (proj : R → T) := set_field : (T → T) → R → R.
Arguments set_field {R T} proj {_} f r : simpl nomatch.

Ltac derive_setter :=
  match goal with
  | |- @Setter ?R ?T ?proj =>
    let e := constr:(_ : Settable R) in
    let rec head t := lazymatch t with ?g _ => head g | _ => t end in
    let e := lazymatch e with ?x => x end in
    let h := head e in
    exact (fun (f : T → T) (r : R) =>
      ltac:(let b := eval unfold h in (e r) in
            let b := eval cbv beta in b in
            match eval pattern (proj r) in b with
            | ?g _ => let t := eval cbv beta in (g (f (proj r))) in exact t
            end))
  end.
#[global] Hint Extern 1 (Setter _) => derive_setter : typeclass_instances.

Notation "r <| proj := v |>" := (set_field proj (λ _, v) r)
  (at level 1, left associativity, proj at level 200, v at level 200) : go_scope.
Notation "r <| proj ::= f |>" := (set_field proj f r)
  (at level 1, left associativity, proj at level 200, f at level 200) : go_scope.


(** ** Bytes *)

Abbreviation byte := Byte.byte.

#[global] Instance byte_eq_decision : EqDecision byte := Byte.byte_eq_dec.

Definition byte_to_Z (b : byte) : Z := Z.of_N (Byte.to_N b).
Definition byte_of_Z (z : Z) : byte := default Byte.x00 (Byte.of_N (Z.to_N (z mod 256))).

(** Big-endian encoding in [n] bytes and its inverse, [binary.BigEndian]. *)
Fixpoint be_bytes (n : nat) (z : Z) : list byte :=
  match n with
  | O => []
  | S k => byte_of_Z (z / 256 ^ Z.of_nat k) :: be_bytes k z
  end.
Definition be_value (l : list byte) : Z := foldl (λ acc b, acc * 256 + byte_to_Z b) 0 l.

Lemma byte_to_Z_range (b : byte) : 0 ≤ byte_to_Z b < 256.
Proof. unfold byte_to_Z. pose proof (Byte.to_N_bounded b). lia. Qed.

Lemma byte_to_of_Z (z : Z) : byte_to_Z (byte_of_Z z) = z mod 256.
Proof.
  unfold byte_to_Z, byte_of_Z. pose proof (Z.mod_pos_bound z 256 eq_refl) as Hz.
  destruct (Byte.of_N (Z.to_N (z mod 256))) as [b|] eqn:Hb; simpl.
  - apply Byte.to_of_N in Hb. rewrite Hb. lia.
  - apply Byte.of_N_None_iff in Hb. lia.
Qed.

Lemma byte_of_to_Z (b : byte) : byte_of_Z (byte_to_Z b) = b.
Proof.
  unfold byte_of_Z. rewrite Z.mod_small by apply byte_to_Z_range.
  unfold byte_to_Z. by rewrite N2Z.id, Byte.of_to_N.
Qed.

#[global] Instance byte_countable : Countable byte := inj_countable' byte_to_Z byte_of_Z byte_of_to_Z.

Lemma length_be_bytes (n : nat) (z : Z) : length (be_bytes n z) = n.
Proof. induction n; simpl; congruence. Qed.

Lemma be_value_acc (l : list byte) (a : Z) :
  foldl (λ acc b, acc * 256 + byte_to_Z b) a l = a * 256 ^ Z.of_nat (length l) + be_value l.
Proof.
  unfold be_value. revert a. induction l as [|b l IH]; intros a; simpl foldl; simpl length.
  - simpl. lia.
  - rewrite (IH (a * 256 + _)), (IH (0 * 256 + _)), Nat2Z.inj_succ, Z.pow_succ_r by lia. ring.
Qed.

Lemma be_value_cons (b : byte) (l : list byte) :
  be_value (b :: l) = byte_to_Z b * 256 ^ Z.of_nat (length l) + be_value l.
Proof. unfold be_value at 1. simpl foldl. by rewrite be_value_acc. Qed.

Lemma be_value_range (l : list byte) : 0 ≤ be_value l < 256 ^ Z.of_nat (length l).
Proof.
  induction l as [|b l IH]; [unfold be_value; simpl; lia|]. rewrite be_value_cons. simpl length.
  rewrite Nat2Z.inj_succ, Z.pow_succ_r by lia. pose proof (byte_to_Z_range b). nia.
Qed.

Lemma be_value_bytes (n : nat) (z : Z) : be_value (be_bytes n z) = z mod 256 ^ Z.of_nat n.
Proof.
  induction n as [|n IH]; simpl be_bytes; [by rewrite Z.mod_1_r|].
  rewrite be_value_cons, length_be_bytes, IH, byte_to_of_Z, Nat2Z.inj_succ, Z.pow_succ_r by lia.
  rewrite (Z.mul_comm 256), Z.rem_mul_r by lia. lia.
Qed.

Lemma byte_of_Z_mod (z : Z) : byte_of_Z (z mod 256) = byte_of_Z z.
Proof. unfold byte_of_Z. by rewrite Z.mod_mod. Qed.

Lemma be_bytes_plus (n : nat) (z k : Z) : be_bytes n (z + k * 256 ^ Z.of_nat n) = be_bytes n z.
Proof.
  revert k. induction n as [|n IH]; intros k; simpl be_bytes; [done|].
  rewrite Nat2Z.inj_succ, Z.pow_succ_r, Z.mul_assoc, IH, Z.div_add by lia. f_equal.
  rewrite <- byte_of_Z_mod, Z_mod_plus_full. apply byte_of_Z_mod.
Qed.

Lemma be_bytes_value (l : list byte) : be_bytes (length l) (be_value l) = l.
Proof.
  induction l as [|b l IH]; simpl be_bytes; [done|].
  rewrite be_value_cons, Z.add_comm, be_bytes_plus, IH, Z.div_add by lia.
  rewrite Z.div_small by apply be_value_range. by rewrite Z.add_0_l, byte_of_to_Z.
Qed.

(** [l[first:last]] within bounds. *)
Definition sub (first last : nat) (l : list byte) : list byte := take (last - first) (drop first l).

(** Reading one field of a concatenation of fields. *)
Lemma sub_concat (fields : list (list byte)) (i first last : nat) (field : list byte) :
  fields !! i = Some field → first = length (concat (take i fields)) →
  last = (first + length field)%nat → sub first last (concat fields) = field.
Proof.
  intros Hi -> ->.
  assert (concat fields = concat (take i fields) ++ field ++ concat (drop (S i) fields)) as ->.
  { rewrite <- (take_drop_middle fields i field Hi) at 1. by rewrite concat_app. }
  unfold sub. rewrite drop_app_length. apply take_app_length'. lia.
Qed.

Lemma be_value_small (n : nat) (z : Z) : 0 ≤ z < 256 ^ Z.of_nat n → be_value (be_bytes n z) = z.
Proof. intros H. by rewrite be_value_bytes, Z.mod_small. Qed.

Lemma sub_length (first last : nat) (l : list byte) :
  (first ≤ last ≤ length l)%nat → length (sub first last l) = (last - first)%nat.
Proof. intros H. unfold sub. rewrite length_take, length_drop. lia. Qed.

Lemma sub_split (first last : nat) (l : list byte) :
  (first ≤ last)%nat → drop first l = sub first last l ++ drop last l.
Proof.
  intros H. unfold sub. replace (drop last l) with (drop (last - first) (drop first l)).
  - by rewrite take_drop.
  - rewrite drop_drop. f_equal. lia.
Qed.

(** [l[first:last]] of a slice of bytes that may be too short, and
    [binary.BigEndian] on it; [l[i]] is [uintAt i (i + 1) l]. *)
Definition bytesAt {E} (first last : nat) (l : list byte) : outcome E (list byte) :=
  if (first <=? last)%nat && (last <=? length l)%nat then Ok (sub first last l) else Panic.
Definition uintAt {E} (first last : nat) (l : list byte) : outcome E Z :=
  let? bytes := bytesAt first last l in Ok (be_value bytes).

Lemma bytesAt_Ok {E} (first last : nat) (l : list byte) :
  (first ≤ last ≤ length l)%nat → bytesAt (E := E) first last l = Ok (sub first last l).
Proof. intros H. unfold bytesAt. by rewrite !(proj2 (Nat.leb_le _ _)) by lia. Qed.

Lemma uintAt_Ok {E} (first last : nat) (l : list byte) :
  (first ≤ last ≤ length l)%nat → uintAt (E := E) first last l = Ok (be_value (sub first last l)).
Proof. intros H. unfold uintAt. by rewrite bytesAt_Ok. Qed.

(** Length of a Go slice. *)
Definition len {A} (l : list A) : Z := Z.of_nat (length l).

Lemma len_nonneg {A} (l : list A) : 0 ≤ len l.
Proof. unfold len. lia. Qed.
Lemma len_app {A} (l k : list A) : len (l ++ k) = len l + len k.
Proof. unfold len. rewrite length_app. lia. Qed.
Lemma len_cons {A} (x : A) (l : list A) : len (x :: l) = len l + 1.
Proof. unfold len. simpl. lia. Qed.
Lemma len_nil {A} : len (@nil A) = 0.
Proof. reflexivity. Qed.
Lemma len_0_nil {A} (l : list A) : len l = 0 ↔ l = [].
Proof. unfold len. destruct l; simpl; split; intros; done || lia. Qed.

(** The elements at two positions exchanged, [l[i], l[j] = l[j], l[i]]. *)
Definition swap {A} (l : list A) (s : nat * nat) : list A :=
  match l !! s.1, l !! s.2 with
  | Some a, Some b => <[s.1 := b]> (<[s.2 := a]> l)
  | _, _ => l
  end.

Lemma swap_Permutation {A} (l : list A) (s : nat * nat) : swap l s ≡ₚ l.
Proof.
  destruct s as [i j]. unfold swap. simpl. destruct (l !! i) as [a|] eqn:Hi; [|done]. destruct (l !! j) as [b|] eqn:Hj; [|done].
  pose proof (lookup_lt_Some _ _ _ Hi). pose proof (lookup_lt_Some _ _ _ Hj).
  set (f := λ k : nat, if decide (k = i) then j else if decide (k = j) then i else k).
  apply Permutation_inj. split; [by rewrite !length_insert|]. exists f. split.
  - intros k k'. unfold f. repeat case_decide; lia.
  - intros k. unfold f. destruct (decide (k = i)) as [->|Hki].
    + rewrite list_lookup_insert_eq by (by rewrite length_insert). done.
    + rewrite list_lookup_insert_ne by done. destruct (decide (k = j)) as [->|Hkj]; [by rewrite list_lookup_insert_eq|].
      by rewrite list_lookup_insert_ne.
Qed.

(** ** Weakest preconditions of the state and error monad *)

Definition wp {S E A} (m : M S E A) (Q : outcome E A → S → Prop) (s : S) : Prop :=
  Q (m s).1 (m s).2.

(** [on_ok K Q] runs [K] on a normal return and [Q] on every other outcome. *)
Definition on_ok {S E A B} (K : A → S → Prop) (Q : outcome E B → S → Prop)
    (o : outcome E A) (s : S) : Prop :=
  match o with
  | Ok a => K a s
  | Err e => Q (Err e) s
  | Panic => Q Panic s
  | Blocked => Q Blocked s
  end.

Section wp_rules.
Context {S E : Type}.
Implicit Types s : S.

Lemma wp_bind {A B} (m : M S E A) (k : A → M S E B) Q s :
  wp m (on_ok (λ a, wp (k a) Q) Q) s → wp (bind m k) Q s.
Proof. unfold wp, bind, on_ok. destruct (m s) as [[] ?]; simpl; auto. Qed.

Lemma wp_mono {A} (m : M S E A) (Q Q' : outcome E A → S → Prop) s :
  wp m Q s → (∀ o s', Q o s' → Q' o s') → wp m Q' s.
Proof. unfold wp. auto. Qed.

Lemma wp_and {A} (m : M S E A) (Q Q' : outcome E A → S → Prop) s :
  wp m Q s → wp m Q' s → wp m (λ o s', Q o s' ∧ Q' o s') s.
Proof. unfold wp. auto. Qed.

Lemma wp_get {B} (k : S → M S E B) Q s : wp (k s) Q s → wp (bind get k) Q s.
Proof. done. Qed.

Lemma wp_lift {A B} (o : outcome E A) (k : A → M S E B) Q s :
  on_ok (λ a, wp (k a) Q) Q o s → wp (bind (lift o) k) Q s.
Proof. unfold wp, bind, lift, on_ok. by destruct o. Qed.

Lemma wp_modify {B} (f : S → S) (k : unit → M S E B) Q s :
  wp (k tt) Q (f s) → wp (bind (modify f) k) Q s.
Proof. done. Qed.
End wp_rules.

(** A computation relates every start state to every end state by [R],
    whatever the outcome. *)
Definition preserves {S E A} (R : S → S → Prop) (m : M S E A) : Prop := ∀ s, R s (m s).2.

Section preserves_rules.
Context {S E : Type} (R : S → S → Prop) `{!PreOrder R}.

Lemma preserves_ret {A} (a : A) : preserves R (ret a : M S E A).
Proof. intros s. reflexivity. Qed.
Lemma preserves_throw {A} (e : E) : preserves R (throw e : M S E A).
Proof. intros s. reflexivity. Qed.
Lemma preserves_panic {A} : preserves R (panic : M S E A).
Proof. intros s. reflexivity. Qed.
Lemma preserves_get : preserves R (get : M S E S).
Proof. intros s. reflexivity. Qed.
Lemma preserves_lift {A} (o : outcome E A) : preserves R (lift o : M S E A).
Proof. intros s. reflexivity. Qed.
Lemma preserves_modify (f : S → S) :
  (∀ s, R s (f s)) → preserves R (modify f : M S E unit).
Proof. intros H s. apply H. Qed.
Lemma preserves_bind {A B} (m : M S E A) (k : A → M S E B) :
  preserves R m → (∀ a, preserves R (k a)) → preserves R (bind m k).
Proof.
  intros Hm Hk s. specialize (Hm s). unfold bind.
  destruct (m s) as [[a| | |] s'] eqn:Heq; simpl in *; try done.
  transitivity s'; [done|]. apply Hk.
Qed.
End preserves_rules.

(** ** Invariants and step relations

    [keeps I R m s]: from a state [s] with the invariant [I], [m] does not panic,
    and its end state has the invariant and is related to [s] by [R], on every
    outcome. *)
Definition keeps {S E A} (I : S → Prop) (R : S → S → Prop) (m : M S E A) (s : S) : Prop :=
  I s → (m s).1 ≠ Panic ∧ I (m s).2 ∧ R s (m s).2.

Section keeps_rules.
Context {S E : Type} (I : S → Prop) (R : S → S → Prop) `{!PreOrder R}.
Implicit Types s : S.

Lemma keeps_ret {A} (a : A) s : keeps I R (ret a : M S E A) s.
Proof. intros HI. split_and!; [done|done|reflexivity]. Qed.

Lemma keeps_throw {A} (e : E) s : keeps I R (throw e : M S E A) s.
Proof. intros HI. split_and!; [done|done|reflexivity]. Qed.

Lemma keeps_lift {A} (o : outcome E A) s : (I s → o ≠ Panic) → keeps I R (lift o) s.
Proof. intros Ho HI. split_and!; [by apply Ho|done|reflexivity]. Qed.

Lemma keeps_modify (f : S → S) s :
  (I s → I (f s) ∧ R s (f s)) → keeps I R (modify f : M S E unit) s.
Proof. intros Hf HI. by split; [|apply Hf]. Qed.

Lemma keeps_put (s' s : S) : (I s → I s' ∧ R s s') → keeps I R (put s' : M S E unit) s.
Proof. intros Hf HI. by split; [|apply Hf]. Qed.

Lemma keeps_bind {A B} (m : M S E A) (k : A → M S E B) s :
  keeps I R m s →
  (∀ a, (m s).1 = Ok a → I (m s).2 → R s (m s).2 → keeps I R (k a) (m s).2) →
  keeps I R (bind m k) s.
Proof.
  intros Hm Hk HI. destruct (Hm HI) as (Hp & HI' & HR). unfold bind.
  destruct (m s) as [[a| | |] s']; simpl in *; try done.
  destruct (Hk a eq_refl HI' HR HI') as (Hp' & HI'' & HR').
  split_and!; [done|done|by transitivity s'].
Qed.

(** The continuation only needs what the invariant and the relation say. *)
Lemma keeps_seq {A B} (m : M S E A) (k : A → M S E B) s :
  keeps I R m s → (∀ a s', R s s' → keeps I R (k a) s') → keeps I R (bind m k) s.
Proof. intros Hm Hk. apply keeps_bind; [done|]. intros a _ _ HR. by apply Hk. Qed.

(** As [keeps_seq], with a stronger relation for the first part. *)
Lemma keeps_seq_rel {A B} (R1 : S → S → Prop) (m : M S E A) (k : A → M S E B) s :
  keeps I R1 m s → (∀ s', R1 s s' → R s s') →
  (∀ a s', R1 s s' → keeps I R (k a) s') → keeps I R (bind m k) s.
Proof.
  intros Hm HR Hk HI. destruct (Hm HI) as (Hp & HI' & HR1). unfold bind.
  destruct (m s) as [[a| | |] s']; simpl in *; auto.
  destruct (Hk a s' HR1 HI') as (? & ? & ?). split_and!; [done|done|]. transitivity s'; auto.
Qed.

(** Continue from the state a prefix of the computation leads to. *)
Lemma keeps_run {A} (m m' : M S E A) s s' :
  m s = m' s' → (I s → I s' ∧ R s s' ∧ keeps I R m' s') → keeps I R m s.
Proof.
  intros Heq H HI. destruct (H HI) as (HI' & HR & Hm). rewrite Heq.
  destruct (Hm HI') as (? & ? & ?). split_and!; [done|done|]. by transitivity s'.
Qed.

Lemma keeps_get {B} (k : S → M S E B) s : keeps I R (k s) s → keeps I R (bind get k) s.
Proof. done. Qed.

(** A pure result is bound to its value. *)
Lemma keeps_lift_bind {A B} (o : outcome E A) (k : A → M S E B) s :
  (I s → o ≠ Panic) → (∀ a, o = Ok a → keeps I R (k a) s) → keeps I R (bind (lift o) k) s.
Proof.
  intros Ho Hk HI. unfold bind, lift. specialize (Ho HI).
  destruct o; simpl; try done. by apply Hk.
Qed.

Lemma keeps_forEach {A} (l : list A) (f : A → M S E unit) s :
  (∀ x s', x ∈ l → R s s' → keeps I R (f x) s') → keeps I R (forEach l f) s.
Proof.
  revert s. induction l as [|x l IH]; intros s Hf; simpl; [apply keeps_ret|].
  apply keeps_seq; [apply Hf; [set_solver|reflexivity]|]. intros [] s' HR. apply IH.
  intros y s'' Hy HR'. apply Hf; [set_solver|]. by transitivity s'.
Qed.

Lemma keeps_pre {A} (m : M S E A) s : (I s → keeps I R m s) → keeps I R m s.
Proof. intros H HI. by apply H. Qed.
End keeps_rules.

Lemma keeps_weaken {S E A} (I : S → Prop) (R R' : S → S → Prop) (m : M S E A) (s : S) :
  (∀ s', R s s' → R' s s') → keeps I R m s → keeps I R' m s.
Proof. intros HR Hm HI. destruct (Hm HI) as (? & ? & ?). auto. Qed.

(** ** Tactics *)

(** Case analysis on the innermost discriminee of a [match] or an [if] of the goal. *)
Ltac case_goal :=
  match goal with
  | |- context [match ?x with _ => _ end] =>
    lazymatch x with
    | context [match _ with _ => _ end] => fail
    | _ => let Hx := fresh "Heq" in destruct x eqn:Hx
    end
  end.

(** Boolean tests of the code turned into propositions. *)
Ltac bool_hyps :=
  repeat match goal with
  | H : (_ && _) = true |- _ => apply andb_true_iff in H; destruct H
  | H : (_ || _) = false |- _ => apply orb_false_iff in H; destruct H
  | H : negb _ = true |- _ => apply negb_true_iff in H
  | H : negb _ = false |- _ => apply negb_false_iff in H
  | H : (_ =? _) = true |- _ => apply Z.eqb_eq in H
  | H : (_ =? _) = false |- _ => apply Z.eqb_neq in H
  | H : (_ <? _) = true |- _ => apply Z.ltb_lt in H
  | H : (_ <? _) = false |- _ => apply Z.ltb_ge in H
  | H : (_ <=? _) = true |- _ => apply Z.leb_le in H
  | H : (_ <=? _) = false |- _ => apply Z.leb_gt in H
  | H : bool_decide _ = true |- _ => apply bool_decide_eq_true in H
  | H : bool_decide _ = false |- _ => apply bool_decide_eq_false in H
  end.

(** Contradiction between integer tests of the code. *)
Ltac absurd_bool :=
  exfalso;
  repeat match goal with H : (_ || _) = true |- _ => apply orb_true_iff in H as [H|H] end;
  bool_hyps; simpl in *; ulia.

(** Case analysis on the outermost discriminee of a program [prog = _]. *)
Ltac case_outer :=
  match goal with
  | |- (match ?x with _ => _ end) = _ → _ => let Hx := fresh "Heq" in destruct x eqn:Hx
  | |- outcome_bind ?x _ = _ → _ => let Hx := fresh "Heq" in destruct x eqn:Hx; cbn [outcome_bind]
  end.

(** Follow a program that must end in [Ok]. *)
Ltac run_ok := repeat (case_outer; try (intros; discriminate)).

(** ** Calls that return *)

(** A value or an error, neither a panic nor a wait. *)
Definition returns {E A} (o : outcome E A) : Prop :=
  match o with Ok _ | Err _ => True | Panic | Blocked => False end.

Lemma outcome_bind_returns {E A B} (m : outcome E A) (k : A → outcome E B) :
  returns m → (∀ a, m = Ok a → returns (k a)) → returns (outcome_bind m k).
Proof. destruct m; simpl; auto. Qed.

Lemma returns_no_panic {E A} (o : outcome E A) : returns o → o ≠ Panic.
Proof. by destruct o. Qed.

Create HintDb returns.

(** Follow every branch of a pure call to a return. *)
Ltac solve_returns :=
  repeat match goal with
  | |- returns ?x =>
    lazymatch x with
    | outcome_bind _ _ => apply outcome_bind_returns; [|intros ? ?]
    | match ?y with _ => _ end =>
      first [ let H := fresh in assert (returns y) as H by (auto with returns); destruct y eqn:?;
              try destruct H
            | destruct y eqn:? ]
    | let _ := _ in _ => cbv zeta
    | _ => solve [exact I | auto with returns]
    end
  | |- True => exact I
  end.
