(* ===== verification/Hash.v ===== *)
(** * Checksums of the Go standard library

    SHA-256 ([crypto/sha256]), HMAC-SHA-256 ([crypto/hmac]) and CRC-32C
    ([hash/crc32] with the Castagnoli table) as executable functions on byte
    lists, with their published test vectors.  The properties of the development
    hold for every function with the right output length; these definitions are
    the functions the code calls. *)

From S2P Require Import Prelude.

Module Hash.

(** ** 32-bit words *)

Definition word_mask : Z := 4294967295.
Definition add32 (x y : Z) : Z := Z.land (x + y) word_mask.
Definition rotr (n x : Z) : Z :=
  Z.lor (Z.shiftr x n) (Z.land (Z.shiftl x (32 - n)) word_mask).
Definition not32 (x : Z) : Z := Z.lxor x word_mask.

(** ** SHA-256 *)

(** The constants are the first 32 bits of the fractional parts of the cube roots
    of the first 64 primes and of the square roots of the first eight. *)
Definition isPrime (n : Z) : bool :=
  forallb (λ d, negb (n mod d =? 0)) (map Z.of_nat (seq 2 (Z.to_nat n - 2))).
Definition sha_primes : list Z :=
  Eval vm_compute in List.filter isPrime (map Z.of_nat (seq 2 310)).

(** The largest [r < 2^bits] whose [k]-th power is at most [n]. *)
Fixpoint rootBits (bits : nat) (k n r : Z) : Z :=
  match bits with
  | O => r
  | S i => let r' := r + 2 ^ Z.of_nat i in rootBits i k n (if r' ^ k <=? n then r' else r)
  end.
Definition rootFraction (k p : Z) : Z := Z.land (rootBits 40 k (p * 2 ^ (32 * k)) 0) word_mask.

Definition sha_k : list Z := Eval vm_compute in map (rootFraction 3) sha_primes.
Definition sha_init : list Z := Eval vm_compute in map (rootFraction 2) (take 8 sha_primes).

(** The message followed by a one bit, zeros and its length in bits. *)
Definition sha_pad (m : list byte) : list byte :=
  let zeros := Z.to_nat ((119 - len m mod 64) mod 64) in
  m ++ [Byte.x80] ++ replicate zeros Byte.x00 ++ be_bytes 8 (8 * len m).

Fixpoint words (fuel : nat) (l : list byte) : list Z :=
  match fuel with
  | O => []
  | S n => match l with [] => [] | _ => be_value (take 4 l) :: words n (drop 4 l) end
  end.

(** The schedule, newest word first: [w] holds the words [t-1], [t-2], ... *)
Fixpoint sha_schedule (n : nat) (w : list Z) : list Z :=
  match n with
  | O => w
  | S k =>
    let at_ i := nth i w 0 in
    let s0 := let x := at_ 14%nat in Z.lxor (Z.lxor (rotr 7 x) (rotr 18 x)) (Z.shiftr x 3) in
    let s1 := let x := at_ 1%nat in Z.lxor (Z.lxor (rotr 17 x) (rotr 19 x)) (Z.shiftr x 10) in
    sha_schedule k (add32 (add32 (at_ 15%nat) s0) (add32 (at_ 6%nat) s1) :: w)
  end.

Definition sha_round (st : list Z) (kw : Z * Z) : list Z :=
  match st with
  | [a; b; c; d; e; f; g; h] =>
    let s1 := Z.lxor (Z.lxor (rotr 6 e) (rotr 11 e)) (rotr 25 e) in
    let ch := Z.lxor (Z.land e f) (Z.land (not32 e) g) in
    let t1 := add32 (add32 h s1) (add32 ch (add32 kw.1 kw.2)) in
    let s0 := Z.lxor (Z.lxor (rotr 2 a) (rotr 13 a)) (rotr 22 a) in
    let maj := Z.lxor (Z.lxor (Z.land a b) (Z.land a c)) (Z.land b c) in
    [add32 t1 (add32 s0 maj); a; b; c; add32 d t1; e; f; g]
  | _ => st
  end.

Definition sha_block (st : list Z) (block : list byte) : list Z :=
  let w := rev (sha_schedule 48 (rev (words 16 block))) in
  zip_with add32 st (foldl sha_round st (zip sha_k w)).

Fixpoint sha_blocks (fuel : nat) (st : list Z) (l : list byte) : list Z :=
  match fuel with
  | O => st
  | S n => match l with [] => st | _ => sha_blocks n (sha_block st (take 64 l)) (drop 64 l) end
  end.

Definition sha256 (m : list byte) : list byte :=
  let padded := sha_pad m in
  concat (map (be_bytes 4) (sha_blocks (length padded) sha_init padded)).

(** [hmac.New(sha256.New, key)] over a message. *)
Definition hmac_sha256 (key m : list byte) : list byte :=
  let key := if 64 <? len key then sha256 key else key in
  let key := key ++ replicate (64 - length key) Byte.x00 in
  let pad x := map (λ b, byte_of_Z (Z.lxor (byte_to_Z b) x)) key in
  sha256 (pad 0x5c ++ sha256 (pad 0x36 ++ m)).

(** ** CRC-32C *)

Definition crc_bit (x : Z) : Z :=
  if Z.odd x then Z.lxor (Z.shiftr x 1) 0x82f63b78 else Z.shiftr x 1.

Definition crc_byte (crc : Z) (b : byte) : Z := Nat.iter 8 crc_bit (Z.lxor crc (byte_to_Z b)).

(** [crc32.Checksum(data, crc32.MakeTable(crc32.Castagnoli))] *)
Definition crc32c (data : list byte) : Z := not32 (foldl crc_byte word_mask data).

(** ** Output sizes *)

Lemma sha_round_length (st : list Z) (kw : Z * Z) : length (sha_round st kw) = length st.
Proof. unfold sha_round. repeat (case_goal; simpl; try done). Qed.

Lemma sha_rounds_length (l : list (Z * Z)) (st : list Z) : length (foldl sha_round st l) = length st.
Proof. revert st. induction l as [|kw l IH]; intros st; simpl; [done|]. by rewrite IH, sha_round_length. Qed.

Lemma sha_blocks_length (fuel : nat) (st : list Z) (l : list byte) :
  length (sha_blocks fuel st l) = length st.
Proof.
  revert st l. induction fuel as [|n IH]; intros st l; simpl; [done|]. destruct l; [done|].
  rewrite IH. unfold sha_block. rewrite length_zip_with, sha_rounds_length. lia.
Qed.

Lemma sha256_length (m : list byte) : length (sha256 m) = 32%nat.
Proof.
  unfold sha256. cbv zeta. pose proof (sha_blocks_length (length (sha_pad m)) sha_init (sha_pad m)) as H.
  revert H. generalize (sha_blocks (length (sha_pad m)) sha_init (sha_pad m)). intros l Hl.
  do 8 (destruct l as [|? l]; [done|]). destruct l; [|done].
  cbn [map concat]. rewrite !length_app, !length_be_bytes. done.
Qed.

Lemma land_mask_u32 (x : Z) : is_u32 (Z.land x word_mask).
Proof.
  change word_mask with (Z.ones 32). rewrite Z.land_ones by lia.
  pose proof (Z.mod_pos_bound x (2 ^ 32) eq_refl). ulia.
Qed.

Lemma u32_bits (x : Z) : is_u32 x ↔ 0 ≤ x ∧ ∀ i, 32 ≤ i → Z.testbit x i = false.
Proof.
  split.
  - intros H. split; [ulia|]. intros i Hi. destruct (decide (x = 0)) as [->|]; [apply Z.testbit_0_l|].
    apply Z.bits_above_log2; [ulia|]. apply Z.log2_lt_pow2; [ulia|].
    assert (2 ^ 32 ≤ 2 ^ i) by (apply Z.pow_le_mono_r; lia). ulia.
  - intros [Hx Hb]. assert (Z.land x word_mask = x) as <-; [|apply land_mask_u32].
    change word_mask with (Z.ones 32). apply Z.bits_inj'. intros i Hi. rewrite Z.land_spec.
    destruct (decide (i < 32)).
    + by rewrite Z.ones_spec_low, andb_true_r by lia.
    + by rewrite Hb by lia.
Qed.

Lemma lxor_u32 (x y : Z) : is_u32 x → is_u32 y → is_u32 (Z.lxor x y).
Proof.
  rewrite !u32_bits. intros [Hx Hbx] [Hy Hby]. split; [by apply Z.lxor_nonneg|].
  intros i Hi. rewrite Z.lxor_spec, Hbx, Hby by done. done.
Qed.

Lemma shiftr1_u32 (x : Z) : is_u32 x → is_u32 (Z.shiftr x 1).
Proof.
  intros H. rewrite Z.shiftr_div_pow2 by lia. change (2 ^ 1) with 2.
  Z.to_euclidean_division_equations. ulia.
Qed.

Lemma crc_bit_u32 (x : Z) : is_u32 x → is_u32 (crc_bit x).
Proof.
  intros H. unfold crc_bit. case_goal; [|by apply shiftr1_u32]. apply lxor_u32; [by apply shiftr1_u32|ulia].
Qed.

Lemma crc32c_u32 (data : list byte) : is_u32 (crc32c data).
Proof.
  assert (∀ l x, is_u32 x → is_u32 (foldl crc_byte x l)) as H.
  { induction l as [|b l IH]; intros x Hx; simpl; [done|]. apply IH. unfold crc_byte. simpl.
    do 8 apply crc_bit_u32. apply lxor_u32; [done|]. pose proof (byte_to_Z_range b). ulia. }
  apply lxor_u32; [|unfold word_mask; ulia]. apply H. unfold word_mask. ulia.
Qed.

(** ** Test vectors *)

Example sha256_abc :
  be_value (sha256 [Byte.x61; Byte.x62; Byte.x63]) =
  0xba7816bf8f01cfea414140de5dae2223b00361a396177a9cb410ff61f20015ad.
Proof. vm_compute. reflexivity. Qed.

Example sha256_empty :
  be_value (sha256 []) = 0xe3b0c44298fc1c149afbf4c8996fb92427ae41e4649b934ca495991b7852b855.
Proof. vm_compute. reflexivity. Qed.

(** A message of 56 bytes, whose padding needs a second block. *)
Example sha256_two_blocks :
  be_value (sha256 (replicate 56 Byte.x61)) =
  0xb35439a4ac6f0948b6d6f9e3c6af0f5f590ce20f1bde7090ef7970686ec6738a.
Proof. vm_compute. reflexivity. Qed.

(** RFC 4231, test case 2. *)
Example hmac_jefe :
  be_value (hmac_sha256 (map byte_of_Z [0x4a; 0x65; 0x66; 0x65])
    (map byte_of_Z [0x77; 0x68; 0x61; 0x74; 0x20; 0x64; 0x6f; 0x20; 0x79; 0x61; 0x20; 0x77; 0x61; 0x6e;
      0x74; 0x20; 0x66; 0x6f; 0x72; 0x20; 0x6e; 0x6f; 0x74; 0x68; 0x69; 0x6e; 0x67; 0x3f])) =
  0x5bdcc146bf60754e6a042426089575c75a003f089d2739839dec58b964ec3843.
Proof. vm_compute. reflexivity. Qed.

(** The check value of the nine digits. *)
Example crc32c_digits :
  crc32c (map byte_of_Z [0x31; 0x32; 0x33; 0x34; 0x35; 0x36; 0x37; 0x38; 0x39]) = 0xe3069283.
Proof. vm_compute. reflexivity. Qed.

End Hash.
