(* ===== verification/Heap.v ===== *)
(** * Package [container/heap] of the Go standard library

    The five operations of the package over its interface [heap.Interface], as a
    class: [Push], [Pop], [Remove], [Fix] and the sifts they are made of.  The
    replay guard of the wire protocol and the timer queue of the SWIM service are
    its instances.

    Lemmas: over an implementation whose [Less] is a total preorder, every
    operation keeps the heap order and permutes the elements; the root is a least
    element; no operation panics or runs out of fuel. *)

From S2P Require Import Prelude.

Module Heap.
Open Scope go_scope.
Open Scope Z_scope.

(** ** The package *)

(** [heap.Interface]; [None] is an index out of range. *)
Class HeapInterface (H X : Type) := {
  Len : H → Z;
  Less : Z → Z → H → option bool;
  Swap : Z → Z → H → option H;
  Push : X → H → H;
  Pop : H → option (X * H)
}.

Definition must {E A} (o : option A) : outcome E A :=
  match o with Some a => Ok a | None => Panic end.

Section package.
Context {E H X : Type} `{!HeapInterface H X}.

Fixpoint up (fuel : nat) (j : Z) (h : H) : outcome E H :=
  match fuel with
  | O => Blocked
  | S fuel =>
    let i := Z.quot (j - 1) 2 in
    if i =? j then Ok h
    else
      let? less := must (Less j i h) in
      if negb less then Ok h
      else let? h := must (Swap i j h) in up fuel i h
  end.

Fixpoint downLoop (fuel : nat) (i n : Z) (h : H) : outcome E (Z * H) :=
  match fuel with
  | O => Blocked
  | S fuel =>
    let j1 := 2 * i + 1 in
    if (n <=? j1) || (j1 <? 0) then Ok (i, h)
    else
      let? lower := if j1 + 1 <? n then must (Less (j1 + 1) j1 h) else Ok false in
      let j := if lower then j1 + 1 else j1 in
      let? less := must (Less j i h) in
      if negb less then Ok (i, h)
      else let? h := must (Swap i j h) in downLoop fuel j n h
  end.

Definition down (i0 n : Z) (h : H) : outcome E (bool * H) :=
  let? (i, h) := downLoop (S (Z.to_nat n)) i0 n h in Ok (i0 <? i, h).

Definition siftUp (j : Z) (h : H) : outcome E H := up (S (Z.to_nat j)) j h.

Definition heap_Push (x : X) (h : H) : outcome E H :=
  let h := Push x h in siftUp (Len h - 1) h.

Definition heap_Pop (h : H) : outcome E (X * H) :=
  let n := Len h - 1 in
  let? h := must (Swap 0 n h) in
  let? (_, h) := down 0 n h in
  must (Pop h).

Definition heap_Fix (i : Z) (h : H) : outcome E H :=
  let? (moved, h) := down i (Len h) h in
  if moved then Ok h else siftUp i h.

Definition heap_Remove (i : Z) (h : H) : outcome E (X * H) :=
  let n := Len h - 1 in
  let? h :=
    if n =? i then Ok h
    else
      let? h := must (Swap i n h) in
      let? (moved, h) := down i n h in
      if moved then Ok h else siftUp i h in
  must (Pop h).
End package.

(** [l[i]] with an index of any sign. *)
Definition at_index {A} (l : list A) (i : Z) : option A := if i <? 0 then None else l !! Z.to_nat i.

(** The usual implementation by a slice of values. *)
Definition slice_heap {A} (less : A → A → bool) : HeapInterface (list A) A := {|
  Len := len;
  Less i j l := match at_index l i, at_index l j with Some a, Some b => Some (less a b) | _, _ => None end;
  Swap i j l := match at_index l i, at_index l j with Some _, Some _ => Some (swap l (Z.to_nat i, Z.to_nat j)) | _, _ => None end;
  Push x l := l ++ [x];
  Pop l := match last l with Some x => Some (x, removelast l) | None => None end
|}.

(** ** The heap order *)

Section order.
Context {A : Type} (less : A → A → bool).

(** [less] compares a key in a total preorder. *)
Record weak_order : Prop := {
  less_irrefl : ∀ a, less a a = false;
  less_asym : ∀ a b, less a b = true → less b a = false;
  less_trans : ∀ a b c, less b a = false → less c b = false → less c a = false
}.

Definition parent (i : nat) : nat := ((i - 1) / 2)%nat.

(** The element at [i] is not above the one at [k]. *)
Definition ordered (l : list A) (i k : nat) : Prop :=
  ∀ a b, l !! i = Some a → l !! k = Some b → less b a = false.

Definition heap_ok (l : list A) : Prop := ∀ i, (0 < i)%nat → ordered l (parent i) i.

(** The order holds among the first [n] elements except around position [j]. *)
Definition hole (n : nat) (l : list A) (j : nat) : Prop :=
  (∀ i, (0 < i < n)%nat → i ≠ j → parent i ≠ j → ordered l (parent i) i) ∧
  (∀ c, (0 < c < n)%nat → (0 < j)%nat → parent c = j → ordered l (parent j) c).

Definition children_ok (n : nat) (l : list A) (j : nat) : Prop :=
  ∀ c, (0 < c < n)%nat → parent c = j → ordered l j c.

Definition above_ok (l : list A) (j : nat) : Prop := (0 < j)%nat → ordered l (parent j) j.
End order.

(** What an implementation promises: [view] is the slice it sorts and [inv] an
    invariant of its own that exchanging elements keeps. *)
Record HeapLaws {H X A : Type} `{!HeapInterface H X} (view : H → list A) (less : A → A → bool) (inv : H → Prop) : Prop := {
  law_order : weak_order less;
  law_Len : ∀ h, Len h = len (view h);
  law_Less : ∀ h (i j : nat) a b, view h !! i = Some a → view h !! j = Some b →
    Less (Z.of_nat i) (Z.of_nat j) h = Some (less a b);
  law_Swap : ∀ h (i j : nat), inv h → (i < length (view h))%nat → (j < length (view h))%nat →
    ∃ h', Swap (Z.of_nat i) (Z.of_nat j) h = Some h' ∧ inv h' ∧ view h' = swap (view h) (i, j)
}.

(** ** Positions *)

Lemma parent_lt (i : nat) : (0 < i)%nat → (parent i < i)%nat.
Proof. intros H. unfold parent. apply Nat.Div0.div_lt_upper_bound. lia. Qed.

Lemma parent_eq (i j : nat) : (0 < i)%nat → parent i = j ↔ i = (2 * j + 1)%nat ∨ i = (2 * j + 2)%nat.
Proof.
  intros H. unfold parent. pose proof (Nat.div_mod_eq (i - 1) 2). pose proof (Nat.mod_upper_bound (i - 1) 2). lia.
Qed.

Lemma parent_quot (j : nat) : Z.quot (Z.of_nat j - 1) 2 = Z.of_nat (parent j).
Proof.
  unfold parent. destruct j as [|j]; [done|].
  replace (Z.of_nat (S j) - 1) with (Z.of_nat j) by lia. rewrite Z.quot_div_nonneg by lia.
  replace (S j - 1)%nat with j by lia. by rewrite Nat2Z.inj_div.
Qed.

Lemma lookup_swap {A} (l : list A) (i j k : nat) :
  (i < length l)%nat → (j < length l)%nat →
  swap l (i, j) !! k = if decide (k = i) then l !! j else if decide (k = j) then l !! i else l !! k.
Proof.
  intros Hi Hj. unfold swap. simpl. destruct (lookup_lt_is_Some_2 l i Hi) as [a Ha]. destruct (lookup_lt_is_Some_2 l j Hj) as [b Hb].
  rewrite Ha, Hb. case_decide as H; [subst k; by rewrite list_lookup_insert_eq by (by rewrite length_insert)|].
  rewrite list_lookup_insert_ne by done. case_decide as H'; [subst k; by rewrite list_lookup_insert_eq|]. by rewrite list_lookup_insert_ne.
Qed.

Lemma length_swap {A} (l : list A) (s : nat * nat) : length (swap l s) = length l.
Proof. unfold swap. repeat case_goal; by rewrite ?length_insert. Qed.

(** ** Sifts on the slice *)

Section sift.
Context {A : Type} (less : A → A → bool) (Hless : weak_order less).
Implicit Types l : list A.

(** Exchanging a parent with its lower child moves the hole down. *)
Lemma hole_down (n : nat) l (i c : nat) :
  hole less n l i → (n ≤ length l)%nat → (0 < c < n)%nat → parent c = i →
  (∀ a b, l !! i = Some a → l !! c = Some b → less b a = true) →
  (∀ d, (0 < d < n)%nat → parent d = i → ordered less l c d) →
  hole less n (swap l (i, c)) c ∧ above_ok less (swap l (i, c)) c.
Proof.
  intros [Hh1 Hh2] Hn Hc Hp Hlt Hmin. pose proof (parent_lt c ltac:(lia)).
  assert (∀ k, swap l (i, c) !! k = if decide (k = i) then l !! c else if decide (k = c) then l !! i else l !! k) as E
    by (intros; apply lookup_swap; lia).
  split; [split|].
  - intros d Hd Hdc Hpd a b. rewrite !E. destruct (decide (d = i)) as [->|Hdi].
    + pose proof (parent_lt i ltac:(lia)). rewrite !decide_False by lia.
      apply (Hh2 c); [lia|lia|done].
    + rewrite (decide_False (P := d = c)) by done.
      destruct (decide (parent d = i)) as [Hpi|Hpi]; [by apply Hmin|].
      rewrite decide_False by done. by apply Hh1.
  - intros d Hd _ Hpd a b. rewrite Hp, !E, decide_True by done. pose proof (parent_lt d ltac:(lia)).
    rewrite !decide_False by lia. apply Hh1 in Hd; [|lia|lia]. rewrite Hpd in Hd. apply Hd.
  - intros _ a b. rewrite Hp, !E, decide_True by done. rewrite decide_False, decide_True by lia.
    intros Ha Hb. apply (less_asym _ Hless). by apply Hlt.
Qed.

(** Exchanging an element with its parent moves the hole up. *)
Lemma hole_up (n : nat) l (j : nat) :
  hole less n l j → children_ok less n l j → (n ≤ length l)%nat → (0 < j < n)%nat →
  (∀ a b, l !! parent j = Some a → l !! j = Some b → less b a = true) →
  hole less n (swap l (parent j, j)) (parent j) ∧ children_ok less n (swap l (parent j, j)) (parent j).
Proof.
  intros [Hh1 Hh2] Hch Hn Hj Hlt. pose proof (parent_lt j ltac:(lia)). set (p := parent j) in *.
  assert (∀ k, swap l (p, j) !! k = if decide (k = p) then l !! j else if decide (k = j) then l !! p else l !! k) as E
    by (intros; apply lookup_swap; lia).
  split; [split|].
  - intros d Hd Hdp Hpd a b. rewrite !E, (decide_False (P := d = p)), (decide_False (P := parent d = p)) by done.
    destruct (decide (d = j)) as [->|Hdj]; [done|]. destruct (decide (parent d = j)) as [Hpj|Hpj].
    + by apply (Hh2 d); [|lia|].
    + by apply Hh1.
  - intros d Hd Hp0 Hpd a b. pose proof (parent_lt p Hp0). rewrite !E, !(decide_False (P := parent p = _)) by lia.
    rewrite (decide_False (P := d = p)) by (pose proof (parent_lt d); lia).
    assert (ordered less l (parent p) p) as Hpp by (apply Hh1; lia).
    destruct (decide (d = j)) as [->|Hdj]; [apply Hpp|]. intros Ha Hb.
    destruct (lookup_lt_is_Some_2 l p ltac:(lia)) as [m Hm].
    apply (less_trans _ Hless a m b); [by apply Hpp|].
    assert (ordered less l (parent d) d) as Ho by (apply Hh1; lia). rewrite Hpd in Ho. by apply Ho.
  - intros d Hd Hpd a b. rewrite !E, decide_True by done. rewrite (decide_False (P := d = p)) by (pose proof (parent_lt d); lia).
    destruct (decide (d = j)) as [->|Hdj]; intros Ha Hb.
    + apply (less_asym _ Hless). by apply Hlt.
    + destruct (lookup_lt_is_Some_2 l p ltac:(lia)) as [m Hm].
      apply (less_trans _ Hless a m b); [apply (less_asym _ Hless); by apply Hlt|].
      assert (ordered less l (parent d) d) as Ho by (apply Hh1; lia). rewrite Hpd in Ho. by apply Ho.
Qed.

Lemma hole_filled (n : nat) l (j : nat) :
  hole less n l j → children_ok less n l j → above_ok less l j → ∀ i, (0 < i < n)%nat → ordered less l (parent i) i.
Proof.
  intros [Hh _] Hch Hab i Hi. destruct (decide (i = j)) as [->|Hij]; [by apply Hab; lia|].
  destruct (decide (parent i = j)) as [Hp|Hp]; [|by apply Hh]. rewrite Hp. by apply Hch.
Qed.

Lemma hole_children (n : nat) l (j : nat) :
  (n ≤ 2 * j + 1)%nat → children_ok less n l j.
Proof. intros Hn c Hc Hp. apply parent_eq in Hp; lia. Qed.

(** The root is a least element. *)
Lemma heap_root_least l (a b : A) : heap_ok less l → l !! 0%nat = Some a → b ∈ l → less b a = false.
Proof.
  intros Hok Ha [k Hk]%list_elem_of_lookup. revert b Hk. induction k as [k IH] using lt_wf_ind. intros b Hk.
  destruct (decide (k = 0%nat)) as [->|Hk0]; [rewrite Ha in Hk; injection Hk as <-; apply (less_irrefl _ Hless)|].
  pose proof (parent_lt k ltac:(lia)). pose proof (lookup_lt_Some _ _ _ Hk).
  destruct (lookup_lt_is_Some_2 l (parent k) ltac:(lia)) as [m Hm].
  apply (less_trans _ Hless a m b); [by apply (IH (parent k))|]. by apply (Hok k ltac:(lia)).
Qed.
End sift.

(** ** The operations *)

Section operations.
Context {E H X A : Type} `{!HeapInterface H X} (view : H → list A) (less : A → A → bool) (inv : H → Prop).
Context (Hlaws : HeapLaws view less inv).
Implicit Types h : H.

(** Only the first [n] elements were moved. *)
Definition sifted (n : nat) (h h' : H) : Prop :=
  inv h' ∧ view h' ≡ₚ view h ∧ ∀ k, (n ≤ k)%nat → view h' !! k = view h !! k.

Definition heap_below (n : nat) (l : list A) : Prop := ∀ i, (0 < i < n)%nat → ordered less l (parent i) i.

Lemma sifted_refl (n : nat) h : inv h → sifted n h h.
Proof. intros Hi. by split_and!. Qed.

Lemma sifted_length (n : nat) h h' : sifted n h h' → length (view h') = length (view h).
Proof. intros (_ & Hp & _). by apply Permutation_length. Qed.

Lemma sifted_trans (n : nat) h h1 h2 : sifted n h h1 → sifted n h1 h2 → sifted n h h2.
Proof.
  intros (_ & Hp1 & Hk1) (Hi & Hp2 & Hk2). split_and!; [done|by rewrite Hp2|].
  intros k Hk. by rewrite Hk2, Hk1.
Qed.

Lemma swap_sifted (n : nat) h (i j : nat) : inv h → (i < n)%nat → (j < n)%nat → (n ≤ length (view h))%nat →
  ∃ h', Swap (Z.of_nat i) (Z.of_nat j) h = Some h' ∧ sifted n h h' ∧ view h' = swap (view h) (i, j).
Proof.
  intros Hinv Hi Hj Hn. destruct (law_Swap _ _ _ Hlaws h i j) as (h' & Hs & Hi' & Hv); [done|lia|lia|].
  exists h'. split_and!; [done| |done]. split_and!; [done|rewrite Hv; apply swap_Permutation|].
  intros k Hk. rewrite Hv, lookup_swap by lia. by rewrite !decide_False by lia.
Qed.

(** A sift up ends with the heap order. *)
Lemma up_spec (n fuel j : nat) h :
  inv h → (j < fuel)%nat → (n ≤ length (view h))%nat → (j < n)%nat →
  hole less n (view h) j → children_ok less n (view h) j →
  ∃ h', up (E := E) fuel (Z.of_nat j) h = Ok h' ∧ sifted n h h' ∧ heap_below n (view h').
Proof.
  revert fuel h. induction j as [j IH] using lt_wf_ind. intros fuel h Hinv Hf Hn Hj Hh Hc.
  destruct fuel as [|fuel]; [lia|]. simpl up. rewrite parent_quot.
  destruct (decide (j = 0%nat)) as [->|Hj0].
  { exists h. split_and!; [done|by apply sifted_refl|]. intros i Hi. apply (hole_filled less n _ 0); [done|done| |done]. intros ?. lia. }
  pose proof (parent_lt j ltac:(lia)). rewrite (proj2 (Z.eqb_neq _ _)) by lia.
  destruct (lookup_lt_is_Some_2 (view h) j ltac:(lia)) as [b Hb].
  destruct (lookup_lt_is_Some_2 (view h) (parent j) ltac:(lia)) as [a Ha].
  rewrite (law_Less _ _ _ Hlaws h j (parent j) b a Hb Ha). cbn [must outcome_bind].
  destruct (less b a) eqn:Hba; cbn [negb].
  - destruct (swap_sifted n h (parent j) j) as (h' & -> & Hs & Hv); [done|lia|done|done|]. cbn [must outcome_bind].
    destruct (hole_up less (law_order _ _ _ Hlaws) n (view h) j) as [Hh' Hc']; [done|done|done|lia| |].
    { intros a' b' Ha' Hb'. by simplify_eq. }
    destruct (IH (parent j)) with (fuel := fuel) (h := h') as (h2 & Hu & Hs2 & Hb2);
      [lia|apply Hs|lia|by rewrite (sifted_length n h h')|lia|by rewrite Hv|by rewrite Hv|].
    exists h2. split_and!; [done|by apply (sifted_trans n h h')|done].
  - exists h. split_and!; [done|by apply sifted_refl|]. intros i Hi.
    apply (hole_filled less n _ j); [done|done| |done]. intros _ a' b' Ha' Hb'. by simplify_eq.
Qed.

(** The lower of two children. *)
Lemma lower_child (n : nat) h (i : nat) :
  (n ≤ length (view h))%nat → (2 * i + 1 < n)%nat →
  ∃ c : nat, (let? lower := if Z.of_nat (2 * i + 1) + 1 <? Z.of_nat n
                then must (Less (Z.of_nat (2 * i + 1) + 1) (Z.of_nat (2 * i + 1)) h) else Ok false in
              Ok (if lower then Z.of_nat (2 * i + 1) + 1 else Z.of_nat (2 * i + 1))) = (Ok (Z.of_nat c) : outcome E Z) ∧
    (0 < c < n)%nat ∧ parent c = i ∧ ∀ d, (0 < d < n)%nat → parent d = i → ordered less (view h) c d.
Proof.
  intros Hn Hi. set (c1 := (2 * i + 1)%nat) in *. destruct (lookup_lt_is_Some_2 (view h) c1 ltac:(lia)) as [a Ha].
  assert (∀ d, (0 < d)%nat → parent d = i → d = c1 ∨ d = S c1) as Hd by (intros d Hd0 Hd; apply parent_eq in Hd; lia).
  pose proof (law_order _ _ _ Hlaws) as Ho. destruct (Z.ltb_spec (Z.of_nat c1 + 1) (Z.of_nat n)) as [Hlt|Hge].
  - destruct (lookup_lt_is_Some_2 (view h) (S c1) ltac:(lia)) as [b Hb].
    replace (Z.of_nat c1 + 1) with (Z.of_nat (S c1)) by lia. rewrite (law_Less _ _ _ Hlaws h (S c1) c1 b a Hb Ha).
    cbn [must outcome_bind]. destruct (less b a) eqn:Hba; [exists (S c1)|exists c1];
      (split_and!; [done|lia|lia|apply parent_eq; lia|]; intros d Hd0 Hdp x y Hx Hy;
      destruct (Hd d ltac:(lia) Hdp) as [->| ->]; simplify_eq; try apply (less_irrefl _ Ho); try done; by apply (less_asym _ Ho)).
  - exists c1. split_and!; [done|lia|lia|apply parent_eq; lia|]. intros d Hd0 Hdp x y Hx Hy.
    destruct (Hd d ltac:(lia) Hdp) as [->| ->]; [|lia]. simplify_eq. apply (less_irrefl _ Ho).
Qed.

(** What a sift down leaves: either it did nothing, or the element moved to a
    place below. *)
Lemma downLoop_spec (n fuel i : nat) h :
  inv h → (n - i < fuel)%nat → (n ≤ length (view h))%nat → hole less n (view h) i →
  ∃ (i' : nat) h', downLoop (E := E) fuel (Z.of_nat i) (Z.of_nat n) h = Ok (Z.of_nat i', h') ∧
    sifted n h h' ∧ hole less n (view h') i' ∧ children_ok less n (view h') i' ∧
    (i' = i ∧ h' = h ∨ (i < i')%nat ∧ above_ok less (view h') i').
Proof.
  revert i h. induction fuel as [|fuel IH]; intros i h Hinv Hf Hn Hh; [lia|]. simpl downLoop.
  replace (2 * Z.of_nat i + 1) with (Z.of_nat (2 * i + 1)) by lia.
  rewrite (proj2 (Z.ltb_ge (Z.of_nat (2 * i + 1)) 0)), orb_false_r by lia.
  destruct (Z.leb_spec (Z.of_nat n) (Z.of_nat (2 * i + 1))) as [Hend|Hin].
  { exists i, h. split_and!; [done|by apply sifted_refl|done|apply hole_children; lia|by left]. }
  destruct (lower_child n h i) as (c & Hlow & Hcn & Hcp & Hmin); [done|lia|]. revert Hlow.
  destruct (if Z.of_nat (2 * i + 1) + 1 <? Z.of_nat n
            then must (Less (Z.of_nat (2 * i + 1) + 1) (Z.of_nat (2 * i + 1)) h) else Ok false)
    as [lower| | |]; cbn [outcome_bind]; try done. intros Hlow.
  rewrite (f_equal (λ o, match o with Ok x => x | _ => 0 end) Hlow : _ = Z.of_nat c). clear Hlow.
  destruct (lookup_lt_is_Some_2 (view h) c ltac:(lia)) as [b Hb]. pose proof (parent_lt c ltac:(lia)).
  destruct (lookup_lt_is_Some_2 (view h) i ltac:(lia)) as [a Ha].
  rewrite (law_Less _ _ _ Hlaws h c i b a Hb Ha). cbn [must outcome_bind]. destruct (less b a) eqn:Hba; cbn [negb].
  - destruct (swap_sifted n h i c) as (h' & -> & Hs & Hv); [done|lia|lia|done|]. cbn [must outcome_bind].
    destruct (hole_down less (law_order _ _ _ Hlaws) n (view h) i c) as [Hh' Hab]; [done|done|lia|done| |done|].
    { intros a' b' Ha' Hb'. by simplify_eq. }
    destruct (IH c h') as (i' & h2 & -> & Hs2 & Hh2 & Hc2 & Hi2); [apply Hs|lia|by rewrite (sifted_length n h h')|by rewrite Hv|].
    exists i', h2. split_and!; [done|by apply (sifted_trans n h h')|done|done|]. right.
    destruct Hi2 as [[-> ->]|[Hlt Hab2]]; (split; [lia|]); [by rewrite Hv|done].
  - exists i, h. split_and!; [done|by apply sifted_refl|done| |by left]. intros d Hd Hdp a' d' Ha' Hd'.
    rewrite Ha in Ha'. injection Ha' as <-. apply (less_trans _ (law_order _ _ _ Hlaws) a b d'); [done|]. by apply (Hmin d).
Qed.

(** Both sifts around one position restore the order. *)
Lemma sift_spec (n i : nat) h :
  inv h → (n ≤ length (view h))%nat → (i < n)%nat → hole less n (view h) i →
  ∃ h', (let? (moved, h) := down (E := E) (Z.of_nat i) (Z.of_nat n) h in if moved then Ok h else siftUp (Z.of_nat i) h) = Ok h' ∧
    sifted n h h' ∧ heap_below n (view h').
Proof.
  intros Hinv Hn Hi Hh. unfold down.
  destruct (downLoop_spec n (S (Z.to_nat (Z.of_nat n))) i h) as (i' & h' & -> & Hs & Hh' & Hc' & Hcase); [done|lia|done|done|].
  cbn [outcome_bind]. destruct Hcase as [[-> ->]|[Hlt Hab]].
  - rewrite Z.ltb_irrefl. unfold siftUp. apply up_spec; [done|lia|done|done|done|done].
  - rewrite (proj2 (Z.ltb_lt _ _)) by lia. exists h'. split_and!; [done|done|].
    intros k Hk. by apply (hole_filled less n _ i').
Qed.

Lemma down_spec (n : nat) h :
  inv h → (n ≤ length (view h))%nat → hole less n (view h) 0 →
  ∃ b h', down (E := E) 0 (Z.of_nat n) h = Ok (b, h') ∧ sifted n h h' ∧ heap_below n (view h').
Proof.
  intros Hinv Hn Hh. unfold down.
  destruct (downLoop_spec n (S (Z.to_nat (Z.of_nat n))) 0 h) as (i' & h' & Hd & Hs & Hh' & Hc' & Hcase); [done|lia|done|done|].
  change (Z.of_nat 0) with 0 in Hd. rewrite Hd. cbn [outcome_bind]. eexists _, h'. split_and!; [done|done|].
  intros k Hk. apply (hole_filled less n _ i'); [done|done| |done].
  destruct Hcase as [[-> ->]|[Hlt Hab]]; [intros ?; lia|done].
Qed.

Lemma below_heap_ok l : heap_below (length l) l → heap_ok less l.
Proof.
  intros Hb i Hi a b Ha Hb'. pose proof (lookup_lt_Some _ _ _ Hb'). exact (Hb i ltac:(lia) a b Ha Hb').
Qed.

(** A heap with one element replaced or added has a hole there. *)
Lemma heap_hole (l l' : list A) (n j : nat) :
  heap_ok less l → (∀ k, (k < n)%nat → k ≠ j → l' !! k = l !! k) → hole less n l' j.
Proof.
  intros Hok Heq. pose proof (law_order _ _ _ Hlaws) as Ho. split.
  - intros i Hi Hij Hpj a b. pose proof (parent_lt i ltac:(lia)). rewrite !Heq by lia. apply Hok. lia.
  - intros c Hc Hj Hp a b Ha Hb. pose proof (parent_lt c ltac:(lia)). pose proof (parent_lt j Hj).
    rewrite Heq in Ha, Hb by lia. pose proof (lookup_lt_Some _ _ _ Hb).
    destruct (lookup_lt_is_Some_2 l j ltac:(lia)) as [m Hm].
    apply (less_trans _ Ho a m b); [by apply (Hok j)|]. pose proof (Hok c ltac:(lia)) as Hcc. rewrite Hp in Hcc. by apply Hcc.
Qed.

Lemma below_app_ok (l k : list A) : heap_below (length l) (l ++ k) → heap_ok less l.
Proof.
  intros Hb i Hi a b Ha Hb'. pose proof (lookup_lt_Some _ _ _ Hb'). apply (Hb i ltac:(lia) a b); by apply lookup_app_l_Some.
Qed.

Lemma heap_Push_spec (x : X) h (a : A) :
  heap_ok less (view h) → inv (Push x h) → view (Push x h) = view h ++ [a] →
  ∃ h', heap_Push (E := E) x h = Ok h' ∧ inv h' ∧ heap_ok less (view h') ∧ view h' ≡ₚ a :: view h.
Proof.
  intros Hok Hinv Hv. unfold heap_Push, siftUp. rewrite (law_Len _ _ _ Hlaws). cbv zeta.
  assert (length (view (Push x h)) = S (length (view h))) as Hl by (rewrite Hv, length_app; simpl; lia).
  replace (len (view (Push x h)) - 1) with (Z.of_nat (length (view h))) by (unfold len; lia).
  destruct (up_spec (S (length (view h))) (S (Z.to_nat (Z.of_nat (length (view h))))) (length (view h)) (Push x h))
    as (h' & -> & (Hi & Hp & _) & Hb); [done|lia|lia|lia| |apply hole_children; lia|].
  { apply (heap_hole (view h)); [done|]. intros k Hk Hne. rewrite Hv. by rewrite lookup_app_l by lia. }
  exists h'. split_and!; [done|done| |].
  - apply below_heap_ok. by rewrite (Permutation_length Hp), Hl.
  - rewrite Hp, Hv. symmetry. apply Permutation_cons_append.
Qed.

Lemma heap_Fix_spec (i : nat) h :
  inv h → (i < length (view h))%nat → hole less (length (view h)) (view h) i →
  ∃ h', heap_Fix (E := E) (Z.of_nat i) h = Ok h' ∧ inv h' ∧ heap_ok less (view h') ∧ view h' ≡ₚ view h.
Proof.
  intros Hinv Hi Hh. unfold heap_Fix. rewrite (law_Len _ _ _ Hlaws).
  destruct (sift_spec (length (view h)) i h) as (h' & Hs & (Hi' & Hp & _) & Hb); [done|done|done|done|].
  exists h'. split_and!; [done|done| |done]. apply below_heap_ok. by rewrite (Permutation_length Hp).
Qed.

(** After an element was exchanged with the last one. *)
Lemma last_out h h1 h' (i : nat) (a : A) (l : list A) (b : A) :
  view h = l ++ [b] → view h !! i = Some a → view h1 = swap (view h) (i, length l) →
  sifted (length l) h1 h' → heap_below (length l) (view h') →
  ∃ l', view h' = l' ++ [a] ∧ heap_ok less l' ∧ l' ++ [a] ≡ₚ view h.
Proof.
  intros Hv Ha Hv1 (Hi & Hp & Hk) Hb. pose proof (lookup_lt_Some _ _ _ Ha) as Hlt.
  assert (length (view h) = S (length l)) as Hl by (rewrite Hv, length_app; simpl; lia).
  assert (length (view h') = S (length l)) as Hl' by (by rewrite (Permutation_length Hp), Hv1, length_swap).
  assert (view h' !! length l = Some a) as Hlast.
  { rewrite Hk, Hv1, lookup_swap by lia. case_decide as Hd; [by rewrite Hd, Ha|]. by rewrite decide_True. }
  exists (take (length l) (view h')). assert (view h' = take (length l) (view h') ++ [a]) as He.
  { rewrite <- (take_S_r _ _ _ Hlast). by rewrite take_ge by lia. }
  split_and!; [done| |].
  - apply (below_app_ok _ [a]). rewrite <- He, length_take. by rewrite Nat.min_l by lia.
  - rewrite <- He, Hp, Hv1. apply swap_Permutation.
Qed.

Lemma heap_Pop_spec h (a : A) (rest : list A) :
  inv h → heap_ok less (view h) → view h = a :: rest →
  ∃ h1 l, heap_Pop (E := E) h = must (Pop h1) ∧ inv h1 ∧ view h1 = l ++ [a] ∧ heap_ok less l ∧ l ++ [a] ≡ₚ view h.
Proof.
  intros Hinv Hok Hv. unfold heap_Pop. rewrite (law_Len _ _ _ Hlaws). cbv zeta.
  assert (view h ≠ []) as (l & b & Hl)%exists_last by (by rewrite Hv).
  assert (length (view h) = S (length l)) as Hlen by (rewrite Hl, length_app; simpl; lia).
  replace (len (view h) - 1) with (Z.of_nat (length l)) by (unfold len; lia).
  destruct (law_Swap _ _ _ Hlaws h 0 (length l)) as (h1 & Hs & Hi1 & Hv1); [done|lia|lia|].
  change (Z.of_nat 0) with 0 in Hs. rewrite Hs. cbn [must outcome_bind].
  assert (length (view h1) = S (length l)) as Hl1 by (by rewrite Hv1, length_swap).
  destruct (down_spec (length l) h1) as (b' & h' & -> & Hsift & Hb); [done|lia| |].
  { apply (heap_hole (view h)); [done|]. intros k Hk Hne. rewrite Hv1, lookup_swap by lia. by rewrite !decide_False by lia. }
  cbn [outcome_bind]. destruct (last_out h h1 h' 0 a l b) as (l' & ? & ? & ?); [done|by rewrite Hv|done|done|done|].
  exists h', l'. split_and!; try done. apply Hsift.
Qed.

Lemma heap_Remove_spec h (i : nat) (a : A) :
  inv h → heap_ok less (view h) → view h !! i = Some a →
  ∃ h1 l, heap_Remove (E := E) (Z.of_nat i) h = must (Pop h1) ∧ inv h1 ∧ view h1 = l ++ [a] ∧ heap_ok less l ∧ l ++ [a] ≡ₚ view h.
Proof.
  intros Hinv Hok Ha. unfold heap_Remove. rewrite (law_Len _ _ _ Hlaws). cbv zeta. pose proof (lookup_lt_Some _ _ _ Ha) as Hlt.
  assert (view h ≠ []) as (l & b & Hl)%exists_last by (by intros H0; rewrite H0 in Ha).
  assert (length (view h) = S (length l)) as Hlen by (rewrite Hl, length_app; simpl; lia).
  replace (len (view h) - 1) with (Z.of_nat (length l)) by (unfold len; lia).
  destruct (Z.eqb_spec (Z.of_nat (length l)) (Z.of_nat i)) as [Hi|Hi].
  - apply Nat2Z.inj in Hi. exists h, l. cbn [outcome_bind]. rewrite Hl in Ha. rewrite <- Hi, lookup_app_r, Nat.sub_diag in Ha by lia.
    injection Ha as ->. split_and!; [done|done|done| |by rewrite Hl].
    apply (below_app_ok _ [a]). intros k Hk. rewrite <- Hl. by apply Hok; lia.
  - destruct (law_Swap _ _ _ Hlaws h i (length l)) as (h1 & Hs & Hi1 & Hv1); [done|lia|lia|]. rewrite Hs. cbn [must outcome_bind].
    assert (length (view h1) = S (length l)) as Hl1 by (by rewrite Hv1, length_swap).
    destruct (sift_spec (length l) i h1) as (h' & -> & Hsift & Hb); [done|lia|lia| |].
    { apply (heap_hole (view h)); [done|]. intros k Hk Hne. rewrite Hv1, lookup_swap by lia. by rewrite !decide_False by lia. }
    cbn [outcome_bind]. destruct (last_out h h1 h' i a l b) as (l' & ? & ? & ?); [done|done|done|done|done|].
    exists h', l'. split_and!; try done. apply Hsift.
Qed.
End operations.

(** ** Slices of values *)

Lemma at_index_nat {A} (l : list A) (i : nat) : at_index l (Z.of_nat i) = l !! i.
Proof. unfold at_index. rewrite (proj2 (Z.ltb_ge _ _)) by lia. by rewrite Nat2Z.id. Qed.

Lemma slice_laws {A} (less : A → A → bool) :
  weak_order less → HeapLaws (HeapInterface0 := slice_heap less) id less (λ _, True).
Proof.
  intros Ho. split; [done|done| |].
  - intros h i j a b Ha Hb. unfold id in *. simpl. by rewrite !at_index_nat, Ha, Hb.
  - intros h i j _ Hi Hj. unfold id in *. simpl. rewrite !at_index_nat. destruct (lookup_lt_is_Some_2 h i Hi) as [a Ha].
    destruct (lookup_lt_is_Some_2 h j Hj) as [b Hb]. rewrite Ha, Hb, !Nat2Z.id. eauto.
Qed.

Lemma slice_Pop {A} (less : A → A → bool) (l : list A) (a : A) :
  Pop (HeapInterface := slice_heap less) (l ++ [a]) = Some (a, l).
Proof. simpl. by rewrite last_snoc, removelast_last. Qed.

(** Comparison of an integer key. *)
Lemma key_order {A} (key : A → Z) : weak_order (λ a b, key a <? key b).
Proof. split; intros *; rewrite ?Z.ltb_ge, ?Z.ltb_lt; lia. Qed.
End Heap.
