(* ===== verification/Random.v ===== *)
(** * Unbiased bounded random values

    [internal/random/bounded.go].  The random source is a tape of 64-bit samples;
    a call that needs more samples than the tape holds is [Blocked].

    The main result: the value is uniform.  Each value below the bound is the
    result of exactly [2^64 / bound] of the [2^64] possible first samples, and the
    remaining [2^64 mod bound] samples are skipped. *)

From S2P Require Import Prelude.

Module Random.

(** [source.Uint64()]. *)
Definition Uint64 {E} : M (list Z) E Z :=
  λ tape, match tape with [] => (Blocked, []) | value :: rest => (Ok value, rest) end.

(** [-bound % bound] on [uint64]. *)
Definition threshold (bound : Z) : Z := wrap64 (- bound) mod bound.

Fixpoint rejectLoop {E} (bound : Z) (tape : list Z) : outcome E Z * list Z :=
  match tape with
  | [] => (Blocked, [])
  | value :: rest =>
    if threshold bound <=? value then (Ok (value mod bound), rest) else rejectLoop bound rest
  end.

Definition Uint64n {E} (bound : Z) : M (list Z) E Z :=
  if bound =? 0 then panic
  else if Z.land bound (bound - 1) =? 0 then
    let! value := Uint64 in ret (Z.land value (bound - 1))
  else rejectLoop bound.

(** ** Arithmetic of the threshold *)

(** The first sample that yields [v], and its distance to the next. *)
Definition sampleFor (bound v k : Z) : Z :=
  2 ^ 64 mod bound + (v - 2 ^ 64 mod bound) mod bound + k * bound.

Lemma threshold_spec (bound : Z) : 1 ≤ bound ≤ max_uint64 → threshold bound = 2 ^ 64 mod bound.
Proof.
  intros Hb. unfold threshold, wrap64.
  rewrite <- (Z_mod_plus_full (- bound) 1), (Z.mod_small (_ + _)) by ulia.
  change 18446744073709551616 with (2 ^ 64).
  rewrite <- (Z_mod_plus_full (- bound + _) 1 bound). f_equal. lia.
Qed.

Lemma pow2_test (b : Z) : 1 ≤ b → Z.land b (b - 1) = 0 → b = 2 ^ Z.log2 b.
Proof.
  intros Hb Hl. set (k := Z.log2 b). assert (0 ≤ k) as Hk by apply Z.log2_nonneg.
  destruct (Z.log2_spec b) as [Hlo Hhi]; [lia|]. fold k in Hlo, Hhi.
  destruct (decide (b = 2 ^ k)) as [|Hne]; [done|exfalso].
  assert (Z.log2 (b - 1) = k) as Hlog by (apply Z.log2_unique; lia).
  assert (Z.testbit (Z.land b (b - 1)) k = true) as Ht.
  { rewrite Z.land_spec. apply andb_true_iff. split.
    - apply Z.bit_log2. lia.
    - rewrite <- Hlog. apply Z.bit_log2. enough (0 < 2 ^ k) by lia. apply Z.pow_pos_nonneg; lia. }
  by rewrite Hl, Z.bits_0 in Ht.
Qed.

(** A power of two divides [2^64], and masking is reduction. *)
Lemma pow2_facts (b x : Z) :
  1 ≤ b ≤ max_uint64 → Z.land b (b - 1) = 0 →
  2 ^ 64 mod b = 0 ∧ Z.land x (b - 1) = x mod b.
Proof.
  intros Hb Hl. pose proof (pow2_test b ltac:(lia) Hl) as Hp. set (k := Z.log2 b) in *.
  assert (0 ≤ k) as Hk by apply Z.log2_nonneg.
  assert (k < 64) as Hk'.
  { apply Z.log2_lt_pow2; [lia|]. change (2 ^ 64) with 18446744073709551616. ulia. }
  rewrite Hp. split.
  - replace 64 with ((64 - k) + k) by lia. rewrite Z.pow_add_r by lia. apply Z_mod_mult.
  - rewrite <- Z.land_ones by lia. by rewrite Z.ones_equiv.
Qed.

(** Both branches of [Uint64n] skip the samples below [2^64 mod bound] and reduce
    the first other one. *)
Lemma Uint64n_step {E} (bound x : Z) (rest : list Z) :
  1 ≤ bound ≤ max_uint64 → is_u64 x →
  Uint64n (E := E) bound (x :: rest) =
  if 2 ^ 64 mod bound <=? x then (Ok (x mod bound), rest) else Uint64n bound rest.
Proof.
  intros Hb Hx. unfold Uint64n. destruct (Z.eqb_spec bound 0); [lia|].
  destruct (Z.eqb_spec (Z.land bound (bound - 1)) 0) as [Hl|Hl].
  - destruct (pow2_facts bound x Hb Hl) as [-> Hm].
    rewrite (proj2 (Z.leb_le 0 x)) by ulia. unfold bind, Uint64, ret. by rewrite Hm.
  - simpl. by rewrite threshold_spec by done.
Qed.

Lemma Uint64n_shorter {E} (bound : Z) (tape : list Z) (o : outcome E Z) (rest : list Z) :
  1 ≤ bound → Uint64n bound tape = (o, rest) → (length rest ≤ length tape)%nat.
Proof.
  intros Hb. unfold Uint64n. destruct (Z.eqb_spec bound 0); [lia|]. case_goal.
  - destruct tape; unfold bind, Uint64, ret; intros [= _ <-]; simpl; lia.
  - induction tape as [|x tape IH]; simpl; [by intros [= _ <-]|].
    case_goal; [intros [= _ <-]; lia|]. intros ?%IH. lia.
Qed.

Lemma Uint64n_in_range {E} (bound : Z) (tape : list Z) (v : Z) (rest : list Z) :
  1 ≤ bound ≤ max_uint64 → Forall is_u64 tape →
  Uint64n (E := E) bound tape = (Ok v, rest) → 0 ≤ v < bound ∧ ∃ used, tape = used ++ rest.
Proof.
  intros Hb Ht. induction Ht as [|x tape Hx Ht IH].
  - unfold Uint64n. repeat case_goal; done.
  - rewrite Uint64n_step by done. case_goal.
    + intros [= <- <-]. split; [apply Z.mod_pos_bound; lia|]. by exists [x].
    + intros (Hv & used & ->)%IH. split; [done|]. by exists (x :: used).
Qed.

(** The samples reduced to [v] are the [2^64 / bound] numbers [sampleFor bound v k]. *)
Lemma sampleFor_spec (bound x v : Z) :
  1 ≤ bound ≤ max_uint64 → is_u64 x → 0 ≤ v < bound →
  (2 ^ 64 mod bound ≤ x ∧ x mod bound = v ↔
   ∃ k, 0 ≤ k < 2 ^ 64 / bound ∧ x = sampleFor bound v k).
Proof.
  intros Hb Hx Hv. unfold sampleFor. set (t := 2 ^ 64 mod bound).
  assert (2 ^ 64 = bound * (2 ^ 64 / bound) + t) as Hq by (apply Z.div_mod; lia).
  assert (0 ≤ t < bound) as Ht by (apply Z.mod_pos_bound; lia).
  assert (x < 2 ^ 64) as Hx64 by (change (2 ^ 64) with 18446744073709551616; ulia).
  set (q := 2 ^ 64 / bound) in *. split.
  - intros [Hle <-]. exists ((x - t) / bound).
    rewrite Zminus_mod_idemp_l. pose proof (Z.div_mod (x - t) bound ltac:(lia)) as Hd.
    split; [|lia]. split; [apply Z.div_pos; lia|]. apply Z.div_lt_upper_bound; lia.
  - intros (k & Hk & ->). pose proof (Z.mod_pos_bound (v - t) bound ltac:(lia)). split; [nia|].
    rewrite Z_mod_plus_full, Zplus_mod_idemp_r. replace (t + (v - t)) with v by lia.
    by apply Z.mod_small.
Qed.

(** ** Main results *)

(** C38: [Uint64n] is uniform and total on a nonzero bound.  A first sample yields
    [v] at once exactly when it is one of the [2^64 / bound] pairwise distinct
    samples of [v]; every other sample is below [2^64 mod bound], fewer than half
    of all samples, and is skipped.  The value is below the bound. *)
Theorem Uint64n_uniform {E} (bound : Z) (rest : list Z) :
  1 ≤ bound ≤ max_uint64 → Forall is_u64 rest →
  (∀ x v, is_u64 x → 0 ≤ v < bound →
    (Uint64n (E := E) bound (x :: rest) = (Ok v, rest) ↔
     ∃ k, 0 ≤ k < 2 ^ 64 / bound ∧ x = sampleFor bound v k)) ∧
  (∀ v k k', sampleFor bound v k = sampleFor bound v k' → k = k') ∧
  (∀ x, is_u64 x → x < 2 ^ 64 mod bound →
    Uint64n (E := E) bound (x :: rest) = Uint64n bound rest) ∧
  2 * (2 ^ 64 mod bound) < 2 ^ 64 ∧
  (∀ v rest', Uint64n (E := E) bound rest = (Ok v, rest') → 0 ≤ v < bound).
Proof.
  intros Hb Hr. split_and!.
  - intros x v Hx Hv. rewrite <- sampleFor_spec by done. rewrite Uint64n_step by done.
    destruct (Z.leb_spec (2 ^ 64 mod bound) x) as [Hle|Hlt].
    + split; [by intros [= <-]|]. by intros [_ <-].
    + split; [|lia]. intros Hu. exfalso.
      destruct rest as [|y rest'] eqn:Heq; [by revert Hu; unfold Uint64n; repeat case_goal|].
      apply Forall_cons in Hr as [Hy Hr]. rewrite Uint64n_step in Hu by done. revert Hu. case_goal.
      * intros [= _ Hc]. apply (f_equal length) in Hc. simpl in Hc. lia.
      * intros Hc%Uint64n_shorter; simpl in *; lia.
  - unfold sampleFor. nia.
  - intros x Hx Hlt. rewrite Uint64n_step by done. by rewrite (proj2 (Z.leb_gt _ _) Hlt).
  - pose proof (Z.mod_pos_bound (2 ^ 64) bound ltac:(lia)).
    pose proof (Z.div_mod (2 ^ 64) bound ltac:(lia)).
    assert (1 ≤ 2 ^ 64 / bound); [|nia].
    apply Z.div_le_lower_bound; [lia|]. change (2 ^ 64) with 18446744073709551616. ulia.
  - intros v rest' Hu. by destruct (Uint64n_in_range bound rest v rest' Hb Hr Hu).
Qed.

Lemma Uint64n_uniform_witness :
  Uint64n (E := unit) 6 [3; 10; 7] = Uint64n 6 [10; 7] ∧ 4 = sampleFor 6 4 0 ∧
  Uint64n (E := unit) 6 (4 :: [10; 7]) = (Ok 4, [10; 7]).
Proof.
  assert (1 ≤ 6 ≤ max_uint64) as Hb by ulia.
  assert (Forall is_u64 [10; 7]) as Hr by (repeat constructor; ulia).
  destruct (Uint64n_uniform (E := unit) 6 [10; 7] Hb Hr) as (H1 & _ & H2 & _).
  split; [apply H2; [ulia|reflexivity]|]. split; [reflexivity|].
  apply H1; [ulia|lia|]. exists 0. split; [by vm_compute|reflexivity].
Defined.

End Random.
