(* ===== verification/RaftTypes.v ===== *)
(** * Raft data types

    The values of package [internal/raft]: entries, hard state and snapshot
    metadata ([types.go]), the wire payloads ([messages.go]), a leader's
    per-voter replication state ([progress.go]), the output batch of the
    protocol core ([ready.go]), and the error classes ([errors.go]).

    A [uint64], [uint32], [uint16] or [uint8] field is a [Z]; [EntryKind] and
    [ProtocolErrorCode] stay numbers because the decoders build them from
    arbitrary wire values before validating them.  A byte slice or byte array is
    a list of bytes; [nil] and empty slices are one value, as every comparison
    in the code is by content.  Defensive copies ([Clone], [cloneBytes],
    [CloneRPC]) are the identity on these immutable values. *)

From S2P Require Import Prelude.

(** ** Error classes

    [errors.Is] of the code tests the class; the formatted detail is dropped. *)
Inductive error :=
| ErrInvalidVoterSet | ErrNotVoter | ErrInvalidStorageIdentity | ErrInvalidStorageState
| ErrStorageIdentityMismatch | ErrStoreClosed | ErrStorageCorrupt | ErrStorageLocked
| ErrInvalidEntry | ErrMalformedRPC | ErrUnsupportedSchema | ErrRPCTooLarge | ErrInvalidRPC
| ErrUnknownRPC | ErrVoterFingerprint | ErrApplicationFingerprint
| ErrLogCompacted | ErrLogUnavailable | ErrLogGap | ErrLogMismatch | ErrCommittedConflict
| ErrLogRegression | ErrLogOverflow | ErrLogInvariant
| ErrInvalidCoreState | ErrReadyOutstanding | ErrAdvanceToken | ErrReadyTokenExhausted
| ErrDeadlineOverflow | ErrTickRegression | ErrTermOverflow | ErrReplicationGenerationOverflow
| ErrNotLeader | ErrLeadershipNotAuthorized | ErrProposalFailed | ErrProposalIdentityOverflow
| ErrUnsupportedCoreRPC | ErrNotRunning | ErrStopped | ErrOverloaded
| ErrLeadershipResyncRequired | ErrInvalidLeadershipCapacity | ErrLeadershipSequenceOverflow
| ErrSnapshotUnavailable | ErrInvalidSnapshot | ErrSnapshotRejected | ErrTransferIDExhausted
| ErrTransportInvariant | ErrTransportStopped | ErrTransportProtocol | ErrRequestIDExhausted
(** [context.Canceled] or [context.DeadlineExceeded], and an error of the operating system. *)
| ErrContext | ErrIO.

#[global] Instance error_eq_decision : EqDecision error.
Proof. solve_decision. Defined.

(** ** Roles and entries *)

Inductive Role := RoleFollower | RolePreCandidate | RoleCandidate | RoleLeader.

#[global] Instance Role_eq_decision : EqDecision Role.
Proof. solve_decision. Defined.

Abbreviation EntryKind := Z (only parsing).
Definition EntryCommand : EntryKind := 1.
Definition EntryNoOp : EntryKind := 2.

Record Entry := mkEntry {
  Entry_Index : Z;
  Entry_Term : Z;
  Entry_Kind : EntryKind;
  Entry_command : list byte
}.

#[global] Instance Entry_eq_decision : EqDecision Entry.
Proof. solve_decision. Defined.

(** The validation shared by [NewEntry] and [validateLogEntry]. *)
Definition NewEntry (index term : Z) (kind : EntryKind) (command : list byte) : outcome error Entry :=
  if (index =? 0) || (term =? 0) then Err ErrInvalidEntry
  else if negb (kind =? EntryCommand) && negb (kind =? EntryNoOp) then Err ErrInvalidEntry
  else if (kind =? EntryNoOp) && negb (len command =? 0) then Err ErrInvalidEntry
  else Ok (mkEntry index term kind command).

Record HardState := mkHardState {
  HardState_Term : Z;
  HardState_VotedFor : Z;
  HardState_CommitIndex : Z
}.

#[global] Instance HardState_eq_decision : EqDecision HardState.
Proof. solve_decision. Defined.
#[global] Instance HardState_settable : Settable HardState :=
  λ r, mkHardState (HardState_Term r) (HardState_VotedFor r) (HardState_CommitIndex r).

(** The order of hard states: terms grow, and in one term a vote is final. *)
Definition vote_le (h h' : HardState) : Prop :=
  HardState_Term h < HardState_Term h' ∨
  HardState_Term h = HardState_Term h' ∧
  (HardState_VotedFor h = 0 ∨ HardState_VotedFor h = HardState_VotedFor h').

Definition hs_le (h h' : HardState) : Prop :=
  HardState_CommitIndex h ≤ HardState_CommitIndex h' ∧ vote_le h h'.

#[global] Instance vote_le_preorder : PreOrder vote_le.
Proof.
  split; [intros h; unfold vote_le; lia|]. intros h1 h2 h3. unfold vote_le. lia.
Qed.

#[global] Instance hs_le_preorder : PreOrder hs_le.
Proof.
  split; [intros h; split; [lia|reflexivity]|]. intros h1 h2 h3 [] [].
  split; [lia|by transitivity h2].
Qed.

Record SnapshotMetadata := mkSnapshotMetadata {
  LastIncludedIndex : Z;
  LastIncludedTerm : Z;
  StateMachineSchemaVersion : Z
}.

#[global] Instance SnapshotMetadata_eq_decision : EqDecision SnapshotMetadata.
Proof. solve_decision. Defined.

Record Status := mkStatus {
  Status_Role : Role;
  Status_Term : Z;
  Status_LeaderID : Z;
  Status_CommitIndex : Z;
  Status_AppliedIndex : Z;
  Status_LastIndex : Z
}.

Abbreviation RequestGeneration := Z (only parsing).

(** Fixed byte arrays; the zero value is the array of zero bytes. *)
Abbreviation TransferID := (list byte) (only parsing).
Abbreviation SnapshotID := (list byte) (only parsing).
Abbreviation SnapshotChecksum := (list byte) (only parsing).
Abbreviation VoterFingerprint := (list byte) (only parsing).

Definition zero_bytes (n : nat) : list byte := replicate n Byte.x00.
Definition TransferID_zero : TransferID := zero_bytes 16.
Definition SnapshotID_zero : SnapshotID := zero_bytes 16.

Definition TransferID_IsZero (id : TransferID) : bool := bool_decide (id = TransferID_zero).

(** ** Wire payloads *)

Record Handshake := mkHandshake {
  HS_SenderID : Z;
  HS_VoterFingerprint : VoterFingerprint;
  HS_ApplicationFingerprint : list byte
}.

Record HandshakeAck := mkHandshakeAck {
  HSAck_ResponderID : Z;
  HSAck_VoterFingerprint : VoterFingerprint;
  HSAck_ApplicationFingerprint : list byte
}.

Record PreVoteRequest := mkPreVoteRequest {
  PVReq_CandidateID : Z;
  PVReq_CurrentTerm : Z;
  PVReq_ProspectiveTerm : Z;
  PVReq_LastLogIndex : Z;
  PVReq_LastLogTerm : Z
}.

Record PreVoteResponse := mkPreVoteResponse {
  PVResp_ResponderID : Z;
  PVResp_CandidateID : Z;
  PVResp_Term : Z;
  PVResp_RequestCurrentTerm : Z;
  PVResp_ProspectiveTerm : Z;
  PVResp_Granted : bool
}.

Record RequestVoteRequest := mkRequestVoteRequest {
  RVReq_CandidateID : Z;
  RVReq_Term : Z;
  RVReq_LastLogIndex : Z;
  RVReq_LastLogTerm : Z
}.

Record RequestVoteResponse := mkRequestVoteResponse {
  RVResp_ResponderID : Z;
  RVResp_CandidateID : Z;
  RVResp_Term : Z;
  RVResp_RequestTerm : Z;
  RVResp_Granted : bool
}.

Record AppendEntriesRequest := mkAppendEntriesRequest {
  AEReq_LeaderID : Z;
  AEReq_Term : Z;
  AEReq_Generation : RequestGeneration;
  AEReq_PrevLogIndex : Z;
  AEReq_PrevLogTerm : Z;
  AEReq_LeaderCommit : Z;
  AEReq_Entries : list Entry
}.

Record AppendEntriesResponse := mkAppendEntriesResponse {
  AEResp_ResponderID : Z;
  AEResp_LeaderID : Z;
  AEResp_Term : Z;
  AEResp_RequestTerm : Z;
  AEResp_Generation : RequestGeneration;
  AEResp_Success : bool;
  AEResp_MatchIndex : Z;
  AEResp_ConflictTerm : Z;
  AEResp_ConflictIndex : Z
}.

Record InstallSnapshotRequest := mkInstallSnapshotRequest {
  ISReq_LeaderID : Z;
  ISReq_Term : Z;
  ISReq_TransferID : TransferID;
  ISReq_SnapshotID : SnapshotID;
  ISReq_LastIncludedIndex : Z;
  ISReq_LastIncludedTerm : Z;
  ISReq_StateMachineSchemaVersion : Z;
  ISReq_TotalLength : Z;
  ISReq_Checksum : SnapshotChecksum;
  ISReq_Offset : Z;
  ISReq_Chunk : list byte;
  ISReq_Done : bool
}.

Record InstallSnapshotResponse := mkInstallSnapshotResponse {
  ISResp_ResponderID : Z;
  ISResp_LeaderID : Z;
  ISResp_Term : Z;
  ISResp_RequestTerm : Z;
  ISResp_TransferID : TransferID;
  ISResp_SnapshotID : SnapshotID;
  ISResp_NextOffset : Z;
  ISResp_Success : bool;
  ISResp_Done : bool
}.

Abbreviation ProtocolErrorCode := Z (only parsing).
Definition ProtocolErrorMalformed : ProtocolErrorCode := 1.
Definition ProtocolErrorOverloaded : ProtocolErrorCode := 6.

Record ErrorResponse := mkErrorResponse {
  ER_Code : ProtocolErrorCode;
  ER_ResponderID : Z;
  ER_Term : Z
}.

Inductive RPC :=
| RPC_Handshake (m : Handshake)
| RPC_HandshakeAck (m : HandshakeAck)
| RPC_PreVoteRequest (m : PreVoteRequest)
| RPC_PreVoteResponse (m : PreVoteResponse)
| RPC_RequestVoteRequest (m : RequestVoteRequest)
| RPC_RequestVoteResponse (m : RequestVoteResponse)
| RPC_AppendEntriesRequest (m : AppendEntriesRequest)
| RPC_AppendEntriesResponse (m : AppendEntriesResponse)
| RPC_InstallSnapshotRequest (m : InstallSnapshotRequest)
| RPC_InstallSnapshotResponse (m : InstallSnapshotResponse)
| RPC_ErrorResponse (m : ErrorResponse).

(** Wire identifiers of [internal/wire/types.go]. *)
Abbreviation MessageType := Z (only parsing).
Definition MessageRaftHandshake : MessageType := 100.
Definition MessageRaftHandshakeAck : MessageType := 101.
Definition MessageRaftPreVoteRequest : MessageType := 102.
Definition MessageRaftPreVoteResponse : MessageType := 103.
Definition MessageRaftRequestVoteRequest : MessageType := 104.
Definition MessageRaftRequestVoteResponse : MessageType := 105.
Definition MessageRaftAppendEntriesRequest : MessageType := 106.
Definition MessageRaftAppendEntriesResponse : MessageType := 107.
Definition MessageRaftInstallSnapshotRequest : MessageType := 108.
Definition MessageRaftInstallSnapshotResponse : MessageType := 109.
Definition MessageRaftError : MessageType := 110.

Definition RPC_MessageType (rpc : RPC) : MessageType :=
  match rpc with
  | RPC_Handshake _ => MessageRaftHandshake
  | RPC_HandshakeAck _ => MessageRaftHandshakeAck
  | RPC_PreVoteRequest _ => MessageRaftPreVoteRequest
  | RPC_PreVoteResponse _ => MessageRaftPreVoteResponse
  | RPC_RequestVoteRequest _ => MessageRaftRequestVoteRequest
  | RPC_RequestVoteResponse _ => MessageRaftRequestVoteResponse
  | RPC_AppendEntriesRequest _ => MessageRaftAppendEntriesRequest
  | RPC_AppendEntriesResponse _ => MessageRaftAppendEntriesResponse
  | RPC_InstallSnapshotRequest _ => MessageRaftInstallSnapshotRequest
  | RPC_InstallSnapshotResponse _ => MessageRaftInstallSnapshotResponse
  | RPC_ErrorResponse _ => MessageRaftError
  end.

(** A value of the Go interface [RPC]: nil, a message, or a pointer to one. *)
Inductive interfaceRPC :=
| InterfaceNil
| InterfaceValue (m : RPC)
| InterfacePointer (m : option RPC).

Definition normalizeRPC (rpc : interfaceRPC) : option RPC :=
  match rpc with
  | InterfaceNil => None
  | InterfaceValue m => Some m
  | InterfacePointer m => m
  end.

(** ** Replication progress *)

Record Progress := mkProgress {
  Progress_MatchIndex : Z;
  Progress_NextIndex : Z;
  Progress_Generation : RequestGeneration;
  Progress_ActiveGeneration : RequestGeneration;
  Progress_SnapshotNeeded : bool;
  Progress_ActiveTransferID : TransferID;
  Progress_ActiveSnapshotID : SnapshotID;
  Progress_SnapshotNextOffset : Z;
  Progress_activeMatchIndex : Z
}.

#[global] Instance Progress_settable : Settable Progress :=
  λ r, mkProgress (Progress_MatchIndex r) (Progress_NextIndex r) (Progress_Generation r)
    (Progress_ActiveGeneration r) (Progress_SnapshotNeeded r) (Progress_ActiveTransferID r)
    (Progress_ActiveSnapshotID r) (Progress_SnapshotNextOffset r) (Progress_activeMatchIndex r).

(** Go's zero value. *)
Definition Progress_zero : Progress :=
  mkProgress 0 0 0 0 false TransferID_zero SnapshotID_zero 0 0.

(** ** Snapshots and recovered state *)

Record Snapshot := mkSnapshot {
  Snapshot_Metadata : SnapshotMetadata;
  Snapshot_ID : SnapshotID;
  Snapshot_StateChecksum : SnapshotChecksum;
  Snapshot_state : list byte;
  Snapshot_envelope : list byte
}.

Record StorageIdentity := mkStorageIdentity {
  SI_FormatVersion : Z;
  SI_ClusterID : list byte;
  SI_LocalVoterID : Z;
  SI_VoterFingerprint : VoterFingerprint
}.

#[global] Instance StorageIdentity_eq_decision : EqDecision StorageIdentity.
Proof. solve_decision. Defined.

Record RecoveredState := mkRecoveredState {
  RS_Identity : StorageIdentity;
  RS_HardState : HardState;
  RS_SnapshotBase : SnapshotMetadata;
  RS_Snapshot : option Snapshot;
  RS_AppliedIndex : Z;
  RS_Entries : list Entry
}.

#[global] Instance RecoveredState_settable : Settable RecoveredState :=
  λ r, mkRecoveredState (RS_Identity r) (RS_HardState r) (RS_SnapshotBase r) (RS_Snapshot r)
    (RS_AppliedIndex r) (RS_Entries r).

(** ** Ready batches *)

Abbreviation ReadyToken := Z (only parsing).
Abbreviation ProposalID := Z (only parsing).

Record DurabilityPrerequisite := mkDurabilityPrerequisite {
  DP_HardState : bool;
  DP_EntriesThrough : Z
}.

Definition DurabilityPrerequisite_none : DurabilityPrerequisite :=
  mkDurabilityPrerequisite false 0.

Record PeerMessage := mkPeerMessage {
  PM_To : Z;
  PM_RPC : RPC;
  PM_Requires : DurabilityPrerequisite
}.

Record CommittedProposal := mkCommittedProposal {
  CP_ID : ProposalID;
  CP_Entry : Entry
}.

Record FailedProposal := mkFailedProposal {
  FP_ID : ProposalID;
  FP_Entry : Entry;
  FP_Err : error
}.

Inductive SnapshotActionKind := SnapshotActionStage | SnapshotActionAbort.

#[global] Instance SnapshotActionKind_eq_decision : EqDecision SnapshotActionKind.
Proof. solve_decision. Defined.

Record SnapshotAction := mkSnapshotAction {
  SA_Kind : SnapshotActionKind;
  SA_Request : InstallSnapshotRequest;
  SA_Reset : bool
}.

Record SnapshotActionResult := mkSnapshotActionResult {
  SAR_NextOffset : Z;
  SAR_Done : bool;
  SAR_State : RecoveredState;
  SAR_Rejected : bool
}.

Record Ready := mkReady {
  Ready_Token : ReadyToken;
  Ready_HardState : option HardState;
  Ready_Entries : list Entry;
  Ready_Messages : list PeerMessage;
  Ready_CommittedEntries : list Entry;
  Ready_CommittedProposals : list CommittedProposal;
  Ready_FailedProposals : list FailedProposal;
  Ready_SnapshotActions : list SnapshotAction
}.

#[global] Instance Ready_settable : Settable Ready :=
  λ r, mkReady (Ready_Token r) (Ready_HardState r) (Ready_Entries r) (Ready_Messages r)
    (Ready_CommittedEntries r) (Ready_CommittedProposals r) (Ready_FailedProposals r)
    (Ready_SnapshotActions r).

Definition Ready_zero : Ready := mkReady 0 None [] [] [] [] [] [].

(** ** Snapshot transfer identity ([snapshot.go]) *)

Record snapshotTransferMetadata := mkSnapshotTransferMetadata {
  STM_leaderID : Z;
  STM_term : Z;
  STM_transferID : TransferID;
  STM_snapshotID : SnapshotID;
  STM_metadata : SnapshotMetadata;
  STM_totalLength : Z;
  STM_checksum : SnapshotChecksum
}.

#[global] Instance snapshotTransferMetadata_eq_decision : EqDecision snapshotTransferMetadata.
Proof. solve_decision. Defined.

Definition snapshotTransferMetadataFor (request : InstallSnapshotRequest) : snapshotTransferMetadata :=
  {| STM_leaderID := ISReq_LeaderID request;
     STM_term := ISReq_Term request;
     STM_transferID := ISReq_TransferID request;
     STM_snapshotID := ISReq_SnapshotID request;
     STM_metadata := mkSnapshotMetadata (ISReq_LastIncludedIndex request)
       (ISReq_LastIncludedTerm request) (ISReq_StateMachineSchemaVersion request);
     STM_totalLength := ISReq_TotalLength request;
     STM_checksum := ISReq_Checksum request |}.

(** [errors.Is(err, class)]. *)
Definition error_is (e class : error) : bool := bool_decide (e = class).

(** [sameEntry] compares entries field by field and commands by content. *)
Definition sameEntry (left right : Entry) : bool :=
  (Entry_Index left =? Entry_Index right) && (Entry_Term left =? Entry_Term right) &&
  (Entry_Kind left =? Entry_Kind right) &&
  bool_decide (Entry_command left = Entry_command right).

Lemma sameEntry_eq (left right : Entry) : sameEntry left right = true ↔ left = right.
Proof.
  unfold sameEntry. split.
  - intros H. bool_hyps. destruct left, right. simpl in *. congruence.
  - intros ->. rewrite !Z.eqb_refl. by rewrite bool_decide_eq_true_2.
Qed.
