(* ===== verification/RaftLog.v ===== *)
(** * The checked Raft log

    [internal/raft/log.go]: one compacted base and a contiguous retained suffix.
    [Log] has the fields of the Go struct; each method is a definition of the
    same name.  A method that reads returns an [outcome]; a method that mutates
    is a computation of the state and error monad over [Log].

    The main results: [Append] equals a reference merge of two logs on every
    branch ([Append_spec]), every operation preserves the structural invariant
    [log_wf], the committed prefix is never rewritten, rejection hints name the
    exact local term range, and compaction and snapshot installation keep the
    log's contents above the new base. *)

From S2P Require Import Prelude RaftTypes.

Module RaftLog.

(** ** State *)

Record ConflictHint := mkConflictHint { Hint_Term : Z; Hint_Index : Z }.
Definition noHint : ConflictHint := mkConflictHint 0 0.

Record Log := mkLog {
  snapshotIndex : Z;
  snapshotTerm : Z;
  commitIndex : Z;
  appliedIndex : Z;
  lastIndex : Z;
  entries : list Entry
}.

#[global] Instance Log_settable : Settable Log :=
  λ l, mkLog (snapshotIndex l) (snapshotTerm l) (commitIndex l) (appliedIndex l)
    (lastIndex l) (entries l).

(** [Log.State] copies every field but the derived [lastIndex]. *)
Record LogState := mkLogState {
  LS_SnapshotIndex : Z;
  LS_SnapshotTerm : Z;
  LS_CommitIndex : Z;
  LS_AppliedIndex : Z;
  LS_Entries : list Entry
}.

Definition State (l : Log) : LogState :=
  mkLogState (snapshotIndex l) (snapshotTerm l) (commitIndex l) (appliedIndex l) (entries l).

(** ** Operations *)

Definition checkedNextIndex (index : Z) : option Z :=
  if index =? max_uint64 then None else Some (index + 1).

Definition maxLogIndex (a b : Z) : Z := if b <? a then a else b.

Definition validateLogEntry (entry : Entry) : outcome error unit :=
  if (Entry_Index entry =? 0) || (Entry_Term entry =? 0) then Err ErrInvalidEntry
  else if negb (Entry_Kind entry =? EntryCommand) && negb (Entry_Kind entry =? EntryNoOp)
  then Err ErrInvalidEntry
  else if (Entry_Kind entry =? EntryNoOp) && negb (len (Entry_command entry) =? 0)
  then Err ErrInvalidEntry
  else Ok tt.

(** The validation loop of [NewLog]: the final value of [next]. *)
Fixpoint newLogLoop (next : Z) (es : list Entry) : outcome error Z :=
  match es with
  | [] => Ok next
  | entry :: rest =>
    match checkedNextIndex next with
    | None => Err ErrLogOverflow
    | Some next' =>
      if negb (Entry_Index entry =? next') then Err ErrLogGap
      else let? _ := validateLogEntry entry in newLogLoop next' rest
    end
  end.

Definition NewLog (snapIndex snapTerm commit applied : Z) (es : list Entry) : outcome error Log :=
  if negb (Bool.eqb (snapIndex =? 0) (snapTerm =? 0)) then Err ErrLogInvariant
  else if (applied <? snapIndex) || (commit <? applied) then Err ErrLogInvariant
  else
    let? next := newLogLoop snapIndex es in
    if next <? commit then Err ErrLogInvariant
    else Ok (mkLog snapIndex snapTerm commit applied next es).

Definition LastTerm (l : Log) : Z :=
  match last (entries l) with
  | None => snapshotTerm l
  | Some e => Entry_Term e
  end.

(** [retainedOffset] subtracts [uint64]s after both guards, so no wrap-around. *)
Definition retainedOffset (l : Log) (index : Z) : outcome error nat :=
  if index <=? snapshotIndex l then Err ErrLogCompacted
  else if lastIndex l <? index then Err ErrLogUnavailable
  else
    let offset := wrap64 (index - snapshotIndex l - 1) in
    if len (entries l) <=? offset then Err ErrLogInvariant
    else Ok (Z.to_nat offset).

(** Slice indexing [l.entries[offset]]: out of range panics. *)
Definition entryAt (l : Log) (offset : nat) : outcome error Entry :=
  match entries l !! offset with Some e => Ok e | None => Panic end.

Definition Log_Term (l : Log) (index : Z) : outcome error Z :=
  if index <? snapshotIndex l then Err ErrLogCompacted
  else if index =? snapshotIndex l then Ok (snapshotTerm l)
  else
    let? offset := retainedOffset l index in
    let? e := entryAt l offset in
    Ok (Entry_Term e).

Definition Log_Entry (l : Log) (index : Z) : outcome error Entry :=
  if index <=? snapshotIndex l then Err ErrLogCompacted
  else
    let? offset := retainedOffset l index in
    entryAt l offset.

(** [LastIndexOfTerm] scans the retained suffix from its end. *)
Fixpoint lastIndexOfTermLoop (es : list Entry) (term : Z) : option Z :=
  match es with
  | [] => None
  | e :: rest =>
    match lastIndexOfTermLoop rest term with
    | Some i => Some i
    | None => if Entry_Term e =? term then Some (Entry_Index e) else None
    end
  end.

Definition LastIndexOfTerm (l : Log) (term : Z) : option Z :=
  match lastIndexOfTermLoop (entries l) term with
  | Some i => Some i
  | None =>
    if negb (snapshotIndex l =? 0) && (snapshotTerm l =? term) then Some (snapshotIndex l)
    else None
  end.

(** The loop of [firstIndexOfTerm]: walk left while the previous entry has [term]. *)
Fixpoint firstOffsetLoop (es : list Entry) (term : Z) (offset : nat) : nat :=
  match offset with
  | O => O
  | S offset' =>
    match es !! offset' with
    | Some e => if Entry_Term e =? term then firstOffsetLoop es term offset' else offset
    | None => offset
    end
  end.

Definition firstIndexOfTerm (l : Log) (index term : Z) : outcome error Z :=
  if index =? snapshotIndex l then Ok (snapshotIndex l)
  else
    let? offset := retainedOffset l index in
    let first := firstOffsetLoop (entries l) term offset in
    if (Nat.eqb first 0) && (snapshotTerm l =? term) then Ok (snapshotIndex l)
    else let? e := entryAt l first in Ok (Entry_Index e).

(** The contiguity check of [Append]. *)
Fixpoint appendCheckLoop (expected : Z) (es : list Entry) : outcome error unit :=
  match es with
  | [] => Ok tt
  | entry :: rest =>
    match checkedNextIndex expected with
    | None => Err ErrLogOverflow
    | Some expected' =>
      if negb (Entry_Index entry =? expected') then Err ErrLogGap
      else let? _ := validateLogEntry entry in appendCheckLoop expected' rest
    end
  end.

(** [owned[len(owned)-1].Index]; [owned] is never empty where it is used. *)
Definition lastEntryIndex (owned : list Entry) : outcome error Z :=
  match last owned with Some e => Ok (Entry_Index e) | None => Panic end.

Abbreviation AppendM := (M Log (ConflictHint * error) ConflictHint).

Definition hinted {A} (h : ConflictHint) (o : outcome error A) : outcome (ConflictHint * error) A :=
  match o with
  | Ok a => Ok a
  | Err e => Err (h, e)
  | Panic => Panic
  | Blocked => Blocked
  end.

(** Replace the retained suffix after [kept] by the rest of the new entries. *)
Definition installSuffix (kept owned : list Entry) : AppendM :=
  let! newLast := lift (hinted noHint (lastEntryIndex owned)) in
  modify (λ l, l <| entries := kept ++ owned |> <| lastIndex := newLast |>) ;;!
  ret noHint.

(** The repair loop of [Append]. *)
Fixpoint appendLoop (owned : list Entry) : AppendM :=
  match owned with
  | [] => ret noHint
  | entry :: rest =>
    let! l := get in
    if lastIndex l <? Entry_Index entry then installSuffix (entries l) (entry :: rest)
    else
      let! offset := lift (hinted noHint (retainedOffset l (Entry_Index entry))) in
      let! local := lift (hinted noHint (entryAt l offset)) in
      if Entry_Term local =? Entry_Term entry then appendLoop rest
      else if Entry_Index entry <=? commitIndex l then throw (noHint, ErrCommittedConflict)
      else installSuffix (take offset (entries l)) (entry :: rest)
  end.

Definition Append (prevIndex prevTerm : Z) (es : list Entry) : AppendM :=
  let! l := get in
  match Log_Term l prevIndex with
  | Err ErrLogUnavailable =>
    match checkedNextIndex (lastIndex l) with
    | None => throw (noHint, ErrLogOverflow)
    | Some next => throw (mkConflictHint 0 next, ErrLogUnavailable)
    end
  | Err ErrLogCompacted =>
    throw (mkConflictHint (snapshotTerm l) (snapshotIndex l), ErrLogCompacted)
  | Err e => throw (noHint, e)
  | Panic => panic
  | Blocked => lift Blocked
  | Ok localTerm =>
    if negb (localTerm =? prevTerm) then
      let! first := lift (hinted noHint (firstIndexOfTerm l prevIndex localTerm)) in
      throw (mkConflictHint localTerm first, ErrLogMismatch)
    else if len es =? 0 then ret noHint
    else
      lift (hinted noHint (appendCheckLoop prevIndex es)) ;;!
      appendLoop es
  end.

Definition AdvanceCommit (index : Z) : M Log error unit :=
  let! l := get in
  if index <? commitIndex l then throw ErrLogRegression
  else if lastIndex l <? index then throw ErrLogUnavailable
  else modify (λ l, l <| commitIndex := index |>).

Definition AdvanceApplied (index : Z) : M Log error unit :=
  let! l := get in
  if index <? appliedIndex l then throw ErrLogRegression
  else if commitIndex l <? index then throw ErrLogInvariant
  else modify (λ l, l <| appliedIndex := index |>).

Definition Compact (index term : Z) : M Log error unit :=
  let! l := get in
  if index <? snapshotIndex l then throw ErrLogCompacted
  else if index =? snapshotIndex l then
    if negb (term =? snapshotTerm l) then throw ErrLogMismatch else ret tt
  else if lastIndex l <? index then throw ErrLogUnavailable
  else if appliedIndex l <? index then throw ErrLogInvariant
  else
    let! localTerm := lift (Log_Term l index) in
    if negb (localTerm =? term) then throw ErrLogMismatch
    else
      let! offset := lift (retainedOffset l index) in
      modify (λ l, l <| entries := drop (offset + 1) (entries l) |>
                     <| snapshotIndex := index |> <| snapshotTerm := term |>).

(** What [RestoreSnapshot] keeps of the local log: whether the suffix matches,
    the retained entries and the new last index. *)
Definition restoreRetained (l : Log) (index term : Z) : outcome error (bool * list Entry * Z) :=
  if index <=? lastIndex l then
    let? localTerm := Log_Term l index in
    if localTerm =? term then
      let? offset := retainedOffset l index in
      Ok (true, drop (offset + 1) (entries l), lastIndex l)
    else if index <=? commitIndex l then Err ErrCommittedConflict
    else Ok (false, [], index)
  else Ok (false, [], index).

Definition RestoreSnapshot (index term : Z) : M Log error unit :=
  let! l := get in
  if index <? snapshotIndex l then ret tt
  else if index =? snapshotIndex l then
    if negb (term =? snapshotTerm l) then throw ErrLogMismatch else ret tt
  else if term =? 0 then throw ErrLogInvariant
  else
    let! (matchingSuffix, retained, newLast) := lift (restoreRetained l index term) in
    let newCommit := maxLogIndex (commitIndex l) index in
    let newApplied := maxLogIndex (appliedIndex l) index in
    if (newApplied <? index) || (newCommit <? newApplied) || (newLast <? newCommit) then
      throw (if negb matchingSuffix && (index <? commitIndex l)
             then ErrCommittedConflict else ErrLogInvariant)
    else
      put (mkLog index term newCommit newApplied newLast retained).

(** ** Specification vocabulary *)

(** The entry and the term at a logical index. *)
Definition entry_at (l : Log) (i : Z) : option Entry :=
  if snapshotIndex l <? i then entries l !! Z.to_nat (i - snapshotIndex l - 1) else None.

Definition term_at (l : Log) (i : Z) : option Z :=
  if i =? snapshotIndex l then Some (snapshotTerm l) else Entry_Term <$> entry_at l i.

(** Entries number consecutively from [start + 1]. *)
Definition contiguous (start : Z) (es : list Entry) : Prop :=
  ∀ k e, es !! k = Some e → Entry_Index e = start + Z.of_nat k + 1.

Definition valid_entry (e : Entry) : Prop := validateLogEntry e = Ok tt.

(** The structural invariant of a checked log. *)
Record log_wf (l : Log) : Prop := {
  wf_base : snapshotIndex l = 0 ↔ snapshotTerm l = 0;
  wf_nonneg : 0 ≤ snapshotIndex l;
  wf_order : snapshotIndex l ≤ appliedIndex l ≤ commitIndex l;
  wf_commit : commitIndex l ≤ lastIndex l;
  wf_last : lastIndex l = snapshotIndex l + len (entries l);
  wf_range : lastIndex l ≤ max_uint64;
  wf_contiguous : contiguous (snapshotIndex l) (entries l);
  wf_valid : Forall valid_entry (entries l)
}.

(** Reference for the repair of a suffix: keep the common prefix of equal terms
    and replace everything after the first conflict. *)
Fixpoint merge_entries (old new : list Entry) : list Entry :=
  match old, new with
  | _, [] => old
  | [], _ => new
  | o :: old', n :: new' =>
    if Entry_Term o =? Entry_Term n then o :: merge_entries old' new' else n :: new'
  end.

(** Index of the first new entry whose term differs from the local one. *)
Fixpoint first_conflict (old new : list Entry) : option Z :=
  match old, new with
  | o :: old', n :: new' =>
    if Entry_Term o =? Entry_Term n then first_conflict old' new' else Some (Entry_Index n)
  | _, _ => None
  end.

Definition with_entries (l : Log) (es : list Entry) : Log :=
  l <| entries := es |> <| lastIndex := snapshotIndex l + len es |>.

(** The reference of [Append] for a matching previous position and well-formed
    entries. *)
Definition Append_ref (l : Log) (prevIndex : Z) (es : list Entry) :
    outcome (ConflictHint * error) ConflictHint * Log :=
  let k := Z.to_nat (prevIndex - snapshotIndex l) in
  let suffix := drop k (entries l) in
  let accepted := with_entries l (take k (entries l) ++ merge_entries suffix es) in
  match first_conflict suffix es with
  | Some i => if i <=? commitIndex l then (Err (noHint, ErrCommittedConflict), l)
              else (Ok noHint, accepted)
  | None => (Ok noHint, accepted)
  end.

(** [first] starts the maximal run of term [t] that ends at [i]. *)
Definition run_start (l : Log) (i t first : Z) : Prop :=
  snapshotIndex l ≤ first ≤ i ∧
  (∀ j, first ≤ j ≤ i → term_at l j = Some t) ∧
  (first = snapshotIndex l ∨ term_at l (first - 1) ≠ Some t).

(** [l'] continues [l]: protected indices only grow, and every committed
    position still available has its entry and its term. *)
Definition log_extends (l l' : Log) : Prop :=
  snapshotIndex l ≤ snapshotIndex l' ∧ appliedIndex l ≤ appliedIndex l' ∧
  commitIndex l ≤ commitIndex l' ∧
  (∀ i, snapshotIndex l' < i ≤ commitIndex l → entry_at l' i = entry_at l i) ∧
  (∀ i, snapshotIndex l' ≤ i ≤ commitIndex l → term_at l' i = term_at l i).

(** The mutating methods as one type of operations, to state facts about
    arbitrary call sequences. *)
Inductive log_op :=
| OpAppend (prevIndex prevTerm : Z) (es : list Entry)
| OpAdvanceCommit (index : Z)
| OpAdvanceApplied (index : Z)
| OpCompact (index term : Z)
| OpRestoreSnapshot (index term : Z).

Definition dropValue {E A} (o : outcome E A) : outcome unit unit :=
  match o with Ok _ => Ok tt | Err _ => Err tt | Panic => Panic | Blocked => Blocked end.

Definition run_op (op : log_op) (l : Log) : outcome unit unit * Log :=
  match op with
  | OpAppend prevIndex prevTerm es => prod_map dropValue id (Append prevIndex prevTerm es l)
  | OpAdvanceCommit index => prod_map dropValue id (AdvanceCommit index l)
  | OpAdvanceApplied index => prod_map dropValue id (AdvanceApplied index l)
  | OpCompact index term => prod_map dropValue id (Compact index term l)
  | OpRestoreSnapshot index term => prod_map dropValue id (RestoreSnapshot index term l)
  end.

(** Arguments of a call are in the range of their Go types. *)
Definition op_typed (op : log_op) : Prop :=
  match op with
  | OpRestoreSnapshot index _ => is_u64 index
  | _ => True
  end.

(** Run a sequence of calls, continuing after errors; [None] when one of them
    panics or does not return. *)
Fixpoint run_ops (ops : list log_op) (l : Log) : option Log :=
  match ops with
  | [] => Some l
  | op :: rest =>
    match run_op op l with
    | (Ok _, l') | (Err _, l') => run_ops rest l'
    | _ => None
    end
  end.

(** ** Lookup lemmas *)

Lemma checkedNextIndex_Some (i j : Z) :
  checkedNextIndex i = Some j ↔ i ≠ max_uint64 ∧ j = i + 1.
Proof.
  unfold checkedNextIndex. destruct (Z.eqb_spec i max_uint64); split; intros H; naive_solver.
Qed.

Lemma checkedNextIndex_lt (i : Z) : i < max_uint64 → checkedNextIndex i = Some (i + 1).
Proof. intros H. apply checkedNextIndex_Some. lia. Qed.

Lemma retainedOffset_in (l : Log) (i : Z) :
  log_wf l → snapshotIndex l < i ≤ lastIndex l →
  retainedOffset l i = Ok (Z.to_nat (i - snapshotIndex l - 1)).
Proof.
  intros [] Hi. unfold retainedOffset.
  destruct (Z.leb_spec i (snapshotIndex l)); [lia|].
  destruct (Z.ltb_spec (lastIndex l) i); [lia|].
  rewrite wrap64_small by ulia.
  destruct (Z.leb_spec (len (entries l)) (i - snapshotIndex l - 1)); [lia|done].
Qed.

Lemma entry_lookup_in (l : Log) (i : Z) :
  log_wf l → snapshotIndex l < i ≤ lastIndex l →
  ∃ e, entries l !! Z.to_nat (i - snapshotIndex l - 1) = Some e ∧ Entry_Index e = i.
Proof.
  intros [] Hi.
  assert (Z.to_nat (i - snapshotIndex l - 1) < length (entries l))%nat as Hlt
    by (unfold len in *; lia).
  apply lookup_lt_is_Some in Hlt as [e He]. exists e. split; [done|].
  apply wf_contiguous0 in He. lia.
Qed.

Lemma entry_at_in (l : Log) (i : Z) :
  log_wf l → snapshotIndex l < i ≤ lastIndex l →
  ∃ e, entry_at l i = Some e ∧ Entry_Index e = i ∧ Log_Entry l i = Ok e.
Proof.
  intros Hwf Hi. destruct (entry_lookup_in l i Hwf Hi) as (e & He & Hei).
  exists e. unfold entry_at, Log_Entry.
  destruct (Z.ltb_spec (snapshotIndex l) i); [|lia].
  destruct (Z.leb_spec i (snapshotIndex l)); [lia|].
  rewrite (retainedOffset_in l i Hwf Hi). simpl. unfold entryAt. rewrite He. done.
Qed.

Lemma entry_at_out (l : Log) (i : Z) :
  log_wf l → i ≤ snapshotIndex l ∨ lastIndex l < i → entry_at l i = None.
Proof.
  intros [] Hi. unfold entry_at.
  destruct (Z.ltb_spec (snapshotIndex l) i); [|done].
  apply lookup_ge_None. unfold len in *. lia.
Qed.

(** [Log.Term] is total on its domain and classifies every other index. *)
Lemma Log_Term_spec (l : Log) (i : Z) :
  log_wf l →
  Log_Term l i =
    if i <? snapshotIndex l then Err ErrLogCompacted
    else match term_at l i with Some t => Ok t | None => Err ErrLogUnavailable end.
Proof.
  intros Hwf. unfold Log_Term, term_at.
  destruct (Z.ltb_spec i (snapshotIndex l)); [done|].
  destruct (Z.eqb_spec i (snapshotIndex l)); [done|].
  destruct (Z.le_gt_cases i (lastIndex l)) as [Hle|Hgt].
  - destruct (entry_at_in l i Hwf ltac:(lia)) as (e & He & _ & HE).
    rewrite He. simpl. unfold Log_Entry in HE.
    destruct (Z.leb_spec i (snapshotIndex l)); [lia|].
    destruct (retainedOffset l i); simpl in *; try done. by rewrite HE.
  - rewrite (entry_at_out l i Hwf) by lia. simpl. unfold retainedOffset.
    destruct (Z.leb_spec i (snapshotIndex l)); [lia|].
    destruct (Z.ltb_spec (lastIndex l) i); [done|lia].
Qed.

Lemma Log_Entry_spec (l : Log) (i : Z) :
  log_wf l →
  Log_Entry l i = match entry_at l i with
    | Some e => Ok e
    | None => Err (if i <=? snapshotIndex l then ErrLogCompacted else ErrLogUnavailable)
    end.
Proof.
  intros Hwf. destruct (decide (snapshotIndex l < i ∧ i ≤ lastIndex l)) as [Hi|Hi].
  - destruct (entry_at_in l i Hwf Hi) as (e & -> & _ & ->). done.
  - rewrite (entry_at_out l i Hwf) by lia. unfold Log_Entry, retainedOffset.
    destruct (Z.leb_spec i (snapshotIndex l)); [done|].
    destruct (Z.ltb_spec (lastIndex l) i); [done|lia].
Qed.

Lemma Log_Term_returns (l : Log) (i : Z) : log_wf l → Log_Term l i ≠ Panic.
Proof. intros Hwf. rewrite Log_Term_spec by done. by repeat case_goal. Qed.

Lemma Log_Entry_returns (l : Log) (i : Z) : log_wf l → Log_Entry l i ≠ Panic.
Proof. intros Hwf. rewrite Log_Entry_spec by done. by case_goal. Qed.

Lemma term_at_Some_range (l : Log) (i t : Z) :
  log_wf l → term_at l i = Some t → snapshotIndex l ≤ i ≤ lastIndex l.
Proof.
  intros Hwf. unfold term_at. pose proof (wf_last l Hwf). pose proof (len_nonneg (entries l)).
  destruct (Z.eqb_spec i (snapshotIndex l)); [lia|].
  intros Ht. destruct (decide (snapshotIndex l < i ∧ i ≤ lastIndex l)); [lia|].
  rewrite (entry_at_out l i Hwf) in Ht by lia. done.
Qed.

Lemma term_at_in (l : Log) (i : Z) :
  log_wf l → snapshotIndex l ≤ i ≤ lastIndex l → ∃ t, term_at l i = Some t.
Proof.
  intros Hwf Hi. unfold term_at. destruct (Z.eqb_spec i (snapshotIndex l)); [eauto|].
  destruct (entry_at_in l i Hwf ltac:(lia)) as (e & -> & _). simpl. eauto.
Qed.

Lemma valid_entry_kind (e : Entry) : valid_entry e → 0 < Entry_Index e ∨ Entry_Index e < 0.
Proof. unfold valid_entry, validateLogEntry. repeat case_goal; intros; bool_hyps; done || lia. Qed.

Lemma newLogLoop_Ok (start next : Z) (es : list Entry) :
  is_u64 start →
  newLogLoop start es = Ok next ↔
  contiguous start es ∧ Forall valid_entry es ∧ next = start + len es ∧ next ≤ max_uint64.
Proof.
  revert start. induction es as [|e es IH]; intros start Hu; simpl.
  { rewrite len_nil. split.
    - intros [= ->]. split_and!; [by intros k e Hk|constructor|lia|ulia].
    - intros (_ & _ & -> & _). f_equal. lia. }
  rewrite len_cons. unfold checkedNextIndex.
  destruct (Z.eqb_spec start max_uint64) as [->|Hmax].
  { split; [done|]. intros (_ & _ & -> & ?). pose proof (len_nonneg es). lia. }
  destruct (Z.eqb_spec (Entry_Index e) (start + 1)) as [He|He]; simpl.
  2:{ split; [done|]. intros (Hc & _). exfalso. apply He.
      rewrite (Hc 0%nat e eq_refl). lia. }
  destruct (validateLogEntry e) as [[]| | |] eqn:Hv; simpl.
  2-4: split; [done|]; rewrite Forall_cons; unfold valid_entry at 1; rewrite Hv; naive_solver.
  rewrite IH, Forall_cons by ulia. split.
  - intros (Hc & Hval & Hn & ?). split_and!; [|done|done|lia|lia].
    intros [|k] e' Hk; simpl in Hk; simplify_eq; [lia|]. apply Hc in Hk. lia.
  - intros (Hc & [_ Hval] & Hn & ?). split_and!; [|done|lia|lia].
    intros k e' Hk. rewrite (Hc (S k) e' Hk). lia.
Qed.

Lemma appendCheckLoop_newLogLoop (start : Z) (es : list Entry) :
  appendCheckLoop start es = let? _ := newLogLoop start es in Ok tt.
Proof.
  revert start. induction es as [|e es IH]; intros start; simpl; [done|].
  repeat case_goal; simpl; try done. destruct (validateLogEntry e); simpl; auto.
Qed.

Lemma appendCheckLoop_Ok (start : Z) (es : list Entry) :
  is_u64 start →
  appendCheckLoop start es = Ok tt ↔
  contiguous start es ∧ Forall valid_entry es ∧ start + len es ≤ max_uint64.
Proof.
  intros Hu. rewrite appendCheckLoop_newLogLoop.
  pose proof (newLogLoop_Ok start (start + len es) es Hu) as Hiff.
  destruct (newLogLoop start es) as [next| | |] eqn:Hn; simpl.
  - apply newLogLoop_Ok in Hn as (? & ? & -> & ?); [|done]. tauto.
  - split; [done|]. intros (?&?&?). assert (Err e = Ok (E:=error) (start + len es)); [|done].
    apply Hiff. auto.
  - split; [done|]. intros (?&?&?). assert (Panic = Ok (E:=error) (start + len es)); [|done].
    apply Hiff. auto.
  - split; [done|]. intros (?&?&?). assert (Blocked = Ok (E:=error) (start + len es)); [|done].
    apply Hiff. auto.
Qed.

(** ** Append *)

Lemma with_entries_same (l : Log) : log_wf l → with_entries l (entries l) = l.
Proof. intros []. unfold with_entries. destruct l; simpl in *. by rewrite <- wf_last0. Qed.

Lemma contiguous_last (start : Z) (es : list Entry) (e : Entry) :
  contiguous start es → last es = Some e → Entry_Index e = start + len es.
Proof.
  intros Hc Hl. rewrite last_lookup in Hl. pose proof (lookup_lt_Some _ _ _ Hl).
  apply Hc in Hl. unfold len. lia.
Qed.

Lemma contiguous_tail (start : Z) (e : Entry) (es : list Entry) :
  contiguous start (e :: es) → Entry_Index e = start + 1 ∧ contiguous (start + 1) es.
Proof.
  intros Hc. split; [rewrite (Hc 0%nat e eq_refl); lia|].
  intros k e' Hk. rewrite (Hc (S k) e' Hk). lia.
Qed.

Lemma merge_entries_nil_r (es : list Entry) : merge_entries es [] = es.
Proof. by destruct es. Qed.
Lemma first_conflict_nil_r (es : list Entry) : first_conflict es [] = None.
Proof. by destruct es. Qed.

Lemma merge_entries_nil_l (es : list Entry) : merge_entries [] es = es.
Proof. by destruct es. Qed.

Lemma installSuffix_spec (l : Log) (kept owned : list Entry) (start : Z) :
  owned ≠ [] → contiguous start owned → start = snapshotIndex l + len kept →
  installSuffix kept owned l = (Ok noHint, with_entries l (kept ++ owned)).
Proof.
  intros Hne Hc ->. unfold installSuffix, bind, lift, lastEntryIndex.
  destruct (last owned) as [e|] eqn:Hl; simpl.
  - apply (contiguous_last _ _ _ Hc) in Hl. unfold with_entries.
    by rewrite Hl, len_app, Z.add_assoc.
  - by apply last_None in Hl.
Qed.

(** The repair loop positioned [k] entries into the retained suffix is the
    reference merge. *)
Lemma appendLoop_spec (l : Log) (owned : list Entry) (k : nat) :
  log_wf l → (k ≤ length (entries l))%nat →
  contiguous (snapshotIndex l + Z.of_nat k) owned →
  appendLoop owned l =
    match first_conflict (drop k (entries l)) owned with
    | Some i => if i <=? commitIndex l then (Err (noHint, ErrCommittedConflict), l)
      else (Ok noHint, with_entries l (take k (entries l) ++ merge_entries (drop k (entries l)) owned))
    | None => (Ok noHint, with_entries l (take k (entries l) ++ merge_entries (drop k (entries l)) owned))
    end.
Proof.
  intros Hwf. revert k. induction owned as [|e rest IH]; intros k Hk Hc.
  { by rewrite first_conflict_nil_r, merge_entries_nil_r, take_drop, with_entries_same. }
  pose proof (contiguous_tail _ _ _ Hc) as [He Hc'].
  simpl. unfold bind at 1, get.
  destruct (Z.ltb_spec (lastIndex l) (Entry_Index e)) as [Hlt|Hge].
  - assert (k = length (entries l)) as ->.
    { rewrite (wf_last l Hwf) in Hlt. unfold len in Hlt. lia. }
    rewrite drop_all, firstn_all. simpl.
    by eapply installSuffix_spec; [|exact Hc|].
  - rewrite (wf_last l Hwf) in Hge. unfold len in Hge.
    destruct (entries l !! k) as [o|] eqn:Ho; [|apply lookup_ge_None in Ho; lia].
    rewrite (drop_S _ o k Ho). simpl.
    unfold bind at 1, lift. rewrite (retainedOffset_in l _ Hwf)
      by (rewrite (wf_last l Hwf); unfold len; lia). simpl.
    replace (Z.to_nat (Entry_Index e - snapshotIndex l - 1)) with k by lia.
    unfold bind at 1, entryAt. rewrite Ho. simpl.
    destruct (Z.eqb_spec (Entry_Term o) (Entry_Term e)) as [Ht|Ht].
    + apply lookup_lt_Some in Ho as Hlt'.
      rewrite (IH (S k)) by (done || lia || (replace (snapshotIndex l + Z.of_nat (S k)) with
        (snapshotIndex l + Z.of_nat k + 1) by lia; done)).
      by rewrite (take_S_r _ _ _ Ho), <- app_assoc.
    + destruct (Z.leb_spec (Entry_Index e) (commitIndex l)); [done|].
      eapply installSuffix_spec; [done|exact Hc|].
      unfold len. rewrite length_take. lia.
Qed.

Lemma Append_matching (l : Log) (prevIndex prevTerm : Z) (es : list Entry) :
  log_wf l → term_at l prevIndex = Some prevTerm →
  appendCheckLoop prevIndex es = Ok tt →
  Append prevIndex prevTerm es l = Append_ref l prevIndex es.
Proof.
  intros Hwf Hterm Hcheck.
  pose proof (term_at_Some_range l _ _ Hwf Hterm) as Hr. pose proof (wf_nonneg l Hwf).
  pose proof (wf_range l Hwf). pose proof (wf_last l Hwf).
  unfold Append, bind at 1, get. rewrite (Log_Term_spec l prevIndex Hwf).
  destruct (Z.ltb_spec prevIndex (snapshotIndex l)); [lia|].
  rewrite Hterm, Z.eqb_refl. simpl. unfold Append_ref.
  destruct (Z.eqb_spec (len es) 0) as [He|He].
  - apply len_0_nil in He as ->. 
    by rewrite first_conflict_nil_r, merge_entries_nil_r, take_drop, with_entries_same.
  - unfold bind, lift. rewrite Hcheck. simpl.
    apply appendCheckLoop_Ok in Hcheck as (Hc & Hv & Hm); [|ulia].
    apply appendLoop_spec; [done|unfold len in *; lia|].
    rewrite Z2Nat.id by lia. by replace (snapshotIndex l + (prevIndex - snapshotIndex l)) with prevIndex by lia.
Qed.

(** *** The reference merge *)

Lemma merge_contiguous (start : Z) (old new : list Entry) :
  contiguous start old → contiguous start new → contiguous start (merge_entries old new).
Proof.
  revert start new. induction old as [|o old IH]; intros start new Ho Hn.
  { by rewrite merge_entries_nil_l. }
  destruct new as [|n new]; simpl; [done|].
  destruct (Z.eqb_spec (Entry_Term o) (Entry_Term n)) as [Ht|]; [|done].
  apply contiguous_tail in Ho as [Hoi Ho], Hn as [Hni Hn].
  specialize (IH _ _ Ho Hn). intros [|k] e Hk; simpl in Hk; simplify_eq; [lia|].
  apply IH in Hk. lia.
Qed.

Lemma merge_valid (old new : list Entry) :
  Forall valid_entry old → Forall valid_entry new → Forall valid_entry (merge_entries old new).
Proof.
  revert new. induction old as [|o old IH]; intros new Ho Hn.
  { by rewrite merge_entries_nil_l. }
  destruct new as [|n new]; simpl; [done|]. case_goal; [|done].
  rewrite Forall_cons in *. naive_solver.
Qed.

(** Every new entry is in the merge, up to the command of an equal term. *)
Lemma merge_agrees (old new : list Entry) (k : nat) (n : Entry) :
  new !! k = Some n →
  ∃ m, merge_entries old new !! k = Some m ∧ Entry_Term m = Entry_Term n ∧
       (m = n ∨ old !! k = Some m).
Proof.
  revert new k. induction old as [|o old IH]; intros new k Hk.
  { rewrite merge_entries_nil_l. eauto. }
  destruct new as [|n' new]; [done|]. simpl.
  destruct (Z.eqb_spec (Entry_Term o) (Entry_Term n')) as [Ht|Ht]; [|eauto].
  destruct k as [|k]; simpl in *; simplify_eq; [eauto|].
  destruct (IH _ _ Hk) as (m & ? & ? & ?). eauto.
Qed.

(** Below the first conflict the local entries stay; without a conflict all stay. *)
Lemma merge_keeps (start : Z) (old new : list Entry) (k : nat) (o : Entry) :
  contiguous start new → old !! k = Some o →
  (∀ i, first_conflict old new = Some i → start + Z.of_nat k + 1 < i) →
  merge_entries old new !! k = Some o.
Proof.
  revert start new k. induction old as [|o' old IH]; intros start new k Hn Hk Hi; [done|].
  destruct new as [|n new]; simpl in *; [done|].
  destruct (Z.eqb_spec (Entry_Term o') (Entry_Term n)) as [Ht|Ht].
  - destruct k as [|k]; simpl in *; [done|].
    apply contiguous_tail in Hn as [? Hn]. eapply IH; [exact Hn|done|].
    intros i Hc. specialize (Hi i Hc). lia.
  - specialize (Hi _ eq_refl). rewrite (Hn 0%nat n eq_refl) in Hi. lia.
Qed.

Lemma merge_length (old new : list Entry) :
  (length new ≤ length (merge_entries old new) ≤ length old `max` length new)%nat.
Proof.
  revert new. induction old as [|o old IH]; intros [|n new]; simpl; try lia.
  case_goal; simpl; [|lia]. specialize (IH new). lia.
Qed.

Lemma first_conflict_range (start : Z) (old new : list Entry) (i : Z) :
  contiguous start new → first_conflict old new = Some i →
  start < i ≤ start + Z.of_nat (length old `min` length new).
Proof.
  revert start new. induction old as [|o old IH]; intros start new Hn Hi; [by destruct new|].
  destruct new as [|n new]; simpl in *; [done|].
  apply contiguous_tail in Hn as [? Hn].
  destruct (Z.eqb_spec (Entry_Term o) (Entry_Term n)) as [Ht|Ht].
  - specialize (IH _ _ Hn Hi). lia.
  - simplify_eq. lia.
Qed.

(** *** Consequences of a successful append *)

(** A log whose retained suffix is replaced by a contiguous valid one that keeps
    the committed part stays well formed. *)
Lemma with_entries_wf (l : Log) (es : list Entry) :
  log_wf l → contiguous (snapshotIndex l) es → Forall valid_entry es →
  commitIndex l ≤ snapshotIndex l + len es ≤ max_uint64 →
  log_wf (with_entries l es).
Proof. intros [] Hc Hv Hl. constructor; simpl; done || lia. Qed.

Section append.
Context (l : Log) (prevIndex : Z) (es : list Entry).
Context (Hwf : log_wf l) (Hprev : snapshotIndex l ≤ prevIndex ≤ lastIndex l).
Context (Hc : contiguous prevIndex es) (Hv : Forall valid_entry es).
Context (Hmax : prevIndex + len es ≤ max_uint64).

Let k := Z.to_nat (prevIndex - snapshotIndex l).
Let merged := take k (entries l) ++ merge_entries (drop k (entries l)) es.

Lemma append_k : (k ≤ length (entries l))%nat ∧ snapshotIndex l + Z.of_nat k = prevIndex.
Proof. pose proof (wf_last l Hwf). unfold k, len in *. lia. Qed.

Lemma append_suffix_contiguous : contiguous prevIndex (drop k (entries l)).
Proof.
  destruct append_k as [? Hk]. intros j e Hj. rewrite lookup_drop in Hj.
  apply (wf_contiguous l Hwf) in Hj. lia.
Qed.

Lemma merged_contiguous : contiguous (snapshotIndex l) merged.
Proof.
  destruct append_k as [? Hk]. intros j e Hj. unfold merged in Hj.
  apply lookup_app_Some in Hj as [Hj|[Hge Hj]].
  - apply lookup_take_Some in Hj as [Hj _]. by apply (wf_contiguous l Hwf).
  - rewrite length_take in Hge, Hj.
    apply (merge_contiguous prevIndex) in Hj; [|apply append_suffix_contiguous|done]. lia.
Qed.

Lemma merged_valid : Forall valid_entry merged.
Proof.
  pose proof (wf_valid l Hwf). apply Forall_app. split; [by apply Forall_take|].
  apply merge_valid; [by apply Forall_drop|done].
Qed.

Lemma merged_bounds :
  prevIndex + len es ≤ snapshotIndex l + len merged ≤ lastIndex l `max` (prevIndex + len es).
Proof.
  destruct append_k as [? Hk]. pose proof (merge_length (drop k (entries l)) es) as Hm.
  rewrite length_drop in Hm. rewrite (wf_last l Hwf). unfold merged, len in *.
  rewrite length_app, length_take. lia.
Qed.

(** Entries at or below [prevIndex], and below any conflict, are kept. *)
Lemma merged_keeps (i : Z) :
  (∀ c, first_conflict (drop k (entries l)) es = Some c → i < c) →
  i ≤ lastIndex l →
  entry_at (with_entries l merged) i = entry_at l i.
Proof.
  intros Hlt Hi. destruct append_k as [Hk1 Hk2]. unfold entry_at. simpl.
  destruct (Z.ltb_spec (snapshotIndex l) i) as [Hb|]; [|done].
  unfold merged. destruct (decide (i ≤ prevIndex)).
  - rewrite lookup_app_l by (rewrite length_take; lia). apply lookup_take_lt. lia.
  - rewrite lookup_app_r by (rewrite length_take; lia). rewrite length_take.
    destruct (entry_lookup_in l i Hwf ltac:(lia)) as (e & He & Hei). rewrite He.
    eapply merge_keeps; [exact Hc| |].
    + rewrite lookup_drop. rewrite <- He. f_equal. lia.
    + intros c Hcf. specialize (Hlt c Hcf). lia.
Qed.

Lemma merged_commit :
  (∀ c, first_conflict (drop k (entries l)) es = Some c → commitIndex l < c) →
  commitIndex l ≤ snapshotIndex l + len merged.
Proof.
  intros Hlt. destruct append_k as [Hk1 Hk2]. pose proof (wf_commit l Hwf).
  destruct (decide (commitIndex l ≤ snapshotIndex l)).
  { pose proof (len_nonneg merged). lia. }
  assert (entry_at (with_entries l merged) (commitIndex l) = entry_at l (commitIndex l)) as He
    by (apply merged_keeps; [done|lia]).
  destruct (entry_at_in l (commitIndex l) Hwf ltac:(lia)) as (e & He' & _).
  rewrite He' in He. unfold entry_at in He. simpl in He.
  destruct (Z.ltb_spec (snapshotIndex l) (commitIndex l)); [|lia].
  apply lookup_lt_Some in He. unfold len. lia.
Qed.

Lemma merged_agrees (e : Entry) :
  e ∈ es → term_at (with_entries l merged) (Entry_Index e) = Some (Entry_Term e).
Proof.
  intros [j Hj]%list_elem_of_lookup. destruct append_k as [Hk1 Hk2].
  pose proof (Hc _ _ Hj) as Hi. unfold term_at, entry_at. simpl.
  destruct (Z.eqb_spec (Entry_Index e) (snapshotIndex l)); [lia|].
  destruct (Z.ltb_spec (snapshotIndex l) (Entry_Index e)); [|lia].
  unfold merged. rewrite lookup_app_r by (rewrite length_take; lia). rewrite length_take.
  destruct (merge_agrees (drop k (entries l)) es j e Hj) as (m & Hm & Ht & _).
  replace (Z.to_nat (Entry_Index e - snapshotIndex l - 1) - k `min` length (entries l))%nat
    with j by lia.
  rewrite Hm. simpl. by rewrite Ht.
Qed.

Lemma Append_ref_sound :
  let r := Append_ref l prevIndex es in
  (r = (Err (noHint, ErrCommittedConflict), l) ∨ r = (Ok noHint, with_entries l merged)) ∧
  log_wf r.2 ∧
  (∀ i, i ≤ commitIndex l ∨ i ≤ prevIndex → entry_at r.2 i = entry_at l i) ∧
  (r.1 = Ok noHint → ∀ e, e ∈ es → term_at r.2 (Entry_Index e) = Some (Entry_Term e)).
Proof.
  pose proof (wf_commit l Hwf). pose proof (wf_range l Hwf).
  assert ((∀ c, first_conflict (drop k (entries l)) es = Some c → commitIndex l < c) →
    log_wf (with_entries l merged) ∧
    (∀ i, i ≤ commitIndex l ∨ i ≤ prevIndex → entry_at (with_entries l merged) i = entry_at l i) ∧
    (∀ e, e ∈ es → term_at (with_entries l merged) (Entry_Index e) = Some (Entry_Term e))) as Hacc.
  { intros Hlt. split_and!.
    - pose proof merged_bounds. pose proof (merged_commit Hlt).
      apply with_entries_wf; [done|apply merged_contiguous|apply merged_valid|lia].
    - intros i Hi. apply merged_keeps; [|lia].
      intros c Hcf. specialize (Hlt c Hcf).
      pose proof (first_conflict_range prevIndex _ _ _ Hc Hcf). lia.
    - apply merged_agrees. }
  cbv zeta. unfold Append_ref. fold k merged.
  destruct (first_conflict (drop k (entries l)) es) as [c|] eqn:Hcf.
  - destruct (Z.leb_spec c (commitIndex l)); simpl; [by split_and!; auto|].
    destruct Hacc as (? & ? & ?); [naive_solver|]. split_and!; auto.
  - destruct Hacc as (? & ? & ?); [naive_solver|]. simpl. split_and!; auto.
Qed.

End append.

(** *** Rejection hints *)

Lemma firstOffsetLoop_spec (es : list Entry) (t : Z) (offset : nat) :
  (offset < length es)%nat →
  let first := firstOffsetLoop es t offset in
  (first ≤ offset)%nat ∧
  (∀ j, (first ≤ j < offset)%nat → Entry_Term <$> es !! j = Some t) ∧
  (first = O ∨ ∃ e, es !! pred first = Some e ∧ Entry_Term e ≠ t).
Proof.
  induction offset as [|o IH]; intros Hlt; simpl.
  { split_and!; [lia| |auto]. intros; lia. }
  destruct (lookup_lt_is_Some_2 es o ltac:(lia)) as [e He]. rewrite He.
  destruct (Z.eqb_spec (Entry_Term e) t) as [Ht|Ht].
  - destruct IH as (H1 & H2 & H3); [lia|]. split_and!; [lia| |done].
    intros j Hj. destruct (decide (j = o)) as [->|]; [by rewrite He, <- Ht|apply H2; lia].
  - split_and!; [lia|intros; lia|]. right. exists e. auto.
Qed.

Lemma firstIndexOfTerm_spec (l : Log) (i t : Z) :
  log_wf l → term_at l i = Some t →
  ∃ first, firstIndexOfTerm l i t = Ok first ∧ run_start l i t first.
Proof.
  intros Hwf Hi. pose proof (term_at_Some_range l i t Hwf Hi) as Hr.
  unfold firstIndexOfTerm. destruct (Z.eqb_spec i (snapshotIndex l)) as [->|Hne].
  { exists (snapshotIndex l). split; [done|]. split_and!; [lia|lia| |auto].
    intros j Hj. by replace j with (snapshotIndex l) by lia. }
  rewrite (retainedOffset_in l i Hwf ltac:(lia)). simpl.
  set (offset := Z.to_nat (i - snapshotIndex l - 1)).
  pose proof (wf_last l Hwf) as Hlast. unfold len in Hlast.
  assert (∀ j, (j < length (entries l))%nat →
    term_at l (snapshotIndex l + Z.of_nat j + 1) = Entry_Term <$> entries l !! j) as Hat.
  { intros j Hj. unfold term_at, entry_at. destruct (Z.eqb_spec (snapshotIndex l + Z.of_nat j + 1) (snapshotIndex l)); [lia|].
    destruct (Z.ltb_spec (snapshotIndex l) (snapshotIndex l + Z.of_nat j + 1)); [|lia].
    do 2 f_equal. lia. }
  destruct (firstOffsetLoop_spec (entries l) t offset ltac:(unfold offset; lia)) as (H1 & H2 & H3).
  set (first := firstOffsetLoop (entries l) t offset) in *.
  assert (∀ j, snapshotIndex l + Z.of_nat first + 1 ≤ j ≤ i → term_at l j = Some t) as Hrun.
  { intros j Hj. destruct (decide (j = i)) as [->|]; [done|].
    replace j with (snapshotIndex l + Z.of_nat (Z.to_nat (j - snapshotIndex l - 1)) + 1) by lia.
    rewrite Hat by lia. apply H2. unfold offset. lia. }
  destruct (Nat.eqb_spec first 0) as [Hz|Hz];
    [destruct (Z.eqb_spec (snapshotTerm l) t) as [Hst|Hst]|]; simpl.
  - exists (snapshotIndex l). split; [done|]. split_and!; [lia|lia| |auto].
    intros j Hj. destruct (decide (j = snapshotIndex l)) as [->|]; [|apply Hrun; lia].
    unfold term_at. by rewrite Z.eqb_refl, Hst.
  - destruct (lookup_lt_is_Some_2 (entries l) first ltac:(unfold offset in *; lia)) as [e He].
    unfold entryAt. rewrite He. simpl. apply (wf_contiguous l Hwf) in He as ->.
    eexists. split; [done|]. split_and!; [lia|unfold offset in *; lia|done|].
    right. rewrite Hz. replace (snapshotIndex l + Z.of_nat 0 + 1 - 1) with (snapshotIndex l) by lia.
    unfold term_at. rewrite Z.eqb_refl. congruence.
  - destruct (lookup_lt_is_Some_2 (entries l) first ltac:(unfold offset in *; lia)) as [e He].
    unfold entryAt. rewrite He. simpl. apply (wf_contiguous l Hwf) in He as ->.
    eexists. split; [done|]. split_and!; [lia|unfold offset in *; lia|done|].
    right. destruct H3 as [?|(e' & He' & Ht)]; [lia|].
    replace (snapshotIndex l + Z.of_nat first + 1 - 1)
      with (snapshotIndex l + Z.of_nat (pred first) + 1) by lia.
    rewrite Hat by (apply lookup_lt_Some in He'; lia). rewrite He'. simpl. congruence.
Qed.

Lemma Append_rejects (l : Log) (prevIndex prevTerm : Z) (es : list Entry) :
  log_wf l → term_at l prevIndex ≠ Some prevTerm →
  ∃ hint e, Append prevIndex prevTerm es l = (Err (hint, e), l) ∧
    ((prevIndex < snapshotIndex l ∧ e = ErrLogCompacted ∧
      hint = mkConflictHint (snapshotTerm l) (snapshotIndex l)) ∨
     (lastIndex l < prevIndex ∧
      (e = ErrLogUnavailable ∧ hint = mkConflictHint 0 (lastIndex l + 1) ∨
       e = ErrLogOverflow ∧ lastIndex l = max_uint64)) ∨
     (∃ t first, term_at l prevIndex = Some t ∧ e = ErrLogMismatch ∧
      hint = mkConflictHint t first ∧ run_start l prevIndex t first)).
Proof.
  intros Hwf Hne. unfold Append, bind at 1, get. rewrite (Log_Term_spec l prevIndex Hwf).
  destruct (Z.ltb_spec prevIndex (snapshotIndex l)) as [Hlt|Hge]; [unfold throw; eauto 10|].
  destruct (term_at l prevIndex) as [t|] eqn:Ht.
  - destruct (Z.eqb_spec t prevTerm) as [->|]; [done|]. simpl.
    destruct (firstIndexOfTerm_spec l prevIndex t Hwf Ht) as (first & Hf & Hrun).
    unfold bind, lift. rewrite Hf. simpl. unfold throw. eauto 12.
  - assert (lastIndex l < prevIndex) as Hlast.
    { destruct (Z.le_gt_cases prevIndex (lastIndex l)); [|done].
      destruct (term_at_in l prevIndex Hwf ltac:(lia)); congruence. }
    unfold checkedNextIndex, throw. destruct (Z.eqb_spec (lastIndex l) max_uint64); eauto 12.
Qed.

Lemma validateLogEntry_cases (e : Entry) :
  validateLogEntry e = Ok tt ∨ validateLogEntry e = Err ErrInvalidEntry.
Proof. unfold validateLogEntry. repeat case_goal; auto. Qed.

Lemma newLogLoop_returns (start : Z) (es : list Entry) :
  match newLogLoop start es with Ok _ | Err _ => True | _ => False end.
Proof.
  revert start. induction es as [|e es IH]; intros start; simpl; [done|].
  destruct (checkedNextIndex start); [|done]. destruct (negb _); [done|].
  destruct (validateLogEntry_cases e) as [-> | ->]; simpl; [apply IH|done].
Qed.

(** The outcomes of [Append] on a well-formed log: an error that changes
    nothing, or the reference merge. *)
Lemma Append_cases (l : Log) (prevIndex prevTerm : Z) (es : list Entry) :
  log_wf l →
  (∃ h e, Append prevIndex prevTerm es l = (Err (h, e), l)) ∨
  (term_at l prevIndex = Some prevTerm ∧ contiguous prevIndex es ∧ Forall valid_entry es ∧
   prevIndex + len es ≤ max_uint64 ∧
   Append prevIndex prevTerm es l = Append_ref l prevIndex es ∧
   (Append_ref l prevIndex es).1 = Ok noHint).
Proof.
  intros Hwf. destruct (decide (term_at l prevIndex = Some prevTerm)) as [Ht|Ht].
  2:{ destruct (Append_rejects l prevIndex prevTerm es Hwf Ht) as (h & e & -> & _). eauto. }
  pose proof (term_at_Some_range l _ _ Hwf Ht) as Hr. pose proof (wf_nonneg l Hwf).
  pose proof (wf_range l Hwf). pose proof (newLogLoop_returns prevIndex es) as Hret.
  destruct (appendCheckLoop prevIndex es) as [[]|e| |] eqn:Hck.
  3,4: rewrite appendCheckLoop_newLogLoop in Hck; destruct (newLogLoop prevIndex es); done.
  - rewrite (Append_matching l prevIndex prevTerm es Hwf Ht Hck).
    apply appendCheckLoop_Ok in Hck as (Hc & Hv & Hm); [|ulia].
    destruct (Append_ref_sound l prevIndex es Hwf Hr Hc Hv Hm) as ([Hor|Hor] & _);
      rewrite Hor; [eauto|right; by split_and!].
  - left. unfold Append, bind, get, lift. rewrite (Log_Term_spec l prevIndex Hwf).
    destruct (Z.ltb_spec prevIndex (snapshotIndex l)); [lia|]. rewrite Ht, Z.eqb_refl. simpl.
    destruct (Z.eqb_spec (len es) 0) as [Hz|Hz].
    { apply len_0_nil in Hz as ->. done. }
    rewrite Hck. simpl. eauto.
Qed.

Lemma Append_wf (l : Log) (prevIndex prevTerm : Z) (es : list Entry) :
  log_wf l → log_wf (Append prevIndex prevTerm es l).2.
Proof.
  intros Hwf. destruct (Append_cases l prevIndex prevTerm es Hwf)
    as [(h & e & ->)|(Ht & Hc & Hv & Hm & -> & _)]; [done|].
  by apply (Append_ref_sound l prevIndex es Hwf (term_at_Some_range l _ _ Hwf Ht) Hc Hv Hm).
Qed.

(** ** The other operations *)

Lemma NewLog_wf (snapIndex snapTerm commit applied : Z) (es : list Entry) (l : Log) :
  is_u64 snapIndex → NewLog snapIndex snapTerm commit applied es = Ok l →
  log_wf l ∧ State l = mkLogState snapIndex snapTerm commit applied es.
Proof.
  intros Hu. unfold NewLog.
  destruct (Bool.eqb _ _) eqn:Hb; [|done]. apply eqb_prop in Hb. simpl.
  destruct (_ || _) eqn:Ho; [done|]. bool_hyps.
  destruct (newLogLoop snapIndex es) as [next| | |] eqn:Hn; simpl; try done.
  apply newLogLoop_Ok in Hn as (Hc & Hv & -> & Hm); [|done].
  destruct (Z.ltb_spec (snapIndex + len es) commit); [done|]. intros [= <-].
  split; [|done]. constructor; simpl; done || ulia.
Qed.

(** [NewLog] on the exported state of a checked log returns that log. *)
Lemma NewLog_State (l : Log) :
  log_wf l →
  NewLog (snapshotIndex l) (snapshotTerm l) (commitIndex l) (appliedIndex l) (entries l) = Ok l.
Proof.
  intros []. unfold NewLog.
  assert (Bool.eqb (snapshotIndex l =? 0) (snapshotTerm l =? 0) = true) as ->.
  { apply eqb_true_iff. destruct (Z.eqb_spec (snapshotIndex l) 0), (Z.eqb_spec (snapshotTerm l) 0);
      tauto. }
  simpl. destruct (Z.ltb_spec (appliedIndex l) (snapshotIndex l)); [lia|].
  destruct (Z.ltb_spec (commitIndex l) (appliedIndex l)); [lia|]. simpl.
  assert (newLogLoop (snapshotIndex l) (entries l) = Ok (lastIndex l)) as ->.
  { apply newLogLoop_Ok; [ulia|]. by rewrite <- wf_last0. }
  simpl. destruct (Z.ltb_spec (lastIndex l) (commitIndex l)); [lia|]. by destruct l.
Qed.

#[global] Instance log_extends_refl : Reflexive log_extends.
Proof. intros l. unfold log_extends. split_and!; (lia || done). Qed.

#[global] Instance log_extends_trans : Transitive log_extends.
Proof.
  intros l1 l2 l3 (?&?&?&He&Ht) (?&?&?&He'&Ht'). split_and!; [lia|lia|lia| |].
  - intros i Hi. rewrite He' by lia. apply He. lia.
  - intros i Hi. rewrite Ht' by lia. apply Ht. lia.
Qed.

Lemma term_at_entry_at (l l' : Log) (i : Z) :
  snapshotIndex l' = snapshotIndex l → snapshotTerm l' = snapshotTerm l →
  entry_at l' i = entry_at l i → term_at l' i = term_at l i.
Proof. unfold term_at. by intros -> -> ->. Qed.

Lemma Append_extends (l : Log) (prevIndex prevTerm : Z) (es : list Entry) :
  log_wf l → log_extends l (Append prevIndex prevTerm es l).2.
Proof.
  intros Hwf. destruct (Append_cases l prevIndex prevTerm es Hwf)
    as [(h & e & ->)|(Ht & Hc & Hv & Hm & -> & _)]; [done|].
  destruct (Append_ref_sound l prevIndex es Hwf (term_at_Some_range l _ _ Hwf Ht) Hc Hv Hm)
    as ([Hor|Hor] & _ & Hk & _); rewrite Hor in *; [done|]. simpl in *.
  split_and!; simpl; try lia; intros i Hi; [apply Hk; lia|].
  apply term_at_entry_at; [done|done|apply Hk; lia].
Qed.

(** Dropping the first [k] retained entries moves the base to the [k]-th one. *)
Lemma Append_commit (l : Log) (prevIndex prevTerm : Z) (es : list Entry) :
  log_wf l → commitIndex (Append prevIndex prevTerm es l).2 = commitIndex l.
Proof.
  intros Hwf. destruct (Append_cases l prevIndex prevTerm es Hwf)
    as [(h & e & ->)|(_ & _ & _ & _ & -> & _)]; [done|]. unfold Append_ref.
  by repeat case_goal.
Qed.

Lemma Append_returns (l : Log) (prevIndex prevTerm : Z) (es : list Entry) :
  log_wf l → (Append prevIndex prevTerm es l).1 ≠ Panic.
Proof.
  intros Hwf. destruct (Append_cases l prevIndex prevTerm es Hwf)
    as [(h & e & ->)|(_ & _ & _ & _ & -> & ->)]; done.
Qed.

Lemma entry_at_drop (l l' : Log) (index i : Z) :
  log_wf l → snapshotIndex l < index ≤ lastIndex l →
  snapshotIndex l' = index →
  entries l' = drop (Z.to_nat (index - snapshotIndex l - 1) + 1) (entries l) →
  index < i → entry_at l' i = entry_at l i.
Proof.
  intros Hwf Hin Hs He Hi. unfold entry_at. rewrite Hs, He.
  destruct (Z.ltb_spec index i), (Z.ltb_spec (snapshotIndex l) i); try lia.
  rewrite lookup_drop. f_equal. lia.
Qed.

Lemma drop_wf (l l' : Log) (index : Z) :
  log_wf l → snapshotIndex l < index ≤ lastIndex l →
  snapshotIndex l' = index → snapshotTerm l' ≠ 0 →
  entries l' = drop (Z.to_nat (index - snapshotIndex l - 1) + 1) (entries l) →
  lastIndex l' = lastIndex l → index ≤ appliedIndex l' ≤ commitIndex l' →
  commitIndex l' ≤ lastIndex l' → log_wf l'.
Proof.
  intros Hwf Hin Hs Ht He Hl Ha Hc. destruct Hwf as [].
  constructor; rewrite ?Hl, ?He, ?Hs; try lia.
  - rewrite wf_last0. unfold len in *. rewrite length_drop. lia.
  - intros j e Hj. rewrite lookup_drop in Hj. apply wf_contiguous0 in Hj. lia.
  - by apply Forall_drop.
Qed.

Lemma valid_entry_term (e : Entry) : valid_entry e → Entry_Term e ≠ 0.
Proof. unfold valid_entry, validateLogEntry. repeat case_goal; intros; bool_hyps; done. Qed.

(** The term at a retained index is never zero. *)
Lemma term_at_nonzero (l : Log) (i t : Z) :
  log_wf l → snapshotIndex l < i → term_at l i = Some t → t ≠ 0.
Proof.
  intros Hwf Hi. unfold term_at, entry_at. destruct (Z.eqb_spec i (snapshotIndex l)); [lia|].
  destruct (Z.ltb_spec (snapshotIndex l) i); [|lia].
  intros (e & He & ->)%fmap_Some. apply valid_entry_term.
  eapply Forall_lookup_1; [apply (wf_valid l Hwf)|done].
Qed.

Lemma AdvanceCommit_ok (l : Log) (index : Z) :
  log_wf l →
  AdvanceCommit index l =
    if index <? commitIndex l then (Err ErrLogRegression, l)
    else if lastIndex l <? index then (Err ErrLogUnavailable, l)
    else (Ok tt, l <| commitIndex := index |>).
Proof. intros _. unfold AdvanceCommit, bind, get. by repeat case_goal. Qed.

Lemma AdvanceCommit_safe (l : Log) (index : Z) :
  log_wf l → log_wf (AdvanceCommit index l).2 ∧ log_extends l (AdvanceCommit index l).2.
Proof.
  intros Hwf. unfold AdvanceCommit, bind, get. destruct (Z.ltb_spec index (commitIndex l)); [done|].
  destruct (Z.ltb_spec (lastIndex l) index); [done|]. simpl. destruct Hwf as [].
  split; [constructor; simpl; done || lia|]. split_and!; simpl; done || lia.
Qed.

Lemma AdvanceApplied_safe (l : Log) (index : Z) :
  log_wf l → log_wf (AdvanceApplied index l).2 ∧ log_extends l (AdvanceApplied index l).2.
Proof.
  intros Hwf. unfold AdvanceApplied, bind, get. destruct (Z.ltb_spec index (appliedIndex l)); [done|].
  destruct (Z.ltb_spec (commitIndex l) index); [done|]. simpl. destruct Hwf as [].
  split; [constructor; simpl; done || lia|]. split_and!; simpl; done || lia.
Qed.

(** What [Compact] does on every branch. *)
Lemma Compact_cases (l : Log) (index term : Z) :
  log_wf l →
  (∃ e, Compact index term l = (Err e, l)) ∨
  (Compact index term l = (Ok tt, l) ∧ index = snapshotIndex l ∧ term = snapshotTerm l) ∨
  (snapshotIndex l < index ≤ appliedIndex l ∧ term_at l index = Some term ∧
   Compact index term l =
     (Ok tt, l <| entries := drop (Z.to_nat (index - snapshotIndex l - 1) + 1) (entries l) |>
               <| snapshotIndex := index |> <| snapshotTerm := term |>)).
Proof.
  intros Hwf. pose proof (wf_order l Hwf). pose proof (wf_commit l Hwf).
  unfold Compact, bind, get, lift, throw, ret.
  destruct (Z.ltb_spec index (snapshotIndex l)); [eauto|].
  destruct (Z.eqb_spec index (snapshotIndex l)) as [->|].
  { destruct (Z.eqb_spec term (snapshotTerm l)) as [->|]; simpl; eauto. }
  destruct (Z.ltb_spec (lastIndex l) index); [eauto|].
  destruct (Z.ltb_spec (appliedIndex l) index); [eauto|].
  rewrite (Log_Term_spec l index Hwf). destruct (Z.ltb_spec index (snapshotIndex l)); [lia|].
  destruct (term_at_in l index Hwf ltac:(lia)) as [t Ht]. rewrite Ht.
  destruct (Z.eqb_spec t term) as [->|]; simpl; [|eauto].
  rewrite (retainedOffset_in l index Hwf) by lia. simpl. right. right. done || (split_and!; [lia|lia|done|done]).
Qed.

Lemma Compact_safe (l : Log) (index term : Z) :
  log_wf l → log_wf (Compact index term l).2 ∧ log_extends l (Compact index term l).2.
Proof.
  intros Hwf. pose proof (wf_order l Hwf). pose proof (wf_commit l Hwf).
  destruct (Compact_cases l index term Hwf) as [(e & ->)|[(-> & _)|(Hi & Ht & ->)]]; [done|done|].
  simpl. assert (∀ i, index < i → entry_at (l <| entries := drop (Z.to_nat (index - snapshotIndex l - 1) + 1) (entries l) |>
               <| snapshotIndex := index |> <| snapshotTerm := term |>) i = entry_at l i) as Hd.
  { intros i Hlt. eapply (entry_at_drop l _ index); simpl; done || lia. }
  split.
  - eapply (drop_wf l _ index Hwf); simpl; try done || lia.
    by apply (term_at_nonzero l index term Hwf ltac:(lia)).
  - split_and!; simpl; try lia; intros i Hlt; [apply Hd; lia|].
    destruct (decide (i = index)) as [->|].
    + rewrite Ht. unfold term_at. simpl. by rewrite Z.eqb_refl.
    + unfold term_at. rewrite Hd by lia. simpl.
      destruct (Z.eqb_spec i index), (Z.eqb_spec i (snapshotIndex l)); done || lia.
Qed.

(** What [RestoreSnapshot] does on every branch: the third consistency check of
    the code never fires on a well-formed log. *)
Lemma RestoreSnapshot_cases (l : Log) (index term : Z) :
  log_wf l →
  let r := RestoreSnapshot index term l in
  (r = (Ok tt, l) ∧ index ≤ snapshotIndex l) ∨
  (r = (Err ErrLogMismatch, l) ∧ index = snapshotIndex l ∧ term ≠ snapshotTerm l) ∨
  (r = (Err ErrLogInvariant, l) ∧ snapshotIndex l < index ∧ term = 0) ∨
  (r = (Err ErrCommittedConflict, l) ∧ snapshotIndex l < index ≤ commitIndex l ∧
   term_at l index ≠ Some term) ∨
  (snapshotIndex l < index ≤ lastIndex l ∧ term ≠ 0 ∧ term_at l index = Some term ∧
   r = (Ok tt, mkLog index term (commitIndex l `max` index) (appliedIndex l `max` index)
          (lastIndex l) (drop (Z.to_nat (index - snapshotIndex l - 1) + 1) (entries l)))) ∨
  (commitIndex l < index ∧ term ≠ 0 ∧ term_at l index ≠ Some term ∧
   r = (Ok tt, mkLog index term index index index [])).
Proof.
  intros Hwf. pose proof (wf_order l Hwf). pose proof (wf_commit l Hwf).
  assert (∀ a b, maxLogIndex a b = a `max` b) as Hmax.
  { intros a b. unfold maxLogIndex. destruct (Z.ltb_spec b a); lia. }
  cbv zeta. unfold RestoreSnapshot, bind, get, lift, throw, ret, put.
  destruct (Z.ltb_spec index (snapshotIndex l)); [left; split; [done|lia]|].
  destruct (Z.eqb_spec index (snapshotIndex l)) as [->|].
  { destruct (Z.eqb_spec term (snapshotTerm l)); simpl; [left; split; [done|lia]|auto 10]. }
  destruct (Z.eqb_spec term 0); [right; right; left; split_and!; [done|lia|done]|].
  unfold restoreRetained. rewrite !Hmax.
  destruct (Z.leb_spec index (lastIndex l)).
  - rewrite (Log_Term_spec l index Hwf). destruct (Z.ltb_spec index (snapshotIndex l)); [lia|].
    destruct (term_at_in l index Hwf ltac:(lia)) as [t Ht]. rewrite Ht. simpl.
    destruct (Z.eqb_spec t term) as [->|Hne].
    + rewrite (retainedOffset_in l index Hwf) by lia. simpl.
      destruct (Z.ltb_spec (appliedIndex l `max` index) index); [lia|].
      destruct (Z.ltb_spec (commitIndex l `max` index) (appliedIndex l `max` index)); [lia|].
      destruct (Z.ltb_spec (lastIndex l) (commitIndex l `max` index)); [lia|]. simpl.
      do 4 right. left. split_and!; done || lia.
    + destruct (Z.leb_spec index (commitIndex l)); simpl.
      { do 3 right. left. split_and!; try done || lia. congruence. }
      do 5 right. rewrite !Z.max_r by lia. rewrite Z.ltb_irrefl. simpl.
      split_and!; try done || lia. congruence.
  - simpl. do 5 right. rewrite !Z.max_r by lia. rewrite Z.ltb_irrefl. simpl.
    split_and!; try done || lia.
    intros Ht. pose proof (term_at_Some_range l _ _ Hwf Ht). lia.
Qed.

Lemma RestoreSnapshot_safe (l : Log) (index term : Z) :
  log_wf l → is_u64 index →
  log_wf (RestoreSnapshot index term l).2 ∧ log_extends l (RestoreSnapshot index term l).2.
Proof.
  intros Hwf Hu. pose proof (wf_order l Hwf). pose proof (wf_commit l Hwf).
  destruct (RestoreSnapshot_cases l index term Hwf)
    as [[-> _]|[[-> _]|[[-> _]|[[-> _]|[(Hi & Hz & Ht & ->)|(Hi & Hz & Ht & ->)]]]]]; try done; simpl.
  - set (l' := mkLog _ _ _ _ _ _).
    assert (∀ i, index < i → entry_at l' i = entry_at l i) as Hd.
    { intros i Hlt. eapply (entry_at_drop l _ index); done || lia. }
    split; [eapply (drop_wf l l' index Hwf); simpl; done || lia|].
    split_and!; simpl; try lia; intros i Hlt; [apply Hd; lia|].
    destruct (decide (i = index)) as [->|].
    + rewrite Ht. unfold term_at. simpl. by rewrite Z.eqb_refl.
    + unfold term_at. rewrite Hd by lia. simpl.
      destruct (Z.eqb_spec i index), (Z.eqb_spec i (snapshotIndex l)); done || lia.
  - split; [|split_and!; simpl; lia].
    pose proof (wf_nonneg l Hwf). constructor; simpl; rewrite ?len_nil; try (done || ulia).
Qed.

Lemma run_op_safe (op : log_op) (l : Log) :
  log_wf l → op_typed op →
  (∃ o, run_op op l = (Ok o, (run_op op l).2) ∨ run_op op l = (Err o, (run_op op l).2)) ∧
  log_wf (run_op op l).2 ∧ log_extends l (run_op op l).2.
Proof.
  intros Hwf Ht. destruct op as [pi pt es|i|i|i t|i t]; simpl.
  - pose proof (Append_wf l pi pt es Hwf). pose proof (Append_extends l pi pt es Hwf).
    split; [|done]. exists tt. destruct (Append_cases l pi pt es Hwf)
      as [(h & e & ->)|(_ & _ & _ & _ & Heq & Hok)]; [by right|left].
    rewrite Heq in *. destruct (Append_ref l pi es) as [[] ?]; simpl in *; done.
  - split; [|by apply AdvanceCommit_safe]. exists tt. rewrite AdvanceCommit_ok by done.
    repeat case_goal; auto.
  - split; [|by apply AdvanceApplied_safe]. exists tt. unfold AdvanceApplied, bind, get.
    repeat case_goal; auto.
  - split; [|by apply Compact_safe]. exists tt.
    destruct (Compact_cases l i t Hwf) as [(e & ->)|[(-> & _)|(_ & _ & ->)]]; auto.
  - split; [|by apply RestoreSnapshot_safe]. exists tt.
    destruct (RestoreSnapshot_cases l i t Hwf)
      as [[-> _]|[[-> _]|[[-> _]|[[-> _]|[(_ & _ & _ & ->)|(_ & _ & _ & ->)]]]]]; auto.
Qed.

(** ** Claims *)

(** C34: when the previous position matches and the new entries number
    consecutively from it, [Append] is the reference merge of the retained
    suffix with the new entries on every branch (the common prefix of equal
    terms stays, everything from the first conflict on is replaced, a conflict
    at or below the commit index is an error that changes nothing); after an
    accepted append every new entry's position holds its term, and nothing at
    or below the previous position or the commit index has changed. *)
Theorem Append_refines_merge (l : Log) (prevIndex prevTerm : Z) (es : list Entry) :
  log_wf l → term_at l prevIndex = Some prevTerm →
  contiguous prevIndex es → Forall valid_entry es → prevIndex + len es ≤ max_uint64 →
  Append prevIndex prevTerm es l = Append_ref l prevIndex es ∧
  (∀ i, i ≤ commitIndex l ∨ i ≤ prevIndex →
    entry_at (Append prevIndex prevTerm es l).2 i = entry_at l i) ∧
  ((Append prevIndex prevTerm es l).1 = Ok noHint →
    ∀ e, e ∈ es → term_at (Append prevIndex prevTerm es l).2 (Entry_Index e) = Some (Entry_Term e)).
Proof.
  intros Hwf Ht Hc Hv Hm. pose proof (term_at_Some_range l _ _ Hwf Ht) as Hr.
  pose proof (wf_nonneg l Hwf). pose proof (wf_range l Hwf).
  rewrite (Append_matching l prevIndex prevTerm es Hwf Ht) by (apply appendCheckLoop_Ok; [ulia|done]).
  split; [done|]. by apply (Append_ref_sound l prevIndex es Hwf Hr Hc Hv Hm).
Qed.

(** C35: an [Append] whose previous position does not match locally is rejected
    without changing the log, and its hint is exact: the compacted base when the
    position is below it, the next free index when it is beyond the log, and
    otherwise the local term there with the first index of the maximal run of
    that term ending at the position. *)
Theorem Append_rejection_hint (l : Log) (prevIndex prevTerm : Z) (es : list Entry) :
  log_wf l → term_at l prevIndex ≠ Some prevTerm → lastIndex l ≠ max_uint64 →
  ∃ hint e, Append prevIndex prevTerm es l = (Err (hint, e), l) ∧
    (prevIndex < snapshotIndex l →
      e = ErrLogCompacted ∧ hint = mkConflictHint (snapshotTerm l) (snapshotIndex l)) ∧
    (lastIndex l < prevIndex →
      e = ErrLogUnavailable ∧ hint = mkConflictHint 0 (lastIndex l + 1)) ∧
    (∀ t, term_at l prevIndex = Some t →
      e = ErrLogMismatch ∧ Hint_Term hint = t ∧ run_start l prevIndex t (Hint_Index hint)).
Proof.
  intros Hwf Hne Hmax. pose proof (wf_order l Hwf). pose proof (wf_commit l Hwf).
  pose proof (λ t, term_at_Some_range l prevIndex t Hwf) as Hr.
  destruct (Append_rejects l prevIndex prevTerm es Hwf Hne)
    as (hint & e & Heq & [(? & -> & ->)|[(? & [(-> & ->)|(_ & ?)])|(t & first & Ht & -> & -> & Hrun)]]);
    [| |done|]; do 2 eexists; (split; [exact Heq|]).
  - split_and!; [done|lia|]. intros t ?%Hr. lia.
  - split_and!; [lia|done|]. intros t ?%Hr. lia.
  - apply Hr in Ht as ?. split_and!; [lia|lia|]. intros t' Ht'. by simplify_eq.
Qed.

(** C36: starting from a log accepted by [NewLog], any sequence of [Append],
    [AdvanceCommit], [AdvanceApplied], [Compact] and [RestoreSnapshot] calls,
    whatever their arguments and errors, never panics, keeps the structural
    invariant, only moves the base, applied and commit indices forward, and
    never changes the entry or the term of a committed position that is still
    available. *)
Theorem log_operations_safe (snapIndex snapTerm commit applied : Z) (es : list Entry) (l : Log)
    (ops : list log_op) :
  is_u64 snapIndex → NewLog snapIndex snapTerm commit applied es = Ok l → Forall op_typed ops →
  ∃ l', run_ops ops l = Some l' ∧ log_wf l' ∧ log_extends l l'.
Proof.
  intros Hu Hnew. apply NewLog_wf in Hnew as [Hwf _]; [|done]. clear Hu.
  revert l Hwf. induction ops as [|op ops IH]; intros l Hwf Hty; simpl; [by exists l|].
  apply Forall_cons in Hty as [Hop Hty].
  destruct (run_op_safe op l Hwf Hop) as ([o Ho] & Hwf' & Hext).
  destruct (IH _ Hwf' Hty) as (l' & Hrun & ? & ?). exists l'.
  split_and!; [|done|by etrans]. by destruct Ho as [-> | ->].
Qed.

(** C37: installing a snapshot keeps the suffix above it exactly when the local
    log has the snapshot's last term at its last index, discards the whole
    suffix otherwise, and refuses, with the log unchanged, a snapshot that
    contradicts a committed entry. *)
Theorem RestoreSnapshot_exact (l : Log) (index term : Z) :
  log_wf l → snapshotIndex l < index ≤ max_uint64 → term ≠ 0 →
  (term_at l index ≠ Some term → index ≤ commitIndex l →
    RestoreSnapshot index term l = (Err ErrCommittedConflict, l)) ∧
  (term_at l index = Some term ∨ commitIndex l < index → ∃ l',
    RestoreSnapshot index term l = (Ok tt, l') ∧ log_wf l' ∧
    snapshotIndex l' = index ∧ snapshotTerm l' = term ∧
    commitIndex l' = commitIndex l `max` index ∧ appliedIndex l' = appliedIndex l `max` index ∧
    (∀ i, index < i → entry_at l' i =
      if decide (term_at l index = Some term) then entry_at l i else None)).
Proof.
  intros Hwf Hi Hz. pose proof (wf_nonneg l Hwf). pose proof (wf_order l Hwf).
  destruct (RestoreSnapshot_safe l index term Hwf ltac:(ulia)) as [Hwf' _].
  destruct (RestoreSnapshot_cases l index term Hwf)
    as [[_ ?]|[[_ [? _]]|[[_ [_ ?]]|[(Heq & ? & Ht)|[(? & _ & Ht & Heq)|(? & _ & Ht & Heq)]]]]];
    try lia; rewrite Heq in *; simpl in Hwf'.
  - split; [done|]. intros [?|?]; [done|lia].
  - split; [done|]. intros _. eexists. split; [done|]. simpl.
    split_and!; [done|done|done|done|done|]. intros i Hlt. rewrite decide_True by done.
    eapply (entry_at_drop l _ index); done || lia.
  - split; [lia|]. intros _. eexists. split; [done|]. simpl.
    split_and!; [done|done|done|lia|lia|]. intros i Hlt. rewrite decide_False by done.
    apply entry_at_out; [done|simpl; lia].
Qed.

(** ** Witnesses *)

Definition exEntry (i t : Z) : Entry := mkEntry i t EntryCommand [Byte.x61].

(** Base (2, 1), retained entries 3, 4 and 5 of terms 1, 2 and 2; 3 is committed. *)
Definition exLog : Log := mkLog 2 1 3 3 5 [exEntry 3 1; exEntry 4 2; exEntry 5 2].

Lemma exLog_new : NewLog 2 1 3 3 [exEntry 3 1; exEntry 4 2; exEntry 5 2] = Ok exLog.
Proof. reflexivity. Qed.

Lemma exLog_wf : log_wf exLog.
Proof. by apply (NewLog_wf 2 1 3 3 [exEntry 3 1; exEntry 4 2; exEntry 5 2]); [ulia|]. Qed.

(** Entry 4 agrees, entry 5 conflicts and is replaced together with the rest. *)
Lemma Append_refines_merge_witness :
  (Append 3 1 [exEntry 4 2; exEntry 5 3; exEntry 6 3] exLog).2 =
    mkLog 2 1 3 3 6 [exEntry 3 1; exEntry 4 2; exEntry 5 3; exEntry 6 3] ∧
  term_at (Append 3 1 [exEntry 4 2; exEntry 5 3; exEntry 6 3] exLog).2 6 = Some 3.
Proof.
  split; [vm_compute; reflexivity|].
  apply (proj2 (proj2 (Append_refines_merge exLog 3 1 [exEntry 4 2; exEntry 5 3; exEntry 6 3]
    exLog_wf eq_refl ltac:(intros [|[|[|k]]] e He; by simplify_eq/=)
    ltac:(repeat constructor) ltac:(vm_compute; congruence))) eq_refl (exEntry 6 3)).
  set_solver.
Defined.

Lemma Append_rejection_hint_witness :
  ∃ hint e, Append 5 3 [] exLog = (Err (hint, e), exLog) ∧
    e = ErrLogMismatch ∧ Hint_Term hint = 2 ∧ run_start exLog 5 2 (Hint_Index hint).
Proof.
  destruct (Append_rejection_hint exLog 5 3 [] exLog_wf
    ltac:(vm_compute; congruence) ltac:(vm_compute; congruence)) as (hint & e & Heq & _ & _ & Ht).
  exists hint, e. split; [exact Heq|]. apply Ht. reflexivity.
Defined.

Lemma log_operations_safe_witness :
  ∃ l', run_ops [OpAdvanceCommit 5; OpAdvanceApplied 4; OpCompact 4 2; OpAppend 5 2 [exEntry 6 3];
                 OpAppend 4 7 []; OpRestoreSnapshot 9 3] exLog = Some l' ∧
    log_wf l' ∧ log_extends exLog l'.
Proof.
  apply (log_operations_safe 2 1 3 3 [exEntry 3 1; exEntry 4 2; exEntry 5 2] exLog).
  - vm_compute. split; congruence.
  - exact exLog_new.
  - repeat constructor; vm_compute; congruence.
Defined.

Lemma RestoreSnapshot_exact_witness :
  RestoreSnapshot 3 2 exLog = (Err ErrCommittedConflict, exLog) ∧
  ∃ l', RestoreSnapshot 4 2 exLog = (Ok tt, l') ∧ entry_at l' 5 = Some (exEntry 5 2).
Proof.
  split.
  - apply (proj1 (RestoreSnapshot_exact exLog 3 2 exLog_wf ltac:(vm_compute; split; congruence)
      ltac:(lia))); vm_compute; congruence.
  - destruct (proj2 (RestoreSnapshot_exact exLog 4 2 exLog_wf ltac:(vm_compute; split; congruence)
      ltac:(lia)) (or_introl eq_refl)) as (l' & Heq & _ & _ & _ & _ & _ & Hk).
    exists l'. split; [exact Heq|]. rewrite Hk by lia. reflexivity.
Defined.

End RaftLog.
