(* ===== verification/RaftVoters.v ===== *)
(** * The fixed voter set

    [internal/raft/voters.go].  [NewVoterSet] validates and canonicalizes a
    three- or five-member configuration; [Majority] is the quorum size.

    Parameters of the model: [parseEndpoint] is [config.ParseRoutableEndpoint]
    (host and address parsing of the Go network libraries), [endpointString] is
    [Endpoint.String], and [sha256] is the hash of the Go crypto library.  The
    results hold for every such functions.

    The main results: a constructed set is strictly ordered by identity and
    independent of the configuration order, and any two majorities share a
    voter. *)

From S2P Require Import Prelude RaftTypes.
From stdpp Require Import sorting strings.

#[local] Open Scope Z_scope.

Module RaftVoters.

(** ** Data *)

Record Endpoint := mkEndpoint { Host : string; Port : Z }.

#[global] Instance Endpoint_eq_decision : EqDecision Endpoint.
Proof. solve_decision. Defined.

(** [config.RaftVoter]. *)
Record RaftVoter := mkRaftVoter { RV_NodeID : Z; RV_Endpoint : string }.

Record Voter := mkVoter { Voter_ID : Z; Voter_Endpoint : Endpoint }.

Record VoterSet := mkVoterSet {
  VS_voters : list Voter;
  VS_byID : gmap Z Voter;
  VS_fingerprint : VoterFingerprint
}.

(** ** Operations *)

Definition Voters (s : VoterSet) : list Voter := VS_voters s.

Definition Voter_lookup (s : VoterSet) (id : Z) : option Voter := VS_byID s !! id.

Definition Contains (s : VoterSet) (id : Z) : bool := bool_decide (is_Some (VS_byID s !! id)).

Definition Majority (s : VoterSet) : Z := len (VS_voters s) / 2 + 1.

Definition Fingerprint (s : VoterSet) : VoterFingerprint := VS_fingerprint s.

Definition ValidateLocalID (s : VoterSet) (id : Z) : outcome error unit :=
  if (id =? 0) || negb (Contains s id) then Err ErrNotVoter else Ok tt.

(** [sort.Slice] by identity; identities are distinct where it is called. *)
Fixpoint insertVoter (v : Voter) (l : list Voter) : list Voter :=
  match l with
  | [] => [v]
  | w :: rest => if Voter_ID v <? Voter_ID w then v :: l else w :: insertVoter v rest
  end.

Definition sortVoters (l : list Voter) : list Voter := foldr insertVoter [] l.

Section construction.
Context (parseEndpoint : string → option Endpoint).
Context (endpointString : Endpoint → list byte) (sha256 : list byte → list byte).

(** The domain string [raft/voter-set/v1] with its trailing zero byte. *)
Definition voterFingerprintDomain : list byte :=
  [Byte.x72; Byte.x61; Byte.x66; Byte.x74; Byte.x2f; Byte.x76; Byte.x6f; Byte.x74; Byte.x65;
   Byte.x72; Byte.x2d; Byte.x73; Byte.x65; Byte.x74; Byte.x2f; Byte.x76; Byte.x31; Byte.x00].

Definition fingerprintVoters (voters : list Voter) : VoterFingerprint :=
  sha256 (voterFingerprintDomain ++ be_bytes 2 (len voters) ++
    concat (map (λ v, be_bytes 2 (Voter_ID v) ++
      be_bytes 2 (len (endpointString (Voter_Endpoint v))) ++
      endpointString (Voter_Endpoint v)) voters)).

(** The validation loop; [voters] and [byID] are the accumulated results and the
    endpoints seen are those of [voters]. *)
Fixpoint newVoterSetLoop (configured : list RaftVoter) (voters : list Voter) (byID : gmap Z Voter) :
    outcome error (list Voter * gmap Z Voter) :=
  match configured with
  | [] => Ok (voters, byID)
  | c :: rest =>
    if RV_NodeID c =? 0 then Err ErrInvalidVoterSet
    else if bool_decide (is_Some (byID !! RV_NodeID c)) then Err ErrInvalidVoterSet
    else match parseEndpoint (RV_Endpoint c) with
    | None => Err ErrInvalidVoterSet
    | Some endpoint =>
      if bool_decide (endpoint ∈ map Voter_Endpoint voters) then Err ErrInvalidVoterSet
      else
        let voter := mkVoter (RV_NodeID c) endpoint in
        newVoterSetLoop rest (voters ++ [voter]) (<[RV_NodeID c := voter]> byID)
    end
  end.

Definition NewVoterSet (configured : list RaftVoter) : outcome error VoterSet :=
  if negb (len configured =? 3) && negb (len configured =? 5) then Err ErrInvalidVoterSet
  else
    let? (voters, byID) := newVoterSetLoop configured [] ∅ in
    let sorted := sortVoters voters in
    Ok (mkVoterSet sorted byID (fingerprintVoters sorted)).

End construction.

Definition StorageFormatVersion1 : Z := 1.

Definition NewStorageIdentity (version : Z) (clusterID : list byte) (localID : Z) (voters : VoterSet) :
    outcome error StorageIdentity :=
  if version =? 0 then Err ErrInvalidStorageIdentity
  else if bool_decide (clusterID = zero_bytes 16) then Err ErrInvalidStorageIdentity
  else match ValidateLocalID voters localID with
  | Ok _ => Ok (mkStorageIdentity version clusterID localID (Fingerprint voters))
  | Panic => Panic
  | Blocked => Blocked
  | Err _ => Err ErrInvalidStorageIdentity
  end.

(** ** Specification vocabulary *)

(** The identities of a voter set. *)
Definition ids (s : VoterSet) : gset Z := list_to_set (map Voter_ID (VS_voters s)).

Record voters_wf (s : VoterSet) : Prop := {
  vwf_count : length (VS_voters s) = 3%nat ∨ length (VS_voters s) = 5%nat;
  vwf_sorted : StronglySorted (λ v w, Voter_ID v < Voter_ID w) (VS_voters s);
  vwf_nonzero : Forall (λ v, Voter_ID v ≠ 0) (VS_voters s);
  vwf_byID : ∀ id v, VS_byID s !! id = Some v ↔ v ∈ VS_voters s ∧ Voter_ID v = id
}.

(** ** Sorting *)

Lemma insertVoter_perm (v : Voter) (l : list Voter) : insertVoter v l ≡ₚ v :: l.
Proof.
  induction l as [|w l IH]; simpl; [done|]. case_goal; [done|]. rewrite IH. constructor.
Qed.

Lemma sortVoters_perm (l : list Voter) : sortVoters l ≡ₚ l.
Proof. induction l as [|v l IH]; simpl; [done|]. by rewrite insertVoter_perm, IH. Qed.

Lemma insertVoter_sorted (v : Voter) (l : list Voter) :
  Forall (λ w, Voter_ID w ≠ Voter_ID v) l →
  StronglySorted (λ v w, Voter_ID v < Voter_ID w) l →
  StronglySorted (λ v w, Voter_ID v < Voter_ID w) (insertVoter v l).
Proof.
  intros Hne Hs. induction Hs as [|w l Hs IH Hw]; simpl; [by repeat constructor|].
  apply Forall_cons in Hne as [Hvw Hne].
  destruct (Z.ltb_spec (Voter_ID v) (Voter_ID w)).
  - constructor; [by constructor|]. constructor; [done|].
    eapply Forall_impl; [exact Hw|]. simpl. lia.
  - constructor; [by apply IH|]. rewrite insertVoter_perm. constructor; [lia|done].
Qed.

Lemma sortVoters_sorted (l : list Voter) :
  NoDup (map Voter_ID l) →
  StronglySorted (λ v w, Voter_ID v < Voter_ID w) (sortVoters l).
Proof.
  induction l as [|v l IH]; simpl; [constructor|].
  intros [Hv Hnd]%NoDup_cons. apply insertVoter_sorted; [|by apply IH].
  rewrite sortVoters_perm. apply Forall_forall. intros w Hw Heq. apply Hv.
  rewrite <- Heq. by apply list_elem_of_fmap_2.
Qed.

Lemma sorted_NoDup (l : list Voter) :
  StronglySorted (λ v w, Voter_ID v < Voter_ID w) l → NoDup (map Voter_ID l).
Proof.
  induction 1 as [|v l Hs IH Hv]; simpl; constructor; [|done].
  intros (w & Heq & Hw)%list_elem_of_fmap. rewrite Forall_forall in Hv.
  specialize (Hv w Hw). simpl in Hv. lia.
Qed.

(** A strictly sorted list is determined by its elements. *)
Lemma sorted_unique (l k : list Voter) :
  StronglySorted (λ v w, Voter_ID v < Voter_ID w) l →
  StronglySorted (λ v w, Voter_ID v < Voter_ID w) k → l ≡ₚ k → l = k.
Proof.
  intros Hl Hk Hp. eapply (StronglySorted_unique_strong (λ v w, Voter_ID v < Voter_ID w)); [|done..].
  intros v w _ _ ? ?. lia.
Qed.

(** ** The validation loop *)

(** A configured voter [c] and the canonical voter [v] it denotes. *)
Definition parsed (parseEndpoint : string → option Endpoint) (c : RaftVoter) (v : Voter) : Prop :=
  Voter_ID v = RV_NodeID c ∧ parseEndpoint (RV_Endpoint c) = Some (Voter_Endpoint v).

(** What the loop has established of the voters accepted so far. *)
Record accepted (voters : list Voter) (byID : gmap Z Voter) : Prop := {
  acc_ids : NoDup (map Voter_ID voters);
  acc_endpoints : NoDup (map Voter_Endpoint voters);
  acc_nonzero : Forall (λ v, Voter_ID v ≠ 0) voters;
  acc_byID : ∀ id v, byID !! id = Some v ↔ v ∈ voters ∧ Voter_ID v = id
}.

Lemma accepted_nil : accepted [] ∅.
Proof. split; simpl; [constructor..|]. intros id v. rewrite lookup_empty. set_solver. Qed.

Lemma accepted_fresh (voters : list Voter) (byID : gmap Z Voter) (id : Z) :
  accepted voters byID → ((¬ is_Some (byID !! id)) ↔ id ∉ map Voter_ID voters).
Proof.
  intros [_ _ _ Hby]. split.
  - intros Hn (v & -> & Hv)%list_elem_of_fmap. apply Hn. exists v. by apply Hby.
  - intros Hn [v [Hv <-]%Hby]. apply Hn. by apply list_elem_of_fmap_2.
Qed.

Lemma accepted_snoc (voters : list Voter) (byID : gmap Z Voter) (v : Voter) :
  accepted voters byID →
  Voter_ID v ≠ 0 → Voter_ID v ∉ map Voter_ID voters → Voter_Endpoint v ∉ map Voter_Endpoint voters →
  accepted (voters ++ [v]) (<[Voter_ID v := v]> byID).
Proof.
  intros Hacc Hz Hid Hep. pose proof Hacc as [Hids Heps Hnz Hby].
  split; rewrite ?map_app; simpl.
  - apply NoDup_app. split_and!; [done| |apply NoDup_singleton]. set_solver.
  - apply NoDup_app. split_and!; [done| |apply NoDup_singleton]. set_solver.
  - apply Forall_app. split; [done|]. by constructor.
  - intros id w. rewrite lookup_insert_Some, elem_of_app, list_elem_of_singleton, Hby.
    split; [set_solver|]. intros [[Hw| ->] <-]; [|by left].
    right. split; [|done]. intros Heq. apply Hid. rewrite Heq. by apply list_elem_of_fmap_2.
Qed.

Lemma accepted_app_inv (voters more : list Voter) (byID : gmap Z Voter) (v : Voter) :
  accepted (voters ++ v :: more) byID →
  Voter_ID v ≠ 0 ∧ (Voter_ID v ∉ map Voter_ID voters) ∧
  (Voter_Endpoint v ∉ map Voter_Endpoint voters).
Proof.
  intros [Hids Heps Hnz _]. rewrite map_app in Hids, Heps.
  apply NoDup_app in Hids as (_ & Hids & _). apply NoDup_app in Heps as (_ & Heps & _).
  apply Forall_app in Hnz as [_ [Hz _]%Forall_cons]. simpl in *. set_solver.
Qed.

(** The map of an accepted list is determined by the list. *)
Lemma accepted_byID_unique (voters : list Voter) (m1 m2 : gmap Z Voter) :
  accepted voters m1 → accepted voters m2 → m1 = m2.
Proof.
  intros [_ _ _ H1] [_ _ _ H2]. apply map_eq. intros id. apply option_eq. intros v.
  by rewrite H1, H2.
Qed.

Lemma accepted_Permutation (voters voters' : list Voter) (byID : gmap Z Voter) :
  voters ≡ₚ voters' → accepted voters byID → accepted voters' byID.
Proof.
  intros Hp [Hids Heps Hnz Hby]. split.
  - by rewrite <- Hp.
  - by rewrite <- Hp.
  - by rewrite <- Hp.
  - intros id v. by rewrite <- Hp.
Qed.

Section acceptance.
Context (parseEndpoint : string → option Endpoint).
Context (endpointString : Endpoint → list byte) (sha256 : list byte → list byte).

(** The loop accepts exactly the configurations that parse to distinct nonzero
    voters, and then collects them in order. *)
Lemma newVoterSetLoop_spec (configured : list RaftVoter) (acc : list Voter) (m : gmap Z Voter)
    (voters : list Voter) (byID : gmap Z Voter) :
  accepted acc m →
  newVoterSetLoop parseEndpoint configured acc m = Ok (voters, byID) ↔
  ∃ more, Forall2 (parsed parseEndpoint) configured more ∧ voters = acc ++ more ∧ accepted voters byID.
Proof.
  revert acc m. induction configured as [|c rest IH]; intros acc m Hacc; simpl.
  - split.
    + intros [= <- <-]. exists []. rewrite app_nil_r. split_and!; [constructor|done..].
    + intros (more & Hf & -> & Hb). inversion Hf; subst. rewrite app_nil_r in *.
      do 2 f_equal. by eapply accepted_byID_unique.
  - destruct (parseEndpoint (RV_Endpoint c)) as [ep|] eqn:Hep.
    2:{ split; [by repeat case_goal|]. intros (more & Hf & _).
        inversion Hf as [|? ? ? ? [_ Hp]]; subst. congruence. }
    set (v := mkVoter (RV_NodeID c) ep). split.
    + destruct (Z.eqb_spec (RV_NodeID c) 0) as [|Hz]; [done|].
      case_bool_decide as Hid; [done|]. case_bool_decide as He; [done|].
      apply (accepted_fresh _ _ _ Hacc) in Hid.
      intros (more & Hf & -> & Hb)%(IH _ _ (accepted_snoc acc m v Hacc Hz Hid He)).
      exists (v :: more).
      split_and!; [by constructor| |done]. by rewrite <- app_assoc.
    + intros (more & Hf & -> & Hb). inversion Hf as [|? w ? more' [Hw1 Hw2] Hf']; subst.
      assert (w = v) as -> by (destruct w; subst v; simpl in *; congruence).
      destruct (accepted_app_inv _ _ _ _ Hb) as (Hz & Hid & He).
      rewrite (bool_decide_false (ep ∈ _)) by done.
      rewrite (bool_decide_false (is_Some _)) by (by apply (accepted_fresh _ _ _ Hacc)).
      destruct (Z.eqb_spec (RV_NodeID c) 0) as [|_]; [done|].
      apply (IH _ _ (accepted_snoc acc m v Hacc Hz Hid He)).
      exists more'. split_and!; [done| |done]. by rewrite <- app_assoc.
Qed.

Lemma NewVoterSet_spec (configured : list RaftVoter) (s : VoterSet) :
  NewVoterSet parseEndpoint endpointString sha256 configured = Ok s ↔
  (length configured = 3%nat ∨ length configured = 5%nat) ∧
  ∃ voters byID, Forall2 (parsed parseEndpoint) configured voters ∧ accepted voters byID ∧
    s = mkVoterSet (sortVoters voters) byID
          (fingerprintVoters endpointString sha256 (sortVoters voters)).
Proof.
  unfold NewVoterSet, len.
  destruct (Z.eqb_spec (Z.of_nat (length configured)) 3) as [H3|H3];
    destruct (Z.eqb_spec (Z.of_nat (length configured)) 5) as [H5|H5]; simpl;
    try (split; [done|]; intros [[?|?] _]; lia).
  all: destruct (newVoterSetLoop parseEndpoint configured [] ∅) as [[vs m]| | |] eqn:Hl; simpl.
  all: try (split; [done|]; intros (_ & vs' & m' & Hf & Ha & _);
    assert (newVoterSetLoop parseEndpoint configured [] ∅ = Ok (vs', m')) as Hl'
      by (apply newVoterSetLoop_spec; [apply accepted_nil|]; by exists vs');
    congruence).
  all: pose proof Hl as Hl0; apply newVoterSetLoop_spec in Hl as (more & Hf & -> & Ha);
    [|apply accepted_nil]; simpl in *; split.
  all: try (intros [= <-]; split; [lia|]; by exists more, m).
  all: intros (_ & vs' & m' & Hf' & Ha' & ->);
    assert (newVoterSetLoop parseEndpoint configured [] ∅ = Ok (vs', m')) as Hl'
      by (apply newVoterSetLoop_spec; [apply accepted_nil|]; by exists vs');
    congruence.
Qed.

Lemma NewVoterSet_wf (configured : list RaftVoter) (s : VoterSet) :
  NewVoterSet parseEndpoint endpointString sha256 configured = Ok s → voters_wf s.
Proof.
  intros (Hlen & vs & m & Hf & Ha & ->)%NewVoterSet_spec.
  pose proof (accepted_Permutation _ (sortVoters vs) _ (symmetry (sortVoters_perm vs)) Ha) as [? _ ? ?].
  split; simpl; [|by apply sortVoters_sorted, Ha|done..].
  rewrite sortVoters_perm, <- (Forall2_length _ _ _ Hf). done.
Qed.

End acceptance.

(** ** Quorums *)

Lemma size_ids (s : VoterSet) :
  voters_wf s → Z.of_nat (size (ids s)) = len (VS_voters s).
Proof.
  intros [_ Hs _ _]. unfold ids, len. rewrite size_list_to_set by (by apply sorted_NoDup).
  by rewrite length_map.
Qed.

Lemma Contains_spec (s : VoterSet) (id : Z) :
  voters_wf s → (Contains s id = true ↔ id ∈ ids s).
Proof.
  intros [_ _ _ Hby]. unfold Contains, ids. rewrite bool_decide_eq_true, elem_of_list_to_set.
  split.
  - intros [v [Hv <-]%Hby]. by apply list_elem_of_fmap_2.
  - intros (v & -> & Hv)%list_elem_of_fmap. exists v. by apply Hby.
Qed.

Lemma ids_nonzero (s : VoterSet) (id : Z) : voters_wf s → id ∈ ids s → id ≠ 0.
Proof.
  intros [_ _ Hnz _] (v & -> & Hv)%elem_of_list_to_set%list_elem_of_fmap.
  rewrite Forall_forall in Hnz. by apply Hnz.
Qed.

Lemma Majority_pos (s : VoterSet) : 1 ≤ Majority s.
Proof. unfold Majority. pose proof (len_nonneg (VS_voters s)). Z.to_euclidean_division_equations. lia. Qed.

(** Two sets of voters of majority size have a common member. *)
Lemma quorum_intersection (s : VoterSet) (Q1 Q2 : gset Z) :
  voters_wf s → Q1 ⊆ ids s → Q2 ⊆ ids s →
  Majority s ≤ Z.of_nat (size Q1) → Majority s ≤ Z.of_nat (size Q2) →
  ∃ v, v ∈ Q1 ∧ v ∈ Q2.
Proof.
  intros Hwf H1 H2 Hs1 Hs2. destruct (set_choose_or_empty (Q1 ∩ Q2)) as [[v Hv]|He]; [set_solver|].
  exfalso. assert (size (Q1 ∪ Q2) = (size Q1 + size Q2)%nat) by (apply size_union; set_solver).
  assert (size (Q1 ∪ Q2) ≤ size (ids s))%nat by (apply subseteq_size; set_solver).
  pose proof (size_ids s Hwf). unfold Majority in *. Z.to_euclidean_division_equations. lia.
Qed.

(** ** Main results *)

(** C33: [NewVoterSet] is canonical: a configuration it accepts yields a set with
    three or five voters of nonzero identities in strictly ascending order whose
    index agrees with the list, it holds exactly the configured identities, and
    every reordering of the configuration yields the same set and fingerprint. *)
Theorem NewVoterSet_canonical (parseEndpoint : string → option Endpoint)
    (endpointString : Endpoint → list byte) (sha256 : list byte → list byte)
    (configured reordered : list RaftVoter) (s : VoterSet) :
  NewVoterSet parseEndpoint endpointString sha256 configured = Ok s →
  reordered ≡ₚ configured →
  voters_wf s ∧ (∀ id, Contains s id = true ↔ id ∈ map RV_NodeID configured) ∧
  NewVoterSet parseEndpoint endpointString sha256 reordered = Ok s.
Proof.
  intros Hs Hp. pose proof (NewVoterSet_wf _ _ _ _ _ Hs) as Hwf.
  apply NewVoterSet_spec in Hs as (Hlen & vs & m & Hf & Ha & ->). split; [done|]. split.
  - intros id. rewrite Contains_spec by done. unfold ids. simpl.
    rewrite elem_of_list_to_set, sortVoters_perm.
    enough (map Voter_ID vs = map RV_NodeID configured) as -> by done.
    clear -Hf. induction Hf as [|c v ? ? [Hc _]]; simpl; congruence.
  - destruct (Permutation_Forall2 (symmetry Hp) Hf) as (vs' & Hp' & Hf').
    apply NewVoterSet_spec. split; [by rewrite Hp|].
    exists vs', m. split; [done|]. split; [by apply (accepted_Permutation vs)|].
    assert (sortVoters vs = sortVoters vs') as ->; [|done].
    apply sorted_unique; [apply sortVoters_sorted; apply Ha| |by rewrite !sortVoters_perm].
    apply sortVoters_sorted. rewrite <- Hp'. apply Ha.
Qed.

(** C32: Any two majorities of a constructed voter set share a voter, and the voters
    outside a non-majority always form a majority. *)
Theorem Majority_quorums (parseEndpoint : string → option Endpoint)
    (endpointString : Endpoint → list byte) (sha256 : list byte → list byte)
    (configured : list RaftVoter) (s : VoterSet) :
  NewVoterSet parseEndpoint endpointString sha256 configured = Ok s →
  (∀ Q1 Q2 : gset Z, Q1 ⊆ ids s → Q2 ⊆ ids s →
    Majority s ≤ Z.of_nat (size Q1) → Majority s ≤ Z.of_nat (size Q2) → ∃ v, v ∈ Q1 ∧ v ∈ Q2) ∧
  (∀ F : gset Z, F ⊆ ids s →
    Z.of_nat (size F) < Majority s → Majority s ≤ Z.of_nat (size (ids s ∖ F))).
Proof.
  intros Hwf%NewVoterSet_wf. split.
  - intros Q1 Q2. by apply quorum_intersection.
  - intros F HF. rewrite size_difference by done. pose proof (size_ids s Hwf) as Hsz.
    pose proof (subseteq_size _ _ HF). unfold Majority, len in *.
    destruct (vwf_count s Hwf) as [Hc|Hc]; rewrite Hc in *;
      change (Z.of_nat 3 / 2) with 1; change (Z.of_nat 5 / 2) with 2; lia.
Qed.

(** ** Witnesses *)

(** A parser that accepts every endpoint at a port of its own length. *)
Definition exParse (e : string) : option Endpoint :=
  Some (mkEndpoint e (Z.of_nat (String.length e))).

Definition exConfig : list RaftVoter :=
  [mkRaftVoter 2 "b:1"; mkRaftVoter 3 "c:1"; mkRaftVoter 1 "a:1"].

Definition exVoterSet : VoterSet :=
  mkVoterSet
    [mkVoter 1 (mkEndpoint "a:1" 3); mkVoter 2 (mkEndpoint "b:1" 3); mkVoter 3 (mkEndpoint "c:1" 3)]
    {[ 1 := mkVoter 1 (mkEndpoint "a:1" 3); 2 := mkVoter 2 (mkEndpoint "b:1" 3);
       3 := mkVoter 3 (mkEndpoint "c:1" 3) ]} (zero_bytes 32).

Lemma exVoterSet_wf : voters_wf exVoterSet.
Proof.
  apply (NewVoterSet_wf exParse (λ _, []) (λ _, zero_bytes 32) exConfig).
  vm_compute. reflexivity.
Qed.

Lemma NewVoterSet_canonical_witness :
  NewVoterSet exParse (λ _, []) (λ _, zero_bytes 32) exConfig = Ok exVoterSet ∧
  NewVoterSet exParse (λ _, []) (λ _, zero_bytes 32) (rev exConfig) = Ok exVoterSet.
Proof.
  assert (NewVoterSet exParse (λ _, []) (λ _, zero_bytes 32) exConfig = Ok exVoterSet) as H
    by (vm_compute; reflexivity).
  split; [exact H|].
  apply (NewVoterSet_canonical exParse (λ _, []) (λ _, zero_bytes 32) exConfig (rev exConfig)
    exVoterSet H). apply (symmetry (Permutation_rev exConfig)).
Defined.

Lemma Majority_quorums_witness :
  NewVoterSet exParse (λ _, []) (λ _, zero_bytes 32) exConfig = Ok exVoterSet ∧
  ∃ v, v ∈ ({[1; 2]} : gset Z) ∧ v ∈ ({[2; 3]} : gset Z).
Proof.
  assert (NewVoterSet exParse (λ _, []) (λ _, zero_bytes 32) exConfig = Ok exVoterSet) as H
    by (vm_compute; reflexivity).
  split; [exact H|].
  apply (proj1 (Majority_quorums exParse (λ _, []) (λ _, zero_bytes 32) exConfig exVoterSet H));
    first [by apply (bool_decide_unpack _); vm_compute | by vm_compute].
Defined.

End RaftVoters.
