(* ===== verification/RaftCodec.v ===== *)
(** * The canonical Raft payload codec

    [internal/raft/codec.go] and the sender check of [internal/raft/messages.go].
    The encoder and the decoder are state machines over a bounded output buffer
    and over a payload with an offset; every field is written and read in the
    order of the source.

    The main results: the codec is a bijection between valid messages and
    accepted payloads ([EncodeRPC] and [DecodeRPC] are inverse in both
    directions), encoding fails only for a message that is invalid or too large,
    and no input makes either function panic. *)

From S2P Require Import Prelude RaftTypes RaftVoters.

Module RaftCodec.
Import RaftVoters.

(** ** Limits *)

Definition MaxRPCPayloadBytes : Z := Z.shiftl 8 20 - 55 - 32.
Definition minimumEntryBytes : Z := 8 + 8 + 1 + 4.

(** Constants of [internal/config/raft.go]. *)
Definition MaxRaftCommandBytes : Z := Z.shiftl 1 20.
Definition MaxRaftSnapshotChunkBytes : Z := Z.shiftl 256 10.
Definition MaxRaftSnapshotBytes : Z := Z.shiftl 1 30.
Definition DefaultMaxAppendEntries : Z := 64.

Definition RPCSchemaVersion : Z := 1.
Definition HandshakeSchemaVersion : Z := 2.

Record CodecLimits := mkCodecLimits {
  MaxAppendEntries : Z;
  MaxCommandBytes : Z;
  MaxSnapshotChunkBytes : Z;
  MaxSnapshotBytes : Z;
  MaxEncodedBytes : Z
}.

#[global] Instance CodecLimits_settable : Settable CodecLimits :=
  λ r, mkCodecLimits (MaxAppendEntries r) (MaxCommandBytes r) (MaxSnapshotChunkBytes r)
    (MaxSnapshotBytes r) (MaxEncodedBytes r).

Definition CodecLimits_zero : CodecLimits := mkCodecLimits 0 0 0 0 0.

Definition DefaultCodecLimits : CodecLimits :=
  {| MaxAppendEntries := DefaultMaxAppendEntries;
     MaxCommandBytes := MaxRaftCommandBytes;
     MaxSnapshotChunkBytes := MaxRaftSnapshotChunkBytes;
     MaxSnapshotBytes := MaxRaftSnapshotBytes;
     MaxEncodedBytes := MaxRPCPayloadBytes |}.

(** [if limit == 0 { limit = default }]. *)
Definition limitOr (limit default : Z) : Z := if limit =? 0 then default else limit.

Definition resolveCodecLimits (limits : CodecLimits) : outcome error CodecLimits :=
  let defaults := DefaultCodecLimits in
  let limits :=
    {| MaxAppendEntries := limitOr (MaxAppendEntries limits) (MaxAppendEntries defaults);
       MaxCommandBytes := limitOr (MaxCommandBytes limits) (MaxCommandBytes defaults);
       MaxSnapshotChunkBytes :=
         limitOr (MaxSnapshotChunkBytes limits) (MaxSnapshotChunkBytes defaults);
       MaxSnapshotBytes := limitOr (MaxSnapshotBytes limits) (MaxSnapshotBytes defaults);
       MaxEncodedBytes := limitOr (MaxEncodedBytes limits) (MaxEncodedBytes defaults) |} in
  if MaxCommandBytes defaults <? MaxCommandBytes limits then Err ErrRPCTooLarge
  else if MaxSnapshotChunkBytes defaults <? MaxSnapshotChunkBytes limits then Err ErrRPCTooLarge
  else if MaxSnapshotBytes defaults <? MaxSnapshotBytes limits then Err ErrRPCTooLarge
  else if MaxEncodedBytes defaults <? MaxEncodedBytes limits then Err ErrRPCTooLarge
  else if (max_uint32 <? MaxCommandBytes limits) || (max_uint32 <? MaxSnapshotChunkBytes limits)
  then Err ErrRPCTooLarge
  else if max_int <? MaxEncodedBytes limits then Err ErrRPCTooLarge
  else Ok limits.

(** ** Validation *)

Definition validDistinctIDs (left right : Z) : bool :=
  negb (left =? 0) && negb (right =? 0) && negb (left =? right).

Definition validLogPosition (index term : Z) : bool := Bool.eqb (index =? 0) (term =? 0).

Definition isNextTerm (current prospective : Z) : bool :=
  negb (current =? max_uint64) && (prospective =? current + 1).

(** [a == [n]byte{}]. *)
Definition isZeroArray (n : nat) (a : list byte) : bool := bool_decide (a = zero_bytes n).

Fixpoint validateAppendEntriesLoop (limits : CodecLimits) (term expected previousTerm : Z)
    (entries : list Entry) : outcome error unit :=
  match entries with
  | [] => Ok tt
  | entry :: rest =>
    if expected =? max_uint64 then Err ErrInvalidRPC
    else
      let expected := expected + 1 in
      if negb (Entry_Index entry =? expected) || (Entry_Term entry =? 0) ||
         (Entry_Term entry <? previousTerm) || (term <? Entry_Term entry) ||
         (negb (Entry_Kind entry =? EntryCommand) && negb (Entry_Kind entry =? EntryNoOp))
      then Err ErrInvalidRPC
      else
        let commandLength := len (Entry_command entry) in
        if MaxCommandBytes limits <? commandLength then Err ErrRPCTooLarge
        else if (Entry_Kind entry =? EntryNoOp) && negb (commandLength =? 0) then Err ErrInvalidRPC
        else validateAppendEntriesLoop limits term expected (Entry_Term entry) rest
  end.

Definition validateAppendRequest (message : AppendEntriesRequest) (limits : CodecLimits) :
    outcome error unit :=
  if (AEReq_LeaderID message =? 0) || (AEReq_Term message =? 0) ||
     (AEReq_Generation message =? 0) ||
     negb (validLogPosition (AEReq_PrevLogIndex message) (AEReq_PrevLogTerm message)) ||
     (AEReq_Term message <? AEReq_PrevLogTerm message)
  then Err ErrInvalidRPC
  else if MaxAppendEntries limits <? len (AEReq_Entries message) then Err ErrRPCTooLarge
  else validateAppendEntriesLoop limits (AEReq_Term message) (AEReq_PrevLogIndex message)
    (AEReq_PrevLogTerm message) (AEReq_Entries message).

Definition validateAppendResponse (message : AppendEntriesResponse) : outcome error unit :=
  if negb (validDistinctIDs (AEResp_ResponderID message) (AEResp_LeaderID message)) ||
     (AEResp_RequestTerm message =? 0) || (AEResp_Term message <? AEResp_RequestTerm message) ||
     (AEResp_Generation message =? 0)
  then Err ErrInvalidRPC
  else if AEResp_Success message then
    if AEResp_RequestTerm message <? AEResp_Term message then Err ErrInvalidRPC
    else if negb (AEResp_ConflictTerm message =? 0) || negb (AEResp_ConflictIndex message =? 0)
    then Err ErrInvalidRPC
    else Ok tt
  else if negb (AEResp_MatchIndex message =? 0) || (AEResp_ConflictIndex message =? 0)
  then Err ErrInvalidRPC
  else Ok tt.

Definition validateSnapshotRequest (message : InstallSnapshotRequest) (limits : CodecLimits) :
    outcome error unit :=
  if (ISReq_LeaderID message =? 0) || (ISReq_Term message =? 0) ||
     TransferID_IsZero (ISReq_TransferID message) || isZeroArray 16 (ISReq_SnapshotID message) ||
     isZeroArray 32 (ISReq_Checksum message)
  then Err ErrInvalidRPC
  else if (ISReq_LastIncludedIndex message =? 0) || (ISReq_LastIncludedTerm message =? 0) ||
     (ISReq_Term message <? ISReq_LastIncludedTerm message) ||
     (ISReq_StateMachineSchemaVersion message =? 0)
  then Err ErrInvalidRPC
  else if MaxSnapshotBytes limits <? ISReq_TotalLength message then Err ErrRPCTooLarge
  else
    let chunkLength := len (ISReq_Chunk message) in
    if MaxSnapshotChunkBytes limits <? chunkLength then Err ErrRPCTooLarge
    else if (ISReq_TotalLength message <? ISReq_Offset message) ||
       (wrap64 (ISReq_TotalLength message - ISReq_Offset message) <? chunkLength)
    then Err ErrInvalidRPC
    else
      let end_ := wrap64 (ISReq_Offset message + chunkLength) in
      if negb (Bool.eqb (ISReq_Done message) (end_ =? ISReq_TotalLength message))
      then Err ErrInvalidRPC
      else if negb (ISReq_TotalLength message =? 0) && (chunkLength =? 0) then Err ErrInvalidRPC
      else Ok tt.

Definition validateSnapshotResponse (message : InstallSnapshotResponse) (limits : CodecLimits) :
    outcome error unit :=
  if negb (validDistinctIDs (ISResp_ResponderID message) (ISResp_LeaderID message)) ||
     (ISResp_RequestTerm message =? 0) || (ISResp_Term message <? ISResp_RequestTerm message) ||
     TransferID_IsZero (ISResp_TransferID message) || isZeroArray 16 (ISResp_SnapshotID message)
  then Err ErrInvalidRPC
  else if MaxSnapshotBytes limits <? ISResp_NextOffset message then Err ErrRPCTooLarge
  else if ISResp_Done message && negb (ISResp_Success message) then Err ErrInvalidRPC
  else Ok tt.

Definition validateRPC (rpc : RPC) (limits : CodecLimits) : outcome error unit :=
  match rpc with
  | RPC_Handshake m =>
    if (HS_SenderID m =? 0) || isZeroArray 32 (HS_VoterFingerprint m) ||
       isZeroArray 32 (HS_ApplicationFingerprint m)
    then Err ErrInvalidRPC else Ok tt
  | RPC_HandshakeAck m =>
    if (HSAck_ResponderID m =? 0) || isZeroArray 32 (HSAck_VoterFingerprint m) ||
       isZeroArray 32 (HSAck_ApplicationFingerprint m)
    then Err ErrInvalidRPC else Ok tt
  | RPC_PreVoteRequest m =>
    if (PVReq_CandidateID m =? 0) ||
       negb (isNextTerm (PVReq_CurrentTerm m) (PVReq_ProspectiveTerm m)) ||
       negb (validLogPosition (PVReq_LastLogIndex m) (PVReq_LastLogTerm m)) ||
       (PVReq_CurrentTerm m <? PVReq_LastLogTerm m)
    then Err ErrInvalidRPC else Ok tt
  | RPC_PreVoteResponse m =>
    if negb (validDistinctIDs (PVResp_ResponderID m) (PVResp_CandidateID m)) ||
       negb (isNextTerm (PVResp_RequestCurrentTerm m) (PVResp_ProspectiveTerm m)) ||
       ((PVResp_ProspectiveTerm m <? PVResp_Term m) && PVResp_Granted m)
    then Err ErrInvalidRPC else Ok tt
  | RPC_RequestVoteRequest m =>
    if (RVReq_CandidateID m =? 0) || (RVReq_Term m =? 0) ||
       negb (validLogPosition (RVReq_LastLogIndex m) (RVReq_LastLogTerm m)) ||
       (RVReq_Term m <? RVReq_LastLogTerm m)
    then Err ErrInvalidRPC else Ok tt
  | RPC_RequestVoteResponse m =>
    if negb (validDistinctIDs (RVResp_ResponderID m) (RVResp_CandidateID m)) ||
       (RVResp_RequestTerm m =? 0) || (RVResp_Term m <? RVResp_RequestTerm m) ||
       ((RVResp_RequestTerm m <? RVResp_Term m) && RVResp_Granted m)
    then Err ErrInvalidRPC else Ok tt
  | RPC_AppendEntriesRequest m => validateAppendRequest m limits
  | RPC_AppendEntriesResponse m => validateAppendResponse m
  | RPC_InstallSnapshotRequest m => validateSnapshotRequest m limits
  | RPC_InstallSnapshotResponse m => validateSnapshotResponse m limits
  | RPC_ErrorResponse m =>
    if (ER_ResponderID m =? 0) || (ER_Code m <? ProtocolErrorMalformed) ||
       (ProtocolErrorOverloaded <? ER_Code m)
    then Err ErrInvalidRPC else Ok tt
  end.

(** The payload identity, and the identity it answers, of each message. *)
Definition rpcActor (rpc : RPC) : Z * Z :=
  match rpc with
  | RPC_Handshake m => (HS_SenderID m, 0)
  | RPC_HandshakeAck m => (HSAck_ResponderID m, 0)
  | RPC_PreVoteRequest m => (PVReq_CandidateID m, 0)
  | RPC_PreVoteResponse m => (PVResp_ResponderID m, PVResp_CandidateID m)
  | RPC_RequestVoteRequest m => (RVReq_CandidateID m, 0)
  | RPC_RequestVoteResponse m => (RVResp_ResponderID m, RVResp_CandidateID m)
  | RPC_AppendEntriesRequest m => (AEReq_LeaderID m, 0)
  | RPC_AppendEntriesResponse m => (AEResp_ResponderID m, AEResp_LeaderID m)
  | RPC_InstallSnapshotRequest m => (ISReq_LeaderID m, 0)
  | RPC_InstallSnapshotResponse m => (ISResp_ResponderID m, ISResp_LeaderID m)
  | RPC_ErrorResponse m => (ER_ResponderID m, 0)
  end.

Definition ValidateRPCSender (rpc : interfaceRPC) (senderID : Z) (voters : VoterSet) :
    outcome error unit :=
  if negb (Contains voters senderID) then Err ErrNotVoter
  else match normalizeRPC rpc with
  | None => Err ErrInvalidRPC
  | Some rpc =>
    let? _ :=
      match rpc with
      | RPC_Handshake m =>
        if bool_decide (HS_VoterFingerprint m = Fingerprint voters) then Ok tt
        else Err ErrVoterFingerprint
      | RPC_HandshakeAck m =>
        if bool_decide (HSAck_VoterFingerprint m = Fingerprint voters) then Ok tt
        else Err ErrVoterFingerprint
      | _ => Ok tt
      end in
    let (actorID, correlatedID) := rpcActor rpc in
    if negb (actorID =? senderID) then Err ErrInvalidRPC
    else if negb (correlatedID =? 0) && negb (Contains voters correlatedID) then Err ErrNotVoter
    else Ok tt
  end.

Definition schemaVersionForRPC (rpc : RPC) : Z :=
  match rpc with
  | RPC_Handshake _ | RPC_HandshakeAck _ => HandshakeSchemaVersion
  | _ => RPCSchemaVersion
  end.

Definition schemaVersionForMessage (messageType : MessageType) : Z :=
  if (messageType =? MessageRaftHandshake) || (messageType =? MessageRaftHandshakeAck)
  then HandshakeSchemaVersion else RPCSchemaVersion.

(** ** Encoder *)

Record payloadEncoder := mkEncoder { E_payload : list byte; E_maximum : Z }.

#[global] Instance payloadEncoder_settable : Settable payloadEncoder :=
  λ e, mkEncoder (E_payload e) (E_maximum e).

Abbreviation Enc := (M payloadEncoder error unit) (only parsing).

Definition enc_add (value : list byte) : Enc :=
  let! e := get in
  if wrap64 (E_maximum e - len (E_payload e)) <? len value then throw ErrRPCTooLarge
  else put (e <| E_payload := E_payload e ++ value |>).

Definition enc_uint8 (value : Z) : Enc := enc_add (be_bytes 1 value).
Definition enc_uint16 (value : Z) : Enc := enc_add (be_bytes 2 value).
Definition enc_uint32 (value : Z) : Enc := enc_add (be_bytes 4 value).
Definition enc_uint64 (value : Z) : Enc := enc_add (be_bytes 8 value).

Definition enc_boolean (value : bool) : Enc := if value then enc_uint8 1 else enc_uint8 0.

Definition enc_bytes32 (value : list byte) : Enc :=
  if max_uint32 <? len value then throw ErrRPCTooLarge
  else enc_uint32 (len value) ;;! enc_add value.

Fixpoint encodeUint16s (values : list Z) : Enc :=
  match values with [] => ret tt | value :: rest => enc_uint16 value ;;! encodeUint16s rest end.

Fixpoint encodeUint64s (values : list Z) : Enc :=
  match values with [] => ret tt | value :: rest => enc_uint64 value ;;! encodeUint64s rest end.

Definition encodeHandshake (m : Handshake) : Enc :=
  enc_uint16 (HS_SenderID m) ;;!
  enc_add (HS_VoterFingerprint m) ;;!
  enc_add (HS_ApplicationFingerprint m).

Definition encodeHandshakeAck (m : HandshakeAck) : Enc :=
  enc_uint16 (HSAck_ResponderID m) ;;!
  enc_add (HSAck_VoterFingerprint m) ;;!
  enc_add (HSAck_ApplicationFingerprint m).

Definition encodePreVoteRequest (m : PreVoteRequest) : Enc :=
  enc_uint16 (PVReq_CandidateID m) ;;!
  encodeUint64s [PVReq_CurrentTerm m; PVReq_ProspectiveTerm m; PVReq_LastLogIndex m;
    PVReq_LastLogTerm m].

Definition encodePreVoteResponse (m : PreVoteResponse) : Enc :=
  encodeUint16s [PVResp_ResponderID m; PVResp_CandidateID m] ;;!
  encodeUint64s [PVResp_Term m; PVResp_RequestCurrentTerm m; PVResp_ProspectiveTerm m] ;;!
  enc_boolean (PVResp_Granted m).

Definition encodeRequestVoteRequest (m : RequestVoteRequest) : Enc :=
  enc_uint16 (RVReq_CandidateID m) ;;!
  encodeUint64s [RVReq_Term m; RVReq_LastLogIndex m; RVReq_LastLogTerm m].

Definition encodeRequestVoteResponse (m : RequestVoteResponse) : Enc :=
  encodeUint16s [RVResp_ResponderID m; RVResp_CandidateID m] ;;!
  encodeUint64s [RVResp_Term m; RVResp_RequestTerm m] ;;!
  enc_boolean (RVResp_Granted m).

Fixpoint encodeEntries (entries : list Entry) : Enc :=
  match entries with
  | [] => ret tt
  | entry :: rest =>
    encodeUint64s [Entry_Index entry; Entry_Term entry] ;;!
    enc_uint8 (Entry_Kind entry) ;;!
    enc_bytes32 (Entry_command entry) ;;!
    encodeEntries rest
  end.

Definition encodeAppendEntriesRequest (m : AppendEntriesRequest) : Enc :=
  enc_uint16 (AEReq_LeaderID m) ;;!
  encodeUint64s [AEReq_Term m; AEReq_Generation m; AEReq_PrevLogIndex m; AEReq_PrevLogTerm m;
    AEReq_LeaderCommit m] ;;!
  enc_uint16 (len (AEReq_Entries m)) ;;!
  encodeEntries (AEReq_Entries m).

Definition encodeAppendEntriesResponse (m : AppendEntriesResponse) : Enc :=
  encodeUint16s [AEResp_ResponderID m; AEResp_LeaderID m] ;;!
  encodeUint64s [AEResp_Term m; AEResp_RequestTerm m; AEResp_Generation m] ;;!
  enc_boolean (AEResp_Success m) ;;!
  encodeUint64s [AEResp_MatchIndex m; AEResp_ConflictTerm m; AEResp_ConflictIndex m].

Definition encodeInstallSnapshotRequest (m : InstallSnapshotRequest) : Enc :=
  enc_uint16 (ISReq_LeaderID m) ;;!
  enc_uint64 (ISReq_Term m) ;;!
  enc_add (ISReq_TransferID m) ;;!
  enc_add (ISReq_SnapshotID m) ;;!
  encodeUint64s [ISReq_LastIncludedIndex m; ISReq_LastIncludedTerm m] ;;!
  enc_uint32 (ISReq_StateMachineSchemaVersion m) ;;!
  enc_uint64 (ISReq_TotalLength m) ;;!
  enc_add (ISReq_Checksum m) ;;!
  enc_uint64 (ISReq_Offset m) ;;!
  enc_bytes32 (ISReq_Chunk m) ;;!
  enc_boolean (ISReq_Done m).

Definition encodeInstallSnapshotResponse (m : InstallSnapshotResponse) : Enc :=
  encodeUint16s [ISResp_ResponderID m; ISResp_LeaderID m] ;;!
  encodeUint64s [ISResp_Term m; ISResp_RequestTerm m] ;;!
  enc_add (ISResp_TransferID m) ;;!
  enc_add (ISResp_SnapshotID m) ;;!
  enc_uint64 (ISResp_NextOffset m) ;;!
  enc_boolean (ISResp_Success m) ;;!
  enc_boolean (ISResp_Done m).

Definition encodeErrorResponse (m : ErrorResponse) : Enc :=
  enc_uint16 (ER_Code m) ;;!
  enc_uint16 (ER_ResponderID m) ;;!
  enc_uint64 (ER_Term m).

(** The type switch of [EncodeRPC]. *)
Definition encodeMessage (rpc : RPC) : Enc :=
  match rpc with
  | RPC_Handshake m => encodeHandshake m
  | RPC_HandshakeAck m => encodeHandshakeAck m
  | RPC_PreVoteRequest m => encodePreVoteRequest m
  | RPC_PreVoteResponse m => encodePreVoteResponse m
  | RPC_RequestVoteRequest m => encodeRequestVoteRequest m
  | RPC_RequestVoteResponse m => encodeRequestVoteResponse m
  | RPC_AppendEntriesRequest m => encodeAppendEntriesRequest m
  | RPC_AppendEntriesResponse m => encodeAppendEntriesResponse m
  | RPC_InstallSnapshotRequest m => encodeInstallSnapshotRequest m
  | RPC_InstallSnapshotResponse m => encodeInstallSnapshotResponse m
  | RPC_ErrorResponse m => encodeErrorResponse m
  end.

Definition EncodeRPC (rpc : interfaceRPC) (limits : CodecLimits) :
    outcome error (MessageType * list byte) :=
  let? resolved := resolveCodecLimits limits in
  match normalizeRPC rpc with
  | None => Err ErrInvalidRPC
  | Some rpc =>
    let? _ := validateRPC rpc resolved in
    match (enc_uint16 (schemaVersionForRPC rpc) ;;! encodeMessage rpc)
            (mkEncoder [] (MaxEncodedBytes resolved)) with
    | (Ok _, encoder) => Ok (RPC_MessageType rpc, E_payload encoder)
    | (Err e, _) => Err e
    | (Panic, _) => Panic
    | (Blocked, _) => Blocked
    end
  end.

(** ** Decoder *)

Record payloadDecoder := mkDecoder { D_payload : list byte; D_offset : Z }.

#[global] Instance payloadDecoder_settable : Settable payloadDecoder :=
  λ d, mkDecoder (D_payload d) (D_offset d).

Abbreviation Dec A := (M payloadDecoder error A) (only parsing).

Definition remaining (d : payloadDecoder) : Z := len (D_payload d) - D_offset d.

(** [d.payload[d.offset : d.offset+length]]. *)
Definition slice (payload : list byte) (offset length : Z) : list byte :=
  take (Z.to_nat length) (drop (Z.to_nat offset) payload).

Definition dec_take (length : Z) : Dec (list byte) :=
  let! d := get in
  if (length <? 0) || (remaining d <? length) then throw ErrMalformedRPC
  else
    put (d <| D_offset := D_offset d + length |>) ;;!
    ret (slice (D_payload d) (D_offset d) length).

Definition dec_uint8 : Dec Z := let! bytes := dec_take 1 in ret (be_value bytes).
Definition dec_uint16 : Dec Z := let! bytes := dec_take 2 in ret (be_value bytes).
Definition dec_uint32 : Dec Z := let! bytes := dec_take 4 in ret (be_value bytes).
Definition dec_uint64 : Dec Z := let! bytes := dec_take 8 in ret (be_value bytes).

Definition dec_boolean : Dec bool :=
  let! value := dec_uint8 in
  if 1 <? value then throw ErrMalformedRPC else ret (value =? 1).

(** [fixed] into an array of [n] bytes. *)
Definition dec_fixed (n : Z) : Dec (list byte) := dec_take n.

Definition dec_bytes32Borrowed (maximum : Z) : Dec (list byte) :=
  let! length := dec_uint32 in
  let! d := get in
  if maximum <? length then throw ErrRPCTooLarge
  else if remaining d <? length then throw ErrMalformedRPC
  else if length =? 0 then ret []
  else dec_take length.

Fixpoint decodeUint16s (count : nat) : Dec (list Z) :=
  match count with
  | O => ret []
  | S n => let! value := dec_uint16 in let! rest := decodeUint16s n in ret (value :: rest)
  end.

Fixpoint decodeUint64s (count : nat) : Dec (list Z) :=
  match count with
  | O => ret []
  | S n => let! value := dec_uint64 in let! rest := decodeUint64s n in ret (value :: rest)
  end.

(** Indexing the decoded field lists panics out of range. *)
Definition decodeHandshake : Dec RPC :=
  let! id := dec_uint16 in
  let! voterFingerprint := dec_fixed 32 in
  let! applicationFingerprint := dec_fixed 32 in
  ret (RPC_Handshake (mkHandshake id voterFingerprint applicationFingerprint)).

Definition decodeHandshakeAck : Dec RPC :=
  let! id := dec_uint16 in
  let! voterFingerprint := dec_fixed 32 in
  let! applicationFingerprint := dec_fixed 32 in
  ret (RPC_HandshakeAck (mkHandshakeAck id voterFingerprint applicationFingerprint)).

Definition decodePreVoteRequest : Dec RPC :=
  let! id := dec_uint16 in
  let! fields := decodeUint64s 4 in
  match fields with
  | [f0; f1; f2; f3] => ret (RPC_PreVoteRequest (mkPreVoteRequest id f0 f1 f2 f3))
  | _ => panic
  end.

Definition decodePreVoteResponse : Dec RPC :=
  let! ids := decodeUint16s 2 in
  let! fields := decodeUint64s 3 in
  let! granted := dec_boolean in
  match ids, fields with
  | [i0; i1], [f0; f1; f2] => ret (RPC_PreVoteResponse (mkPreVoteResponse i0 i1 f0 f1 f2 granted))
  | _, _ => panic
  end.

Definition decodeRequestVoteRequest : Dec RPC :=
  let! id := dec_uint16 in
  let! fields := decodeUint64s 3 in
  match fields with
  | [f0; f1; f2] => ret (RPC_RequestVoteRequest (mkRequestVoteRequest id f0 f1 f2))
  | _ => panic
  end.

Definition decodeRequestVoteResponse : Dec RPC :=
  let! ids := decodeUint16s 2 in
  let! fields := decodeUint64s 2 in
  let! granted := dec_boolean in
  match ids, fields with
  | [i0; i1], [f0; f1] => ret (RPC_RequestVoteResponse (mkRequestVoteResponse i0 i1 f0 f1 granted))
  | _, _ => panic
  end.

Definition decodeBorrowedEntry (maximumCommandBytes : Z) : Dec Entry :=
  let! index := dec_uint64 in
  let! term := dec_uint64 in
  let! kind := dec_uint8 in
  let! command := dec_bytes32Borrowed maximumCommandBytes in
  ret (mkEntry index term kind command).

(** The validating pass of [decodeAppendEntriesRequest] over a copy of the decoder. *)
Fixpoint scanEntries (limits : CodecLimits) (term : Z) (count : nat)
    (expectedIndex previousTerm : Z) : Dec unit :=
  match count with
  | O => ret tt
  | S n =>
    let! entry := decodeBorrowedEntry (MaxCommandBytes limits) in
    if expectedIndex =? max_uint64 then throw ErrInvalidRPC
    else
      let expectedIndex := expectedIndex + 1 in
      if negb (Entry_Index entry =? expectedIndex) || (Entry_Term entry =? 0) ||
         (Entry_Term entry <? previousTerm) || (term <? Entry_Term entry) ||
         (negb (Entry_Kind entry =? EntryCommand) && negb (Entry_Kind entry =? EntryNoOp))
      then throw ErrInvalidRPC
      else if (Entry_Kind entry =? EntryNoOp) && negb (len (Entry_command entry) =? 0)
      then throw ErrInvalidRPC
      else scanEntries limits term n expectedIndex (Entry_Term entry)
  end.

(** The allocating pass. *)
Fixpoint readEntries (limits : CodecLimits) (count : nat) : Dec (list Entry) :=
  match count with
  | O => ret []
  | S n =>
    let! entry := decodeBorrowedEntry (MaxCommandBytes limits) in
    let! rest := readEntries limits n in
    ret (entry :: rest)
  end.

(** Run [m] on a copy of the decoder and keep its result; [check] sees the copy. *)
Definition onCopy {A} (m : Dec A) (check : payloadDecoder → outcome error unit) : Dec A := λ d,
  match m d with
  | (Ok a, scan) => (outcome_bind (check scan) (λ _, Ok a), d)
  | (Err e, _) => (Err e, d)
  | (Panic, _) => (Panic, d)
  | (Blocked, _) => (Blocked, d)
  end.

(** [if decoder.remaining() != 0]. *)
Definition noTrailing (d : payloadDecoder) : outcome error unit :=
  if negb (remaining d =? 0) then Err ErrMalformedRPC else Ok tt.

Definition decodeAppendEntriesRequest (limits : CodecLimits) : Dec RPC :=
  let! leaderID := dec_uint16 in
  let! fields := decodeUint64s 5 in
  let! count := dec_uint16 in
  let! d := get in
  if MaxAppendEntries limits <? count then throw ErrRPCTooLarge
  else if remaining d <? count * minimumEntryBytes then throw ErrMalformedRPC
  else match fields with
  | [f0; f1; f2; f3; f4] =>
    let message := mkAppendEntriesRequest leaderID f0 f1 f2 f3 f4 in
    lift (validateAppendRequest (message []) limits) ;;!
    onCopy (scanEntries limits f0 (Z.to_nat count) f2 f3) noTrailing ;;!
    let! entries := readEntries limits (Z.to_nat count) in
    ret (RPC_AppendEntriesRequest (message entries))
  | _ => panic
  end.

Definition decodeAppendEntriesResponse : Dec RPC :=
  let! ids := decodeUint16s 2 in
  let! fields := decodeUint64s 3 in
  let! success := dec_boolean in
  let! hints := decodeUint64s 3 in
  match ids, fields, hints with
  | [i0; i1], [f0; f1; f2], [h0; h1; h2] =>
    ret (RPC_AppendEntriesResponse (mkAppendEntriesResponse i0 i1 f0 f1 f2 success h0 h1 h2))
  | _, _, _ => panic
  end.

Definition decodeInstallSnapshotRequest (limits : CodecLimits) : Dec RPC :=
  let! leaderID := dec_uint16 in
  let! term := dec_uint64 in
  let! transferID := dec_fixed 16 in
  let! snapshotID := dec_fixed 16 in
  let! metadata := decodeUint64s 2 in
  let! schemaVersion := dec_uint32 in
  let! totalLength := dec_uint64 in
  if MaxSnapshotBytes limits <? totalLength then throw ErrRPCTooLarge
  else
    let! checksum := dec_fixed 32 in
    let! offset := dec_uint64 in
    let! chunk := dec_bytes32Borrowed (MaxSnapshotChunkBytes limits) in
    let! done_ := dec_boolean in
    let! d := get in
    lift (noTrailing d) ;;!
    match metadata with
    | [m0; m1] =>
      let message := mkInstallSnapshotRequest leaderID term transferID snapshotID m0 m1
        schemaVersion totalLength checksum offset chunk done_ in
      lift (validateSnapshotRequest message limits) ;;!
      ret (RPC_InstallSnapshotRequest message)
    | _ => panic
    end.

Definition decodeInstallSnapshotResponse : Dec RPC :=
  let! ids := decodeUint16s 2 in
  let! fields := decodeUint64s 2 in
  let! transferID := dec_fixed 16 in
  let! snapshotID := dec_fixed 16 in
  let! nextOffset := dec_uint64 in
  let! success := dec_boolean in
  let! done_ := dec_boolean in
  match ids, fields with
  | [i0; i1], [f0; f1] =>
    ret (RPC_InstallSnapshotResponse
      (mkInstallSnapshotResponse i0 i1 f0 f1 transferID snapshotID nextOffset success done_))
  | _, _ => panic
  end.

Definition decodeErrorResponse : Dec RPC :=
  let! code := dec_uint16 in
  let! responderID := dec_uint16 in
  let! term := dec_uint64 in
  ret (RPC_ErrorResponse (mkErrorResponse code responderID term)).

(** The message-type switch of [DecodeRPC]. *)
Definition decodeMessage (messageType : MessageType) (limits : CodecLimits) : Dec RPC :=
  if messageType =? MessageRaftHandshake then decodeHandshake
  else if messageType =? MessageRaftHandshakeAck then decodeHandshakeAck
  else if messageType =? MessageRaftPreVoteRequest then decodePreVoteRequest
  else if messageType =? MessageRaftPreVoteResponse then decodePreVoteResponse
  else if messageType =? MessageRaftRequestVoteRequest then decodeRequestVoteRequest
  else if messageType =? MessageRaftRequestVoteResponse then decodeRequestVoteResponse
  else if messageType =? MessageRaftAppendEntriesRequest then decodeAppendEntriesRequest limits
  else if messageType =? MessageRaftAppendEntriesResponse then decodeAppendEntriesResponse
  else if messageType =? MessageRaftInstallSnapshotRequest then decodeInstallSnapshotRequest limits
  else if messageType =? MessageRaftInstallSnapshotResponse then decodeInstallSnapshotResponse
  else if messageType =? MessageRaftError then decodeErrorResponse
  else throw ErrUnknownRPC.

Definition decodePayload (messageType : MessageType) (limits : CodecLimits) : Dec RPC :=
  let! version := dec_uint16 in
  if negb (version =? schemaVersionForMessage messageType) then throw ErrUnsupportedSchema
  else
    let! rpc := decodeMessage messageType limits in
    let! d := get in
    lift (noTrailing d) ;;!
    lift (validateRPC rpc limits) ;;!
    ret rpc.

Definition DecodeRPC (messageType : MessageType) (payload : list byte) (limits : CodecLimits) :
    outcome error RPC :=
  let? resolved := resolveCodecLimits limits in
  if MaxEncodedBytes resolved <? len payload then Err ErrRPCTooLarge
  else (decodePayload messageType resolved (mkDecoder payload 0)).1.

(** ** Specification vocabulary *)

(** Values of the Go types: field widths and array lengths. *)
Definition entry_typed (e : Entry) : Prop :=
  is_u64 (Entry_Index e) ∧ is_u64 (Entry_Term e) ∧ is_u8 (Entry_Kind e).

Definition rpc_typed (rpc : RPC) : Prop :=
  match rpc with
  | RPC_Handshake m => is_u16 (HS_SenderID m) ∧ len (HS_VoterFingerprint m) = 32 ∧
      len (HS_ApplicationFingerprint m) = 32
  | RPC_HandshakeAck m => is_u16 (HSAck_ResponderID m) ∧ len (HSAck_VoterFingerprint m) = 32 ∧
      len (HSAck_ApplicationFingerprint m) = 32
  | RPC_PreVoteRequest m => is_u16 (PVReq_CandidateID m) ∧
      Forall is_u64 [PVReq_CurrentTerm m; PVReq_ProspectiveTerm m; PVReq_LastLogIndex m;
        PVReq_LastLogTerm m]
  | RPC_PreVoteResponse m => Forall is_u16 [PVResp_ResponderID m; PVResp_CandidateID m] ∧
      Forall is_u64 [PVResp_Term m; PVResp_RequestCurrentTerm m; PVResp_ProspectiveTerm m]
  | RPC_RequestVoteRequest m => is_u16 (RVReq_CandidateID m) ∧
      Forall is_u64 [RVReq_Term m; RVReq_LastLogIndex m; RVReq_LastLogTerm m]
  | RPC_RequestVoteResponse m => Forall is_u16 [RVResp_ResponderID m; RVResp_CandidateID m] ∧
      Forall is_u64 [RVResp_Term m; RVResp_RequestTerm m]
  | RPC_AppendEntriesRequest m => is_u16 (AEReq_LeaderID m) ∧
      Forall is_u64 [AEReq_Term m; AEReq_Generation m; AEReq_PrevLogIndex m; AEReq_PrevLogTerm m;
        AEReq_LeaderCommit m] ∧ Forall entry_typed (AEReq_Entries m)
  | RPC_AppendEntriesResponse m => Forall is_u16 [AEResp_ResponderID m; AEResp_LeaderID m] ∧
      Forall is_u64 [AEResp_Term m; AEResp_RequestTerm m; AEResp_Generation m] ∧
      Forall is_u64 [AEResp_MatchIndex m; AEResp_ConflictTerm m; AEResp_ConflictIndex m]
  | RPC_InstallSnapshotRequest m => is_u16 (ISReq_LeaderID m) ∧ is_u64 (ISReq_Term m) ∧
      len (ISReq_TransferID m) = 16 ∧ len (ISReq_SnapshotID m) = 16 ∧
      Forall is_u64 [ISReq_LastIncludedIndex m; ISReq_LastIncludedTerm m] ∧
      is_u32 (ISReq_StateMachineSchemaVersion m) ∧ is_u64 (ISReq_TotalLength m) ∧
      len (ISReq_Checksum m) = 32 ∧ is_u64 (ISReq_Offset m)
  | RPC_InstallSnapshotResponse m => Forall is_u16 [ISResp_ResponderID m; ISResp_LeaderID m] ∧
      Forall is_u64 [ISResp_Term m; ISResp_RequestTerm m] ∧
      len (ISResp_TransferID m) = 16 ∧ len (ISResp_SnapshotID m) = 16 ∧ is_u64 (ISResp_NextOffset m)
  | RPC_ErrorResponse m => is_u16 (ER_Code m) ∧ is_u16 (ER_ResponderID m) ∧ is_u64 (ER_Term m)
  end.

Definition limits_typed (l : CodecLimits) : Prop :=
  is_u16 (MaxAppendEntries l) ∧ is_u64 (MaxCommandBytes l) ∧ is_u64 (MaxSnapshotChunkBytes l) ∧
  is_u64 (MaxSnapshotBytes l) ∧ is_u64 (MaxEncodedBytes l).

(** The wire format: the bytes of each message. *)
Definition be_list (n : nat) (values : list Z) : list byte := concat (map (be_bytes n) values).
Definition wireBool (b : bool) : list byte := be_bytes 1 (if b then 1 else 0).
Definition wireBytes (bs : list byte) : list byte := be_bytes 4 (len bs) ++ bs.

Definition wireEntry (e : Entry) : list byte :=
  be_list 8 [Entry_Index e; Entry_Term e] ++ be_bytes 1 (Entry_Kind e) ++
  wireBytes (Entry_command e).

Definition wireMessage (rpc : RPC) : list byte :=
  match rpc with
  | RPC_Handshake m =>
    be_bytes 2 (HS_SenderID m) ++ HS_VoterFingerprint m ++ HS_ApplicationFingerprint m
  | RPC_HandshakeAck m =>
    be_bytes 2 (HSAck_ResponderID m) ++ HSAck_VoterFingerprint m ++ HSAck_ApplicationFingerprint m
  | RPC_PreVoteRequest m =>
    be_bytes 2 (PVReq_CandidateID m) ++ be_list 8 [PVReq_CurrentTerm m; PVReq_ProspectiveTerm m;
      PVReq_LastLogIndex m; PVReq_LastLogTerm m]
  | RPC_PreVoteResponse m =>
    be_list 2 [PVResp_ResponderID m; PVResp_CandidateID m] ++
    be_list 8 [PVResp_Term m; PVResp_RequestCurrentTerm m; PVResp_ProspectiveTerm m] ++
    wireBool (PVResp_Granted m)
  | RPC_RequestVoteRequest m =>
    be_bytes 2 (RVReq_CandidateID m) ++
    be_list 8 [RVReq_Term m; RVReq_LastLogIndex m; RVReq_LastLogTerm m]
  | RPC_RequestVoteResponse m =>
    be_list 2 [RVResp_ResponderID m; RVResp_CandidateID m] ++
    be_list 8 [RVResp_Term m; RVResp_RequestTerm m] ++ wireBool (RVResp_Granted m)
  | RPC_AppendEntriesRequest m =>
    be_bytes 2 (AEReq_LeaderID m) ++
    be_list 8 [AEReq_Term m; AEReq_Generation m; AEReq_PrevLogIndex m; AEReq_PrevLogTerm m;
      AEReq_LeaderCommit m] ++
    be_bytes 2 (len (AEReq_Entries m)) ++ concat (map wireEntry (AEReq_Entries m))
  | RPC_AppendEntriesResponse m =>
    be_list 2 [AEResp_ResponderID m; AEResp_LeaderID m] ++
    be_list 8 [AEResp_Term m; AEResp_RequestTerm m; AEResp_Generation m] ++
    wireBool (AEResp_Success m) ++
    be_list 8 [AEResp_MatchIndex m; AEResp_ConflictTerm m; AEResp_ConflictIndex m]
  | RPC_InstallSnapshotRequest m =>
    be_bytes 2 (ISReq_LeaderID m) ++ be_bytes 8 (ISReq_Term m) ++ ISReq_TransferID m ++
    ISReq_SnapshotID m ++ be_list 8 [ISReq_LastIncludedIndex m; ISReq_LastIncludedTerm m] ++
    be_bytes 4 (ISReq_StateMachineSchemaVersion m) ++ be_bytes 8 (ISReq_TotalLength m) ++
    ISReq_Checksum m ++ be_bytes 8 (ISReq_Offset m) ++ wireBytes (ISReq_Chunk m) ++
    wireBool (ISReq_Done m)
  | RPC_InstallSnapshotResponse m =>
    be_list 2 [ISResp_ResponderID m; ISResp_LeaderID m] ++
    be_list 8 [ISResp_Term m; ISResp_RequestTerm m] ++ ISResp_TransferID m ++
    ISResp_SnapshotID m ++ be_bytes 8 (ISResp_NextOffset m) ++ wireBool (ISResp_Success m) ++
    wireBool (ISResp_Done m)
  | RPC_ErrorResponse m =>
    be_bytes 2 (ER_Code m) ++ be_bytes 2 (ER_ResponderID m) ++ be_bytes 8 (ER_Term m)
  end.

Definition wire (rpc : RPC) : list byte :=
  be_bytes 2 (schemaVersionForRPC rpc) ++ wireMessage rpc.

(** ** What an encoder step appends *)

Definition emits (m : Enc) (bs : list byte) : Prop := ∀ e,
  len (E_payload e) ≤ E_maximum e ≤ max_uint64 →
  (len (E_payload e) + len bs ≤ E_maximum e ∧
   m e = (Ok tt, mkEncoder (E_payload e ++ bs) (E_maximum e))) ∨
  (E_maximum e < len (E_payload e) + len bs ∧ ∃ e', m e = (Err ErrRPCTooLarge, e')).

Create HintDb codec.
Create HintDb codec_messages.
#[export] Hint Unfold encodeHandshake encodeHandshakeAck encodePreVoteRequest encodePreVoteResponse
  encodeRequestVoteRequest encodeRequestVoteResponse encodeAppendEntriesRequest
  encodeAppendEntriesResponse encodeInstallSnapshotRequest encodeInstallSnapshotResponse
  encodeErrorResponse : codec_messages.

Lemma emits_add (bs : list byte) : emits (enc_add bs) bs.
Proof.
  intros [p mx] He. simpl in He. unfold enc_add, bind, get, put, throw. simpl.
  rewrite wrap64_small by (pose proof (len_nonneg p); ulia).
  destruct (Z.ltb_spec (mx - len p) (len bs)); [right|left]; split; simpl; eauto; lia.
Qed.

Lemma emits_ret : emits (ret tt) [].
Proof. intros [p mx] He. left. simpl in *. rewrite len_nil, app_nil_r. split; [lia|done]. Qed.

Lemma emits_seq (m1 m2 : Enc) (b1 b2 : list byte) :
  emits m1 b1 → emits m2 b2 → emits (m1 ;;! m2) (b1 ++ b2).
Proof.
  intros H1 H2 e He. rewrite len_app. unfold bind. pose proof (len_nonneg b2).
  destruct (H1 e He) as [[Hl ->]|[Hl [e' ->]]]; [|right; split; [lia|eauto]].
  destruct (H2 (mkEncoder (E_payload e ++ b1) (E_maximum e))) as [[Hl2 ->]|[Hl2 [e' ->]]];
    simpl in *; rewrite ?len_app in *; [lia| |].
  - left. rewrite app_assoc. split; [lia|done].
  - right. split; [lia|eauto].
Qed.

Lemma emits_uint (n : nat) (z : Z) : emits (enc_add (be_bytes n z)) (be_bytes n z).
Proof. apply emits_add. Qed.

Lemma emits_boolean (b : bool) : emits (enc_boolean b) (wireBool b).
Proof. destruct b; apply emits_add. Qed.

Lemma emits_bytes32 (bs : list byte) : len bs ≤ max_uint32 → emits (enc_bytes32 bs) (wireBytes bs).
Proof.
  intros Hl. unfold enc_bytes32. destruct (Z.ltb_spec max_uint32 (len bs)); [lia|].
  apply emits_seq; apply emits_add.
Qed.

Lemma emits_uint16s (vs : list Z) : emits (encodeUint16s vs) (be_list 2 vs).
Proof. induction vs; [apply emits_ret|]. apply emits_seq; [apply emits_add|done]. Qed.

Lemma emits_uint64s (vs : list Z) : emits (encodeUint64s vs) (be_list 8 vs).
Proof. induction vs; [apply emits_ret|]. apply emits_seq; [apply emits_add|done]. Qed.

#[export] Hint Resolve emits_add emits_seq emits_boolean emits_uint16s emits_uint64s : codec.
#[export] Hint Resolve emits_bytes32 : codec.
#[export] Hint Extern 1 (emits (enc_uint8 _) _) => apply emits_uint : codec.
#[export] Hint Extern 1 (emits (enc_uint16 _) _) => apply emits_uint : codec.
#[export] Hint Extern 1 (emits (enc_uint32 _) _) => apply emits_uint : codec.
#[export] Hint Extern 1 (emits (enc_uint64 _) _) => apply emits_uint : codec.

(** What makes a message encodable: its byte strings have 32-bit lengths. *)
Definition strings_small (rpc : RPC) : Prop :=
  match rpc with
  | RPC_AppendEntriesRequest m => len (AEReq_Entries m) ≤ max_uint16 ∧
      Forall (λ e, len (Entry_command e) ≤ max_uint32) (AEReq_Entries m)
  | RPC_InstallSnapshotRequest m => len (ISReq_Chunk m) ≤ max_uint32
  | _ => True
  end.

Lemma emits_entries (es : list Entry) :
  Forall (λ e, len (Entry_command e) ≤ max_uint32) es →
  emits (encodeEntries es) (concat (map wireEntry es)).
Proof.
  induction 1 as [|e es He _ IH]; [apply emits_ret|].
  cbn [encodeEntries map concat]. unfold wireEntry at 1. rewrite <- !app_assoc. auto 10 with codec.
Qed.

Lemma emits_message (rpc : RPC) :
  strings_small rpc → emits (encodeMessage rpc) (wireMessage rpc).
Proof.
  destruct rpc; cbn [encodeMessage wireMessage strings_small]; intros Hs;
    try (autounfold with codec_messages; auto 20 with codec).
  destruct Hs as [_ Hs]. pose proof (emits_entries _ Hs).
  autounfold with codec_messages. auto 10 with codec.
Qed.

(** ** Limits and validation *)

(** What resolution guarantees. *)
Record limits_ok (r : CodecLimits) : Prop := {
  lo_entries : MaxAppendEntries r ≤ max_uint16;
  lo_command : MaxCommandBytes r ≤ MaxRaftCommandBytes;
  lo_chunk : MaxSnapshotChunkBytes r ≤ MaxRaftSnapshotChunkBytes;
  lo_encoded : 0 ≤ MaxEncodedBytes r ≤ MaxRPCPayloadBytes
}.

Ltac limit_values :=
  change MaxRPCPayloadBytes with 8388521 in *; change MaxRaftCommandBytes with 1048576 in *;
  change MaxRaftSnapshotChunkBytes with 262144 in *;
  change MaxRaftSnapshotBytes with 1073741824 in *; change DefaultMaxAppendEntries with 64 in *.

Lemma resolveCodecLimits_ok (l r : CodecLimits) :
  limits_typed l → resolveCodecLimits l = Ok r → limits_ok r.
Proof.
  intros (H1 & H2 & H3 & H4 & H5). unfold resolveCodecLimits. cbv zeta.
  repeat (case_goal; [done|]). intros [= <-]. bool_hyps. unfold limitOr in *. simpl in *.
  limit_values. split; simpl; limit_values; repeat case_goal; bool_hyps; ulia.
Qed.

Lemma resolveCodecLimits_total (l : CodecLimits) :
  (∃ r, resolveCodecLimits l = Ok r) ∨ (∃ e, resolveCodecLimits l = Err e).
Proof. unfold resolveCodecLimits. cbv zeta. repeat case_goal; eauto. Qed.

Lemma validateAppendEntriesLoop_commands (r : CodecLimits) (t i p : Z) (es : list Entry) :
  validateAppendEntriesLoop r t i p es = Ok tt →
  Forall (λ e, len (Entry_command e) ≤ MaxCommandBytes r) es.
Proof.
  revert i p. induction es as [|e es IH]; intros i p; simpl; [constructor|].
  repeat (case_goal; [done|]). intros ?%IH. bool_hyps. by constructor.
Qed.

Lemma validateRPC_strings (r : CodecLimits) (rpc : RPC) :
  limits_ok r → validateRPC rpc r = Ok tt → strings_small rpc.
Proof.
  intros [H1 H2 H3 H4] Hv. destruct rpc; simpl in *; try done.
  - unfold validateAppendRequest in Hv. revert Hv. repeat (case_goal; [done|]).
    intros Hv%validateAppendEntriesLoop_commands. bool_hyps. split; [lia|].
    eapply Forall_impl; [exact Hv|]. simpl. intros e He. limit_values. ulia.
  - unfold validateSnapshotRequest in Hv. revert Hv. cbv zeta. repeat (case_goal; [done|]).
    bool_hyps. intros _. limit_values. ulia.
Qed.

Lemma validateAppendEntriesLoop_total (r : CodecLimits) (t i p : Z) (es : list Entry) :
  (validateAppendEntriesLoop r t i p es = Ok tt) ∨ ∃ e, validateAppendEntriesLoop r t i p es = Err e.
Proof.
  revert i p. induction es as [|e es IH]; intros i p; simpl; [by left|].
  repeat (case_goal; [eauto|]). apply IH.
Qed.

Lemma validateRPC_total (r : CodecLimits) (rpc : RPC) :
  (validateRPC rpc r = Ok tt) ∨ ∃ e, validateRPC rpc r = Err e.
Proof.
  destruct rpc; simpl; unfold validateAppendRequest, validateAppendResponse,
    validateSnapshotRequest, validateSnapshotResponse; cbv zeta;
    repeat (case_goal; eauto). apply validateAppendEntriesLoop_total.
Qed.

(** Encoding a valid message appends its wire format or fails because it does not fit. *)
Lemma EncodeRPC_valid (l r : CodecLimits) (rpc : RPC) :
  limits_typed l → resolveCodecLimits l = Ok r → validateRPC rpc r = Ok tt →
  EncodeRPC (InterfaceValue rpc) l =
  if MaxEncodedBytes r <? len (wire rpc) then Err ErrRPCTooLarge
  else Ok (RPC_MessageType rpc, wire rpc).
Proof.
  intros Hl Hr Hv. pose proof (resolveCodecLimits_ok _ _ Hl Hr) as Hok.
  unfold EncodeRPC. rewrite Hr. simpl. rewrite Hv. simpl.
  assert (emits (enc_uint16 (schemaVersionForRPC rpc) ;;! encodeMessage rpc) (wire rpc)) as He.
  { apply emits_seq; [apply emits_add|]. apply emits_message. by eapply validateRPC_strings. }
  pose proof (lo_encoded _ Hok) as Hm. limit_values.
  destruct (He (mkEncoder [] (MaxEncodedBytes r))) as [[Hle ->]|[Hlt [e' ->]]];
    cbn [E_payload E_maximum] in *; rewrite ?len_nil in *; [ulia| |].
  - rewrite (proj2 (Z.ltb_ge _ _)) by lia. done.
  - rewrite (proj2 (Z.ltb_lt _ _)) by lia. done.
Qed.

Lemma EncodeRPC_returns (l : CodecLimits) (rpc : interfaceRPC) :
  limits_typed l → EncodeRPC rpc l ≠ Panic.
Proof.
  intros Hl. destruct (resolveCodecLimits_total l) as [[r Hr]|[e He]].
  2:{ unfold EncodeRPC. by rewrite He. }
  destruct (normalizeRPC rpc) as [m|] eqn:Hn; [|unfold EncodeRPC; by rewrite Hr, Hn].
  replace (EncodeRPC rpc l) with (EncodeRPC (InterfaceValue m) l)
    by (unfold EncodeRPC; by rewrite Hn).
  destruct (validateRPC_total r m) as [Hv|[e Hv]].
  - rewrite (EncodeRPC_valid l r m Hl Hr Hv). by case_goal.
  - unfold EncodeRPC. rewrite Hr. simpl. by rewrite Hv.
Qed.

(** ** What a decoder reads *)

Definition dwf (d : payloadDecoder) : Prop := 0 ≤ D_offset d ≤ len (D_payload d).
Definition rest_of (d : payloadDecoder) : list byte := drop (Z.to_nat (D_offset d)) (D_payload d).

(** [parses m Q]: started inside its payload, [m] returns or fails, and when it
    returns [a] it has consumed bytes [bs] with [Q a bs]. *)
Definition parses {A} (m : Dec A) (Q : A → list byte → Prop) : Prop := ∀ d, dwf d →
  match m d with
  | (Ok a, d') => dwf d' ∧ D_payload d' = D_payload d ∧
      ∃ bs, rest_of d = bs ++ rest_of d' ∧ Q a bs
  | (Err _, _) => True
  | _ => False
  end.

(** [reads post m bs a]: before input [bs ++ post], [m] returns [a] and consumes [bs]. *)
Definition reads {A} (post : list byte) (m : Dec A) (bs : list byte) (a : A) : Prop := ∀ pre,
  m (mkDecoder (pre ++ bs ++ post) (len pre)) =
  (Ok a, mkDecoder (pre ++ bs ++ post) (len pre + len bs)).

Section decoder_rules.
Context {A B : Type}.

Lemma parses_ret (a : A) (Q : A → list byte → Prop) : Q a [] → parses (ret a) Q.
Proof. intros HQ d Hd. simpl. split_and!; [done..|]. by exists []. Qed.

Lemma parses_throw (e : error) (Q : A → list byte → Prop) : parses (throw e) Q.
Proof. intros d Hd. exact I. Qed.

Lemma parses_bind (m : Dec A) (k : A → Dec B) (P : A → list byte → Prop)
    (Q : B → list byte → Prop) :
  parses m P → (∀ a b1, P a b1 → parses (k a) (λ c b2, Q c (b1 ++ b2))) →
  parses (bind m k) Q.
Proof.
  intros Hm Hk d Hd. specialize (Hm d Hd). unfold bind.
  destruct (m d) as [[a| | |] d1]; try done.
  destruct Hm as (Hd1 & Hp1 & b1 & Hr1 & HP). specialize (Hk a b1 HP d1 Hd1).
  destruct (k a d1) as [[c| | |] d2]; try done.
  destruct Hk as (Hd2 & Hp2 & b2 & Hr2 & HQ). split_and!; [done|congruence|].
  exists (b1 ++ b2). split; [|done]. by rewrite Hr1, Hr2, app_assoc.
Qed.

Lemma parses_mono (m : Dec A) (P Q : A → list byte → Prop) :
  parses m P → (∀ a bs, P a bs → Q a bs) → parses m Q.
Proof.
  intros Hm HPQ d Hd. specialize (Hm d Hd). destruct (m d) as [[a| | |] d']; try done.
  destruct Hm as (? & ? & bs & ? & ?). eauto 10.
Qed.

Lemma parses_get (k : payloadDecoder → Dec B) (Q : B → list byte → Prop) :
  (∀ d, parses (k d) Q) → parses (bind get k) Q.
Proof. intros Hk d Hd. apply Hk, Hd. Qed.

Lemma parses_lift (o : outcome error A) (k : A → Dec B) (Q : B → list byte → Prop) :
  (∃ a, o = Ok a) ∨ (∃ e, o = Err e) → (∀ a, o = Ok a → parses (k a) Q) → parses (bind (lift o) k) Q.
Proof. intros [[a ->]|[e ->]] Hk d Hd; [by apply Hk|exact I]. Qed.

Lemma reads_ret (post : list byte) (a : A) : reads post (ret a) [] a.
Proof. intros pre. unfold ret. by rewrite len_nil, Z.add_0_r. Qed.

Lemma reads_bind (post b1 b2 : list byte) (m : Dec A) (k : A → Dec B) (a : A) (c : B) :
  reads (b2 ++ post) m b1 a → reads post (k a) b2 c → reads post (bind m k) (b1 ++ b2) c.
Proof.
  intros Hm Hk pre. unfold bind. rewrite <- app_assoc, Hm.
  specialize (Hk (pre ++ b1)). rewrite len_app, <- app_assoc in Hk. rewrite Hk, len_app.
  by rewrite Z.add_assoc.
Qed.

Lemma reads_get (post bs : list byte) (k : payloadDecoder → Dec B) (c : B) :
  (∀ d, remaining d = len bs + len post → reads post (k d) bs c) → reads post (bind get k) bs c.
Proof.
  intros Hk pre. unfold bind, get. apply Hk. unfold remaining. simpl. rewrite !len_app. lia.
Qed.

Lemma reads_lift (post bs : list byte) (o : outcome error A) (k : A → Dec B) (a : A) (c : B) :
  o = Ok a → reads post (k a) bs c → reads post (bind (lift o) k) bs c.
Proof. intros -> Hk pre. apply Hk. Qed.

Lemma reads_last (post b1 : list byte) (m : Dec A) (k : A → Dec B) (a : A) (c : B) :
  reads post m b1 a → reads post (k a) [] c → reads post (bind m k) b1 c.
Proof. intros Hm Hk. rewrite <- (app_nil_r b1). by eapply reads_bind. Qed.

End decoder_rules.

(** ** Primitive reads *)

Lemma dec_take_parses (n : Z) : 0 ≤ n → parses (dec_take n) (λ bs used, bs = used ∧ len bs = n).
Proof.
  intros Hn [p o] Hd. unfold dwf in Hd. simpl in Hd. unfold dec_take, bind, get, put, throw, ret.
  unfold remaining. simpl.
  destruct (Z.ltb_spec n 0); [lia|]. destruct (Z.ltb_spec (len p - o) n); simpl; [done|].
  unfold dwf, rest_of, slice. simpl. split_and!; [lia|lia|done|].
  exists (take (Z.to_nat n) (drop (Z.to_nat o) p)). split_and!; [|done|].
  - rewrite Z2Nat.inj_add, <- drop_drop by lia. by rewrite take_drop.
  - unfold len in *. rewrite length_take, length_drop. lia.
Qed.

Lemma dec_take_reads (post bs : list byte) : reads post (dec_take (len bs)) bs bs.
Proof.
  intros pre. unfold dec_take, bind, get, put, ret, remaining. simpl. rewrite !len_app.
  destruct (Z.ltb_spec (len bs) 0); [pose proof (len_nonneg bs); lia|].
  destruct (Z.ltb_spec (len pre + (len bs + len post) - len pre) (len bs));
    [pose proof (len_nonneg post); lia|]. simpl. unfold slice, set_field, len. simpl.
  rewrite !Nat2Z.id. by rewrite drop_app_length, take_app_length.
Qed.

Lemma dec_fixed_reads (post bs : list byte) (n : Z) : len bs = n → reads post (dec_fixed n) bs bs.
Proof. intros <-. apply dec_take_reads. Qed.

Lemma dec_uint_parses (n : nat) :
  parses (let! bytes := dec_take (Z.of_nat n) in ret (be_value bytes))
    (λ z bs, bs = be_bytes n z ∧ 0 ≤ z < 256 ^ Z.of_nat n).
Proof.
  eapply parses_bind; [apply dec_take_parses; lia|]. intros bs ? [<- Hl]. apply parses_ret.
  assert (length bs = n) as <- by (unfold len in Hl; lia). rewrite app_nil_r, be_bytes_value.
  split; [done|apply be_value_range].
Qed.

Lemma dec_uint_reads (post : list byte) (n : nat) (z : Z) :
  0 ≤ z < 256 ^ Z.of_nat n →
  reads post (let! bytes := dec_take (Z.of_nat n) in ret (be_value bytes)) (be_bytes n z) z.
Proof.
  intros Hz. eapply (reads_last _ _ _ _ (be_bytes n z)).
  - assert (Z.of_nat n = len (be_bytes n z)) as -> by (unfold len; by rewrite length_be_bytes).
    apply dec_take_reads.
  - rewrite be_value_bytes, Z.mod_small by done. apply reads_ret.
Qed.

Lemma dec_uint8_parses : parses dec_uint8 (λ z bs, bs = be_bytes 1 z ∧ is_u8 z).
Proof. eapply parses_mono; [apply (dec_uint_parses 1)|]. intros z bs [-> ?]. split; [done|ulia]. Qed.
Lemma dec_uint16_parses : parses dec_uint16 (λ z bs, bs = be_bytes 2 z ∧ is_u16 z).
Proof. eapply parses_mono; [apply (dec_uint_parses 2)|]. intros z bs [-> ?]. split; [done|ulia]. Qed.
Lemma dec_uint32_parses : parses dec_uint32 (λ z bs, bs = be_bytes 4 z ∧ is_u32 z).
Proof. eapply parses_mono; [apply (dec_uint_parses 4)|]. intros z bs [-> ?]. split; [done|ulia]. Qed.
Lemma dec_uint64_parses : parses dec_uint64 (λ z bs, bs = be_bytes 8 z ∧ is_u64 z).
Proof. eapply parses_mono; [apply (dec_uint_parses 8)|]. intros z bs [-> ?]. split; [done|ulia]. Qed.

Lemma dec_uint8_reads (post : list byte) (z : Z) : is_u8 z → reads post dec_uint8 (be_bytes 1 z) z.
Proof. intros Hz. apply (dec_uint_reads post 1). ulia. Qed.
Lemma dec_uint16_reads (post : list byte) (z : Z) : is_u16 z → reads post dec_uint16 (be_bytes 2 z) z.
Proof. intros Hz. apply (dec_uint_reads post 2). ulia. Qed.
Lemma dec_uint32_reads (post : list byte) (z : Z) : is_u32 z → reads post dec_uint32 (be_bytes 4 z) z.
Proof. intros Hz. apply (dec_uint_reads post 4). ulia. Qed.
Lemma dec_uint64_reads (post : list byte) (z : Z) : is_u64 z → reads post dec_uint64 (be_bytes 8 z) z.
Proof. intros Hz. apply (dec_uint_reads post 8). ulia. Qed.

Lemma dec_boolean_parses : parses dec_boolean (λ b bs, bs = wireBool b).
Proof.
  eapply parses_bind; [apply dec_uint8_parses|]. intros z ? [-> Hz].
  destruct (Z.ltb_spec 1 z); [apply parses_throw|]. apply parses_ret. rewrite app_nil_r.
  unfold wireBool. destruct (Z.eqb_spec z 1) as [->|]; [done|]. f_equal. ulia.
Qed.

Lemma dec_boolean_reads (post : list byte) (b : bool) : reads post dec_boolean (wireBool b) b.
Proof.
  eapply reads_last; [apply dec_uint8_reads; destruct b; ulia|]. destruct b; apply reads_ret.
Qed.

Lemma dec_bytes32_parses (mx : Z) : parses (dec_bytes32Borrowed mx) (λ v bs, bs = wireBytes v).
Proof.
  eapply parses_bind; [apply dec_uint32_parses|]. intros n ? [-> Hn]. apply parses_get. intros d.
  case_goal; [apply parses_throw|]. case_goal; [apply parses_throw|].
  destruct (Z.eqb_spec n 0) as [->|]; [by apply parses_ret|].
  eapply parses_mono; [apply dec_take_parses; ulia|]. intros v bs [<- <-]. done.
Qed.

Lemma dec_bytes32_reads (post v : list byte) (mx : Z) :
  len v ≤ mx → len v ≤ max_uint32 → reads post (dec_bytes32Borrowed mx) (wireBytes v) v.
Proof.
  intros Hmx Hv. pose proof (len_nonneg v). pose proof (len_nonneg post).
  eapply reads_bind; [apply dec_uint32_reads; ulia|]. apply reads_get. intros d Hd.
  destruct (Z.ltb_spec mx (len v)); [lia|]. destruct (Z.ltb_spec (remaining d) (len v)); [lia|].
  destruct (Z.eqb_spec (len v) 0) as [->%len_0_nil|]; [apply reads_ret|apply dec_take_reads].
Qed.

Lemma decodeUint16s_parses (n : nat) :
  parses (decodeUint16s n) (λ vs bs, bs = be_list 2 vs ∧ Forall is_u16 vs ∧ length vs = n).
Proof.
  induction n as [|n IH]; [by apply parses_ret|].
  eapply parses_bind; [apply dec_uint16_parses|]. intros z ? [-> Hz].
  eapply parses_bind; [exact IH|]. intros vs ? (-> & Hvs & Hl). apply parses_ret.
  rewrite app_nil_r. split_and!; [done|by constructor|by simpl; f_equal].
Qed.

Lemma decodeUint64s_parses (n : nat) :
  parses (decodeUint64s n) (λ vs bs, bs = be_list 8 vs ∧ Forall is_u64 vs ∧ length vs = n).
Proof.
  induction n as [|n IH]; [by apply parses_ret|].
  eapply parses_bind; [apply dec_uint64_parses|]. intros z ? [-> Hz].
  eapply parses_bind; [exact IH|]. intros vs ? (-> & Hvs & Hl). apply parses_ret.
  rewrite app_nil_r. split_and!; [done|by constructor|by simpl; f_equal].
Qed.

Lemma decodeUint16s_reads (post : list byte) (vs : list Z) (n : nat) :
  length vs = n → Forall is_u16 vs → reads post (decodeUint16s n) (be_list 2 vs) vs.
Proof.
  intros <-. induction 1 as [|z vs Hz Hvs IH]; [apply reads_ret|].
  eapply reads_bind; [by apply dec_uint16_reads|]. eapply reads_last; [exact IH|apply reads_ret].
Qed.

Lemma decodeUint64s_reads (post : list byte) (vs : list Z) (n : nat) :
  length vs = n → Forall is_u64 vs → reads post (decodeUint64s n) (be_list 8 vs) vs.
Proof.
  intros <-. induction 1 as [|z vs Hz Hvs IH]; [apply reads_ret|].
  eapply reads_bind; [by apply dec_uint64_reads|]. eapply reads_last; [exact IH|apply reads_ret].
Qed.

(** ** Messages *)

Ltac apply_parse :=
  lazymatch goal with
  | |- parses dec_uint8 _ => apply dec_uint8_parses
  | |- parses dec_uint16 _ => apply dec_uint16_parses
  | |- parses dec_uint32 _ => apply dec_uint32_parses
  | |- parses dec_uint64 _ => apply dec_uint64_parses
  | |- parses dec_boolean _ => apply dec_boolean_parses
  | |- parses (dec_bytes32Borrowed _) _ => apply dec_bytes32_parses
  | |- parses (decodeUint16s _) _ => apply decodeUint16s_parses
  | |- parses (decodeUint64s _) _ => apply decodeUint64s_parses
  | |- parses (dec_take _) _ => apply dec_take_parses; lia
  end.

(** Turn a list of known length into its elements. *)
Ltac inv_lengths :=
  repeat match goal with
  | H : length ?l = S _ |- _ => destruct l; [discriminate H|]; simpl in H; injection H as H
  | H : length ?l = O |- _ => destruct l; [|discriminate H]; clear H
  end.

Ltac parse_step :=
  lazymatch goal with
  | |- parses (throw _) _ => apply parses_throw
  | |- parses (bind get _) _ => apply parses_get; intros ?
  | |- parses (bind _ _) _ =>
    let H := fresh in
    eapply parses_bind; [apply_parse|]; intros ? ? H; cbv beta in H;
    destruct_and?; subst; inv_lengths; cbv beta iota
  | |- parses (if ?b then _ else _) _ => destruct b eqn:?
  end.

(** What reading a message establishes. *)
Definition decoded (messageType : MessageType) (rpc : RPC) (bs : list byte) : Prop :=
  bs = wireMessage rpc ∧ rpc_typed rpc ∧ RPC_MessageType rpc = messageType.

Ltac parse_message :=
  repeat parse_step; apply parses_ret; unfold decoded; cbn [wireMessage rpc_typed RPC_MessageType];
  split_and!; try done; rewrite ?app_nil_r, <- ?app_assoc; try done.

Lemma decodeHandshake_parses : parses decodeHandshake (decoded MessageRaftHandshake).
Proof. unfold decodeHandshake, dec_fixed. parse_message. Qed.

Lemma decodeHandshakeAck_parses : parses decodeHandshakeAck (decoded MessageRaftHandshakeAck).
Proof. unfold decodeHandshakeAck, dec_fixed. parse_message. Qed.

Lemma decodePreVoteRequest_parses : parses decodePreVoteRequest (decoded MessageRaftPreVoteRequest).
Proof. unfold decodePreVoteRequest. parse_message. Qed.

Lemma decodePreVoteResponse_parses :
  parses decodePreVoteResponse (decoded MessageRaftPreVoteResponse).
Proof. unfold decodePreVoteResponse. parse_message. Qed.

Lemma decodeRequestVoteRequest_parses :
  parses decodeRequestVoteRequest (decoded MessageRaftRequestVoteRequest).
Proof. unfold decodeRequestVoteRequest. parse_message. Qed.

Lemma decodeRequestVoteResponse_parses :
  parses decodeRequestVoteResponse (decoded MessageRaftRequestVoteResponse).
Proof. unfold decodeRequestVoteResponse. parse_message. Qed.

Lemma decodeAppendEntriesResponse_parses :
  parses decodeAppendEntriesResponse (decoded MessageRaftAppendEntriesResponse).
Proof. unfold decodeAppendEntriesResponse. parse_message. Qed.

Lemma decodeInstallSnapshotResponse_parses :
  parses decodeInstallSnapshotResponse (decoded MessageRaftInstallSnapshotResponse).
Proof. unfold decodeInstallSnapshotResponse, dec_fixed. parse_message. Qed.

Lemma decodeErrorResponse_parses : parses decodeErrorResponse (decoded MessageRaftError).
Proof. unfold decodeErrorResponse. parse_message. Qed.

Lemma decodeBorrowedEntry_parses (mx : Z) :
  parses (decodeBorrowedEntry mx) (λ e bs, bs = wireEntry e ∧ entry_typed e).
Proof.
  unfold decodeBorrowedEntry. repeat parse_step. apply parses_ret.
  unfold wireEntry, be_list, entry_typed. cbn [map concat Entry_Index Entry_Term Entry_Kind Entry_command].
  rewrite !app_nil_r, <- !app_assoc. done.
Qed.

Lemma scanEntries_parses (r : CodecLimits) (t : Z) (n : nat) (i p : Z) :
  parses (scanEntries r t n i p) (λ _ _, True).
Proof.
  revert i p. induction n as [|n IH]; intros i p; [by apply parses_ret|].
  eapply parses_bind; [apply decodeBorrowedEntry_parses|]. intros e b1 _. cbv zeta.
  repeat (case_goal; [apply parses_throw|]). apply IH.
Qed.

Lemma readEntries_parses (r : CodecLimits) (n : nat) :
  parses (readEntries r n) (λ es bs, bs = concat (map wireEntry es) ∧ Forall entry_typed es ∧
    length es = n).
Proof.
  induction n as [|n IH]; [by apply parses_ret|].
  eapply parses_bind; [apply decodeBorrowedEntry_parses|]. intros e b1 [-> He].
  eapply parses_bind; [exact IH|]. intros es b2 (-> & Hes & Hl). apply parses_ret.
  rewrite app_nil_r. split_and!; [done|by constructor|by simpl; f_equal].
Qed.

Lemma noTrailing_total (d : payloadDecoder) :
  (∃ a, noTrailing d = Ok a) ∨ (∃ e, noTrailing d = Err e).
Proof. unfold noTrailing. case_goal; eauto. Qed.

Lemma onCopy_parses {A} (m : Dec A) (P : A → list byte → Prop) :
  parses m P → parses (onCopy m noTrailing) (λ _ bs, bs = []).
Proof.
  intros Hm d Hd. specialize (Hm d Hd). unfold onCopy.
  destruct (m d) as [[a| | |] d']; try done.
  destruct (noTrailing_total d') as [[? ->]|[? ->]]; simpl; [|done].
  split_and!; [done|done|]. by exists [].
Qed.

Lemma outcome_unit_total (o : outcome error unit) :
  (o = Ok tt) ∨ (∃ e, o = Err e) → (∃ a, o = Ok a) ∨ (∃ e, o = Err e).
Proof. naive_solver. Qed.

Lemma decodeAppendEntriesRequest_parses (r : CodecLimits) :
  parses (decodeAppendEntriesRequest r) (decoded MessageRaftAppendEntriesRequest).
Proof.
  unfold decodeAppendEntriesRequest. repeat parse_step.
  apply parses_lift.
  { apply outcome_unit_total, (validateRPC_total r (RPC_AppendEntriesRequest _)). }
  intros [] _. eapply parses_bind; [eapply onCopy_parses, scanEntries_parses|]. intros ? ? ->.
  eapply parses_bind; [apply readEntries_parses|]. intros es ? (-> & Hes & Hl).
  apply parses_ret. rewrite app_nil_l, app_nil_r, <- ?app_assoc. unfold decoded.
  cbn [wireMessage rpc_typed RPC_MessageType]. split_and!; try done.
  do 4 f_equal. cbn [AEReq_Entries]. unfold len. ulia.
Qed.

Lemma decodeInstallSnapshotRequest_parses (r : CodecLimits) :
  parses (decodeInstallSnapshotRequest r) (decoded MessageRaftInstallSnapshotRequest).
Proof.
  unfold decodeInstallSnapshotRequest, dec_fixed. repeat parse_step.
  apply parses_lift; [apply noTrailing_total|]. intros [] _. apply parses_lift.
  { apply outcome_unit_total, (validateRPC_total r (RPC_InstallSnapshotRequest _)). }
  intros [] _. parse_message.
Qed.

Lemma decodeMessage_parses (t : MessageType) (r : CodecLimits) :
  parses (decodeMessage t r) (decoded t).
Proof.
  unfold decodeMessage.
  repeat match goal with
  | |- parses (if ?x =? ?y then _ else _) _ => destruct (Z.eqb_spec x y) as [->|_]
  end; first [apply parses_throw | auto with nocore].
  - apply decodeHandshake_parses.
  - apply decodeHandshakeAck_parses.
  - apply decodePreVoteRequest_parses.
  - apply decodePreVoteResponse_parses.
  - apply decodeRequestVoteRequest_parses.
  - apply decodeRequestVoteResponse_parses.
  - apply decodeAppendEntriesRequest_parses.
  - apply decodeAppendEntriesResponse_parses.
  - apply decodeInstallSnapshotRequest_parses.
  - apply decodeInstallSnapshotResponse_parses.
  - apply decodeErrorResponse_parses.
Qed.

Lemma schemaVersion_agree (rpc : RPC) :
  schemaVersionForMessage (RPC_MessageType rpc) = schemaVersionForRPC rpc.
Proof. by destruct rpc. Qed.

(** An accepted payload is the wire format of a well-typed, valid message. *)
Lemma decodePayload_sound (t : MessageType) (r : CodecLimits) (payload : list byte) :
  match (decodePayload t r (mkDecoder payload 0)).1 with
  | Ok rpc => payload = wire rpc ∧ rpc_typed rpc ∧ RPC_MessageType rpc = t ∧
      validateRPC rpc r = Ok tt
  | Err _ => True
  | _ => False
  end.
Proof.
  assert (dwf (mkDecoder payload 0)) as Hd.
  { unfold dwf. simpl. pose proof (len_nonneg payload). lia. }
  unfold decodePayload, bind, get, lift. pose proof (dec_uint16_parses _ Hd) as Hv.
  destruct (dec_uint16 _) as [[v| | |] d1]; try done. destruct Hv as (Hd1 & Hp1 & bv & Hr1 & -> & _).
  destruct (Z.eqb_spec v (schemaVersionForMessage t)) as [->|]; [|done]. cbn [negb]. cbv beta iota.
  pose proof (decodeMessage_parses t r d1 Hd1) as Hm.
  destruct (decodeMessage t r d1) as [[rpc| | |] d2]; try done.
  destruct Hm as (Hd2 & Hp2 & bm & Hr2 & -> & Ht & <-).
  unfold noTrailing. destruct (Z.eqb_spec (remaining d2) 0) as [Hrem|]; [|done].
  cbn [negb]. cbv beta iota. destruct (validateRPC_total r rpc) as [Hval|[e ->]]; [|done].
  rewrite Hval. simpl fst. split_and!; try done. unfold wire. rewrite <- schemaVersion_agree.
  change (rest_of (mkDecoder payload 0)) with payload in Hr1. rewrite Hr1, Hr2.
  assert (rest_of d2 = []) as ->; [|by rewrite app_nil_r].
  apply drop_ge. unfold remaining, dwf, len in *. lia.
Qed.

(** ** Reading back *)

Create HintDb codec_readers.
#[export] Hint Unfold decodeHandshake decodeHandshakeAck decodePreVoteRequest decodePreVoteResponse
  decodeRequestVoteRequest decodeRequestVoteResponse decodeAppendEntriesResponse
  decodeInstallSnapshotResponse decodeErrorResponse : codec_readers.

Ltac apply_read :=
  lazymatch goal with
  | |- reads _ dec_uint8 _ _ => apply dec_uint8_reads
  | |- reads _ dec_uint16 _ _ => apply dec_uint16_reads
  | |- reads _ dec_uint32 _ _ => apply dec_uint32_reads
  | |- reads _ dec_uint64 _ _ => apply dec_uint64_reads
  | |- reads _ dec_boolean _ _ => apply dec_boolean_reads
  | |- reads _ (decodeUint16s _) _ _ => apply decodeUint16s_reads
  | |- reads _ (decodeUint64s _) _ _ => apply decodeUint64s_reads
  | |- reads _ (dec_fixed _) _ _ => apply dec_fixed_reads
  end; try assumption; try reflexivity.

Ltac read_step :=
  lazymatch goal with
  | |- reads _ (bind get _) _ _ => apply reads_get; intros ? ?
  | |- reads _ (bind _ _) (_ ++ _) _ => eapply reads_bind; [apply_read|]
  | |- reads _ (bind _ _) _ _ => eapply reads_last; [apply_read|]
  | |- reads _ (ret _) [] _ => apply reads_ret
  end; cbv beta iota.

Lemma decodeBorrowedEntry_reads (post : list byte) (mx : Z) (e : Entry) :
  entry_typed e → len (Entry_command e) ≤ mx → len (Entry_command e) ≤ max_uint32 →
  reads post (decodeBorrowedEntry mx) (wireEntry e) e.
Proof.
  intros (Hi & Ht & Hk) Hmx Hlen. unfold decodeBorrowedEntry, wireEntry, be_list.
  cbn [map concat]. rewrite app_nil_r, <- app_assoc. do 3 read_step.
  eapply reads_last; [by apply dec_bytes32_reads|]. destruct e. apply reads_ret.
Qed.

(** Both passes over the entries of a valid request succeed. *)
Lemma scanEntries_reads (post : list byte) (r : CodecLimits) (t i p : Z) (es : list Entry) :
  limits_ok r → Forall entry_typed es → validateAppendEntriesLoop r t i p es = Ok tt →
  reads post (scanEntries r t (length es) i p) (concat (map wireEntry es)) tt.
Proof.
  intros [_ Hc _ _] Hes. revert i p. induction Hes as [|e es He _ IH]; intros i p; [intros; apply reads_ret|].
  cbn [validateAppendEntriesLoop]. cbv zeta. repeat (case_goal; [done|]). intros Hv. apply Z.ltb_ge in Heq1.
  cbn [scanEntries length map concat]. eapply reads_bind.
  { apply decodeBorrowedEntry_reads; [done|lia|]. limit_values. ulia. }
  cbv zeta. rewrite Heq, Heq0, Heq2. by apply IH.
Qed.

Lemma readEntries_reads (post : list byte) (r : CodecLimits) (es : list Entry) :
  limits_ok r → Forall entry_typed es →
  Forall (λ e, len (Entry_command e) ≤ MaxCommandBytes r) es →
  reads post (readEntries r (length es)) (concat (map wireEntry es)) es.
Proof.
  intros [_ Hc _ _] Hes Hcmd. induction Hes as [|e es He _ IH]; [apply reads_ret|].
  apply Forall_cons in Hcmd as [Hce Hces]. cbn [readEntries length map concat].
  eapply reads_bind.
  { apply decodeBorrowedEntry_reads; [done|done|]. limit_values. ulia. }
  eapply reads_last; [by apply IH|apply reads_ret].
Qed.

Lemma onCopy_reads {A} (m : Dec A) (bs : list byte) (a : A) :
  reads [] m bs a → reads (bs ++ []) (onCopy m noTrailing) [] a.
Proof.
  intros Hm pre. unfold onCopy. rewrite app_nil_l, Hm, len_nil, Z.add_0_r.
  unfold noTrailing, remaining. cbn [D_payload D_offset]. rewrite !len_app, len_nil.
  by rewrite (proj2 (Z.eqb_eq _ 0)) by lia.
Qed.

(** The encoded entries are at least [minimumEntryBytes] each. *)
Lemma wireEntries_length (es : list Entry) :
  len es * minimumEntryBytes ≤ len (concat (map wireEntry es)).
Proof.
  induction es as [|e es IH]; [done|]. cbn [map concat]. rewrite len_app, len_cons.
  enough (minimumEntryBytes ≤ len (wireEntry e)) by lia. clear.
  unfold minimumEntryBytes, wireEntry, wireBytes, be_list. cbn [map concat]. rewrite !len_app.
  unfold len. rewrite !length_be_bytes. lia.
Qed.

Lemma decodeAppendEntriesRequest_reads (r : CodecLimits) (m : AppendEntriesRequest) :
  limits_ok r → rpc_typed (RPC_AppendEntriesRequest m) → validateAppendRequest m r = Ok tt →
  reads [] (decodeAppendEntriesRequest r) (wireMessage (RPC_AppendEntriesRequest m))
    (RPC_AppendEntriesRequest m).
Proof.
  intros Hok (Hid & Hfs & Hes). destruct m as [id t g pi pt lc es]. unfold validateAppendRequest.
  cbn [rpc_typed wireMessage AEReq_LeaderID AEReq_Term AEReq_Generation AEReq_PrevLogIndex
    AEReq_PrevLogTerm AEReq_LeaderCommit AEReq_Entries] in *.
  destruct (_ || _) eqn:Hmeta; [done|]. destruct (Z.ltb_spec (MaxAppendEntries r) (len es)) as [|Hcount]; [done|].
  intros Hloop. pose proof (lo_entries _ Hok). pose proof (len_nonneg es).
  unfold decodeAppendEntriesRequest. do 2 read_step.
  eapply reads_bind; [apply dec_uint16_reads; ulia|]. apply reads_get. intros d Hd.
  destruct (Z.ltb_spec (MaxAppendEntries r) (len es)); [lia|].
  pose proof (wireEntries_length es). rewrite len_nil in Hd.
  destruct (Z.ltb_spec (remaining d) (len es * minimumEntryBytes)); [lia|].
  cbv beta iota zeta. eapply reads_lift.
  { unfold validateAppendRequest. cbn [AEReq_LeaderID AEReq_Term AEReq_Generation
      AEReq_PrevLogIndex AEReq_PrevLogTerm AEReq_Entries]. rewrite Hmeta.
    destruct (Z.ltb_spec (MaxAppendEntries r) (len (@nil Entry))) as [Hlt|]; [|done].
    rewrite len_nil in Hlt. lia. }
  replace (Z.to_nat (len es)) with (length es) by (unfold len; lia).
  rewrite <- (app_nil_l (concat _)). eapply reads_bind.
  { apply onCopy_reads, scanEntries_reads; [done|done|]. exact Hloop. }
  eapply reads_last; [|apply reads_ret]. apply readEntries_reads; [done|done|].
  by eapply validateAppendEntriesLoop_commands.
Qed.

Lemma decodeInstallSnapshotRequest_reads (r : CodecLimits) (m : InstallSnapshotRequest) :
  limits_ok r → rpc_typed (RPC_InstallSnapshotRequest m) → validateSnapshotRequest m r = Ok tt →
  reads [] (decodeInstallSnapshotRequest r) (wireMessage (RPC_InstallSnapshotRequest m))
    (RPC_InstallSnapshotRequest m).
Proof.
  intros Hok (Hid & Ht & Htr & Hsn & Hmd & Hsv & Htl & Hck & Hof) Hv.
  assert (ISReq_TotalLength m ≤ MaxSnapshotBytes r ∧ len (ISReq_Chunk m) ≤ MaxSnapshotChunkBytes r)
    as [Htotal Hchunk].
  { revert Hv. unfold validateSnapshotRequest. cbv zeta. repeat (case_goal; [done|]).
    bool_hyps. done. }
  destruct Hok as [_ _ Hlc _].
  unfold decodeInstallSnapshotRequest. cbn [wireMessage]. do 7 read_step.
  rewrite (proj2 (Z.ltb_ge _ _)) by done. do 2 read_step.
  eapply reads_bind; [apply dec_bytes32_reads; [done|limit_values; ulia]|].
  read_step. apply reads_get. intros d Hd. eapply reads_lift.
  { unfold noTrailing. rewrite Hd. done. }
  cbv zeta. destruct m. eapply reads_lift; [exact Hv|]. apply reads_ret.
Qed.

Lemma decodeMessage_reads (r : CodecLimits) (rpc : RPC) :
  limits_ok r → rpc_typed rpc → validateRPC rpc r = Ok tt →
  reads [] (decodeMessage (RPC_MessageType rpc) r) (wireMessage rpc) rpc.
Proof.
  intros Hok Ht Hv. destruct rpc as [m|m|m|m|m|m|m|m|m|m|m]; unfold decodeMessage; cbn -[reads wireMessage].
  7: by apply decodeAppendEntriesRequest_reads.
  8: by apply decodeInstallSnapshotRequest_reads.
  all: destruct m; cbn [rpc_typed] in Ht; destruct_and?; cbn [wireMessage];
    autounfold with codec_readers; repeat read_step.
Qed.

(** The wire format of a well-typed, valid message is accepted and read back. *)
Lemma decodePayload_complete (r : CodecLimits) (rpc : RPC) :
  limits_ok r → rpc_typed rpc → validateRPC rpc r = Ok tt →
  (decodePayload (RPC_MessageType rpc) r (mkDecoder (wire rpc) 0)).1 = Ok rpc.
Proof.
  intros Hok Ht Hv.
  assert (reads [] (decodePayload (RPC_MessageType rpc) r) (wire rpc) rpc) as H.
  { unfold decodePayload, wire. eapply reads_bind.
    { apply dec_uint16_reads. destruct rpc; simpl; unfold HandshakeSchemaVersion, RPCSchemaVersion; ulia. }
    rewrite schemaVersion_agree, Z.eqb_refl. cbn [negb].
    eapply reads_last; [by apply decodeMessage_reads|]. apply reads_get. intros d Hd.
    eapply reads_lift; [by unfold noTrailing; rewrite Hd|].
    eapply reads_lift; [exact Hv|]. apply reads_ret. }
  specialize (H []). rewrite app_nil_l, app_nil_r, len_nil in H. by rewrite H.
Qed.

(** ** Main results *)

(** C27: The codec is a bijection: for a well-typed message, encoding succeeds with
    a message type and payload exactly when decoding that type and payload yields
    the message. *)
Theorem codec_bijection (l : CodecLimits) (rpc : RPC) (t : MessageType) (payload : list byte) :
  limits_typed l → rpc_typed rpc →
  (EncodeRPC (InterfaceValue rpc) l = Ok (t, payload) ↔ DecodeRPC t payload l = Ok rpc).
Proof.
  intros Hl Ht. unfold DecodeRPC.
  destruct (resolveCodecLimits_total l) as [[r Hr]|[e He]].
  2:{ unfold EncodeRPC. by rewrite He. }
  pose proof (resolveCodecLimits_ok _ _ Hl Hr) as Hok. rewrite Hr. cbn [outcome_bind].
  destruct (validateRPC_total r rpc) as [Hv|[e Hv]].
  - rewrite (EncodeRPC_valid l r rpc Hl Hr Hv). split.
    + case_goal; [done|]. intros [= <- <-]. rewrite Heq. by apply decodePayload_complete.
    + case_goal; [done|]. intros Hd. pose proof (decodePayload_sound t r payload) as Hs.
      rewrite Hd in Hs. destruct Hs as (-> & _ & <- & _). by rewrite Heq.
  - unfold EncodeRPC. rewrite Hr. cbn [outcome_bind normalizeRPC]. rewrite Hv. split; [done|].
    case_goal; [done|]. intros Hd. pose proof (decodePayload_sound t r payload) as Hs.
    rewrite Hd in Hs. destruct Hs as (_ & _ & _ & Hv'). congruence.
Qed.

(** C28: Decoding is total and exact on arbitrary bytes: it never panics or blocks,
    and an accepted payload is the unique wire format of a well-typed, valid
    message of the announced type that fits the limit. *)
Theorem DecodeRPC_sound (l : CodecLimits) (t : MessageType) (payload : list byte) :
  limits_typed l →
  match DecodeRPC t payload l with
  | Ok rpc => ∃ r, resolveCodecLimits l = Ok r ∧ payload = wire rpc ∧ rpc_typed rpc ∧
      RPC_MessageType rpc = t ∧ validateRPC rpc r = Ok tt ∧ len payload ≤ MaxEncodedBytes r
  | Err _ => True
  | Panic | Blocked => False
  end.
Proof.
  intros Hl. unfold DecodeRPC. destruct (resolveCodecLimits_total l) as [[r Hr]|[e ->]]; [|done].
  rewrite Hr. cbn [outcome_bind]. destruct (Z.ltb_spec (MaxEncodedBytes r) (len payload)); [done|].
  pose proof (decodePayload_sound t r payload) as Hs.
  destruct ((decodePayload t r (mkDecoder payload 0)).1); try done.
  destruct Hs as (? & ? & ? & ?). by exists r.
Qed.

(** C29: Encoding is exact: with resolvable limits, a message is encoded exactly
    when it is valid and its wire format fits, and the result is that wire format
    of at most [MaxRPCPayloadBytes] bytes. *)
Theorem EncodeRPC_exact (l r : CodecLimits) (rpc : RPC) :
  limits_typed l → resolveCodecLimits l = Ok r →
  match EncodeRPC (InterfaceValue rpc) l with
  | Ok (t, payload) => validateRPC rpc r = Ok tt ∧ t = RPC_MessageType rpc ∧ payload = wire rpc ∧
      len payload ≤ MaxEncodedBytes r ≤ MaxRPCPayloadBytes
  | Err e => validateRPC rpc r = Err e ∨
      (e = ErrRPCTooLarge ∧ validateRPC rpc r = Ok tt ∧ MaxEncodedBytes r < len (wire rpc))
  | Panic | Blocked => False
  end.
Proof.
  intros Hl Hr. pose proof (lo_encoded _ (resolveCodecLimits_ok _ _ Hl Hr)).
  destruct (validateRPC_total r rpc) as [Hv|[e Hv]].
  - rewrite (EncodeRPC_valid l r rpc Hl Hr Hv).
    destruct (Z.ltb_spec (MaxEncodedBytes r) (len (wire rpc))); [by right|]. split_and!; done || lia.
  - unfold EncodeRPC. rewrite Hr. cbn [outcome_bind normalizeRPC]. rewrite Hv. by left.
Qed.

(** ** Witnesses *)

Definition exAppend : AppendEntriesRequest :=
  mkAppendEntriesRequest 2 7 300 4 6 4
    [mkEntry 5 6 EntryCommand [Byte.x61; Byte.x62]; mkEntry 6 7 EntryNoOp []].

Lemma exAppend_typed : rpc_typed (RPC_AppendEntriesRequest exAppend).
Proof. repeat constructor; simpl; unfold EntryCommand, EntryNoOp; ulia. Qed.

Lemma zero_limits_typed : limits_typed CodecLimits_zero.
Proof. repeat split; simpl; ulia. Qed.

Lemma codec_bijection_witness :
  EncodeRPC (InterfaceValue (RPC_AppendEntriesRequest exAppend)) CodecLimits_zero =
    Ok (106, wire (RPC_AppendEntriesRequest exAppend)) ∧
  DecodeRPC 106 (wire (RPC_AppendEntriesRequest exAppend)) CodecLimits_zero =
    Ok (RPC_AppendEntriesRequest exAppend).
Proof.
  assert (EncodeRPC (InterfaceValue (RPC_AppendEntriesRequest exAppend)) CodecLimits_zero =
    Ok (106, wire (RPC_AppendEntriesRequest exAppend))) as H by (vm_compute; reflexivity).
  split; [exact H|].
  apply (codec_bijection CodecLimits_zero (RPC_AppendEntriesRequest exAppend) 106
    (wire (RPC_AppendEntriesRequest exAppend)) zero_limits_typed exAppend_typed). exact H.
Defined.

Lemma DecodeRPC_sound_witness :
  limits_typed CodecLimits_zero ∧
  ∃ rpc, DecodeRPC 104 (be_bytes 2 1 ++ be_bytes 2 3 ++ be_list 8 [9; 4; 2]) CodecLimits_zero = Ok rpc ∧
    rpc_typed rpc.
Proof.
  split; [exact zero_limits_typed|].
  pose proof (DecodeRPC_sound CodecLimits_zero 104 (be_bytes 2 1 ++ be_bytes 2 3 ++ be_list 8 [9; 4; 2])
    zero_limits_typed) as H.
  assert (DecodeRPC 104 (be_bytes 2 1 ++ be_bytes 2 3 ++ be_list 8 [9; 4; 2]) CodecLimits_zero =
    Ok (RPC_RequestVoteRequest (mkRequestVoteRequest 3 9 4 2))) as Hd by (vm_compute; reflexivity).
  rewrite Hd in H. eexists. split; [exact Hd|]. destruct H as (r & _ & _ & Ht & _). exact Ht.
Defined.

Lemma EncodeRPC_exact_witness :
  resolveCodecLimits CodecLimits_zero = Ok DefaultCodecLimits ∧
  (validateRPC (RPC_AppendEntriesRequest exAppend) DefaultCodecLimits = Ok tt ∧
   (106 : Z) = RPC_MessageType (RPC_AppendEntriesRequest exAppend)).
Proof.
  split; [reflexivity|].
  pose proof (EncodeRPC_exact CodecLimits_zero DefaultCodecLimits (RPC_AppendEntriesRequest exAppend)
    zero_limits_typed eq_refl) as H.
  assert (EncodeRPC (InterfaceValue (RPC_AppendEntriesRequest exAppend)) CodecLimits_zero =
    Ok (106, wire (RPC_AppendEntriesRequest exAppend))) as Hd by (vm_compute; reflexivity).
  rewrite Hd in H. destruct H as (Hv & Ht & _). split; [exact Hv|exact Ht].
Defined.

End RaftCodec.
