(* ===== verification/RaftCore.v ===== *)
(** * The Raft protocol core

    [internal/raft/core.go]: the synchronous, side-effect-free state machine of
    one voter.  [Core] is its state; every exported method and every helper is a
    definition of the same name in the state and error monad, so a state change
    made before an error return is kept, as in the code.

    Correspondence.  A Go map that may be nil is an [option]; writing to a nil map
    panics, reading and deleting do not.  A [map[uint16]struct{}] is a finite set.
    The random source is the tape of its future samples.  [core.log] is replaced,
    never shared: the trial log of [handleAppendRequest] is a fresh copy.  The
    [*outgoingSnapshotProgress] values of [outgoingSnapshots] have the map as their
    only owner.  This file holds the definitions; the theorems are in the files
    that require it. *)

From S2P Require Import Prelude Random RaftTypes RaftLog RaftVoters RaftCodec.

Module RaftCore.
Import Random RaftLog RaftVoters RaftCodec.

(** ** State *)

Record incomingSnapshotProgress := mkIncoming {
  In_metadata : snapshotTransferMetadata;
  In_nextOffset : Z;
  In_request : InstallSnapshotRequest
}.

#[global] Instance incoming_settable : Settable incomingSnapshotProgress :=
  λ r, mkIncoming (In_metadata r) (In_nextOffset r) (In_request r).

Record outgoingSnapshotProgress := mkOutgoing {
  Out_term : Z;
  Out_peerID : Z;
  Out_transferID : TransferID;
  Out_snapshot : Snapshot;
  Out_state : list byte;
  Out_nextOffset : Z;
  Out_chunkLimit : Z;
  Out_activeEnd : Z
}.

#[global] Instance outgoing_settable : Settable outgoingSnapshotProgress :=
  λ r, mkOutgoing (Out_term r) (Out_peerID r) (Out_transferID r) (Out_snapshot r) (Out_state r)
    (Out_nextOffset r) (Out_chunkLimit r) (Out_activeEnd r).

Record CoreOptions := mkCoreOptions {
  Opt_LocalID : Z;
  Opt_Voters : VoterSet;
  Opt_HardState : HardState;
  Opt_Log : option Log;
  Opt_AppliedIndex : Z;
  Opt_ElectionTimeoutMin : Z;
  Opt_ElectionTimeoutMax : Z;
  Opt_HeartbeatInterval : Z;
  Opt_MaxAppendEntries : Z;
  Opt_MaxAppendBytes : Z;
  Opt_Random : option (list Z)
}.

Record Core := mkCore {
  localID : Z;
  voters : VoterSet;
  hardState : HardState;
  log : Log;
  role : Role;
  leaderID : Z;
  now : Z;
  electionDeadline : Z;
  deadlineExhausted : bool;
  electionTimeoutMin : Z;
  electionTimeoutMax : Z;
  random : list Z;
  recentLeader : bool;
  heartbeatInterval : Z;
  heartbeatDeadline : Z;
  quorumDeadline : Z;
  quorumResponses : option (gset Z);
  appendLimits : CodecLimits;
  preVotes : option (gset Z);
  votes : option (gset Z);
  progress : option (gmap Z Progress);
  nextProposalID : Z;
  pendingProposals : option (gmap Z Entry);
  pendingProposalOrder : list Z;
  proposalAtIndex : option (gmap Z Z);
  incomingSnapshot : option incomingSnapshotProgress;
  outgoingSnapshots : option (gmap Z outgoingSnapshotProgress);
  snapshotActionDone : bool;
  pendingReady : Ready;
  hasPending : bool;
  nextToken : Z;
  terminalErr : option error
}.

#[global] Instance Core_settable : Settable Core :=
  λ c, mkCore (localID c) (voters c) (hardState c) (log c) (role c) (leaderID c) (now c)
    (electionDeadline c) (deadlineExhausted c) (electionTimeoutMin c) (electionTimeoutMax c)
    (random c) (recentLeader c) (heartbeatInterval c) (heartbeatDeadline c) (quorumDeadline c)
    (quorumResponses c) (appendLimits c) (preVotes c) (votes c) (progress c) (nextProposalID c)
    (pendingProposals c) (pendingProposalOrder c) (proposalAtIndex c) (incomingSnapshot c)
    (outgoingSnapshots c) (snapshotActionDone c) (pendingReady c) (hasPending c) (nextToken c)
    (terminalErr c).

Abbreviation CoreM A := (M Core error A) (only parsing).

(** ** Maps and loops *)

(** Reading a map that may be nil. *)
Definition lookupMap {V} (m : option (gmap Z V)) (k : Z) : option V := default ∅ m !! k.
Definition inSet (s : option (gset Z)) (k : Z) : bool := bool_decide (k ∈ default ∅ s).
Definition sizeSet (s : option (gset Z)) : Z := Z.of_nat (size (default ∅ s)).

(** Writing to a map; a nil map panics. *)
Definition putMap {V} (proj : Core → option (gmap Z V)) `{!Setter proj} (k : Z) (v : V) : CoreM unit :=
  let! c := get in
  match proj c with
  | None => panic
  | Some m => put (c <| proj := Some (<[k := v]> m) |>)
  end.

Definition putSet (proj : Core → option (gset Z)) `{!Setter proj} (k : Z) : CoreM unit :=
  let! c := get in
  match proj c with
  | None => panic
  | Some s => put (c <| proj := Some ({[k]} ∪ s) |>)
  end.

(** [delete] on a map that may be nil. *)
Definition deleteMap {V} (proj : Core → option (gmap Z V)) `{!Setter proj} (k : Z) : CoreM unit :=
  modify (λ c, c <| proj ::= fmap (delete k) |>).

(** The loop over the other voters in ascending order. *)
Definition forPeers (f : Z → CoreM unit) : CoreM unit :=
  let! c := get in
  forEach (Voters (voters c))
    (λ voter, if Voter_ID voter =? localID c then ret tt else f (Voter_ID voter)).

(** Run a log operation on the core's log. *)
Definition onLog {A} (m : M Log error A) : CoreM A := λ c,
  let '(o, l) := m (log c) in (o, c <| log := l |>).

(** ** Queueing output *)

Definition recordHardState : CoreM unit :=
  modify (λ c, c <| pendingReady ::= (λ r, r <| Ready_HardState := Some (hardState c) |>) |>
                 <| hasPending := true |>).

Definition queueEntries (es : list Entry) : CoreM unit :=
  modify (λ c, c <| pendingReady ::= (λ r, r <| Ready_Entries ::= (λ l, l ++ es) |>) |>
                 <| hasPending := true |>).

Definition queueMessage (to : Z) (rpc : RPC) (requires : DurabilityPrerequisite) : CoreM unit :=
  modify (λ c, c <| pendingReady ::=
                     (λ r, r <| Ready_Messages ::= (λ l, l ++ [mkPeerMessage to rpc requires]) |>) |>
                 <| hasPending := true |>).

Definition queueSnapshotAction (action : SnapshotAction) : CoreM unit :=
  modify (λ c, c <| pendingReady ::=
                     (λ r, r <| Ready_SnapshotActions ::= (λ l, l ++ [action]) |>) |>
                 <| hasPending := true |>).

Definition cancelIncomingSnapshot : CoreM unit :=
  let! c := get in
  match incomingSnapshot c with
  | None => ret tt
  | Some incoming =>
    modify (λ c, c <| incomingSnapshot := None |>) ;;!
    queueSnapshotAction (mkSnapshotAction SnapshotActionAbort (In_request incoming) false)
  end.

(** ** Timers *)

Definition saturatingTickAdd (now interval : Z) : Z :=
  if max_uint64 - interval <? now then max_uint64 else now + interval.

(** One draw from the random source of the core. *)
Definition drawBelow (bound : Z) : CoreM Z := λ c,
  let '(o, tape) := Uint64n bound (random c) in (o, c <| random := tape |>).

Definition sampleDeadline (now : Z) : CoreM Z :=
  let! c := get in
  let span := wrap64 (electionTimeoutMax c - electionTimeoutMin c) in
  let! offset := drawBelow span in
  let timeout := wrap64 (electionTimeoutMin c + offset) in
  if max_uint64 - timeout <? now then throw ErrDeadlineOverflow
  else ret (now + timeout).

(** Run [m] and keep the error as a value ([deadline, err := ...]). *)
Definition catch {A} (m : CoreM A) : CoreM (error + A) := λ c,
  match m c with
  | (Ok a, c') => (Ok (inr a), c')
  | (Err e, c') => (Ok (inl e), c')
  | (Panic, c') => (Panic, c')
  | (Blocked, c') => (Blocked, c')
  end.

(** ** Proposals *)

(** Remove the first occurrence. *)
Fixpoint removeFirst (proposalID : Z) (order : list Z) : list Z :=
  match order with
  | [] => []
  | pendingID :: rest =>
    if pendingID =? proposalID then rest else pendingID :: removeFirst proposalID rest
  end.

Definition removePendingProposalOrder (proposalID : Z) : CoreM unit :=
  modify (λ c, c <| pendingProposalOrder ::= removeFirst proposalID |>).

Definition resolveCommittedProposal (entry : Entry) : CoreM unit :=
  let! c := get in
  match lookupMap (proposalAtIndex c) (Entry_Index entry) with
  | None => ret tt
  | Some proposalID =>
    match lookupMap (pendingProposals c) proposalID with
    | None => deleteMap proposalAtIndex (Entry_Index entry)
    | Some proposal =>
      (if sameEntry proposal entry then
        modify (λ c, c <| pendingReady ::= (λ r, r <| Ready_CommittedProposals ::=
          (λ l, l ++ [mkCommittedProposal proposalID proposal]) |>) |>)
       else
        modify (λ c, c <| pendingReady ::= (λ r, r <| Ready_FailedProposals ::=
          (λ l, l ++ [mkFailedProposal proposalID proposal ErrProposalFailed]) |>) |>)) ;;!
      deleteMap pendingProposals proposalID ;;!
      deleteMap proposalAtIndex (Entry_Index entry) ;;!
      removePendingProposalOrder proposalID
    end
  end.

Definition failPendingProposals (reason : error) : CoreM unit :=
  let! c := get in
  forEach (pendingProposalOrder c) (λ proposalID,
    let! c := get in
    match lookupMap (pendingProposals c) proposalID with
    | None => ret tt
    | Some proposal =>
      modify (λ c, c <| pendingReady ::= (λ r, r <| Ready_FailedProposals ::=
        (λ l, l ++ [mkFailedProposal proposalID proposal reason]) |>) |>) ;;!
      deleteMap proposalAtIndex (Entry_Index proposal) ;;!
      deleteMap pendingProposals proposalID ;;!
      modify (λ c, c <| hasPending := true |>)
    end) ;;!
  modify (λ c, c <| pendingProposalOrder := [] |>).

(** ** Terms *)

Definition adoptHigherTerm (term : Z) : CoreM unit :=
  failPendingProposals ErrProposalFailed ;;!
  cancelIncomingSnapshot ;;!
  modify (λ c, c <| hardState ::= (λ h, h <| HardState_Term := term |> <| HardState_VotedFor := 0 |>) |>
                 <| role := RoleFollower |>
                 <| leaderID := 0 |>
                 <| recentLeader := false |>
                 <| preVotes := None |>
                 <| votes := None |>
                 <| progress := None |>
                 <| outgoingSnapshots := None |>
                 <| quorumResponses := None |>) ;;!
  modify (λ c, if max_uint64 - electionTimeoutMin c <? now c
               then c <| electionDeadline := max_uint64 |> <| deadlineExhausted := true |>
               else c) ;;!
  recordHardState.

Definition candidateLogIsUpToDate (c : Core) (candidateIndex candidateTerm : Z) : bool :=
  let localTerm := LastTerm (log c) in
  if negb (candidateTerm =? localTerm) then localTerm <? candidateTerm
  else lastIndex (log c) <=? candidateIndex.

Definition hasCommittedCurrentTerm (c : Core) : bool :=
  if commitIndex (log c) =? 0 then false
  else match Log_Term (log c) (commitIndex (log c)) with
  | Ok term => term =? HardState_Term (hardState c)
  | _ => false
  end.

(** ** Pre-vote and elections *)

Definition startPreVote (tick : Z) : CoreM unit :=
  let! c := get in
  if HardState_Term (hardState c) =? max_uint64 then throw ErrTermOverflow
  else
    let! deadline := sampleDeadline tick in
    let request := mkPreVoteRequest (localID c) (HardState_Term (hardState c))
      (HardState_Term (hardState c) + 1) (lastIndex (log c)) (LastTerm (log c)) in
    modify (λ c, c <| now := tick |>
                   <| electionDeadline := deadline |>
                   <| deadlineExhausted := false |>
                   <| role := RolePreCandidate |>
                   <| leaderID := 0 |>
                   <| recentLeader := false |>
                   <| preVotes := Some {[localID c]} |>
                   <| votes := None |>) ;;!
    forPeers (λ peer, queueMessage peer (RPC_PreVoteRequest request) DurabilityPrerequisite_none).

Definition isLeader (c : Core) : bool := bool_decide (role c = RoleLeader).

Definition handlePreVoteRequest (request : PreVoteRequest) : CoreM unit :=
  let! c := get in
  let granted := negb (isLeader c) && negb (recentLeader c) &&
    (HardState_Term (hardState c) <=? PVReq_CurrentTerm request) &&
    candidateLogIsUpToDate c (PVReq_LastLogIndex request) (PVReq_LastLogTerm request) in
  let response := mkPreVoteResponse (localID c) (PVReq_CandidateID request)
    (HardState_Term (hardState c)) (PVReq_CurrentTerm request) (PVReq_ProspectiveTerm request)
    granted in
  queueMessage (PVReq_CandidateID request) (RPC_PreVoteResponse response)
    DurabilityPrerequisite_none.

Definition startElection (finalPreVoter : Z) : CoreM unit :=
  let! c := get in
  if HardState_Term (hardState c) =? max_uint64 then throw ErrTermOverflow
  else
    let! deadline := sampleDeadline (now c) in
    let term := HardState_Term (hardState c) + 1 in
    let request := mkRequestVoteRequest (localID c) term (lastIndex (log c)) (LastTerm (log c)) in
    putSet preVotes finalPreVoter ;;!
    cancelIncomingSnapshot ;;!
    modify (λ c, c <| hardState ::= (λ h, h <| HardState_Term := term |>
                                            <| HardState_VotedFor := localID c |>) |>
                   <| role := RoleCandidate |>
                   <| leaderID := 0 |>
                   <| recentLeader := false |>
                   <| electionDeadline := deadline |>
                   <| deadlineExhausted := false |>
                   <| preVotes := None |>
                   <| votes := Some {[localID c]} |>) ;;!
    recordHardState ;;!
    forPeers (λ peer,
      queueMessage peer (RPC_RequestVoteRequest request) (mkDurabilityPrerequisite true 0)).

Definition handlePreVoteResponse (response : PreVoteResponse) : CoreM unit :=
  let! c := get in
  if negb (bool_decide (role c = RolePreCandidate)) ||
     negb (PVResp_CandidateID response =? localID c) ||
     negb (PVResp_RequestCurrentTerm response =? HardState_Term (hardState c)) ||
     (HardState_Term (hardState c) =? max_uint64) ||
     negb (PVResp_ProspectiveTerm response =? HardState_Term (hardState c) + 1) ||
     (HardState_Term (hardState c) <? PVResp_Term response) ||
     negb (PVResp_Granted response)
  then ret tt
  else if inSet (preVotes c) (PVResp_ResponderID response) then ret tt
  else if sizeSet (preVotes c) + 1 <? Majority (voters c) then
    putSet preVotes (PVResp_ResponderID response)
  else startElection (PVResp_ResponderID response).

Definition queueVoteResponse (request : RequestVoteRequest) (granted hardStateChanged : bool) :
    CoreM unit :=
  let! c := get in
  let response := mkRequestVoteResponse (localID c) (RVReq_CandidateID request)
    (HardState_Term (hardState c)) (RVReq_Term request) granted in
  queueMessage (RVReq_CandidateID request) (RPC_RequestVoteResponse response)
    (mkDurabilityPrerequisite hardStateChanged 0).

Definition handleVoteRequest (request : RequestVoteRequest) : CoreM unit :=
  let! c := get in
  if RVReq_Term request <? HardState_Term (hardState c) then queueVoteResponse request false false
  else
    let! hardStateChanged :=
      if HardState_Term (hardState c) <? RVReq_Term request
      then adoptHigherTerm (RVReq_Term request) ;;! ret true
      else ret false in
    let! c := get in
    let votedFor := HardState_VotedFor (hardState c) in
    let canVote := (votedFor =? 0) || (votedFor =? RVReq_CandidateID request) in
    let granted := canVote &&
      candidateLogIsUpToDate c (RVReq_LastLogIndex request) (RVReq_LastLogTerm request) in
    if granted && (votedFor =? 0) then
      modify (λ c, c <| hardState ::= (λ h, h <| HardState_VotedFor := RVReq_CandidateID request |>) |>) ;;!
      recordHardState ;;!
      queueVoteResponse request granted true
    else queueVoteResponse request granted hardStateChanged.

(** ** Replication *)

Definition readyContainsEntry (es : list Entry) (index : Z) : bool :=
  existsb (λ e, Entry_Index e =? index) es.

(** The entry loop of [issueAppend]; [n] is the number of indices left. *)
Fixpoint gatherEntries (l : Log) (limits : CodecLimits) (request : list Entry → AppendEntriesRequest)
    (n : nat) (index : Z) (gathered : list Entry) : outcome error (list Entry) :=
  match n with
  | O => Ok gathered
  | S n =>
    if len gathered =? MaxAppendEntries limits then Ok gathered
    else
      let? entry := Log_Entry l index in
      let candidate := gathered ++ [entry] in
      match EncodeRPC (InterfaceValue (RPC_AppendEntriesRequest (request candidate))) limits with
      | Ok _ =>
        if index =? max_uint64 then Ok candidate
        else gatherEntries l limits request n (index + 1) candidate
      | Err e => if error_is e ErrRPCTooLarge then Ok gathered else Err e
      | Panic => Panic
      | Blocked => Blocked
      end
  end.

Definition issueAppend (peerID : Z) : CoreM unit :=
  let! c := get in
  match lookupMap (progress c) peerID with
  | None => ret tt
  | Some p =>
    if (peerID =? localID c) || Progress_SnapshotNeeded p then ret tt
    else if Progress_Generation p =? max_uint64 then throw ErrReplicationGenerationOverflow
    else match checkedNextIndex (Progress_MatchIndex p) with
    | None => throw ErrLogOverflow
    | Some minimumNext =>
      let p := if Progress_NextIndex p <? minimumNext
               then p <| Progress_NextIndex := minimumNext |> else p in
      match checkedNextIndex (lastIndex (log c)) with
      | None => throw ErrLogOverflow
      | Some maximumNext =>
        let p := if maximumNext <? Progress_NextIndex p
                 then p <| Progress_NextIndex := maximumNext |> else p in
        if Progress_NextIndex p <=? snapshotIndex (log c) then
          putMap progress peerID
            (p <| Progress_SnapshotNeeded := true |> <| Progress_ActiveGeneration := 0 |>)
        else
          let prevIndex := wrap64 (Progress_NextIndex p - 1) in
          let! prevTerm := lift (Log_Term (log c) prevIndex) in
          let generation := Progress_Generation p + 1 in
          let request := mkAppendEntriesRequest (localID c) (HardState_Term (hardState c)) generation
            prevIndex prevTerm (commitIndex (log c)) in
          let! es := lift (gatherEntries (log c) (appendLimits c) request
            (Z.to_nat (lastIndex (log c) - Progress_NextIndex p + 1)) (Progress_NextIndex p) []) in
          let matchIndex := match last es with Some e => Entry_Index e | None => prevIndex end in
          let requires := mkDurabilityPrerequisite
            (bool_decide (is_Some (Ready_HardState (pendingReady c))))
            (match last es with
             | Some e => if readyContainsEntry (Ready_Entries (pendingReady c)) (Entry_Index e)
                         then Entry_Index e else 0
             | None => 0
             end) in
          putMap progress peerID
            (p <| Progress_Generation := generation |>
               <| Progress_ActiveGeneration := generation |>
               <| Progress_activeMatchIndex := matchIndex |>) ;;!
          queueMessage peerID (RPC_AppendEntriesRequest (request es)) requires
      end
    end
  end.

(** The loop of [queueCommittedEntries] over [n] indices from [index]. *)
Fixpoint queueCommittedLoop (n : nat) (index : Z) : CoreM unit :=
  match n with
  | O => ret tt
  | S n =>
    let! c := get in
    let! entry := lift (Log_Entry (log c) index) in
    modify (λ c, c <| pendingReady ::= (λ r, r <| Ready_CommittedEntries ::= (λ l, l ++ [entry]) |>) |>) ;;!
    resolveCommittedProposal entry ;;!
    modify (λ c, c <| hasPending := true |>) ;;!
    if index =? max_uint64 then ret tt else queueCommittedLoop n (index + 1)
  end.

Definition queueCommittedEntries (previousCommit commit : Z) : CoreM unit :=
  match checkedNextIndex previousCommit with
  | None => throw ErrLogOverflow
  | Some index => queueCommittedLoop (Z.to_nat (commit - previousCommit)) index
  end.

(** [progress := core.progress[id]], the zero value when absent. *)
Definition progressOf (c : Core) (id : Z) : Progress := default Progress_zero (lookupMap (progress c) id).

Definition countReplicas (c : Core) (candidate : Z) : Z :=
  len (filter (λ v, candidate ≤ Progress_MatchIndex (progressOf c (Voter_ID v))) (Voters (voters c))).

(** The loop of [advanceLeaderCommit] from [currentCommit + n] down. *)
Fixpoint advanceCommitLoop (currentCommit : Z) (n : nat) : CoreM unit :=
  match n with
  | O => ret tt
  | S n' =>
    let candidate := currentCommit + Z.of_nat n in
    let! c := get in
    let! term := lift (Log_Term (log c) candidate) in
    if negb (term =? HardState_Term (hardState c)) then advanceCommitLoop currentCommit n'
    else if countReplicas c candidate <? Majority (voters c)
    then advanceCommitLoop currentCommit n'
    else
      onLog (AdvanceCommit candidate) ;;!
      modify (λ c, c <| hardState ::= (λ h, h <| HardState_CommitIndex := candidate |>) |>) ;;!
      recordHardState ;;!
      queueCommittedEntries currentCommit candidate
  end.

Definition advanceLeaderCommit : CoreM unit :=
  let! c := get in
  advanceCommitLoop (commitIndex (log c)) (Z.to_nat (lastIndex (log c) - commitIndex (log c))).

(** ** Outgoing snapshots *)

(** [transfer.state[from:to]]; slicing out of range panics. *)
Definition sliceState (state : list byte) (from to : Z) : outcome error (list byte) :=
  if (from <=? to) && (to <=? len state) then
    Ok (take (Z.to_nat (to - from)) (drop (Z.to_nat from) state))
  else Panic.

Definition issueSnapshotChunk (peerID : Z) : CoreM unit :=
  let! c := get in
  match lookupMap (outgoingSnapshots c) peerID with
  | None => ret tt
  | Some transfer =>
    if negb (isLeader c) || negb (Out_term transfer =? HardState_Term (hardState c)) then ret tt
    else
      let totalLength := len (Out_state transfer) in
      if totalLength <? Out_nextOffset transfer then throw ErrInvalidCoreState
      else
        let sum := wrap64 (Out_nextOffset transfer + Out_chunkLimit transfer) in
        let end_ := if (sum <? Out_nextOffset transfer) || (totalLength <? sum)
                    then totalLength else sum in
        let! chunk := lift (sliceState (Out_state transfer) (Out_nextOffset transfer) end_) in
        let metadata := Snapshot_Metadata (Out_snapshot transfer) in
        let request := mkInstallSnapshotRequest (localID c) (Out_term transfer)
          (Out_transferID transfer) (Snapshot_ID (Out_snapshot transfer))
          (LastIncludedIndex metadata) (LastIncludedTerm metadata)
          (StateMachineSchemaVersion metadata) totalLength
          (Snapshot_StateChecksum (Out_snapshot transfer)) (Out_nextOffset transfer) chunk
          (end_ =? totalLength) in
        putMap outgoingSnapshots peerID (transfer <| Out_activeEnd := end_ |>) ;;!
        queueMessage peerID (RPC_InstallSnapshotRequest request) DurabilityPrerequisite_none
  end.

Definition clearOutgoingSnapshot (peerID : Z) : CoreM unit :=
  deleteMap outgoingSnapshots peerID ;;!
  let! c := get in
  match lookupMap (progress c) peerID with
  | None => ret tt
  | Some p =>
    putMap progress peerID
      (p <| Progress_ActiveTransferID := TransferID_zero |>
         <| Progress_ActiveSnapshotID := SnapshotID_zero |>
         <| Progress_SnapshotNextOffset := 0 |>)
  end.

(** The replication step shared by [becomeLeader] and [tickLeader]. *)
Definition replicateTo (peerID : Z) : CoreM unit :=
  let! c := get in
  match lookupMap (outgoingSnapshots c) peerID with
  | Some _ => issueSnapshotChunk peerID
  | None => issueAppend peerID
  end.

(** ** Leadership *)

(** [core.log.Append] where only the error matters. *)
Definition appendOwn (prevIndex prevTerm : Z) (entry : Entry) : CoreM unit := λ c,
  match Append prevIndex prevTerm [entry] (log c) with
  | (Ok _, l) => (Ok tt, c <| log := l |>)
  | (Err (_, e), l) => (Err e, c <| log := l |>)
  | (Panic, l) => (Panic, c <| log := l |>)
  | (Blocked, l) => (Blocked, c <| log := l |>)
  end.

Definition becomeLeader (finalVoter : Z) : CoreM unit :=
  let! c := get in
  let previousIndex := lastIndex (log c) in
  match checkedNextIndex previousIndex with
  | None => throw ErrLogOverflow
  | Some newIndex =>
    match checkedNextIndex newIndex with
    | None => throw ErrLogOverflow
    | Some selfNext =>
      let! entry := lift (NewEntry newIndex (HardState_Term (hardState c)) EntryNoOp []) in
      appendOwn previousIndex (LastTerm (log c)) entry ;;!
      putSet votes finalVoter ;;!
      modify (λ c, c <| role := RoleLeader |>
                     <| leaderID := localID c |>
                     <| preVotes := None |>
                     <| recentLeader := false |>
                     <| progress := Some {[localID c := Progress_zero
                          <| Progress_MatchIndex := newIndex |> <| Progress_NextIndex := selfNext |>]} |>
                     <| quorumResponses := Some ∅ |>
                     <| heartbeatDeadline := saturatingTickAdd (now c) (heartbeatInterval c) |>
                     <| quorumDeadline := saturatingTickAdd (now c) (electionTimeoutMin c) |>) ;;!
      queueEntries [entry] ;;!
      forPeers (λ peer,
        putMap progress peer (Progress_zero <| Progress_NextIndex := newIndex |>) ;;!
        replicateTo peer)
    end
  end.

Definition handleVoteResponse (response : RequestVoteResponse) : CoreM unit :=
  let! c := get in
  if negb (RVResp_CandidateID response =? localID c) ||
     negb (bool_decide (role c = RoleCandidate)) ||
     negb (RVResp_RequestTerm response =? HardState_Term (hardState c))
  then ret tt
  else if HardState_Term (hardState c) <? RVResp_Term response
  then adoptHigherTerm (RVResp_Term response)
  else if negb (RVResp_Term response =? HardState_Term (hardState c)) || negb (RVResp_Granted response)
  then ret tt
  else if inSet (votes c) (RVResp_ResponderID response) then ret tt
  else if sizeSet (votes c) + 1 <? Majority (voters c) then
    putSet votes (RVResp_ResponderID response)
  else becomeLeader (RVResp_ResponderID response).

(** The outcome of sampling a deadline that falls back to the last tick:
    the deadline and whether it is exhausted. *)
Definition deadlineOrLast (r : error + Z) : outcome error (Z * bool) :=
  match r with
  | inr deadline => Ok (deadline, false)
  | inl e => if error_is e ErrDeadlineOverflow then Ok (max_uint64, true) else Err e
  end.

Definition stepDownWithoutTermChange (tick : Z) : CoreM unit :=
  let! r := catch (sampleDeadline tick) in
  let! (deadline, exhausted) := lift (deadlineOrLast r) in
  modify (λ c, c <| deadlineExhausted := exhausted |>
                 <| role := RoleFollower |>
                 <| leaderID := 0 |>
                 <| recentLeader := false |>
                 <| progress := None |>
                 <| outgoingSnapshots := None |>
                 <| quorumResponses := None |>
                 <| electionDeadline := deadline |>) ;;!
  failPendingProposals ErrProposalFailed.

(** A peer whose request generation cannot grow blocks a heartbeat round. *)
Definition generationExhausted (c : Core) (checkSnapshot : bool) : bool :=
  existsb (λ v, negb (Voter_ID v =? localID c) &&
      negb (checkSnapshot && Progress_SnapshotNeeded (progressOf c (Voter_ID v))) &&
      (Progress_Generation (progressOf c (Voter_ID v)) =? max_uint64))
    (Voters (voters c)).

Definition tickLeader (tick : Z) : CoreM unit :=
  let! c := get in
  if (quorumDeadline c <=? tick) && (1 + sizeSet (quorumResponses c) <? Majority (voters c)) then
    modify (λ c, c <| now := tick |>) ;;!
    stepDownWithoutTermChange tick
  else if (heartbeatDeadline c <=? tick) && generationExhausted c true then
    throw ErrReplicationGenerationOverflow
  else
    modify (λ c, c <| now := tick |>) ;;!
    (if quorumDeadline c <=? tick then
      modify (λ c, c <| quorumResponses := Some ∅ |>
                     <| quorumDeadline := saturatingTickAdd tick (electionTimeoutMin c) |>)
     else ret tt) ;;!
    if tick <? heartbeatDeadline c then ret tt
    else
      forPeers replicateTo ;;!
      modify (λ c, c <| heartbeatDeadline := saturatingTickAdd tick (heartbeatInterval c) |>).

Definition handleLeaderContact (leader term : Z) : CoreM unit :=
  let! c := get in
  if term <? HardState_Term (hardState c) then ret tt
  else
    let! r := catch (sampleDeadline (now c)) in
    let! (deadline, exhausted) := lift (deadlineOrLast r) in
    (match incomingSnapshot c with
     | Some incoming =>
       if negb (STM_term (In_metadata incoming) =? term) ||
          negb (STM_leaderID (In_metadata incoming) =? leader)
       then cancelIncomingSnapshot else ret tt
     | None => ret tt
     end) ;;!
    (if HardState_Term (hardState c) <? term then adoptHigherTerm term
     else if isLeader c && negb (leader =? localID c) then failPendingProposals ErrProposalFailed
     else ret tt) ;;!
    modify (λ c, c <| role := RoleFollower |>
                   <| leaderID := leader |>
                   <| recentLeader := true |>
                   <| preVotes := None |>
                   <| votes := None |>
                   <| progress := None |>
                   <| outgoingSnapshots := None |>
                   <| quorumResponses := None |>
                   <| electionDeadline := deadline |>
                   <| deadlineExhausted := exhausted |>).

(** ** Incoming snapshots *)

Definition abortSnapshot (request : InstallSnapshotRequest) : CoreM unit :=
  queueSnapshotAction (mkSnapshotAction SnapshotActionAbort request false).

Definition handleInstallSnapshotRequest (request : InstallSnapshotRequest) : CoreM unit :=
  let! c := get in
  if ISReq_Term request <? HardState_Term (hardState c) then
    queueMessage (ISReq_LeaderID request)
      (RPC_InstallSnapshotResponse (mkInstallSnapshotResponse (localID c) (ISReq_LeaderID request)
        (HardState_Term (hardState c)) (ISReq_Term request) (ISReq_TransferID request)
        (ISReq_SnapshotID request) 0 false false)) DurabilityPrerequisite_none
  else
    let hardStateChanged := HardState_Term (hardState c) <? ISReq_Term request in
    let authorityChanged := match incomingSnapshot c with
      | Some incoming => negb (STM_term (In_metadata incoming) =? ISReq_Term request) ||
          negb (STM_leaderID (In_metadata incoming) =? ISReq_LeaderID request)
      | None => false
      end in
    handleLeaderContact (ISReq_LeaderID request) (ISReq_Term request) ;;!
    if authorityChanged then ret tt
    else
      let! c := get in
      if ISReq_LastIncludedIndex request <=? commitIndex (log c) then
        cancelIncomingSnapshot ;;!
        queueMessage (ISReq_LeaderID request)
          (RPC_InstallSnapshotResponse (mkInstallSnapshotResponse (localID c)
            (ISReq_LeaderID request) (HardState_Term (hardState c)) (ISReq_Term request)
            (ISReq_TransferID request) (ISReq_SnapshotID request) (ISReq_TotalLength request)
            true true)) (mkDurabilityPrerequisite hardStateChanged 0)
      else
        let metadata := snapshotTransferMetadataFor request in
        let fresh := mkIncoming metadata 0 request in
        (* the transfer to continue, and whether it replaces another one *)
        let transfer := match incomingSnapshot c with
          | None => if negb (ISReq_Offset request =? 0) then None else Some (fresh, false)
          | Some incoming =>
            if bool_decide (In_metadata incoming = metadata) then Some (incoming, false)
            else if negb (ISReq_Offset request =? 0) then None else Some (fresh, true)
          end in
        match transfer with
        | None => abortSnapshot request
        | Some (incoming, reset) =>
          modify (λ c, c <| incomingSnapshot := Some incoming |>) ;;!
          let nextOffset := In_nextOffset incoming in
          let end_ := wrap64 (ISReq_Offset request + len (ISReq_Chunk request)) in
          if (nextOffset <? ISReq_Offset request) ||
             ((ISReq_Offset request <? nextOffset) && (nextOffset <? end_))
          then abortSnapshot request
          else
            modify (λ c, c <| incomingSnapshot := Some (incoming <| In_request := request |>) |>) ;;!
            queueSnapshotAction (mkSnapshotAction SnapshotActionStage request reset)
        end.

Definition snapshotResponse (c : Core) (request : InstallSnapshotRequest) (success done_ : bool)
    (nextOffset : Z) : PeerMessage :=
  mkPeerMessage (ISReq_LeaderID request)
    (RPC_InstallSnapshotResponse (mkInstallSnapshotResponse (localID c) (ISReq_LeaderID request)
      (HardState_Term (hardState c)) (ISReq_Term request) (ISReq_TransferID request)
      (ISReq_SnapshotID request) nextOffset success done_)) DurabilityPrerequisite_none.

Definition handleInstallSnapshotResponse (response : InstallSnapshotResponse) : CoreM unit :=
  let! c := get in
  let peer := ISResp_ResponderID response in
  if negb (isLeader c) || negb (ISResp_LeaderID response =? localID c) then ret tt
  else match lookupMap (outgoingSnapshots c) peer with
  | None => ret tt
  | Some transfer =>
    let totalLength := len (Out_state transfer) in
    let next := ISResp_NextOffset response in
    if negb (ISResp_RequestTerm response =? Out_term transfer) ||
       negb (bool_decide (ISResp_TransferID response = Out_transferID transfer)) ||
       negb (bool_decide (ISResp_SnapshotID response = Snapshot_ID (Out_snapshot transfer)))
    then ret tt
    else if HardState_Term (hardState c) <? ISResp_Term response
    then adoptHigherTerm (ISResp_Term response)
    else if negb (ISResp_Term response =? HardState_Term (hardState c)) then ret tt
    else if
      if ISResp_Success response then
        if ISResp_Done response then negb (next =? totalLength)
        else negb (next =? Out_activeEnd transfer) || (totalLength <=? next)
      else
        ((totalLength =? 0) && negb (next =? 0)) ||
        (negb (totalLength =? 0) && ((totalLength <=? next) || (Out_nextOffset transfer <? next)))
    then ret tt
    else
      putSet quorumResponses peer ;;!
      putMap outgoingSnapshots peer (transfer <| Out_nextOffset := next |>) ;;!
      let p := progressOf c peer in
      if negb (ISResp_Success response) then
        putMap progress peer
          (if Progress_SnapshotNextOffset p <? next
           then p <| Progress_SnapshotNextOffset := next |> else p) ;;!
        issueSnapshotChunk peer
      else
        putMap progress peer (p <| Progress_SnapshotNextOffset := next |>) ;;!
        if negb (ISResp_Done response) then issueSnapshotChunk peer
        else
          let includedIndex := LastIncludedIndex (Snapshot_Metadata (Out_snapshot transfer)) in
          clearOutgoingSnapshot peer ;;!
          let! c := get in
          let p := progressOf c peer in
          let p := if Progress_MatchIndex p <? includedIndex
                   then p <| Progress_MatchIndex := includedIndex |> else p in
          match checkedNextIndex (Progress_MatchIndex p) with
          | None => throw ErrLogOverflow
          | Some nextIndex =>
            putMap progress peer
              (p <| Progress_NextIndex := nextIndex |> <| Progress_SnapshotNeeded := false |>) ;;!
            advanceLeaderCommit ;;!
            issueAppend peer
          end
  end.

(** ** AppendEntries *)

Definition queueAppendResponse (request : AppendEntriesRequest) (success : bool) (matchIndex : Z)
    (hint : ConflictHint) (requires : DurabilityPrerequisite) : CoreM unit :=
  let! c := get in
  queueMessage (AEReq_LeaderID request)
    (RPC_AppendEntriesResponse (mkAppendEntriesResponse (localID c) (AEReq_LeaderID request)
      (HardState_Term (hardState c)) (AEReq_Term request) (AEReq_Generation request) success
      matchIndex (Hint_Term hint) (Hint_Index hint))) requires.

(** The offset of the first difference below [shared]. *)
Fixpoint firstChangedLoop (before after : list Entry) : nat :=
  match before, after with
  | b :: before', a :: after' => if sameEntry b a then S (firstChangedLoop before' after') else O
  | _, _ => O
  end.

Definition changedLogEntries (before after : list Entry) : list Entry :=
  let shared := Nat.min (length before) (length after) in
  let firstChanged := firstChangedLoop before after in
  if (Nat.eqb firstChanged shared) && (Nat.eqb (length after) (length before)) then []
  else drop firstChanged after.

(** The three rejections a follower answers instead of failing. *)
Definition isRejection (e : error) : bool :=
  error_is e ErrLogUnavailable || error_is e ErrLogCompacted || error_is e ErrLogMismatch.

Definition handleAppendRequest (request : AppendEntriesRequest) : CoreM unit :=
  let! c := get in
  if AEReq_Term request <? HardState_Term (hardState c) then
    let conflictIndex := default (lastIndex (log c)) (checkedNextIndex (lastIndex (log c))) in
    queueAppendResponse request false 0 (mkConflictHint 0 conflictIndex) DurabilityPrerequisite_none
  else
    let before := State (log c) in
    let! trialLog := lift (NewLog (LS_SnapshotIndex before) (LS_SnapshotTerm before)
      (LS_CommitIndex before) (LS_AppliedIndex before) (LS_Entries before)) in
    let '(result, trialLog) :=
      Append (AEReq_PrevLogIndex request) (AEReq_PrevLogTerm request) (AEReq_Entries request) trialLog in
    let hardStateChanged := HardState_Term (hardState c) <? AEReq_Term request in
    match result with
    | Panic => panic
    | Blocked => lift Blocked
    | Err (hint, e) =>
      if negb (isRejection e) then throw e
      else
        handleLeaderContact (AEReq_LeaderID request) (AEReq_Term request) ;;!
        queueAppendResponse request false 0 hint (mkDurabilityPrerequisite hardStateChanged 0)
    | Ok _ =>
      handleLeaderContact (AEReq_LeaderID request) (AEReq_Term request) ;;!
      modify (λ c, c <| log := trialLog |>) ;;!
      let lastVerified := match last (AEReq_Entries request) with
        | Some e => Entry_Index e
        | None => AEReq_PrevLogIndex request
        end in
      let previousCommit := commitIndex trialLog in
      let commit := if lastVerified <? AEReq_LeaderCommit request then lastVerified
                    else AEReq_LeaderCommit request in
      let! hardStateChanged :=
        if previousCommit <? commit then
          onLog (AdvanceCommit commit) ;;!
          modify (λ c, c <| hardState ::= (λ h, h <| HardState_CommitIndex := commit |>) |>) ;;!
          recordHardState ;;!
          queueCommittedEntries previousCommit commit ;;!
          ret true
        else ret hardStateChanged in
      let! c := get in
      let changed := changedLogEntries (LS_Entries before) (entries (log c)) in
      let! entriesThrough :=
        match last changed with
        | None => ret 0
        | Some e => queueEntries changed ;;! ret (Entry_Index e)
        end in
      queueAppendResponse request true lastVerified noHint
        (mkDurabilityPrerequisite hardStateChanged entriesThrough)
    end.

Definition handleAppendResponse (response : AppendEntriesResponse) : CoreM unit :=
  let! c := get in
  let peer := AEResp_ResponderID response in
  if negb (isLeader c) || negb (AEResp_LeaderID response =? localID c) ||
     negb (AEResp_RequestTerm response =? HardState_Term (hardState c))
  then ret tt
  else match lookupMap (progress c) peer with
  | None => ret tt
  | Some p =>
    if negb (AEResp_Generation response =? Progress_ActiveGeneration p) then ret tt
    else if AEResp_Success response &&
       negb (AEResp_MatchIndex response =? Progress_activeMatchIndex p) then ret tt
    else
      let p := p <| Progress_ActiveGeneration := 0 |> <| Progress_activeMatchIndex := 0 |> in
      if HardState_Term (hardState c) <? AEResp_Term response then
        putMap progress peer p ;;!
        putSet quorumResponses peer ;;!
        adoptHigherTerm (AEResp_Term response)
      else if AEResp_Success response then
        let p := if Progress_MatchIndex p <? AEResp_MatchIndex response
                 then p <| Progress_MatchIndex := AEResp_MatchIndex response |> else p in
        match checkedNextIndex (Progress_MatchIndex p) with
        | None => throw ErrLogOverflow
        | Some nextIndex =>
          let p := if Progress_NextIndex p <? nextIndex
                   then p <| Progress_NextIndex := nextIndex |> else p in
          let p := p <| Progress_SnapshotNeeded := false |> in
          let more := Progress_NextIndex p <=? lastIndex (log c) in
          if more && (Progress_Generation p =? max_uint64) then
            throw ErrReplicationGenerationOverflow
          else
            putMap progress peer p ;;!
            putSet quorumResponses peer ;;!
            advanceLeaderCommit ;;!
            if more then issueAppend peer else ret tt
        end
      else
        let! nextIndex :=
          if negb (AEResp_ConflictTerm response =? 0) then
            match LastIndexOfTerm (log c) (AEResp_ConflictTerm response) with
            | Some last => match checkedNextIndex last with
              | Some next => ret next
              | None => throw ErrLogOverflow
              end
            | None => ret (AEResp_ConflictIndex response)
            end
          else ret (AEResp_ConflictIndex response) in
        match checkedNextIndex (lastIndex (log c)), checkedNextIndex (Progress_MatchIndex p) with
        | Some maximumNext, Some minimumNext =>
          let nextIndex := if maximumNext <? nextIndex then maximumNext else nextIndex in
          let nextIndex := if nextIndex <? minimumNext then minimumNext else nextIndex in
          let p := p <| Progress_NextIndex := nextIndex |> in
          if nextIndex <=? snapshotIndex (log c) then
            putMap progress peer (p <| Progress_SnapshotNeeded := true |>) ;;!
            putSet quorumResponses peer
          else if Progress_Generation p =? max_uint64 then throw ErrReplicationGenerationOverflow
          else
            putMap progress peer (p <| Progress_SnapshotNeeded := false |>) ;;!
            putSet quorumResponses peer ;;!
            issueAppend peer
        | _, _ => throw ErrLogOverflow
        end
  end.

(** ** Exported operations *)

(** Guards shared by the operations that need a quiescent core. *)
Definition requireIdle : CoreM unit :=
  let! c := get in
  match terminalErr c with
  | Some e => throw e
  | None => if hasPending c then throw ErrReadyOutstanding else ret tt
  end.

Definition Tick (tick : Z) : CoreM unit :=
  requireIdle ;;!
  let! c := get in
  if tick <? now c then throw ErrTickRegression
  else if isLeader c then tickLeader tick
  else if deadlineExhausted c then modify (λ c, c <| now := tick |>)
  else if tick <? electionDeadline c then modify (λ c, c <| now := tick |>)
  else startPreVote tick.

Definition Step (senderID : Z) (rpc : interfaceRPC) : CoreM unit :=
  requireIdle ;;!
  let! c := get in
  lift (ValidateRPCSender rpc senderID (voters c)) ;;!
  match normalizeRPC rpc with
  | None => throw ErrInvalidRPC
  | Some rpc =>
    (match rpc with
     | RPC_AppendEntriesRequest _ =>
       let! _ := lift (EncodeRPC (InterfaceValue rpc) (appendLimits c)) in ret tt
     | _ => lift (validateRPC rpc DefaultCodecLimits)
     end) ;;!
    match rpc with
    | RPC_PreVoteRequest m => handlePreVoteRequest m
    | RPC_PreVoteResponse m => handlePreVoteResponse m
    | RPC_RequestVoteRequest m => handleVoteRequest m
    | RPC_RequestVoteResponse m => handleVoteResponse m
    | RPC_AppendEntriesRequest m => handleAppendRequest m
    | RPC_InstallSnapshotRequest m => handleInstallSnapshotRequest m
    | RPC_AppendEntriesResponse m => handleAppendResponse m
    | RPC_InstallSnapshotResponse m => handleInstallSnapshotResponse m
    | RPC_ErrorResponse _ | RPC_Handshake _ | RPC_HandshakeAck _ => ret tt
    end
  end.

Definition proposeTracked (kind : EntryKind) (command : list byte) : CoreM (ProposalID * Entry) :=
  requireIdle ;;!
  let! c := get in
  if negb (isLeader c) then throw ErrNotLeader
  else if negb (hasCommittedCurrentTerm c) then throw ErrLeadershipNotAuthorized
  else if MaxCommandBytes (appendLimits c) <? len command then throw ErrRPCTooLarge
  else if nextProposalID c =? max_uint64 then throw ErrProposalIdentityOverflow
  else if generationExhausted c false then throw ErrReplicationGenerationOverflow
  else
    let previousIndex := lastIndex (log c) in
    match checkedNextIndex previousIndex with
    | None => throw ErrLogOverflow
    | Some newIndex =>
      match checkedNextIndex newIndex with
      | None => throw ErrLogOverflow
      | Some selfNext =>
        let! entry := lift (NewEntry newIndex (HardState_Term (hardState c)) kind command) in
        appendOwn previousIndex (LastTerm (log c)) entry ;;!
        let proposalID := nextProposalID c + 1 in
        modify (λ c, c <| nextProposalID := proposalID |>) ;;!
        modify (λ c, match pendingProposals c with
          | None => c <| pendingProposals := Some ∅ |> <| proposalAtIndex := Some ∅ |>
          | Some _ => c
          end) ;;!
        putMap pendingProposals proposalID entry ;;!
        modify (λ c, c <| pendingProposalOrder ::= (λ l, l ++ [proposalID]) |>) ;;!
        putMap proposalAtIndex (Entry_Index entry) proposalID ;;!
        putMap progress (localID c) (Progress_zero <| Progress_MatchIndex := newIndex |>
                                                   <| Progress_NextIndex := selfNext |>) ;;!
        queueEntries [entry] ;;!
        forPeers issueAppend ;;!
        ret (proposalID, entry)
      end
    end.

Definition ProposeEntry (command : list byte) : CoreM Entry :=
  let! (_, entry) := proposeTracked EntryCommand command in ret entry.

Definition Core_Ready : CoreM (option Ready) :=
  let! c := get in
  if negb (hasPending c) then ret None
  else if Ready_Token (pendingReady c) =? 0 then
    if nextToken c =? max_uint64 then
      modify (λ c, c <| terminalErr := Some ErrReadyTokenExhausted |>) ;;! ret None
    else
      modify (λ c, c <| nextToken := nextToken c + 1 |>
                     <| pendingReady ::= (λ r, r <| Ready_Token := nextToken c + 1 |>) |>) ;;!
      let! c := get in ret (Some (pendingReady c))
  else ret (Some (pendingReady c)).

Definition Advance (token : ReadyToken) : CoreM unit :=
  let! c := get in
  match terminalErr c with
  | Some e => throw e
  | None =>
    if negb (hasPending c) || (token =? 0) || negb (token =? Ready_Token (pendingReady c))
    then throw ErrAdvanceToken
    else if negb (len (Ready_SnapshotActions (pendingReady c)) =? 0) && negb (snapshotActionDone c)
    then throw ErrReadyOutstanding
    else
      (match last (Ready_CommittedEntries (pendingReady c)) with
       | None => ret tt
       | Some e => onLog (AdvanceApplied (Entry_Index e))
       end) ;;!
      modify (λ c, c <| pendingReady := Ready_zero |> <| hasPending := false |>
                     <| snapshotActionDone := false |>)
  end.

Definition Core_Status (c : Core) : Status :=
  mkStatus (role c) (HardState_Term (hardState c)) (leaderID c) (commitIndex (log c))
    (appliedIndex (log c)) (lastIndex (log c)).

(** The progress of a peer that compaction left behind the log. *)
Definition markSnapshotNeeded (local base : Z) (peerID : Z) (p : Progress) : Progress :=
  if negb (peerID =? local) && (Progress_NextIndex p <=? base) then
    p <| Progress_SnapshotNeeded := true |>
      <| Progress_ActiveGeneration := 0 |>
      <| Progress_activeMatchIndex := 0 |>
      <| Progress_ActiveTransferID := TransferID_zero |>
      <| Progress_ActiveSnapshotID := SnapshotID_zero |>
      <| Progress_SnapshotNextOffset := 0 |>
  else p.

(** The loop over [core.progress] updates every key on its own, so its order does
    not matter. *)
Definition CompactSnapshot (metadata : SnapshotMetadata) : CoreM unit :=
  requireIdle ;;!
  onLog (Compact (LastIncludedIndex metadata) (LastIncludedTerm metadata)) ;;!
  modify (λ c, if isLeader c then
      c <| outgoingSnapshots := None |>
        <| progress ::= option_map (map_imap (λ peerID p,
             Some (markSnapshotNeeded (localID c) (snapshotIndex (log c)) peerID p))) |>
    else c).

Definition StartSnapshotTransfer (peerID : Z) (snapshot : Snapshot) (transferID : TransferID)
    (chunkLimit : Z) : CoreM unit :=
  requireIdle ;;!
  let! c := get in
  if negb (isLeader c) then throw ErrNotLeader
  else match lookupMap (progress c) peerID with
  | None => throw ErrInvalidCoreState
  | Some p =>
    if (peerID =? localID c) || negb (Progress_SnapshotNeeded p) then throw ErrInvalidCoreState
    else if TransferID_IsZero transferID then throw ErrInvalidCoreState
    else if (chunkLimit =? 0) || (MaxRaftSnapshotChunkBytes <? chunkLimit)
    then throw ErrInvalidCoreState
    else if negb (LastIncludedIndex (Snapshot_Metadata snapshot) =? snapshotIndex (log c)) ||
       negb (LastIncludedTerm (Snapshot_Metadata snapshot) =? snapshotTerm (log c)) ||
       isZeroArray 16 (Snapshot_ID snapshot)
    then throw ErrInvalidCoreState
    else
      modify (λ c, match outgoingSnapshots c with
        | None => c <| outgoingSnapshots := Some ∅ |>
        | Some _ => c
        end) ;;!
      if bool_decide (is_Some (lookupMap (outgoingSnapshots c) peerID))
      then throw ErrInvalidCoreState
      else
        putMap outgoingSnapshots peerID
          (mkOutgoing (HardState_Term (hardState c)) peerID transferID snapshot
            (Snapshot_state snapshot) 0 chunkLimit 0) ;;!
        putMap progress peerID
          (p <| Progress_ActiveTransferID := transferID |>
             <| Progress_ActiveSnapshotID := Snapshot_ID snapshot |>
             <| Progress_SnapshotNextOffset := 0 |>) ;;!
        issueSnapshotChunk peerID
  end.

(** Whether the installed state is the one the action asked for. *)
Definition installedMatches (c : Core) (request : InstallSnapshotRequest) (state : RecoveredState) :
    bool :=
  let metadata := STM_metadata (snapshotTransferMetadataFor request) in
  match RS_Snapshot state with
  | None => false
  | Some snapshot =>
    bool_decide (Snapshot_ID snapshot = ISReq_SnapshotID request) &&
    bool_decide (Snapshot_Metadata snapshot = metadata) &&
    bool_decide (Snapshot_StateChecksum snapshot = ISReq_Checksum request) &&
    bool_decide (RS_SnapshotBase state = metadata) &&
    (HardState_Term (RS_HardState state) =? HardState_Term (hardState c)) &&
    (HardState_VotedFor (RS_HardState state) =? HardState_VotedFor (hardState c)) &&
    negb (HardState_CommitIndex (RS_HardState state) <? ISReq_LastIncludedIndex request) &&
    negb (RS_AppliedIndex state <? ISReq_LastIncludedIndex request)
  end.

(** [ErrInvalidCoreState] wraps the detail of an inner failure. *)
Definition asInvalidCore {A} (o : outcome error A) : outcome error A :=
  match o with Err _ => Err ErrInvalidCoreState | _ => o end.

Definition finishAction (request : InstallSnapshotRequest) (success done_ : bool) (nextOffset : Z) :
    CoreM PeerMessage :=
  modify (λ c, c <| snapshotActionDone := true |>) ;;!
  let! c := get in
  ret (snapshotResponse c request success done_ nextOffset).

Definition CompleteSnapshotAction (token : ReadyToken) (result : SnapshotActionResult) :
    CoreM PeerMessage :=
  let! c := get in
  match terminalErr c with
  | Some e => throw e
  | None =>
    match Ready_SnapshotActions (pendingReady c) with
    | [action] =>
      if negb (hasPending c) || (token =? 0) || negb (token =? Ready_Token (pendingReady c)) ||
         snapshotActionDone c
      then throw ErrAdvanceToken
      else
        let request := SA_Request action in
        if bool_decide (SA_Kind action = SnapshotActionAbort) then
          modify (λ c, c <| incomingSnapshot := None |>) ;;!
          finishAction request false false 0
        else match incomingSnapshot c with
        | None => throw ErrInvalidCoreState
        | Some incoming =>
          if negb (bool_decide (In_metadata incoming = snapshotTransferMetadataFor request))
          then throw ErrInvalidCoreState
          else if SAR_Rejected result then
            modify (λ c, c <| incomingSnapshot := None |>) ;;!
            finishAction request false false 0
          else
            let end_ := wrap64 (ISReq_Offset request + len (ISReq_Chunk request)) in
            let current := In_nextOffset incoming in
            if negb (ISReq_Offset request =? current) && (current <? end_)
            then throw ErrInvalidCoreState
            else
              let wantNext := if ISReq_Offset request =? current then end_ else current in
              if negb (SAR_NextOffset result =? wantNext) ||
                 (ISReq_TotalLength request <? SAR_NextOffset result)
              then throw ErrInvalidCoreState
              else if negb (SAR_Done result) then
                if ISReq_Done request || (SAR_NextOffset result =? ISReq_TotalLength request)
                then throw ErrInvalidCoreState
                else
                  modify (λ c, c <| incomingSnapshot :=
                    Some (incoming <| In_nextOffset := SAR_NextOffset result |>) |>) ;;!
                  finishAction request true false (SAR_NextOffset result)
              else if negb (ISReq_Done request) ||
                 negb (SAR_NextOffset result =? ISReq_TotalLength request)
              then throw ErrInvalidCoreState
              else if negb (installedMatches c request (SAR_State result))
              then throw ErrInvalidCoreState
              else
                let state := SAR_State result in
                let! installed := lift (asInvalidCore (NewLog
                  (LastIncludedIndex (RS_SnapshotBase state)) (LastIncludedTerm (RS_SnapshotBase state))
                  (HardState_CommitIndex (RS_HardState state)) (RS_AppliedIndex state)
                  (RS_Entries state))) in
                modify (λ c, c <| log := installed |>
                               <| hardState := RS_HardState state |>
                               <| incomingSnapshot := None |>) ;;!
                finishAction request true true (SAR_NextOffset result)
        end
    | _ => throw ErrAdvanceToken
    end
  end.

(** The append limits of the options. *)
Definition optionLimits (options : CoreOptions) : CodecLimits :=
  let defaults := DefaultCodecLimits in
  mkCodecLimits
    (limitOr (Opt_MaxAppendEntries options) (MaxAppendEntries defaults))
    (MaxCommandBytes defaults) (MaxSnapshotChunkBytes defaults) (MaxSnapshotBytes defaults)
    (limitOr (Opt_MaxAppendBytes options) (MaxEncodedBytes defaults)).

(** A recovered vote names a voter in a nonzero term. *)
Definition validRecoveredVote (options : CoreOptions) : bool :=
  let h := Opt_HardState options in
  (HardState_VotedFor h =? 0) ||
  (negb (HardState_Term h =? 0) && Contains (Opt_Voters options) (HardState_VotedFor h)).

Definition NewCore (options : CoreOptions) : outcome error Core :=
  if negb (is_Ok (ValidateLocalID (Opt_Voters options) (Opt_LocalID options)))
  then Err ErrInvalidCoreState
  else match Opt_Log options, Opt_Random options with
  | Some recovered, Some tape =>
    let minimum := Opt_ElectionTimeoutMin options in
    if (minimum =? 0) || (Opt_ElectionTimeoutMax options <=? minimum) then Err ErrInvalidCoreState
    else
      let heartbeat := limitOr (Opt_HeartbeatInterval options) 1 in
      if minimum <=? heartbeat then Err ErrInvalidCoreState
      else
        let limits := optionLimits options in
        let probe := mkAppendEntriesRequest (Opt_LocalID options) 1 1 0 0 0 [] in
        let? _ := asInvalidCore
          (EncodeRPC (InterfaceValue (RPC_AppendEntriesRequest probe)) limits) in
        let state := State recovered in
        if negb (LS_CommitIndex state =? HardState_CommitIndex (Opt_HardState options))
        then Err ErrInvalidCoreState
        else if negb (LS_AppliedIndex state =? Opt_AppliedIndex options) then Err ErrInvalidCoreState
        else if negb (validRecoveredVote options) then Err ErrInvalidCoreState
        else if HardState_Term (Opt_HardState options) <? LastTerm recovered
        then Err ErrInvalidCoreState
        else
          let? ownedLog := asInvalidCore (NewLog (LS_SnapshotIndex state) (LS_SnapshotTerm state)
            (LS_CommitIndex state) (LS_AppliedIndex state) (LS_Entries state)) in
          let core := mkCore (Opt_LocalID options) (Opt_Voters options) (Opt_HardState options)
            ownedLog RoleFollower 0 0 0 false minimum (Opt_ElectionTimeoutMax options) tape false
            heartbeat 0 0 None limits None None None 0 None [] None None None false Ready_zero false
            0 None in
          let '(sampled, core) := sampleDeadline 0 core in
          let? deadline := asInvalidCore sampled in
          Ok (core <| electionDeadline := deadline |>)
  | _, _ => Err ErrInvalidCoreState
  end.

End RaftCore.
