(* ===== verification/RaftCoreInv.v ===== *)
(** * Invariants of the Raft core

    The state invariant [core_inv] of [RaftCore.Core] and the step relation
    [core_le] of its operations, proved for every operation of [core.go].

    The main results: no sequence of operations panics; the term never decreases
    and a vote cast in a term never changes; the commit index never decreases and
    committed entries never change; every change of the hard state is part of the
    batch to be persisted before anything is sent. *)

From S2P Require Import Prelude Random RaftTypes RaftLog RaftVoters RaftCodec RaftCore.

Module RaftCoreInv.
Import Random RaftLog RaftVoters RaftCodec RaftCore.

(** ** Invariant and step relation *)

Abbreviation term_of c := (HardState_Term (hardState c)).
Abbreviation vote_of c := (HardState_VotedFor (hardState c)).

(** What the sender of a vote request or of a granted vote has in its hard state. *)
Definition ballot_ok (local term vote : Z) (m : PeerMessage) : Prop :=
  match PM_RPC m with
  | RPC_RequestVoteRequest r =>
    RVReq_CandidateID r = local ∧ RVReq_Term r = term ∧ vote = local
  | RPC_RequestVoteResponse r =>
    RVResp_Granted r = true →
    RVResp_ResponderID r = local ∧ RVResp_RequestTerm r = term ∧ RVResp_CandidateID r = vote
  | _ => True
  end.

(** What each role guarantees of the maps it writes to and of its own vote. *)
Definition role_ok (c : Core) : Prop :=
  match role c with
  | RoleFollower => True
  | RolePreCandidate => is_Some (preVotes c)
  | RoleCandidate => is_Some (votes c) ∧ vote_of c = localID c
  | RoleLeader => is_Some (progress c) ∧ is_Some (quorumResponses c) ∧
      vote_of c = localID c ∧ Majority (voters c) ≤ sizeSet (votes c)
  end.

Record core_inv (c : Core) : Prop := {
  ci_voters : voters_wf (voters c);
  ci_local : localID c ∈ ids (voters c);
  ci_timeouts : 1 ≤ electionTimeoutMin c < electionTimeoutMax c ∧
    electionTimeoutMax c ≤ max_uint64;
  ci_limits : limits_typed (appendLimits c);
  ci_tape : Forall is_u64 (random c);
  ci_log : log_wf (log c);
  ci_commit : HardState_CommitIndex (hardState c) = commitIndex (log c);
  ci_term : 0 ≤ term_of c;
  ci_role : role_ok c;
  ci_votes : default ∅ (votes c) ⊆ ids (voters c);
  ci_proposals : is_Some (pendingProposals c) → is_Some (proposalAtIndex c);
  ci_idle : hasPending c = false → pendingReady c = Ready_zero;
  ci_recorded : ∀ h, Ready_HardState (pendingReady c) = Some h →
    HardState_Term h = term_of c ∧ HardState_VotedFor h = vote_of c;
  ci_messages :
    Forall (ballot_ok (localID c) (term_of c) (vote_of c)) (Ready_Messages (pendingReady c))
}.

(** [X] holds the votes, as pairs of voter and term, that the step may have counted. *)
Record core_le (X : gset (Z * Z)) (c c' : Core) : Prop := {
  le_local : localID c' = localID c;
  le_voters : voters c' = voters c;
  le_min : electionTimeoutMin c' = electionTimeoutMin c;
  le_max : electionTimeoutMax c' = electionTimeoutMax c;
  le_limits : appendLimits c' = appendLimits c;
  le_hard : hs_le (hardState c) (hardState c');
  le_log : log_extends (log c) (log c');
  le_changed : hardState c' = hardState c ∨ Ready_HardState (pendingReady c') = Some (hardState c');
  le_kept : Ready_HardState (pendingReady c) = Some (hardState c) →
    Ready_HardState (pendingReady c') = Some (hardState c');
  le_pending : hasPending c = true → hasPending c' = true;
  le_votes : ∀ r, r ∈ default ∅ (votes c') →
    r = localID c ∨ (r ∈ default ∅ (votes c) ∧ term_of c' = term_of c) ∨ (r, term_of c') ∈ X
}.

#[global] Instance core_le_preorder (X : gset (Z * Z)) : PreOrder (core_le X).
Proof.
  split.
  - intros c. split; try reflexivity; auto.
  - intros c1 c2 c3 [] []. split; try congruence; try (by etransitivity); eauto.
    + destruct le_changed1 as [Heq|]; [|by right]. destruct le_changed0; [left; congruence|right; auto].
    + intros r Hr. rewrite le_local0 in *.
      destruct (le_votes1 r Hr) as [->|[[Hr2 ->]|HX]]; [by left| |by right; right]. auto.
Qed.

Lemma core_le_mono (X Y : gset (Z * Z)) (c c' : Core) : X ⊆ Y → core_le X c c' → core_le Y c c'.
Proof. intros HXY []. split; auto. intros r Hr. destruct (le_votes0 r Hr) as [|[|]]; auto. Qed.

(** Steps that keep the role, the vote and the votes received. *)
Record stable (c c' : Core) : Prop := {
  st_le : core_le ∅ c c';
  st_role : role c' = role c;
  st_term : term_of c' = term_of c;
  st_vote : vote_of c' = vote_of c;
  st_votes : votes c' = votes c
}.

#[global] Instance stable_preorder : PreOrder stable.
Proof.
  split.
  - intros c. split; reflexivity.
  - intros c1 c2 c3 [] []. split; try congruence. by etransitivity.
Qed.

(** Steps that also leave the hard state, the log and the outgoing messages. *)
Record quiet (c c' : Core) : Prop := {
  qt_stable : stable c c';
  qt_hard : hardState c' = hardState c;
  qt_log : log c' = log c;
  qt_messages : Ready_Messages (pendingReady c') = Ready_Messages (pendingReady c)
}.

#[global] Instance quiet_preorder : PreOrder quiet.
Proof.
  split.
  - intros c. split; reflexivity.
  - intros c1 c2 c3 [] []. split; try congruence. by etransitivity.
Qed.

Abbreviation calm := (keeps (E := error) core_inv quiet).
Abbreviation steady := (keeps (E := error) core_inv stable).
Abbreviation safe := (keeps (E := error) core_inv (core_le ∅)).

(** ** Automation *)

(** Prove the invariant of an updated state field by field. *)
Ltac solve_inv :=
  match goal with
  | H : core_inv ?c |- core_inv _ =>
    destruct H; constructor; unfold role_ok in *; simpl in *; try done; auto
  end.

Ltac solve_le :=
  constructor; simpl; try reflexivity; auto;
  try (right; reflexivity); try (intros _; reflexivity);
  try (intros ? Hr; by apply not_elem_of_empty in Hr).

Ltac solve_stable := constructor; [solve_le|simpl; reflexivity..].

Ltac solve_quiet := constructor; [solve_stable|simpl; reflexivity..].

Ltac solve_step := intros ?; split; [solve_inv|solve_quiet].

(** Case analysis on the outermost branch of the program. *)
Ltac case_prog :=
  match goal with |- keeps _ _ (match ?o with _ => _ end) _ => destruct o eqn:? end.

Lemma calm_steady {A} (m : M Core error A) (c : Core) : calm m c → steady m c.
Proof. apply keeps_weaken. intros c'. apply qt_stable. Qed.

Lemma steady_safe {A} (m : M Core error A) (c : Core) : steady m c → safe m c.
Proof. apply keeps_weaken. intros c'. apply st_le. Qed.

Lemma calm_safe {A} (m : M Core error A) (c : Core) : calm m c → safe m c.
Proof. intros H. by apply steady_safe, calm_steady. Qed.

(** ** Output queues *)

Lemma recordHardState_steady (c : Core) : steady recordHardState c.
Proof.
  apply keeps_modify. intros Hinv. split.
  - solve_inv. intros h [= <-]. done.
  - solve_stable; simpl; eauto.
Qed.

Lemma queueEntries_calm (es : list Entry) (c : Core) : calm (queueEntries es) c.
Proof. apply keeps_modify. solve_step. Qed.

Lemma queueSnapshotAction_calm (a : SnapshotAction) (c : Core) :
  calm (queueSnapshotAction a) c.
Proof. apply keeps_modify. solve_step. Qed.

Lemma queueMessage_steady (to : Z) (rpc : RPC) (q : DurabilityPrerequisite) (c : Core) :
  ballot_ok (localID c) (term_of c) (vote_of c) (mkPeerMessage to rpc q) →
  steady (queueMessage to rpc q) c.
Proof.
  intros Hb. apply keeps_modify. intros Hinv. split; [|solve_stable].
  solve_inv. apply Forall_app. split; [done|]. by constructor.
Qed.

Lemma cancelIncomingSnapshot_calm (c : Core) : calm cancelIncomingSnapshot c.
Proof.
  apply keeps_get. destruct (incomingSnapshot c); [|apply keeps_ret; apply _].
  apply keeps_seq; [apply _|apply keeps_modify; solve_step|].
  intros [] c' _. apply queueSnapshotAction_calm.
Qed.

(** ** Maps *)

Lemma putProgress_calm (k : Z) (p : Progress) (c : Core) :
  is_Some (progress c) → calm (putMap progress k p) c.
Proof.
  intros [m Hm]. apply keeps_get. rewrite Hm. apply keeps_put. intros Hinv.
  split; [|solve_quiet]. solve_inv. destruct (role c); naive_solver.
Qed.

Lemma putQuorum_calm (k : Z) (c : Core) :
  is_Some (quorumResponses c) → calm (putSet quorumResponses k) c.
Proof.
  intros [m Hm]. apply keeps_get. rewrite Hm. apply keeps_put. intros Hinv.
  split; [|solve_quiet]. solve_inv. destruct (role c); naive_solver.
Qed.

Lemma putOutgoing_calm (k : Z) (t : outgoingSnapshotProgress) (c : Core) :
  is_Some (outgoingSnapshots c) → calm (putMap outgoingSnapshots k t) c.
Proof. intros [m Hm]. apply keeps_get. rewrite Hm. apply keeps_put. solve_step. Qed.

Lemma putPreVotes_calm (k : Z) (c : Core) :
  is_Some (preVotes c) → calm (putSet preVotes k) c.
Proof.
  intros [m Hm]. apply keeps_get. rewrite Hm. apply keeps_put. intros Hinv.
  split; [|solve_quiet]. solve_inv. destruct (role c); naive_solver.
Qed.

Lemma deleteOutgoing_calm (k : Z) (c : Core) : calm (deleteMap outgoingSnapshots k) c.
Proof. apply keeps_modify. solve_step. Qed.

Lemma deletePending_calm (k : Z) (c : Core) : calm (deleteMap pendingProposals k) c.
Proof.
  apply keeps_modify. intros Hinv. split; [|solve_quiet]. solve_inv.
  intros H. apply ci_proposals0. by apply fmap_is_Some in H.
Qed.

Lemma deleteAtIndex_calm (k : Z) (c : Core) : calm (deleteMap proposalAtIndex k) c.
Proof.
  apply keeps_modify. intros Hinv. split; [|solve_quiet]. solve_inv.
  intros H. apply fmap_is_Some. auto.
Qed.

Lemma lookupMap_is_Some {V} (m : option (gmap Z V)) (k : Z) (v : V) :
  lookupMap m k = Some v → is_Some m.
Proof. unfold lookupMap. destruct m; simpl; [eauto|]. by rewrite lookup_empty. Qed.

Lemma leader_maps (c : Core) :
  core_inv c → isLeader c = true → is_Some (progress c) ∧ is_Some (quorumResponses c).
Proof.
  intros Hinv Hl. unfold isLeader in Hl. apply bool_decide_eq_true in Hl.
  pose proof (ci_role c Hinv) as Hr. unfold role_ok in Hr. rewrite Hl in Hr. tauto.
Qed.

Lemma stable_isLeader (c c' : Core) : stable c c' → isLeader c' = isLeader c.
Proof. intros [_ Hr _ _ _]. unfold isLeader. by rewrite Hr. Qed.

(** ** Timers *)

Lemma drawBelow_calm (n : Z) (c : Core) :
  1 ≤ n ≤ max_uint64 → calm (drawBelow n) c.
Proof.
  intros Hn Hinv. unfold drawBelow.
  assert (∀ tape, Forall is_u64 tape →
    (Uint64n (E := error) n tape).1 ≠ Panic ∧ Forall is_u64 (Uint64n (E := error) n tape).2) as Hu.
  { intros tape. induction 1 as [|x tape Hx Ht IH].
    - unfold Uint64n. repeat case_goal; try done. lia.
    - rewrite Uint64n_step by done. case_goal; [done|exact IH]. }
  destruct (Hu (random c) (ci_tape c Hinv)) as [Hp Ht].
  destruct (Uint64n n (random c)) as [o tape]. simpl in *.
  split; [done|]. split; [solve_inv|solve_quiet].
Qed.

Lemma sampleDeadline_calm (t : Z) (c : Core) : calm (sampleDeadline t) c.
Proof.
  apply keeps_pre. intros Hinv. pose proof (ci_timeouts c Hinv) as Ht.
  apply keeps_get. apply keeps_seq; [apply _|apply drawBelow_calm|].
  { rewrite wrap64_small by ulia. ulia. }
  intros o c' _. cbv zeta. case_goal; [apply keeps_throw; apply _|apply keeps_ret; apply _].
Qed.

(** Sampling only consumes the tape. *)
Lemma sampleDeadline_frame (t : Z) (c : Core) :
  ∃ tape, (sampleDeadline t c).2 = c <| random := tape |>.
Proof.
  unfold sampleDeadline, drawBelow, bind, get.
  destruct (Uint64n _ (random c)) as [[] tape]; exists tape; simpl; [case_goal|..]; done.
Qed.

Lemma catch_calm {A} (m : M Core error A) (c : Core) : calm m c → calm (catch m) c.
Proof.
  intros Hm Hinv. destruct (Hm Hinv) as (Hp & Hi & Hs). unfold catch.
  destruct (m c) as [[] c']; simpl in *; done.
Qed.

Lemma deadlineOrLast_returns (r : error + Z) : deadlineOrLast r ≠ Panic.
Proof. unfold deadlineOrLast. destruct r; [case_goal|]; done. Qed.

(** ** Proposals *)

Lemma failPendingProposals_calm (e : error) (c : Core) : calm (failPendingProposals e) c.
Proof.
  apply keeps_get. apply keeps_seq; [apply _| |intros [] c' _; apply keeps_modify; solve_step].
  apply keeps_forEach; [apply _|]. intros id c1 _ _. apply keeps_get.
  destruct (lookupMap (pendingProposals c1) id) as [proposal|]; [|apply keeps_ret; apply _].
  intros Hinv. unfold bind, modify, deleteMap, modify. simpl. split; [done|].
  split; [|solve_quiet]. solve_inv. rewrite !fmap_is_Some. auto.
Qed.

Lemma resolveCommittedProposal_calm (entry : Entry) (c : Core) :
  hasPending c = true → calm (resolveCommittedProposal entry) c.
Proof.
  intros Hp. apply keeps_get. destruct (lookupMap _ _) as [id|]; [|apply keeps_ret; apply _].
  destruct (lookupMap _ _) as [proposal|]; [|apply deleteAtIndex_calm].
  apply keeps_seq; [apply _|case_goal; apply keeps_modify; solve_step; congruence|].
  intros [] c1 _. apply keeps_seq; [apply _|apply deletePending_calm|].
  intros [] c2 _. apply keeps_seq; [apply _|apply deleteAtIndex_calm|].
  intros [] c3 _. apply keeps_modify. solve_step.
Qed.

Lemma forPeers_steady (f : Z → M Core error unit) (c : Core) :
  (∀ peer c', peer ∈ ids (voters c) → peer ≠ localID c → stable c c' → steady (f peer) c') →
  steady (forPeers f) c.
Proof.
  intros Hf. apply keeps_get. apply keeps_forEach; [apply _|]. intros v c' Hv Hs.
  destruct (Z.eqb_spec (Voter_ID v) (localID c)); [apply keeps_ret; apply _|].
  apply Hf; [|done|done]. unfold ids. apply elem_of_list_to_set. by apply list_elem_of_fmap_2.
Qed.

(** ** Replication *)

Lemma gatherEntries_returns (l : Log) (limits : CodecLimits)
    (request : list Entry → AppendEntriesRequest) (n : nat) (i : Z) (es : list Entry) :
  log_wf l → limits_typed limits → gatherEntries l limits request n i es ≠ Panic.
Proof.
  intros Hwf Hl. revert i es. induction n as [|n IH]; intros i es; simpl; [done|].
  case_goal; [done|]. pose proof (Log_Entry_returns l i Hwf).
  destruct (Log_Entry l i) as [e| | |]; simpl; try done.
  pose proof (EncodeRPC_returns limits
    (InterfaceValue (RPC_AppendEntriesRequest (request (es ++ [e])))) Hl).
  destruct (EncodeRPC _ _); try done; case_goal; done || apply IH.
Qed.

Lemma issueAppend_steady (peer : Z) (c : Core) : steady (issueAppend peer) c.
Proof.
  apply keeps_pre. intros Hinv. apply keeps_get.
  destruct (lookupMap (progress c) peer) as [p|] eqn:Hp; [|apply keeps_ret; apply _].
  apply lookupMap_is_Some in Hp.
  case_goal; [apply keeps_ret; apply _|]. case_goal; [apply keeps_throw; apply _|].
  case_goal; [|apply keeps_throw; apply _]. cbv zeta.
  case_goal; [|apply keeps_throw; apply _].
  match goal with |- context [if ?b then putMap progress peer _ else _] => destruct b end.
  { by apply calm_steady, putProgress_calm. }
  apply keeps_lift_bind; [apply _|intros _; apply Log_Term_returns, Hinv|]. intros prevTerm _.
  apply keeps_lift_bind; [apply _| |].
  { intros _. apply gatherEntries_returns; [apply Hinv|apply Hinv]. }
  intros es _. apply keeps_seq; [apply _|by apply calm_steady, putProgress_calm|].
  intros [] c' _. apply queueMessage_steady. done.
Qed.

Lemma sliceState_returns (state : list byte) (from to : Z) :
  from ≤ to ≤ len state → sliceState state from to ≠ Panic.
Proof.
  intros H. unfold sliceState. destruct (Z.leb_spec from to); [|lia].
  destruct (Z.leb_spec to (len state)); [done|lia].
Qed.

Lemma issueSnapshotChunk_steady (peer : Z) (c : Core) : steady (issueSnapshotChunk peer) c.
Proof.
  apply keeps_get. destruct (lookupMap (outgoingSnapshots c) peer) as [t|] eqn:Ht;
    [|apply keeps_ret; apply _].
  apply lookupMap_is_Some in Ht. case_goal; [apply keeps_ret; apply _|].
  cbv zeta. destruct (Z.ltb_spec (len (Out_state t)) (Out_nextOffset t)); [apply keeps_throw; apply _|].
  apply keeps_lift_bind; [apply _| |].
  { intros _. apply sliceState_returns. case_goal; bool_hyps; lia. }
  intros chunk _. apply keeps_seq; [apply _|by apply calm_steady, putOutgoing_calm|].
  intros [] c' _. apply queueMessage_steady. done.
Qed.

Lemma clearOutgoingSnapshot_steady (peer : Z) (c : Core) : steady (clearOutgoingSnapshot peer) c.
Proof.
  apply keeps_seq; [apply _|apply calm_steady, deleteOutgoing_calm|]. intros [] c' _.
  apply keeps_get. destruct (lookupMap _ _) eqn:Hp; [|apply keeps_ret; apply _].
  apply lookupMap_is_Some in Hp. by apply calm_steady, putProgress_calm.
Qed.

Lemma replicateTo_steady (peer : Z) (c : Core) : steady (replicateTo peer) c.
Proof.
  apply keeps_get. case_goal; [apply issueSnapshotChunk_steady|apply issueAppend_steady].
Qed.

(** ** Commitment *)

Lemma queueCommittedLoop_steady (n : nat) (i : Z) (c : Core) :
  hasPending c = true → steady (queueCommittedLoop n i) c.
Proof.
  revert i c. induction n as [|n IH]; intros i c Hp; cbn [queueCommittedLoop];
    [apply keeps_ret; apply _|].
  apply keeps_pre. intros Hinv. apply keeps_get.
  apply keeps_lift_bind; [apply _|intros _; apply Log_Entry_returns, Hinv|]. intros e _.
  apply keeps_seq; [apply _|apply calm_steady, keeps_modify; solve_step; congruence|].
  intros [] c1 H1. assert (hasPending c1 = true) as Hp1 by apply H1, Hp.
  apply keeps_seq; [apply _|by apply calm_steady, resolveCommittedProposal_calm|].
  intros [] c2 H2. assert (hasPending c2 = true) as Hp2 by apply H2, Hp1.
  apply keeps_seq; [apply _|apply calm_steady, keeps_modify; solve_step; congruence|].
  intros [] c3 H3. case_goal; [apply keeps_ret; apply _|]. apply IH. apply H3, Hp2.
Qed.

Lemma queueCommittedEntries_steady (a b : Z) (c : Core) :
  hasPending c = true → steady (queueCommittedEntries a b) c.
Proof.
  intros Hp. unfold queueCommittedEntries.
  case_goal; [by apply queueCommittedLoop_steady|apply keeps_throw; apply _].
Qed.

(** Advancing the commit index of the log and of the hard state together. *)
Lemma commit_steady {A} (i : Z) (m : M Core error A) (c : Core) :
  (∀ c', hasPending c' = true → stable c c' → steady m c') →
  steady (onLog (AdvanceCommit i) ;;!
    modify (λ c, c <| hardState ::= (λ h, h <| HardState_CommitIndex := i |>) |>) ;;!
    recordHardState ;;! m) c.
Proof.
  intros Hm. apply keeps_pre. intros Hinv. set (prog := bind _ _).
  pose proof (AdvanceCommit_safe (log c) i (ci_log c Hinv)) as [Hwf Hext].
  pose proof (AdvanceCommit_ok (log c) i (ci_log c Hinv)) as Ha.
  rewrite Ha in Hwf, Hext.
  assert (c <| log := log c |> = c) as Hsame by (by destruct c).
  assert (∀ e, AdvanceCommit i (log c) = (Err e, log c) → steady prog c) as Herr.
  { intros e He _. assert (prog c = (Err e, c)) as ->; [|split_and!; done || reflexivity].
    subst prog. unfold bind, onLog. by rewrite He, Hsame. }
  revert Ha Hwf Hext. destruct (Z.ltb_spec i (commitIndex (log c))); [eauto|].
  destruct (Z.ltb_spec (lastIndex (log c)) i); [eauto|]. simpl. intros Ha Hwf Hext.
  set (c' := c <| log := (log c) <| commitIndex := i |> |>
    <| hardState ::= (λ h, h <| HardState_CommitIndex := i |>) |>
    <| pendingReady ::= (λ r, r <| Ready_HardState := Some ((hardState c) <| HardState_CommitIndex := i |>) |>) |>
    <| hasPending := true |>).
  assert (prog c = m c') as Heq by (subst prog; unfold bind, onLog; by rewrite Ha).
  assert (core_inv c') as Hinv'.
  { subst c'. solve_inv. intros h [= <-]. done. }
  assert (stable c c') as Hst.
  { subst c'. solve_stable; simpl; eauto. pose proof (ci_commit c Hinv). unfold hs_le, vote_le. simpl. lia. }
  intros _. rewrite Heq. destruct (Hm c' eq_refl Hst Hinv') as (Hp & Hi & Hs).
  split_and!; [done|done|by transitivity c'].
Qed.

Lemma advanceCommitLoop_steady (cc : Z) (n : nat) (c : Core) : steady (advanceCommitLoop cc n) c.
Proof.
  revert c. induction n as [|n IH]; intros c; [apply keeps_ret; apply _|].
  cbn [advanceCommitLoop]. cbv zeta. apply keeps_pre. intros Hinv. apply keeps_get.
  apply keeps_lift_bind; [apply _|intros _; apply Log_Term_returns, Hinv|]. intros t _.
  case_goal; [apply IH|]. case_goal; [apply IH|].
  apply commit_steady. intros c' Hp _. by apply queueCommittedEntries_steady.
Qed.

Lemma advanceLeaderCommit_steady (c : Core) : steady advanceLeaderCommit c.
Proof. apply keeps_get, advanceCommitLoop_steady. Qed.

(** ** Term and role changes

    Each is entered with no message queued, so that no queued vote predates the
    change. *)

Abbreviation messages c := (Ready_Messages (pendingReady c)).

Record adopted (term : Z) (c c' : Core) : Prop := {
  ad_le : core_le ∅ c c';
  ad_role : role c' = RoleFollower;
  ad_term : term_of c' = term;
  ad_vote : vote_of c' = 0;
  ad_log : log c' = log c;
  ad_messages : messages c' = [];
  ad_pending : hasPending c' = true
}.

(** Computations that always return normally. *)
Definition returns {A} (m : M Core error A) : Prop := ∀ c, ∃ a, (m c).1 = Ok a.

Lemma returns_bind {A B} (m : M Core error A) (k : A → M Core error B) :
  returns m → (∀ a, returns (k a)) → returns (bind m k).
Proof.
  intros Hm Hk c. destruct (Hm c) as [a Ha]. unfold bind.
  destruct (m c) as [o c']. simpl in Ha. subst o. apply Hk.
Qed.

Lemma returns_forEach {A} (l : list A) (f : A → M Core error unit) :
  (∀ x, returns (f x)) → returns (forEach l f).
Proof.
  intros Hf. induction l as [|x l IH]; [by intros c; exists tt|]. by apply returns_bind.
Qed.

Lemma returns_calm (m : M Core error unit) (c : Core) :
  returns m → calm m c → core_inv c → ∃ c', m c = (Ok tt, c') ∧ core_inv c' ∧ quiet c c'.
Proof.
  intros Hr Hc Hinv. destruct (Hr c) as [[] Ha]. destruct (Hc Hinv) as (_ & ? & ?).
  destruct (m c) as [o c']. simpl in *. subst o. eauto.
Qed.

Lemma failPendingProposals_returns (e : error) : returns (failPendingProposals e).
Proof.
  unfold failPendingProposals. apply returns_bind; [by intros c; exists c|]. intros c.
  apply returns_bind; [|by intros c'; exists tt]. apply returns_forEach. intros id.
  intros c1. unfold bind, get. destruct (lookupMap _ _); simpl; eauto.
Qed.

Lemma cancelIncomingSnapshot_returns : returns cancelIncomingSnapshot.
Proof.
  intros c. unfold cancelIncomingSnapshot, bind, get. destruct (incomingSnapshot c); simpl; eauto.
Qed.

(** The part of [adoptHigherTerm] after the cancellations. *)
Definition adoptState (term : Z) (c : Core) : Core :=
  (recordHardState ((λ c, if max_uint64 - electionTimeoutMin c <? now c
     then c <| electionDeadline := max_uint64 |> <| deadlineExhausted := true |> else c)
   (c <| hardState ::= (λ h, h <| HardState_Term := term |> <| HardState_VotedFor := 0 |>) |>
      <| role := RoleFollower |> <| leaderID := 0 |> <| recentLeader := false |>
      <| preVotes := None |> <| votes := None |> <| progress := None |>
      <| outgoingSnapshots := None |> <| quorumResponses := None |>))).2.

Lemma adoptState_ok (term : Z) (c : Core) :
  term_of c < term → messages c = [] → core_inv c →
  core_inv (adoptState term c) ∧ adopted term c (adoptState term c).
Proof.
  intros Ht Hm Hinv. unfold adoptState. simpl. split.
  - destruct Hinv. case_goal; constructor; unfold role_ok; simpl in *; try done; try lia;
      first [apply empty_subseteq | by intros h [= <-] | rewrite Hm; constructor].
  - case_goal; constructor; simpl; try done; constructor; simpl; eauto; try reflexivity;
      unfold hs_le, vote_le; simpl; lia.
Qed.

Lemma adoptHigherTerm_safe (term : Z) (c : Core) :
  term_of c < term → messages c = [] → keeps core_inv (adopted term) (adoptHigherTerm term) c.
Proof.
  intros Ht Hm Hinv.
  destruct (returns_calm _ c (failPendingProposals_returns ErrProposalFailed)
    (failPendingProposals_calm _ c) Hinv) as (c1 & E1 & I1 & Q1).
  destruct (returns_calm _ c1 cancelIncomingSnapshot_returns
    (cancelIncomingSnapshot_calm c1) I1) as (c2 & E2 & I2 & Q2).
  assert (quiet c c2) as [[Hle _ Hterm _ _] _ Hlog Hmsg] by (by transitivity c1).
  assert (adoptHigherTerm term c = (Ok tt, adoptState term c2)) as ->.
  { unfold adoptHigherTerm, bind at 1. rewrite E1. unfold bind at 1. by rewrite E2. }
  destruct (adoptState_ok term c2) as [I3 A3]; [congruence|congruence|done|].
  generalize dependent (adoptState term c2). intros c3 I3 [].
  split_and!; [done|done|]. split; try done; [by transitivity c2|simpl; congruence].
Qed.

(** ** Elections *)

Lemma calm_then {A B} (m : M Core error A) (k : A → M Core error B) (c : Core) :
  calm m c → (∀ a c', quiet c c' → safe (k a) c') → safe (bind m k) c.
Proof.
  intros Hm Hk. eapply keeps_seq_rel; [apply _|exact Hm| |exact Hk].
  intros c' Hq. apply Hq.
Qed.

Lemma startPreVote_safe (t : Z) (c : Core) : safe (startPreVote t) c.
Proof.
  apply keeps_get. case_goal; [apply keeps_throw; apply _|].
  apply calm_then; [apply sampleDeadline_calm|]. intros deadline c1 _. cbv zeta.
  apply keeps_seq; [apply _|apply keeps_modify|].
  - intros Hinv. split; [solve_inv|solve_le].
  - intros [] c2 _. apply steady_safe, forPeers_steady. intros peer c3 _ _ _.
    by apply queueMessage_steady.
Qed.

Lemma handlePreVoteRequest_steady (r : PreVoteRequest) (c : Core) :
  steady (handlePreVoteRequest r) c.
Proof. apply keeps_get. by apply queueMessage_steady. Qed.

(** A hard-state assignment together with the [recordHardState] that follows it;
    [c'] is the state after both. *)
Lemma assign_safe (X : gset (Z * Z)) {A} (f : Core → Core) (m : M Core error A) (c c' : Core) :
  (recordHardState (f c)).2 = c' →
  (core_inv c → core_inv c' ∧ core_le X c c' ∧ keeps core_inv (core_le X) m c') →
  keeps core_inv (core_le X) (modify f ;;! recordHardState ;;! m) c.
Proof.
  intros Hc H. apply (keeps_run _ _ _ m c c'); [by rewrite <- Hc|done].
Qed.

(** The state of a new candidate. *)
Definition electState (term deadline : Z) (c : Core) : Core :=
  (recordHardState
    (c <| hardState ::= (λ h, h <| HardState_Term := term |> <| HardState_VotedFor := localID c |>) |>
       <| role := RoleCandidate |> <| leaderID := 0 |> <| recentLeader := false |>
       <| electionDeadline := deadline |> <| deadlineExhausted := false |> <| preVotes := None |>
       <| votes := Some {[localID c]} |>)).2.

Lemma electState_ok (term deadline : Z) (c : Core) :
  term_of c < term → messages c = [] → core_inv c →
  core_inv (electState term deadline c) ∧ core_le ∅ c (electState term deadline c) ∧
  localID (electState term deadline c) = localID c ∧
  term_of (electState term deadline c) = term ∧ vote_of (electState term deadline c) = localID c.
Proof.
  intros Ht Hm Hinv. unfold electState. simpl. split_and!; try done.
  - destruct Hinv. constructor; unfold role_ok; simpl in *; try done; try lia.
    + by apply singleton_subseteq_l.
    + by intros h [= <-].
    + rewrite Hm. constructor.
  - solve_le; [unfold hs_le, vote_le; simpl; lia|]. intros r Hr'%elem_of_singleton. by left.
Qed.

Lemma startElection_safe (voter : Z) (c : Core) :
  messages c = [] → role c = RolePreCandidate → safe (startElection voter) c.
Proof.
  intros Hm Hr. apply keeps_pre. intros Hinv. apply keeps_get.
  case_goal; [apply keeps_throw; apply _|]. bool_hyps.
  apply calm_then; [apply sampleDeadline_calm|]. intros deadline c1 Q1. cbv zeta.
  apply keeps_pre. intros I1. pose proof (ci_role c1 I1) as Hrole1. unfold role_ok in Hrole1.
  rewrite (st_role _ _ (qt_stable _ _ Q1)), Hr in Hrole1.
  apply calm_then; [by apply putPreVotes_calm|]. intros [] c2 Q2.
  apply calm_then; [apply cancelIncomingSnapshot_calm|]. intros [] c3 Q3.
  assert (quiet c c3) as [[Hle _ Hterm _ _] _ _ Hmsg] by (transitivity c1; [done|]; by transitivity c2).
  rewrite Hm in Hmsg.
  apply (assign_safe ∅ _ _ _ (electState (term_of c + 1) deadline c3)); [reflexivity|]. intros I3.
  destruct (electState_ok (term_of c + 1) deadline c3) as (I4 & Hle4 & Hl4 & Ht4 & Hv4);
    [lia|done|done|].
  generalize dependent (electState (term_of c + 1) deadline c3). intros c4 I4 Hle4 Hl4 Ht4 Hv4.
  split_and!; [done|done|].
  apply steady_safe, forPeers_steady. intros peer c5 _ _ [Hle5 _ Ht5 Hv5 _].
  apply queueMessage_steady. pose proof (le_local _ _ _ Hle). pose proof (le_local _ _ _ Hle5).
  unfold ballot_ok. simpl. split_and!; congruence.
Qed.

Lemma handlePreVoteResponse_safe (r : PreVoteResponse) (c : Core) :
  messages c = [] → safe (handlePreVoteResponse r) c.
Proof.
  intros Hm. apply keeps_pre. intros Hinv. apply keeps_get.
  destruct (_ || negb (PVResp_Granted r)) eqn:Hg; [apply keeps_ret; apply _|]. bool_hyps.
  pose proof (ci_role c Hinv) as Hrole. unfold role_ok in Hrole.
  match goal with H : role c = RolePreCandidate |- _ => rewrite H in Hrole end.
  case_goal; [apply keeps_ret; apply _|]. case_goal; [|by apply startElection_safe].
  by apply calm_safe, putPreVotes_calm.
Qed.

Lemma queueVoteResponse_steady (r : RequestVoteRequest) (granted changed : bool) (c : Core) :
  (granted = true → RVReq_Term r = term_of c ∧ vote_of c = RVReq_CandidateID r) →
  steady (queueVoteResponse r granted changed) c.
Proof.
  intros Hg. apply keeps_get. apply queueMessage_steady. unfold ballot_ok. simpl.
  intros Hgr. destruct (Hg Hgr) as [-> ->]. done.
Qed.

(** The state after casting a vote. *)
Definition voteState (candidate : Z) (c : Core) : Core :=
  (recordHardState (c <| hardState ::= (λ h, h <| HardState_VotedFor := candidate |>) |>)).2.

Lemma voteState_ok (candidate : Z) (c : Core) :
  vote_of c = 0 → messages c = [] → core_inv c →
  core_inv (voteState candidate c) ∧ core_le ∅ c (voteState candidate c) ∧
  term_of (voteState candidate c) = term_of c ∧ vote_of (voteState candidate c) = candidate.
Proof.
  intros Hv Hm Hinv. pose proof (ids_nonzero _ _ (ci_voters c Hinv) (ci_local c Hinv)) as Hnz.
  unfold voteState. simpl. split_and!; try done.
  - destruct Hinv. constructor; unfold role_ok in *; simpl in *; try done.
    + destruct (role c); try done; destruct_and?; congruence.
    + by intros h [= <-].
    + rewrite Hm. constructor.
  - solve_le. unfold hs_le, vote_le. simpl. lia.
Qed.

Lemma handleVoteRequest_safe (r : RequestVoteRequest) (c : Core) :
  messages c = [] → safe (handleVoteRequest r) c.
Proof.
  intros Hm. apply keeps_get. case_goal; [by apply steady_safe, queueVoteResponse_steady|].
  bool_hyps.
  apply (keeps_seq_rel _ _ (λ c c', core_le ∅ c c' ∧ messages c' = [] ∧ term_of c' = RVReq_Term r)).
  - destruct (Z.ltb_spec (term_of c) (RVReq_Term r)).
    + intros Hinv. destruct (adoptHigherTerm_safe (RVReq_Term r) c) as (Hp & Hi & []); try done.
      unfold bind. destruct (adoptHigherTerm _ c) as [[]]; simpl in *; done.
    + intros Hinv. split_and!; [done|done|reflexivity|done|]. simpl. lia.
  - by intros c' [].
  - intros changed c1 (Hle & Hm1 & Ht1). apply keeps_get. cbv zeta.
    destruct (_ && (vote_of c1 =? 0)) eqn:Hg.
    + apply andb_true_iff in Hg as [Hg Hv%Z.eqb_eq].
      apply (assign_safe ∅ _ _ _ (voteState (RVReq_CandidateID r) c1)); [reflexivity|]. intros I1.
      destruct (voteState_ok (RVReq_CandidateID r) c1 Hv Hm1 I1) as (I2 & Hle2 & Ht2 & Hv2).
      split_and!; [done|done|]. apply steady_safe, queueVoteResponse_steady.
      intros _. split; congruence.
    + apply steady_safe, queueVoteResponse_steady. intros Hgr. rewrite Hgr in Hg. simpl in Hg.
      bool_hyps. destruct (Z.eqb_spec (vote_of c1) 0); [done|]. simpl in *. bool_hyps. done.
Qed.

(** ** Leadership *)

Lemma appendOwn_steady (pi pt : Z) (entry : Entry) (c : Core) : steady (appendOwn pi pt entry) c.
Proof.
  intros Hinv. unfold appendOwn. pose proof (ci_log c Hinv) as Hwf.
  pose proof (Append_wf (log c) pi pt [entry] Hwf). pose proof (Append_extends (log c) pi pt [entry] Hwf).
  pose proof (Append_commit (log c) pi pt [entry] Hwf). pose proof (Append_returns (log c) pi pt [entry] Hwf).
  destruct (Append pi pt [entry] (log c)) as [[h|[h e]| |] l]; simpl in *; try done;
    (split; [done|split; [solve_inv; congruence|solve_stable]]).
Qed.

(** Counting one more vote. *)
Lemma putVotes_grows (voter : Z) (c : Core) :
  is_Some (votes c) → voter ∈ ids (voters c) → role c = RoleCandidate →
  keeps core_inv (λ c c', core_le {[(voter, term_of c)]} c c' ∧ role c' = RoleCandidate ∧
      votes c' = Some ({[voter]} ∪ default ∅ (votes c)))
    (putSet votes voter) c.
Proof.
  intros [v Hv] Hid Hr. apply keeps_get. rewrite Hv. apply keeps_put. intros Hinv. split_and!.
  - destruct Hinv. constructor; unfold role_ok in *; simpl in *; try done.
    + rewrite Hr in *. split; [by eexists|apply ci_role0].
    + rewrite Hv in *. simpl in *. set_solver.
  - solve_le. rewrite Hv. simpl. set_solver.
  - done.
  - simpl. by rewrite Hv.
Qed.

(** The assignments that make a candidate a leader. *)
Definition leadState (newIndex selfNext : Z) (c : Core) : Core :=
  c <| role := RoleLeader |>
    <| leaderID := localID c |>
    <| preVotes := None |>
    <| recentLeader := false |>
    <| progress := Some {[localID c := Progress_zero
         <| Progress_MatchIndex := newIndex |> <| Progress_NextIndex := selfNext |>]} |>
    <| quorumResponses := Some ∅ |>
    <| heartbeatDeadline := saturatingTickAdd (now c) (heartbeatInterval c) |>
    <| quorumDeadline := saturatingTickAdd (now c) (electionTimeoutMin c) |>.

Lemma leadState_ok (newIndex selfNext : Z) (c : Core) :
  role c = RoleCandidate → Majority (voters c) ≤ sizeSet (votes c) →
  keeps core_inv (λ c c', core_le ∅ c c' ∧ role c' = RoleLeader)
    (modify (leadState newIndex selfNext) : M Core error unit) c.
Proof.
  intros Hr Hmaj. apply keeps_modify. intros Hinv. pose proof (ci_role c Hinv) as Hrole.
  unfold role_ok in Hrole. rewrite Hr in Hrole. destruct Hrole as [_ Hvote]. split_and!.
  - destruct Hinv. constructor; unfold role_ok; simpl in *; done.
  - solve_le.
  - done.
Qed.

Lemma sizeSet_add (v : option (gset Z)) (x : Z) :
  x ∉ default ∅ v → sizeSet (Some ({[x]} ∪ default ∅ v)) = sizeSet v + 1.
Proof.
  intros Hx. unfold sizeSet. simpl. rewrite size_union, size_singleton by set_solver. lia.
Qed.

(** The replication round that a new leader starts. *)
Lemma leaderRound_steady (newIndex : Z) (c : Core) :
  role c = RoleLeader →
  steady (forPeers (λ peer,
    putMap progress peer (Progress_zero <| Progress_NextIndex := newIndex |>) ;;!
    replicateTo peer)) c.
Proof.
  intros Hr. apply forPeers_steady. intros peer c1 _ _ Hs. apply keeps_pre. intros I1.
  apply keeps_seq; [apply _| |intros [] c2 _; apply replicateTo_steady].
  apply calm_steady, putProgress_calm. pose proof (ci_role c1 I1) as H. unfold role_ok in H.
  rewrite (st_role _ _ Hs), Hr in H. apply H.
Qed.

Lemma becomeLeader_grows (voter : Z) (c : Core) :
  role c = RoleCandidate → voter ∈ ids (voters c) → voter ∉ default ∅ (votes c) →
  Majority (voters c) ≤ sizeSet (votes c) + 1 →
  keeps core_inv (core_le {[(voter, term_of c)]}) (becomeLeader voter) c.
Proof.
  intros Hr Hid Hnew Hmaj. apply keeps_get. cbv zeta.
  destruct (checkedNextIndex (lastIndex (log c))) as [newIndex|]; [|apply keeps_throw; apply _].
  destruct (checkedNextIndex newIndex) as [selfNext|]; [|apply keeps_throw; apply _].
  apply keeps_lift_bind; [apply _|intros _; unfold NewEntry; by repeat case_goal|].
  intros entry _. eapply keeps_seq_rel; [apply _|apply appendOwn_steady| |].
  { intros c1 Hs. eapply core_le_mono; [|apply Hs]. set_solver. }
  intros [] c1 [Hle Hr1 Ht1 _ Hvs1]. rewrite <- Ht1, <- Hvs1 in *.
  rewrite <- (le_voters _ _ _ Hle) in Hid, Hmaj. rewrite Hr in Hr1.
  apply keeps_pre. intros I1. assert (is_Some (votes c1)) as Hsome.
  { pose proof (ci_role c1 I1) as H. unfold role_ok in H. rewrite Hr1 in H. apply H. }
  eapply keeps_seq_rel; [apply _|by apply putVotes_grows|by intros c' []|].
  intros [] c2 (Hle2 & Hr2 & Hvs2). simpl in *.
  eapply keeps_seq_rel; [apply _|apply (leadState_ok newIndex selfNext); [done|]| |].
  { rewrite Hvs2, (le_voters _ _ _ Hle2). by rewrite sizeSet_add. }
  { intros c' [H _]. eapply core_le_mono; [|exact H]. set_solver. }
  intros [] c3 [_ Hr3]. eapply keeps_weaken.
  { intros c' H. eapply core_le_mono; [|exact (st_le _ _ H)]. set_solver. }
  apply keeps_seq; [apply _|apply calm_steady, queueEntries_calm|].
  intros [] c4 Hs4. apply leaderRound_steady. rewrite (st_role _ _ Hs4). done.
Qed.

(** The vote that a response carries for [local]. *)
Definition counted (local : Z) (r : RequestVoteResponse) : gset (Z * Z) :=
  if RVResp_Granted r && (RVResp_CandidateID r =? local)
  then {[(RVResp_ResponderID r, RVResp_RequestTerm r)]} else ∅.

Lemma handleVoteResponse_grows (r : RequestVoteResponse) (c : Core) :
  messages c = [] → RVResp_ResponderID r ∈ ids (voters c) →
  keeps core_inv (core_le (counted (localID c) r)) (handleVoteResponse r) c.
Proof.
  intros Hm Hid. apply keeps_pre. intros Hinv. apply keeps_get.
  destruct (_ || negb (RVResp_RequestTerm r =? _)) eqn:Hcorr; [apply keeps_ret; apply _|]. bool_hyps.
  destruct (Z.ltb_spec (term_of c) (RVResp_Term r)).
  { eapply keeps_weaken; [|by apply adoptHigherTerm_safe]. intros c' [H' _ _ _ _ _ _].
    eapply core_le_mono; [|exact H']. set_solver. }
  destruct (_ || negb (RVResp_Granted r)) eqn:Hg; [apply keeps_ret; apply _|]. bool_hyps.
  assert (counted (localID c) r = {[(RVResp_ResponderID r, term_of c)]}) as ->.
  { unfold counted. replace (RVResp_Granted r) with true by done.
    rewrite (proj2 (Z.eqb_eq _ _)) by done. simpl. congruence. }
  unfold inSet. case_bool_decide as Hdup; [apply keeps_ret; apply _|].
  destruct (Z.ltb_spec (sizeSet (votes c) + 1) (Majority (voters c))).
  - assert (is_Some (votes c)) as Hsome.
    { pose proof (ci_role c Hinv) as Hr. unfold role_ok in Hr.
      replace (role c) with RoleCandidate in Hr by done. apply Hr. }
    eapply keeps_weaken; [|by apply putVotes_grows]. by intros c' [].
  - by apply becomeLeader_grows.
Qed.

Lemma stepDown_safe (t : Z) (c : Core) : safe (stepDownWithoutTermChange t) c.
Proof.
  apply calm_then; [apply catch_calm, sampleDeadline_calm|]. intros r c1 _.
  apply keeps_lift_bind; [apply _|intros _; apply deadlineOrLast_returns|].
  intros [deadline exhausted] _.
  apply keeps_seq; [apply _|apply keeps_modify|].
  - intros Hinv. split; [solve_inv|solve_le].
  - intros [] c2 _. apply calm_safe, failPendingProposals_calm.
Qed.

Lemma setNow_calm (t : Z) (c : Core) : calm (modify (λ c, c <| now := t |>)) c.
Proof. apply keeps_modify. solve_step. Qed.

Lemma tickLeader_safe (t : Z) (c : Core) : safe (tickLeader t) c.
Proof.
  apply keeps_get. case_goal.
  { apply calm_then; [apply setNow_calm|]. intros [] c1 _. apply stepDown_safe. }
  case_goal; [apply keeps_throw; apply _|]. apply steady_safe.
  apply keeps_seq; [apply _|apply calm_steady, setNow_calm|]. intros [] c1 _.
  apply keeps_seq; [apply _| |].
  - case_goal; [|apply keeps_ret; apply _]. apply calm_steady, keeps_modify. intros Hinv.
    split; [|solve_quiet]. solve_inv. destruct (role c1); naive_solver.
  - intros [] c2 _. case_goal; [apply keeps_ret; apply _|].
    apply keeps_seq; [apply _|apply forPeers_steady; intros; apply replicateTo_steady|].
    intros [] c3 _. apply calm_steady, keeps_modify. solve_step.
Qed.

(** Steps that may change the role and the term but queue no message and leave
    the log. *)
Record mute (c c' : Core) : Prop := {
  mt_le : core_le ∅ c c';
  mt_log : log c' = log c;
  mt_messages : messages c = [] → messages c' = []
}.

#[global] Instance mute_preorder : PreOrder mute.
Proof.
  split.
  - intros c. split; auto; reflexivity.
  - intros c1 c2 c3 [] []. split; [by etransitivity|congruence|auto].
Qed.

Lemma quiet_mute (c c' : Core) : quiet c c' → mute c c'.
Proof. intros [[] ? ? Hm]. split; [done|done|]. by rewrite Hm. Qed.

Lemma adopted_mute (t : Z) (c c' : Core) : adopted t c c' → mute c c'.
Proof. intros []. by split. Qed.

Lemma handleLeaderContact_mute (leader term : Z) (c : Core) :
  messages c = [] → keeps core_inv mute (handleLeaderContact leader term) c.
Proof.
  intros Hm. apply keeps_get. case_goal; [apply keeps_ret; apply _|]. bool_hyps.
  eapply keeps_seq_rel; [apply _|apply catch_calm, sampleDeadline_calm|apply quiet_mute|].
  intros r c1 Q1. apply keeps_lift_bind; [apply _|intros _; apply deadlineOrLast_returns|].
  intros [deadline exhausted] _.
  apply (keeps_seq_rel _ _ quiet); [|apply quiet_mute|].
  { case_goal; [case_goal|]; [apply cancelIncomingSnapshot_calm|apply keeps_ret; apply _..]. }
  intros [] c2 Q2. assert (quiet c c2) as [[Hle _ Ht _ _] _ _ Hm2] by (by transitivity c1).
  rewrite Hm in Hm2. apply keeps_seq; [apply _| |].
  - destruct (Z.ltb_spec (term_of c) term).
    + eapply keeps_weaken; [apply adopted_mute|]. apply adoptHigherTerm_safe; [congruence|done].
    + case_goal; [|apply keeps_ret; apply _].
      eapply keeps_weaken; [apply quiet_mute|apply failPendingProposals_calm].
  - intros [] c3 _. apply keeps_modify. intros Hinv. split; [solve_inv|].
    split; [solve_le|done|done].
Qed.

(** ** Snapshots and replication messages *)

Lemma setIncoming_calm (i : option incomingSnapshotProgress) (c : Core) :
  calm (modify (λ c, c <| incomingSnapshot := i |>)) c.
Proof. apply keeps_modify. solve_step. Qed.

Lemma mute_then {A B} (m : M Core error A) (k : A → M Core error B) (c : Core) :
  keeps core_inv mute m c → (∀ a c', mute c c' → safe (k a) c') → safe (bind m k) c.
Proof.
  intros Hm Hk. eapply keeps_seq_rel; [apply _|exact Hm| |exact Hk]. intros c' H. apply H.
Qed.

Lemma handleInstallSnapshotRequest_safe (r : InstallSnapshotRequest) (c : Core) :
  messages c = [] → safe (handleInstallSnapshotRequest r) c.
Proof.
  intros Hm. apply keeps_get. case_goal; [by apply steady_safe, queueMessage_steady|]. cbv zeta.
  apply mute_then; [by apply handleLeaderContact_mute|]. intros [] c1 _. apply steady_safe.
  match goal with |- steady (if ?b then _ else _) _ => destruct b end; [apply keeps_ret; apply _|].
  apply keeps_get. case_goal.
  { apply keeps_seq; [apply _|apply calm_steady, cancelIncomingSnapshot_calm|].
    intros [] c2 _. by apply queueMessage_steady. }
  apply calm_steady.
  match goal with |- calm (match ?t with _ => _ end) _ => destruct t as [[incoming reset]|] end;
    [|apply queueSnapshotAction_calm].
  apply keeps_seq; [apply _|apply setIncoming_calm|]. intros [] c2 _.
  case_goal; [apply queueSnapshotAction_calm|].
  apply keeps_seq; [apply _|apply setIncoming_calm|]. intros [] c3 _. apply queueSnapshotAction_calm.
Qed.

Lemma leader_progress (c c' : Core) :
  core_inv c' → stable c c' → isLeader c = true → is_Some (progress c') ∧ is_Some (quorumResponses c').
Proof. intros Hinv Hs Hl. apply leader_maps; [done|]. by rewrite (stable_isLeader c c'). Qed.

Lemma handleInstallSnapshotResponse_safe (r : InstallSnapshotResponse) (c : Core) :
  messages c = [] → safe (handleInstallSnapshotResponse r) c.
Proof.
  intros Hm. apply keeps_pre. intros Hinv. apply keeps_get. cbv zeta.
  destruct (isLeader c) eqn:Hl; [|apply keeps_ret; apply _]. simpl negb. cbn [orb].
  case_goal; [apply keeps_ret; apply _|].
  destruct (lookupMap (outgoingSnapshots c) (ISResp_ResponderID r)) as [t|] eqn:Ht;
    [|apply keeps_ret; apply _].
  case_goal; [apply keeps_ret; apply _|]. destruct (Z.ltb_spec (term_of c) (ISResp_Term r)).
  { eapply keeps_weaken; [|by apply adoptHigherTerm_safe]. by intros c' []. }
  case_goal; [apply keeps_ret; apply _|].
  match goal with |- safe (if ?b then _ else _) _ => destruct b end; [apply keeps_ret; apply _|].
  apply steady_safe. destruct (leader_maps c Hinv Hl) as [Hp Hq]. apply lookupMap_is_Some in Ht.
  apply (keeps_seq_rel _ _ (λ c c', stable c c' ∧ is_Some (outgoingSnapshots c'))).
  { destruct Hq as [q Hq]. apply keeps_get. rewrite Hq. apply keeps_put. intros _.
    split; [|split; [solve_stable|done]]. solve_inv. destruct (role c); naive_solver. }
  { by intros c' []. }
  intros [] c1 [S1 Ho1]. apply keeps_seq; [apply _|by apply calm_steady, putOutgoing_calm|].
  intros [] c2 S2. assert (stable c c2) as S02 by (by transitivity c1).
  assert (∀ p c', stable c c' → steady (putMap progress (ISResp_ResponderID r) p) c') as Hput.
  { intros p c' S'. apply keeps_pre. intros I'. apply calm_steady, putProgress_calm.
    by apply (leader_progress c c'). }
  case_goal.
  { apply keeps_seq; [apply _|by apply Hput|]. intros [] c3 _. apply issueSnapshotChunk_steady. }
  apply keeps_seq; [apply _|by apply Hput|]. intros [] c3 S3.
  case_goal; [apply issueSnapshotChunk_steady|].
  apply keeps_seq; [apply _|apply clearOutgoingSnapshot_steady|]. intros [] c4 S4.
  apply keeps_get. cbv zeta. case_prog; [|apply keeps_throw; apply _].
  apply keeps_seq; [apply _|apply Hput|].
  { transitivity c2; [done|]. by transitivity c3. }
  intros [] c5 _. apply keeps_seq; [apply _|apply advanceLeaderCommit_steady|].
  intros [] c6 _. apply issueAppend_steady.
Qed.

Lemma queueAppendResponse_steady (r : AppendEntriesRequest) (ok : bool) (i : Z) (h : ConflictHint)
    (q : DurabilityPrerequisite) (c : Core) :
  steady (queueAppendResponse r ok i h q) c.
Proof. apply keeps_get. by apply queueMessage_steady. Qed.

(** Installing a log that extends the current one with the same commit index. *)
Lemma setLog_steady (l : Log) (c : Core) :
  log_wf l → log_extends (log c) l → commitIndex l = commitIndex (log c) →
  steady (modify (λ c, c <| log := l |>)) c.
Proof.
  intros Hwf Hext Hc. apply keeps_modify. intros Hinv. split; [|solve_stable].
  solve_inv. congruence.
Qed.

Lemma handleAppendRequest_safe (r : AppendEntriesRequest) (c : Core) :
  messages c = [] → safe (handleAppendRequest r) c.
Proof.
  intros Hm. apply keeps_pre. intros Hinv. pose proof (ci_log c Hinv) as Hwf. apply keeps_get.
  case_goal; [apply steady_safe, queueAppendResponse_steady|]. cbv zeta.
  unfold State. cbn [LS_SnapshotIndex LS_SnapshotTerm LS_CommitIndex LS_AppliedIndex LS_Entries].
  rewrite (NewLog_State (log c) Hwf). apply keeps_lift_bind; [apply _|done|].
  intros trial [= <-].
  pose proof (Append_wf (log c) (AEReq_PrevLogIndex r) (AEReq_PrevLogTerm r) (AEReq_Entries r) Hwf).
  pose proof (Append_extends (log c) (AEReq_PrevLogIndex r) (AEReq_PrevLogTerm r) (AEReq_Entries r) Hwf).
  pose proof (Append_commit (log c) (AEReq_PrevLogIndex r) (AEReq_PrevLogTerm r) (AEReq_Entries r) Hwf).
  pose proof (Append_returns (log c) (AEReq_PrevLogIndex r) (AEReq_PrevLogTerm r) (AEReq_Entries r) Hwf).
  destruct (Append _ _ _ (log c)) as [[h|[h e]| |] l]; simpl in *; try done.
  - apply mute_then; [by apply handleLeaderContact_mute|]. intros [] c1 [_ Hl1 _]. apply steady_safe.
    apply keeps_seq; [apply _|apply setLog_steady; rewrite ?Hl1; done|]. intros [] c2 _.
    apply keeps_seq; [apply _| |].
    + case_prog; [|apply keeps_ret; apply _]. apply commit_steady. intros c3 Hp _.
      apply keeps_seq; [apply _|by apply queueCommittedEntries_steady|].
      intros [] c4 _. apply keeps_ret; apply _.
    + intros changed c3 _. apply keeps_get. apply keeps_seq; [apply _| |].
      * case_prog; [|apply keeps_ret; apply _].
        apply keeps_seq; [apply _|apply calm_steady, queueEntries_calm|].
        intros [] c4 _. apply keeps_ret; apply _.
      * intros through c4 _. apply queueAppendResponse_steady.
  - case_goal; [apply keeps_throw; apply _|].
    apply mute_then; [by apply handleLeaderContact_mute|]. intros [] c1 _.
    apply steady_safe, queueAppendResponse_steady.
Qed.

Lemma handleAppendResponse_safe (r : AppendEntriesResponse) (c : Core) :
  messages c = [] → safe (handleAppendResponse r) c.
Proof.
  intros Hm. apply keeps_pre. intros Hinv. apply keeps_get. cbv zeta.
  destruct (isLeader c) eqn:Hl; [|apply keeps_ret; apply _]. cbn [negb orb].
  case_prog; [apply keeps_ret; apply _|]. case_prog; [|apply keeps_ret; apply _].
  case_prog; [apply keeps_ret; apply _|]. case_prog; [apply keeps_ret; apply _|].
  assert (∀ p c', stable c c' → calm (putMap progress (AEResp_ResponderID r) p) c') as Hput.
  { intros q c' S'. apply keeps_pre. intros I'. apply putProgress_calm.
    by apply (leader_progress c c'). }
  assert (∀ c', stable c c' → calm (putSet quorumResponses (AEResp_ResponderID r)) c') as Hquo.
  { intros c' S'. apply keeps_pre. intros I'. apply putQuorum_calm.
    by apply (leader_progress c c'). }
  destruct (Z.ltb_spec (term_of c) (AEResp_Term r)).
  { apply calm_then; [by apply Hput|]. intros [] c1 Q1. apply calm_then; [apply Hquo, Q1|].
    intros [] c2 Q2. eapply keeps_weaken; [|apply adoptHigherTerm_safe].
    - by intros c' [].
    - pose proof (st_term _ _ (qt_stable _ _ Q1)). pose proof (st_term _ _ (qt_stable _ _ Q2)). lia.
    - rewrite (qt_messages _ _ Q2), (qt_messages _ _ Q1). done. }
  apply steady_safe. case_prog.
  - case_prog; [|apply keeps_throw; apply _]. case_prog; [apply keeps_throw; apply _|].
    apply keeps_seq; [apply _|by apply calm_steady, Hput|]. intros [] c1 S1.
    apply keeps_seq; [apply _|by apply calm_steady, Hquo|]. intros [] c2 S2.
    apply keeps_seq; [apply _|apply advanceLeaderCommit_steady|]. intros [] c3 _.
    case_prog; [apply issueAppend_steady|apply keeps_ret; apply _].
  - apply (keeps_seq_rel _ _ quiet); [|apply qt_stable|].
    { repeat (case_prog; try (apply keeps_ret; apply _); try (apply keeps_throw; apply _)). }
    intros next c1 Q1. case_prog; [|apply keeps_throw; apply _].
    case_prog; [|apply keeps_throw; apply _]. case_prog.
    + apply keeps_seq; [apply _|by apply calm_steady, Hput, Q1|]. intros [] c2 S2.
      apply calm_steady, Hquo. transitivity c1; [apply Q1|done].
    + case_prog; [apply keeps_throw; apply _|].
      apply keeps_seq; [apply _|by apply calm_steady, Hput, Q1|]. intros [] c2 S2.
      apply keeps_seq; [apply _|apply calm_steady, Hquo; transitivity c1; [apply Q1|done]|].
      intros [] c3 _. apply issueAppend_steady.
Qed.

End RaftCoreInv.
