(* ===== verification/RaftCoreOps.v ===== *)
(** * Safety of the operations of the Raft core

    Every exported operation of [core.go] keeps the invariant of [RaftCoreInv]
    and moves the core forward in [core_mono]; stated for single operations and
    for arbitrary sequences of them. *)

From S2P Require Import Prelude Random RaftTypes RaftLog RaftVoters RaftCodec RaftCore RaftCoreInv.

Module RaftCoreOps.
Import Random RaftLog RaftVoters RaftCodec RaftCore RaftCoreInv.

(** ** Operations *)

(** The exported operations as data; [OpStep] carries the authenticated sender. *)
Inductive core_op :=
| OpTick (t : Z)
| OpStep (sender : Z) (rpc : interfaceRPC)
| OpPropose (kind : EntryKind) (command : list byte)
| OpCompactSnapshot (metadata : SnapshotMetadata)
| OpStartTransfer (peer : Z) (snapshot : Snapshot) (id : TransferID) (chunkLimit : Z)
| OpReady
| OpAdvanceReady (token : ReadyToken)
| OpComplete (token : ReadyToken) (result : SnapshotActionResult).

Definition ignore {A} (m : M Core error A) : M Core error unit := let! _ := m in ret tt.

Definition runOp (op : core_op) : M Core error unit :=
  match op with
  | OpTick t => Tick t
  | OpStep sender rpc => Step sender rpc
  | OpPropose kind command => ignore (proposeTracked kind command)
  | OpCompactSnapshot metadata => CompactSnapshot metadata
  | OpStartTransfer peer snapshot id chunkLimit =>
    StartSnapshotTransfer peer snapshot id chunkLimit
  | OpReady => ignore Core_Ready
  | OpAdvanceReady token => Advance token
  | OpComplete token result => ignore (CompleteSnapshotAction token result)
  end.

(** The votes an operation may count for [local]. *)
Definition op_votes (local : Z) (op : core_op) : gset (Z * Z) :=
  match op with
  | OpStep _ rpc =>
    match normalizeRPC rpc with
    | Some (RPC_RequestVoteResponse r) => counted local r
    | _ => ∅
    end
  | _ => ∅
  end.

Lemma requireIdle_calm (c : Core) : calm requireIdle c.
Proof.
  apply keeps_get. case_prog; [apply keeps_throw; apply _|].
  case_prog; [apply keeps_throw; apply _|apply keeps_ret; apply _].
Qed.

(** After [requireIdle] the core is unchanged and its batch is empty. *)
Lemma idle_then {A : Type} (R : Core → Core → Prop) `{!PreOrder R} (m : M Core error A) (c : Core) :
  (terminalErr c = None → hasPending c = false → messages c = [] → keeps core_inv R m c) →
  keeps core_inv R (requireIdle ;;! m) c.
Proof.
  intros Hm Hinv. unfold requireIdle, bind, get, throw, ret.
  destruct (terminalErr c) eqn:Ht; [split_and!; done || reflexivity|].
  destruct (hasPending c) eqn:Hp; [split_and!; done || reflexivity|].
  apply Hm; [done|done| |done]. by rewrite (ci_idle c Hinv Hp).
Qed.

Lemma Tick_safe (t : Z) (c : Core) : safe (Tick t) c.
Proof.
  apply idle_then; [apply _|]. intros _ _ Hm. apply keeps_get. case_prog; [apply keeps_throw; apply _|].
  case_prog; [apply tickLeader_safe|].
  case_prog; [apply calm_safe, setNow_calm|].
  case_prog; [apply calm_safe, setNow_calm|apply startPreVote_safe].
Qed.

Lemma ValidateRPCSender_ok (m : RPC) (sender : Z) (vs : VoterSet) :
  voters_wf vs → ValidateRPCSender (InterfaceValue m) sender vs = Ok tt →
  (rpcActor m).1 = sender ∧ sender ∈ ids vs.
Proof.
  intros Hwf. unfold ValidateRPCSender. destruct (Contains vs sender) eqn:Hc; [|done]. simpl.
  intros H. split; [|by apply Contains_spec]. revert H.
  destruct m; simpl; repeat (case_goal; try done); bool_hyps; done.
Qed.

Lemma ValidateRPCSender_returns (rpc : interfaceRPC) (sender : Z) (vs : VoterSet) :
  ValidateRPCSender rpc sender vs ≠ Panic.
Proof.
  unfold ValidateRPCSender. case_goal; [done|]. case_goal; [|done].
  destruct r; simpl; repeat (case_goal; try done).
Qed.

Lemma ValidateRPCSender_normalize (rpc : interfaceRPC) (m : RPC) (sender : Z) (vs : VoterSet) :
  normalizeRPC rpc = Some m →
  ValidateRPCSender rpc sender vs = ValidateRPCSender (InterfaceValue m) sender vs.
Proof. intros H. unfold ValidateRPCSender. by rewrite H. Qed.

Lemma keeps_empty {A : Type} (X : gset (Z * Z)) (m : M Core error A) (c : Core) :
  safe m c → keeps core_inv (core_le X) m c.
Proof. apply keeps_weaken. intros c'. apply core_le_mono. set_solver. Qed.

Lemma Step_grows (sender : Z) (rpc : interfaceRPC) (c : Core) :
  keeps core_inv (core_le (op_votes (localID c) (OpStep sender rpc))) (Step sender rpc) c.
Proof.
  apply keeps_pre. intros Hinv. apply idle_then; [apply _|]. intros _ _ Hm. apply keeps_get.
  apply keeps_lift_bind; [apply _|intros _; apply ValidateRPCSender_returns|]. intros [] Hv.
  simpl op_votes. destruct (normalizeRPC rpc) as [m|] eqn:Hn; [|apply keeps_throw; apply _].
  rewrite (ValidateRPCSender_normalize rpc m) in Hv by done.
  apply ValidateRPCSender_ok in Hv as [Ha Hid]; [|apply Hinv].
  apply (keeps_seq_rel _ _ eq); [|by intros c' <-|].
  { intros _. destruct m; unfold bind, lift, ret;
      try (match goal with |- context [validateRPC ?m ?l] =>
        destruct (validateRPC_total l m) as [->|[e ->]]; done end).
    pose proof (EncodeRPC_returns (appendLimits c) (InterfaceValue (RPC_AppendEntriesRequest m))
      (ci_limits c Hinv)). destruct (EncodeRPC _ _); done. }
  intros [] c' <-. destruct m; simpl in Ha; subst sender.
  - apply keeps_ret; apply _.
  - apply keeps_ret; apply _.
  - by apply keeps_empty, steady_safe, handlePreVoteRequest_steady.
  - by apply keeps_empty, handlePreVoteResponse_safe.
  - by apply keeps_empty, handleVoteRequest_safe.
  - by apply handleVoteResponse_grows.
  - by apply keeps_empty, handleAppendRequest_safe.
  - by apply keeps_empty, handleAppendResponse_safe.
  - by apply keeps_empty, handleInstallSnapshotRequest_safe.
  - by apply keeps_empty, handleInstallSnapshotResponse_safe.
  - apply keeps_ret; apply _.
Qed.

Lemma ignore_keeps {A : Type} (R : Core → Core → Prop) (m : M Core error A) (c : Core) :
  keeps core_inv R m c → keeps core_inv R (ignore m) c.
Proof.
  intros Hm Hinv. destruct (Hm Hinv) as (? & ? & ?). unfold ignore, bind.
  destruct (m c) as [[] c']; done.
Qed.

(** Making the proposal maps and adding one proposal. *)
Lemma trackProposal_calm (id : Z) (entry : Entry) (c : Core) :
  calm (modify (λ c, match pendingProposals c with
          | None => c <| pendingProposals := Some ∅ |> <| proposalAtIndex := Some ∅ |>
          | Some _ => c
          end) ;;!
        putMap pendingProposals id entry ;;!
        modify (λ c, c <| pendingProposalOrder ::= (λ l, l ++ [id]) |>) ;;!
        putMap proposalAtIndex (Entry_Index entry) id) c.
Proof.
  intros Hinv. pose proof (ci_proposals c Hinv) as Hp.
  unfold bind, modify, putMap, bind, get, put, panic.
  destruct (pendingProposals c) as [m|] eqn:Hm; simpl.
  - destruct Hp as [m' Hm']; [by eexists|]. rewrite Hm. simpl. rewrite Hm'. simpl.
    split; [done|split; [solve_inv|solve_quiet]].
  - split; [done|split; [solve_inv|solve_quiet]].
Qed.

Lemma proposeTracked_safe (kind : EntryKind) (command : list byte) (c : Core) :
  safe (proposeTracked kind command) c.
Proof.
  apply idle_then; [apply _|]. intros _ _ Hm. apply keeps_get.
  destruct (isLeader c) eqn:Hl; [|apply keeps_throw; apply _]. cbn [negb].
  do 4 (case_prog; [apply keeps_throw; apply _|]).
  case_prog; [|apply keeps_throw; apply _]. case_prog; [|apply keeps_throw; apply _].
  apply keeps_lift_bind; [apply _|intros _; unfold NewEntry; by repeat case_goal|].
  intros entry _. apply steady_safe. cbv zeta.
  apply keeps_seq; [apply _|apply appendOwn_steady|]. intros [] c1 S1.
  apply keeps_seq; [apply _|apply calm_steady, keeps_modify; solve_step|]. intros [] c2 S2.
  intros Hinv2. rewrite bind_group4. revert Hinv2.
  apply keeps_seq; [apply _|apply calm_steady, trackProposal_calm|]. intros [] c3 S3.
  assert (stable c c3) as S03 by (transitivity c1; [done|]; by transitivity c2).
  apply keeps_seq; [apply _| |].
  { apply keeps_pre. intros I3. apply calm_steady, putProgress_calm.
    by apply (leader_progress c c3). }
  intros [] c4 _. apply keeps_seq; [apply _|apply calm_steady, queueEntries_calm|].
  intros [] c5 _. apply keeps_seq; [apply _|apply forPeers_steady; intros; apply issueAppend_steady|].
  intros [] c6 _. apply keeps_ret; apply _.
Qed.

Lemma Compact_commit (l : Log) (i t : Z) :
  log_wf l → commitIndex (Compact i t l).2 = commitIndex l ∧ (Compact i t l).1 ≠ Panic.
Proof.
  intros Hwf. by destruct (Compact_cases l i t Hwf) as [(e & ->)|[(-> & _)|(_ & _ & ->)]].
Qed.

Lemma CompactSnapshot_steady (metadata : SnapshotMetadata) (c : Core) :
  steady (CompactSnapshot metadata) c.
Proof.
  apply idle_then; [apply _|]. intros _ _ Hm. apply keeps_seq; [apply _| |].
  - intros Hinv. unfold onLog. pose proof (ci_log c Hinv) as Hwf.
    pose proof (Compact_safe (log c) (LastIncludedIndex metadata) (LastIncludedTerm metadata) Hwf) as [? ?].
    pose proof (Compact_commit (log c) (LastIncludedIndex metadata) (LastIncludedTerm metadata) Hwf) as [? ?].
    destruct (Compact _ _ (log c)) as [o l]. simpl in *.
    split; [done|split; [solve_inv; congruence|solve_stable]].
  - intros [] c1 _. apply calm_steady, keeps_modify. intros Hinv.
    destruct (isLeader c1) eqn:Hl; [|split; [done|reflexivity]].
    split; [|solve_quiet]. destruct (leader_maps c1 Hinv Hl) as [[p Hp] _].
    solve_inv. rewrite Hp. destruct (role c1); naive_solver.
Qed.

Lemma CompactSnapshot_safe (metadata : SnapshotMetadata) (c : Core) :
  safe (CompactSnapshot metadata) c.
Proof. apply steady_safe, CompactSnapshot_steady. Qed.

Lemma StartSnapshotTransfer_steady (peer : Z) (snapshot : Snapshot) (id : TransferID) (limit : Z)
    (c : Core) :
  steady (StartSnapshotTransfer peer snapshot id limit) c.
Proof.
  apply idle_then; [apply _|]. intros _ _ Hm. apply keeps_get.
  destruct (isLeader c) eqn:Hl; [|apply keeps_throw; apply _]. cbn [negb].
  case_prog; [|apply keeps_throw; apply _].
  do 4 (case_prog; [apply keeps_throw; apply _|]).
  apply (keeps_seq_rel _ _ (λ c c', stable c c' ∧ is_Some (outgoingSnapshots c'))).
  { apply keeps_modify. intros Hinv. destruct (outgoingSnapshots c) eqn:Ho.
    - split_and!; [done|reflexivity|by eexists].
    - split_and!; [solve_inv|solve_stable|by eexists]. }
  { by intros c' []. }
  intros [] c1 [S1 Ho1]. case_prog; [apply keeps_throw; apply _|].
  apply keeps_seq; [apply _|by apply calm_steady, putOutgoing_calm|]. intros [] c2 S2.
  apply keeps_seq; [apply _| |intros [] c3 _; apply issueSnapshotChunk_steady].
  apply keeps_pre. intros I2. apply calm_steady, putProgress_calm.
  apply (leader_progress c c2); [done|by transitivity c1|done].
Qed.

Lemma StartSnapshotTransfer_safe (peer : Z) (snapshot : Snapshot) (id : TransferID) (limit : Z)
    (c : Core) :
  safe (StartSnapshotTransfer peer snapshot id limit) c.
Proof. apply steady_safe, StartSnapshotTransfer_steady. Qed.

Lemma Core_Ready_safe (c : Core) : safe Core_Ready c.
Proof.
  apply keeps_get. destruct (hasPending c) eqn:Hp; [|apply keeps_ret; apply _]. cbn [negb].
  case_prog; [|apply keeps_ret; apply _]. case_prog.
  - apply keeps_seq; [apply _| |intros [] c1 _; apply keeps_ret; apply _].
    apply keeps_modify. intros Hinv. split; [solve_inv|solve_le].
  - apply keeps_seq; [apply _| |intros [] c1 _; apply keeps_get, keeps_ret; apply _].
    apply keeps_modify. intros Hinv. split; [solve_inv; congruence|solve_le].
Qed.

(** ** Progress of the whole core *)

(** What every operation preserves of the configuration, the vote and the votes
    counted. *)
Record core_mono (X : gset (Z * Z)) (c c' : Core) : Prop := {
  mo_local : localID c' = localID c;
  mo_voters : voters c' = voters c;
  mo_vote : vote_le (hardState c) (hardState c');
  mo_votes : ∀ r, r ∈ default ∅ (votes c') →
    r = localID c ∨ (r ∈ default ∅ (votes c) ∧ term_of c' = term_of c) ∨ (r, term_of c') ∈ X
}.

#[global] Instance core_mono_preorder (X : gset (Z * Z)) : PreOrder (core_mono X).
Proof.
  split.
  - intros c. split; try reflexivity; auto.
  - intros c1 c2 c3 [] []. split; try congruence; [by etransitivity|].
    intros r Hr. rewrite mo_local0 in *.
    destruct (mo_votes1 r Hr) as [->|[[Hr2 ->]|HX]]; [by left| |by right; right]. auto.
Qed.

Lemma core_le_core_mono (X : gset (Z * Z)) (c c' : Core) : core_le X c c' → core_mono X c c'.
Proof. intros []. split; try done. apply le_hard0. Qed.

(** [Advance] empties the batch and changes nothing else but the applied index. *)
Record advanced (c c' : Core) : Prop := {
  av_local : localID c' = localID c;
  av_voters : voters c' = voters c;
  av_hard : hardState c' = hardState c;
  av_log : log_extends (log c) (log c');
  av_role : role c' = role c;
  av_votes : votes c' = votes c
}.

Lemma Advance_safe (token : ReadyToken) (c : Core) :
  keeps core_inv advanced (Advance token) c.
Proof.
  assert (advanced c c) as Hrefl by (split; done || reflexivity).
  apply keeps_pre. intros Hinv. unfold Advance. apply keeps_get.
  case_prog; [by intros _|]. case_prog; [by intros _|]. case_prog; [by intros _|]. intros _.
  assert (∀ l, log_wf l → commitIndex l = commitIndex (log c) → log_extends (log c) l →
    let c' := c <| log := l |> <| pendingReady := Ready_zero |> <| hasPending := false |>
                <| snapshotActionDone := false |> in core_inv c' ∧ advanced c c') as Hdone.
  { intros l Hwf Hc Hext. simpl. split; [|by split].
    destruct Hinv. constructor; unfold role_ok in *; simpl in *; try done. congruence. }
  pose proof (ci_log c Hinv) as Hwf. destruct (last _) as [e|]; unfold bind, modify.
  - unfold onLog. pose proof (AdvanceApplied_safe (log c) (Entry_Index e) Hwf) as [Hw He].
    revert Hw He. unfold AdvanceApplied, bind, get.
    assert (c <| log := log c |> = c) as Hsame by (by destruct c).
    case_goal; simpl; [by rewrite Hsame|]. case_goal; simpl; [by rewrite Hsame|].
    intros Hw He. split; [done|]. by apply Hdone.
  - destruct (Hdone (log c) Hwf eq_refl (reflexivity _)) as [Hi Ha]. split; [done|].
    replace (c <| log := log c |>) with c in Hi, Ha by (by destruct c). by split.
Qed.

Lemma finishAction_calm (r : InstallSnapshotRequest) (ok done_ : bool) (next : Z) (c : Core) :
  calm (finishAction r ok done_ next) c.
Proof.
  apply keeps_seq; [apply _|apply keeps_modify; solve_step|]. intros [] c1 _.
  apply keeps_get, keeps_ret; apply _.
Qed.

(** The result of an installation is a value of its Go types. *)
Definition result_typed (result : SnapshotActionResult) : Prop :=
  is_u64 (LastIncludedIndex (RS_SnapshotBase (SAR_State result))).

Lemma installState_safe (c : Core) (r : InstallSnapshotRequest) (state : RecoveredState) (l : Log) :
  is_u64 (LastIncludedIndex (RS_SnapshotBase state)) →
  installedMatches c r state = true →
  NewLog (LastIncludedIndex (RS_SnapshotBase state)) (LastIncludedTerm (RS_SnapshotBase state))
    (HardState_CommitIndex (RS_HardState state)) (RS_AppliedIndex state) (RS_Entries state) = Ok l →
  keeps (E := error) core_inv (core_mono ∅)
    (modify (λ c, c <| log := l |> <| hardState := RS_HardState state |>
                    <| incomingSnapshot := None |>)) c.
Proof.
  intros Hu Hmatch Hl. apply NewLog_wf in Hl as [Hwf Hst]; [|done].
  unfold installedMatches in Hmatch. destruct (RS_Snapshot state); [|done]. bool_hyps.
  apply keeps_modify. intros Hinv. unfold State in Hst. injection Hst as _ _ Hc _ _.
  split.
  - destruct Hinv. constructor; unfold role_ok in *; simpl in *; try done; try congruence.
    + destruct (role c); try done; destruct_and?; split_and?; try done; congruence.
    + intros h Hh. destruct (ci_recorded0 h Hh). split; congruence.
  - constructor; simpl; try done; [unfold vote_le; simpl; lia|]. intros q Hq. right. left.
    split; [done|congruence].
Qed.

Lemma CompleteSnapshotAction_safe (token : ReadyToken) (result : SnapshotActionResult) (c : Core) :
  result_typed result → keeps core_inv (core_mono ∅) (CompleteSnapshotAction token result) c.
Proof.
  intros Ht.
  assert (∀ (m : M Core error PeerMessage) c', calm m c' → keeps core_inv (core_mono ∅) m c') as Hcalm.
  { intros m c' Hm. eapply keeps_weaken; [|exact Hm]. intros c'' Hq. apply core_le_core_mono, Hq. }
  apply keeps_get. case_prog; [apply keeps_throw; apply _|].
  case_prog; [apply keeps_throw; apply _|]. case_prog; [|apply keeps_throw; apply _].
  case_prog; [apply keeps_throw; apply _|]. cbv zeta.
  case_prog.
  { apply Hcalm. apply keeps_seq; [apply _|apply setIncoming_calm|].
    intros [] c1 _. apply finishAction_calm. }
  case_prog; [|apply keeps_throw; apply _]. case_prog; [apply keeps_throw; apply _|].
  case_prog.
  { apply Hcalm. apply keeps_seq; [apply _|apply setIncoming_calm|].
    intros [] c1 _. apply finishAction_calm. }
  case_prog; [apply keeps_throw; apply _|]. case_prog; [apply keeps_throw; apply _|].
  case_prog.
  { case_prog; [apply keeps_throw; apply _|]. apply Hcalm.
    apply keeps_seq; [apply _|apply setIncoming_calm|]. intros [] c1 _. apply finishAction_calm. }
  case_prog; [apply keeps_throw; apply _|].
  destruct (installedMatches c _ _) eqn:Hm; [|apply keeps_throw; apply _]. cbn [negb].
  apply keeps_lift_bind; [apply _| |].
  { intros _. unfold asInvalidCore, NewLog. repeat case_goal; try done;
      destruct (newLogLoop _ _) eqn:Hn; simpl in *; repeat case_goal; try done;
      pose proof (newLogLoop_returns (LastIncludedIndex (RS_SnapshotBase (SAR_State result)))
        (RS_Entries (SAR_State result))) as Hr; by rewrite Hn in Hr. }
  intros installed Hl. apply keeps_seq; [apply _| |].
  - eapply installState_safe; [exact Ht|exact Hm|]. unfold asInvalidCore in Hl.
    destruct (NewLog _ _ _ _ _); congruence.
  - intros [] c1 _. apply Hcalm, finishAction_calm.
Qed.

(** ** Construction *)

(** Options hold values of their Go types, and the voter set is constructed. *)
Record options_typed (o : CoreOptions) : Prop := {
  ot_voters : voters_wf (Opt_Voters o);
  ot_term : 0 ≤ HardState_Term (Opt_HardState o);
  ot_min : 0 ≤ Opt_ElectionTimeoutMin o;
  ot_max : Opt_ElectionTimeoutMax o ≤ max_uint64;
  ot_entries : is_u16 (Opt_MaxAppendEntries o);
  ot_bytes : is_u64 (Opt_MaxAppendBytes o);
  ot_log : ∀ l, Opt_Log o = Some l → is_u64 (snapshotIndex l);
  ot_tape : ∀ tape, Opt_Random o = Some tape → Forall is_u64 tape
}.

Lemma optionLimits_typed (o : CoreOptions) : options_typed o → limits_typed (optionLimits o).
Proof.
  intros [_ _ _ _ He Hb _ _]. unfold optionLimits, limitOr. split_and!; simpl;
    repeat case_goal; unfold DefaultMaxAppendEntries in *; limit_values; ulia.
Qed.

(** A new core satisfies the invariant, has the recovered hard state, is a
    follower and has nothing pending. *)
Lemma NewCore_inv (o : CoreOptions) (c : Core) :
  options_typed o → NewCore o = Ok c →
  core_inv c ∧ hardState c = Opt_HardState o ∧ localID c = Opt_LocalID o ∧
  voters c = Opt_Voters o ∧ role c = RoleFollower ∧ votes c = None ∧ pendingReady c = Ready_zero ∧
  hasPending c = false ∧ (∀ l, Opt_Log o = Some l → snapshotIndex (log c) = snapshotIndex l).
Proof.
  intros Ht. pose proof Ht as []. unfold NewCore.
  destruct (ValidateLocalID _ _) as [[]| | |] eqn:Hid; simpl negb; cbv iota; try done.
  destruct (Opt_Log o) as [rec|]; [|done]. destruct (Opt_Random o) as [tape|]; [|done].
  cbv zeta. destruct (_ || _) eqn:Hto; [done|]. case_goal; [done|].
  destruct (asInvalidCore (EncodeRPC _ _)); simpl; try done.
  do 4 (case_goal; [done|]).
  destruct (asInvalidCore (NewLog _ _ _ _ _)) as [l| | |] eqn:Hl; simpl; try done.
  match goal with |- context [sampleDeadline 0 ?s] => set (c0 := s) end.
  assert (NewLog (snapshotIndex rec) (snapshotTerm rec) (commitIndex rec) (appliedIndex rec)
    (entries rec) = Ok l) as Hl'.
  { unfold asInvalidCore in Hl. simpl in Hl. destruct (NewLog _ _ _ _ _); congruence. }
  apply NewLog_wf in Hl' as [Hwf Hst]; [|by apply ot_log0]. unfold State in Hst.
  injection Hst as Hsi _ Hc _ _.
  assert (core_inv c0) as I0.
  { unfold ValidateLocalID in Hid. bool_hyps. destruct (_ || _) eqn:Hcon in Hid; [done|]. bool_hyps.
    constructor; unfold role_ok; simpl; try done; auto; try lia.
    - by apply Contains_spec.
    - by apply optionLimits_typed. }
  destruct (sampleDeadline_calm 0 c0 I0) as (_ & I1 & _).
  destruct (sampleDeadline_frame 0 c0) as [tape' Hf].
  destruct (sampleDeadline 0 c0) as [[d| | |] c1]; simpl in *; try done. intros [= <-].
  subst c1. split_and!; try done; [solve_inv|]. by intros l' [= <-].
Qed.

(** ** Sequences of operations *)

Definition op_typed (op : core_op) : Prop :=
  match op with OpComplete _ result => result_typed result | _ => True end.

Lemma runOp_safe (op : core_op) (c : Core) :
  op_typed op → keeps core_inv (core_mono (op_votes (localID c) op)) (runOp op) c.
Proof.
  intros Ht.
  assert (∀ (m : M Core error unit) X, keeps core_inv (core_le X) m c →
    keeps core_inv (core_mono X) m c) as Hle.
  { intros m X. apply keeps_weaken. intros c'. apply core_le_core_mono. }
  destruct op; simpl.
  - apply Hle, Tick_safe.
  - apply Hle, (Step_grows sender rpc).
  - apply Hle, ignore_keeps, proposeTracked_safe.
  - apply Hle, CompactSnapshot_safe.
  - apply Hle, StartSnapshotTransfer_safe.
  - apply Hle, ignore_keeps, Core_Ready_safe.
  - eapply keeps_weaken; [|apply Advance_safe]. intros c' []. split; try done.
    + rewrite av_hard0. reflexivity.
    + intros r Hr. right. left. split; congruence.
  - by apply ignore_keeps, CompleteSnapshotAction_safe.
Qed.

(** Run operations, continuing after an error as the owner may. *)
Fixpoint runOps (ops : list core_op) (c : Core) : outcome unit Core :=
  match ops with
  | [] => Ok c
  | op :: rest =>
    match runOp op c with
    | (Ok _, c') | (Err _, c') => runOps rest c'
    | (Panic, _) => Panic
    | (Blocked, _) => Blocked
    end
  end.

Lemma runOps_safe (c : Core) (ops : list core_op) :
  core_inv c → Forall op_typed ops →
  match runOps ops c with
  | Ok c' => core_inv c' ∧ vote_le (hardState c) (hardState c') ∧ voters c' = voters c
  | Blocked => True
  | Panic | Err _ => False
  end.
Proof.
  intros Hinv Hops. revert c Hinv.
  induction Hops as [|op ops Hop _ IH]; intros c Hinv; simpl.
  { split_and!; [done|reflexivity|done]. }
  destruct (runOp_safe op c Hop Hinv) as (Hp & Hi & Hm).
  destruct (runOp op c) as [[| | |] c1]; simpl in *; try done; specialize (IH c1 Hi);
    destruct (runOps ops c1); try done; destruct IH as (? & ? & ?); destruct Hm;
    (split_and!; [done|by etransitivity|congruence]).
Qed.

(** Case analysis on the condition a program applied to its state starts with. *)
Ltac case_outcome :=
  cbv zeta;
  match goal with |- context [((if ?b then _ else _) _).2] => destruct b end.

(** Completing a snapshot action leaves the hard state and the log, or adopts the
    durable state the storage reports after it installed the snapshot. *)
Lemma CompleteSnapshotAction_installs (token : ReadyToken) (result : SnapshotActionResult)
    (c : Core) :
  let c' := (CompleteSnapshotAction token result c).2 in
  let state := SAR_State result in
  (hardState c' = hardState c ∧ log c' = log c) ∨
  (hardState c' = RS_HardState state ∧ term_of c' = term_of c ∧ vote_of c' = vote_of c ∧
   NewLog (LastIncludedIndex (RS_SnapshotBase state)) (LastIncludedTerm (RS_SnapshotBase state))
     (HardState_CommitIndex (RS_HardState state)) (RS_AppliedIndex state) (RS_Entries state) =
     Ok (log c')).
Proof.
  cbv zeta. unfold CompleteSnapshotAction, finishAction, bind, get, modify, throw, ret, lift.
  destruct (terminalErr c); [by left|]. destruct (Ready_SnapshotActions _) as [|a [|]]; try by left.
  do 2 (case_outcome; [by left|]). destruct (incomingSnapshot c); [|by left].
  do 4 (case_outcome; [by left|]). case_outcome; [case_outcome; by left|].
  case_outcome; [by left|]. destruct (installedMatches _ _ _) eqn:Hm; [|by left]. simpl negb. cbv iota.
  unfold asInvalidCore.
  destruct (NewLog _ _ _ _ _) as [l| | |] eqn:Hl; try by left. right. simpl.
  unfold installedMatches in Hm. destruct (RS_Snapshot _); [|done]. bool_hyps. done.
Qed.

(** ** Main results *)

(** C20: No sequence of operations on a constructed core panics, whatever the
    messages, ticks, proposals and random samples are; a run is [Blocked] only when
    it waits for more samples than the tape of the core holds.  The invariant holds at
    every point of the run, and between any two points of it, after [ops1] and
    after [ops1 ++ ops2], the term does not decrease, the vote of a term, once
    cast, is the same, and the voters are those of the construction. *)
Theorem core_never_panics (o : CoreOptions) (c : Core) (ops1 ops2 : list core_op) :
  options_typed o → NewCore o = Ok c → Forall op_typed ops1 → Forall op_typed ops2 →
  match runOps ops1 c with
  | Ok c1 =>
    core_inv c1 ∧ voters c1 = voters c ∧
    match runOps ops2 c1 with
    | Ok c2 => core_inv c2 ∧ vote_le (hardState c1) (hardState c2) ∧ voters c2 = voters c
    | Blocked => True
    | Panic | Err _ => False
    end
  | Blocked => True
  | Panic | Err _ => False
  end.
Proof.
  intros Ho Hc Hops1 Hops2. apply NewCore_inv in Hc as [Hinv _]; [|done].
  pose proof (runOps_safe c ops1 Hinv Hops1) as H1.
  destruct (runOps ops1 c) as [c1| | |]; try done. destruct H1 as (Hi & _ & Hv).
  split_and!; [done..|]. pose proof (runOps_safe c1 ops2 Hi Hops2) as H2. rewrite Hv in H2. done.
Qed.


(** ** Witnesses *)

Definition exOptions (id : Z) : CoreOptions :=
  mkCoreOptions id exVoterSet (mkHardState 0 0 0) (Some (mkLog 0 0 0 0 0 [])) 0 10 20 1 0 0
    (Some (replicate 8 7)).

Lemma exOptions_typed (id : Z) : options_typed (exOptions id).
Proof.
  split; simpl; try ulia.
  - exact exVoterSet_wf.
  - intros l [= <-]. simpl. ulia.
  - intros tape [= <-]. repeat constructor; ulia.
Qed.

(** A core that times out, collects a pre-vote and a vote, and becomes leader. *)
Definition exElection : list core_op :=
  [OpTick 30; OpReady; OpAdvanceReady 1;
   OpStep 2 (InterfaceValue (RPC_PreVoteResponse (mkPreVoteResponse 2 1 0 0 1 true)));
   OpReady; OpAdvanceReady 2;
   OpStep 3 (InterfaceValue (RPC_RequestVoteResponse (mkRequestVoteResponse 3 1 1 1 true)))].

Lemma core_never_panics_witness :
  ∃ c c1, NewCore (exOptions 1) = Ok c ∧ runOps (take 3 exElection) c = Ok c1 ∧
    match runOps (drop 3 exElection) c1 with
    | Ok c2 => role c2 = RoleLeader ∧ vote_le (hardState c1) (hardState c2)
    | _ => False
    end.
Proof.
  destruct (NewCore (exOptions 1)) as [c| | |] eqn:Hc; [|exfalso; revert Hc; vm_compute; discriminate..].
  pose proof (core_never_panics (exOptions 1) c (take 3 exElection) (drop 3 exElection)
    (exOptions_typed 1) Hc ltac:(repeat constructor) ltac:(repeat constructor)) as H.
  assert (match NewCore (exOptions 1) with
    | Ok c => match runOps (take 3 exElection) c with
      | Ok c1 => match runOps (drop 3 exElection) c1 with
        | Ok c2 => bool_decide (role c2 = RoleLeader) | _ => false end
      | _ => false end
    | _ => false end = true) as Hl by (vm_compute; reflexivity).
  rewrite Hc in Hl.
  destruct (runOps (take 3 exElection) c) as [c1| | |] eqn:Hr1; try discriminate Hl.
  exists c, c1. split_and!; [reflexivity|exact Hr1|].
  destruct (runOps (drop 3 exElection) c1) as [c2| | |]; try discriminate Hl.
  split; [by apply bool_decide_eq_true in Hl|apply H].
Defined.


End RaftCoreOps.
