(* ===== verification/RaftCoreTyped.v ===== *)
(** * Field widths of the core

    The Go types bound every field of the core.  The operations of [core.go] keep
    the values of the model inside those bounds, so that what the core asks to be
    persisted or staged is a value of its Go type. *)

From S2P Require Import Prelude Random RaftTypes RaftLog RaftVoters RaftCodec RaftCore RaftCoreInv RaftCoreOps.

Module RaftCoreTyped.
Import Random RaftLog RaftVoters RaftCodec RaftCore RaftCoreInv RaftCoreOps.

Definition hs_typed (h : HardState) : Prop :=
  is_u64 (HardState_Term h) ∧ is_u16 (HardState_VotedFor h).

Record log_typed (l : Log) : Prop := {
  lt_entries : Forall entry_typed (entries l);
  lt_last : is_u64 (lastIndex l);
  lt_base : is_u64 (snapshotIndex l) ∧ is_u64 (snapshotTerm l)
}.

Record core_typed (c : Core) : Prop := {
  ct_local : is_u16 (localID c);
  ct_hard : hs_typed (hardState c);
  ct_log : log_typed (log c);
  ct_ready : Forall entry_typed (Ready_Entries (pendingReady c));
  ct_staged : ∀ a, a ∈ Ready_SnapshotActions (pendingReady c) → SA_Kind a = SnapshotActionStage →
    rpc_typed (RPC_InstallSnapshotRequest (SA_Request a))
}.

#[local] Arguments rpc_typed : simpl never.

(** The fields of a typed message. *)
Ltac rpc_fields H := unfold rpc_typed in H; rewrite ?Forall_cons in H; destruct_and? H.

(** [m] keeps the widths, on every outcome. *)
Definition typed {A} (m : CoreM A) : Prop := ∀ c, core_typed c → core_typed (m c).2.

Lemma typed_ret {A} (a : A) : typed (ret a : CoreM A).
Proof. by intros c. Qed.
Lemma typed_throw {A} (e : error) : typed (throw e : CoreM A).
Proof. by intros c. Qed.
Lemma typed_panic {A} : typed (panic : CoreM A).
Proof. by intros c. Qed.
Lemma typed_lift {A} (o : outcome error A) : typed (lift o : CoreM A).
Proof. by intros c. Qed.
Lemma typed_get {B} (k : Core → CoreM B) : (∀ c, core_typed c → typed (k c)) → typed (bind get k).
Proof. intros Hk c Hc. by apply Hk. Qed.
Lemma typed_lift_bind {A B} (o : outcome error A) (k : A → CoreM B) :
  (∀ a, o = Ok a → typed (k a)) → typed (bind (lift o) k).
Proof. intros Hk c Hc. unfold bind, lift. destruct o; simpl; auto. by apply Hk. Qed.
Lemma typed_bind {A B} (m : CoreM A) (k : A → CoreM B) :
  typed m → (∀ a, typed (k a)) → typed (bind m k).
Proof.
  intros Hm Hk c Hc. specialize (Hm c Hc). unfold bind.
  destruct (m c) as [[]]; simpl in *; auto. by apply Hk.
Qed.
Lemma typed_modify (f : Core → Core) : (∀ c, core_typed c → core_typed (f c)) → typed (modify f).
Proof. intros Hf c Hc. by apply Hf. Qed.
Lemma typed_catch {A} (m : CoreM A) : typed m → typed (catch m).
Proof. intros Hm c Hc. specialize (Hm c Hc). unfold catch. by destruct (m c) as [[]]. Qed.
Lemma typed_forEach {A} (l : list A) (f : A → CoreM unit) :
  (∀ x, x ∈ l → typed (f x)) → typed (forEach l f).
Proof.
  induction l as [|x l IH]; intros Hf; simpl; [apply typed_ret|].
  apply typed_bind; [apply Hf; set_solver|]. intros _. apply IH. intros y Hy. apply Hf. set_solver.
Qed.

Lemma forPeers_typed (f : Z → CoreM unit) : (∀ p, typed (f p)) → typed (forPeers f).
Proof.
  intros Hf. apply typed_get. intros c _. apply typed_forEach. intros v _.
  destruct (_ =? _); [apply typed_ret|apply Hf].
Qed.

Create HintDb typed.

(** Follow a program; a change of fields outside the bounds is closed. *)
Ltac typed_fields :=
  let c := fresh in intros c []; constructor; simpl in *; auto.

Ltac typed_step :=
  match goal with
  | |- typed (bind get _) => apply typed_get; intros ? ?
  | |- typed (bind (lift _) _) => apply typed_lift_bind; intros ? ?
  | |- typed (bind _ _) => apply typed_bind; [|intros ?]
  | |- typed (ret _) => apply typed_ret
  | |- typed (throw _) => apply typed_throw
  | |- typed panic => apply typed_panic
  | |- typed (lift _) => apply typed_lift
  | |- typed (catch _) => apply typed_catch
  | |- typed (forEach _ _) => apply typed_forEach; intros ? ?
  | |- typed (forPeers _) => apply forPeers_typed; intros ?
  | |- typed (match ?x with _ => _ end) => destruct x eqn:?
  | |- typed (let _ := _ in _) => cbv zeta
  | |- typed (modify _) => apply typed_modify; solve [typed_fields]
  end.
Ltac solve_typed := repeat first [solve [auto with typed] | typed_step].

(** ** Frames *)

Lemma putMap_typed {V} (proj : Core → option (gmap Z V)) `{!Setter proj} (k : Z) (v : V) :
  (∀ c x, core_typed c → core_typed (c <| proj := x |>)) → typed (putMap proj k v).
Proof. intros Hs c Hc. unfold putMap, bind, get. destruct (proj c); simpl; [by apply Hs|done]. Qed.

Lemma putSet_typed (proj : Core → option (gset Z)) `{!Setter proj} (k : Z) :
  (∀ c x, core_typed c → core_typed (c <| proj := x |>)) → typed (putSet proj k).
Proof. intros Hs c Hc. unfold putSet, bind, get. destruct (proj c); simpl; [by apply Hs|done]. Qed.

#[local] Hint Extern 1 (typed (putMap _ _ _)) => apply putMap_typed; intros ? ? []; by constructor : typed.
#[local] Hint Extern 1 (typed (putSet _ _)) => apply putSet_typed; intros ? ? []; by constructor : typed.
#[local] Hint Extern 1 (typed (deleteMap _ _)) => apply typed_modify; intros ? []; by constructor : typed.

Lemma recordHardState_typed : typed recordHardState.
Proof. apply typed_modify. typed_fields. Qed.
Lemma queueMessage_typed to rpc q : typed (queueMessage to rpc q).
Proof. apply typed_modify. typed_fields. Qed.
Lemma queueEntries_typed (es : list Entry) : Forall entry_typed es → typed (queueEntries es).
Proof. intros He. apply typed_modify. intros c []. constructor; simpl; auto. by apply Forall_app. Qed.
Lemma queueSnapshotAction_typed (a : SnapshotAction) :
  (SA_Kind a = SnapshotActionStage → rpc_typed (RPC_InstallSnapshotRequest (SA_Request a))) →
  typed (queueSnapshotAction a).
Proof.
  intros Ha. apply typed_modify. intros c []. constructor; simpl; auto.
  intros a' [Hin| ->%list_elem_of_singleton]%elem_of_app; auto.
Qed.
#[local] Hint Resolve recordHardState_typed queueMessage_typed : typed.

Lemma cancelIncomingSnapshot_typed : typed cancelIncomingSnapshot.
Proof. unfold cancelIncomingSnapshot. solve_typed. by apply queueSnapshotAction_typed. Qed.
Lemma abortSnapshot_typed r : typed (abortSnapshot r).
Proof. by apply queueSnapshotAction_typed. Qed.

Lemma drawBelow_typed (b : Z) : typed (drawBelow b).
Proof. intros c []. unfold drawBelow. destruct (Uint64n b (random c)). by constructor. Qed.
#[local] Hint Resolve cancelIncomingSnapshot_typed abortSnapshot_typed drawBelow_typed : typed.
Lemma sampleDeadline_typed (t : Z) : typed (sampleDeadline t).
Proof. unfold sampleDeadline. solve_typed. Qed.
Lemma removePendingProposalOrder_typed id : typed (removePendingProposalOrder id).
Proof. unfold removePendingProposalOrder. solve_typed. Qed.
#[local] Hint Resolve sampleDeadline_typed removePendingProposalOrder_typed : typed.
Lemma resolveCommittedProposal_typed e : typed (resolveCommittedProposal e).
Proof. unfold resolveCommittedProposal. solve_typed. Qed.
Lemma failPendingProposals_typed e : typed (failPendingProposals e).
Proof. unfold failPendingProposals. solve_typed. Qed.
#[local] Hint Resolve resolveCommittedProposal_typed failPendingProposals_typed : typed.

(** ** Terms and votes *)

Lemma adoptHigherTerm_typed (term : Z) : is_u64 term → typed (adoptHigherTerm term).
Proof.
  intros Ht. unfold adoptHigherTerm. solve_typed.
  - apply typed_modify. intros c []. constructor; simpl; auto. split; [done|]. simpl. ulia.
  - apply typed_modify. intros c Hc. destruct (_ <? _); [destruct Hc; by constructor|done].
Qed.
#[local] Hint Resolve adoptHigherTerm_typed : typed.

Lemma startPreVote_typed (t : Z) : typed (startPreVote t).
Proof. unfold startPreVote. solve_typed. Qed.
Lemma handlePreVoteRequest_typed r : typed (handlePreVoteRequest r).
Proof. unfold handlePreVoteRequest. solve_typed. Qed.
Lemma startElection_typed (v : Z) : typed (startElection v).
Proof.
  unfold startElection. solve_typed. apply typed_modify. intros c0 []. constructor; simpl; auto.
  destruct H as [_ [Ht _] _ _ _]. bool_hyps. split; simpl; [ulia|done].
Qed.
#[local] Hint Resolve startPreVote_typed handlePreVoteRequest_typed startElection_typed : typed.
Lemma handlePreVoteResponse_typed r : typed (handlePreVoteResponse r).
Proof. unfold handlePreVoteResponse. solve_typed. Qed.
Lemma queueVoteResponse_typed r g h : typed (queueVoteResponse r g h).
Proof. unfold queueVoteResponse. solve_typed. Qed.
#[local] Hint Resolve handlePreVoteResponse_typed queueVoteResponse_typed : typed.

Lemma handleVoteRequest_typed (r : RequestVoteRequest) :
  rpc_typed (RPC_RequestVoteRequest r) → typed (handleVoteRequest r).
Proof.
  intros Hr. rpc_fields Hr. unfold handleVoteRequest. solve_typed.
  apply typed_modify. intros c1 []. constructor; simpl; auto. destruct ct_hard0. by split.
Qed.
#[local] Hint Resolve handleVoteRequest_typed : typed.

(** ** Logs *)

(** A log operation keeps the widths. *)
Definition log_keeps {E A} (m : M Log E A) : Prop := ∀ l, log_typed l → log_typed (m l).2.

Lemma onLog_typed {A} (m : M Log error A) : log_keeps m → typed (onLog m).
Proof.
  intros Hm c []. unfold onLog. specialize (Hm _ ct_log0). destruct (m (log c)). by constructor.
Qed.

Lemma AdvanceCommit_keeps i : log_keeps (AdvanceCommit i).
Proof.
  intros l Hl. unfold AdvanceCommit, bind, get. repeat case_goal; try done. destruct Hl. by constructor.
Qed.
Lemma AdvanceApplied_keeps i : log_keeps (AdvanceApplied i).
Proof.
  intros l Hl. unfold AdvanceApplied, bind, get. repeat case_goal; try done. destruct Hl. by constructor.
Qed.

Lemma Compact_keeps (i t : Z) : is_u64 i → is_u64 t → log_keeps (Compact i t).
Proof.
  intros Hi Ht l Hl. unfold Compact, bind, get, lift. do 5 (case_goal; try done).
  destruct (Log_Term l i); try done. case_goal; [done|]. destruct (retainedOffset l i); try done.
  destruct Hl. constructor; simpl; auto. by apply Forall_drop.
Qed.

Lemma installSuffix_keeps (kept owned : list Entry) :
  Forall entry_typed kept → Forall entry_typed owned → log_keeps (installSuffix kept owned).
Proof.
  intros Hk Ho l []. unfold installSuffix, lastEntryIndex, bind, lift.
  destruct (last owned) as [e|] eqn:He; [|done]. constructor; simpl; auto; [by apply Forall_app|].
  apply last_Some_elem_of in He. rewrite Forall_forall in Ho. by destruct (Ho _ He).
Qed.

Lemma Append_keeps (i t : Z) (es : list Entry) : Forall entry_typed es → log_keeps (Append i t es).
Proof.
  intros He l Hl. unfold Append, bind at 1, get.
  destruct (Log_Term l i) as [lt|e| |]; try done.
  - case_goal; [unfold bind, lift; by destruct (hinted _ _)|]. case_goal; [done|].
    unfold bind, lift. destruct (hinted _ (appendCheckLoop i es)); try done. clear -He Hl. revert l Hl.
    induction He as [|e es Hx He IH]; intros l Hl; [done|]. cbn [appendLoop]. unfold bind at 1, get.
    case_goal; [apply installSuffix_keeps; [apply Hl|by constructor|done]|].
    unfold bind, lift. destruct (hinted _ (retainedOffset _ _)) as [o| | |]; try done.
    destruct (hinted _ (entryAt _ _)); try done. case_goal; [by apply IH|]. case_goal; [done|].
    apply installSuffix_keeps; [apply Forall_take, Hl|by constructor|done].
  - destruct e; try done. destruct (checkedNextIndex _); done.
Qed.

Lemma newLogLoop_last (next last_ : Z) (es : list Entry) :
  is_u64 next → Forall entry_typed es → newLogLoop next es = Ok last_ → is_u64 last_.
Proof.
  intros Hn He. revert next Hn. induction He as [|e es Hx He IH]; intros next Hn; simpl.
  { by intros [= <-]. }
  unfold checkedNextIndex. case_goal; [done|]. case_goal; [done|].
  destruct (validateLogEntry e); simpl; try done. apply IH. bool_hyps. ulia.
Qed.

Lemma NewLog_typed (si st ci ai : Z) (es : list Entry) (l : Log) :
  is_u64 si → is_u64 st → Forall entry_typed es → NewLog si st ci ai es = Ok l → log_typed l.
Proof.
  intros Hsi Hst He. unfold NewLog. repeat (case_outer; [done|]). case_outer; [|done..].
  repeat (case_outer; [done|]). intros [= <-]. constructor; simpl; auto. by apply (newLogLoop_last si _ es).
Qed.

#[local] Hint Resolve onLog_typed AdvanceCommit_keeps AdvanceApplied_keeps : typed.

(** ** Replication *)

Lemma issueAppend_typed (p : Z) : typed (issueAppend p).
Proof. unfold issueAppend. solve_typed. Qed.
#[local] Hint Resolve issueAppend_typed : typed.

Lemma queueCommittedLoop_typed (n : nat) (i : Z) : typed (queueCommittedLoop n i).
Proof. revert i. induction n as [|n IH]; intros i; simpl; solve_typed. Qed.
#[local] Hint Resolve queueCommittedLoop_typed : typed.
Lemma queueCommittedEntries_typed (p k : Z) : typed (queueCommittedEntries p k).
Proof. unfold queueCommittedEntries. solve_typed. Qed.
#[local] Hint Resolve queueCommittedEntries_typed : typed.

Lemma commit_typed (k : Z) :
  typed (modify (λ c, c <| hardState ::= (λ h, h <| HardState_CommitIndex := k |>) |>)).
Proof. apply typed_modify. intros c []. by constructor. Qed.
#[local] Hint Resolve commit_typed : typed.

Lemma advanceCommitLoop_typed (k : Z) (n : nat) : typed (advanceCommitLoop k n).
Proof. induction n as [|n IH]; cbn [advanceCommitLoop]; solve_typed. Qed.
#[local] Hint Resolve advanceCommitLoop_typed : typed.
Lemma advanceLeaderCommit_typed : typed advanceLeaderCommit.
Proof. unfold advanceLeaderCommit. solve_typed. Qed.
#[local] Hint Resolve advanceLeaderCommit_typed : typed.

Lemma issueSnapshotChunk_typed (p : Z) : typed (issueSnapshotChunk p).
Proof. unfold issueSnapshotChunk. solve_typed. Qed.
Lemma clearOutgoingSnapshot_typed (p : Z) : typed (clearOutgoingSnapshot p).
Proof. unfold clearOutgoingSnapshot. solve_typed. Qed.
#[local] Hint Resolve issueSnapshotChunk_typed clearOutgoingSnapshot_typed : typed.
Lemma replicateTo_typed (p : Z) : typed (replicateTo p).
Proof. unfold replicateTo. solve_typed. Qed.
#[local] Hint Resolve replicateTo_typed : typed.

Lemma appendOwn_typed (i t : Z) (e : Entry) : entry_typed e → typed (appendOwn i t e).
Proof.
  intros He c []. unfold appendOwn. pose proof (Append_keeps i t [e] ltac:(by constructor) _ ct_log0) as Hl.
  destruct (Append i t [e] (log c)) as [[|[]| |] l]; by constructor.
Qed.

Lemma NewEntry_typed (c : Core) (i kind : Z) (command : list byte) (e : Entry) :
  core_typed c → checkedNextIndex (lastIndex (log c)) = Some i →
  NewEntry i (HardState_Term (hardState c)) kind command = Ok e → entry_typed e.
Proof.
  intros [_ [Ht _] [_ Hl _] _ _]. unfold checkedNextIndex. case_goal; [done|]. intros [= <-].
  unfold NewEntry. repeat (case_outer; [done|]). intros [= <-]. bool_hyps. split_and!; simpl; [ulia|done|].
  destruct (Z.eqb_spec kind EntryCommand) as [->|]; [vm_compute; split; discriminate|].
  destruct (Z.eqb_spec kind EntryNoOp) as [->|]; [vm_compute; split; discriminate|done].
Qed.

Lemma becomeLeader_typed (v : Z) : typed (becomeLeader v).
Proof.
  unfold becomeLeader. apply typed_get. intros c Hc. cbv zeta.
  destruct (checkedNextIndex (lastIndex (log c))) as [i|] eqn:Hi; [|solve_typed].
  destruct (checkedNextIndex i); [|solve_typed]. apply typed_lift_bind. intros e He.
  pose proof (NewEntry_typed _ _ _ _ _ Hc Hi He).
  apply typed_bind; [by apply appendOwn_typed|]. intros _. solve_typed.
  apply queueEntries_typed. by constructor.
Qed.
#[local] Hint Resolve becomeLeader_typed : typed.

Lemma handleVoteResponse_typed (r : RequestVoteResponse) :
  rpc_typed (RPC_RequestVoteResponse r) → typed (handleVoteResponse r).
Proof. intros Hr. rpc_fields Hr. unfold handleVoteResponse. solve_typed. Qed.

Lemma stepDown_typed (t : Z) : typed (stepDownWithoutTermChange t).
Proof. unfold stepDownWithoutTermChange. solve_typed. Qed.
#[local] Hint Resolve handleVoteResponse_typed stepDown_typed : typed.
Lemma tickLeader_typed (t : Z) : typed (tickLeader t).
Proof. unfold tickLeader. solve_typed. Qed.
Lemma handleLeaderContact_typed (l t : Z) : is_u64 t → typed (handleLeaderContact l t).
Proof. intros Ht. unfold handleLeaderContact. solve_typed. Qed.
#[local] Hint Resolve tickLeader_typed handleLeaderContact_typed : typed.

(** ** Message handlers *)

Lemma handleInstallSnapshotRequest_typed (r : InstallSnapshotRequest) :
  rpc_typed (RPC_InstallSnapshotRequest r) → typed (handleInstallSnapshotRequest r).
Proof.
  intros Hr. pose proof Hr as Hf. rpc_fields Hf. unfold handleInstallSnapshotRequest. solve_typed.
  all: apply queueSnapshotAction_typed; done.
Qed.

Lemma handleInstallSnapshotResponse_typed (r : InstallSnapshotResponse) :
  rpc_typed (RPC_InstallSnapshotResponse r) → typed (handleInstallSnapshotResponse r).
Proof. intros Hr. rpc_fields Hr. unfold handleInstallSnapshotResponse. solve_typed. Qed.

Lemma queueAppendResponse_typed r s m h q : typed (queueAppendResponse r s m h q).
Proof. unfold queueAppendResponse. solve_typed. Qed.
#[local] Hint Resolve queueAppendResponse_typed : typed.

Lemma handleAppendResponse_typed (r : AppendEntriesResponse) :
  rpc_typed (RPC_AppendEntriesResponse r) → typed (handleAppendResponse r).
Proof. intros Hr. rpc_fields Hr. unfold handleAppendResponse. solve_typed. Qed.

Lemma changedLogEntries_typed (before after : list Entry) :
  Forall entry_typed after → Forall entry_typed (changedLogEntries before after).
Proof. intros Ha. unfold changedLogEntries. case_goal; [done|by apply Forall_drop]. Qed.

Lemma handleAppendRequest_typed (r : AppendEntriesRequest) :
  rpc_typed (RPC_AppendEntriesRequest r) → typed (handleAppendRequest r).
Proof.
  intros Hr. rpc_fields Hr. unfold handleAppendRequest. apply typed_get. intros c Hc.
  case_goal; [solve_typed|]. cbv zeta. apply typed_lift_bind. intros l Hl.
  assert (log_typed l) as Hlt.
  { destruct (ct_log c Hc) as [He _ [Hi Ht]]. by eapply NewLog_typed; [exact Hi|exact Ht|exact He|]. }
  pose proof (Append_keeps (AEReq_PrevLogIndex r) (AEReq_PrevLogTerm r) (AEReq_Entries r)
    ltac:(done) l Hlt) as Hl'.
  destruct (Append _ _ _ l) as [res l']. simpl in Hl'. destruct res as [|[]| |]; solve_typed.
  apply queueEntries_typed, changedLogEntries_typed. by match goal with H : core_typed c0 |- _ => apply H end.
Qed.
#[local] Hint Resolve handleInstallSnapshotRequest_typed handleInstallSnapshotResponse_typed
  handleAppendRequest_typed handleAppendResponse_typed : typed.

(** ** Operations *)

Lemma requireIdle_typed : typed requireIdle.
Proof. unfold requireIdle. solve_typed. Qed.
#[local] Hint Resolve requireIdle_typed : typed.

Lemma Tick_typed (t : Z) : typed (Tick t).
Proof. unfold Tick. solve_typed. Qed.

Lemma Step_typed (sender : Z) (rpc : interfaceRPC) :
  (∀ m, normalizeRPC rpc = Some m → rpc_typed m) → typed (Step sender rpc).
Proof.
  intros Hr. unfold Step. apply typed_bind; [apply requireIdle_typed|]. intros _. apply typed_get.
  intros c Hc. apply typed_lift_bind. intros _ _. destruct (normalizeRPC rpc) as [m|]; [|solve_typed].
  specialize (Hr m eq_refl). apply typed_bind; [|intros _].
  - destruct m; solve_typed.
  - destruct m; solve_typed.
Qed.

Lemma proposeTracked_typed (kind : Z) (command : list byte) : typed (proposeTracked kind command).
Proof.
  unfold proposeTracked. apply typed_bind; [apply requireIdle_typed|]. intros _. apply typed_get.
  intros c Hc. do 5 (case_goal; [solve_typed|]). cbv zeta.
  destruct (checkedNextIndex (lastIndex (log c))) as [i|] eqn:Hi; [|solve_typed].
  destruct (checkedNextIndex i); [|solve_typed]. apply typed_lift_bind. intros e He.
  pose proof (NewEntry_typed _ _ _ _ _ Hc Hi He).
  apply typed_bind; [by apply appendOwn_typed|]. intros _. solve_typed.
  - apply typed_modify. intros c1 Hc1. destruct (pendingProposals c1); [done|]. destruct Hc1. by constructor.
  - apply queueEntries_typed. by constructor.
Qed.

Lemma CompactSnapshot_typed (m : SnapshotMetadata) :
  is_u64 (LastIncludedIndex m) → is_u64 (LastIncludedTerm m) → typed (CompactSnapshot m).
Proof.
  intros Hi Ht. unfold CompactSnapshot. solve_typed.
  - by apply onLog_typed, Compact_keeps.
  - apply typed_modify. intros c Hc. destruct (isLeader c); [|done]. destruct Hc. by constructor.
Qed.

Lemma StartSnapshotTransfer_typed p s i l : typed (StartSnapshotTransfer p s i l).
Proof.
  unfold StartSnapshotTransfer. solve_typed. apply typed_modify. intros c1 Hc.
  destruct (outgoingSnapshots c1); [done|]. destruct Hc. by constructor.
Qed.

Lemma Core_Ready_typed : typed Core_Ready.
Proof. unfold Core_Ready. solve_typed. Qed.

Lemma Advance_typed (t : Z) : typed (Advance t).
Proof.
  unfold Advance. solve_typed; apply typed_modify; intros c1 []; constructor; simpl; auto; set_solver.
Qed.

(** A snapshot result holds values of its Go types. *)
Definition state_typed (d : RecoveredState) : Prop :=
  hs_typed (RS_HardState d) ∧ is_u64 (LastIncludedIndex (RS_SnapshotBase d)) ∧
  is_u64 (LastIncludedTerm (RS_SnapshotBase d)) ∧ Forall entry_typed (RS_Entries d).

Lemma finishAction_typed r s d n : typed (finishAction r s d n).
Proof. unfold finishAction. solve_typed. Qed.
#[local] Hint Resolve finishAction_typed : typed.

Lemma asInvalidCore_Ok {A} (o : outcome error A) (a : A) : asInvalidCore o = Ok a → o = Ok a.
Proof. by destruct o. Qed.

Lemma CompleteSnapshotAction_typed (t : Z) (r : SnapshotActionResult) :
  (SAR_Done r = true → state_typed (SAR_State r)) → typed (CompleteSnapshotAction t r).
Proof.
  intros Hr. unfold CompleteSnapshotAction. solve_typed.
  all: try solve [apply typed_modify; typed_fields].
  all: apply typed_modify; intros c1 []; constructor; simpl; auto.
  all: destruct Hr as (Hh & Hi & Ht & He); [by apply negb_false_iff|]; try done.
  all: eapply NewLog_typed; [exact Hi|exact Ht|exact He|].
  all: by apply asInvalidCore_Ok.
Qed.

Lemma NewCore_typed (o : CoreOptions) (l : Log) (c : Core) :
  is_u16 (Opt_LocalID o) → hs_typed (Opt_HardState o) → Opt_Log o = Some l → log_typed l →
  NewCore o = Ok c → core_typed c.
Proof.
  intros Hl Hh Ho Hlog. unfold NewCore. rewrite Ho. case_outer; [done|]. case_outer; [|done].
  cbv zeta. do 2 (case_outer; [done|]). case_outer; [|done..]. do 4 (case_outer; [done|]).
  case_outer; [|done..].
  match goal with |- context [sampleDeadline 0 ?s] => set (c0 := s) end.
  assert (core_typed c0) as H0.
  { constructor; simpl; auto; [|set_solver]. destruct Hlog as [He _ [Hi Ht]].
    eapply NewLog_typed; [exact Hi|exact Ht|exact He|]. by apply asInvalidCore_Ok. }
  pose proof (sampleDeadline_typed 0 c0 H0) as H1.
  destruct (sampleDeadline 0 c0) as [[] c1]; try done. simpl in H1. intros [= <-].
  destruct H1. by constructor.
Qed.

(** ** Main result *)

(** Operations whose arguments are values of their Go types. *)
Definition op_values (op : core_op) : Prop :=
  match op with
  | OpStep _ rpc => ∀ m, normalizeRPC rpc = Some m → rpc_typed m
  | OpCompactSnapshot m => is_u64 (LastIncludedIndex m) ∧ is_u64 (LastIncludedTerm m)
  | OpComplete _ result => SAR_Done result = true → state_typed (SAR_State result)
  | _ => True
  end.

Lemma runOp_typed (op : core_op) : op_values op → typed (runOp op).
Proof.
  assert (∀ A (m : CoreM A), typed m → typed (ignore m)) as Hi.
  { intros A m Hm. apply typed_bind; [done|]. intros _. apply typed_ret. }
  destruct op; simpl; intros Hv.
  - apply Tick_typed.
  - by apply Step_typed.
  - apply Hi, proposeTracked_typed.
  - apply CompactSnapshot_typed; apply Hv.
  - apply StartSnapshotTransfer_typed.
  - apply Hi, Core_Ready_typed.
  - apply Advance_typed.
  - by apply Hi, CompleteSnapshotAction_typed.
Qed.

(** C22: The core never computes a value outside its Go type: from options and
    operations whose arguments are values of their types, every sequence of
    operations keeps the local identity and the vote in 16 bits, the term, the
    positions of the log and the fields of every log entry and of every entry
    handed over for persistence in range, and hands over only typed snapshot
    chunks. *)
Theorem core_fields_in_range (o : CoreOptions) (l : Log) (c : Core) (ops : list core_op) :
  is_u16 (Opt_LocalID o) → hs_typed (Opt_HardState o) → Opt_Log o = Some l → log_typed l →
  NewCore o = Ok c → Forall op_values ops →
  match runOps ops c with Ok c' => core_typed c' | _ => True end.
Proof.
  intros Hl Hh Ho Hlog Hc Hops. assert (core_typed c) as Hct by (by eapply NewCore_typed). clear Hc.
  revert c Hct. induction Hops as [|op ops Hop _ IH]; intros c Hct; simpl; [done|].
  pose proof (runOp_typed op Hop c Hct) as H1. destruct (runOp op c) as [[] c1]; simpl in *; try done; by apply IH.
Qed.

(** ** Witness *)

Lemma core_fields_in_range_witness :
  ∃ c, NewCore (exOptions 1) = Ok c ∧
    match runOps exElection c with Ok c' => core_typed c' | _ => True end.
Proof.
  destruct (NewCore (exOptions 1)) as [c| | |] eqn:Hc; [|exfalso; revert Hc; vm_compute; discriminate..].
  exists c. split; [reflexivity|].
  apply (core_fields_in_range (exOptions 1) (mkLog 0 0 0 0 0 []) c exElection).
  - simpl. ulia.
  - split; simpl; ulia.
  - reflexivity.
  - split; simpl; [constructor|ulia|ulia].
  - exact Hc.
  - repeat constructor; simpl; intros m [= <-]; unfold rpc_typed; repeat constructor; simpl; ulia.
Defined.
End RaftCoreTyped.
