(* ===== verification/RaftSnapshot.v ===== *)
(** * Portable snapshots

    [snapshot.go]: the canonical envelope that binds the bytes of an application
    snapshot to a cluster, a voter set and a log position, its validation, and
    the installation of a received snapshot into the durable state.

    SHA-256 is a parameter; the round trip only needs its output length. *)

From S2P Require Import Prelude RaftTypes RaftLog RaftVoters RaftCodec.

Module RaftSnapshot.
Import RaftLog RaftVoters RaftCodec.

Definition SnapshotFormatVersion1 : Z := 1.
Definition snapshotEnvelopeClusterOffset : nat := 6.
Definition snapshotEnvelopeVotersOffset : nat := 22.
Definition snapshotEnvelopeIndexOffset : nat := 54.
Definition snapshotEnvelopeTermOffset : nat := 62.
Definition snapshotEnvelopeSchemaOffset : nat := 70.
Definition snapshotEnvelopeStateLengthOffset : nat := 74.
Definition snapshotEnvelopeStateChecksumOffset : nat := 82.
Definition snapshotEnvelopeChecksumOffset : nat := 114.
Definition snapshotEnvelopeHeaderBytes : nat := 146.

(** The bytes of [RFSN]. *)
Definition snapshotEnvelopeMagic : list byte := [Byte.x52; Byte.x46; Byte.x53; Byte.x4e].

Definition validateSnapshotInputs (identity : StorageIdentity) (metadata : SnapshotMetadata)
    (stateLength maximumStateBytes : Z) : outcome error unit :=
  if isZeroArray 16 (SI_ClusterID identity) || isZeroArray 32 (SI_VoterFingerprint identity)
  then Err ErrInvalidSnapshot
  else if (LastIncludedIndex metadata =? 0) || (LastIncludedTerm metadata =? 0) ||
          (StateMachineSchemaVersion metadata =? 0)
  then Err ErrInvalidSnapshot
  else if (maximumStateBytes =? 0) || (MaxRaftSnapshotBytes <? maximumStateBytes)
  then Err ErrInvalidSnapshot
  else if maximumStateBytes <? stateLength then Err ErrInvalidSnapshot
  else Ok tt.

(** The envelope with the given bytes in its checksum field. *)
Definition envelopeWith (identity : StorageIdentity) (metadata : SnapshotMetadata)
    (stateChecksum checksum state : list byte) : list byte :=
  snapshotEnvelopeMagic ++ be_bytes 2 SnapshotFormatVersion1 ++ SI_ClusterID identity ++
  SI_VoterFingerprint identity ++ be_bytes 8 (LastIncludedIndex metadata) ++
  be_bytes 8 (LastIncludedTerm metadata) ++ be_bytes 4 (StateMachineSchemaVersion metadata) ++
  be_bytes 8 (len state) ++ stateChecksum ++ checksum ++ state.

Definition recoveredEntryAt (state : RecoveredState) (index : Z) : option Entry :=
  let base := LastIncludedIndex (RS_SnapshotBase state) in
  if index <=? base then None
  else
    let offset := index - base - 1 in
    if len (RS_Entries state) <=? offset then None
    else RS_Entries state !! Z.to_nat offset.

Definition recoveredTermAt (state : RecoveredState) (index : Z) : outcome error Z :=
  if index =? 0 then Ok 0
  else if index =? LastIncludedIndex (RS_SnapshotBase state)
  then Ok (LastIncludedTerm (RS_SnapshotBase state))
  else match recoveredEntryAt state index with
       | None => Err ErrLogUnavailable
       | Some entry => Ok (Entry_Term entry)
       end.

(** The state after installing [snapshot], before it is validated. *)
Definition installSnapshotState (current : RecoveredState) (snapshot : Snapshot) :
    outcome error RecoveredState :=
  let metadata := Snapshot_Metadata snapshot in
  let index := LastIncludedIndex metadata in
  let base := LastIncludedIndex (RS_SnapshotBase current) in
  if index <=? HardState_CommitIndex (RS_HardState current) then Err ErrSnapshotRejected
  else
    let lastIndex := wrap64 (base + len (RS_Entries current)) in
    if lastIndex <? base then Err ErrLogOverflow
    else
      let? retained :=
        if index <=? lastIndex then
          let? term := recoveredTermAt current index in
          if term =? LastIncludedTerm metadata
          then Ok (drop (Z.to_nat (index - base)) (RS_Entries current))
          else Ok []
        else Ok [] in
      Ok (current <| RS_SnapshotBase := metadata |> <| RS_Snapshot := Some snapshot |>
                  <| RS_Entries := retained |>
                  <| RS_HardState ::= (λ h, h <| HardState_CommitIndex := index |>) |>
                  <| RS_AppliedIndex ::= (λ a, if a <? index then index else a) |>).

Section envelopes.
Context (sha256 : list byte → list byte).

Definition NewSnapshot (identity : StorageIdentity) (metadata : SnapshotMetadata)
    (state : list byte) (maximumStateBytes : Z) : outcome error Snapshot :=
  let? _ := validateSnapshotInputs identity metadata (len state) maximumStateBytes in
  if max_int - Z.of_nat snapshotEnvelopeHeaderBytes <? len state then Err ErrInvalidSnapshot
  else
    let stateChecksum := sha256 state in
    let envelopeChecksum := sha256 (envelopeWith identity metadata stateChecksum (zero_bytes 32) state) in
    Ok (mkSnapshot metadata (take 16 envelopeChecksum) stateChecksum state
          (envelopeWith identity metadata stateChecksum envelopeChecksum state)).

(** [envelope] with its checksum field cleared. *)
Definition clearChecksum (envelope : list byte) : list byte :=
  take snapshotEnvelopeChecksumOffset envelope ++ zero_bytes 32 ++
  drop snapshotEnvelopeHeaderBytes envelope.

Definition envelopeMetadata (envelope : list byte) : SnapshotMetadata :=
  mkSnapshotMetadata
    (be_value (sub snapshotEnvelopeIndexOffset snapshotEnvelopeTermOffset envelope))
    (be_value (sub snapshotEnvelopeTermOffset snapshotEnvelopeSchemaOffset envelope))
    (be_value (sub snapshotEnvelopeSchemaOffset snapshotEnvelopeStateLengthOffset envelope)).

Definition DecodeSnapshotEnvelope (envelope : list byte) (expected : StorageIdentity)
    (maximumStateBytes : Z) : outcome error Snapshot :=
  if len envelope <? Z.of_nat snapshotEnvelopeHeaderBytes then Err ErrInvalidSnapshot
  else if negb (bool_decide (take 4 envelope = snapshotEnvelopeMagic)) then Err ErrInvalidSnapshot
  else if negb (be_value (sub 4 6 envelope) =? SnapshotFormatVersion1) then Err ErrInvalidSnapshot
  else if negb (bool_decide (sub snapshotEnvelopeClusterOffset snapshotEnvelopeVotersOffset envelope
                               = SI_ClusterID expected)) ||
          negb (bool_decide (sub snapshotEnvelopeVotersOffset snapshotEnvelopeIndexOffset envelope
                               = SI_VoterFingerprint expected))
  then Err ErrInvalidSnapshot
  else
    let metadata := envelopeMetadata envelope in
    let stateLength :=
      be_value (sub snapshotEnvelopeStateLengthOffset snapshotEnvelopeStateChecksumOffset envelope) in
    let? _ := validateSnapshotInputs expected metadata stateLength maximumStateBytes in
    if (max_int <? stateLength) || (max_uint64 - Z.of_nat snapshotEnvelopeHeaderBytes <? stateLength)
    then Err ErrInvalidSnapshot
    else if negb (Z.of_nat snapshotEnvelopeHeaderBytes + stateLength =? len envelope)
    then Err ErrInvalidSnapshot
    else
      let wantEnvelopeChecksum :=
        sub snapshotEnvelopeChecksumOffset snapshotEnvelopeHeaderBytes envelope in
      let gotEnvelopeChecksum := sha256 (clearChecksum envelope) in
      if negb (bool_decide (gotEnvelopeChecksum = wantEnvelopeChecksum)) then Err ErrInvalidSnapshot
      else
        let state := drop snapshotEnvelopeHeaderBytes envelope in
        let gotStateChecksum := sha256 state in
        if negb (bool_decide (gotStateChecksum =
             sub snapshotEnvelopeStateChecksumOffset snapshotEnvelopeChecksumOffset envelope))
        then Err ErrInvalidSnapshot
        else Ok (mkSnapshot metadata (take 16 gotEnvelopeChecksum) gotStateChecksum state envelope).

End envelopes.

(** ** The envelope format *)

Definition identity_typed (identity : StorageIdentity) : Prop :=
  length (SI_ClusterID identity) = 16%nat ∧ length (SI_VoterFingerprint identity) = 32%nat.

Definition metadata_typed (m : SnapshotMetadata) : Prop :=
  is_u64 (LastIncludedIndex m) ∧ is_u64 (LastIncludedTerm m) ∧
  is_u32 (StateMachineSchemaVersion m).

Ltac unfold_offsets :=
  unfold snapshotEnvelopeClusterOffset, snapshotEnvelopeVotersOffset, snapshotEnvelopeIndexOffset,
    snapshotEnvelopeTermOffset, snapshotEnvelopeSchemaOffset, snapshotEnvelopeStateLengthOffset,
    snapshotEnvelopeStateChecksumOffset, snapshotEnvelopeChecksumOffset,
    snapshotEnvelopeHeaderBytes in *.

Lemma validateSnapshotInputs_bound (identity : StorageIdentity) (m : SnapshotMetadata) (n mx : Z) :
  validateSnapshotInputs identity m n mx = Ok tt → n ≤ 1073741824.
Proof.
  unfold validateSnapshotInputs. repeat (case_goal; [done|]). intros _. bool_hyps.
  change MaxRaftSnapshotBytes with 1073741824 in *. lia.
Qed.

Section format.
Context (sha256 : list byte → list byte) (sha256_length : ∀ l, length (sha256 l) = 32%nat).
Context (identity : StorageIdentity) (Hid : identity_typed identity).

(** The fields of an envelope in order. *)
Definition envelope_fields (m : SnapshotMetadata) (sc ck state : list byte) : list (list byte) :=
  [snapshotEnvelopeMagic; be_bytes 2 SnapshotFormatVersion1; SI_ClusterID identity;
   SI_VoterFingerprint identity; be_bytes 8 (LastIncludedIndex m); be_bytes 8 (LastIncludedTerm m);
   be_bytes 4 (StateMachineSchemaVersion m); be_bytes 8 (len state); sc; ck; state].

Lemma envelope_concat (m : SnapshotMetadata) (sc ck state : list byte) :
  envelopeWith identity m sc ck state = concat (envelope_fields m sc ck state).
Proof. unfold envelopeWith. cbn [envelope_fields concat]. by rewrite app_nil_r. Qed.

Ltac lengths :=
  cbn [envelope_fields take concat]; rewrite ?length_app, ?length_be_bytes; simpl length; lia.
Ltac field_at i :=
  rewrite envelope_concat; apply (sub_concat _ i); [reflexivity|lengths|lengths].

(** Every field of an assembled envelope is read back. *)
Section fields.
Context (m : SnapshotMetadata) (sc ck state : list byte).
Context (Hm : metadata_typed m) (Hsc : length sc = 32%nat) (Hck : length ck = 32%nat).
Context (Hlen : len state ≤ max_uint64).
Abbreviation e := (envelopeWith identity m sc ck state).

Lemma envelope_length : len e = 146 + len state.
Proof. destruct Hid. unfold len. rewrite envelope_concat. lengths. Qed.

Lemma envelope_bytes :
  take 4 e = snapshotEnvelopeMagic ∧ sub 6 22 e = SI_ClusterID identity ∧
  sub 22 54 e = SI_VoterFingerprint identity ∧ sub 82 114 e = sc ∧ sub 114 146 e = ck ∧
  drop 146 e = state.
Proof.
  destruct Hid. split_and!; [reflexivity|field_at 2%nat|field_at 3%nat|field_at 8%nat|field_at 9%nat|].
  assert (sub 146 (146 + length state) e = state) as He by field_at 10%nat.
  unfold sub in He. rewrite <- He at 2. symmetry. apply take_ge.
  rewrite length_drop. pose proof envelope_length. unfold len in *. lia.
Qed.

Lemma envelope_numbers :
  be_value (sub 4 6 e) = SnapshotFormatVersion1 ∧ envelopeMetadata e = m ∧
  be_value (sub 74 82 e) = len state.
Proof.
  destruct Hid, Hm as (? & ? & ?). pose proof (len_nonneg state).
  assert (sub 4 6 e = be_bytes 2 SnapshotFormatVersion1) as -> by field_at 1%nat.
  assert (sub 74 82 e = be_bytes 8 (len state)) as -> by field_at 7%nat.
  unfold envelopeMetadata. unfold_offsets.
  assert (sub 54 62 e = be_bytes 8 (LastIncludedIndex m)) as -> by field_at 4%nat.
  assert (sub 62 70 e = be_bytes 8 (LastIncludedTerm m)) as -> by field_at 5%nat.
  assert (sub 70 74 e = be_bytes 4 (StateMachineSchemaVersion m)) as -> by field_at 6%nat.
  rewrite !be_value_small by (unfold SnapshotFormatVersion1; simpl Z.pow; ulia). by destruct m.
Qed.

Lemma envelope_clear : clearChecksum e = envelopeWith identity m sc (zero_bytes 32) state.
Proof.
  destruct Hid, envelope_bytes as (_ & _ & _ & _ & _ & Hd). unfold clearChecksum.
  unfold_offsets. rewrite Hd, !envelope_concat.
  replace (take 114 _) with (concat (take 9 (envelope_fields m sc ck state))).
  - cbn [envelope_fields take concat]. by rewrite <- !app_assoc, ?app_nil_r.
  - symmetry. rewrite <- (take_drop 9 (envelope_fields m sc ck state)) at 1.
    rewrite concat_app. apply take_app_length'. lengths.
Qed.
End fields.

(** An envelope whose fields have the expected values is the assembled one. *)
Lemma envelope_rebuild (e : list byte) :
  (146 ≤ length e)%nat → take 4 e = snapshotEnvelopeMagic →
  be_value (sub 4 6 e) = SnapshotFormatVersion1 → sub 6 22 e = SI_ClusterID identity →
  sub 22 54 e = SI_VoterFingerprint identity → be_value (sub 74 82 e) = len (drop 146 e) →
  e = envelopeWith identity (envelopeMetadata e) (sub 82 114 e) (sub 114 146 e) (drop 146 e).
Proof.
  intros Hl Hmagic Hver Hcl Hvt Hsl. unfold envelopeWith, envelopeMetadata. unfold_offsets. cbn [LastIncludedIndex LastIncludedTerm StateMachineSchemaVersion].
  assert (∀ first last n, (first ≤ last ≤ length e)%nat → (last - first)%nat = n →
    be_bytes n (be_value (sub first last e)) = sub first last e) as Hbe.
  { intros first last n Hr <-. rewrite <- (sub_length first last e) at 1 by done.
    apply be_bytes_value. }
  rewrite <- Hmagic, <- Hcl, <- Hvt, <- Hver, <- Hsl, !Hbe by (simpl; lia).
  rewrite <- (take_drop 4 e) at 1. f_equal.
  rewrite (sub_split 4 6), (sub_split 6 22), (sub_split 22 54), (sub_split 54 62), (sub_split 62 70),
    (sub_split 70 74), (sub_split 74 82), (sub_split 82 114), (sub_split 114 146) by lia.
  done.
Qed.

Lemma DecodeSnapshotEnvelope_new (m : SnapshotMetadata) (state : list byte) (mx : Z) (s : Snapshot) :
  metadata_typed m → NewSnapshot sha256 identity m state mx = Ok s →
  DecodeSnapshotEnvelope sha256 (Snapshot_envelope s) identity mx = Ok s.
Proof.
  intros Hm. unfold NewSnapshot.
  destruct (validateSnapshotInputs _ _ _ _) as [[]| | |] eqn:Hval; simpl; try done.
  case_goal; [done|]. intros [= <-]. bool_hyps. cbn [Snapshot_envelope].
  assert (len state ≤ max_uint64) as Hlen by (simpl in *; ulia).
  set (sc := sha256 state). set (ck := sha256 (envelopeWith _ _ _ (zero_bytes 32) _)).
  assert (length sc = 32%nat) as Lsc by apply sha256_length.
  assert (length ck = 32%nat) as Lck by apply sha256_length.
  unfold DecodeSnapshotEnvelope. unfold_offsets.
  rewrite envelope_clear, envelope_length by done.
  destruct (envelope_bytes m sc ck state Lsc Lck) as (-> & -> & -> & -> & -> & ->).
  destruct (envelope_numbers m sc ck state Hm Lsc Lck Hlen) as (-> & -> & ->).
  rewrite !bool_decide_eq_true_2 by done. rewrite Z.eqb_refl, Hval. cbn [negb orb outcome_bind].
  pose proof (len_nonneg state). unfold max_int, max_uint64 in *.
  repeat (case_goal; [absurd_bool|bool_hyps]). reflexivity.
Qed.

Lemma NewSnapshot_decoded (e : list byte) (mx : Z) (s : Snapshot) :
  DecodeSnapshotEnvelope sha256 e identity mx = Ok s →
  metadata_typed (Snapshot_Metadata s) ∧
  NewSnapshot sha256 identity (Snapshot_Metadata s) (Snapshot_state s) mx = Ok s ∧
  Snapshot_envelope s = e.
Proof.
  unfold DecodeSnapshotEnvelope. unfold_offsets.
  do 4 (case_goal; [done|]).
  destruct (validateSnapshotInputs _ _ _ _) as [[]| | |] eqn:Hval; cbn [outcome_bind]; try done.
  do 4 (case_goal; [done|]). intros [= <-]. bool_hyps. simpl Snapshot_Metadata. simpl Snapshot_state.
  assert (len (drop 146 e) = be_value (sub 74 82 e)) as Hsl
    by (unfold len in *; rewrite length_drop; lia).
  assert (e = envelopeWith identity (envelopeMetadata e) (sub 82 114 e) (sub 114 146 e) (drop 146 e)) as He
    by (apply envelope_rebuild; try done; unfold len in *; lia).
  assert (∀ a b n, (a ≤ b ≤ 146)%nat → 256 ^ Z.of_nat (b - a) = n → 0 ≤ be_value (sub a b e) < n) as Hr.
  { intros a b n Hab <-. rewrite <- (sub_length a b e) by (unfold len in *; lia). apply be_value_range. }
  split_and!; [|..|done].
  - unfold metadata_typed, envelopeMetadata. unfold_offsets. simpl.
    pose proof (Hr 54%nat 62%nat 18446744073709551616 ltac:(lia) eq_refl). pose proof (Hr 62%nat 70%nat 18446744073709551616 ltac:(lia) eq_refl).
    pose proof (Hr 70%nat 74%nat 4294967296 ltac:(lia) eq_refl). ulia.
  - unfold NewSnapshot. rewrite Hsl, Hval. unfold_offsets. cbn [outcome_bind].
    apply validateSnapshotInputs_bound in Hval. case_goal; [absurd_bool|]. bool_hyps.
    assert (clearChecksum e = envelopeWith identity (envelopeMetadata e) (sha256 (drop 146 e))
      (zero_bytes 32) (drop 146 e)) as <-.
    { rewrite Heq6. rewrite He at 1. apply envelope_clear; rewrite sub_length; unfold len in *; lia. }
    by rewrite Heq5, Heq6, <- He.
Qed.
End format.

Lemma NewSnapshot_fields (sha256 : list byte → list byte) (identity : StorageIdentity)
    (m : SnapshotMetadata) (state : list byte) (mx : Z) (s : Snapshot) :
  NewSnapshot sha256 identity m state mx = Ok s →
  Snapshot_Metadata s = m ∧ Snapshot_state s = state ∧ Snapshot_StateChecksum s = sha256 state ∧
  LastIncludedIndex m ≠ 0 ∧ LastIncludedTerm m ≠ 0 ∧ len state ≤ mx.
Proof.
  unfold NewSnapshot. case_outer; [|done..]. case_outer; [done|]. intros [= <-]. revert Heq.
  unfold validateSnapshotInputs. do 4 (case_outer; [done|]). intros _. bool_hyps. done.
Qed.

(** ** Main result *)

(** C26: The envelope is canonical: bytes decode to a snapshot exactly when that
    snapshot is the one [NewSnapshot] builds for the same identity, limit, position
    and state, and the bytes are its envelope. *)
Theorem snapshot_envelope_canonical (sha256 : list byte → list byte) (identity : StorageIdentity)
    (mx : Z) (e : list byte) (s : Snapshot) :
  (∀ l, length (sha256 l) = 32%nat) → identity_typed identity →
  DecodeSnapshotEnvelope sha256 e identity mx = Ok s ↔
  metadata_typed (Snapshot_Metadata s) ∧
  NewSnapshot sha256 identity (Snapshot_Metadata s) (Snapshot_state s) mx = Ok s ∧
  Snapshot_envelope s = e.
Proof.
  intros Hsha Hid. split.
  - by apply NewSnapshot_decoded.
  - intros (Hm & Hs & <-). by eapply DecodeSnapshotEnvelope_new.
Qed.

(** ** Witness *)

(** A checksum of 32 bytes that depends on every byte. *)
Definition exSha (l : list byte) : list byte := be_bytes 32 (be_value l).

Definition exIdentity : StorageIdentity :=
  mkStorageIdentity 1 (replicate 16 Byte.x07) 1 (replicate 32 Byte.x09).

Definition exSnapshot : Snapshot :=
  match NewSnapshot exSha exIdentity (mkSnapshotMetadata 5 2 1) [Byte.x61; Byte.x62] 64 with
  | Ok s => s
  | _ => mkSnapshot (mkSnapshotMetadata 0 0 0) [] [] [] []
  end.

Lemma snapshot_envelope_canonical_witness :
  DecodeSnapshotEnvelope exSha (Snapshot_envelope exSnapshot) exIdentity 64 = Ok exSnapshot.
Proof.
  apply (snapshot_envelope_canonical exSha exIdentity 64).
  - intros l. apply length_be_bytes.
  - split; reflexivity.
  - split_and!.
    + vm_compute. repeat split; discriminate.
    + vm_compute. reflexivity.
    + reflexivity.
Defined.

End RaftSnapshot.
