(* ===== verification/RaftStorage.v ===== *)
(** * Durable state of a voter

    [storage.go]: the recovered state, its validation, the atomic persistence
    batch and the local compaction; and the interface [StableStore] that a store
    offers to the node, with the laws the node relies on. *)

From S2P Require Import Prelude RaftTypes RaftLog RaftVoters RaftCodec Hash RaftSnapshot.

Module RaftStorage.
Import Hash RaftLog RaftVoters RaftCodec RaftSnapshot.

(** ** Batches and bounds *)

Record PersistenceBatch := mkBatch {
  PB_HardState : option HardState;
  PB_ReplaceFrom : Z;
  PB_Entries : list Entry;
  PB_SnapshotBase : option SnapshotMetadata;
  PB_Snapshot : option Snapshot;
  PB_AppliedIndex : option Z
}.

#[global] Instance PersistenceBatch_settable : Settable PersistenceBatch :=
  λ r, mkBatch (PB_HardState r) (PB_ReplaceFrom r) (PB_Entries r) (PB_SnapshotBase r)
    (PB_Snapshot r) (PB_AppliedIndex r).

Definition PersistenceBatch_zero : PersistenceBatch := mkBatch None 0 [] None None None.

Definition DefaultSnapshotLimitBytes : Z := Z.shiftl 16 20.

(** [StoreOptions.snapshotLimit] on the field [MaxSnapshotBytes]. *)
Definition snapshotLimit (maxSnapshotBytes : Z) : outcome error Z :=
  let limit := if maxSnapshotBytes =? 0 then DefaultSnapshotLimitBytes else maxSnapshotBytes in
  if MaxRaftSnapshotBytes <? limit then Err ErrInvalidStorageState else Ok limit.

(** Sizes of [wal.go]. *)
Definition MaxWALRecordPayloadBytes : Z := MaxRPCPayloadBytes.
Definition MaxWALTransactionBytes : Z := MaxRPCPayloadBytes.
Definition walRecordHeaderBytes : Z := 16.
Definition walRecordChecksumBytes : Z := 4.
Definition boundaryPayloadBytes : Z := 12.
Definition hardStatePayloadBytes : Z := 26.
Definition truncatePayloadBytes : Z := 16.
Definition snapshotPayloadBytes : Z := 28.
Definition appliedPayloadBytes : Z := 16.
Definition minimumWALEntryBytes : Z := 8 + 8 + 1 + 4.

Definition checkedBoundedAdd (current addition maximum : Z) : option Z :=
  if (maximum <? current) || (maximum - current <? addition) then None else Some (current + addition).

(** The size of the entries record, accumulated entry by entry. *)
Fixpoint entriesPayloadLoop (payload : Z) (entries : list Entry) : outcome error Z :=
  match entries with
  | [] => Ok payload
  | entry :: rest =>
    if MaxRaftCommandBytes <? len (Entry_command entry) then Err ErrInvalidStorageState
    else match checkedBoundedAdd payload (minimumWALEntryBytes + len (Entry_command entry))
                 MaxWALRecordPayloadBytes with
         | None => Err ErrInvalidStorageState
         | Some payload' => entriesPayloadLoop payload' rest
         end
  end.

(** [addRecord], skipped when the record is not part of the transaction. *)
Definition addRecord (present : bool) (total payloadBytes : Z) : outcome error Z :=
  if present then
    match checkedBoundedAdd total (walRecordHeaderBytes + walRecordChecksumBytes + payloadBytes)
            MaxWALTransactionBytes with
    | None => Err ErrInvalidStorageState
    | Some total' => Ok total'
    end
  else Ok total.

Definition isSome {A} (o : option A) : bool := match o with Some _ => true | None => false end.

Definition validatePersistenceBatchBounds (batch : PersistenceBatch) : outcome error unit :=
  if negb (isSome (PB_HardState batch)) && (PB_ReplaceFrom batch =? 0) && (len (PB_Entries batch) =? 0)
     && negb (isSome (PB_SnapshotBase batch)) && negb (isSome (PB_Snapshot batch))
     && negb (isSome (PB_AppliedIndex batch))
  then Err ErrInvalidStorageState
  else if (PB_ReplaceFrom batch =? 0) && negb (len (PB_Entries batch) =? 0)
  then Err ErrInvalidStorageState
  else if match PB_Snapshot batch with
          | None => false
          | Some snapshot =>
            match PB_SnapshotBase batch with
            | None => true
            | Some base => negb (bool_decide (Snapshot_Metadata snapshot = base))
            end
          end
  then Err ErrInvalidStorageState
  else if max_uint16 <? len (PB_Entries batch) then Err ErrInvalidStorageState
  else
    let? entriesPayload :=
      if len (PB_Entries batch) =? 0 then Ok 0 else entriesPayloadLoop 10 (PB_Entries batch) in
    let total := 2 * (walRecordHeaderBytes + boundaryPayloadBytes + walRecordChecksumBytes) in
    let? total := addRecord (isSome (PB_SnapshotBase batch)) total snapshotPayloadBytes in
    let? total := addRecord (negb (PB_ReplaceFrom batch =? 0)) total truncatePayloadBytes in
    let? total := addRecord (negb (len (PB_Entries batch) =? 0)) total entriesPayload in
    let? total := addRecord (isSome (PB_AppliedIndex batch)) total appliedPayloadBytes in
    let? _ := addRecord (isSome (PB_HardState batch)) total hardStatePayloadBytes in
    Ok tt.

(** ** Recovered state *)

(** The loop over the retained entries; returns the last index. *)
Fixpoint validateEntriesLoop (hardTerm lastIndex previousTerm : Z) (entries : list Entry) :
    outcome error Z :=
  match entries with
  | [] => Ok lastIndex
  | entry :: rest =>
    if lastIndex =? max_uint64 then Err ErrInvalidStorageState
    else if negb (Entry_Index entry =? lastIndex + 1) then Err ErrInvalidStorageState
    else match validateLogEntry entry with
         | Ok _ =>
           if (Entry_Term entry <? previousTerm) || (hardTerm <? Entry_Term entry)
           then Err ErrInvalidStorageState
           else validateEntriesLoop hardTerm (lastIndex + 1) (Entry_Term entry) rest
         | _ => Err ErrInvalidStorageState
         end
  end.

(** The checks of identity, vote and positions. *)
Definition validateRecoveredHeader (state : RecoveredState) (expected : StorageIdentity)
    (voters : VoterSet) : outcome error unit :=
  let hard := RS_HardState state in
  let base := RS_SnapshotBase state in
  if negb (SI_FormatVersion expected =? StorageFormatVersion1) ||
     negb (bool_decide (RS_Identity state = expected))
  then Err ErrInvalidStorageState
  else if isZeroArray 16 (SI_ClusterID (RS_Identity state)) ||
          negb (bool_decide (SI_VoterFingerprint (RS_Identity state) = Fingerprint voters))
  then Err ErrInvalidStorageState
  else if negb (is_Ok (ValidateLocalID voters (SI_LocalVoterID (RS_Identity state))))
  then Err ErrInvalidStorageState
  else if negb (HardState_VotedFor hard =? 0) &&
          ((HardState_Term hard =? 0) || negb (Contains voters (HardState_VotedFor hard)))
  then Err ErrInvalidStorageState
  else if negb (Bool.eqb (LastIncludedIndex base =? 0) (LastIncludedTerm base =? 0))
  then Err ErrInvalidStorageState
  else if HardState_Term hard <? LastIncludedTerm base then Err ErrInvalidStorageState
  else if (RS_AppliedIndex state <? LastIncludedIndex base) ||
          (HardState_CommitIndex hard <? RS_AppliedIndex state)
  then Err ErrInvalidStorageState
  else Ok tt.

Section storage.
Context (sha256 : list byte → list byte).

(** The checks of the snapshot payload. *)
Definition validateRecoveredSnapshot (state : RecoveredState) (expected : StorageIdentity)
    (limit : Z) : outcome error unit :=
  match RS_Snapshot state with
  | None => Ok tt
  | Some snapshot =>
    if (LastIncludedIndex (RS_SnapshotBase state) =? 0) ||
       negb (bool_decide (Snapshot_Metadata snapshot = RS_SnapshotBase state))
    then Err ErrInvalidStorageState
    else if limit <? len (Snapshot_state snapshot) then Err ErrInvalidStorageState
    else match DecodeSnapshotEnvelope sha256 (Snapshot_envelope snapshot) expected limit with
         | Ok decoded =>
           if negb (bool_decide (Snapshot_ID decoded = Snapshot_ID snapshot)) ||
              negb (bool_decide (Snapshot_StateChecksum decoded = Snapshot_StateChecksum snapshot))
           then Err ErrInvalidStorageState
           else Ok tt
         | _ => Err ErrInvalidStorageState
         end
  end.

Definition validateRecoveredStateWithSnapshotLimit (state : RecoveredState)
    (expected : StorageIdentity) (voters : VoterSet) (limit : Z) : outcome error unit :=
  let? _ := validateRecoveredHeader state expected voters in
  let? _ := validateRecoveredSnapshot state expected limit in
  let? lastIndex :=
    validateEntriesLoop (HardState_Term (RS_HardState state))
      (LastIncludedIndex (RS_SnapshotBase state)) (LastIncludedTerm (RS_SnapshotBase state))
      (RS_Entries state) in
  if lastIndex <? HardState_CommitIndex (RS_HardState state) then Err ErrInvalidStorageState
  else Ok tt.

Definition ValidateRecoveredState (state : RecoveredState) (expected : StorageIdentity)
    (voters : VoterSet) : outcome error unit :=
  validateRecoveredStateWithSnapshotLimit state expected voters MaxRaftSnapshotBytes.

(** ** Applying a batch *)

(** The hard state of a batch may not regress nor change a vote. *)
Definition checkHardState (current : HardState) (next : option HardState) : outcome error unit :=
  match next with
  | None => Ok tt
  | Some next =>
    if (HardState_Term next <? HardState_Term current) ||
       (HardState_CommitIndex next <? HardState_CommitIndex current)
    then Err ErrInvalidStorageState
    else if (HardState_Term next =? HardState_Term current) &&
            negb (HardState_VotedFor current =? 0) &&
            negb (HardState_VotedFor next =? HardState_VotedFor current)
    then Err ErrInvalidStorageState
    else Ok tt
  end.

(** [prospective] with a new snapshot base, and whether the base advanced. *)
Definition applySnapshotBase (current : RecoveredState) (batch : PersistenceBatch) :
    outcome error (RecoveredState * bool) :=
  match PB_SnapshotBase batch with
  | None => Ok (current, false)
  | Some base =>
    let old := RS_SnapshotBase current in
    let commit := HardState_CommitIndex (RS_HardState current) in
    if LastIncludedIndex base <? LastIncludedIndex old then Err ErrInvalidStorageState
    else if (LastIncludedIndex base =? LastIncludedIndex old) && negb (bool_decide (base = old))
    then Err ErrInvalidStorageState
    else
      let effectiveCommit :=
        match PB_HardState batch with
        | Some next => if commit <? HardState_CommitIndex next then HardState_CommitIndex next else commit
        | None => commit
        end in
      if effectiveCommit <? LastIncludedIndex base then Err ErrInvalidStorageState
      else
        let offset := LastIncludedIndex base - LastIncludedIndex old in
        let advanced := LastIncludedIndex old <? LastIncludedIndex base in
        let? entries :=
          if advanced then
            if offset <=? len (RS_Entries current) then
              match RS_Entries current !! Z.to_nat (offset - 1) with
              | None => Panic
              | Some entry =>
                if negb (offset =? 0) && negb (Entry_Term entry =? LastIncludedTerm base) then
                  if LastIncludedIndex base <=? commit then Err ErrInvalidStorageState else Ok []
                else Ok (drop (Z.to_nat offset) (RS_Entries current))
              end
            else if negb (commit =? 0) then Err ErrInvalidStorageState
            else Ok []
          else Ok (RS_Entries current) in
        Ok (current <| RS_SnapshotBase := base |> <| RS_Entries := entries |>
              <| RS_Snapshot :=
                   match PB_Snapshot batch with
                   | Some snapshot => Some snapshot
                   | None => if negb (bool_decide (old = base)) then None else RS_Snapshot current
                   end |>, advanced)
  end.

(** The retained suffix cut at [ReplaceFrom] and followed by the new entries. *)
Definition applyReplacement (prospective : RecoveredState) (batch : PersistenceBatch)
    (snapshotAdvanced : bool) : outcome error RecoveredState :=
  let from := PB_ReplaceFrom batch in
  if from =? 0 then Ok prospective
  else
    let baseIndex := LastIncludedIndex (RS_SnapshotBase prospective) in
    let replacesSnapshotSuffix :=
      snapshotAdvanced && match checkedNextIndex baseIndex with Some n => from =? n | None => false end in
    if (from <=? baseIndex) ||
       ((from <=? HardState_CommitIndex (RS_HardState prospective)) && negb replacesSnapshotSuffix)
    then Err ErrInvalidStorageState
    else
      let lastIndex := wrap64 (baseIndex + len (RS_Entries prospective)) in
      if (lastIndex <? baseIndex) ||
         ((lastIndex <? from) && ((lastIndex =? max_uint64) || negb (from =? lastIndex + 1)))
      then Err ErrInvalidStorageState
      else
        let offset64 := from - baseIndex - 1 in
        if (len (RS_Entries prospective) <? offset64) || (max_int <? offset64)
        then Err ErrInvalidStorageState
        else if match PB_Entries batch with
                | first :: _ => negb (Entry_Index first =? from)
                | [] => false
                end
        then Err ErrInvalidStorageState
        else Ok (prospective <| RS_Entries ::= (λ l, take (Z.to_nat offset64) l ++ PB_Entries batch) |>).

Definition applyValidatedPersistenceBatch (current : RecoveredState) (batch : PersistenceBatch)
    (expected : StorageIdentity) (voters : VoterSet) : outcome error RecoveredState :=
  let? _ := checkHardState (RS_HardState current) (PB_HardState batch) in
  let? (prospective, snapshotAdvanced) := applySnapshotBase current batch in
  let? prospective := applyReplacement prospective batch snapshotAdvanced in
  let prospective :=
    match PB_HardState batch with
    | Some next => prospective <| RS_HardState := next |>
    | None => prospective
    end in
  let? prospective :=
    match PB_AppliedIndex batch with
    | None => Ok prospective
    | Some index =>
      if index <? RS_AppliedIndex prospective then Err ErrInvalidStorageState
      else Ok (prospective <| RS_AppliedIndex := index |>)
    end in
  let? _ := ValidateRecoveredState prospective expected voters in
  Ok prospective.

Definition applyPersistenceBatch (current : RecoveredState) (batch : PersistenceBatch)
    (expected : StorageIdentity) (voters : VoterSet) : outcome error RecoveredState :=
  let? _ := validatePersistenceBatchBounds batch in
  applyValidatedPersistenceBatch current batch expected voters.

(** ** Compaction and installation *)

Definition compactRecoveredState (current : RecoveredState) (snapshot : Snapshot)
    (expected : StorageIdentity) (voters : VoterSet) (limit : Z) : outcome error RecoveredState :=
  let metadata := Snapshot_Metadata snapshot in
  let index := LastIncludedIndex metadata in
  let base := RS_SnapshotBase current in
  if limit <? len (Snapshot_state snapshot) then Err ErrInvalidStorageState
  else match DecodeSnapshotEnvelope sha256 (Snapshot_envelope snapshot) expected limit with
       | Ok decoded =>
         if negb (bool_decide (Snapshot_ID decoded = Snapshot_ID snapshot)) ||
            negb (bool_decide (Snapshot_Metadata decoded = metadata)) ||
            negb (bool_decide (Snapshot_StateChecksum decoded = Snapshot_StateChecksum snapshot))
         then Err ErrInvalidStorageState
         else if index <=? LastIncludedIndex base then
           match RS_Snapshot current with
           | Some own =>
             if bool_decide (metadata = base) && bool_decide (Snapshot_ID own = Snapshot_ID snapshot)
             then Ok current else Err ErrInvalidStorageState
           | None => Err ErrInvalidStorageState
           end
         else if HardState_CommitIndex (RS_HardState current) <? index then Err ErrInvalidStorageState
         else match recoveredTermAt current index with
              | Ok term =>
                if negb (term =? LastIncludedTerm metadata) then Err ErrInvalidStorageState
                else
                  let offset := index - LastIncludedIndex base in
                  if len (RS_Entries current) <? offset then Err ErrInvalidStorageState
                  else
                    let prospective :=
                      current <| RS_SnapshotBase := metadata |> <| RS_Snapshot := Some decoded |>
                              <| RS_Entries ::= drop (Z.to_nat offset) |>
                              <| RS_AppliedIndex ::= (λ a, if a <? index then index else a) |> in
                    let? _ := validateRecoveredStateWithSnapshotLimit prospective expected voters limit in
                    Ok prospective
              | _ => Err ErrInvalidStorageState
              end
       | _ => Err ErrInvalidStorageState
       end.

Definition installRecoveredSnapshot (current : RecoveredState) (snapshot : Snapshot)
    (expected : StorageIdentity) (voters : VoterSet) : outcome error RecoveredState :=
  let? prospective := installSnapshotState current snapshot in
  let? _ := ValidateRecoveredState prospective expected voters in
  Ok prospective.

End storage.

(** ** Well-formed durable states *)

(** The durable state as a checked log. *)
Definition recovered_log (d : RecoveredState) : Log :=
  mkLog (LastIncludedIndex (RS_SnapshotBase d)) (LastIncludedTerm (RS_SnapshotBase d))
    (HardState_CommitIndex (RS_HardState d)) (RS_AppliedIndex d)
    (LastIncludedIndex (RS_SnapshotBase d) + len (RS_Entries d)) (RS_Entries d).

(** Terms never decrease along the entries and stay at or below [top]. *)
Fixpoint terms_between (previous top : Z) (es : list Entry) : Prop :=
  match es with
  | [] => True
  | e :: rest => previous ≤ Entry_Term e ≤ top ∧ terms_between (Entry_Term e) top rest
  end.

(** ** Every operation returns *)

Lemma validateSnapshotInputs_returns (i : StorageIdentity) (m : SnapshotMetadata) (n mx : Z) :
  returns (validateSnapshotInputs i m n mx).
Proof. unfold validateSnapshotInputs. solve_returns. Qed.
#[export] Hint Resolve validateSnapshotInputs_returns : returns.

Lemma DecodeSnapshotEnvelope_returns (sha256 : list byte → list byte) (e : list byte)
    (i : StorageIdentity) (mx : Z) :
  returns (DecodeSnapshotEnvelope sha256 e i mx).
Proof. unfold DecodeSnapshotEnvelope. solve_returns. Qed.
#[export] Hint Resolve DecodeSnapshotEnvelope_returns : returns.

Lemma NewSnapshot_returns (sha256 : list byte → list byte) (i : StorageIdentity)
    (m : SnapshotMetadata) (state : list byte) (mx : Z) :
  returns (NewSnapshot sha256 i m state mx).
Proof. unfold NewSnapshot. solve_returns. Qed.
#[export] Hint Resolve NewSnapshot_returns : returns.

Lemma validateEntriesLoop_returns (top last previous : Z) (es : list Entry) :
  returns (validateEntriesLoop top last previous es).
Proof. revert last previous. induction es; intros; simpl; solve_returns. Qed.
#[export] Hint Resolve validateEntriesLoop_returns : returns.

Lemma validate_returns (sha256 : list byte → list byte) (d : RecoveredState) (i : StorageIdentity)
    (vs : VoterSet) (mx : Z) :
  returns (validateRecoveredStateWithSnapshotLimit sha256 d i vs mx).
Proof.
  unfold validateRecoveredStateWithSnapshotLimit, validateRecoveredHeader, validateRecoveredSnapshot.
  solve_returns.
Qed.
#[export] Hint Resolve validate_returns : returns.

Lemma addRecord_returns (b : bool) (total n : Z) : returns (addRecord b total n).
Proof. unfold addRecord. solve_returns. Qed.
#[export] Hint Resolve addRecord_returns : returns.

Lemma entriesPayloadLoop_returns (n : Z) (es : list Entry) : returns (entriesPayloadLoop n es).
Proof. revert n. induction es; intros; simpl; solve_returns. Qed.
#[export] Hint Resolve entriesPayloadLoop_returns : returns.

Lemma validatePersistenceBatchBounds_returns (b : PersistenceBatch) :
  returns (validatePersistenceBatchBounds b).
Proof. unfold validatePersistenceBatchBounds. solve_returns. Qed.
#[export] Hint Resolve validatePersistenceBatchBounds_returns : returns.

Lemma applyValidated_returns (sha256 : list byte → list byte) (d : RecoveredState)
    (b : PersistenceBatch) (i : StorageIdentity) (vs : VoterSet) :
  returns (applyValidatedPersistenceBatch sha256 d b i vs).
Proof.
  unfold applyValidatedPersistenceBatch, checkHardState, applySnapshotBase, applyReplacement,
    ValidateRecoveredState.
  solve_returns. exfalso. bool_hyps. apply lookup_ge_None in Heqo0. unfold len in *. lia.
Qed.
#[export] Hint Resolve applyValidated_returns : returns.

Lemma recoveredTermAt_returns (d : RecoveredState) (i : Z) : returns (recoveredTermAt d i).
Proof. unfold recoveredTermAt. solve_returns. Qed.
#[export] Hint Resolve recoveredTermAt_returns : returns.

Lemma compactRecoveredState_returns (sha256 : list byte → list byte) (d : RecoveredState)
    (s : Snapshot) (i : StorageIdentity) (vs : VoterSet) (mx : Z) :
  returns (compactRecoveredState sha256 d s i vs mx).
Proof. unfold compactRecoveredState. solve_returns. Qed.
#[export] Hint Resolve compactRecoveredState_returns : returns.

Lemma installRecoveredSnapshot_returns (sha256 : list byte → list byte) (d : RecoveredState)
    (s : Snapshot) (i : StorageIdentity) (vs : VoterSet) :
  returns (installRecoveredSnapshot sha256 d s i vs).
Proof. unfold installRecoveredSnapshot, installSnapshotState, ValidateRecoveredState. solve_returns. Qed.
#[export] Hint Resolve installRecoveredSnapshot_returns : returns.

Section wf.
Context (sha256 : list byte → list byte) (identity : StorageIdentity) (voters : VoterSet).

Record recovered_wf (limit : Z) (d : RecoveredState) : Prop := {
  rw_identity : RS_Identity d = identity;
  rw_format : SI_FormatVersion identity = StorageFormatVersion1;
  rw_cluster : SI_ClusterID identity ≠ zero_bytes 16;
  rw_fingerprint : SI_VoterFingerprint identity = Fingerprint voters;
  rw_local : ValidateLocalID voters (SI_LocalVoterID identity) = Ok tt;
  rw_vote : HardState_VotedFor (RS_HardState d) ≠ 0 →
    HardState_Term (RS_HardState d) ≠ 0 ∧ Contains voters (HardState_VotedFor (RS_HardState d)) = true;
  rw_base : LastIncludedTerm (RS_SnapshotBase d) ≤ HardState_Term (RS_HardState d);
  rw_log : log_wf (recovered_log d);
  rw_terms : terms_between (LastIncludedTerm (RS_SnapshotBase d)) (HardState_Term (RS_HardState d))
    (RS_Entries d);
  rw_snapshot : validateRecoveredSnapshot sha256 d identity limit = Ok tt
}.

Lemma validateEntriesLoop_Ok (top last previous next : Z) (es : list Entry) :
  is_u64 last →
  validateEntriesLoop top last previous es = Ok next ↔
  contiguous last es ∧ Forall valid_entry es ∧ next = last + len es ∧ next ≤ max_uint64 ∧
  terms_between previous top es.
Proof.
  revert last previous. induction es as [|e es IH]; intros last previous Hu; simpl.
  { rewrite len_nil. split.
    - intros [= ->]. split_and!; [by intros k e Hk|constructor|lia|ulia|done].
    - intros (_ & _ & -> & _). f_equal. lia. }
  rewrite len_cons. destruct (Z.eqb_spec last max_uint64) as [->|Hmax].
  { split; [done|]. intros (_ & _ & -> & ? & _). pose proof (len_nonneg es). lia. }
  destruct (Z.eqb_spec (Entry_Index e) (last + 1)) as [He|He]; simpl.
  2:{ split; [done|]. intros (Hc & _). exfalso. apply He. rewrite (Hc 0%nat e eq_refl). lia. }
  destruct (validateLogEntry e) as [[]| | |] eqn:Hv; simpl.
  2-4: split; [done|]; rewrite Forall_cons; unfold valid_entry at 1; rewrite Hv; naive_solver.
  destruct (_ || _) eqn:Ht.
  { split; [done|]. intros (_ & _ & _ & _ & [? ?] & _). absurd_bool. }
  bool_hyps. rewrite IH, Forall_cons by ulia. split.
  - intros (Hc & Hval & Hn & ? & ?). split_and!; try done; try lia.
    intros [|k] e' Hk; simpl in Hk; simplify_eq; [lia|]. apply Hc in Hk. lia.
  - intros (Hc & [_ Hval] & Hn & ? & _ & ?). split_and!; try done; try lia.
    intros k e' Hk. rewrite (Hc (S k) e' Hk). lia.
Qed.

Lemma validateRecoveredHeader_Ok (d : RecoveredState) :
  validateRecoveredHeader d identity voters = Ok tt ↔
  RS_Identity d = identity ∧ SI_FormatVersion identity = StorageFormatVersion1 ∧
  SI_ClusterID identity ≠ zero_bytes 16 ∧ SI_VoterFingerprint identity = Fingerprint voters ∧
  ValidateLocalID voters (SI_LocalVoterID identity) = Ok tt ∧
  (HardState_VotedFor (RS_HardState d) ≠ 0 → HardState_Term (RS_HardState d) ≠ 0 ∧
    Contains voters (HardState_VotedFor (RS_HardState d)) = true) ∧
  (LastIncludedIndex (RS_SnapshotBase d) = 0 ↔ LastIncludedTerm (RS_SnapshotBase d) = 0) ∧
  LastIncludedTerm (RS_SnapshotBase d) ≤ HardState_Term (RS_HardState d) ∧
  LastIncludedIndex (RS_SnapshotBase d) ≤ RS_AppliedIndex d ≤
    HardState_CommitIndex (RS_HardState d).
Proof.
  unfold validateRecoveredHeader, isZeroArray. split.
  - do 7 (case_goal; [done|]). intros _. bool_hyps. subst.
    apply eqb_prop in Heq3. split_and!; try done; try lia.
    + destruct (ValidateLocalID _ _) as [[]| | |]; done.
    + intros Hv. apply andb_false_iff in Heq2 as [?|?]; bool_hyps; [done|]. done.
  - intros (<- & -> & Hc & -> & -> & Hv & Hb & ? & ?). rewrite bool_decide_eq_true_2 by done.
    rewrite bool_decide_eq_false_2, bool_decide_eq_true_2 by done. simpl.
    destruct (Z.eqb_spec (HardState_VotedFor (RS_HardState d)) 0) as [|Hne]; simpl.
    2: destruct (Hv Hne) as [Ht ->]; destruct (Z.eqb_spec (HardState_Term (RS_HardState d)) 0); [done|]; simpl.
    all: destruct (Z.eqb_spec (LastIncludedIndex (RS_SnapshotBase d)) 0),
      (Z.eqb_spec (LastIncludedTerm (RS_SnapshotBase d)) 0); try tauto; simpl;
      repeat (case_goal; [absurd_bool|]); done.
Qed.

Lemma validate_iff (limit : Z) (d : RecoveredState) :
  is_u64 (LastIncludedIndex (RS_SnapshotBase d)) →
  validateRecoveredStateWithSnapshotLimit sha256 d identity voters limit = Ok tt ↔
  recovered_wf limit d.
Proof.
  intros Hu. unfold validateRecoveredStateWithSnapshotLimit.
  pose proof (validateEntriesLoop_Ok (HardState_Term (RS_HardState d))
    (LastIncludedIndex (RS_SnapshotBase d)) (LastIncludedTerm (RS_SnapshotBase d))) as Hl.
  split.
  - destruct (validateRecoveredHeader _ _ _) as [[]| | |] eqn:Hh; simpl; try done.
    apply validateRecoveredHeader_Ok in Hh as (? & ? & ? & ? & ? & ? & ? & ? & ? & ?).
    destruct (validateRecoveredSnapshot _ _ _ _) as [[]| | |] eqn:Hs; simpl; try done.
    destruct (validateEntriesLoop _ _ _ _) as [n| | |] eqn:He; simpl; try done.
    apply Hl in He as (? & ? & -> & ? & ?); [|done].
    case_goal; [done|]. intros _. bool_hyps. split; try done. split; simpl; try done. ulia.
  - intros []. destruct rw_log0; simpl in *.
    rewrite (proj2 (validateRecoveredHeader_Ok d)) by (split_and!; done || apply wf_base0 || lia).
    simpl. rewrite rw_snapshot0. simpl.
    rewrite (proj2 (Hl (LastIncludedIndex (RS_SnapshotBase d) + len (RS_Entries d)) _ Hu))
      by (split_and!; done).
    simpl. case_goal; [absurd_bool|done].
Qed.

(** ** Effect of a batch *)

Definition batch_typed (b : PersistenceBatch) : Prop :=
  match PB_SnapshotBase b with Some m => is_u64 (LastIncludedIndex m) | None => True end.

(** A batch whose fields are values of their Go types. *)
Definition batch_values (b : PersistenceBatch) : Prop :=
  match PB_HardState b with
  | Some h => is_u64 (HardState_Term h) ∧ is_u16 (HardState_VotedFor h) ∧ is_u64 (HardState_CommitIndex h)
  | None => True
  end ∧
  is_u64 (PB_ReplaceFrom b) ∧ Forall entry_typed (PB_Entries b) ∧
  match PB_SnapshotBase b with Some m => metadata_typed m | None => True end ∧
  match PB_AppliedIndex b with Some i => is_u64 i | None => True end.

Lemma batch_values_typed (b : PersistenceBatch) : batch_values b → batch_typed b.
Proof. unfold batch_values, batch_typed. destruct (PB_SnapshotBase b); [|done]. intros (_ & _ & _ & H & _). apply H. Qed.

Lemma checkHardState_le (h : HardState) (next : option HardState) :
  checkHardState h next = Ok tt → hs_le h (default h next).
Proof.
  destruct next as [n|]; simpl; [|reflexivity].
  case_goal; [done|]. case_goal; [done|]. intros _. bool_hyps. unfold hs_le, vote_le. split; [lia|].
  destruct (Z.eqb_spec (HardState_Term n) (HardState_Term h)); [|lia].
  destruct (Z.eqb_spec (HardState_VotedFor h) 0); [lia|].
  destruct (Z.eqb_spec (HardState_VotedFor n) (HardState_VotedFor h)); simpl in *; [lia|done].
Qed.

(** The entries after a batch that leaves the snapshot base. *)
Definition replaced (d : RecoveredState) (b : PersistenceBatch) : list Entry :=
  if PB_ReplaceFrom b =? 0 then RS_Entries d
  else take (Z.to_nat (PB_ReplaceFrom b - LastIncludedIndex (RS_SnapshotBase d) - 1)) (RS_Entries d)
       ++ PB_Entries b.

Lemma applyReplacement_Ok (d d' : RecoveredState) (b : PersistenceBatch) :
  applyReplacement d b false = Ok d' →
  d' = d <| RS_Entries := replaced d b |> ∧
  (PB_ReplaceFrom b = 0 ∨ HardState_CommitIndex (RS_HardState d) < PB_ReplaceFrom b).
Proof.
  unfold applyReplacement, replaced. destruct (Z.eqb_spec (PB_ReplaceFrom b) 0) as [->|Hne].
  { intros [= <-]. split; [by destruct d|by left]. }
  cbv zeta. do 4 (case_outer; [done|]). intros [= <-]. split; [done|]. right. bool_hyps.
  rewrite andb_true_r in *. bool_hyps. lia.
Qed.

(** A batch without a snapshot base: every field of the result. *)
Lemma applyValidated_plain (d d' : RecoveredState) (b : PersistenceBatch) :
  PB_SnapshotBase b = None →
  applyValidatedPersistenceBatch sha256 d b identity voters = Ok d' →
  d' = d <| RS_Entries := replaced d b |>
         <| RS_HardState := default (RS_HardState d) (PB_HardState b) |>
         <| RS_AppliedIndex := default (RS_AppliedIndex d) (PB_AppliedIndex b) |> ∧
  (PB_ReplaceFrom b = 0 ∨ HardState_CommitIndex (RS_HardState d) < PB_ReplaceFrom b) ∧
  RS_AppliedIndex d ≤ RS_AppliedIndex d'.
Proof.
  intros Hb. unfold applyValidatedPersistenceBatch, applySnapshotBase. rewrite Hb.
  case_outer; [|done..]. cbn [outcome_bind]. case_outer; [|done..]. cbv zeta.
  apply applyReplacement_Ok in Heq0 as [-> Hfrom].
  case_outer; [|done..]. case_outer; [|done..]. intros [= <-].
  destruct (PB_HardState b), (PB_AppliedIndex b); simpl in *; try destruct (_ <? _) eqn:? in Heq0;
    simplify_eq; bool_hyps; (split_and!; [by destruct d|done|simpl in *; lia]).
Qed.

Lemma applySnapshotBase_hard (d p : RecoveredState) (b : PersistenceBatch) (adv : bool) :
  applySnapshotBase d b = Ok (p, adv) →
  RS_HardState p = RS_HardState d ∧
  RS_SnapshotBase p = default (RS_SnapshotBase d) (PB_SnapshotBase b).
Proof.
  unfold applySnapshotBase. case_outer; [|by intros [= <- <-]]. cbv zeta.
  do 3 (case_outer; [done|]). case_outer; [|done..]. by intros [= <- <-].
Qed.

Lemma applyReplacement_hard (d p : RecoveredState) (b : PersistenceBatch) (adv : bool) :
  applyReplacement d b adv = Ok p →
  RS_HardState p = RS_HardState d ∧ RS_SnapshotBase p = RS_SnapshotBase d.
Proof.
  unfold applyReplacement. case_outer; [by intros [= <-]|]. cbv zeta.
  do 4 (case_outer; [done|]). by intros [= <-].
Qed.

Lemma applyValidated_hard (d d' : RecoveredState) (b : PersistenceBatch) :
  applyValidatedPersistenceBatch sha256 d b identity voters = Ok d' →
  RS_HardState d' = default (RS_HardState d) (PB_HardState b) ∧ hs_le (RS_HardState d) (RS_HardState d') ∧
  RS_SnapshotBase d' = default (RS_SnapshotBase d) (PB_SnapshotBase b) ∧
  ValidateRecoveredState sha256 d' identity voters = Ok tt.
Proof.
  unfold applyValidatedPersistenceBatch. case_outer; [|done..]. destruct a.
  apply checkHardState_le in Heq. case_outer; [|done..]. destruct a as [p adv].
  apply applySnapshotBase_hard in Heq0 as [? ?]. case_outer; [|done..].
  apply applyReplacement_hard in Heq0 as [? ?]. cbv zeta. case_outer; [|done..]. case_outer; [|done..].
  intros [= <-]. destruct a1. split_and!; [| | |done].
  all: destruct (PB_HardState b), (PB_AppliedIndex b); simpl in *; try destruct (_ <? _) in Heq0;
    simplify_eq; simpl in *; congruence.
Qed.

(** ** Positions of the durable log *)

Lemma recoveredEntryAt_log (d : RecoveredState) (i : Z) :
  recoveredEntryAt d i = entry_at (recovered_log d) i.
Proof.
  unfold recoveredEntryAt, entry_at. simpl.
  destruct (Z.leb_spec i (LastIncludedIndex (RS_SnapshotBase d))),
    (Z.ltb_spec (LastIncludedIndex (RS_SnapshotBase d)) i); try lia; try done.
  destruct (Z.leb_spec (len (RS_Entries d)) (i - LastIncludedIndex (RS_SnapshotBase d) - 1)); [|done].
  symmetry. apply lookup_ge_None. unfold len in *. lia.
Qed.

Lemma recoveredTermAt_log (d : RecoveredState) (i : Z) :
  log_wf (recovered_log d) →
  recoveredTermAt d i =
  match term_at (recovered_log d) i with
  | Some t => Ok t
  | None => if i =? 0 then Ok 0 else Err ErrLogUnavailable
  end.
Proof.
  intros []. simpl in *. unfold recoveredTermAt, term_at. rewrite recoveredEntryAt_log. simpl.
  destruct (Z.eqb_spec i 0) as [Hi|], (Z.eqb_spec i (LastIncludedIndex (RS_SnapshotBase d))) as [He|];
    simpl; try done.
  - rewrite (proj1 wf_base0) by lia. done.
  - subst i. unfold entry_at. simpl. destruct (Z.ltb_spec (LastIncludedIndex (RS_SnapshotBase d)) 0); [lia|done].
  - by destruct (entry_at (recovered_log d) i).
Qed.

(** A batch that leaves the snapshot base continues the durable log. *)
Lemma applyValidated_extends (limit : Z) (d d' : RecoveredState) (b : PersistenceBatch) :
  recovered_wf limit d → PB_SnapshotBase b = None →
  applyValidatedPersistenceBatch sha256 d b identity voters = Ok d' →
  log_extends (recovered_log d) (recovered_log d').
Proof.
  intros Hwf Hb Ha. pose proof (applyValidated_hard d d' b Ha) as (Hh & [Hc _] & _ & _).
  apply applyValidated_plain in Ha as (-> & Hfrom & Happ); [|done]. simpl in *.
  destruct (rw_log _ _ Hwf) as [_ _ Ho Hcm _ _ _ _]. simpl in *.
  assert (∀ i, LastIncludedIndex (RS_SnapshotBase d) < i ≤ HardState_CommitIndex (RS_HardState d) →
    entry_at (recovered_log (d <| RS_Entries := replaced d b |>)) i = entry_at (recovered_log d) i) as He.
  { intros i Hi. unfold entry_at, replaced. simpl. destruct (Z.ltb_spec (LastIncludedIndex (RS_SnapshotBase d)) i); [|done].
    destruct (Z.eqb_spec (PB_ReplaceFrom b) 0); [done|].
    rewrite lookup_app_l by (rewrite length_take; unfold len in *; lia).
    apply lookup_take_lt. lia. }
  split_and!; simpl; try lia.
  - intros i Hi. by apply He.
  - intros i Hi. unfold term_at. simpl. destruct (Z.eqb_spec i (LastIncludedIndex (RS_SnapshotBase d))); [done|].
    f_equal. apply He. lia.
Qed.

Lemma recovered_base (limit : Z) (d : RecoveredState) :
  recovered_wf limit d → is_u64 (LastIncludedIndex (RS_SnapshotBase d)).
Proof.
  intros [_ _ _ _ _ _ _ [] _ _]. simpl in *. pose proof (len_nonneg (RS_Entries d)). ulia.
Qed.

Lemma applyValidated_wf (limit : Z) (d d' : RecoveredState) (b : PersistenceBatch) :
  recovered_wf limit d → batch_typed b →
  applyValidatedPersistenceBatch sha256 d b identity voters = Ok d' →
  recovered_wf MaxRaftSnapshotBytes d'.
Proof.
  intros Hwf Hb Ha. destruct (applyValidated_hard _ _ _ Ha) as (_ & _ & Hbase & Hv).
  apply validate_iff; [|done]. rewrite Hbase. unfold batch_typed in Hb.
  destruct (PB_SnapshotBase b); simpl; [done|by eapply recovered_base].
Qed.

(** ** Snapshots in the durable state *)

Lemma DecodeSnapshotEnvelope_mono (e : list byte) (mx mx' : Z) (s : Snapshot) :
  mx ≤ mx' → mx' ≤ MaxRaftSnapshotBytes → DecodeSnapshotEnvelope sha256 e identity mx = Ok s →
  DecodeSnapshotEnvelope sha256 e identity mx' = Ok s ∧ len (Snapshot_state s) ≤ mx.
Proof.
  intros Hle Hmax. unfold DecodeSnapshotEnvelope. do 4 (case_outer; [done|]). cbv zeta.
  case_outer; [|done..]. do 4 (case_outer; [done|]). intros [= <-].
  assert (validateSnapshotInputs identity (envelopeMetadata e)
    (be_value (sub snapshotEnvelopeStateLengthOffset snapshotEnvelopeStateChecksumOffset e)) mx' = Ok tt
    ∧ be_value (sub snapshotEnvelopeStateLengthOffset snapshotEnvelopeStateChecksumOffset e) ≤ mx) as [-> Hlen].
  { revert Heq3. unfold validateSnapshotInputs. do 4 (case_outer; [done|]). intros _. bool_hyps.
    pose proof (be_value_range (sub snapshotEnvelopeStateLengthOffset snapshotEnvelopeStateChecksumOffset e)).
    split; [|lia]. repeat (case_goal; [absurd_bool|]). done. }
  cbn [outcome_bind]. split; [done|]. cbn [Snapshot_state].
  bool_hyps. unfold_offsets. unfold len in *. rewrite length_drop. lia.
Qed.

Lemma validateRecoveredSnapshot_mono (d : RecoveredState) (mx mx' : Z) :
  mx ≤ mx' → mx' ≤ MaxRaftSnapshotBytes → validateRecoveredSnapshot sha256 d identity mx = Ok tt →
  validateRecoveredSnapshot sha256 d identity mx' = Ok tt.
Proof.
  intros Hle Hmax. unfold validateRecoveredSnapshot. case_outer; [|done]. case_outer; [done|].
  case_outer; [done|]. case_outer; [|done..]. intros Hd. bool_hyps.
  apply DecodeSnapshotEnvelope_mono with (mx' := mx') in Heq2 as [-> _]; [|done..].
  case_goal; [absurd_bool|done].
Qed.

Lemma recovered_wf_mono (d : RecoveredState) (mx mx' : Z) :
  mx ≤ mx' → mx' ≤ MaxRaftSnapshotBytes → recovered_wf mx d → recovered_wf mx' d.
Proof. intros Hle Hmax []. split; try done. by eapply validateRecoveredSnapshot_mono. Qed.

(** A durable state whose log is that of [d] after [RestoreSnapshot]. *)
Definition restored (d d' : RecoveredState) (index term : Z) : Prop :=
  RestoreSnapshot index term (recovered_log d) = (Ok tt, recovered_log d').

Lemma restored_retained (d d' : RecoveredState) (index term : Z) :
  log_wf (recovered_log d) → term_at (recovered_log d) index = Some term → term ≠ 0 →
  LastIncludedIndex (RS_SnapshotBase d) < index →
  LastIncludedIndex (RS_SnapshotBase d') = index → LastIncludedTerm (RS_SnapshotBase d') = term →
  HardState_CommitIndex (RS_HardState d') = HardState_CommitIndex (RS_HardState d) `max` index →
  RS_AppliedIndex d' = RS_AppliedIndex d `max` index →
  RS_Entries d' = drop (Z.to_nat (index - LastIncludedIndex (RS_SnapshotBase d))) (RS_Entries d) →
  restored d d' index term.
Proof.
  intros Hwf Ht Hz Hb Hi Hti Hc Ha He. unfold restored.
  pose proof (term_at_Some_range _ _ _ Hwf Ht) as Hr. simpl in Hr.
  destruct (RestoreSnapshot_cases _ index term Hwf)
    as [[_ ?]|[[_ ?]|[[_ ?]|[(_ & _ & ?)|[(_ & _ & _ & ->)|(? & _ & ? & _)]]]]]; simpl in *;
    try lia; try done.
  unfold recovered_log. rewrite Hi, Hti, Hc, Ha, He. do 2 f_equal.
  - unfold len. rewrite length_drop. unfold len in *. lia.
  - f_equal. lia.
Qed.

Lemma restored_discarded (d d' : RecoveredState) (index term : Z) :
  log_wf (recovered_log d) → term_at (recovered_log d) index ≠ Some term → term ≠ 0 →
  HardState_CommitIndex (RS_HardState d) < index →
  LastIncludedIndex (RS_SnapshotBase d') = index → LastIncludedTerm (RS_SnapshotBase d') = term →
  HardState_CommitIndex (RS_HardState d') = index → RS_AppliedIndex d' = index →
  RS_Entries d' = [] → restored d d' index term.
Proof.
  intros Hwf Ht Hz Hb Hi Hti Hc Ha He. unfold restored.
  pose proof (wf_order _ Hwf) as Ho. simpl in Ho.
  destruct (RestoreSnapshot_cases _ index term Hwf)
    as [[_ ?]|[[_ ?]|[[_ ?]|[(_ & ? & ?)|[(_ & _ & ? & _)|(_ & _ & _ & ->)]]]]]; simpl in *;
    try lia; try done.
  unfold recovered_log. rewrite Hi, Hti, Hc, Ha, He. do 2 f_equal. rewrite len_nil. lia.
Qed.

Lemma compactRecoveredState_cases (limit wlimit : Z) (d d' : RecoveredState) (s : Snapshot) :
  recovered_wf wlimit d → compactRecoveredState sha256 d s identity voters limit = Ok d' →
  d' = d ∨
  (RS_HardState d' = RS_HardState d ∧ RS_SnapshotBase d' = Snapshot_Metadata s ∧
   restored d d' (LastIncludedIndex (Snapshot_Metadata s)) (LastIncludedTerm (Snapshot_Metadata s)) ∧
   LastIncludedIndex (RS_SnapshotBase d) < LastIncludedIndex (Snapshot_Metadata s) ≤
     HardState_CommitIndex (RS_HardState d) ∧
   validateRecoveredStateWithSnapshotLimit sha256 d' identity voters limit = Ok tt).
Proof.
  intros Hwf. pose proof (rw_log _ _ Hwf) as Hlog. unfold compactRecoveredState. cbv zeta.
  case_outer; [done|]. case_outer; [|done..]. case_outer; [done|].
  case_outer. { case_outer; [|done]. case_outer; [|done]. intros [= <-]. by left. }
  case_outer; [done|]. case_outer; [|done..]. case_outer; [done|]. case_outer; [done|].
  case_outer; [|done..]. intros [= <-]. bool_hyps. right. destruct a1. simpl.
  rewrite recoveredTermAt_log in Heq4 by done. pose proof (wf_nonneg _ Hlog). simpl in *.
  destruct (term_at (recovered_log d) _) as [t|] eqn:Ht.
  2:{ destruct (_ =? 0) eqn:? in Heq4; bool_hyps; [lia|done]. }
  simplify_eq. split_and!; try done. apply restored_retained; simpl; try done; try lia.
  - eapply (term_at_nonzero (recovered_log d)); done.
  - case_goal; bool_hyps; lia.
Qed.

Lemma installRecoveredSnapshot_cases (wlimit : Z) (d d' : RecoveredState) (s : Snapshot) :
  recovered_wf wlimit d → LastIncludedTerm (Snapshot_Metadata s) ≠ 0 →
  installRecoveredSnapshot sha256 d s identity voters = Ok d' →
  let m := Snapshot_Metadata s in
  HardState_CommitIndex (RS_HardState d) < LastIncludedIndex m ∧
  RS_HardState d' = (RS_HardState d) <| HardState_CommitIndex := LastIncludedIndex m |> ∧
  RS_SnapshotBase d' = m ∧ RS_Snapshot d' = Some s ∧
  restored d d' (LastIncludedIndex m) (LastIncludedTerm m) ∧
  ValidateRecoveredState sha256 d' identity voters = Ok tt.
Proof.
  intros Hwf Hz. pose proof (rw_log _ _ Hwf) as Hlog. unfold installRecoveredSnapshot.
  case_outer; [|done..]. case_outer; [|done..]. intros [= <-]. destruct a0. revert Heq.
  pose proof (wf_order _ Hlog) as Ho. pose proof (wf_last _ Hlog) as Hl.
  pose proof (wf_range _ Hlog) as Hr. pose proof (wf_nonneg _ Hlog) as Hn. simpl in *.
  unfold installSnapshotState. cbv zeta. case_outer; [done|]. case_outer; [done|].
  case_outer; [|done..]. intros [= <-]. bool_hyps. simpl. split_and!; try done.
  assert (∀ a i, a < i → (if a <? i then i else a) = i) as Hmax.
  { intros a' i ?. case_goal; [done|absurd_bool]. }
  rewrite wrap64_small in * by (pose proof (len_nonneg (RS_Entries d)); ulia).
  assert (term_at (recovered_log d) (LastIncludedIndex (Snapshot_Metadata s)) =
      Some (LastIncludedTerm (Snapshot_Metadata s)) ∧
      a0 = drop (Z.to_nat (LastIncludedIndex (Snapshot_Metadata s) - LastIncludedIndex (RS_SnapshotBase d)))
        (RS_Entries d) ∨
    term_at (recovered_log d) (LastIncludedIndex (Snapshot_Metadata s)) ≠
      Some (LastIncludedTerm (Snapshot_Metadata s)) ∧ a0 = []) as [[Ht ->]|[Ht ->]].
  { revert Heq2. case_outer.
    - rewrite recoveredTermAt_log by done.
      destruct (term_at (recovered_log d) _) as [t|] eqn:Ht; cbn [outcome_bind].
      + case_outer; intros [= <-]; bool_hyps; [left|right]; split; congruence.
      + by destruct (Z.eqb_spec (LastIncludedIndex (Snapshot_Metadata s)) 0); [lia|].
    - intros [= <-]. right. split; [|done]. bool_hyps.
      intros Ht. apply term_at_Some_range in Ht; [|done]. simpl in *. lia. }
  - apply restored_retained; simpl; try done; try lia. rewrite Hmax; lia.
  - apply restored_discarded; simpl; try done; try lia. rewrite Hmax; lia.
Qed.

Lemma compact_wf (limit wlimit : Z) (d d' : RecoveredState) (s : Snapshot) :
  recovered_wf wlimit d → wlimit ≤ MaxRaftSnapshotBytes → limit ≤ MaxRaftSnapshotBytes →
  compactRecoveredState sha256 d s identity voters limit = Ok d' →
  recovered_wf MaxRaftSnapshotBytes d'.
Proof.
  intros Hwf Hw Hl Hc.
  destruct (compactRecoveredState_cases _ _ _ _ _ Hwf Hc) as [->|(_ & Hb & Hr & Hle & Hv)].
  { by apply (recovered_wf_mono d wlimit). }
  apply (recovered_wf_mono d' limit); [done|done|].
  apply validate_iff; [|done]. rewrite Hb.
  destruct (rw_log _ _ Hwf). simpl in *. ulia.
Qed.

Lemma restored_extends (d d' : RecoveredState) (index term : Z) :
  log_wf (recovered_log d) → is_u64 index → restored d d' index term →
  log_extends (recovered_log d) (recovered_log d').
Proof.
  intros Hwf Hu Hr. destruct (RestoreSnapshot_safe _ index term Hwf Hu) as [_ H].
  unfold restored in Hr. by rewrite Hr in H.
Qed.
End wf.

(** ** The interface of a store

    What the node uses of a store: [StableStore] of [storage.go] and the snapshot
    operations the node obtains by type assertion. *)

Record SnapshotStageResult := mkStageResult {
  SSR_NextOffset : Z;
  SSR_Done : bool;
  SSR_State : RecoveredState
}.

Class StableStore (S : Type) := {
  SnapshotLimit : S → Z;
  Recover : M S error RecoveredState;
  Persist : PersistenceBatch → M S error unit;
  StageSnapshotChunk : InstallSnapshotRequest → M S error SnapshotStageResult;
  AbortSnapshotStage : M S error unit;
  PersistSnapshot : Snapshot → M S error unit;
  RetainedWALBytes : M S error Z;
  Close : M S error unit
}.

(** The operations as data, with their results. *)
Inductive store_op :=
| SRecover
| SPersist (batch : PersistenceBatch)
| SStage (request : InstallSnapshotRequest)
| SAbort
| SPersistSnapshot (snapshot : Snapshot)
| SRetained
| SClose.

Inductive store_result :=
| ResultUnit
| ResultState (state : RecoveredState)
| ResultStage (result : SnapshotStageResult)
| ResultBytes (n : Z).

Definition mapM {S E A B} (f : A → B) (m : M S E A) : M S E B := let! a := m in ret (f a).

Definition runStore {S : Type} `{!StableStore S} (op : store_op) : M S error store_result :=
  match op with
  | SRecover => mapM ResultState Recover
  | SPersist batch => mapM (λ _, ResultUnit) (Persist batch)
  | SStage request => mapM ResultStage (StageSnapshotChunk request)
  | SAbort => mapM (λ _, ResultUnit) AbortSnapshotStage
  | SPersistSnapshot snapshot => mapM (λ _, ResultUnit) (PersistSnapshot snapshot)
  | SRetained => mapM ResultBytes RetainedWALBytes
  | SClose => mapM (λ _, ResultUnit) Close
  end.

(** ** The specification of a store

    An abstract store is a durable state.  [store_spec d op o d'] lists the
    outcomes of an operation: a success has exactly the effect of the pure
    transition of [storage.go] or [snapshot.go]; a failure leaves the old state
    or installs the requested one, because a failed write may still have reached
    the medium. *)
Section spec.
Context (sha256 : list byte → list byte) (identity : StorageIdentity) (voters : VoterSet).

(** [d'] is [d] with a received snapshot installed. *)
Definition installed (r : InstallSnapshotRequest) (d d' : RecoveredState) : Prop :=
  ∃ snapshot, metadata_typed (Snapshot_Metadata snapshot) ∧
    LastIncludedTerm (Snapshot_Metadata snapshot) ≠ 0 ∧
    Snapshot_Metadata snapshot = STM_metadata (snapshotTransferMetadataFor r) ∧
    installRecoveredSnapshot sha256 d snapshot identity voters = Ok d'.

(** The states an operation may install. *)
Definition store_effect (limit : Z) (d : RecoveredState) (op : store_op) (d' : RecoveredState) : Prop :=
  match op with
  | SPersist batch => applyPersistenceBatch sha256 d batch identity voters = Ok d'
  | SStage request => installed request d d'
  | SPersistSnapshot snapshot => compactRecoveredState sha256 d snapshot identity voters limit = Ok d'
  | SRecover | SAbort | SRetained | SClose => False
  end.

Definition store_spec (limit : Z) (d : RecoveredState) (op : store_op)
    (o : outcome error store_result) (d' : RecoveredState) : Prop :=
  match o with
  | Ok result =>
    match op, result with
    | SRecover, ResultState r => r = d ∧ d' = d
    | SPersist _, ResultUnit | SPersistSnapshot _, ResultUnit => store_effect limit d op d'
    | SStage _, ResultStage r =>
      if SSR_Done r then store_effect limit d op d' ∧ SSR_State r = d' else d' = d
    | SAbort, ResultUnit | SClose, ResultUnit | SRetained, ResultBytes _ => d' = d
    | _, _ => False
    end
  | Err e => d' = d ∨ (error_is e ErrSnapshotRejected = false ∧ store_effect limit d op d')
  | Panic | Blocked => False
  end.

Definition store_op_typed (op : store_op) : Prop :=
  match op with
  | SPersist batch => batch_values batch
  | SPersistSnapshot s => metadata_typed (Snapshot_Metadata s)
  | SStage request => rpc_typed (RPC_InstallSnapshotRequest request)
  | _ => True
  end.

(** Every effect keeps the durable state well formed, and the term, the vote and
    the commit index only move forward. *)
Lemma store_effect_safe (limit : Z) (d d' : RecoveredState) (op : store_op) :
  limit ≤ MaxRaftSnapshotBytes → recovered_wf sha256 identity voters MaxRaftSnapshotBytes d →
  store_op_typed op → store_effect limit d op d' →
  recovered_wf sha256 identity voters MaxRaftSnapshotBytes d' ∧
  hs_le (RS_HardState d) (RS_HardState d').
Proof.
  intros Hl Hwf Ht. destruct op as [|b|r| |s| |]; simpl; try done.
  - unfold applyPersistenceBatch. case_outer; [|done..]. intros Ha.
    split; [eapply applyValidated_wf; [done|by apply batch_values_typed|done]|]. by apply applyValidated_hard in Ha as (_ & ? & _).
  - intros (s & Hm & Hz & _ & Hi).
    destruct (installRecoveredSnapshot_cases _ _ _ _ _ _ _ Hwf Hz Hi) as (Hc & Hh & Hb & _ & _ & Hv).
    split.
    + apply validate_iff; [|done]. rewrite Hb. apply Hm.
    + rewrite Hh. split; simpl; [lia|]. right. auto.
  - intros Hc. split; [by eapply compact_wf|].
    destruct (compactRecoveredState_cases _ _ _ _ _ _ _ _ Hwf Hc) as [->|(-> & _)]; reflexivity.
Qed.
End spec.

(** The operations of the node: batches move no snapshot base, and a captured
    snapshot is ahead of the durable one. *)
Definition node_op (d : RecoveredState) (op : store_op) : Prop :=
  store_op_typed op ∧
  match op with
  | SPersist batch => PB_SnapshotBase batch = None ∧ PB_Snapshot batch = None
  | SPersistSnapshot s =>
    LastIncludedIndex (RS_SnapshotBase d) < LastIncludedIndex (Snapshot_Metadata s)
  | _ => True
  end.

(** The contract between a store and the node.  A store is live from its opening
    to its first failed write; only a live store promises that [Recover] reads
    the durable state.  A store opened again after its process or the power failed
    has the durable state, or that of an operation that was not acknowledged. *)
Class StoreLaws (sha256 : list byte → list byte) (identity : StorageIdentity) (voters : VoterSet)
    (S : Type) `{!StableStore S} := {
  durable : S → RecoveredState;
  store_ok : S → Prop;
  store_live : S → Prop;
  store_wf : ∀ s, store_ok s → recovered_wf sha256 identity voters MaxRaftSnapshotBytes (durable s);
  store_limit : ∀ s, store_ok s → SnapshotLimit s ≤ MaxRaftSnapshotBytes;
  store_law : ∀ op s, store_ok s → node_op (durable s) op → (op = SRecover → store_live s) →
    store_ok (runStore op s).2 ∧ SnapshotLimit (runStore op s).2 = SnapshotLimit s ∧
    store_spec sha256 identity voters (SnapshotLimit s) (durable s) op (runStore op s).1
      (durable (runStore op s).2);
  reopens : S → S → Prop;
  store_reopens : ∀ s s', store_ok s → reopens s s' → store_ok s' ∧ store_live s' ∧
    (durable s' = durable s ∨ ∃ op, node_op (durable s) op ∧
       store_effect sha256 identity voters (SnapshotLimit s) (durable s) op (durable s'))
}.

(** ** What a durable state is *)

(** A log entry the log accepts: a command, or a no-op without bytes, at a position
    and in a term that are not zero. *)
Definition entry_spec (e : Entry) : Prop :=
  Entry_Index e ≠ 0 ∧ Entry_Term e ≠ 0 ∧
  (Entry_Kind e = EntryCommand ∨ Entry_Kind e = EntryNoOp ∧ Entry_command e = []).

Section durable.
Context (sha256 : list byte → list byte) (identity : StorageIdentity) (voters : VoterSet).

(** The snapshot [s] carries the envelope of some position [m] and state [st] for
    this cluster: the header fields and the state in order, with the SHA-256 of the
    state, and the SHA-256 of the envelope itself computed with a zero checksum
    field, whose first 16 bytes are the identity of the snapshot. *)
Definition envelope_spec (limit : Z) (s : Snapshot) : Prop :=
  ∃ m st, metadata_typed m ∧ LastIncludedIndex m ≠ 0 ∧ LastIncludedTerm m ≠ 0 ∧
    StateMachineSchemaVersion m ≠ 0 ∧ len st ≤ limit ∧
    let checksum := sha256 (envelopeWith identity m (sha256 st) (zero_bytes 32) st) in
    Snapshot_envelope s = envelopeWith identity m (sha256 st) checksum st ∧
    Snapshot_ID s = take 16 checksum ∧ Snapshot_StateChecksum s = sha256 st.

(** The durable states of a voter of this cluster, field by field. *)
Record recovered_spec (d : RecoveredState) : Prop := {
  rs_identity : RS_Identity d = identity ∧ SI_FormatVersion identity = 1 ∧
    SI_ClusterID identity ≠ zero_bytes 16 ∧ SI_VoterFingerprint identity = VS_fingerprint voters;
  rs_local : SI_LocalVoterID identity ∈ ids voters;
  rs_vote : HardState_VotedFor (RS_HardState d) = 0 ∨
    HardState_Term (RS_HardState d) ≠ 0 ∧ HardState_VotedFor (RS_HardState d) ∈ ids voters;
  rs_base : LastIncludedIndex (RS_SnapshotBase d) = 0 ↔ LastIncludedTerm (RS_SnapshotBase d) = 0;
  rs_base_term : LastIncludedTerm (RS_SnapshotBase d) ≤ HardState_Term (RS_HardState d);
  rs_order : LastIncludedIndex (RS_SnapshotBase d) ≤ RS_AppliedIndex d ≤
    HardState_CommitIndex (RS_HardState d);
  rs_last : HardState_CommitIndex (RS_HardState d) ≤
    LastIncludedIndex (RS_SnapshotBase d) + len (RS_Entries d) ≤ max_uint64;
  rs_entries : ∀ k e, RS_Entries d !! k = Some e →
    entry_spec e ∧ Entry_Index e = LastIncludedIndex (RS_SnapshotBase d) + Z.of_nat k + 1 ∧
    LastIncludedTerm (RS_SnapshotBase d) ≤ Entry_Term e ≤ HardState_Term (RS_HardState d);
  rs_terms : ∀ j k e e', (j < k)%nat → RS_Entries d !! j = Some e → RS_Entries d !! k = Some e' →
    Entry_Term e ≤ Entry_Term e';
  rs_snapshot : ∀ s, RS_Snapshot d = Some s →
    LastIncludedIndex (RS_SnapshotBase d) ≠ 0 ∧ Snapshot_Metadata s = RS_SnapshotBase d ∧
    SI_VoterFingerprint identity ≠ zero_bytes 32 ∧ len (Snapshot_state s) ≤ 1073741824 ∧
    envelope_spec 1073741824 s
}.

Lemma valid_entry_spec (e : Entry) : valid_entry e ↔ entry_spec e.
Proof.
  unfold valid_entry, validateLogEntry, entry_spec, len. split.
  - repeat (case_goal; [done|]). intros _. bool_hyps. split_and!; try done.
    destruct (Z.eqb_spec (Entry_Kind e) EntryCommand); [by left|].
    destruct (Z.eqb_spec (Entry_Kind e) EntryNoOp); [|done]. right. split; [done|].
    apply nil_length_inv. simpl in *. bool_hyps. lia.
  - intros (Hi & Ht & Hk). rewrite (proj2 (Z.eqb_neq _ _) Hi), (proj2 (Z.eqb_neq _ _) Ht).
    by destruct Hk as [->|[-> ->]].
Qed.

Lemma terms_between_spec (previous top : Z) (es : list Entry) :
  terms_between previous top es ↔
  (∀ k e, es !! k = Some e → previous ≤ Entry_Term e ≤ top) ∧
  (∀ j k e e', (j < k)%nat → es !! j = Some e → es !! k = Some e' → Entry_Term e ≤ Entry_Term e').
Proof.
  revert previous. induction es as [|x es IH]; intros previous; simpl.
  { split; [|done]. intros _. split; intros; by simplify_list_eq. }
  rewrite IH. split.
  - intros (Hx & Ha & Hs). split.
    + intros [|k] e He; simplify_eq/=; [done|]. apply Ha in He. lia.
    + intros [|j] [|k] e e' Hlt Hj Hk; simplify_eq/=; [lia| |lia|].
      * apply Ha in Hk. lia.
      * apply (Hs j k); [lia|done..].
  - intros (Ha & Hs). split_and!; [by apply (Ha 0%nat)..| |].
    + intros k e He. split; [by apply (Hs 0%nat (S k) x e ltac:(lia))|by apply (Ha (S k))].
    + intros j k e e' Hlt. apply (Hs (S j) (S k) e e'). lia.
Qed.

Context (Hsha : ∀ l, length (sha256 l) = 32%nat) (Hid : identity_typed identity).

(** [NewSnapshot] accepts exactly the positions and states an envelope may hold. *)
Lemma NewSnapshot_Ok (m : SnapshotMetadata) (st : list byte) (s : Snapshot) :
  SI_ClusterID identity ≠ zero_bytes 16 →
  NewSnapshot sha256 identity m st MaxRaftSnapshotBytes = Ok s ↔
  SI_VoterFingerprint identity ≠ zero_bytes 32 ∧
  LastIncludedIndex m ≠ 0 ∧ LastIncludedTerm m ≠ 0 ∧ StateMachineSchemaVersion m ≠ 0 ∧
  len st ≤ 1073741824 ∧
  let checksum := sha256 (envelopeWith identity m (sha256 st) (zero_bytes 32) st) in
  s = mkSnapshot m (take 16 checksum) (sha256 st) st (envelopeWith identity m (sha256 st) checksum st).
Proof.
  intros Hc. unfold NewSnapshot, validateSnapshotInputs, isZeroArray.
  change MaxRaftSnapshotBytes with 1073741824. rewrite bool_decide_eq_false_2 by done. split.
  - repeat (case_goal; [done|]). intros <-%Ok_inj. bool_hyps. done.
  - intros (Hf & ? & ? & ? & ? & ->). rewrite bool_decide_eq_false_2 by done.
    unfold max_int.
    repeat (case_goal; [absurd_bool|]). cbn [outcome_bind]. case_goal; [|done]. unfold snapshotEnvelopeHeaderBytes in *. absurd_bool.
Qed.

Lemma validateRecoveredSnapshot_Ok (d : RecoveredState) :
  SI_ClusterID identity ≠ zero_bytes 16 →
  validateRecoveredSnapshot sha256 d identity MaxRaftSnapshotBytes = Ok tt ↔
  (∀ s, RS_Snapshot d = Some s →
    LastIncludedIndex (RS_SnapshotBase d) ≠ 0 ∧ Snapshot_Metadata s = RS_SnapshotBase d ∧
    SI_VoterFingerprint identity ≠ zero_bytes 32 ∧ len (Snapshot_state s) ≤ 1073741824 ∧
    envelope_spec 1073741824 s).
Proof.
  intros Hc. unfold validateRecoveredSnapshot. destruct (RS_Snapshot d) as [s|]; [|done]. split.
  - do 2 (case_goal; [done|]).
    destruct (DecodeSnapshotEnvelope _ _ _ _) as [s0| | |] eqn:Hd; try done.
    case_goal; [done|]. intros _ s' [= <-]. bool_hyps.
    apply NewSnapshot_decoded in Hd as (Hm & Hn & He); [|done..].
    apply NewSnapshot_Ok in Hn as (? & ? & ? & ? & ? & Hs); [|done].
    split_and!; try done. exists (Snapshot_Metadata s0), (Snapshot_state s0).
    split_and!; try done.
    cbv zeta in *. rewrite <- He, <- H, <- H0. destruct s0. simplify_eq/=. done.
  - intros H. destruct (H s eq_refl) as (? & -> & Hf & Hl & m & st & Hm & ? & ? & ? & ? & He & Hi & Hk).
    rewrite bool_decide_eq_true_2 by done. change MaxRaftSnapshotBytes with 1073741824.
    do 2 (case_goal; [absurd_bool|]). rewrite He.
    pose proof (proj2 (NewSnapshot_Ok m st _ Hc)
      (conj Hf (conj H1 (conj H2 (conj H3 (conj H4 eq_refl)))))) as Hn.
    apply (DecodeSnapshotEnvelope_new sha256 Hsha identity Hid m st _ _ Hm) in Hn.
    cbn [Snapshot_envelope] in Hn. change MaxRaftSnapshotBytes with 1073741824 in Hn. rewrite Hn.
    cbn [Snapshot_ID Snapshot_StateChecksum]. by rewrite Hi, Hk, !bool_decide_eq_true_2.
Qed.

Lemma recovered_wf_spec (d : RecoveredState) :
  voters_wf voters → is_u64 (LastIncludedIndex (RS_SnapshotBase d)) →
  recovered_wf sha256 identity voters MaxRaftSnapshotBytes d ↔ recovered_spec d.
Proof.
  intros Hv Hu.
  assert (ValidateLocalID voters (SI_LocalVoterID identity) = Ok tt ↔
    SI_LocalVoterID identity ∈ ids voters) as Hlocal.
  { unfold ValidateLocalID. rewrite <- Contains_spec by done. split.
    - case_goal; [done|]. by bool_hyps.
    - intros Hi. rewrite Hi. apply Contains_spec, ids_nonzero in Hi; [|done..].
      by rewrite (proj2 (Z.eqb_neq _ _) Hi). }
  split.
  - intros [Hi Hf Hc Hp Hl Hvote Hb [] Ht Hs]. simpl in *.
    apply terms_between_spec in Ht as [Ht Hmono].
    split; try done; try (by apply validateRecoveredSnapshot_Ok); try by apply Hlocal.
    + destruct (Z.eq_dec (HardState_VotedFor (RS_HardState d)) 0) as [|Hne]; [by left|right].
      rewrite <- Contains_spec by done. by apply Hvote.
    + intros k e He. split_and!; [|by apply wf_contiguous0|by apply (Ht k)..].
      apply valid_entry_spec. rewrite Forall_lookup in wf_valid0. by apply (wf_valid0 k).
  - intros [(Hi & Hf & Hc & Hp) Hl Hvote Hb Hbt Ho Hla He Hmono Hs].
    split; try done; try (by apply validateRecoveredSnapshot_Ok); try by apply Hlocal.
    + rewrite Contains_spec by done. by destruct Hvote.
    + split; simpl; try done; try ulia; [by intros k e (_ & ? & _)%He|].
      apply Forall_lookup. intros k e (? & _)%He. by apply valid_entry_spec.
    + apply terms_between_spec. split; [|done]. by intros k e (_ & _ & ?)%He.
Qed.
End durable.

(** ** Main results *)

(** C25: [ValidateRecoveredState] accepts exactly the durable states of a voter of
    the cluster, as [recovered_spec] lists them: the expected identity, of a
    configured voter; no vote, or a vote for a configured voter in a nonzero term;
    a log that continues the snapshot base without a gap, in nonzero terms that
    never decrease and stay at or below the hard-state term, of commands and of
    no-ops without bytes; snapshot <= applied <= commit <= last; and, where there is
    a snapshot, one at the base, of at most 1 GiB, whose envelope is byte for byte
    an envelope of this cluster with both checksums right and whose identity and
    state checksum are the ones of that envelope. *)
Theorem ValidateRecoveredState_exact (sha256 : list byte → list byte) (identity : StorageIdentity)
    (voters : VoterSet) (d : RecoveredState) :
  (∀ l, length (sha256 l) = 32%nat) → identity_typed identity → voters_wf voters →
  is_u64 (LastIncludedIndex (RS_SnapshotBase d)) →
  ValidateRecoveredState sha256 d identity voters = Ok tt ↔
  recovered_spec sha256 identity voters d.
Proof.
  intros Hsha Hid Hv Hu. unfold ValidateRecoveredState. rewrite validate_iff by done.
  by apply recovered_wf_spec.
Qed.

(** C23: An accepted batch yields a well-formed durable state whose term never
    decreases, whose vote in a term never changes and whose commit index never
    decreases; unless it moves the snapshot base, it leaves every committed
    entry and the applied position only grows. *)
Theorem persist_keeps_commits (sha256 : list byte → list byte) (identity : StorageIdentity)
    (voters : VoterSet) (d d' : RecoveredState) (b : PersistenceBatch) :
  recovered_wf sha256 identity voters MaxRaftSnapshotBytes d → batch_typed b →
  applyPersistenceBatch sha256 d b identity voters = Ok d' →
  recovered_wf sha256 identity voters MaxRaftSnapshotBytes d' ∧
  hs_le (RS_HardState d) (RS_HardState d') ∧
  (PB_SnapshotBase b = None → log_extends (recovered_log d) (recovered_log d')).
Proof.
  intros Hwf Hb. unfold applyPersistenceBatch. case_outer; [|done..]. intros Ha.
  split_and!; [by eapply applyValidated_wf| |intros Hn; by eapply applyValidated_extends].
  by destruct (applyValidated_hard _ _ _ _ _ _ Ha) as (_ & Hle & _).
Qed.

(** ** Witnesses *)

Definition exStoreIdentity : StorageIdentity :=
  mkStorageIdentity 1 (replicate 16 Byte.x07) 1 (Fingerprint exVoterSet).

(** A voter in term 2 that has voted for itself and holds one committed entry. *)
Definition exDurable : RecoveredState :=
  mkRecoveredState exStoreIdentity (mkHardState 2 1 1) (mkSnapshotMetadata 0 0 0) None 0
    [mkEntry 1 2 EntryNoOp []].

Lemma ValidateRecoveredState_exact_witness :
  recovered_spec sha256 exStoreIdentity exVoterSet exDurable.
Proof.
  apply (ValidateRecoveredState_exact sha256 exStoreIdentity exVoterSet exDurable).
  - exact sha256_length.
  - split; reflexivity.
  - exact exVoterSet_wf.
  - vm_compute; split; discriminate.
  - vm_compute; reflexivity.
Defined.

(** A later term, a second entry, and a commit of both. *)
Definition exBatch : PersistenceBatch :=
  mkBatch (Some (mkHardState 3 0 2)) 2 [mkEntry 2 3 EntryCommand [Byte.x61]] None None (Some 1).

Lemma persist_keeps_commits_witness :
  ∃ d', applyPersistenceBatch sha256 exDurable exBatch exStoreIdentity exVoterSet = Ok d' ∧
    recovered_wf sha256 exStoreIdentity exVoterSet MaxRaftSnapshotBytes d' ∧
    hs_le (RS_HardState exDurable) (RS_HardState d') ∧
    (PB_SnapshotBase exBatch = None → log_extends (recovered_log exDurable) (recovered_log d')).
Proof.
  destruct (applyPersistenceBatch sha256 exDurable exBatch exStoreIdentity exVoterSet) as [d'| | |] eqn:Ha;
    [|exfalso; revert Ha; vm_compute; discriminate..].
  exists d'. split; [done|].
  apply (persist_keeps_commits sha256 exStoreIdentity exVoterSet exDurable d' exBatch); [|done|done].
  apply validate_iff; [vm_compute; split; discriminate|vm_compute; reflexivity].
Defined.

End RaftStorage.
