(* ===== verification/RaftMemoryStore.v ===== *)
(** * The in-memory store

    [memory_storage.go]: the deterministic store with fault injection, and the
    proof that it implements the interface of [RaftStorage]. *)

From S2P Require Import Prelude RaftTypes RaftLog RaftVoters RaftCodec RaftSnapshot RaftStorage.

Module RaftMemoryStore.
Import RaftLog RaftVoters RaftCodec RaftSnapshot RaftStorage.

(** [StorageOperation] numbers the fault-injection points. *)
Definition StorageOperationRecover : Z := 1.
Definition StorageOperationPersist : Z := 2.
Definition StorageOperationClose : Z := 3.
Definition StorageOperationSnapshotPersist : Z := 4.
Definition StorageOperationSnapshotStageWrite : Z := 5.
Definition StorageOperationSnapshotStageSync : Z := 6.
Definition StorageOperationSnapshotInstall : Z := 7.

Record memorySnapshotStage := mkStage {
  MSS_metadata : snapshotTransferMetadata;
  MSS_bytes : list byte
}.

Record MemoryStore := mkMemoryStore {
  MS_identity : StorageIdentity;
  MS_voters : VoterSet;
  MS_snapshotLimit : Z;
  MS_state : RecoveredState;
  MS_closed : bool;
  MS_faults : gmap Z (list error);
  MS_stage : option memorySnapshotStage
}.

#[global] Instance MemoryStore_settable : Settable MemoryStore :=
  λ r, mkMemoryStore (MS_identity r) (MS_voters r) (MS_snapshotLimit r) (MS_state r) (MS_closed r)
    (MS_faults r) (MS_stage r).

Abbreviation Store A := (M MemoryStore error A).

(** [takeFault] pops the next queued error of an operation. *)
Definition takeFault (operation : Z) : Store unit :=
  let! s := get in
  match MS_faults s !! operation with
  | None | Some [] => ret tt
  | Some (err :: rest) =>
    put (s <| MS_faults := match rest with
                           | [] => delete operation (MS_faults s)
                           | _ => <[operation := rest]> (MS_faults s)
                           end |>) ;;!
    throw err
  end.

Definition FailNext (operation : Z) (err : option error) : Store unit :=
  match err with
  | None => ret tt
  | Some err =>
    modify (λ s, s <| MS_faults ::= (λ f, <[operation := default [] (f !! operation) ++ [err]]> f) |>)
  end.

(** Discard the staged bytes and report [err]. *)
Definition dropStage {A} (err : error) : Store A :=
  modify (λ s, s <| MS_stage := None |>) ;;! throw err.

(** [if err := store.takeFault(op); err != nil { store.stage = nil; return err }] *)
Definition faultDropsStage (operation : Z) : Store unit := λ s,
  match takeFault operation s with
  | (Err e, s') => dropStage e s'
  | r => r
  end.

Section memory_store.
Context (sha256 : list byte → list byte).

Definition NewMemoryStoreWithOptions (identity : StorageIdentity) (voters : VoterSet)
    (maxSnapshotBytes : Z) : outcome error MemoryStore :=
  let? limit := snapshotLimit maxSnapshotBytes in
  let state := mkRecoveredState identity (mkHardState 0 0 0) (mkSnapshotMetadata 0 0 0) None 0 [] in
  let? _ := ValidateRecoveredState sha256 state identity voters in
  Ok (mkMemoryStore identity voters limit state false ∅ None).

Definition NewMemoryStore (identity : StorageIdentity) (voters : VoterSet) : outcome error MemoryStore :=
  NewMemoryStoreWithOptions identity voters 0.

Definition MemoryStore_Recover : Store RecoveredState :=
  let! s := get in
  if MS_closed s then throw ErrStoreClosed
  else
    takeFault StorageOperationRecover ;;!
    let! s := get in
    lift (validateRecoveredStateWithSnapshotLimit sha256 (MS_state s) (MS_identity s) (MS_voters s)
            (MS_snapshotLimit s)) ;;!
    ret (MS_state s).

Definition MemoryStore_Persist (batch : PersistenceBatch) : Store unit :=
  let! s := get in
  if MS_closed s then throw ErrStoreClosed
  else
    lift (validatePersistenceBatchBounds batch) ;;!
    if match PB_Snapshot batch with
       | Some snapshot => MS_snapshotLimit s <? len (Snapshot_state snapshot)
       | None => false
       end
    then throw ErrInvalidStorageState
    else
      takeFault StorageOperationPersist ;;!
      let! s := get in
      let! prospective := lift (applyValidatedPersistenceBatch sha256 (MS_state s) batch
                                  (MS_identity s) (MS_voters s)) in
      modify (λ s, s <| MS_state := prospective |>).

Definition MemoryStore_PersistSnapshot (snapshot : Snapshot) : Store unit :=
  let! s := get in
  if MS_closed s then throw ErrStoreClosed
  else
    takeFault StorageOperationSnapshotPersist ;;!
    let! s := get in
    let! prospective := lift (compactRecoveredState sha256 (MS_state s) snapshot (MS_identity s)
                                (MS_voters s) (MS_snapshotLimit s)) in
    modify (λ s, s <| MS_state := prospective |>).

Definition MemoryStore_AbortSnapshotStage : Store unit :=
  let! s := get in
  if MS_closed s then throw ErrStoreClosed else modify (λ s, s <| MS_stage := None |>).

Fixpoint retainedLoop (total : Z) (entries : list Entry) : outcome error Z :=
  match entries with
  | [] => Ok total
  | entry :: rest =>
    let addition := minimumWALEntryBytes + len (Entry_command entry) in
    if max_uint64 - addition <? total then Err ErrLogOverflow
    else retainedLoop (total + addition) rest
  end.

Definition MemoryStore_RetainedWALBytes : Store Z :=
  let! s := get in
  if MS_closed s then throw ErrStoreClosed
  else lift (retainedLoop 0 (RS_Entries (MS_state s))).

Definition MemoryStore_Close : Store unit :=
  let! s := get in
  if MS_closed s then throw ErrStoreClosed
  else
    takeFault StorageOperationClose ;;!
    modify (λ s, s <| MS_stage := None |> <| MS_closed := true |>).

(** The stage after the checks that open or continue a transfer. *)
Definition openStage (request : InstallSnapshotRequest) : Store memorySnapshotStage :=
  let! s := get in
  let metadata := snapshotTransferMetadataFor request in
  match MS_stage s with
  | None =>
    if negb (ISReq_Offset request =? 0) then throw ErrSnapshotRejected
    else
      let stage := mkStage metadata [] in
      modify (λ s, s <| MS_stage := Some stage |>) ;;! ret stage
  | Some stage =>
    if negb (bool_decide (MSS_metadata stage = metadata)) then dropStage ErrSnapshotRejected
    else ret stage
  end.

(** The [switch] on the position of the chunk; returns the staged bytes. *)
Definition stageBytes (request : InstallSnapshotRequest) (stage : memorySnapshotStage) :
    Store (list byte) :=
  let offset := ISReq_Offset request in
  let nextOffset := len (MSS_bytes stage) in
  let end_ := wrap64 (offset + len (ISReq_Chunk request)) in
  if offset =? nextOffset then
    faultDropsStage StorageOperationSnapshotStageWrite ;;!
    faultDropsStage StorageOperationSnapshotStageSync ;;!
    let bytes := MSS_bytes stage ++ ISReq_Chunk request in
    modify (λ s, s <| MS_stage := Some (mkStage (MSS_metadata stage) bytes) |>) ;;!
    ret bytes
  else if end_ <=? nextOffset then
    if end_ <? offset then panic
    else if negb (bool_decide (slice (MSS_bytes stage) offset (end_ - offset) = ISReq_Chunk request))
    then dropStage ErrSnapshotRejected
    else ret (MSS_bytes stage)
  else dropStage ErrSnapshotRejected.

(** Turn a complete stage into the installed state. *)
Definition installStage (request : InstallSnapshotRequest) (bytes : list byte) :
    Store SnapshotStageResult :=
  let! s := get in
  if negb (bool_decide (sha256 bytes = ISReq_Checksum request)) then dropStage ErrSnapshotRejected
  else match NewSnapshot sha256 (MS_identity s) (STM_metadata (snapshotTransferMetadataFor request))
               bytes (MS_snapshotLimit s) with
       | Ok snapshot =>
         if negb (bool_decide (Snapshot_ID snapshot = ISReq_SnapshotID request))
         then dropStage ErrSnapshotRejected
         else match installRecoveredSnapshot sha256 (MS_state s) snapshot (MS_identity s) (MS_voters s) with
              | Ok prospective =>
                faultDropsStage StorageOperationSnapshotInstall ;;!
                modify (λ s, s <| MS_state := prospective |> <| MS_stage := None |>) ;;!
                ret (mkStageResult (len bytes) true prospective)
              | Err e => dropStage e
              | Panic => panic
              | Blocked => lift Blocked
              end
       | _ => dropStage ErrSnapshotRejected
       end.

Definition RecoveredState_zero : RecoveredState :=
  mkRecoveredState (mkStorageIdentity 0 (zero_bytes 16) 0 (zero_bytes 32)) (mkHardState 0 0 0)
    (mkSnapshotMetadata 0 0 0) None 0 [].

Definition MemoryStore_StageSnapshotChunk (request : InstallSnapshotRequest) :
    Store SnapshotStageResult :=
  let! s := get in
  if MS_closed s then throw ErrStoreClosed
  else
    let limits := DefaultCodecLimits <| MaxSnapshotBytes := MS_snapshotLimit s |> in
    match validateSnapshotRequest request limits with
    | Ok _ =>
      let! stage := openStage request in
      let! bytes := stageBytes request stage in
      if negb (ISReq_Done request)
      then ret (mkStageResult (len bytes) false RecoveredState_zero)
      else installStage request bytes
    | _ => dropStage ErrSnapshotRejected
    end.

#[global] Instance MemoryStore_StableStore : StableStore MemoryStore := {
  SnapshotLimit := MS_snapshotLimit;
  Recover := MemoryStore_Recover;
  Persist := MemoryStore_Persist;
  StageSnapshotChunk := MemoryStore_StageSnapshotChunk;
  AbortSnapshotStage := MemoryStore_AbortSnapshotStage;
  PersistSnapshot := MemoryStore_PersistSnapshot;
  RetainedWALBytes := MemoryStore_RetainedWALBytes;
  Close := MemoryStore_Close
}.
End memory_store.

(** ** The store keeps its contract *)

Section laws.
Context (sha256 : list byte → list byte) (identity : StorageIdentity) (voters : VoterSet).

Record memory_ok (s : MemoryStore) : Prop := {
  mo_identity : MS_identity s = identity;
  mo_voters : MS_voters s = voters;
  mo_limit : 0 ≤ MS_snapshotLimit s ≤ MaxRaftSnapshotBytes;
  mo_state : recovered_wf sha256 identity voters MaxRaftSnapshotBytes (MS_state s)
}.

(** The outcomes of an operation on [s]: a success satisfies [P], an error keeps
    the durable state, and it always returns. *)
Definition post {A} (P : A → RecoveredState → Prop) (s : MemoryStore) (o : outcome error A)
    (s' : MemoryStore) : Prop :=
  (memory_ok s' ∧ MS_snapshotLimit s' = MS_snapshotLimit s) ∧
  match o with
  | Ok a => P a (MS_state s')
  | Err _ => MS_state s' = MS_state s
  | Panic | Blocked => False
  end.

(** Operations that leave the durable state. *)
Abbreviation unchanged s := (λ _ d, d = MS_state s).
Definition still {A} (m : Store A) : Prop := ∀ s, memory_ok s → wp m (post (unchanged s) s) s.

(** Continue after a part that left the durable state. *)
Lemma still_then {A B} (m : Store A) (k : A → Store B) (P : B → RecoveredState → Prop)
    (s0 s : MemoryStore) :
  memory_ok s → MS_state s = MS_state s0 → MS_snapshotLimit s = MS_snapshotLimit s0 → still m →
  (∀ a s', memory_ok s' → MS_state s' = MS_state s0 → MS_snapshotLimit s' = MS_snapshotLimit s0 →
    wp (k a) (post P s0) s') →
  wp (bind m k) (post P s0) s.
Proof.
  intros Hok Hs Hl Hm Hk. destruct (Hm s Hok) as ([Hok' Hl'] & Ho). unfold wp, bind in *.
  destruct (m s) as [[a|e| |] s']; simpl in *; try done.
  - apply Hk; congruence.
  - split_and!; [done|congruence|congruence].
Qed.

Lemma post_throw {A} (P : A → RecoveredState → Prop) (s0 s : MemoryStore) (e : error) :
  memory_ok s → MS_state s = MS_state s0 → MS_snapshotLimit s = MS_snapshotLimit s0 →
  wp (throw e : Store A) (post P s0) s.
Proof. done. Qed.

Lemma post_lift {A B} (o : outcome error A) (k : A → Store B) (P : B → RecoveredState → Prop)
    (s0 s : MemoryStore) :
  memory_ok s → MS_state s = MS_state s0 → MS_snapshotLimit s = MS_snapshotLimit s0 → returns o →
  (∀ a, o = Ok a → wp (k a) (post P s0) s) → wp (bind (lift o) k) (post P s0) s.
Proof. intros Hok Hs Hl Hr Hk. apply wp_lift. destruct o; try done. by apply Hk. Qed.

Lemma still_ret {A} (a : A) : still (ret a).
Proof. intros s Hok. done. Qed.
Lemma still_throw {A} (e : error) : still (throw e : Store A).
Proof. intros s Hok. done. Qed.
Lemma still_get {B} (k : MemoryStore → Store B) : (∀ s, still (k s)) → still (bind get k).
Proof. intros Hk s Hok. by apply Hk. Qed.
Lemma still_modify (f : MemoryStore → MemoryStore) :
  (∀ s, memory_ok s → memory_ok (f s) ∧ MS_state (f s) = MS_state s ∧
    MS_snapshotLimit (f s) = MS_snapshotLimit s) → still (modify f : Store unit).
Proof. intros Hf s Hok. by destruct (Hf s Hok) as (? & ? & ?). Qed.
Lemma still_bind {A B} (m : Store A) (k : A → Store B) : still m → (∀ a, still (k a)) → still (bind m k).
Proof.
  intros Hm Hk s Hok. apply still_then; try done. intros a s' Hok' Hs Hl.
  destruct (Hk a s' Hok') as ([? ?] & Ho). split_and!; try congruence; try done.
  destruct (k a s').1; congruence.
Qed.

Ltac still_field := intros ? []; by split_and!; [split|..].

Lemma takeFault_still (operation : Z) : still (takeFault operation).
Proof.
  intros s Hok. apply wp_get. destruct (MS_faults s !! operation) as [[|e rest]|];
    [by apply still_ret| |by apply still_ret].
  destruct Hok. unfold wp, post. simpl. by split_and!; [split|..].
Qed.

Lemma dropStage_still {A} (e : error) : still (dropStage e : Store A).
Proof. apply still_bind; [apply still_modify; still_field|]. intros _. apply still_throw. Qed.

Lemma faultDropsStage_still (operation : Z) : still (faultDropsStage operation).
Proof.
  intros s Hok. unfold wp, faultDropsStage. destruct (takeFault_still operation s Hok) as ([Hok1 Hl1] & Ho).
  destruct (takeFault operation s) as [[[]|e| |] s1]; simpl in *; try done.
  destruct (dropStage_still (A := unit) e s1 Hok1) as ([? ?] & ?). split_and!; simpl in *; try done; congruence.
Qed.

Lemma openStage_still (r : InstallSnapshotRequest) : still (openStage r).
Proof.
  apply still_get. intros s. cbv zeta. destruct (MS_stage s).
  - case_goal; [apply dropStage_still|apply still_ret].
  - case_goal; [apply still_throw|].
    apply still_bind; [apply still_modify; still_field|]. intros _. apply still_ret.
Qed.

(** A valid request stays inside the transfer, so its end does not wrap. *)
Lemma validateSnapshotRequest_range (r : InstallSnapshotRequest) (l : CodecLimits) :
  rpc_typed (RPC_InstallSnapshotRequest r) → validateSnapshotRequest r l = Ok tt →
  wrap64 (ISReq_Offset r + len (ISReq_Chunk r)) = ISReq_Offset r + len (ISReq_Chunk r).
Proof.
  intros (_ & _ & _ & _ & _ & _ & Ht & _ & Ho). unfold validateSnapshotRequest.
  do 4 (case_outer; [done|]). cbv zeta. case_outer; [done|]. intros _. bool_hyps.
  rewrite wrap64_small in * by ulia. apply wrap64_small. pose proof (len_nonneg (ISReq_Chunk r)). ulia.
Qed.

Lemma stageBytes_still (r : InstallSnapshotRequest) (stage : memorySnapshotStage) :
  wrap64 (ISReq_Offset r + len (ISReq_Chunk r)) = ISReq_Offset r + len (ISReq_Chunk r) →
  still (stageBytes r stage).
Proof.
  intros Hw. unfold stageBytes. rewrite Hw. cbv zeta. case_goal.
  { do 2 (apply still_bind; [apply faultDropsStage_still|intros _]).
    apply still_bind; [apply still_modify; still_field|]. intros _. apply still_ret. }
  case_goal; [|apply dropStage_still]. pose proof (len_nonneg (ISReq_Chunk r)).
  case_goal; [absurd_bool|]. case_goal; [apply dropStage_still|apply still_ret].
Qed.

Lemma MemoryStore_Persist_law (b : PersistenceBatch) (s : MemoryStore) :
  memory_ok s → batch_typed b →
  wp (MemoryStore_Persist sha256 b)
    (post (λ _ d, applyPersistenceBatch sha256 (MS_state s) b identity voters = Ok d) s) s.
Proof.
  intros Hok Hb. apply wp_get. destruct (MS_closed s); [done|].
  apply post_lift; [done..|auto with returns|]. intros [] Hv.
  destruct (match PB_Snapshot b with Some _ => _ | None => _ end); [done|].
  apply still_then; [done..|apply takeFault_still|]. intros [] s1 Hok1 Hs1 Hl1. apply wp_get.
  pose proof Hok1 as [Hi Hvo _ Hwf]. rewrite Hi, Hvo, Hs1.
  apply post_lift; [done..|auto with returns|]. intros d Hd. destruct Hok1.
  unfold wp, post. simpl. split_and!; try done.
  - split; try done. simpl. rewrite <- Hs1 in Hd. by eapply applyValidated_wf.
  - unfold applyPersistenceBatch. by rewrite Hv.
Qed.

Lemma MemoryStore_PersistSnapshot_law (snapshot : Snapshot) (s : MemoryStore) :
  memory_ok s →
  wp (MemoryStore_PersistSnapshot sha256 snapshot)
    (post (λ _ d, compactRecoveredState sha256 (MS_state s) snapshot identity voters
                    (MS_snapshotLimit s) = Ok d) s) s.
Proof.
  intros Hok. apply wp_get. destruct (MS_closed s); [done|].
  apply still_then; [done..|apply takeFault_still|]. intros [] s1 Hok1 Hs1 Hl1. apply wp_get.
  pose proof Hok1 as [Hi Hvo Hlim Hwf]. rewrite Hi, Hvo, Hs1, Hl1 in *.
  apply post_lift; [done..|auto with returns|]. intros d Hd.
  unfold wp, post. simpl. split_and!; try done. split; simpl; try done; try congruence.
  by apply (compact_wf _ _ _ _ MaxRaftSnapshotBytes _ _ _ Hwf (Z.le_refl _) (proj2 Hlim) Hd).
Qed.

Lemma installStage_law (r : InstallSnapshotRequest) (bytes : list byte) (s0 s : MemoryStore) :
  memory_ok s → MS_state s = MS_state s0 → MS_snapshotLimit s = MS_snapshotLimit s0 →
  rpc_typed (RPC_InstallSnapshotRequest r) →
  wp (installStage sha256 r bytes) (post (λ res d, SSR_Done res = true ∧ SSR_State res = d ∧
    installed sha256 identity voters r (MS_state s0) d) s0) s.
Proof.
  intros Hok Hs0 Hl0 Htyped. pose proof Htyped as (_ & _ & _ & _ & Hidx & Hschema & _ & _ & _).
  apply wp_get.
  assert (∀ e, wp (dropStage e : Store SnapshotStageResult) (post (λ res d, SSR_Done res = true ∧
    SSR_State res = d ∧ installed sha256 identity voters r (MS_state s0) d) s0) s) as Hdrop.
  { intros e. apply still_then; [done..|apply still_modify; still_field|]. intros _ s1 Hok1 Hs1 Hl1.
    by apply post_throw. }
  case_goal; [apply Hdrop|].
  destruct (NewSnapshot _ _ _ _ _) as [sn| | |] eqn:Hn; [|apply Hdrop..].
  case_goal; [apply Hdrop|]. pose proof Hok as [Hi Hv Hlim Hwf]. rewrite Hi, Hv, Hs0 in *.
  pose proof (installRecoveredSnapshot_returns sha256 (MS_state s0) sn identity voters) as Hret.
  destruct (installRecoveredSnapshot _ _ _ _ _) as [p|e| |] eqn:Hp; [|apply Hdrop|done..].
  assert (installed sha256 identity voters r (MS_state s0) p) as Hinst.
  { exists sn. apply NewSnapshot_fields in Hn as (-> & _ & _ & _ & Ht & _). split_and!; try done.
    simpl. repeat (apply Forall_cons in Hidx as [? Hidx]). by split_and!. }
  apply still_then; [done..|apply faultDropsStage_still|]. intros [] s1 Hok1 Hs1 Hl1.
  destruct (store_effect_safe sha256 identity voters (MS_snapshotLimit s) (MS_state s0) p (SStage r))
    as [Hwf' _]; try done; [lia|].
  destruct Hok1. unfold wp, post. simpl. split_and!; done.
Qed.

Lemma MemoryStore_Stage_law (r : InstallSnapshotRequest) (s : MemoryStore) :
  memory_ok s → rpc_typed (RPC_InstallSnapshotRequest r) →
  wp (MemoryStore_StageSnapshotChunk sha256 r) (post (λ res d,
    if SSR_Done res then installed sha256 identity voters r (MS_state s) d ∧ SSR_State res = d
    else d = MS_state s) s) s.
Proof.
  intros Hok Ht. apply wp_get. destruct (MS_closed s); [done|]. cbv zeta.
  destruct (validateSnapshotRequest r _) as [[]| | |] eqn:Hv.
  2-4: by (apply still_then; [done..|apply still_modify; still_field|]; intros; apply post_throw).
  apply validateSnapshotRequest_range in Hv; [|done].
  apply still_then; [done..|apply openStage_still|]. intros stage s1 Hok1 Hs1 Hl1.
  apply still_then; [done..|by apply stageBytes_still|]. intros bytes s2 Hok2 Hs2 Hl2.
  case_goal; [done|].
  eapply wp_mono; [by apply installStage_law|]. intros o s' [Hok' Ho]. split; [done|].
  destruct o as [res| | |]; try done. destruct Ho as (-> & ? & ?). done.
Qed.

Lemma MemoryStore_Recover_law (s : MemoryStore) :
  memory_ok s →
  wp (MemoryStore_Recover sha256) (post (λ r d, r = MS_state s ∧ d = MS_state s) s) s.
Proof.
  intros Hok. apply wp_get. destruct (MS_closed s); [done|].
  apply still_then; [done..|apply takeFault_still|]. intros [] s1 Hok1 Hs1 Hl1. apply wp_get.
  apply post_lift; [done..|auto with returns|]. intros [] _. done.
Qed.

Lemma retainedLoop_returns (n : Z) (es : list Entry) : returns (retainedLoop n es).
Proof. revert n. induction es; intros n; simpl; [done|]. by case_goal. Qed.

Lemma MemoryStore_reads_law :
  still MemoryStore_AbortSnapshotStage ∧ still MemoryStore_RetainedWALBytes ∧ still MemoryStore_Close.
Proof.
  split_and!; apply still_get; intros s; destruct (MS_closed s); try apply still_throw.
  - apply still_modify. still_field.
  - intros s' Hok. unfold wp, lift, post. simpl. pose proof (retainedLoop_returns 0 (RS_Entries (MS_state s))).
    by destruct (retainedLoop _ _).
  - apply still_bind; [apply takeFault_still|]. intros _. apply still_modify. still_field.
Qed.

(** Naming the result of an operation. *)
Lemma post_mapM {A B} (f : A → B) (m : Store A) (P : B → RecoveredState → Prop) (s : MemoryStore) :
  wp m (post (λ a, P (f a)) s) s → wp (mapM f m) (post P s) s.
Proof. unfold wp, mapM, bind. by destruct (m s) as [[] ?]. Qed.

Lemma MemoryStore_law (op : store_op) (s : MemoryStore) :
  memory_ok s → store_op_typed op →
  memory_ok (@runStore _ (MemoryStore_StableStore sha256) op s).2 ∧
  MS_snapshotLimit (@runStore _ (MemoryStore_StableStore sha256) op s).2 = MS_snapshotLimit s ∧
  store_spec sha256 identity voters (MS_snapshotLimit s) (MS_state s) op
    (@runStore _ (MemoryStore_StableStore sha256) op s).1
    (MS_state (@runStore _ (MemoryStore_StableStore sha256) op s).2).
Proof.
  intros Hok Ht.
  assert (wp (@runStore _ (MemoryStore_StableStore sha256) op) (post (λ res d,
    store_spec sha256 identity voters (MS_snapshotLimit s) (MS_state s) op (Ok res) d) s) s) as H.
  { destruct MemoryStore_reads_law as (Ha & Hr & Hc).
    destruct op; apply post_mapM; [by apply MemoryStore_Recover_law|by apply MemoryStore_Persist_law, batch_values_typed|
      by apply MemoryStore_Stage_law|by apply Ha|by apply MemoryStore_PersistSnapshot_law|
      by apply Hr|by apply Hc]. }
  destruct H as ([Hok' Hl] & Ho). split_and!; [done|done|].
  destruct (runStore op s) as [[] s']; simpl in *; try done. by left.
Qed.

#[global] Instance MemoryStore_laws : @StoreLaws sha256 identity voters MemoryStore
  (MemoryStore_StableStore sha256).
Proof.
  refine {| durable := MS_state; store_ok := memory_ok; store_live := λ _, True;
    reopens := λ s s', memory_ok s' ∧ MS_state s' = MS_state s |}.
  - by intros s [].
  - intros s []. simpl. lia.
  - intros op s Hok [Ht _] _. by apply MemoryStore_law.
  - intros s s' _ [Hok Hs]. auto.
Defined.
End laws.

(** ** Main result *)

(** Run operations and fault injections, recording the outcomes. *)
Inductive memory_event := EvOp (op : store_op) | EvFail (operation : Z) (err : option error).

Definition memory_event_typed (e : memory_event) : Prop :=
  match e with EvOp op => store_op_typed op | EvFail _ _ => True end.

Fixpoint runMemory (sha256 : list byte → list byte) (events : list memory_event) (s : MemoryStore) :
    list (store_op * outcome error store_result) * MemoryStore :=
  match events with
  | [] => ([], s)
  | EvOp op :: rest =>
    let (o, s1) := @runStore _ (MemoryStore_StableStore sha256) op s in
    let (trace, s2) := runMemory sha256 rest s1 in ((op, o) :: trace, s2)
  | EvFail operation err :: rest => runMemory sha256 rest (FailNext operation err s).2
  end.

(** A trace of outcomes the abstract store allows. *)
Inductive spec_trace (sha256 : list byte → list byte) (identity : StorageIdentity) (voters : VoterSet)
    (limit : Z) : RecoveredState → list (store_op * outcome error store_result) → RecoveredState → Prop :=
| spec_trace_nil d : spec_trace sha256 identity voters limit d [] d
| spec_trace_cons d op o d1 trace d2 :
    store_spec sha256 identity voters limit d op o d1 →
    spec_trace sha256 identity voters limit d1 trace d2 →
    spec_trace sha256 identity voters limit d ((op, o) :: trace) d2.

Lemma FailNext_ok (sha256 : list byte → list byte) (identity : StorageIdentity) (voters : VoterSet)
    (operation : Z) (err : option error) (s : MemoryStore) :
  memory_ok sha256 identity voters s →
  memory_ok sha256 identity voters (FailNext operation err s).2 ∧
  MS_state (FailNext operation err s).2 = MS_state s ∧
  MS_snapshotLimit (FailNext operation err s).2 = MS_snapshotLimit s.
Proof. intros []. destruct err; simpl; by split_and!; [split|..]. Qed.

Lemma NewMemoryStore_ok (sha256 : list byte → list byte) (identity : StorageIdentity)
    (voters : VoterSet) (maxSnapshotBytes : Z) (s : MemoryStore) :
  0 ≤ maxSnapshotBytes →
  NewMemoryStoreWithOptions sha256 identity voters maxSnapshotBytes = Ok s →
  memory_ok sha256 identity voters s.
Proof.
  intros Hmx. unfold NewMemoryStoreWithOptions, snapshotLimit. cbv zeta.
  case_outer; [|done..]. case_outer; [|done..]. intros [= <-]. destruct a0. split; simpl; try done.
  - revert Heq. case_outer; [done|]. intros [= <-]. bool_hyps. split; [|done].
    case_goal; [by vm_compute|done].
  - apply validate_iff; [simpl; ulia|done].
Qed.

(** C19: The in-memory store refines the abstract store: whatever faults are
    injected, the outcomes of every sequence of operations on a new store are
    outcomes the specification allows from the empty durable state, which stays
    well formed. *)
Theorem MemoryStore_refines_spec (sha256 : list byte → list byte) (identity : StorageIdentity)
    (voters : VoterSet) (maxSnapshotBytes : Z) (s s' : MemoryStore) (events : list memory_event)
    (trace : list (store_op * outcome error store_result)) :
  0 ≤ maxSnapshotBytes →
  NewMemoryStoreWithOptions sha256 identity voters maxSnapshotBytes = Ok s →
  Forall memory_event_typed events → runMemory sha256 events s = (trace, s') →
  spec_trace sha256 identity voters (MS_snapshotLimit s) (MS_state s) trace (MS_state s') ∧
  recovered_wf sha256 identity voters MaxRaftSnapshotBytes (MS_state s').
Proof.
  intros Hmx Hok%NewMemoryStore_ok Hev; [|done]. remember (MS_snapshotLimit s) as limit eqn:Hlim. revert s trace Hok Hlim.
  induction Hev as [|e events He _ IH]; intros s trace Hok Hlim; simpl.
  { intros [= <- <-]. split; [constructor|apply Hok]. }
  destruct e as [op|operation err].
  - pose proof (MemoryStore_law sha256 identity voters op s Hok He)
      as (Hok1 & Hl1 & Hspec).
    destruct (runStore op s) as [o s1]. simpl in *.
    destruct (runMemory sha256 events s1) as [tr s2] eqn:Hr. intros [= <- <-].
    apply IH in Hr as [Htr Hwf]; [|done|congruence]. split; [|done].
    subst limit. by econstructor.
  - destruct (FailNext_ok sha256 identity voters operation err s Hok) as (Hok1 & Hs1 & Hl1).
    intros Hr. apply IH in Hr as [Htr Hwf]; [|done|congruence]. by rewrite Hs1 in Htr.
Qed.

(** ** Witness *)

(** A vote, a rejected change of that vote, a failed and a repeated append, and
    a recovery. *)
Definition exStoreEvents : list memory_event :=
  [EvOp (SPersist (mkBatch (Some (mkHardState 2 1 0)) 0 [] None None None));
   EvOp (SPersist (mkBatch (Some (mkHardState 2 3 0)) 0 [] None None None));
   EvFail StorageOperationPersist (Some ErrStorageLocked);
   EvOp (SPersist (mkBatch None 1 [exEntry 1 2] None None None));
   EvOp (SPersist (mkBatch None 1 [exEntry 1 2] None None None));
   EvOp SRecover].

Lemma exStoreEvents_typed : Forall memory_event_typed exStoreEvents.
Proof.
  assert (entry_typed (exEntry 1 2)) by (unfold entry_typed, exEntry, EntryCommand; simpl; ulia).
  repeat (apply Forall_cons; split); try done; unfold memory_event_typed, store_op_typed, batch_values;
    simpl; split_and!; try ulia; try done; by repeat constructor.
Qed.

Lemma MemoryStore_refines_spec_witness :
  ∃ s s' trace, NewMemoryStoreWithOptions exSha exStoreIdentity exVoterSet 0 = Ok s ∧
    runMemory exSha exStoreEvents s = (trace, s') ∧
    (map (λ e, is_Ok e.2) trace = [true; false; false; true; true]) ∧
    spec_trace exSha exStoreIdentity exVoterSet (MS_snapshotLimit s) (MS_state s) trace (MS_state s').
Proof.
  destruct (NewMemoryStoreWithOptions exSha exStoreIdentity exVoterSet 0) as [s| | |] eqn:Hs;
    [|exfalso; revert Hs; vm_compute; discriminate..].
  destruct (runMemory exSha exStoreEvents s) as [trace s'] eqn:Hr.
  exists s, s', trace. split_and!; [done|done| |].
  - vm_compute in Hs. injection Hs as <-. vm_compute in Hr. injection Hr as <- _. reflexivity.
  - apply (MemoryStore_refines_spec exSha exStoreIdentity exVoterSet 0 s s' exStoreEvents trace);
      [lia|done|exact exStoreEvents_typed|done].
Defined.

End RaftMemoryStore.
