(* ===== verification/RaftWAL.v ===== *)
(** * The write-ahead log

    [wal.go] and the recovery half of [store_lock_unix.go]: the record format, the
    encoding of one atomic transaction, and the replay of a log file whose tail
    may be an incomplete transaction.

    The main results: a transaction is read back exactly; replaying the
    transactions of a history followed by an arbitrary strict prefix of a further
    transaction recovers exactly the state after the history and finds the
    boundary where the incomplete tail is cut; replay terminates on every file. *)

From S2P Require Import Prelude Hash RaftTypes RaftLog RaftVoters RaftCodec RaftSnapshot RaftStorage.

Module RaftWAL.
Import Hash RaftLog RaftVoters RaftCodec RaftSnapshot RaftStorage.

(** ** Records *)

(** The bytes of [RFWL]. *)
Definition walMagic : list byte := [Byte.x52; Byte.x46; Byte.x57; Byte.x4c].

Definition walRecordTransactionBegin : Z := 1.
Definition walRecordTruncate : Z := 2.
Definition walRecordEntries : Z := 3.
Definition walRecordSnapshotBase : Z := 4.
Definition walRecordAppliedIndex : Z := 5.
Definition walRecordHardState : Z := 6.
Definition walRecordTransactionCommit : Z := 7.

Definition transactionFlagHardState : Z := 1.
Definition transactionFlagTruncate : Z := 2.
Definition transactionFlagEntries : Z := 4.
Definition transactionFlagSnapshot : Z := 8.
Definition transactionFlagApplied : Z := 16.
Definition transactionFlagsAll : Z := 31.

Definition validWALRecordType (recordType : Z) : bool :=
  (walRecordTransactionBegin <=? recordType) && (recordType <=? walRecordTransactionCommit).

(** [bits.OnesCount8] *)
Definition onesCount8 (x : Z) : Z :=
  foldr (λ i n, (if Z.testbit x i then 1 else 0) + n) 0 [0; 1; 2; 3; 4; 5; 6; 7].

(** The sixteen bytes before a payload. *)
Definition walHeader (recordType payloadLength : Z) : list byte :=
  walMagic ++ be_bytes 2 StorageFormatVersion1 ++ be_bytes 1 recordType ++ be_bytes 1 0 ++
  be_bytes 8 payloadLength.

Definition encodeWALRecord (recordType : Z) (payload : list byte) : outcome error (list byte) :=
  if negb (validWALRecordType recordType) then Err ErrStorageCorrupt
  else if MaxWALRecordPayloadBytes <? len payload then Err ErrInvalidStorageState
  else if max_int <? walRecordHeaderBytes + len payload + walRecordChecksumBytes
  then Err ErrInvalidStorageState
  else
    let content := walHeader recordType (len payload) ++ payload in
    Ok (content ++ be_bytes 4 (crc32c content)).

(** ** Payloads *)

Definition encodeTransactionBoundaryPayload (transactionID flags count : Z) :
    outcome error (list byte) :=
  if (transactionID =? 0) || (flags =? 0) || negb (Z.ldiff flags transactionFlagsAll =? 0) ||
     negb (count =? onesCount8 flags)
  then Err ErrInvalidStorageState
  else Ok (be_bytes 8 transactionID ++ be_bytes 1 flags ++ be_bytes 1 count ++ be_bytes 2 0).

Definition decodeTransactionBoundaryPayload (payload : list byte) : outcome error (Z * Z * Z) :=
  if negb (len payload =? boundaryPayloadBytes) then Err ErrStorageCorrupt
  else
    let? id := uintAt 0 8 payload in
    let? flags := uintAt 8 9 payload in
    let? count := uintAt 9 10 payload in
    if (id =? 0) || (flags =? 0) || negb (Z.ldiff flags transactionFlagsAll =? 0) ||
       negb (count =? onesCount8 flags)
    then Err ErrStorageCorrupt
    else
      let? reserved := uintAt 10 11 payload in
      if negb (reserved =? 0) then Err ErrStorageCorrupt
      else
        let? reserved := uintAt 11 12 payload in
        if negb (reserved =? 0) then Err ErrStorageCorrupt else Ok (id, flags, count).

Definition flagsForBatch (batch : PersistenceBatch) : Z :=
  let set (present : bool) (flag flags : Z) := if present then Z.lor flags flag else flags in
  set (isSome (PB_AppliedIndex batch)) transactionFlagApplied
    (set (isSome (PB_SnapshotBase batch)) transactionFlagSnapshot
      (set (negb (len (PB_Entries batch) =? 0)) transactionFlagEntries
        (set (negb (PB_ReplaceFrom batch =? 0)) transactionFlagTruncate
          (set (isSome (PB_HardState batch)) transactionFlagHardState 0)))).

Definition hasFlag (flags flag : Z) : bool := negb (Z.land flags flag =? 0).

Definition expectedRecordTypes (flags : Z) : list Z :=
  (if hasFlag flags transactionFlagSnapshot then [walRecordSnapshotBase] else []) ++
  (if hasFlag flags transactionFlagTruncate then [walRecordTruncate] else []) ++
  (if hasFlag flags transactionFlagEntries then [walRecordEntries] else []) ++
  (if hasFlag flags transactionFlagApplied then [walRecordAppliedIndex] else []) ++
  (if hasFlag flags transactionFlagHardState then [walRecordHardState] else []).

Definition encodeHardStatePayload (transactionID : Z) (state : HardState) : list byte :=
  be_bytes 8 transactionID ++ be_bytes 8 (HardState_Term state) ++
  be_bytes 2 (HardState_VotedFor state) ++ be_bytes 8 (HardState_CommitIndex state).

Definition decodeHardStatePayload (payload : list byte) (transactionID : Z) : outcome error HardState :=
  if negb (len payload =? hardStatePayloadBytes) then Err ErrStorageCorrupt
  else
    let? id := uintAt 0 8 payload in
    if negb (id =? transactionID) then Err ErrStorageCorrupt
    else
      let? term := uintAt 8 16 payload in
      let? votedFor := uintAt 16 18 payload in
      let? commitIndex := uintAt 18 26 payload in
      Ok (mkHardState term votedFor commitIndex).

Definition encodeTwoUint64Payload (transactionID value : Z) : list byte :=
  be_bytes 8 transactionID ++ be_bytes 8 value.

Definition decodeTwoUint64Payload (payload : list byte) (transactionID : Z) : outcome error Z :=
  if negb (len payload =? truncatePayloadBytes) then Err ErrStorageCorrupt
  else
    let? id := uintAt 0 8 payload in
    if negb (id =? transactionID) then Err ErrStorageCorrupt else uintAt 8 16 payload.

Definition encodeSnapshotPayload (transactionID : Z) (metadata : SnapshotMetadata) : list byte :=
  be_bytes 8 transactionID ++ be_bytes 8 (LastIncludedIndex metadata) ++
  be_bytes 8 (LastIncludedTerm metadata) ++ be_bytes 4 (StateMachineSchemaVersion metadata).

Definition decodeSnapshotPayload (payload : list byte) (transactionID : Z) :
    outcome error SnapshotMetadata :=
  if negb (len payload =? snapshotPayloadBytes) then Err ErrStorageCorrupt
  else
    let? id := uintAt 0 8 payload in
    if negb (id =? transactionID) then Err ErrStorageCorrupt
    else
      let? lastIncludedIndex := uintAt 8 16 payload in
      let? lastIncludedTerm := uintAt 16 24 payload in
      let? schema := uintAt 24 28 payload in
      Ok (mkSnapshotMetadata lastIncludedIndex lastIncludedTerm schema).

(** One entry inside an entries record. *)
Definition walEntry (entry : Entry) : list byte :=
  be_bytes 8 (Entry_Index entry) ++ be_bytes 8 (Entry_Term entry) ++ be_bytes 1 (Entry_Kind entry) ++
  be_bytes 4 (len (Entry_command entry)) ++ Entry_command entry.

Fixpoint encodeEntriesLoop (payload : list byte) (entries : list Entry) : outcome error (list byte) :=
  match entries with
  | [] => Ok payload
  | entry :: rest =>
    match validateLogEntry entry with
    | Ok _ =>
      let command := Entry_command entry in
      if (MaxRaftCommandBytes <? len command) || (max_uint32 <? len command)
      then Err ErrInvalidStorageState
      else if MaxWALRecordPayloadBytes - len payload <? minimumWALEntryBytes + len command
      then Err ErrInvalidStorageState
      else encodeEntriesLoop (payload ++ walEntry entry) rest
    | _ => Err ErrInvalidStorageState
    end
  end.

Definition encodeEntriesPayload (transactionID : Z) (entries : list Entry) : outcome error (list byte) :=
  if (len entries =? 0) || (max_uint16 <? len entries) then Err ErrInvalidStorageState
  else encodeEntriesLoop (be_bytes 8 transactionID ++ be_bytes 2 (len entries)) entries.

(** The loop of [decodeEntriesPayload] on the bytes after the current offset. *)
Fixpoint decodeEntriesLoop (count : nat) (rest : list byte) : outcome error (list Entry * list byte) :=
  match count with
  | O => Ok ([], rest)
  | S n =>
    if len rest <? minimumWALEntryBytes then Err ErrStorageCorrupt
    else
      let? index := uintAt 0 8 rest in
      let? term := uintAt 8 16 rest in
      let? kind := uintAt 16 17 rest in
      let? commandLength := uintAt 17 21 rest in
      let body := drop 21 rest in
      if (MaxRaftCommandBytes <? commandLength) || (len body <? commandLength) || (max_int <? commandLength)
      then Err ErrStorageCorrupt
      else
        let? command := bytesAt 0 (Z.to_nat commandLength) body in
        match NewEntry index term kind command with
           | Ok entry =>
             let? (entries, remaining) := decodeEntriesLoop n (drop (Z.to_nat commandLength) body) in
             Ok (entry :: entries, remaining)
           | _ => Err ErrStorageCorrupt
           end
  end.

Definition decodeEntriesPayload (payload : list byte) (transactionID : Z) : outcome error (list Entry) :=
  if len payload <? 10 then Err ErrStorageCorrupt
  else
    let? id := uintAt 0 8 payload in
    if negb (id =? transactionID) then Err ErrStorageCorrupt
    else
      let? count := uintAt 8 10 payload in
      let remaining := len payload - 10 in
      if (count =? 0) || (remaining / minimumWALEntryBytes <? count) || (max_int <? count)
      then Err ErrStorageCorrupt
      else
        let? (entries, rest) := decodeEntriesLoop (Z.to_nat count) (drop 10 payload) in
        if negb (len rest =? 0) then Err ErrStorageCorrupt else Ok entries.

(** ** Transactions *)

Fixpoint encodeRecords (total : Z) (records : list (Z * list byte)) : outcome error (list byte) :=
  match records with
  | [] => Ok []
  | (recordType, payload) :: rest =>
    let? bytes := encodeWALRecord recordType payload in
    if MaxWALTransactionBytes - total <? len bytes then Err ErrInvalidStorageState
    else
      let? encoded := encodeRecords (total + len bytes) rest in
      Ok (bytes ++ encoded)
  end.

(** The records of the effects of a batch, in their canonical order. *)
Definition effectRecords (transactionID : Z) (batch : PersistenceBatch) (entriesPayload : list byte) :
    list (Z * list byte) :=
  match PB_SnapshotBase batch with
  | Some base => [(walRecordSnapshotBase, encodeSnapshotPayload transactionID base)]
  | None => []
  end ++
  (if PB_ReplaceFrom batch =? 0 then []
   else [(walRecordTruncate, encodeTwoUint64Payload transactionID (PB_ReplaceFrom batch))]) ++
  (if len (PB_Entries batch) =? 0 then [] else [(walRecordEntries, entriesPayload)]) ++
  match PB_AppliedIndex batch with
  | Some index => [(walRecordAppliedIndex, encodeTwoUint64Payload transactionID index)]
  | None => []
  end ++
  match PB_HardState batch with
  | Some state => [(walRecordHardState, encodeHardStatePayload transactionID state)]
  | None => []
  end.

Definition encodeWALTransaction (transactionID : Z) (batch : PersistenceBatch) :
    outcome error (list byte) :=
  if transactionID =? 0 then Err ErrInvalidStorageState
  else
    let? _ := validatePersistenceBatchBounds batch in
    let flags := flagsForBatch batch in
    let count := onesCount8 flags in
    if (flags =? 0) || (count =? 0) then Err ErrInvalidStorageState
    else
      let? boundary := encodeTransactionBoundaryPayload transactionID flags count in
      let? entriesPayload :=
        if len (PB_Entries batch) =? 0 then Ok [] else encodeEntriesPayload transactionID (PB_Entries batch) in
      encodeRecords 0 ((walRecordTransactionBegin, boundary) ::
        effectRecords transactionID batch entriesPayload ++ [(walRecordTransactionCommit, boundary)]).

(** ** Reading and replay *)

(** [readWALRecordAt] on the bytes [rest] from [offset] to the end of the file:
    nothing when the record is incomplete, otherwise its type, its payload and
    the bytes after it. *)
Definition readWALRecordAt (offset : Z) (rest : list byte) :
    outcome error (option (Z * list byte * list byte)) :=
  if len rest <? walRecordHeaderBytes then Ok None
  else
    let header := take 16 rest in
    let? magic := bytesAt 0 4 header in
    if negb (bool_decide (magic = walMagic)) then Err ErrStorageCorrupt
    else
    let? version := uintAt 4 6 header in
    if negb (version =? StorageFormatVersion1) then Err ErrStorageCorrupt
    else
      let? recordType := uintAt 6 7 header in
      if negb (validWALRecordType recordType) then Err ErrStorageCorrupt
      else
      let? reserved := uintAt 7 8 header in
      if negb (reserved =? 0) then Err ErrStorageCorrupt
      else
        let? payloadLength := uintAt 8 16 header in
        if MaxWALRecordPayloadBytes <? payloadLength then Err ErrStorageCorrupt
        else
          let total := walRecordHeaderBytes + payloadLength + walRecordChecksumBytes in
          if (max_int <? total) || (max_int - total <? offset) then Err ErrStorageCorrupt
          else if len rest <? total then Ok None
          else if max_int <? payloadLength then Err ErrStorageCorrupt
          else
            let n := Z.to_nat payloadLength in
            let remainder := sub 16 (20 + n) rest in
            let? payload := bytesAt 0 n remainder in
            let? wantChecksum := uintAt n (n + 4) remainder in
            if negb (crc32c (header ++ payload) =? wantChecksum) then Err ErrStorageCorrupt
            else Ok (Some (recordType, payload, drop (20 + n) rest)).

Definition decodeEffectRecord (recordType : Z) (payload : list byte) (transactionID : Z)
    (batch : PersistenceBatch) : outcome error PersistenceBatch :=
  if recordType =? walRecordSnapshotBase then
    let? base := decodeSnapshotPayload payload transactionID in
    Ok (batch <| PB_SnapshotBase := Some base |>)
  else if recordType =? walRecordTruncate then
    let? from := decodeTwoUint64Payload payload transactionID in
    if from =? 0 then Err ErrStorageCorrupt else Ok (batch <| PB_ReplaceFrom := from |>)
  else if recordType =? walRecordEntries then
    let? entries := decodeEntriesPayload payload transactionID in
    Ok (batch <| PB_Entries := entries |>)
  else if recordType =? walRecordAppliedIndex then
    let? index := decodeTwoUint64Payload payload transactionID in
    Ok (batch <| PB_AppliedIndex := Some index |>)
  else if recordType =? walRecordHardState then
    let? state := decodeHardStatePayload payload transactionID in
    Ok (batch <| PB_HardState := Some state |>)
  else Err ErrStorageCorrupt.

(** The transaction being read. *)
Record activeTransaction := mkActive {
  AT_start : Z;
  AT_id : Z;
  AT_flags : Z;
  AT_count : Z;
  AT_expected : list Z;
  AT_effect : nat;
  AT_batch : PersistenceBatch
}.

(** The variables of [recoverWAL]. *)
Record walScan := mkScan {
  WS_state : RecoveredState;
  WS_offset : Z;
  WS_verifiedBoundary : Z;
  WS_lastTransaction : Z;
  WS_active : option activeTransaction
}.

Section replay.
Context (sha256 : list byte → list byte) (identity : StorageIdentity) (voters : VoterSet).

(** The body of the loop for one complete record that ends at [next]. *)
Definition recoverRecord (scan : walScan) (recordType : Z) (payload : list byte) (next : Z) :
    outcome error walScan :=
  match WS_active scan with
  | None =>
    if negb (recordType =? walRecordTransactionBegin) then Err ErrStorageCorrupt
    else
      let? (transactionID, flags, count) := decodeTransactionBoundaryPayload payload in
      if (WS_lastTransaction scan =? max_uint64) || negb (transactionID =? WS_lastTransaction scan + 1)
      then Err ErrStorageCorrupt
      else Ok (mkScan (WS_state scan) next (WS_verifiedBoundary scan) (WS_lastTransaction scan)
                 (Some (mkActive (WS_offset scan) transactionID flags count (expectedRecordTypes flags) 0
                          PersistenceBatch_zero)))
  | Some tx =>
    if MaxWALTransactionBytes <? next - AT_start tx then Err ErrStorageCorrupt
    else match AT_expected tx !! AT_effect tx with
         | Some expected =>
           if negb (recordType =? expected) then Err ErrStorageCorrupt
           else
             let? batch := decodeEffectRecord recordType payload (AT_id tx) (AT_batch tx) in
             Ok (mkScan (WS_state scan) next (WS_verifiedBoundary scan) (WS_lastTransaction scan)
                   (Some (mkActive (AT_start tx) (AT_id tx) (AT_flags tx) (AT_count tx) (AT_expected tx)
                            (S (AT_effect tx)) batch)))
         | None =>
           if negb (recordType =? walRecordTransactionCommit) then Err ErrStorageCorrupt
           else
             let? (commitID, commitFlags, commitCount) := decodeTransactionBoundaryPayload payload in
             if negb (commitID =? AT_id tx) || negb (commitFlags =? AT_flags tx) ||
                negb (commitCount =? AT_count tx) || negb (AT_count tx =? len (AT_expected tx)) ||
                negb (flagsForBatch (AT_batch tx) =? AT_flags tx)
             then Err ErrStorageCorrupt
             else match applyPersistenceBatch sha256 (WS_state scan) (AT_batch tx) identity voters with
                  | Ok prospective => Ok (mkScan prospective next next (AT_id tx) None)
                  | _ => Err ErrStorageCorrupt
                  end
         end
  end.

(** Where an incomplete tail is cut. *)
Definition crashBoundary (scan : walScan) : Z :=
  match WS_active scan with
  | Some tx => AT_start tx
  | None => WS_verifiedBoundary scan
  end.

(** The state, the last transaction, and the boundary to truncate to, if any. *)
Fixpoint recoverLoop (fuel : nat) (scan : walScan) (rest : list byte) :
    outcome error (RecoveredState * Z * option Z) :=
  match fuel with
  | O => Blocked
  | S fuel =>
    match rest with
    | [] =>
      let cut := match WS_active scan with Some tx => Some (AT_start tx) | None => None end in
      match ValidateRecoveredState sha256 (WS_state scan) identity voters with
      | Ok _ => Ok (WS_state scan, WS_lastTransaction scan, cut)
      | _ => Err ErrStorageCorrupt
      end
    | _ =>
      let? record := readWALRecordAt (WS_offset scan) rest in
      match record with
      | None => Ok (WS_state scan, WS_lastTransaction scan, Some (crashBoundary scan))
      | Some (recordType, payload, rest') =>
        let next := WS_offset scan + len rest - len rest' in
        let? scan' := recoverRecord scan recordType payload next in
        recoverLoop fuel scan' rest'
      end
    end
  end.

Definition emptyState : RecoveredState :=
  mkRecoveredState identity (mkHardState 0 0 0) (mkSnapshotMetadata 0 0 0) None 0 [].

Definition recoverWAL (wal : list byte) : outcome error (RecoveredState * Z * option Z) :=
  recoverLoop (S (length wal)) (mkScan emptyState 0 0 0 None) wal.

End replay.

(** ** Reads stay within their slices

    The length checks make every slice expression of the decoders a read within
    bounds; without a check the equation fails, since the slice panics. *)

Ltac in_bounds := repeat (rewrite uintAt_Ok by (unfold len in *; lia); cbn [outcome_bind]).

Lemma decodeBoundary_eq (payload : list byte) :
  decodeTransactionBoundaryPayload payload =
  if negb (len payload =? boundaryPayloadBytes) then Err ErrStorageCorrupt
  else
    let id := be_value (sub 0 8 payload) in
    let flags := be_value (sub 8 9 payload) in
    let count := be_value (sub 9 10 payload) in
    if (id =? 0) || (flags =? 0) || negb (Z.ldiff flags transactionFlagsAll =? 0) ||
       negb (count =? onesCount8 flags) || negb (be_value (sub 10 11 payload) =? 0) ||
       negb (be_value (sub 11 12 payload) =? 0)
    then Err ErrStorageCorrupt
    else Ok (id, flags, count).
Proof.
  unfold decodeTransactionBoundaryPayload. destruct (Z.eqb_spec (len payload) boundaryPayloadBytes) as [Hl|]; [|done].
  unfold boundaryPayloadBytes in Hl. cbn [negb]. in_bounds. cbv zeta.
  by destruct (_ || _ || _ || _); [|destruct (negb _)].
Qed.

Lemma decodeHardState_eq (payload : list byte) (transactionID : Z) :
  decodeHardStatePayload payload transactionID =
  if negb (len payload =? hardStatePayloadBytes) || negb (be_value (sub 0 8 payload) =? transactionID)
  then Err ErrStorageCorrupt
  else Ok (mkHardState (be_value (sub 8 16 payload)) (be_value (sub 16 18 payload)) (be_value (sub 18 26 payload))).
Proof.
  unfold decodeHardStatePayload. destruct (Z.eqb_spec (len payload) hardStatePayloadBytes) as [Hl|]; [|done].
  unfold hardStatePayloadBytes in Hl. cbn [negb orb]. in_bounds. by destruct (_ =? transactionID).
Qed.

Lemma decodeTwoUint64_eq (payload : list byte) (transactionID : Z) :
  decodeTwoUint64Payload payload transactionID =
  if negb (len payload =? truncatePayloadBytes) || negb (be_value (sub 0 8 payload) =? transactionID)
  then Err ErrStorageCorrupt else Ok (be_value (sub 8 16 payload)).
Proof.
  unfold decodeTwoUint64Payload. destruct (Z.eqb_spec (len payload) truncatePayloadBytes) as [Hl|]; [|done].
  unfold truncatePayloadBytes in Hl. cbn [negb orb]. in_bounds. done.
Qed.

Lemma decodeSnapshot_eq (payload : list byte) (transactionID : Z) :
  decodeSnapshotPayload payload transactionID =
  if negb (len payload =? snapshotPayloadBytes) || negb (be_value (sub 0 8 payload) =? transactionID)
  then Err ErrStorageCorrupt
  else Ok (mkSnapshotMetadata (be_value (sub 8 16 payload)) (be_value (sub 16 24 payload)) (be_value (sub 24 28 payload))).
Proof.
  unfold decodeSnapshotPayload. destruct (Z.eqb_spec (len payload) snapshotPayloadBytes) as [Hl|]; [|done].
  unfold snapshotPayloadBytes in Hl. cbn [negb orb]. in_bounds. by destruct (_ =? transactionID).
Qed.

Lemma decodeEntriesLoop_eq (n : nat) (rest : list byte) :
  decodeEntriesLoop (S n) rest =
  if len rest <? minimumWALEntryBytes then Err ErrStorageCorrupt
  else
    let commandLength := be_value (sub 17 21 rest) in
    let body := drop 21 rest in
    if (MaxRaftCommandBytes <? commandLength) || (len body <? commandLength) || (max_int <? commandLength)
    then Err ErrStorageCorrupt
    else match NewEntry (be_value (sub 0 8 rest)) (be_value (sub 8 16 rest)) (be_value (sub 16 17 rest))
                 (take (Z.to_nat commandLength) body) with
         | Ok entry =>
           let? (entries, remaining) := decodeEntriesLoop n (drop (Z.to_nat commandLength) body) in
           Ok (entry :: entries, remaining)
         | _ => Err ErrStorageCorrupt
         end.
Proof.
  cbn [decodeEntriesLoop]. destruct (Z.ltb_spec (len rest) minimumWALEntryBytes) as [|Hl]; [done|].
  unfold minimumWALEntryBytes in Hl. in_bounds. cbv zeta. destruct (_ || _ || _) eqn:Hc; [done|]. bool_hyps.
  pose proof (be_value_range (sub 17 21 rest)). rewrite bytesAt_Ok by (unfold len in *; lia). cbn [outcome_bind].
  change (sub 0 ?k ?l) with (take (k - 0) l) at 2. by rewrite Nat.sub_0_r.
Qed.

Lemma decodeEntries_eq (payload : list byte) (transactionID : Z) :
  decodeEntriesPayload payload transactionID =
  if (len payload <? 10) || negb (be_value (sub 0 8 payload) =? transactionID) then Err ErrStorageCorrupt
  else
    let count := be_value (sub 8 10 payload) in
    let remaining := len payload - 10 in
    if (count =? 0) || (remaining / minimumWALEntryBytes <? count) || (max_int <? count)
    then Err ErrStorageCorrupt
    else
      let? (entries, rest) := decodeEntriesLoop (Z.to_nat count) (drop 10 payload) in
      if negb (len rest =? 0) then Err ErrStorageCorrupt else Ok entries.
Proof.
  unfold decodeEntriesPayload. destruct (Z.ltb_spec (len payload) 10) as [|Hl]; [done|]. in_bounds. cbn [orb].
  by destruct (_ =? transactionID).
Qed.

Lemma readWALRecordAt_eq (offset : Z) (rest : list byte) :
  readWALRecordAt offset rest =
  if len rest <? walRecordHeaderBytes then Ok None
  else
    let header := take 16 rest in
    if negb (bool_decide (take 4 header = walMagic)) then Err ErrStorageCorrupt
    else if negb (be_value (sub 4 6 header) =? StorageFormatVersion1) then Err ErrStorageCorrupt
    else
      let recordType := be_value (sub 6 7 header) in
      if negb (validWALRecordType recordType) then Err ErrStorageCorrupt
      else if negb (be_value (sub 7 8 header) =? 0) then Err ErrStorageCorrupt
      else
        let payloadLength := be_value (sub 8 16 header) in
        if MaxWALRecordPayloadBytes <? payloadLength then Err ErrStorageCorrupt
        else
          let total := walRecordHeaderBytes + payloadLength + walRecordChecksumBytes in
          if (max_int <? total) || (max_int - total <? offset) then Err ErrStorageCorrupt
          else if len rest <? total then Ok None
          else if max_int <? payloadLength then Err ErrStorageCorrupt
          else
            let n := Z.to_nat payloadLength in
            let payload := sub 16 (16 + n) rest in
            let wantChecksum := be_value (sub (16 + n) (20 + n) rest) in
            if negb (crc32c (header ++ payload) =? wantChecksum) then Err ErrStorageCorrupt
            else Ok (Some (recordType, payload, drop (20 + n) rest)).
Proof.
  unfold readWALRecordAt. destruct (Z.ltb_spec (len rest) walRecordHeaderBytes) as [|Hl]; [done|]. cbv zeta.
  unfold walRecordHeaderBytes, walRecordChecksumBytes in *. assert (length (take 16 rest) = 16%nat) as Hh by (rewrite length_take; unfold len in *; lia).
  rewrite bytesAt_Ok by lia. cbn [outcome_bind]. change (sub 0 4 (take 16 rest)) with (take 4 (take 16 rest)).
  destruct (negb _); [done|]. rewrite !uintAt_Ok by lia. cbn [outcome_bind]. do 3 (destruct (negb _); [done|]).
  pose proof (be_value_range (sub 8 16 (take 16 rest))). set (pl := be_value (sub 8 16 (take 16 rest))) in *.
  destruct (MaxWALRecordPayloadBytes <? pl); [done|]. destruct (_ || _); [done|].
  destruct (Z.ltb_spec (len rest) (16 + pl + 4)) as [|Ht]; [done|]. destruct (max_int <? pl); [done|].
  assert (length (sub 16 (20 + Z.to_nat pl) rest) = (4 + Z.to_nat pl)%nat) as Hr by (rewrite sub_length; unfold len in *; lia).
  rewrite bytesAt_Ok, uintAt_Ok by lia. cbn [outcome_bind].
  assert (∀ a b, (b ≤ 4 + Z.to_nat pl)%nat → sub a b (sub 16 (20 + Z.to_nat pl) rest) = sub (16 + a) (16 + b) rest) as Hs.
  { intros a b Hb. unfold sub. rewrite skipn_firstn_comm, drop_drop, take_take. f_equal. lia. }
  rewrite !Hs by lia. replace (16 + (Z.to_nat pl + 4))%nat with (20 + Z.to_nat pl)%nat by lia. done.
Qed.

(** ** Records are read back *)

(** The bytes of one record. *)
Definition recordBytes (r : Z * list byte) : list byte :=
  let content := walHeader r.1 (len r.2) ++ r.2 in content ++ be_bytes 4 (crc32c content).

Definition record_ok (r : Z * list byte) : Prop :=
  validWALRecordType r.1 = true ∧ len r.2 ≤ MaxWALRecordPayloadBytes.

Lemma encodeWALRecord_Ok (t : Z) (p bytes : list byte) :
  encodeWALRecord t p = Ok bytes → record_ok (t, p) ∧ bytes = recordBytes (t, p).
Proof.
  unfold encodeWALRecord. do 3 (case_outer; [done|]). intros [= <-]. bool_hyps. by repeat split.
Qed.

(** The fields of a record. *)
Definition record_fields (r : Z * list byte) : list (list byte) :=
  [walMagic; be_bytes 2 StorageFormatVersion1; be_bytes 1 r.1; be_bytes 1 0; be_bytes 8 (len r.2);
   r.2; be_bytes 4 (crc32c (walHeader r.1 (len r.2) ++ r.2))].

Lemma recordBytes_concat (r : Z * list byte) : recordBytes r = concat (record_fields r).
Proof.
  unfold recordBytes, walHeader. cbn [record_fields concat]. by rewrite <- !app_assoc, app_nil_r.
Qed.

Lemma length_recordBytes (r : Z * list byte) : length (recordBytes r) = (20 + length r.2)%nat.
Proof.
  rewrite recordBytes_concat. cbn [record_fields concat]. rewrite !length_app, !length_be_bytes.
  simpl. lia.
Qed.

Lemma length_walHeader (t n : Z) : length (walHeader t n) = 16%nat.
Proof. unfold walHeader. by rewrite !length_app, !length_be_bytes. Qed.

(** The header of a record parses. *)
Lemma header_fields (t n : Z) :
  1 ≤ t ≤ 7 → is_u64 n →
  take 4 (walHeader t n) = walMagic ∧ be_value (sub 4 6 (walHeader t n)) = StorageFormatVersion1 ∧
  be_value (sub 6 7 (walHeader t n)) = t ∧ be_value (sub 7 8 (walHeader t n)) = 0 ∧
  be_value (sub 8 16 (walHeader t n)) = n.
Proof.
  intros Ht Hn. unfold walHeader. split; [reflexivity|].
  assert (∀ i first last field, [walMagic; be_bytes 2 StorageFormatVersion1; be_bytes 1 t; be_bytes 1 0;
      be_bytes 8 n] !! i = Some field →
    first = length (concat (take i [walMagic; be_bytes 2 StorageFormatVersion1; be_bytes 1 t;
      be_bytes 1 0; be_bytes 8 n])) → last = (first + length field)%nat →
    sub first last (walMagic ++ be_bytes 2 StorageFormatVersion1 ++ be_bytes 1 t ++ be_bytes 1 0 ++
      be_bytes 8 n) = field) as Hs.
  { intros i first last field Hi Hf Hl. rewrite <- (sub_concat _ i first last field Hi Hf Hl).
    reflexivity. }
  rewrite (Hs 1%nat 4%nat 6%nat _ eq_refl), (Hs 2%nat 6%nat 7%nat _ eq_refl),
    (Hs 3%nat 7%nat 8%nat _ eq_refl), (Hs 4%nat 8%nat 16%nat _ eq_refl) by
    (cbn [take concat]; rewrite ?length_app, ?length_be_bytes; reflexivity).
  rewrite !be_value_small by (simpl Z.pow; unfold StorageFormatVersion1; ulia). done.
Qed.

(** Whether a record is complete in the file depends on its length only. *)
Lemma readWALRecordAt_header (off t n : Z) (rest : list byte) :
  validWALRecordType t = true → 0 ≤ n ≤ MaxWALRecordPayloadBytes → 0 ≤ off →
  off + 20 + n ≤ max_int →
  readWALRecordAt off (walHeader t n ++ rest) =
  if len rest <? n + 4 then Ok None
  else
    let payload := take (Z.to_nat n) rest in
    if negb (crc32c (walHeader t n ++ payload) =? be_value (sub (Z.to_nat n) (4 + Z.to_nat n) rest))
    then Err ErrStorageCorrupt
    else Ok (Some (t, payload, drop (4 + Z.to_nat n) rest)).
Proof.
  intros Ht Hn Ho Hmax. assert (MaxWALRecordPayloadBytes = 8388521) as Hmx by reflexivity.
  unfold validWALRecordType, walRecordTransactionBegin, walRecordTransactionCommit in Ht. bool_hyps.
  rewrite readWALRecordAt_eq, len_app. cbv zeta.
  assert (len (walHeader t n) = 16) as -> by (unfold len; by rewrite length_walHeader).
  rewrite (take_app_length' (walHeader t n) rest 16) by (by rewrite length_walHeader).
  destruct (header_fields t n) as (-> & -> & -> & -> & ->); [lia|ulia|].
  rewrite bool_decide_eq_true_2 by done. unfold walRecordHeaderBytes, walRecordChecksumBytes.
  unfold validWALRecordType, walRecordTransactionBegin, walRecordTransactionCommit.
  rewrite (proj2 (Z.leb_le 1 t)), (proj2 (Z.leb_le t 7)) by lia. cbn [andb negb].
  rewrite Z.eqb_refl. cbn [negb]. pose proof (len_nonneg rest).
  rewrite (proj2 (Z.ltb_ge (16 + len rest) 16)), (proj2 (Z.ltb_ge MaxWALRecordPayloadBytes n)) by lia.
  rewrite Z.eqb_refl. cbn [negb].
  rewrite (proj2 (Z.ltb_ge max_int (16 + n + 4))), (proj2 (Z.ltb_ge (max_int - (16 + n + 4)) off)) by lia.
  cbn [orb]. replace (16 + len rest <? 16 + n + 4) with (len rest <? n + 4)
    by (apply eq_true_iff_eq; rewrite !Z.ltb_lt; lia).
  destruct (len rest <? n + 4); [done|].
  rewrite (proj2 (Z.ltb_ge max_int n)) by ulia.
  assert (∀ a b, sub (16 + a) (16 + b) (walHeader t n ++ rest) = sub a b rest) as Hsub.
  { reflexivity. }
  replace (sub 16 (16 + Z.to_nat n) (walHeader t n ++ rest)) with (take (Z.to_nat n) rest)
    by (rewrite (Hsub 0%nat); unfold sub; by rewrite Nat.sub_0_r).
  replace (20 + Z.to_nat n)%nat with (16 + (4 + Z.to_nat n))%nat by lia. rewrite Hsub.
  rewrite <- drop_drop, drop_app_length' by (by rewrite length_walHeader). done.
Qed.

Lemma readWALRecordAt_record (off : Z) (r : Z * list byte) (rest : list byte) :
  record_ok r → 0 ≤ off → off + len (recordBytes r) ≤ max_int →
  readWALRecordAt off (recordBytes r ++ rest) = Ok (Some (r, rest)).
Proof.
  intros [Ht Hn] Ho Hmax. unfold len in Hmax. rewrite length_recordBytes in Hmax.
  destruct r as [t p]; cbn [fst snd] in *. unfold recordBytes. cbv zeta. cbn [fst snd]. rewrite <- !app_assoc.
  pose proof (len_nonneg p). rewrite readWALRecordAt_header by (done || unfold len in *; lia).
  rewrite !len_app. assert (len (be_bytes 4 (crc32c (walHeader t (len p) ++ p))) = 4) as ->
    by (unfold len; by rewrite length_be_bytes).
  pose proof (len_nonneg rest). case_goal; [absurd_bool|]. assert (Z.to_nat (len p) = length p) as -> by (unfold len; lia).
  cbv zeta. rewrite take_app_length.
  assert (sub (length p) (4 + length p) (p ++ be_bytes 4 (crc32c (walHeader t (len p) ++ p)) ++ rest)
    = be_bytes 4 (crc32c (walHeader t (len p) ++ p))) as ->.
  { unfold sub. rewrite drop_app_length. apply take_app_length'. rewrite length_be_bytes. lia. }
  rewrite be_value_small by (pose proof (crc32c_u32 (walHeader t (len p) ++ p)); simpl Z.pow; ulia).
  rewrite Z.eqb_refl. cbn [negb]. do 2 f_equal. replace (4 + length p)%nat with (length p + 4)%nat by lia.
  f_equal. rewrite <- drop_drop, drop_app_length. by apply drop_app_length'.
Qed.

(** A strict prefix of a record reads as an incomplete record. *)
Lemma readWALRecordAt_partial (off : Z) (r : Z * list byte) (pre : list byte) :
  record_ok r → 0 ≤ off → off + len (recordBytes r) ≤ max_int →
  pre `prefix_of` recordBytes r → (length pre < length (recordBytes r))%nat →
  readWALRecordAt off pre = Ok None.
Proof.
  intros [Ht Hn] Ho Hmax [suf Heq] Hlt. unfold len in Hmax. rewrite length_recordBytes in *.
  destruct r as [t p]; cbn [fst snd] in *. pose proof (len_nonneg p).
  destruct (decide (length pre < 16)%nat) as [Hs|Hs].
  { rewrite readWALRecordAt_eq. unfold walRecordHeaderBytes. case_goal; [done|]. bool_hyps. unfold len in *. lia. }
  assert (pre = walHeader t (len p) ++ drop 16 pre) as Hp.
  { rewrite <- (take_drop 16 pre) at 1. f_equal.
    assert (take 16 (recordBytes (t, p)) = take 16 pre) as <- by (rewrite Heq, take_app_le by lia; done).
    unfold recordBytes. cbv zeta. cbn [fst snd]. rewrite <- !app_assoc. apply take_app_length'.
    by rewrite length_walHeader. }
  rewrite Hp, readWALRecordAt_header by (done || unfold len in *; lia).
  case_goal; [done|]. bool_hyps. unfold len in *. rewrite length_drop in *. lia.
Qed.

(** ** Payloads are read back *)

Ltac payload_fields :=
  cbn [concat take]; rewrite ?length_app, ?length_be_bytes; reflexivity.

(** The numbers of a payload made of big-endian fields. *)
Lemma be_fields (widths : list nat) (values : list Z) (i first last : nat) (w : nat) (v : Z) :
  widths !! i = Some w → values !! i = Some v → first = sum_list (take i widths) →
  last = (first + w)%nat → 0 ≤ v < 256 ^ Z.of_nat w →
  be_value (sub first last (concat (zip_with be_bytes widths values))) = v.
Proof.
  intros Hw Hv -> -> Hr. erewrite (sub_concat _ i _ _ (be_bytes w v)).
  - by apply be_value_small.
  - by rewrite lookup_zip_with, Hw, Hv.
  - clear -Hv. revert values Hv. generalize dependent i. induction widths as [|x xs IH]; intros i vs Hv.
    { by destruct i. }
    destruct i, vs as [|z zs]; try done. simpl in *. rewrite length_app, length_be_bytes. f_equal.
    by apply IH.
  - by rewrite length_be_bytes.
Qed.

Lemma hardState_payload (id : Z) (h : HardState) :
  is_u64 id → is_u64 (HardState_Term h) → is_u16 (HardState_VotedFor h) →
  is_u64 (HardState_CommitIndex h) →
  decodeHardStatePayload (encodeHardStatePayload id h) id = Ok h.
Proof.
  intros Hi Ht Hv Hc. rewrite decodeHardState_eq.
  assert (encodeHardStatePayload id h = concat (zip_with be_bytes [8; 8; 2; 8]%nat
    [id; HardState_Term h; HardState_VotedFor h; HardState_CommitIndex h])) as -> by reflexivity.
  rewrite (be_fields _ _ 0 _ _ 8 id), (be_fields _ _ 1 _ _ 8 (HardState_Term h)),
    (be_fields _ _ 2 _ _ 2 (HardState_VotedFor h)), (be_fields _ _ 3 _ _ 8 (HardState_CommitIndex h))
    by (reflexivity || (simpl Z.pow; ulia)).
  rewrite (Z.eqb_refl id). by destruct h.
Qed.

Lemma twoUint64_payload (id v : Z) :
  is_u64 id → is_u64 v → decodeTwoUint64Payload (encodeTwoUint64Payload id v) id = Ok v.
Proof.
  intros Hi Hv. rewrite decodeTwoUint64_eq.
  assert (encodeTwoUint64Payload id v = concat (zip_with be_bytes [8; 8]%nat [id; v])) as -> by reflexivity.
  rewrite (be_fields _ _ 0 _ _ 8 id), (be_fields _ _ 1 _ _ 8 v) by (reflexivity || (simpl Z.pow; ulia)).
  by rewrite (Z.eqb_refl id).
Qed.

Lemma snapshot_payload (id : Z) (m : SnapshotMetadata) :
  is_u64 id → metadata_typed m → decodeSnapshotPayload (encodeSnapshotPayload id m) id = Ok m.
Proof.
  intros Hi (Hx & Ht & Hv). rewrite decodeSnapshot_eq.
  assert (encodeSnapshotPayload id m = concat (zip_with be_bytes [8; 8; 8; 4]%nat
    [id; LastIncludedIndex m; LastIncludedTerm m; StateMachineSchemaVersion m])) as -> by reflexivity.
  rewrite (be_fields _ _ 0 _ _ 8 id), (be_fields _ _ 1 _ _ 8 (LastIncludedIndex m)),
    (be_fields _ _ 2 _ _ 8 (LastIncludedTerm m)), (be_fields _ _ 3 _ _ 4 (StateMachineSchemaVersion m))
    by (reflexivity || (simpl Z.pow; ulia)).
  rewrite (Z.eqb_refl id). by destruct m.
Qed.

Lemma boundary_payload (id flags count : Z) (p : list byte) :
  is_u64 id → is_u8 flags → is_u8 count →
  encodeTransactionBoundaryPayload id flags count = Ok p →
  decodeTransactionBoundaryPayload p = Ok (id, flags, count).
Proof.
  intros Hi Hf Hc. unfold encodeTransactionBoundaryPayload. case_outer; [done|]. intros Hp.
  assert (p = concat (zip_with be_bytes [8; 1; 1; 1; 1]%nat [id; flags; count; 0; 0])) as ->
    by (injection Hp; intros <-; reflexivity).
  rewrite decodeBoundary_eq. cbv zeta.
  rewrite (be_fields _ _ 0 _ _ 8 id), (be_fields _ _ 1 _ _ 1 flags), (be_fields _ _ 2 _ _ 1 count),
    (be_fields _ _ 3 _ _ 1 0), (be_fields _ _ 4 _ _ 1 0)
    by (reflexivity || (simpl Z.pow; ulia)).
  by rewrite Heq.
Qed.

(** The bytes of the entries of a record. *)
Definition entriesBytes (es : list Entry) : list byte := concat (walEntry <$> es).

Definition wal_entry_ok (e : Entry) : Prop :=
  entry_typed e ∧ validateLogEntry e = Ok tt ∧ len (Entry_command e) ≤ MaxRaftCommandBytes.

Lemma encodeEntriesLoop_Ok (p bytes : list byte) (es : list Entry) :
  Forall entry_typed es → encodeEntriesLoop p es = Ok bytes →
  bytes = p ++ entriesBytes es ∧ Forall wal_entry_ok es.
Proof.
  intros Ht. revert p. induction Ht as [|e es He Ht IH]; intros p; simpl.
  { intros [= <-]. by rewrite app_nil_r. }
  case_outer; [|done..]. do 2 (case_outer; [done|]). intros Hes. destruct (IH _ Hes) as [-> Hok].
  bool_hyps. split; [by rewrite <- app_assoc|]. constructor; [|done]. destruct a. unfold wal_entry_ok. by split_and!.
Qed.

Lemma walEntry_fields (e : Entry) (rest : list byte) :
  wal_entry_ok e →
  be_value (take 8 (walEntry e ++ rest)) = Entry_Index e ∧
  be_value (sub 8 16 (walEntry e ++ rest)) = Entry_Term e ∧
  be_value (sub 16 17 (walEntry e ++ rest)) = Entry_Kind e ∧
  be_value (sub 17 21 (walEntry e ++ rest)) = len (Entry_command e) ∧
  drop 21 (walEntry e ++ rest) = Entry_command e ++ rest.
Proof.
  intros ((Hi & Ht & Hk) & _ & Hc). pose proof (len_nonneg (Entry_command e)).
  assert (MaxRaftCommandBytes = 1048576) by reflexivity.
  assert (walEntry e ++ rest = concat (zip_with be_bytes [8; 8; 1; 4]%nat
    [Entry_Index e; Entry_Term e; Entry_Kind e; len (Entry_command e)]) ++ Entry_command e ++ rest) as ->
    by (unfold walEntry; simpl zip_with; cbn [concat]; by rewrite app_nil_r, <- !app_assoc).
  assert (∀ first last (h t : list byte), (last ≤ length h)%nat → (first ≤ last)%nat →
    sub first last (h ++ t) = sub first last h) as Hsub.
  { intros first last h t Hl Hf. unfold sub. rewrite drop_app_le, take_app_le by
      (rewrite ?length_drop; lia). done. }
  change (take 8) with (sub 0 8). rewrite !Hsub by (simpl; lia).
  rewrite (be_fields _ _ 0 _ _ 8 (Entry_Index e)), (be_fields _ _ 1 _ _ 8 (Entry_Term e)),
    (be_fields _ _ 2 _ _ 1 (Entry_Kind e)), (be_fields _ _ 3 _ _ 4 (len (Entry_command e)))
    by (reflexivity || (simpl Z.pow; ulia)).
  done.
Qed.

Lemma NewEntry_valid (e : Entry) :
  validateLogEntry e = Ok tt →
  NewEntry (Entry_Index e) (Entry_Term e) (Entry_Kind e) (Entry_command e) = Ok e.
Proof.
  unfold validateLogEntry, NewEntry. do 3 (case_goal; [done|]). intros _. by destruct e.
Qed.

Lemma length_walEntry (e : Entry) : len (walEntry e) = 21 + len (Entry_command e).
Proof. unfold walEntry, len. rewrite !length_app, !length_be_bytes. lia. Qed.

Lemma decodeEntriesLoop_bytes (es : list Entry) (rest : list byte) :
  Forall wal_entry_ok es →
  decodeEntriesLoop (length es) (entriesBytes es ++ rest) = Ok (es, rest).
Proof.
  induction 1 as [|e es He Hes IH]; [done|].
  assert (entriesBytes (e :: es) ++ rest = walEntry e ++ entriesBytes es ++ rest) as ->
    by (unfold entriesBytes; cbn [fmap list_fmap concat]; by rewrite <- app_assoc).
  simpl length. rewrite decodeEntriesLoop_eq. cbv zeta. change (sub 0 8) with (@take byte 8).
  destruct (walEntry_fields e (entriesBytes es ++ rest) He) as (-> & -> & -> & -> & ->).
  rewrite len_app, length_walEntry. destruct He as (_ & Hv & Hc).
  pose proof (len_nonneg (Entry_command e)). pose proof (len_nonneg (entriesBytes es ++ rest)).
  assert (MaxRaftCommandBytes = 1048576) by reflexivity. unfold minimumWALEntryBytes.
  case_goal; [absurd_bool|]. rewrite len_app. case_goal; [absurd_bool|].
  assert (Z.to_nat (len (Entry_command e)) = length (Entry_command e)) as -> by (unfold len; lia).
  by rewrite take_app_length, drop_app_length, NewEntry_valid, IH.
Qed.

Lemma entriesBytes_min (es : list Entry) : 21 * len es ≤ len (entriesBytes es).
Proof.
  induction es as [|e es IH]; [done|]. unfold entriesBytes in *. cbn [fmap list_fmap concat].
  rewrite len_cons, len_app, length_walEntry. pose proof (len_nonneg (Entry_command e)). lia.
Qed.

Lemma entries_payload (id : Z) (es : list Entry) (p : list byte) :
  is_u64 id → Forall entry_typed es → encodeEntriesPayload id es = Ok p →
  decodeEntriesPayload p id = Ok es.
Proof.
  intros Hi Ht. unfold encodeEntriesPayload. case_outer; [done|]. intros He.
  destruct (encodeEntriesLoop_Ok _ _ _ Ht He) as [-> Hok]. bool_hyps. pose proof (len_nonneg es).
  rewrite <- app_assoc, decodeEntries_eq. cbv zeta. change (sub 0 8) with (@take byte 8).
  assert (∀ rest, be_value (take 8 (be_bytes 8 id ++ be_bytes 2 (len es) ++ rest)) = id ∧
    be_value (sub 8 10 (be_bytes 8 id ++ be_bytes 2 (len es) ++ rest)) = len es ∧
    drop 10 (be_bytes 8 id ++ be_bytes 2 (len es) ++ rest) = rest) as Hf.
  { intros rest. split_and!; [change (take 8 _) with (be_bytes 8 id)|
      change (sub 8 10 _) with (be_bytes 2 (len es))|done]; apply be_value_small; simpl Z.pow; ulia. }
  destruct (Hf (entriesBytes es)) as (-> & -> & ->). rewrite !len_app, Z.eqb_refl.
  assert (len (be_bytes 8 id) = 8 ∧ len (be_bytes 2 (len es)) = 2) as [-> ->] by done.
  pose proof (len_nonneg (entriesBytes es)). case_goal; [absurd_bool|].
  pose proof (entriesBytes_min es) as Hmin.
  replace (8 + (2 + len (entriesBytes es)) - 10) with (len (entriesBytes es)) by lia.
  assert (len es ≤ len (entriesBytes es) / minimumWALEntryBytes) as Hdiv.
  { apply Z.div_le_lower_bound; unfold minimumWALEntryBytes; lia. }
  case_goal; [absurd_bool|]. assert (Z.to_nat (len es) = length es) as -> by (unfold len; lia).
  rewrite <- (app_nil_r (entriesBytes es)), decodeEntriesLoop_bytes by done. reflexivity.
Qed.

(** ** Transactions are read back *)

(** The flags of a batch decide its expected records, their number, and the
    check of the commit record. *)
Lemma flags_facts (b : PersistenceBatch) (ep : list byte) (id : Z) :
  is_u8 (flagsForBatch b) ∧ Z.ldiff (flagsForBatch b) transactionFlagsAll = 0 ∧
  is_u8 (onesCount8 (flagsForBatch b)) ∧
  expectedRecordTypes (flagsForBatch b) = (effectRecords id b ep).*1 ∧
  onesCount8 (flagsForBatch b) = len (expectedRecordTypes (flagsForBatch b)).
Proof.
  unfold flagsForBatch, effectRecords.
  destruct (PB_HardState b), (PB_ReplaceFrom b =? 0), (len (PB_Entries b) =? 0), (PB_SnapshotBase b),
    (PB_AppliedIndex b); vm_compute; repeat split; discriminate.
Qed.

(** Decoding the effect records one after the other. *)
Fixpoint decodeEffects (id : Z) (batch : PersistenceBatch) (rs : list (Z * list byte)) :
    outcome error PersistenceBatch :=
  match rs with
  | [] => Ok batch
  | r :: rest => let? batch' := decodeEffectRecord r.1 r.2 id batch in decodeEffects id batch' rest
  end.

Lemma decodeEffects_app (id : Z) (b : PersistenceBatch) (rs rs' : list (Z * list byte)) :
  decodeEffects id b (rs ++ rs') = let? b' := decodeEffects id b rs in decodeEffects id b' rs'.
Proof.
  revert b. induction rs as [|r rs IH]; intros b; [done|]. simpl.
  destruct (decodeEffectRecord r.1 r.2 id b); simpl; auto.
Qed.

(** Each effect record sets its field. *)
Section effects.
Context (id : Z) (Hid : is_u64 id) (b : PersistenceBatch).

Lemma effect_snapshot (m : SnapshotMetadata) :
  metadata_typed m → decodeEffectRecord walRecordSnapshotBase (encodeSnapshotPayload id m) id b =
  Ok (b <| PB_SnapshotBase := Some m |>).
Proof. intros Hm. unfold decodeEffectRecord. by rewrite snapshot_payload. Qed.

Lemma effect_truncate (from : Z) :
  is_u64 from → from ≠ 0 →
  decodeEffectRecord walRecordTruncate (encodeTwoUint64Payload id from) id b =
  Ok (b <| PB_ReplaceFrom := from |>).
Proof.
  intros Hf Hn. unfold decodeEffectRecord. rewrite twoUint64_payload by done. simpl.
  by destruct (Z.eqb_spec from 0).
Qed.

Lemma effect_entries (es : list Entry) (ep : list byte) :
  Forall entry_typed es → encodeEntriesPayload id es = Ok ep →
  decodeEffectRecord walRecordEntries ep id b = Ok (b <| PB_Entries := es |>).
Proof. intros Ht He. unfold decodeEffectRecord. by erewrite entries_payload. Qed.

Lemma effect_applied (index : Z) :
  is_u64 index → decodeEffectRecord walRecordAppliedIndex (encodeTwoUint64Payload id index) id b =
  Ok (b <| PB_AppliedIndex := Some index |>).
Proof. intros Hi. unfold decodeEffectRecord. by rewrite twoUint64_payload. Qed.

Lemma effect_hardState (h : HardState) :
  is_u64 (HardState_Term h) ∧ is_u16 (HardState_VotedFor h) ∧ is_u64 (HardState_CommitIndex h) →
  decodeEffectRecord walRecordHardState (encodeHardStatePayload id h) id b =
  Ok (b <| PB_HardState := Some h |>).
Proof. intros (? & ? & ?). unfold decodeEffectRecord. by rewrite hardState_payload. Qed.
End effects.

Lemma decodeEffects_batch (id : Z) (b : PersistenceBatch) (ep : list byte) :
  is_u64 id → batch_values b →
  (len (PB_Entries b) ≠ 0 → encodeEntriesPayload id (PB_Entries b) = Ok ep) →
  decodeEffects id PersistenceBatch_zero (effectRecords id b ep) = Ok (b <| PB_Snapshot := None |>).
Proof.
  intros Hi (Hh & Hr & He & Hs & Ha) Hep. unfold effectRecords.
  destruct b as [h from es base sn ap].
  cbn [PB_HardState PB_ReplaceFrom PB_Entries PB_SnapshotBase PB_AppliedIndex] in *.
  destruct base as [base|]; cbn [app decodeEffects fst snd];
    rewrite ?effect_snapshot by done; cbn [outcome_bind];
    (destruct (Z.eqb_spec from 0) as [->|Hf]; cbn [app decodeEffects fst snd];
       rewrite ?effect_truncate by done; cbn [outcome_bind]);
    (destruct (Z.eqb_spec (len es) 0) as [Hn|Hn]; cbn [app decodeEffects fst snd];
       [apply len_0_nil in Hn; subst es|rewrite (effect_entries id Hi _ es ep) by auto];
       cbn [outcome_bind]);
    (destruct ap as [ap|]; cbn [app decodeEffects fst snd];
       rewrite ?effect_applied by done; cbn [outcome_bind]);
    (destruct h as [h|]; cbn [app decodeEffects fst snd];
       rewrite ?effect_hardState by done; cbn [outcome_bind]);
    reflexivity.
Qed.

(** ** Replay *)

Lemma readWALRecordAt_shorter (off t : Z) (bytes p rest : list byte) :
  readWALRecordAt off bytes = Ok (Some (t, p, rest)) → (length rest < length bytes)%nat.
Proof.
  rewrite readWALRecordAt_eq. cbv zeta. unfold walRecordHeaderBytes. do 7 (case_outer; [done|]). cbv zeta.
  do 3 (case_outer; [done|]). intros [= _ _ <-]. rewrite length_drop. bool_hyps. unfold len in *. lia.
Qed.

Lemma readWALRecordAt_returns (off : Z) (bytes : list byte) : returns (readWALRecordAt off bytes).
Proof. rewrite readWALRecordAt_eq. solve_returns. Qed.

Lemma decodeBoundary_returns (p : list byte) : returns (decodeTransactionBoundaryPayload p).
Proof. rewrite decodeBoundary_eq. solve_returns. Qed.

Lemma decodeEntriesLoop_returns (n : nat) (rest : list byte) : returns (decodeEntriesLoop n rest).
Proof.
  revert rest. induction n as [|n IH]; intros rest; [exact I|]. rewrite decodeEntriesLoop_eq. solve_returns.
Qed.

#[local] Hint Resolve readWALRecordAt_returns decodeBoundary_returns decodeEntriesLoop_returns : returns.

Lemma decodeEffectRecord_returns (t id : Z) (p : list byte) (b : PersistenceBatch) :
  returns (decodeEffectRecord t p id b).
Proof.
  unfold decodeEffectRecord. rewrite decodeSnapshot_eq, decodeTwoUint64_eq, decodeEntries_eq, decodeHardState_eq. solve_returns.
Qed.
#[local] Hint Resolve decodeEffectRecord_returns : returns.

Section replay_correct.
Context (sha256 : list byte → list byte) (identity : StorageIdentity) (voters : VoterSet).
Abbreviation recoverRecord := (recoverRecord sha256 identity voters).
Abbreviation recoverLoop := (recoverLoop sha256 identity voters).

Lemma recoverRecord_returns (scan : walScan) (t next : Z) (p : list byte) :
  returns (recoverRecord scan t p next).
Proof. unfold RaftWAL.recoverRecord. solve_returns. Qed.

Lemma recoverRecord_offset (scan scan' : walScan) (t next : Z) (p : list byte) :
  recoverRecord scan t p next = Ok scan' → WS_offset scan' = next.
Proof.
  unfold RaftWAL.recoverRecord. repeat (case_outer || case_goal); try (intros; discriminate);
    by intros [= <-].
Qed.

(** Enough fuel: every record is at least a byte long. *)
Lemma recoverLoop_fuel (fuel fuel' : nat) (scan : walScan) (rest : list byte) :
  (length rest < fuel)%nat → (length rest < fuel')%nat →
  recoverLoop fuel scan rest = recoverLoop fuel' scan rest ∧ returns (recoverLoop fuel scan rest).
Proof.
  revert fuel' scan rest. induction fuel as [|fuel IH]; intros [|fuel'] scan rest Hf Hf'; try lia.
  cbn [RaftWAL.recoverLoop]. destruct rest as [|x rest]; [split; [done|solve_returns]|].
  destruct (readWALRecordAt _ _) as [[[[t p] rest']|]| | |] eqn:Hread; simpl; try (by split).
  2-3: pose proof (readWALRecordAt_returns (WS_offset scan) (x :: rest)) as Hr; by rewrite Hread in Hr.
  pose proof (recoverRecord_returns scan t
    (WS_offset scan + len (x :: rest) - len rest') p) as Hret.
  destruct (recoverRecord _ _ _ _) as [scan'| | |]; simpl; try done.
  apply readWALRecordAt_shorter in Hread. apply IH; lia.
Qed.

(** The scan of a list of complete records. *)
Fixpoint scanRecords (scan : walScan) (rs : list (Z * list byte)) : outcome error walScan :=
  match rs with
  | [] => Ok scan
  | r :: rest =>
    let? scan' := recoverRecord scan r.1 r.2 (WS_offset scan + len (recordBytes r)) in
    scanRecords scan' rest
  end.

Definition walBytes (rs : list (Z * list byte)) : list byte := concat (recordBytes <$> rs).

Lemma walBytes_app (rs rs' : list (Z * list byte)) :
  walBytes (rs ++ rs') = walBytes rs ++ walBytes rs'.
Proof. unfold walBytes. by rewrite fmap_app, concat_app. Qed.

Lemma recoverLoop_records (fuel : nat) (scan scan' : walScan) (rs : list (Z * list byte))
    (rest : list byte) :
  Forall record_ok rs → 0 ≤ WS_offset scan → WS_offset scan + len (walBytes rs) ≤ max_int →
  (length (walBytes rs ++ rest) < fuel)%nat → scanRecords scan rs = Ok scan' →
  recoverLoop fuel scan (walBytes rs ++ rest) = recoverLoop (S (length rest)) scan' rest ∧
  WS_offset scan' = WS_offset scan + len (walBytes rs).
Proof.
  intros Hok. revert fuel scan. induction Hok as [|r rs Hr Hok IH]; intros fuel scan Ho Hmax Hf;
    cbn [scanRecords].
  { intros [= <-]. split; [apply (recoverLoop_fuel fuel (S (length rest))); simpl in *; lia|]. unfold walBytes, len. simpl. lia. }
  change (walBytes (r :: rs)) with (recordBytes r ++ walBytes rs) in *.
  rewrite <- app_assoc in *. rewrite len_app in *. pose proof (len_nonneg (walBytes rs)).
  case_outer; [|done..]. intros Hs. apply recoverRecord_offset in Heq as Ho'.
  destruct fuel as [|fuel]; [lia|]. rewrite !length_app, length_recordBytes in Hf.
  pose proof (len_nonneg (recordBytes r)).
  destruct (IH fuel a) as [IH1 IH2]; [lia|lia|rewrite !length_app; lia|done|].
  split; [|lia]. rewrite <- IH1. cbn [RaftWAL.recoverLoop].
  rewrite readWALRecordAt_record by (done || lia).
  destruct (recordBytes r ++ walBytes rs ++ rest) eqn:He; [|rewrite <- He; clear He].
  { apply app_eq_nil in He as [He _]. pose proof (length_recordBytes r) as Hl. by rewrite He in Hl. }
  destruct r as [t p]. cbn [outcome_bind fst snd] in *. rewrite len_app.
  replace (WS_offset scan + (len (recordBytes (t, p)) + len (walBytes rs ++ rest)) -
    len (walBytes rs ++ rest)) with (WS_offset scan + len (recordBytes (t, p))) by lia.
  by rewrite Heq.
Qed.

Lemma scanRecords_app (scan : walScan) (rs rs' : list (Z * list byte)) :
  scanRecords scan (rs ++ rs') = let? scan' := scanRecords scan rs in scanRecords scan' rs'.
Proof.
  revert scan. induction rs as [|r rs IH]; intros scan; [done|]. cbn [app scanRecords].
  destruct (recoverRecord _ _ _ _); simpl; auto.
Qed.

(** The records of one transaction. *)
Definition transactionRecords (id : Z) (b : PersistenceBatch) (bd ep : list byte) : list (Z * list byte) :=
  (walRecordTransactionBegin, bd) :: effectRecords id b ep ++ [(walRecordTransactionCommit, bd)].

(** What [encodeWALTransaction] checks and produces. *)
Record transaction_ok (id : Z) (b : PersistenceBatch) (bd ep bytes : list byte) : Prop := {
  to_boundary : encodeTransactionBoundaryPayload id (flagsForBatch b) (onesCount8 (flagsForBatch b)) = Ok bd;
  to_entries : len (PB_Entries b) ≠ 0 → encodeEntriesPayload id (PB_Entries b) = Ok ep;
  to_bytes : bytes = walBytes (transactionRecords id b bd ep);
  to_records : Forall record_ok (transactionRecords id b bd ep);
  to_size : len bytes ≤ MaxWALTransactionBytes
}.

Lemma encodeRecords_Ok (total : Z) (rs : list (Z * list byte)) (bytes : list byte) :
  total ≤ MaxWALTransactionBytes → encodeRecords total rs = Ok bytes →
  bytes = walBytes rs ∧ Forall record_ok rs ∧ total + len bytes ≤ MaxWALTransactionBytes.
Proof.
  revert total bytes. induction rs as [|[t p] rs IH]; intros total bytes Ht; cbn [encodeRecords].
  { intros [= <-]. split_and!; [done|done|]. unfold len. simpl. lia. }
  case_outer; [|done..]. case_outer; [done|]. case_outer; [|done..]. intros [= <-].
  apply encodeWALRecord_Ok in Heq as [Hok ->]. bool_hyps.
  apply IH in Heq1 as (-> & Hrs & Hlen); [|lia]. rewrite len_app.
  split_and!; [done|by constructor|lia].
Qed.

Lemma encodeWALTransaction_Ok (id : Z) (b : PersistenceBatch) (bytes : list byte) :
  encodeWALTransaction id b = Ok bytes → ∃ bd ep, transaction_ok id b bd ep bytes.
Proof.
  unfold encodeWALTransaction. case_outer; [done|]. case_outer; [|done..]. cbv zeta. case_outer; [done|].
  case_outer; [|done..]. case_outer; [|done..]. intros He. exists a0, a1.
  apply encodeRecords_Ok in He as (-> & Hok & Hlen); [|done].
  split; try done. intros Hn. revert Heq3. by destruct (Z.eqb_spec (len (PB_Entries b)) 0).
Qed.

Lemma walBytes_record (r : Z * list byte) (rs : list (Z * list byte)) :
  r ∈ rs → len r.2 ≤ len (walBytes rs).
Proof.
  induction 1 as [r rs|r r' rs _ IH]; change (walBytes (?x :: rs)) with (recordBytes x ++ walBytes rs);
    rewrite len_app; pose proof (len_nonneg (walBytes rs));
    [|pose proof (len_nonneg (recordBytes r')); lia].
  unfold len in *. rewrite length_recordBytes. lia.
Qed.

(** A transaction is longer than the number of its entries. *)
Lemma transaction_entries (id : Z) (b : PersistenceBatch) (bytes : list byte) :
  batch_values b → encodeWALTransaction id b = Ok bytes → len (PB_Entries b) ≤ len bytes.
Proof.
  intros (_ & _ & Ht & _) (bd & ep & Htx)%encodeWALTransaction_Ok. pose proof (len_nonneg bytes).
  destruct (Z.eqb_spec (len (PB_Entries b)) 0) as [|Hne]; [lia|].
  pose proof (to_entries _ _ _ _ _ Htx Hne) as He. revert He. unfold encodeEntriesPayload.
  case_outer; [done|]. intros He. destruct (encodeEntriesLoop_Ok _ _ _ Ht He) as [Hep _].
  assert (len ep ≤ len bytes) as Hle.
  { rewrite (to_bytes _ _ _ _ _ Htx). apply (walBytes_record (walRecordEntries, ep)).
    unfold transactionRecords, effectRecords. apply list_elem_of_further. rewrite !elem_of_app.
    left. right. right. left. destruct (Z.eqb_spec (len (PB_Entries b)) 0); [done|]. apply list_elem_of_here. }
  pose proof (entriesBytes_min (PB_Entries b)). pose proof (len_nonneg (PB_Entries b)).
  rewrite Hep, !len_app in Hle.
  pose proof (len_nonneg (be_bytes 8 id)). pose proof (len_nonneg (be_bytes 2 (len (PB_Entries b)))). lia.
Qed.

(** Replaying effect records extends the batch of the active transaction. *)
Lemma scan_effects (st : RecoveredState) (vb last start id fl ct : Z) (exp : list Z)
    (rs : list (Z * list byte)) (i : nat) (batch batch' : PersistenceBatch) (o : Z) :
  rs.*1 `prefix_of` drop i exp → decodeEffects id batch rs = Ok batch' →
  o + len (walBytes rs) - start ≤ MaxWALTransactionBytes →
  scanRecords (mkScan st o vb last (Some (mkActive start id fl ct exp i batch))) rs =
  Ok (mkScan st (o + len (walBytes rs)) vb last
        (Some (mkActive start id fl ct exp (i + length rs) batch'))).
Proof.
  revert i batch o. induction rs as [|[t p] rs IH]; intros i batch o Hpre Hd Hmax.
  { injection Hd as <-. cbn [scanRecords length]. unfold walBytes, len. simpl.
    by rewrite Z.add_0_r, Nat.add_0_r. }
  cbn [scanRecords decodeEffects] in *. revert Hd. case_outer; [|done..]. intros Hd.
  change (walBytes ((t, p) :: rs)) with (recordBytes (t, p) ++ walBytes rs) in *. rewrite len_app in *.
  pose proof (len_nonneg (walBytes rs)). destruct Hpre as [suf Hpre]. cbn [fmap list_fmap fst] in Hpre.
  assert (exp !! i = Some t) as Hi.
  { rewrite <- (Nat.add_0_r i), <- lookup_drop, Hpre. done. }
  unfold RaftWAL.recoverRecord. cbn [WS_active AT_start AT_expected AT_effect AT_id AT_batch WS_offset fst snd].
  rewrite Hi, Z.eqb_refl. case_goal; [absurd_bool|]. cbn [negb fst snd] in *. rewrite Heq.
  cbn [outcome_bind AT_flags AT_count WS_state WS_verifiedBoundary WS_lastTransaction].
  rewrite (IH (S i) a) by
    first [done|lia|exists suf; rewrite (drop_S _ _ _ Hi) in Hpre; by injection Hpre].
  do 2 f_equal; [lia|]. do 2 f_equal. simpl. lia.
Qed.

Section transaction.
Context (st : RecoveredState) (o last : Z) (b : PersistenceBatch) (bd ep bytes : list byte).
Context (Hlast : 0 ≤ last < max_uint64) (Hb : batch_values b).
Context (Htx : transaction_ok (last + 1) b bd ep bytes).
Abbreviation records := (transactionRecords (last + 1) b bd ep).
Abbreviation scan := (mkScan st o o last None).
Abbreviation begun i batch off :=
  (mkScan st off o last (Some (mkActive o (last + 1) (flagsForBatch b) (onesCount8 (flagsForBatch b))
     (expectedRecordTypes (flagsForBatch b)) i batch))).

Lemma boundary_read :
  decodeTransactionBoundaryPayload bd = Ok (last + 1, flagsForBatch b, onesCount8 (flagsForBatch b)).
Proof.
  destruct (flags_facts b ep (last + 1)) as (? & ? & ? & _). apply boundary_payload; [ulia|done|done|].
  apply Htx.
Qed.

Lemma size_of_records (rs rs' : list (Z * list byte)) :
  records = rs ++ rs' → len (walBytes rs) ≤ MaxWALTransactionBytes.
Proof.
  intros Hr. pose proof (to_size _ _ _ _ _ Htx) as Hs. rewrite (to_bytes _ _ _ _ _ Htx), Hr, walBytes_app,
    len_app in Hs. pose proof (len_nonneg (walBytes rs')). lia.
Qed.

Lemma scan_begin :
  scanRecords scan [(walRecordTransactionBegin, bd)] =
  Ok (begun O PersistenceBatch_zero (o + len (recordBytes (walRecordTransactionBegin, bd)))).
Proof.
  cbn [scanRecords]. unfold RaftWAL.recoverRecord. cbn [WS_active fst snd WS_lastTransaction WS_offset
    WS_state WS_verifiedBoundary]. rewrite Z.eqb_refl, boundary_read. cbn [negb outcome_bind].
  case_goal; [absurd_bool|done].
Qed.

(** After [k] records of a transaction that is not complete, nothing is applied
    yet and the cut is where the transaction starts. *)
Lemma scan_incomplete (k : nat) :
  (k < length records)%nat →
  ∃ scan', scanRecords scan (take k records) = Ok scan' ∧ crashBoundary scan' = o ∧
    WS_state scan' = st ∧ WS_lastTransaction scan' = last ∧
    (k ≠ O → ∃ tx, WS_active scan' = Some tx ∧ AT_start tx = o).
Proof.
  intros Hk. destruct k as [|k]; [by exists scan|]. unfold transactionRecords in *. simpl length in Hk.
  rewrite length_app in Hk. simpl length in Hk. cbn [take].
  rewrite take_app_le by lia. set (effs := effectRecords (last + 1) b ep) in *.
  change ((walRecordTransactionBegin, bd) :: take k effs)
    with ([(walRecordTransactionBegin, bd)] ++ take k effs).
  rewrite scanRecords_app, scan_begin. cbn [outcome_bind].
  destruct (flags_facts b ep (last + 1)) as (_ & _ & _ & Hexp & _).
  assert (decodeEffects (last + 1) PersistenceBatch_zero effs = Ok (b <| PB_Snapshot := None |>)) as Hd.
  { apply decodeEffects_batch; [ulia|done|apply Htx]. }
  rewrite <- (take_drop k effs), decodeEffects_app in Hd.
  destruct (decodeEffects _ _ (take k effs)) as [batch| | |] eqn:Hdk; try done.
  eexists. split; [apply (scan_effects _ _ _ _ _ _ _ _ _ _ _ batch)|]; [|exact Hdk| |].
  - rewrite drop_0, Hexp. exists (drop k effs).*1. by rewrite <- fmap_app, take_drop.
  - assert (len (walBytes ([(walRecordTransactionBegin, bd)] ++ take k effs)) ≤ MaxWALTransactionBytes) as Hs.
    { apply (size_of_records _ (drop k effs ++ [(walRecordTransactionCommit, bd)])).
      rewrite <- app_assoc, (app_assoc (take k effs)), take_drop. done. }
    rewrite walBytes_app, len_app in Hs. change (walBytes [_]) with (recordBytes (walRecordTransactionBegin, bd) ++ []) in Hs.
    rewrite app_nil_r in Hs. lia.
  - split_and!; [done|done|done|]. intros _. by eexists.
Qed.

(** A complete transaction applies its batch. *)
Lemma scan_transaction (d : RecoveredState) :
  applyPersistenceBatch sha256 st (b <| PB_Snapshot := None |>) identity voters = Ok d →
  scanRecords scan records = Ok (mkScan d (o + len bytes) (o + len bytes) (last + 1) None).
Proof.
  intros Hap. unfold transactionRecords. set (effs := effectRecords (last + 1) b ep).
  change ((walRecordTransactionBegin, bd) :: effs ++ [(walRecordTransactionCommit, bd)])
    with ([(walRecordTransactionBegin, bd)] ++ effs ++ [(walRecordTransactionCommit, bd)]).
  rewrite scanRecords_app, scan_begin. cbn [outcome_bind]. rewrite scanRecords_app.
  destruct (flags_facts b ep (last + 1)) as (_ & _ & _ & Hexp & Hcount).
  assert (len bytes = len (recordBytes (walRecordTransactionBegin, bd)) + len (walBytes effs) +
    len (recordBytes (walRecordTransactionCommit, bd))) as Hlen.
  { rewrite (to_bytes _ _ _ _ _ Htx). unfold transactionRecords. fold effs.
    change (walBytes (?x :: ?l)) with (recordBytes x ++ walBytes l).
    rewrite walBytes_app, !len_app. change (walBytes [?x]) with (recordBytes x ++ []).
    rewrite app_nil_r. lia. }
  pose proof (to_size _ _ _ _ _ Htx) as Hs. pose proof (len_nonneg (recordBytes (walRecordTransactionCommit, bd))).
  rewrite (scan_effects _ _ _ _ _ _ _ _ _ _ _ (b <| PB_Snapshot := None |>)).
  - cbn [outcome_bind scanRecords]. unfold RaftWAL.recoverRecord.
    cbn [WS_active AT_start AT_expected AT_effect AT_id AT_batch AT_flags AT_count WS_offset fst snd WS_state].
    rewrite (lookup_ge_None_2 (expectedRecordTypes _)) by (unfold effs; rewrite Hexp, length_fmap; lia).
    rewrite boundary_read, Hap, Hcount. cbn [outcome_bind].
    change (flagsForBatch (b <| PB_Snapshot := None |>)) with (flagsForBatch b).
    repeat rewrite Z.eqb_refl. cbn [negb orb]. rewrite (proj2 (Z.ltb_ge _ _)) by lia.
    cbn [outcome_bind]. rewrite Hlen. do 2 f_equal; lia.
  - rewrite drop_0, Hexp. done.
  - apply decodeEffects_batch; [ulia|done|apply Htx].
  - lia.
Qed.
End transaction.

(** ** Logs written by the store *)

(** The bytes, the state and the last transaction after a sequence of
    transactions.  A snapshot inside a batch is not part of the log. *)
Inductive written : list byte → RecoveredState → Z → Prop :=
| written_nil : written [] (emptyState identity) 0
| written_step wal st last b bytes st' :
    written wal st last → last < max_uint64 → batch_values b →
    encodeWALTransaction (last + 1) b = Ok bytes →
    applyPersistenceBatch sha256 st (b <| PB_Snapshot := None |>) identity voters = Ok st' →
    written (wal ++ bytes) st' (last + 1).

Abbreviation start := (mkScan (emptyState identity) 0 0 0 None).

Lemma written_last (wal : list byte) (st : RecoveredState) (last : Z) :
  written wal st last → 0 ≤ last ≤ max_uint64.
Proof. induction 1; ulia. Qed.

Lemma written_scan (wal : list byte) (st : RecoveredState) (last : Z) :
  written wal st last →
  ∃ rs, wal = walBytes rs ∧ Forall record_ok rs ∧
    scanRecords start rs = Ok (mkScan st (len wal) (len wal) last None).
Proof.
  induction 1 as [|wal st last b bytes st' Hw IH Hl Hb He Ha]; [by exists []|].
  destruct IH as (rs & -> & Hok & Hs). apply encodeWALTransaction_Ok in He as (bd & ep & Htx).
  apply written_last in Hw. pose proof (to_bytes _ _ _ _ _ Htx) as Hbytes.
  exists (rs ++ transactionRecords (last + 1) b bd ep). split_and!.
  - by rewrite walBytes_app, Hbytes.
  - apply Forall_app. split; [done|apply Htx].
  - rewrite scanRecords_app, Hs. cbn [outcome_bind]. rewrite len_app.
    eapply scan_transaction; try done; lia.
Qed.

Lemma applyPersistenceBatch_valid (st st' : RecoveredState) (b : PersistenceBatch) :
  applyPersistenceBatch sha256 st b identity voters = Ok st' →
  ValidateRecoveredState sha256 st' identity voters = Ok tt.
Proof.
  unfold applyPersistenceBatch. case_outer; [|done..]. intros Ha.
  apply applyValidated_hard in Ha as (_ & _ & _ & Hv). done.
Qed.

Lemma written_valid (wal : list byte) (st : RecoveredState) (last : Z) :
  ValidateRecoveredState sha256 (emptyState identity) identity voters = Ok tt →
  written wal st last → ValidateRecoveredState sha256 st identity voters = Ok tt.
Proof. intros Hv. induction 1; [done|by eapply applyPersistenceBatch_valid]. Qed.

(** A strict prefix of records is some complete records and a strict prefix of
    the next one. *)
Lemma prefix_records (rs : list (Z * list byte)) (pre : list byte) :
  pre `prefix_of` walBytes rs → (length pre < length (walBytes rs))%nat →
  ∃ k r p, rs !! k = Some r ∧ pre = walBytes (take k rs) ++ p ∧ p `prefix_of` recordBytes r ∧
    (length p < length (recordBytes r))%nat.
Proof.
  revert pre. induction rs as [|r rs IH]; intros pre Hpre Hlt; [simpl in Hlt; lia|].
  change (walBytes (r :: rs)) with (recordBytes r ++ walBytes rs) in *. rewrite length_app in Hlt.
  destruct (decide (length pre < length (recordBytes r))%nat) as [Hs|Hs].
  - exists O, r, pre. split_and!; try done. destruct Hpre as [suf Hpre].
    exists (drop (length pre) (recordBytes r)).
    assert (pre = take (length pre) (recordBytes r)) as Hp; [|by rewrite Hp at 1; rewrite take_drop].
    rewrite <- (take_app_le _ (walBytes rs)) by lia. by rewrite Hpre, take_app_length.
  - destruct Hpre as [suf Hpre].
    assert (pre = recordBytes r ++ drop (length (recordBytes r)) pre) as Hp.
    { rewrite <- (take_drop (length (recordBytes r)) pre) at 1. f_equal.
      rewrite <- (take_app_le _ suf) by lia. by rewrite <- Hpre, take_app_length. }
    destruct (IH (drop (length (recordBytes r)) pre)) as (k & r' & p & Hk & Hd & Hpp & Hpl).
    + exists suf. rewrite Hp, <- app_assoc in Hpre. by apply app_inv_head in Hpre.
    + rewrite length_drop. lia.
    + exists (S k), r', p. split_and!; try done. rewrite Hp, Hd.
      change (walBytes (take (S k) (r :: rs))) with (recordBytes r ++ walBytes (take k rs)).
      by rewrite <- app_assoc.
Qed.

(** What is left of a file whose last write did not complete. *)
Definition crash_cut (wal tail : list byte) : option Z :=
  if len tail =? 0 then None else Some (len wal).

Lemma recoverWAL_written (wal tail bytes : list byte) (st : RecoveredState) (last : Z)
    (b : PersistenceBatch) :
  ValidateRecoveredState sha256 (emptyState identity) identity voters = Ok tt →
  written wal st last → last < max_uint64 → batch_values b →
  encodeWALTransaction (last + 1) b = Ok bytes →
  len wal + len bytes ≤ max_int → tail `prefix_of` bytes → (length tail < length bytes)%nat →
  recoverWAL sha256 identity voters (wal ++ tail) = Ok (st, last, crash_cut wal tail).
Proof.
  intros Hempty Hw Hlast Hb He Hmax Htail Hlt.
  pose proof (written_valid _ _ _ Hempty Hw) as Hv. pose proof (written_last _ _ _ Hw) as Hl.
  destruct (written_scan _ _ _ Hw) as (rs & -> & Hok & Hs).
  apply encodeWALTransaction_Ok in He as (bd & ep & Htx). pose proof (to_bytes _ _ _ _ _ Htx) as ->.
  destruct (prefix_records _ _ Htail Hlt) as (k & r & p & Hk & -> & Hp & Hpl).
  pose proof (lookup_lt_Some _ _ _ Hk) as Hkl. pose proof (len_nonneg (walBytes rs)) as Hnn.
  destruct (scan_incomplete st (len (walBytes rs)) last b bd ep _ ltac:(lia) Hb Htx k Hkl)
    as (scan' & Hs' & Hcut & Hst & Hlt' & Hact).
  set (done := take k (transactionRecords (last + 1) b bd ep)) in *.
  assert (len (walBytes done) + len (recordBytes r) ≤ len (walBytes (transactionRecords (last + 1) b bd ep))) as Hdl.
  { rewrite <- (take_drop_middle _ _ _ Hk), walBytes_app, len_app. fold done.
    change (walBytes (r :: ?l)) with (recordBytes r ++ walBytes l). rewrite len_app.
    pose proof (len_nonneg (walBytes (drop (S k) (transactionRecords (last + 1) b bd ep)))). lia. }
  unfold recoverWAL. rewrite app_assoc, <- walBytes_app.
  destruct (recoverLoop_records (S (length (walBytes (rs ++ done) ++ p))) start scan' (rs ++ done) p)
    as [-> Hoff].
  - apply Forall_app. split; [done|]. apply Forall_take, Htx.
  - simpl. lia.
  - rewrite walBytes_app, len_app. simpl. pose proof (len_nonneg (recordBytes r)). lia.
  - lia.
  - rewrite scanRecords_app, Hs. done.
  - simpl in Hoff. rewrite walBytes_app, len_app in Hoff. cbn [RaftWAL.recoverLoop].
    unfold crash_cut. rewrite len_app. pose proof (len_nonneg (walBytes done)). pose proof (len_nonneg p).
    destruct p as [|x p].
    + rewrite Hst, Hv, Hlt', len_nil, Z.add_0_r. destruct k as [|k].
      * unfold done in *. cbn [take scanRecords] in Hs'. injection Hs' as <-. done.
      * destruct (Hact ltac:(lia)) as (tx & -> & ->). 
        case_goal; [|done]. bool_hyps. exfalso. apply len_0_nil in Heq. unfold done, transactionRecords in Heq.
        cbn [take] in Heq. change (walBytes (?y :: ?l)) with (recordBytes y ++ walBytes l) in Heq.
        apply app_eq_nil in Heq as [Heq _]. apply (f_equal length) in Heq. rewrite length_recordBytes in Heq.
        done.
    + rewrite readWALRecordAt_partial with (r := r) by
        first [done | lia | by apply (Forall_lookup_1 _ _ _ _ (to_records _ _ _ _ _ Htx) Hk)].
      cbn [outcome_bind]. rewrite Hst, Hlt', Hcut. case_goal; [|done]. bool_hyps. rewrite len_cons in *. 
      pose proof (len_nonneg p). lia.
Qed.

Lemma recoverWAL_complete (wal : list byte) (st : RecoveredState) (last : Z) :
  ValidateRecoveredState sha256 (emptyState identity) identity voters = Ok tt →
  written wal st last → len wal ≤ max_int →
  recoverWAL sha256 identity voters wal = Ok (st, last, None).
Proof.
  intros Hempty Hw Hmax. pose proof (written_valid _ _ _ Hempty Hw) as Hv.
  destruct (written_scan _ _ _ Hw) as (rs & -> & Hok & Hs). unfold recoverWAL.
  destruct (recoverLoop_records (S (length (walBytes rs))) start (mkScan st (len (walBytes rs))
    (len (walBytes rs)) last None) rs []) as [Hr _]; try done.
  - simpl. rewrite ?app_nil_r. lia.
  - rewrite app_nil_r in Hr. rewrite Hr. cbn [RaftWAL.recoverLoop length WS_state WS_active WS_lastTransaction].
    by rewrite Hv.
Qed.

(** The state of a scan is valid whatever the bytes. *)
Lemma recoverRecord_valid (scan scan' : walScan) (t next : Z) (p : list byte) :
  ValidateRecoveredState sha256 (WS_state scan) identity voters = Ok tt →
  recoverRecord scan t p next = Ok scan' →
  ValidateRecoveredState sha256 (WS_state scan') identity voters = Ok tt.
Proof.
  intros Hv. unfold RaftWAL.recoverRecord.
  destruct (applyPersistenceBatch sha256 (WS_state scan)
    (match WS_active scan with Some tx => AT_batch tx | None => PersistenceBatch_zero end) identity voters)
    as [d| | |] eqn:Hap.
  1: apply applyPersistenceBatch_valid in Hap as Hd.
  all: destruct (WS_active scan) as [tx|]; rewrite ?Hap;
    repeat (case_outer || case_goal); try (intros; discriminate); by intros [= <-].
Qed.

Lemma recoverLoop_valid (fuel : nat) (scan : walScan) (rest : list byte) (st : RecoveredState)
    (last : Z) (cut : option Z) :
  ValidateRecoveredState sha256 (WS_state scan) identity voters = Ok tt →
  recoverLoop fuel scan rest = Ok (st, last, cut) →
  ValidateRecoveredState sha256 st identity voters = Ok tt.
Proof.
  revert scan rest. induction fuel as [|fuel IH]; intros scan rest Hv; [done|].
  cbn [RaftWAL.recoverLoop]. destruct rest as [|x rest].
  { rewrite Hv. by intros [= <- <- <-]. }
  case_outer; [|done..]. destruct a as [[[t p] rest']|]; [|by intros [= <- <- <-]].
  cbv zeta. case_outer; [|done..]. apply IH. by eapply recoverRecord_valid.
Qed.
End replay_correct.

(** ** Main results *)

(** C4: Crash recovery of the write-ahead log.  A file that holds the transactions of
    the store followed by any incomplete part of a further transaction, the
    bytes a crash in the middle of a write leaves, replays to exactly the state
    after the complete transactions, and the incomplete part is cut off where it
    starts. *)
Theorem wal_crash_recovery (sha256 : list byte → list byte) (identity : StorageIdentity)
    (voters : VoterSet) (wal tail bytes : list byte) (st : RecoveredState) (last : Z)
    (b : PersistenceBatch) :
  ValidateRecoveredState sha256 (emptyState identity) identity voters = Ok tt →
  written sha256 identity voters wal st last → last < max_uint64 → batch_values b →
  encodeWALTransaction (last + 1) b = Ok bytes → len wal + len bytes ≤ max_int →
  tail `prefix_of` bytes → (length tail < length bytes)%nat →
  recoverWAL sha256 identity voters (wal ++ tail) =
  Ok (st, last, if len tail =? 0 then None else Some (len wal)).
Proof. apply recoverWAL_written. Qed.


(** ** Witnesses *)

Definition exWALBatch : PersistenceBatch :=
  mkBatch (Some (mkHardState 2 1 0)) 1 [mkEntry 1 2 EntryNoOp []] None None None.

Definition exWALBytes (id : Z) (b : PersistenceBatch) : list byte :=
  match encodeWALTransaction id b with Ok bytes => bytes | _ => [] end.

Definition exWALState : RecoveredState :=
  (emptyState exStoreIdentity) <| RS_HardState := mkHardState 2 1 0 |>
    <| RS_Entries := [mkEntry 1 2 EntryNoOp []] |>.

Lemma exWALBatch_values : batch_values exWALBatch.
Proof.
  unfold batch_values, exWALBatch. simpl. split_and!; try ulia; try done.
  constructor; [|done]. unfold entry_typed, EntryNoOp. simpl. ulia.
Qed.

Lemma exBatch_values : batch_values exBatch.
Proof.
  unfold batch_values, exBatch. simpl. split_and!; try ulia; try done.
  constructor; [|done]. unfold entry_typed, EntryCommand. simpl. ulia.
Qed.

(** One complete transaction and 40 bytes of a second one. *)
Lemma wal_crash_recovery_witness :
  recoverWAL sha256 exStoreIdentity exVoterSet (exWALBytes 1 exWALBatch ++ take 40 (exWALBytes 2 exBatch))
  = Ok (exWALState, 1, if len (take 40 (exWALBytes 2 exBatch)) =? 0 then None
                       else Some (len (exWALBytes 1 exWALBatch))).
Proof.
  apply (wal_crash_recovery sha256 exStoreIdentity exVoterSet (exWALBytes 1 exWALBatch)
    (take 40 (exWALBytes 2 exBatch)) (exWALBytes 2 exBatch) exWALState 1 exBatch).
  - vm_compute. reflexivity.
  - apply (written_step sha256 exStoreIdentity exVoterSet [] (emptyState exStoreIdentity) 0 exWALBatch
      (exWALBytes 1 exWALBatch) exWALState);
      [constructor|vm_compute; reflexivity|exact exWALBatch_values|vm_compute; reflexivity..].
  - vm_compute. reflexivity.
  - exact exBatch_values.
  - vm_compute. reflexivity.
  - vm_compute. discriminate.
  - exists (drop 40 (exWALBytes 2 exBatch)). by rewrite take_drop.
  - vm_compute. lia.
Defined.


End RaftWAL.
