(* ===== verification/RaftFileStore.v ===== *)
(** * The file store

    [store_lock_unix.go] except the scan of the WAL, which is in [RaftWAL]: a
    model of the directory the store owns, with what a power loss may undo, and
    on it every operation of [FileStore].

    A system call consults a tape of faults: it succeeds, fails with or without
    its effect, writes fewer bytes, or is the last one before a crash, after
    which every call fails without effect.  A power loss keeps, of each file, its
    present content or the content of the last sync followed by a prefix of what
    was appended since, and of the directory one of the versions since its last sync. *)

From Stdlib Require Import Ascii.
From stdpp Require Import strings.
From S2P Require Import Prelude RaftTypes RaftLog RaftVoters RaftCodec Hash RaftSnapshot RaftStorage RaftWAL.

Module RaftFileStore.
Import RaftLog RaftVoters RaftCodec Hash RaftSnapshot RaftStorage RaftWAL.
Open Scope Z_scope.

(** ** Files *)

Definition RaftLockFilename : string := "lock".
Definition RaftIdentityFilename : string := "identity".
Definition RaftWALFilename : string := "wal".
Definition RaftSnapshotFilename : string := "snapshot".
Definition raftSnapshotPreviousFilename : string := ".snapshot.previous".
Definition raftSnapshotStageFilename : string := "snapshot-stage".
Definition identityBytes : Z := 60.

(** What [os.FileInfo] tells of a path: [FI_owned] compares the owner with the
    effective user. *)
Record fileInfo := mkInfo {
  FI_isDir : bool;
  FI_isRegular : bool;
  FI_perm : Z;
  FI_owned : bool;
  FI_nlink : Z
}.

(** A file: what a reader sees, and what the last sync made durable. *)
Record osFile := mkFile {
  OF_info : fileInfo;
  OF_content : list byte;
  OF_durable : list byte
}.

(** The storage root, the directory in it and the files.  [D_older] holds the
    versions of the directory since its last sync; [D_anchored] tells that the
    parent was synced after the directory was made. *)
Record disk := mkDisk {
  D_parent : option fileInfo;
  D_directory : option fileInfo;
  D_anchored : bool;
  D_entries : gmap string Z;
  D_older : list (gmap string Z);
  D_files : gmap Z osFile;
  D_next : Z;
  D_locked : bool
}.

Inductive fault :=
| FaultNone
| FaultShort (n : nat)
| FaultFail (effect : bool) (n : nat)
| FaultCrash.

(** The system: the disk, the faults to come, and the bytes of the random source. *)
Record os := mkOS {
  OS_disk : disk;
  OS_tape : list fault;
  OS_crashed : bool;
  OS_random : list (list byte)
}.

Record fileSnapshotStage := mkFileStage {
  FSS_metadata : snapshotTransferMetadata;
  FSS_file : Z;
  FSS_nextOffset : Z
}.

(** [FileStore]; an open file is the number of its inode. *)
Record FileStore := mkFileStore {
  FS_identity : StorageIdentity;
  FS_voters : VoterSet;
  FS_snapshotLimit : Z;
  FS_directory : bool;
  FS_root : bool;
  FS_lock : option Z;
  FS_lockHeld : bool;
  FS_wal : option Z;
  FS_ops : os;
  FS_state : RecoveredState;
  FS_nextTxnID : Z;
  FS_closed : bool;
  FS_poisoned : bool;
  FS_stage : option fileSnapshotStage
}.

#[global] Instance osFile_settable : Settable osFile :=
  λ r, mkFile (OF_info r) (OF_content r) (OF_durable r).
#[global] Instance disk_settable : Settable disk :=
  λ r, mkDisk (D_parent r) (D_directory r) (D_anchored r) (D_entries r) (D_older r) (D_files r)
    (D_next r) (D_locked r).
#[global] Instance os_settable : Settable os :=
  λ r, mkOS (OS_disk r) (OS_tape r) (OS_crashed r) (OS_random r).
#[global] Instance FileStore_settable : Settable FileStore :=
  λ r, mkFileStore (FS_identity r) (FS_voters r) (FS_snapshotLimit r) (FS_directory r) (FS_root r)
    (FS_lock r) (FS_lockHeld r) (FS_wal r) (FS_ops r) (FS_state r) (FS_nextTxnID r) (FS_closed r)
    (FS_poisoned r) (FS_stage r).

Abbreviation FS A := (M FileStore error A).

(** ** System calls *)

Definition setDisk (dk : disk) (s : FileStore) : FileStore :=
  s <| FS_ops ::= (λ o, o <| OS_disk := dk |>) |>.
Abbreviation theDisk s := (OS_disk (FS_ops s)).

(** The next fault of the tape. *)
Definition nextFault : FS fault :=
  let! s := get in
  if OS_crashed (FS_ops s) then ret FaultCrash
  else match OS_tape (FS_ops s) with
       | [] => ret FaultNone
       | f :: rest =>
         put (s <| FS_ops ::= (λ o, o <| OS_tape := rest |>
                <| OS_crashed := match f with FaultCrash => true | _ => false end |>) |>) ;;!
         ret f
       end.

(** A call that reads or changes the disk by [run]. *)
Definition syscall {A} (run : disk → outcome error A * disk) : FS A :=
  let! f := nextFault in
  let! s := get in
  match f with
  | FaultCrash | FaultFail false _ => throw ErrIO
  | FaultFail true _ => put (setDisk (run (theDisk s)).2 s) ;;! throw ErrIO
  | FaultNone | FaultShort _ => put (setDisk (run (theDisk s)).2 s) ;;! lift (run (theDisk s)).1
  end.

(** A call that only reads. *)
Definition inspect {A} (read : disk → outcome error A) : FS A := syscall (λ dk, (read dk, dk)).

Definition updateFile (ino : Z) (f : osFile → osFile) (dk : disk) : disk :=
  dk <| D_files ::= alter f ino |>.

(** A new version of the directory. *)
Definition setEntries (entries : gmap string Z) (dk : disk) : disk :=
  dk <| D_entries := entries |> <| D_older := D_entries dk :: D_older dk |>.

Definition contentOf (dk : disk) (ino : Z) : list byte :=
  match D_files dk !! ino with Some f => OF_content f | None => [] end.

(** The content after [bytes] were written at a position. *)
Definition overwrite (offset : nat) (bytes content : list byte) : list byte :=
  take offset content ++ replicate (offset - length content) Byte.x00 ++ bytes ++
  drop (offset + length bytes) content.

(** [Write] at a position; a write that would pass the largest file offset is
    refused, and a fault lets only a prefix arrive. *)
Definition opWrite (ino : Z) (offset : nat) (bytes : list byte) : FS Z :=
  let! f := nextFault in
  let! s := get in
  let arrive n :=
    put (setDisk (updateFile ino (λ f, f <| OF_content ::= overwrite offset (take n bytes) |>) (theDisk s)) s) in
  if max_int <? Z.of_nat offset + len bytes then throw ErrIO
  else match f with
       | FaultCrash => throw ErrIO
       | FaultFail _ n => arrive n ;;! throw ErrIO
       | FaultShort n => arrive n ;;! ret (Z.of_nat (n `min` length bytes))
       | FaultNone => arrive (length bytes) ;;! ret (len bytes)
       end.

(** [writeAll]; every round makes progress or fails, so the fuel is the length. *)
Fixpoint writeAllLoop (fuel : nat) (ino : Z) (offset : nat) (content : list byte) : FS unit :=
  match content with
  | [] => ret tt
  | _ =>
    match fuel with
    | O => lift Blocked
    | S fuel =>
      let! written := opWrite ino offset content in
      if written =? 0 then throw ErrIO
      else writeAllLoop fuel ino (offset + Z.to_nat written) (drop (Z.to_nat written) content)
    end
  end.
Definition writeAll (ino : Z) (offset : nat) (content : list byte) : FS unit :=
  writeAllLoop (S (length content)) ino offset content.

Definition opSync (ino : Z) : FS unit :=
  syscall (λ dk, (Ok tt, updateFile ino (λ f, f <| OF_durable := OF_content f |>) dk)).
Definition opSyncDirectory : FS unit := syscall (λ dk, (Ok tt, dk <| D_older := [] |>)).
Definition opSyncParent : FS unit := syscall (λ dk, (Ok tt, dk <| D_anchored := true |>)).
Definition opClose : FS unit := inspect (λ _, Ok tt).
Definition opSeek : FS unit := inspect (λ _, Ok tt).
Definition opTruncate (ino : Z) (size : nat) : FS unit :=
  syscall (λ dk, (Ok tt, updateFile ino (λ f, f <| OF_content ::= take size |>) dk)).
Definition opRename (old new : string) : FS unit :=
  syscall (λ dk, match D_entries dk !! old with
                 | None => (Err ErrIO, dk)
                 | Some ino => (Ok tt, setEntries (<[new := ino]> (delete old (D_entries dk))) dk)
                 end).
Definition opRemove (name : string) : FS unit :=
  syscall (λ dk, match D_entries dk !! name with
                 | None => (Err ErrIO, dk)
                 | Some _ => (Ok tt, setEntries (delete name (D_entries dk)) dk)
                 end).

(** [Lstat]: the inode, its information and its size, nothing when the name is absent. *)
Definition opLstat (name : string) : FS (option (Z * fileInfo * Z)) :=
  inspect (λ dk, match D_entries dk !! name with
                 | None => Ok None
                 | Some ino => match D_files dk !! ino with
                               | Some f => Ok (Some (ino, OF_info f, len (OF_content f)))
                               | None => Err ErrIO
                               end
                 end).

Definition newFileInfo : fileInfo := mkInfo false true 384 true 1.

(** [OpenFile] with [O_CREATE|O_EXCL] and mode [0o600]. *)
Definition opCreate (name : string) : FS Z :=
  syscall (λ dk, match D_entries dk !! name with
                 | Some _ => (Err ErrIO, dk)
                 | None =>
                   let ino := D_next dk in
                   (Ok ino, setEntries (<[name := ino]> (D_entries dk))
                              (dk <| D_files ::= <[ino := mkFile newFileInfo [] []]> |>
                                  <| D_next := ino + 1 |>))
                 end).
Definition opOpen (name : string) : FS Z :=
  inspect (λ dk, match D_entries dk !! name with Some ino => Ok ino | None => Err ErrIO end).
Definition opStat (ino : Z) : FS (fileInfo * Z) :=
  inspect (λ dk, match D_files dk !! ino with
                 | Some f => Ok (OF_info f, len (OF_content f))
                 | None => Err ErrIO
                 end).
(** [ReadAt] and [io.ReadFull] of [n] bytes: fewer are an error. *)
Definition opReadAt (ino offset n : Z) : FS (list byte) :=
  inspect (λ dk, let bytes := take (Z.to_nat n) (drop (Z.to_nat offset) (contentOf dk ino)) in
                 if len bytes =? n then Ok bytes else Err ErrIO).
(** [io.ReadAll] of a file of the given size limit. *)
Definition opReadLimit (ino limit : Z) : FS (list byte) :=
  inspect (λ dk, Ok (take (Z.to_nat limit) (contentOf dk ino))).
Definition opFlock : FS unit :=
  syscall (λ dk, if D_locked dk then (Err ErrStorageLocked, dk) else (Ok tt, dk <| D_locked := true |>)).
Definition opUnlock : FS unit := syscall (λ dk, (Ok tt, dk <| D_locked := false |>)).

(** [random]: sixteen bytes. *)
Definition opRandom : FS (list byte) :=
  let! s := get in
  match OS_random (FS_ops s) with
  | [] => throw ErrIO
  | bytes :: rest =>
    put (s <| FS_ops ::= (λ o, o <| OS_random := rest |>) |>) ;;!
    if len bytes =? 16 then ret bytes else throw ErrIO
  end.

(** ** Error handling *)

(** Run [cleanup] on an error of [m], ignoring the errors of [cleanup]: a
    deferred release that the success path disarms. *)
Definition onError {A} (m : FS A) (cleanup : FS unit) : FS A := λ s,
  match m s with
  | (Err e, s') =>
    match cleanup s' with
    | (Panic, s'') => (Panic, s'')
    | (Blocked, s'') => (Blocked, s'')
    | (_, s'') => (Err e, s'')
    end
  | r => r
  end.

(** Run [m] and keep its error as a value. *)
Definition attempt (m : FS unit) : FS (option error) := λ s,
  match m s with
  | (Ok _, s') => (Ok None, s')
  | (Err e, s') => (Ok (Some e), s')
  | (Panic, s') => (Panic, s')
  | (Blocked, s') => (Blocked, s')
  end.

(** [errors.Join], represented by the class of its first error. *)
Definition joined (errs : list (option error)) : FS unit :=
  match omap id errs with [] => ret tt | e :: _ => throw e end.

(** A failure after which the outcome on the medium is unknown. *)
Definition poisoning {A} (m : FS A) : FS A :=
  onError m (modify (λ s, s <| FS_poisoned := true |>)).

(** ** Files of the store *)

Definition validateOpenedOwner (info : fileInfo) (requireSingleLink : bool) : outcome error unit :=
  if negb (FI_owned info) then Err ErrStorageCorrupt
  else if requireSingleLink && negb (FI_nlink info =? 1) then Err ErrStorageCorrupt
  else Ok tt.

Definition validateRegularFileInfo (info : fileInfo) : outcome error unit :=
  if negb (FI_isRegular info) || negb (FI_perm info =? 384) then Err ErrStorageCorrupt
  else validateOpenedOwner info true.

Definition validateDirectoryInfo (info : fileInfo) : outcome error unit :=
  if negb (FI_isDir info) || negb (FI_perm info =? 448) then Err ErrStorageCorrupt
  else validateOpenedOwner info false.

Definition validateOpenedRegularFile (ino : Z) : FS unit :=
  let! (info, _) := opStat ino in lift (validateRegularFileInfo info).

Definition openAnchoredRegularFile (name : string) (allowCreate : bool) : FS (Z * bool) :=
  let! before := opLstat name in
  match before with
  | None =>
    if negb allowCreate then throw ErrIO
    else
      let! ino := opCreate name in
      onError (validateOpenedRegularFile ino ;;! ret (ino, true)) opClose
  | Some (beforeIno, info, _) =>
    lift (validateRegularFileInfo info) ;;!
    let! ino := opOpen name in
    onError (validateOpenedRegularFile ino ;;!
             if negb (ino =? beforeIno) then throw ErrStorageCorrupt else ret (ino, false)) opClose
  end.

Definition hexDigit (n : Z) : ascii :=
  ascii_of_N (Z.to_N (if n <? 10 then 48 + n else 87 + n)).

(** [hex.EncodeToString] *)
Fixpoint hexEncode (bytes : list byte) : string :=
  match bytes with
  | [] => EmptyString
  | b :: rest =>
    String (hexDigit (byte_to_Z b / 16)) (String (hexDigit (byte_to_Z b mod 16)) (hexEncode rest))
  end.

Definition isHexDigit (c : ascii) : bool :=
  let n := Z.of_N (N_of_ascii c) in
  ((48 <=? n) && (n <=? 57)) || ((65 <=? n) && (n <=? 70)) || ((97 <=? n) && (n <=? 102)).

(** [hex.DecodeString] succeeds: an even number of hexadecimal digits. *)
Fixpoint hexDecodes (s : string) : bool :=
  match s with
  | EmptyString => true
  | String _ EmptyString => false
  | String a (String b rest) => isHexDigit a && isHexDigit b && hexDecodes rest
  end.

(** [strings.TrimPrefix] when the prefix is there. *)
Fixpoint stripPrefix (prefix s : string) : option string :=
  match prefix, s with
  | EmptyString, _ => Some s
  | String a prefix, String b s => if Ascii.eqb a b then stripPrefix prefix s else None
  | _, _ => None
  end.

Definition snapshotTemporaryPrefix : string := ".snapshot.tmp-".
Definition walTemporaryPrefix : string := ".wal.tmp-".
Definition identityTemporaryPrefix : string := ".identity.tmp-".

(** One round of [validStoreTemporaryName]: [None] goes on with the next prefix. *)
Definition temporaryWithPrefix (prefix name : string) : option bool :=
  match stripPrefix prefix name with
  | None => None
  | Some rest => if (String.length rest =? 32)%nat then Some (hexDecodes rest) else None
  end.

Definition validStoreTemporaryName (name : string) : bool :=
  match temporaryWithPrefix snapshotTemporaryPrefix name with
  | Some b => b
  | None => match temporaryWithPrefix walTemporaryPrefix name with Some b => b | None => false end
  end.

Definition newTemporaryRegularFile (prefix : string) : FS (string * Z) :=
  let! suffix := opRandom in
  let name := String.append prefix (hexEncode suffix) in
  let! ino := opCreate name in
  onError (validateOpenedRegularFile ino) opClose ;;!
  ret (name, ino).

(** ** Identity file *)

Definition identityMagic : list byte := [Byte.x52; Byte.x49; Byte.x44; Byte.x31].

Definition encodeStorageIdentity (identity : StorageIdentity) : list byte :=
  let content := identityMagic ++ be_bytes 2 (SI_FormatVersion identity) ++ SI_ClusterID identity ++
    be_bytes 2 (SI_LocalVoterID identity) ++ SI_VoterFingerprint identity in
  content ++ be_bytes 4 (crc32c content).

Definition decodeStorageIdentity (content : list byte) : outcome error StorageIdentity :=
  if negb (len content =? identityBytes) then Err ErrStorageCorrupt
  else if negb (bool_decide (take 4 content = identityMagic)) then Err ErrStorageCorrupt
  else if negb (crc32c (take 56 content) =? be_value (sub 56 60 content)) then Err ErrStorageCorrupt
  else Ok (mkStorageIdentity (be_value (sub 4 6 content)) (sub 6 22 content)
             (be_value (sub 22 24 content)) (sub 24 56 content)).

Definition createIdentity : FS unit :=
  let! s := get in
  let! suffix := opRandom in
  let temporaryName := String.append identityTemporaryPrefix (hexEncode suffix) in
  let! temporary := opCreate temporaryName in
  onError
    (onError
       (validateOpenedRegularFile temporary ;;!
        writeAll temporary 0 (encodeStorageIdentity (FS_identity s)) ;;!
        opSync temporary) opClose ;;!
     opClose ;;!
     opRename temporaryName RaftIdentityFilename)
    (opRemove temporaryName) ;;!
  opSyncDirectory.

(** ** Opening *)

Section file_store.
Context (sha256 : list byte → list byte).
(** The order in which Go ranges over a map. *)
Context (shuffle : list string → list string).

Definition isCoreName (name : string) : bool :=
  existsb (String.eqb name) [RaftLockFilename; RaftIdentityFilename; RaftWALFilename;
    RaftSnapshotFilename; raftSnapshotPreviousFilename].

Definition isStaleName (name : string) : bool :=
  validStoreTemporaryName name || String.eqb name raftSnapshotStageFilename.

(** Remove one stale temporary of an interrupted run. *)
Definition removeStale (name : string) : FS unit :=
  let! found := opLstat name in
  match found with
  | None => throw ErrIO
  | Some (_, info, _) => lift (validateRegularFileInfo info) ;;! opRemove name
  end.

Definition readIdentity : FS unit :=
  let! s := get in
  let! (file, _) := openAnchoredRegularFile RaftIdentityFilename false in
  let! persisted :=
    onError
      (let! (_, size) := opStat file in
       if negb (size =? identityBytes) then throw ErrStorageCorrupt
       else
         let! content := opReadLimit file (identityBytes + 1) in
         lift (decodeStorageIdentity content)) opClose in
  opClose ;;!
  if negb (bool_decide (persisted = FS_identity s)) then throw ErrStorageIdentityMismatch else ret tt.

Definition loadOrCreateIdentity : FS unit :=
  inspect (λ _, Ok tt) ;;!
  let! names := inspect (λ dk, Ok (map_to_list (D_entries dk)).*1) in
  opClose ;;!
  if negb (bool_decide (RaftIdentityFilename ∈ names)) then
    if negb (bool_decide (names = [RaftLockFilename])) then throw ErrStorageCorrupt else createIdentity
  else
    let stale := filter (λ name, isStaleName name = true) (shuffle names) in
    forEach stale removeStale ;;!
    (if (len stale =? 0) then ret tt else opSyncDirectory) ;;!
    if negb (forallb (λ name, isStaleName name || isCoreName name) names) then throw ErrStorageCorrupt
    else readIdentity.

Definition loadSnapshotFile (name : string) : FS (option Snapshot) :=
  let! s := get in
  let! found := opLstat name in
  match found with
  | None => ret None
  | Some (_, info, size) =>
    lift (validateRegularFileInfo info) ;;!
    let header := Z.of_nat snapshotEnvelopeHeaderBytes in
    if header + FS_snapshotLimit s <? size then throw ErrStorageCorrupt
    else
      let! (file, _) := openAnchoredRegularFile name false in
      let! content :=
        onError
          (let! head := opReadAt file 0 header in
           let stateLength :=
             be_value (sub snapshotEnvelopeStateLengthOffset snapshotEnvelopeStateChecksumOffset head) in
           if (FS_snapshotLimit s <? stateLength) || (max_int - header <? stateLength)
           then throw ErrStorageCorrupt
           else if negb (size =? header + stateLength) then throw ErrStorageCorrupt
           else
             let! payload := opReadAt file header stateLength in
             ret (head ++ payload)) opClose in
      opClose ;;!
      match DecodeSnapshotEnvelope sha256 content (FS_identity s) (FS_snapshotLimit s) with
      | Ok snapshot => ret (Some snapshot)
      | _ => throw ErrStorageCorrupt
      end
  end.

Definition openOrCreateWAL : FS Z :=
  let! (file, _) := openAnchoredRegularFile RaftWALFilename true in
  onError (opSync file ;;! opSyncDirectory) opClose ;;!
  ret file.

Definition truncateCrashTail (wal boundary : Z) : FS unit :=
  opTruncate wal (Z.to_nat boundary) ;;! opSync wal.

(** [recoverWAL]: the scan of [RaftWAL] on the bytes of the file, then the cut
    of the tail it found. *)
Definition recoverWALFile (wal : Z) : FS (RecoveredState * Z) :=
  let! s := get in
  let! _ := opStat wal in
  let! content := inspect (λ dk, Ok (contentOf dk wal)) in
  let! (state, lastTransaction, cut) :=
    lift (recoverWAL sha256 (FS_identity s) (FS_voters s) content) in
  match cut with
  | Some boundary => truncateCrashTail wal boundary
  | None => ret tt
  end ;;!
  ret (state, lastTransaction).

Definition reconcileRecoveredSnapshot (identity : StorageIdentity) (voters : VoterSet) (limit : Z)
    (state : RecoveredState) (snapshot : option Snapshot) : outcome error RecoveredState :=
  match snapshot with
  | None =>
    if negb (LastIncludedIndex (RS_SnapshotBase state) =? 0) then Err ErrStorageCorrupt else Ok state
  | Some snapshot =>
    let metadata := Snapshot_Metadata snapshot in
    let base := RS_SnapshotBase state in
    if LastIncludedIndex metadata <? LastIncludedIndex base then Err ErrStorageCorrupt
    else
      let? state :=
        if LastIncludedIndex metadata =? LastIncludedIndex base then
          if negb (bool_decide (metadata = base)) then Err ErrStorageCorrupt
          else Ok (state <| RS_Snapshot := Some snapshot |>
                         <| RS_AppliedIndex ::= (λ a, if a <? LastIncludedIndex metadata
                                                      then LastIncludedIndex metadata else a) |>)
        else match compactRecoveredState sha256 state snapshot identity voters limit with
             | Ok state => Ok state
             | _ => Err ErrStorageCorrupt
             end in
      match validateRecoveredStateWithSnapshotLimit sha256 state identity voters limit with
      | Ok _ => Ok state
      | _ => Err ErrStorageCorrupt
      end
  end.

Definition removeCandidate (name : string) (snapshot : option Snapshot) : FS unit :=
  match snapshot with None => ret tt | Some _ => opRemove name end.

Definition selectRecoveredSnapshot (state : RecoveredState) (current previous : option Snapshot) :
    FS RecoveredState :=
  let! s := get in
  let reconcile o :=
    match o with
    | None => None
    | Some _ =>
      match reconcileRecoveredSnapshot (FS_identity s) (FS_voters s) (FS_snapshotLimit s) state o with
      | Ok recovered => Some recovered
      | _ => None
      end
    end in
  match reconcile current with
  | Some recovered =>
    match previous with
    | None => ret tt
    | Some _ => opRemove raftSnapshotPreviousFilename ;;! opSyncDirectory
    end ;;! ret recovered
  | None =>
    match reconcile previous with
    | Some recovered =>
      removeCandidate RaftSnapshotFilename current ;;!
      opRename raftSnapshotPreviousFilename RaftSnapshotFilename ;;!
      opSyncDirectory ;;! ret recovered
    | None =>
      if LastIncludedIndex (RS_SnapshotBase state) =? 0 then
        removeCandidate RaftSnapshotFilename current ;;!
        removeCandidate raftSnapshotPreviousFilename previous ;;!
        (if isSome current || isSome previous then opSyncDirectory else ret tt) ;;!
        ret state
      else throw ErrStorageCorrupt
    end
  end.

(** ** Releasing *)

Definition abortFileStageLocked : FS unit :=
  let! s := get in
  match FS_stage s with
  | None => ret tt
  | Some _ =>
    put (s <| FS_stage := None |>) ;;!
    let! closeErr := attempt opClose in
    let! removeErr := attempt (opRemove raftSnapshotStageFilename) in
    let! syncErr := match removeErr with None => attempt opSyncDirectory | Some _ => ret None end in
    joined [closeErr; removeErr; syncErr]
  end.

(** [rejectFileStageLocked]; the class of the reason is kept. *)
Definition rejectFileStageLocked {A} (reason : error) : FS A :=
  attempt abortFileStageLocked ;;! throw reason.

Definition releaseOpenResources : FS unit :=
  let! e0 := attempt abortFileStageLocked in
  let! s := get in
  let! e1 := match FS_wal s with
             | None => ret None
             | Some _ => let! e := attempt opClose in modify (λ s, s <| FS_wal := None |>) ;;! ret e
             end in
  let! e2 := match FS_lock s with
             | None => ret None
             | Some _ =>
               let! eu := (if FS_lockHeld s then attempt opUnlock else ret None) in
               modify (λ s, s <| FS_lockHeld := false |>) ;;!
               let! ec := attempt opClose in
               modify (λ s, s <| FS_lock := None |>) ;;!
               ret (match eu with Some e => Some e | None => ec end)
             end in
  let! e3 := if FS_root s then let! e := attempt opClose in
                               modify (λ s, s <| FS_root := false |>) ;;! ret e else ret None in
  let! e4 := if FS_directory s then let! e := attempt opClose in
                                    modify (λ s, s <| FS_directory := false |>) ;;! ret e
             else ret None in
  joined [e0; e1; e2; e3; e4].

(** [filepath.Clean(dir) == "/"]: a rooted path whose elements cancel out;
    [depth] is the number of elements kept and [element] the one being read. *)
Definition closeElement (depth : nat) (element : string) : nat :=
  if String.eqb element "" || String.eqb element "." then depth
  else if String.eqb element ".." then (depth - 1)%nat
  else S depth.
Fixpoint cleanDepth (depth : nat) (element path : string) : nat :=
  match path with
  | EmptyString => closeElement depth element
  | String c rest =>
    if Ascii.eqb c "/" then cleanDepth (closeElement depth element) "" rest
    else cleanDepth depth (String.append element (String c EmptyString)) rest
  end.
Definition cleansToRoot (path : string) : bool :=
  match path with
  | String c rest => Ascii.eqb c "/" && (cleanDepth 0 "" rest =? 0)%nat
  | EmptyString => false
  end.

(** Make the directory, which may exist already, and sync its parent. *)
Definition anchorParent : FS unit :=
  syscall (λ dk, match D_parent dk, D_directory dk with
                 | None, _ => (Err ErrIO, dk)
                 | _, Some _ => (Ok tt, dk)
                 | _, None => (Ok tt, dk <| D_directory := Some (mkInfo true false 448 true 2) |>
                                        <| D_anchored := false |>)
                 end) ;;!
  let! parent := inspect (λ dk, match D_parent dk with Some info => Ok info | None => Err ErrIO end) in
  onError (if negb (FI_isDir parent) then throw ErrStorageCorrupt else opSyncParent) opClose ;;!
  opClose.

(** The information of the opened directory, read through its descriptor, its
    path and its anchored root. *)
Definition directoryInfo : FS fileInfo :=
  inspect (λ dk, match D_directory dk with Some info => Ok info | None => Err ErrIO end).
Definition anchorDirectory : FS unit :=
  let! info := directoryInfo in
  lift (validateDirectoryInfo info) ;;!
  let! _ := directoryInfo in
  let! pathInfo := directoryInfo in
  lift (validateDirectoryInfo pathInfo) ;;!
  inspect (λ _, Ok tt) ;;!
  modify (λ s, s <| FS_root := true |>) ;;!
  inspect (λ _, Ok tt) ;;!
  let! rootInfo := directoryInfo in
  opClose ;;!
  lift (validateDirectoryInfo rootInfo).

Definition acquireLock : FS unit :=
  let! (lock, _) := openAnchoredRegularFile RaftLockFilename true in
  modify (λ s, s <| FS_lock := Some lock |>) ;;!
  opFlock ;;!
  modify (λ s, s <| FS_lockHeld := true |>).

(** The state of the snapshot files and the log. *)
Definition recoverState : FS unit :=
  let! snapshot := loadSnapshotFile RaftSnapshotFilename in
  let! previousSnapshot := loadSnapshotFile raftSnapshotPreviousFilename in
  let! wal := openOrCreateWAL in
  modify (λ s, s <| FS_wal := Some wal |>) ;;!
  let! (state, lastTransaction) := recoverWALFile wal in
  let! state := selectRecoveredSnapshot state snapshot previousSnapshot in
  modify (λ s, s <| FS_state := state |>
                 <| FS_nextTxnID := if lastTransaction =? max_uint64 then 0 else lastTransaction + 1 |>).

Definition recoverFiles : FS unit := loadOrCreateIdentity ;;! recoverState.

(** The store before it is opened, on a system. *)
Definition unopened (identity : StorageIdentity) (voters : VoterSet) (limit : Z) (o : os) : FileStore :=
  mkFileStore identity voters limit false false None false None o (emptyState identity) 0 false false None.

Definition openFileStoreWithOptions (storageDir : string) (identity : StorageIdentity)
    (voters : VoterSet) (maxSnapshotBytes : Z) (o : os) : outcome error unit * FileStore :=
  match snapshotLimit maxSnapshotBytes with
  | Ok limit =>
    (if String.eqb storageDir "" || cleansToRoot storageDir then throw ErrStorageCorrupt
     else
       lift (ValidateRecoveredState sha256 (emptyState identity) identity voters) ;;!
       anchorParent ;;!
       inspect (λ _, Ok tt) ;;!
       modify (λ s, s <| FS_directory := true |>) ;;!
       onError (anchorDirectory ;;! acquireLock ;;! recoverFiles) releaseOpenResources)
    (unopened identity voters limit o)
  | _ => (Err ErrInvalidStorageState, unopened identity voters 0 o)
  end.

(** ** Persisting *)

Definition replacementBatchForState (state : RecoveredState) : outcome error PersistenceBatch :=
  match RS_Snapshot state with
  | None => Err ErrInvalidStorageState
  | Some snapshot =>
    if negb (bool_decide (Snapshot_Metadata snapshot = RS_SnapshotBase state))
    then Err ErrInvalidStorageState
    else
      let batch := mkBatch (Some (RS_HardState state)) 0 [] (Some (RS_SnapshotBase state))
                     (Some snapshot) (Some (RS_AppliedIndex state)) in
      if len (RS_Entries state) =? 0 then Ok batch
      else match checkedNextIndex (LastIncludedIndex (RS_SnapshotBase state)) with
           | None => Err ErrLogOverflow
           | Some next => Ok (batch <| PB_ReplaceFrom := next |> <| PB_Entries := RS_Entries state |>)
           end
  end.

(** Write the snapshot to a temporary file and move it into place, keeping the
    one it replaces under another name. *)
Definition installSnapshotFile (snapshot : Snapshot) (hadPreviousSnapshot : bool) : FS unit :=
  let! (snapshotName, snapshotFile) := newTemporaryRegularFile snapshotTemporaryPrefix in
  onError
    (onError (poisoning (writeAll snapshotFile 0 (Snapshot_envelope snapshot)) ;;!
              poisoning (opSync snapshotFile)) opClose ;;!
     poisoning opClose ;;!
     (if hadPreviousSnapshot then
        poisoning (opRename RaftSnapshotFilename raftSnapshotPreviousFilename) ;;!
        poisoning opSyncDirectory
      else ret tt) ;;!
     poisoning (opRename snapshotName RaftSnapshotFilename))
    (opRemove snapshotName) ;;!
  poisoning opSyncDirectory.

(** Replace the WAL by one transaction that holds the compacted state. *)
Definition replaceWAL (prospective : RecoveredState) : FS unit :=
  let! replacementBatch := poisoning (lift (replacementBatchForState prospective)) in
  let! replacement := poisoning (lift (encodeWALTransaction 1 replacementBatch)) in
  let! (walName, newWAL) := poisoning (newTemporaryRegularFile walTemporaryPrefix) in
  onError
    (poisoning (writeAll newWAL 0 replacement) ;;!
     poisoning (opSync newWAL) ;;!
     poisoning (opRename walName RaftWALFilename))
    (attempt opClose ;;! opRemove walName) ;;!
  onError (poisoning opSyncDirectory) opClose ;;!
  modify (λ s, s <| FS_wal := Some newWAL |>) ;;!
  poisoning opClose.

Definition persistSnapshotStateLocked (snapshot : Snapshot) (prospective : RecoveredState) : FS unit :=
  let! s := get in
  let hadPreviousSnapshot := isSome (RS_Snapshot (FS_state s)) in
  installSnapshotFile snapshot hadPreviousSnapshot ;;!
  replaceWAL prospective ;;!
  (if hadPreviousSnapshot then
     poisoning (opRemove raftSnapshotPreviousFilename) ;;!
     poisoning opSyncDirectory
   else ret tt) ;;!
  modify (λ s, s <| FS_state := prospective |> <| FS_nextTxnID := 2 |>).

(** The guards of an operation that writes. *)
Definition whileOpen {A} (m : FS A) : FS A :=
  let! s := get in if FS_closed s then throw ErrStoreClosed else m.
Definition whileSound {A} (m : FS A) : FS A :=
  whileOpen (let! s := get in if FS_poisoned s then throw ErrStorageCorrupt else m).

Definition FileStore_PersistSnapshot (snapshot : Snapshot) : FS unit :=
  whileSound
    (let! s := get in
     let! prospective := lift (compactRecoveredState sha256 (FS_state s) snapshot (FS_identity s)
                                 (FS_voters s) (FS_snapshotLimit s)) in
     persistSnapshotStateLocked snapshot prospective).

(** An open file of the store; a nil one is a nil dereference. *)
Definition openFile (o : option Z) : FS Z := match o with Some ino => ret ino | None => panic end.

Definition FileStore_Persist (batch : PersistenceBatch) : FS unit :=
  whileSound
    (let! s := get in
     lift (validatePersistenceBatchBounds batch) ;;!
     if match PB_Snapshot batch with
        | Some snapshot => FS_snapshotLimit s <? len (Snapshot_state snapshot)
        | None => false
        end
     then throw ErrInvalidStorageState
     else if FS_nextTxnID s =? 0 then throw ErrInvalidStorageState
     else
       let! prospective := lift (applyValidatedPersistenceBatch sha256 (FS_state s) batch
                                   (FS_identity s) (FS_voters s)) in
       let! encoded := lift (encodeWALTransaction (FS_nextTxnID s) batch) in
       let! wal := openFile (FS_wal s) in
       poisoning opSeek ;;!
       poisoning (writeAll wal (length (contentOf (theDisk s) wal)) encoded) ;;!
       poisoning (opSync wal) ;;!
       modify (λ s, s <| FS_state := prospective |>
                      <| FS_nextTxnID ::= (λ id, if id =? max_uint64 then 0 else id + 1) |>)).

(** ** Staging *)

(** The stage after the checks that open or continue a transfer. *)
Definition openFileStage (request : InstallSnapshotRequest) : FS fileSnapshotStage :=
  let! s := get in
  let metadata := snapshotTransferMetadataFor request in
  match FS_stage s with
  | None =>
    if negb (ISReq_Offset request =? 0) then throw ErrSnapshotRejected
    else
      let! (file, created) := openAnchoredRegularFile raftSnapshotStageFilename true in
      if negb created then attempt opClose ;;! throw ErrStorageCorrupt
      else
        onError opSyncDirectory (attempt opClose ;;! opRemove raftSnapshotStageFilename) ;;!
        let stage := mkFileStage metadata file 0 in
        modify (λ s, s <| FS_stage := Some stage |>) ;;! ret stage
  | Some stage =>
    if negb (bool_decide (FSS_metadata stage = metadata)) then rejectFileStageLocked ErrSnapshotRejected
    else ret stage
  end.

(** The [switch] on the position of the chunk; returns the next offset. *)
Definition stageFileBytes (request : InstallSnapshotRequest) (stage : fileSnapshotStage) : FS Z :=
  let offset := ISReq_Offset request in
  let nextOffset := FSS_nextOffset stage in
  let end_ := wrap64 (offset + len (ISReq_Chunk request)) in
  if offset =? nextOffset then
    poisoning opSeek ;;!
    poisoning (writeAll (FSS_file stage) (Z.to_nat nextOffset) (ISReq_Chunk request)) ;;!
    poisoning (opSync (FSS_file stage)) ;;!
    modify (λ s, s <| FS_stage := Some (mkFileStage (FSS_metadata stage) (FSS_file stage) end_) |>) ;;!
    ret end_
  else if end_ <=? nextOffset then
    if max_int <? end_ then rejectFileStageLocked ErrSnapshotRejected
    else
      let! staged := poisoning (opReadAt (FSS_file stage) offset (len (ISReq_Chunk request))) in
      if negb (bool_decide (staged = ISReq_Chunk request)) then rejectFileStageLocked ErrSnapshotRejected
      else ret nextOffset
  else rejectFileStageLocked ErrSnapshotRejected.

(** Turn a complete stage into the installed state. *)
Definition installFileStage (request : InstallSnapshotRequest) (stage : fileSnapshotStage)
    (nextOffset : Z) : FS SnapshotStageResult :=
  let! s := get in
  if max_int <? nextOffset then rejectFileStageLocked ErrSnapshotRejected
  else
    let! stateBytes := if nextOffset =? 0 then ret []
                       else poisoning (opReadAt (FSS_file stage) 0 nextOffset) in
    if negb (bool_decide (sha256 stateBytes = ISReq_Checksum request))
    then rejectFileStageLocked ErrSnapshotRejected
    else match NewSnapshot sha256 (FS_identity s) (STM_metadata (snapshotTransferMetadataFor request))
                 stateBytes (FS_snapshotLimit s) with
         | Ok snapshot =>
           if negb (bool_decide (Snapshot_ID snapshot = ISReq_SnapshotID request))
           then rejectFileStageLocked ErrSnapshotRejected
           else match installRecoveredSnapshot sha256 (FS_state s) snapshot (FS_identity s) (FS_voters s) with
                | Ok prospective =>
                  modify (λ s, s <| FS_stage := None |>) ;;!
                  poisoning opClose ;;!
                  persistSnapshotStateLocked snapshot prospective ;;!
                  poisoning (opRemove raftSnapshotStageFilename) ;;!
                  poisoning opSyncDirectory ;;!
                  ret (mkStageResult nextOffset true prospective)
                | Err e => rejectFileStageLocked e
                | Panic => panic
                | Blocked => lift Blocked
                end
         | _ => rejectFileStageLocked ErrSnapshotRejected
         end.

Definition stageResult (nextOffset : Z) : SnapshotStageResult :=
  mkStageResult nextOffset false
    (mkRecoveredState (mkStorageIdentity 0 (zero_bytes 16) 0 (zero_bytes 32)) (mkHardState 0 0 0)
       (mkSnapshotMetadata 0 0 0) None 0 []).

Definition FileStore_StageSnapshotChunk (request : InstallSnapshotRequest) : FS SnapshotStageResult :=
  whileSound
    (let! s := get in
     let limits := DefaultCodecLimits <| MaxSnapshotBytes := FS_snapshotLimit s |> in
     match validateSnapshotRequest request limits with
     | Ok _ =>
       let! stage := openFileStage request in
       let! nextOffset := stageFileBytes request stage in
       if negb (ISReq_Done request) then ret (stageResult nextOffset)
       else installFileStage request stage nextOffset
     | _ => rejectFileStageLocked ErrSnapshotRejected
     end).

Definition FileStore_AbortSnapshotStage : FS unit := whileOpen abortFileStageLocked.

Definition FileStore_Recover : FS RecoveredState :=
  whileOpen
    (let! s := get in
     lift (validateRecoveredStateWithSnapshotLimit sha256 (FS_state s) (FS_identity s) (FS_voters s)
             (FS_snapshotLimit s)) ;;!
     ret (FS_state s)).

Definition FileStore_RetainedWALBytes : FS Z :=
  whileOpen
    (let! s := get in
     let! wal := openFile (FS_wal s) in
     let! (_, size) := opStat wal in
     ret size).

Definition FileStore_Close : FS unit :=
  whileOpen (modify (λ s, s <| FS_closed := true |>) ;;! releaseOpenResources).

#[global] Instance FileStore_StableStore : StableStore FileStore := {
  SnapshotLimit := FS_snapshotLimit;
  Recover := FileStore_Recover;
  Persist := FileStore_Persist;
  StageSnapshotChunk := FileStore_StageSnapshotChunk;
  AbortSnapshotStage := FileStore_AbortSnapshotStage;
  PersistSnapshot := FileStore_PersistSnapshot;
  RetainedWALBytes := FileStore_RetainedWALBytes;
  Close := FileStore_Close
}.
End file_store.

(** ** Power loss *)

(** What may be left of a file: the content of its last sync, followed by a
    prefix of what was appended since, or its present content. *)
Definition survives (f : osFile) (content : list byte) : Prop :=
  content = OF_content f ∨ content = OF_durable f ∨
  (OF_durable f `prefix_of` content ∧ content `prefix_of` OF_content f).

(** What may be left of a disk: a version of the directory since its last sync,
    and of every file a surviving content.  The lock is gone. *)
Record after_loss (dk dk' : disk) : Prop := {
  al_parent : D_parent dk' = D_parent dk;
  al_directory : if D_anchored dk then D_directory dk' = D_directory dk else True;
  al_entries : D_entries dk' ∈ D_entries dk :: D_older dk;
  al_older : D_older dk' = [];
  al_anchored : D_anchored dk' = true;
  al_files : ∀ ino f', D_files dk' !! ino = Some f' →
    ∃ f, D_files dk !! ino = Some f ∧ OF_info f' = OF_info f ∧ OF_durable f' = OF_content f' ∧
      survives f (OF_content f');
  al_kept : ∀ ino f, D_files dk !! ino = Some f → is_Some (D_files dk' !! ino);
  al_next : D_next dk' = D_next dk;
  al_lock : D_locked dk' = false
}.

End RaftFileStore.
