(* ===== verification/RaftFileRecovery.v ===== *)
(** * What the files of the store mean

    The log and the snapshot files of [RaftFileStore] recover to a durable state:
    a log seen through the snapshot that replaces its prefix.  Batches and newer
    snapshots act on the log as they act on the state seen. *)

From stdpp Require Import strings.
From S2P Require Import Prelude RaftTypes RaftLog RaftVoters RaftCodec Hash RaftSnapshot RaftStorage RaftWAL RaftFileStore.

Module RaftFileRecovery.
Import RaftLog RaftVoters RaftCodec Hash RaftSnapshot RaftStorage RaftWAL RaftFileStore.
Open Scope Z_scope.

(** The equation that gives a result. *)
Ltac revert_result a := match goal with H : _ = Ok a |- _ => revert H end.

Lemma recovered_ext (d d' : RecoveredState) :
  RS_Identity d = RS_Identity d' → RS_HardState d = RS_HardState d' → RS_SnapshotBase d = RS_SnapshotBase d' →
  RS_Snapshot d = RS_Snapshot d' → RS_AppliedIndex d = RS_AppliedIndex d' → RS_Entries d = RS_Entries d' → d = d'.
Proof. destruct d, d'. simpl. congruence. Qed.

Section recovery.
Context (sha256 : list byte → list byte) (identity : StorageIdentity) (voters : VoterSet) (limit : Z).
Context (Hlimit : 0 ≤ limit ≤ MaxRaftSnapshotBytes).

Abbreviation wf := (recovered_wf sha256 identity voters MaxRaftSnapshotBytes).
Abbreviation wf_limit := (recovered_wf sha256 identity voters limit).
Abbreviation apply_batch d b := (applyValidatedPersistenceBatch sha256 d b identity voters).
Abbreviation reconcile := (reconcileRecoveredSnapshot sha256 identity voters limit).
Abbreviation written_to := (written sha256 identity voters).
Abbreviation index_of s := (LastIncludedIndex (Snapshot_Metadata s)).
Abbreviation term_of s := (LastIncludedTerm (Snapshot_Metadata s)).
Abbreviation base_of d := (LastIncludedIndex (RS_SnapshotBase d)).
Abbreviation commit_of d := (HardState_CommitIndex (RS_HardState d)).

(** ** A log seen from a snapshot *)

(** A snapshot that its own envelope decodes to. *)
Definition decoded (s : Snapshot) : Prop :=
  DecodeSnapshotEnvelope sha256 (Snapshot_envelope s) identity limit = Ok s.

(** The state of a log with the prefix that [s] covers replaced by [s]. *)
Definition viewed (w : RecoveredState) (s : Snapshot) : RecoveredState :=
  w <| RS_SnapshotBase := Snapshot_Metadata s |> <| RS_Snapshot := Some s |>
    <| RS_Entries ::= drop (Z.to_nat (index_of s - base_of w)) |>
    <| RS_AppliedIndex ::= (λ a, if a <? index_of s then index_of s else a) |>.

Record views (w : RecoveredState) (s : Snapshot) (d : RecoveredState) : Prop := {
  vw_state : d = viewed w s;
  vw_term : term_at (recovered_log w) (index_of s) = Some (term_of s);
  vw_commit : index_of s ≤ commit_of w;
  vw_base : index_of s = base_of w → Snapshot_Metadata s = RS_SnapshotBase w;
  vw_wf : wf_limit d
}.

Lemma wf_of_limit (d : RecoveredState) : wf_limit d → wf d.
Proof. intros H. eapply recovered_wf_mono; [| |exact H]; lia. Qed.

Lemma reconcile_views (w : RecoveredState) (s : Snapshot) (d : RecoveredState) :
  wf w → decoded s → reconcile w (Some s) = Ok d ↔ views w s d.
Proof.
  intros Hw Hs. pose proof (rw_log _ _ _ _ _ Hw) as Hlog. pose proof Hlog as [Hb Hn Ho Hc Hl Hr _ _].
  simpl in *. unfold reconcileRecoveredSnapshot. cbv zeta. split.
  - case_outer; [done|]. bool_hyps. case_outer; [|done..]. case_outer; [|done..]. intros [= <-]. destruct a0.
    assert (a = viewed w s ∧ term_at (recovered_log w) (index_of s) = Some (term_of s) ∧
      index_of s ≤ commit_of w ∧ (index_of s = base_of w → Snapshot_Metadata s = RS_SnapshotBase w))
      as (-> & Ht & Hle & Hbase).
    { revert Heq0. case_outer.
      - case_outer; [done|]. intros [= <-]. bool_hyps. unfold viewed, term_at. simpl.
        rewrite Heq2, Z.sub_diag, Z.eqb_refl. split_and!; [|done|lia|done].
        by destruct w.
      - destruct (compactRecoveredState _ _ _ _ _ _) as [d'| | |] eqn:Hcmp; [|done..]. intros [= <-].
        revert Hcmp. unfold compactRecoveredState. cbv zeta. rewrite Hs. case_outer; [done|].
        case_outer; [done|]. bool_hyps. case_outer; [absurd_bool|]. case_outer; [done|].
        case_outer; [|done..]. case_outer; [done|]. case_outer; [done|]. case_outer; [|done..].
        intros [= <-]. bool_hyps.
        match goal with H : recoveredTermAt _ _ = _ |- _ => rename H into Hta end.
        rewrite recoveredTermAt_log in Hta by done.
        destruct (term_at (recovered_log w) _) as [t|] eqn:Ht.
        2:{ destruct (_ =? 0) eqn:? in Hta; bool_hyps; [lia|done]. }
        simplify_eq. split_and!; [done|congruence|lia|lia]. }
    split; try done. apply validate_iff; [|done]. simpl. ulia.
  - intros [-> Ht Hle Hbase Hwf]. pose proof (term_at_Some_range _ _ _ Hlog Ht) as Hrange. simpl in Hrange.
    case_goal; [absurd_bool|]. bool_hyps.
    assert (validateRecoveredStateWithSnapshotLimit sha256 (viewed w s) identity voters limit = Ok tt) as Hv.
    { apply validate_iff; [|done]. simpl. ulia. }
    case_goal.
    + bool_hyps. rewrite bool_decide_true by auto. simpl.
      replace (w <| RS_Snapshot := _ |> <| RS_AppliedIndex ::= _ |>) with (viewed w s); [by rewrite Hv|].
      unfold viewed. rewrite Heq0, Z.sub_diag, (Hbase Heq0). by destruct w.
    + unfold compactRecoveredState. cbv zeta. rewrite Hs. bool_hyps.
      destruct (DecodeSnapshotEnvelope_mono sha256 identity _ limit limit s ltac:(lia) ltac:(lia) Hs) as [_ Hlen].
      rewrite !bool_decide_true by done. cbn [negb orb].
      do 3 (case_goal; [absurd_bool|]). rewrite recoveredTermAt_log, Ht by done.
      rewrite Z.eqb_refl. cbn [negb]. case_goal; [absurd_bool|]. fold (viewed w s). rewrite Hv.
      cbn [outcome_bind]. by rewrite Hv.
Qed.

(** ** Values of the Go types *)

Definition stored_typed (d : RecoveredState) : Prop :=
  is_u64 (HardState_Term (RS_HardState d)) ∧ is_u16 (HardState_VotedFor (RS_HardState d)) ∧
  is_u64 (commit_of d) ∧ metadata_typed (RS_SnapshotBase d) ∧ Forall entry_typed (RS_Entries d).

(** The entries and the payload after a batch. *)
Lemma apply_shape (d d' : RecoveredState) (b : PersistenceBatch) :
  apply_batch d b = Ok d' →
  (∃ k j tail, RS_Entries d' = take j (drop k (RS_Entries d)) ++ tail ∧ (tail = [] ∨ tail = PB_Entries b)) ∧
  (PB_Snapshot b = None → RS_Snapshot d = None → RS_Snapshot d' = None).
Proof.
  unfold applyValidatedPersistenceBatch. case_outer; [|done..]. case_outer; [|done..].
  destruct a0 as [p adv]. case_outer; [|done..]. rename a0 into q. cbv zeta. do 2 (case_outer; [|done..]).
  intros [= <-].
  assert ((∃ k, RS_Entries p = drop k (RS_Entries d)) ∧
    (PB_Snapshot b = None → RS_Snapshot d = None → RS_Snapshot p = None)) as [[k Hk] Hp].
  { revert_result (p, adv). unfold applySnapshotBase.
    case_outer; [|intros [= <- _]; split; [by exists O|done]]. cbv zeta.
    do 3 (case_outer; [done|]). case_outer; [|done..].
    match goal with |- Ok (_ <| RS_Entries := ?l |> <| _ := _ |>, _) = _ → _ => rename l into es end.
    intros [= <- _]. simpl. split; [|intros -> ->; by case_goal]. revert_result es.
    repeat (case_outer; try done); intros [= <-]; eauto; try (by exists O);
      exists (length (RS_Entries d)); by rewrite drop_all. }
  assert ((∃ j tail, RS_Entries q = take j (RS_Entries p) ++ tail ∧ (tail = [] ∨ tail = PB_Entries b)) ∧
    RS_Snapshot q = RS_Snapshot p) as [(j & tail & Hj & Htail) Hq].
  { revert_result q. unfold applyReplacement. case_outer.
    { intros [= <-]. split; [|done]. exists (length (RS_Entries p)), [].
      rewrite take_ge, app_nil_r by lia. auto. }
    cbv zeta. do 4 (case_outer; [done|]). intros [= <-]. simpl. split; eauto. }
  assert (RS_Entries a0 = RS_Entries q ∧ RS_Snapshot a0 = RS_Snapshot q) as [-> ->].
  { revert_result a0. destruct (PB_AppliedIndex b); [case_outer; [done|]|]; intros [= <-];
      by destruct (PB_HardState b). }
  rewrite Hj, Hk, Hq. split; [by exists k, j, tail|done].
Qed.

Lemma apply_typed (d d' : RecoveredState) (b : PersistenceBatch) :
  stored_typed d → batch_values b → apply_batch d b = Ok d' → stored_typed d'.
Proof.
  intros (Ht & Hv & Hc & Hm & He) (Hh & _ & Hes & Hmb & _) Ha.
  destruct (applyValidated_hard _ _ _ _ _ _ Ha) as (Eh & _ & Eb & _).
  destruct (apply_shape _ _ _ Ha) as [(k & j & tail & Hs & Htail) _].
  unfold stored_typed. rewrite Eh, Eb, Hs. split_and!.
  1-4: destruct (PB_HardState b), (PB_SnapshotBase b); simpl; naive_solver.
  apply Forall_app. split; [by apply Forall_take, Forall_drop|]. by destruct Htail as [->| ->].
Qed.

Lemma apply_checked (d d' : RecoveredState) (b : PersistenceBatch) :
  applyPersistenceBatch sha256 d b identity voters = Ok d' → apply_batch d b = Ok d'.
Proof. unfold applyPersistenceBatch. by case_outer. Qed.

Lemma written_typed (wal : list byte) (w : RecoveredState) (last : Z) :
  written_to wal w last → stored_typed w ∧ RS_Snapshot w = None ∧ len (RS_Entries w) ≤ len wal.
Proof.
  induction 1 as [|wal w last b bytes w' Hw (Ht & Hn & Hl) Hlast Hb He Ha].
  { split_and!; [|done|done]. unfold stored_typed, metadata_typed. simpl. split_and!; try ulia. constructor. }
  apply apply_checked in Ha. assert (batch_values (b <| PB_Snapshot := None |>)) as Hb' by exact Hb.
  destruct (apply_shape _ _ _ Ha) as [(k & j & tail & Hs & Htail) Hsnap].
  pose proof (transaction_entries _ _ _ Hb He). pose proof (len_nonneg bytes). rewrite len_app.
  split_and!; [by eapply apply_typed|by apply Hsnap|].
  rewrite Hs, len_app. assert (len tail ≤ len bytes) by (destruct Htail as [->| ->]; [done|exact H]).
  unfold len in *. rewrite length_take, length_drop. lia.
Qed.

(** ** The log behind a snapshot *)

Definition last_term (p : Z) (es : list Entry) : Z := default p (Entry_Term <$> last es).

Lemma terms_between_app (p top : Z) (l l' : list Entry) :
  terms_between p top (l ++ l') ↔ terms_between p top l ∧ terms_between (last_term p l) top l'.
Proof.
  revert p. induction l as [|e l IH]; intros p; simpl; [naive_solver|]. rewrite IH.
  assert (last_term p (e :: l) = last_term (Entry_Term e) l) as ->.
  { unfold last_term. destruct l; [done|]. rewrite last_cons_cons. by destruct (last (e0 :: l)) eqn:?; [|by apply last_None in Heqo]. }
  naive_solver.
Qed.

Lemma terms_between_top (p top top' : Z) (l : list Entry) :
  top ≤ top' → terms_between p top l → terms_between p top' l.
Proof. intros Ht. revert p. induction l as [|e l IH]; intros p; simpl; [done|]. intros [? ?]. split; [lia|auto]. Qed.

Section views.
Context (w : RecoveredState) (s : Snapshot) (d : RecoveredState) (Hw : wf w) (Hv : views w s d).

Abbreviation covered := (Z.to_nat (index_of s - base_of w)).

Lemma views_range : base_of w ≤ index_of s ≤ base_of w + len (RS_Entries w).
Proof. apply (term_at_Some_range (recovered_log w) _ _ (rw_log _ _ _ _ _ Hw) (vw_term _ _ _ Hv)). Qed.

Lemma views_entries :
  RS_Entries w = take covered (RS_Entries w) ++ RS_Entries d ∧ (covered ≤ length (RS_Entries w))%nat.
Proof.
  rewrite (vw_state _ _ _ Hv). simpl. rewrite take_drop. pose proof views_range. unfold len in *. split; [done|lia].
Qed.

Lemma views_last_term :
  last_term (LastIncludedTerm (RS_SnapshotBase w)) (take covered (RS_Entries w)) = term_of s.
Proof.
  pose proof views_range as Hr. pose proof (vw_term _ _ _ Hv) as Ht. unfold term_at in Ht. simpl in Ht.
  destruct (Z.eqb_spec (index_of s) (base_of w)) as [He|He].
  { simplify_eq. rewrite He, Z.sub_diag. done. }
  unfold entry_at in Ht. simpl in Ht. destruct (Z.ltb_spec (base_of w) (index_of s)); [|lia].
  apply fmap_Some in Ht as (e & He' & ->). unfold last_term.
  rewrite last_lookup, length_take, lookup_take_lt by (unfold len in *; lia).
  replace (Init.Nat.pred (Nat.min covered (length (RS_Entries w)))) with (Z.to_nat (index_of s - base_of w - 1))
    by (unfold len in *; lia).
  by rewrite He'.
Qed.

(** A later state seen from the same snapshot, put back behind it. *)
Definition unviewed (d' : RecoveredState) (applied : Z) : RecoveredState :=
  d' <| RS_SnapshotBase := RS_SnapshotBase w |> <| RS_Snapshot := None |>
     <| RS_Entries ::= app (take covered (RS_Entries w)) |> <| RS_AppliedIndex := applied |>.

Lemma unviewed_wf (d' : RecoveredState) (a : Z) :
  wf d' → RS_SnapshotBase d' = Snapshot_Metadata s →
  HardState_Term (RS_HardState d) ≤ HardState_Term (RS_HardState d') →
  base_of w ≤ a ≤ commit_of d' → wf (unviewed d' a).
Proof.
  intros Hd Hb Hle Ha. pose proof views_range as Hr. destruct views_entries as [_ Hk].
  rewrite (vw_state _ _ _ Hv) in Hle. simpl in Hle.
  pose proof Hw as [? ? ? ? ? _ Hbt [Hb0 Hnn _ _ _ _ Hc Hval] Ht _].
  pose proof Hd as [? _ _ _ _ ? _ [_ _ Ho' Hcm' _ Hr' Hc' Hval'] Ht' _]. simpl in *. rewrite Hb in *.
  assert (len (take covered (RS_Entries w)) = index_of s - base_of w) as Hlen.
  { unfold len in *. rewrite length_take. lia. }
  split; try done; simpl.
  - lia.
  - split; simpl; rewrite ?len_app, ?Hlen; try done; try lia.
    + intros i e [Hi|[Hge Hi]]%lookup_app_Some.
      * apply lookup_take_Some in Hi as [Hi _]. by apply Hc.
      * apply Hc' in Hi. rewrite Hi. unfold len in Hlen. lia.
    + apply Forall_app. split; [by apply Forall_take|done].
  - apply terms_between_app. rewrite views_last_term. split; [|done].
    eapply terms_between_top; [exact Hle|].
    rewrite <- (take_drop covered (RS_Entries w)) in Ht. by apply terms_between_app in Ht as [? _].
Qed.

Lemma viewed_unviewed (d' : RecoveredState) (a : Z) :
  (covered ≤ length (RS_Entries w))%nat → RS_SnapshotBase d' = Snapshot_Metadata s →
  RS_Snapshot d' = Some s → RS_AppliedIndex d' = a `max` index_of s → d' = viewed (unviewed d' a) s.
Proof.
  intros Hk Hb Hs Ha. apply recovered_ext; try done; simpl.
  - rewrite Ha. destruct (Z.ltb_spec a (index_of s)); lia.
  - by rewrite drop_app_length' by (rewrite length_take; lia).
Qed.

(** The new state is seen from the snapshot as it was. *)
Lemma unviewed_views (d' : RecoveredState) (a : Z) :
  wf_limit d' → RS_SnapshotBase d' = Snapshot_Metadata s → RS_Snapshot d' = Some s →
  index_of s ≤ commit_of d' → RS_AppliedIndex d' = a `max` index_of s →
  views (unviewed d' a) s d'.
Proof.
  intros Hd Hb Hs Hc Ha. destruct views_entries as [_ Hk]. pose proof (vw_term _ _ _ Hv) as Ht.
  pose proof views_range as Hr. split; try done.
  - by apply viewed_unviewed.
  - unfold term_at, entry_at in *. simpl in *. destruct (Z.eqb_spec (index_of s) (base_of w)); [done|].
    destruct (Z.ltb_spec (base_of w) (index_of s)); [|lia]. rewrite <- Ht. f_equal.
    rewrite lookup_app_l by (rewrite length_take; unfold len in *; lia). apply lookup_take_lt. lia.
  - apply (vw_base _ _ _ Hv).
Qed.
End views.

(** ** A batch on the log and on what is seen of it *)

Definition applied_ok (d : RecoveredState) (b : PersistenceBatch) : Prop :=
  match PB_AppliedIndex b with Some i => RS_AppliedIndex d ≤ i | None => True end.

Definition plain (d q : RecoveredState) (b : PersistenceBatch) : RecoveredState :=
  q <| RS_HardState := default (RS_HardState d) (PB_HardState b) |>
    <| RS_AppliedIndex := default (RS_AppliedIndex d) (PB_AppliedIndex b) |>.

Lemma apply_plain_iff (d d' : RecoveredState) (b : PersistenceBatch) :
  PB_SnapshotBase b = None →
  apply_batch d b = Ok d' ↔
  checkHardState (RS_HardState d) (PB_HardState b) = Ok tt ∧
  applyReplacement d b false = Ok (d <| RS_Entries := replaced d b |>) ∧ applied_ok d b ∧
  d' = plain d (d <| RS_Entries := replaced d b |>) b ∧
  ValidateRecoveredState sha256 d' identity voters = Ok tt.
Proof.
  intros Hb. unfold applyValidatedPersistenceBatch, applySnapshotBase, applied_ok. rewrite Hb. split.
  - case_outer; [|done..]. destruct a. cbn [outcome_bind]. case_outer; [|done..]. rename a into q.
    destruct (applyReplacement_Ok _ _ _ Heq0) as [-> _]. cbv zeta. do 2 (case_outer; [|done..]).
    intros [= <-]. destruct a0. split_and!; try done.
    + revert_result a. case_goal; [|done]. destruct (PB_HardState b); simpl; case_goal; intros; bool_hyps; done.
    + revert_result a. unfold plain. destruct (PB_AppliedIndex b); [case_outer; [done|]|]; intros [= <-];
        destruct (PB_HardState b), d; done.
  - intros (-> & Hr & Ha & -> & Hv). cbn [outcome_bind]. rewrite Hr. cbn [outcome_bind]. cbv zeta.
    unfold plain in *.
    destruct (PB_AppliedIndex b) as [i|].
    1: replace (i <? _) with false by (symmetry; apply Z.ltb_ge; by destruct (PB_HardState b)).
    all: cbn [outcome_bind]; match goal with
      |- outcome_bind (_ _ ?x _ _) _ = Ok ?y => assert (x = y) as -> by (by destruct d, (PB_HardState b))
      end; by rewrite Hv.
Qed.

Lemma replacement_views (w : RecoveredState) (s : Snapshot) (d q : RecoveredState) (b : PersistenceBatch) :
  wf w → views w s d → len (RS_Entries w) ≤ max_int → applyReplacement d b false = Ok q →
  applyReplacement w b false = Ok (w <| RS_Entries := replaced w b |>) ∧
  replaced w b = take (Z.to_nat (index_of s - base_of w)) (RS_Entries w) ++ replaced d b.
Proof.
  intros Hw Hv Hmax. destruct (views_entries w s d Hw Hv) as [He Hk]. pose proof (views_range w s d Hw Hv) as Hr.
  pose proof (wf_range _ (rw_log _ _ _ _ _ Hw)) as Hlast. pose proof (wf_nonneg _ (rw_log _ _ _ _ _ Hw)) as Hn.
  simpl in *. rewrite (vw_state _ _ _ Hv) in He |- *. unfold applyReplacement, replaced. simpl in *.
  destruct (Z.eqb_spec (PB_ReplaceFrom b) 0) as [Hz|Hz].
  { intros _. split; [|done]. by destruct w. }
  assert (len (drop (Z.to_nat (index_of s - base_of w)) (RS_Entries w)) =
    base_of w + len (RS_Entries w) - index_of s) as Hlen.
  { unfold len in *. rewrite length_drop. lia. }
  rewrite !wrap64_small, Hlen by (pose proof (len_nonneg (RS_Entries w)); ulia).
  replace (index_of s + (base_of w + len (RS_Entries w) - index_of s)) with (base_of w + len (RS_Entries w)) by lia.
  do 4 (case_outer; [done|]). intros [= <-]. bool_hyps.
  do 3 (case_goal; [exfalso; clear Heq2; ulia|]). split; [done|].
  rewrite app_assoc. f_equal.
  rewrite <- (take_drop (Z.to_nat (index_of s - base_of w)) (RS_Entries w)) at 1.
  rewrite take_app, length_take, take_take. f_equal; f_equal; unfold len in *; lia.
Qed.

(** The state that a log and the snapshot file, if any, recover to. *)
Definition seen (w : RecoveredState) (so : option Snapshot) (d : RecoveredState) : Prop :=
  match so with
  | None => base_of w = 0 ∧ d = w ∧ wf_limit d
  | Some s => decoded s ∧ views w s d
  end.

Lemma seen_wf (w : RecoveredState) (so : option Snapshot) (d : RecoveredState) : seen w so d → wf_limit d.
Proof. destruct so; [intros [_ []]|intros (_ & _ & ?)]; done. Qed.

Lemma seen_snapshot (w : RecoveredState) (so : option Snapshot) (d : RecoveredState) :
  RS_Snapshot w = None → seen w so d → RS_Snapshot d = so.
Proof. destruct so; [intros _ [_ [-> _ _ _ _]]|intros ? (_ & -> & _)]; done. Qed.

Lemma seen_hard (w : RecoveredState) (so : option Snapshot) (d : RecoveredState) :
  seen w so d → RS_HardState d = RS_HardState w.
Proof. destruct so; [intros [_ [-> _ _ _ _]]|intros (_ & -> & _)]; done. Qed.

Lemma wf_limit_same (d d' : RecoveredState) :
  wf d' → RS_Snapshot d' = RS_Snapshot d → RS_SnapshotBase d' = RS_SnapshotBase d → wf_limit d → wf_limit d'.
Proof.
  intros [] Hs Hb [_ _ _ _ _ _ _ _ _ Hd]. split; try done. unfold validateRecoveredSnapshot in *.
  by rewrite Hs, Hb.
Qed.

Lemma valid_wf (d : RecoveredState) :
  is_u64 (base_of d) → ValidateRecoveredState sha256 d identity voters = Ok tt ↔ wf d.
Proof. apply validate_iff. Qed.

Lemma wf_base_u64 (d : RecoveredState) : wf d → is_u64 (base_of d).
Proof. apply recovered_base. Qed.

Lemma seen_persist (w : RecoveredState) (so : option Snapshot) (d d' : RecoveredState) (b : PersistenceBatch) :
  wf w → RS_Snapshot w = None → len (RS_Entries w) ≤ max_int → seen w so d → PB_SnapshotBase b = None →
  apply_batch d b = Ok d' → ∃ w', apply_batch w b = Ok w' ∧ seen w' so d'.
Proof.
  intros Hw Hn Hmax Hseen Hb Ha. pose proof (seen_wf _ _ _ Hseen) as Hd.
  apply apply_plain_iff in Ha as (Hc & Hr & Happ & Heq & Hv); [|done].
  assert (wf d') as Hwf'. { apply valid_wf; [|done]. rewrite Heq. apply (wf_base_u64 d), wf_of_limit, Hd. }
  assert (wf_limit d') as Hd'. { apply (wf_limit_same d); [done|by rewrite Heq..|done]. }
  destruct so as [s|].
  2:{ destruct Hseen as (Hz & -> & _). exists d'. split; [by apply apply_plain_iff|].
      split_and!; [by rewrite Heq|done|done]. }
  destruct Hseen as [Hs Hvw]. pose proof (vw_state _ _ _ Hvw) as Ed.
  destruct (replacement_views w s d _ b Hw Hvw Hmax Hr) as [Hr' Hrep].
  set (a := default (RS_AppliedIndex w) (PB_AppliedIndex b)).
  pose proof (wf_order _ (rw_log _ _ _ _ _ Hw)) as Ho. pose proof (wf_order _ (rw_log _ _ _ _ _ Hwf')) as Ho'.
  pose proof (views_range w s d Hw Hvw) as Hrange. pose proof (vw_commit _ _ _ Hvw) as Hcm.
  pose proof (checkHardState_le _ _ Hc) as [Hle Hvote]. rewrite Ed in Hle, Hvote, Happ. simpl in *.
  assert (RS_AppliedIndex d' = a `max` index_of s ∧ base_of w ≤ a ∧ RS_AppliedIndex w ≤ a) as (Hap & Hba & Hwa).
  { subst a. rewrite Heq, Ed. unfold applied_ok in Happ. simpl in *.
    destruct (PB_AppliedIndex b) as [i|]; simpl in *; destruct (_ <? _) eqn:?; bool_hyps; lia. }
  assert (wf (unviewed w s d' a)) as Hwf''.
  { apply (unviewed_wf w s d Hw Hvw); try done; [by rewrite Heq, Ed| |lia].
    rewrite Heq, Ed. simpl. destruct Hvote as [?|[? _]]; lia. }
  exists (unviewed w s d' a). split.
  - apply apply_plain_iff; [done|]. rewrite Ed in Hc. split_and!; [done|done| | |].
    + unfold applied_ok in *. simpl in *. subst a. by destruct (PB_AppliedIndex b).
    + unfold unviewed, plain. rewrite Hrep. rewrite Heq, Ed. subst a. destruct w; simpl in *. by subst.
    + apply valid_wf; [|done]. by apply wf_base_u64.
  - split; [done|]. apply (unviewed_views w s d Hw Hvw); try done; [by rewrite Heq, Ed..|].
    rewrite Heq, Ed. simpl. lia.
Qed.

(** ** A newer snapshot *)

Lemma Decode_envelope (e : list byte) (mx : Z) (s : Snapshot) :
  DecodeSnapshotEnvelope sha256 e identity mx = Ok s → Snapshot_envelope s = e.
Proof.
  unfold DecodeSnapshotEnvelope. do 4 (case_outer; [done|]). cbv zeta. case_outer; [|done..].
  do 4 (case_outer; [done|]). by intros [= <-].
Qed.

Lemma viewed_viewed (w : RecoveredState) (s s' : Snapshot) :
  base_of w ≤ index_of s < index_of s' → viewed (viewed w s) s' = viewed w s'.
Proof.
  intros Hlt. apply recovered_ext; try done; simpl.
  - destruct (Z.ltb_spec (RS_AppliedIndex w) (index_of s)); repeat case_goal; bool_hyps; lia.
  - rewrite drop_drop. f_equal. lia.
Qed.

Lemma views_trans (w : RecoveredState) (s s' : Snapshot) (d d' : RecoveredState) :
  wf w → views w s d → views d s' d' → index_of s < index_of s' → views w s' d'.
Proof.
  intros Hw Hv [-> Ht Hc _ Hd'] Hlt. pose proof (views_range w s d Hw Hv) as Hr.
  rewrite (vw_state _ _ _ Hv) in *. split; try done.
  - apply viewed_viewed. lia.
  - rewrite <- Ht. unfold term_at, entry_at. simpl in *.
    destruct (Z.eqb_spec (index_of s') (base_of w)); [lia|].
    destruct (Z.eqb_spec (index_of s') (index_of s)); [lia|].
    destruct (Z.ltb_spec (base_of w) (index_of s')); [|lia].
    destruct (Z.ltb_spec (index_of s) (index_of s')); [|lia].
    f_equal. rewrite lookup_drop. f_equal. lia.
  - lia.
Qed.

(** Compaction of a state is what its log shows through the new snapshot. *)
Lemma seen_compact (w : RecoveredState) (so : option Snapshot) (d d' : RecoveredState) (snapshot : Snapshot) :
  wf w → seen w so d → base_of d < index_of snapshot →
  compactRecoveredState sha256 d snapshot identity voters limit = Ok d' →
  ∃ s, seen w (Some s) d' ∧ Snapshot_envelope s = Snapshot_envelope snapshot ∧ RS_Snapshot d' = Some s ∧
    RS_SnapshotBase d' = Snapshot_Metadata s.
Proof.
  intros Hw Hseen Hlt. pose proof (wf_of_limit _ (seen_wf _ _ _ Hseen)) as Hd.
  pose proof (rw_log _ _ _ _ _ Hd) as Hlog. pose proof (wf_range _ Hlog) as Hrange.
  pose proof (wf_nonneg _ Hlog) as Hn. simpl in *.
  unfold compactRecoveredState. cbv zeta. case_outer; [done|]. case_outer; [|done..]. rename a into s.
  case_outer; [done|]. case_outer; [absurd_bool|]. case_outer; [done|]. case_outer; [|done..].
  case_outer; [done|]. case_outer; [done|]. case_outer; [|done..]. intros [= <-]. bool_hyps. destruct a0.
  match goal with H : DecodeSnapshotEnvelope _ _ _ _ = _ |- _ => rename H into Hdec end.
  match goal with H : Snapshot_Metadata s = _ |- _ => rename H into Hm end.
  match goal with H : recoveredTermAt _ _ = _ |- _ => rename H into Hta end.
  pose proof (Decode_envelope _ _ _ Hdec) as He. rewrite recoveredTermAt_log in Hta by done.
  destruct (term_at (recovered_log d) (index_of snapshot)) as [t|] eqn:Ht.
  2:{ destruct (_ =? 0) eqn:? in Hta; bool_hyps; [lia|done]. }
  assert (decoded s) as Hs. { unfold decoded. by rewrite He. }
  simplify_eq. exists s. rewrite <- Hm in *. split_and!; try done.
  assert (views d s (viewed d s)) as Hv.
  { split; [done|congruence|lia|lia|]. apply validate_iff; [|done]. simpl. ulia. }
  destruct so as [s0|].
  - destruct Hseen as [_ Hv0]. eapply views_trans; [done|done|exact Hv|].
    rewrite (vw_state _ _ _ Hv0) in Hlt. done.
  - destruct Hseen as (_ & -> & _). exact Hv.
Qed.

(** A log committed short of a snapshot does not accept it. *)
Lemma reconcile_ahead (w : RecoveredState) (s : Snapshot) :
  wf w → commit_of w < index_of s → ∃ e, reconcile w (Some s) = Err e.
Proof.
  intros Hw Hlt. pose proof (wf_order _ (rw_log _ _ _ _ _ Hw)) as Ho. simpl in Ho.
  unfold reconcileRecoveredSnapshot. cbv zeta. case_goal; [absurd_bool|]. case_goal; [absurd_bool|].
  destruct (compactRecoveredState _ _ _ _ _ _) as [d'| | |] eqn:Hc; try by eexists.
  exfalso. revert Hc. unfold compactRecoveredState. cbv zeta. case_outer; [done|]. case_outer; [|done..].
  case_outer; [done|]. case_outer; [absurd_bool|]. case_outer; [done|]. absurd_bool.
Qed.

Lemma wf_nosnap (d : RecoveredState) : wf d → wf (d <| RS_Snapshot := None |>).
Proof. intros []. split; try done. Qed.

Lemma wf_snapshot_index (d : RecoveredState) (s : Snapshot) :
  wf d → RS_Snapshot d = Some s → Snapshot_Metadata s = RS_SnapshotBase d ∧ base_of d ≠ 0.
Proof.
  intros [_ _ _ _ _ _ _ _ _ H] Hs. revert H. unfold validateRecoveredSnapshot. rewrite Hs.
  case_outer; [done|]. intros _. bool_hyps. done.
Qed.

Lemma nosnap_seen (d : RecoveredState) (s : Snapshot) :
  wf_limit d → RS_Snapshot d = Some s → decoded s → seen (d <| RS_Snapshot := None |>) (Some s) d.
Proof.
  intros Hd Hs Hdec. destruct (wf_snapshot_index d s (wf_of_limit _ Hd) Hs) as [Hm Hz].
  pose proof (wf_order _ (rw_log _ _ _ _ _ Hd)) as Ho. simpl in Ho. split; [done|]. split; simpl; try done.
  - unfold viewed, set_field. destruct d as [i h b o a es]. simpl in *. subst o. rewrite Hm, Z.sub_diag.
    f_equal. case_goal; bool_hyps; [lia|done].
  - unfold term_at. simpl. by rewrite Hm, Z.eqb_refl.
  - rewrite Hm. lia.
Qed.

(** ** The replacement log *)

(** The replacement batch, without the payload that the log does not hold. *)
Definition replacement (d : RecoveredState) : PersistenceBatch :=
  mkBatch (Some (RS_HardState d)) (if len (RS_Entries d) =? 0 then 0 else base_of d + 1) (RS_Entries d)
    (Some (RS_SnapshotBase d)) None (Some (RS_AppliedIndex d)).

Lemma replacementBatch_Ok (d : RecoveredState) (b : PersistenceBatch) :
  replacementBatchForState d = Ok b → b <| PB_Snapshot := None |> = replacement d.
Proof.
  unfold replacementBatchForState, replacement, checkedNextIndex. case_outer; [|done]. case_outer; [done|].
  cbv zeta. destruct (Z.eqb_spec (len (RS_Entries d)) 0) as [->%len_0_nil|].
  - by intros [= <-].
  - destruct (base_of d =? max_uint64); [done|]. by intros [= <-].
Qed.

Section replacement.
Context (d : RecoveredState) (Hd : wf d) (Ht : stored_typed d) (Hz : base_of d ≠ 0).

Lemma replacement_base :
  applySnapshotBase (emptyState identity) (replacement d) =
  Ok ((emptyState identity) <| RS_SnapshotBase := RS_SnapshotBase d |>, true).
Proof.
  destruct (rw_log _ _ _ _ _ Hd) as [_ Hn Ho _ _ _ _ _]. simpl in *.
  unfold applySnapshotBase. simpl. rewrite Z.sub_0_r. change (len []) with 0.
  rewrite (proj2 (Z.ltb_ge (base_of d) 0)), (proj2 (Z.eqb_neq (base_of d) 0)) by lia. simpl.
  assert ((if 0 <? commit_of d then commit_of d else 0) = commit_of d) as ->
    by (destruct (Z.ltb_spec 0 (commit_of d)); lia).
  rewrite (proj2 (Z.ltb_ge (commit_of d) (base_of d))), (proj2 (Z.ltb_lt 0 (base_of d))),
    (proj2 (Z.leb_gt (base_of d) 0)) by lia.
  simpl. by case_goal.
Qed.

Lemma replacement_entries :
  applyReplacement ((emptyState identity) <| RS_SnapshotBase := RS_SnapshotBase d |>) (replacement d) true =
  Ok ((emptyState identity) <| RS_SnapshotBase := RS_SnapshotBase d |> <| RS_Entries := RS_Entries d |>).
Proof.
  destruct (rw_log _ _ _ _ _ Hd) as [_ Hn Ho _ _ Hr Hc _]. simpl in *.
  unfold applyReplacement. simpl. destruct (Z.eqb_spec (len (RS_Entries d)) 0) as [->%len_0_nil|Hne]; [done|].
  pose proof (len_nonneg (RS_Entries d)). destruct (Z.eqb_spec (base_of d + 1) 0); [lia|].
  assert (checkedNextIndex (base_of d) = Some (base_of d + 1)) as ->.
  { unfold checkedNextIndex. destruct (Z.eqb_spec (base_of d) max_uint64); [ulia|done]. }
  change (len []) with 0. rewrite Z.eqb_refl, Z.add_0_r, wrap64_small by ulia.
  do 3 (case_goal; [exfalso; ulia|]).
  replace (base_of d + 1 - base_of d - 1) with 0 by lia.
  destruct (RS_Entries d) as [|e es] eqn:He; [done|]. rewrite (Hc 0%nat e eq_refl). simpl.
  rewrite (proj2 (Z.eqb_eq _ _)) by lia. done.
Qed.

Lemma replacement_apply :
  apply_batch (emptyState identity) (replacement d) = Ok (d <| RS_Snapshot := None |>).
Proof.
  destruct (rw_log _ _ _ _ _ Hd) as [_ Hn Ho _ _ _ _ _]. simpl in *. destruct Ht as (Hterm & _).
  unfold applyValidatedPersistenceBatch.
  assert (checkHardState (RS_HardState (emptyState identity)) (PB_HardState (replacement d)) = Ok tt) as ->.
  { simpl. case_goal; [exfalso; ulia|]. by rewrite andb_false_r. }
  cbn [outcome_bind]. rewrite replacement_base. cbn [outcome_bind]. rewrite replacement_entries.
  simpl. rewrite (proj2 (Z.ltb_ge (RS_AppliedIndex d) 0)) by lia. cbn [outcome_bind].
  match goal with |- outcome_bind (_ _ ?x _ _) _ = Ok ?y => assert (x = y) as -> end.
  { rewrite <- (rw_identity _ _ _ _ _ Hd). by destruct d. }
  match goal with |- outcome_bind ?v _ = _ => assert (v = Ok tt) as ->; [|done] end.
  apply valid_wf; [exact (wf_base_u64 d Hd)|exact (wf_nosnap d Hd)].
Qed.
End replacement.

Lemma bounds_nosnap (b : PersistenceBatch) :
  isSome (PB_HardState b) = true → validatePersistenceBatchBounds b = Ok tt →
  validatePersistenceBatchBounds (b <| PB_Snapshot := None |>) = Ok tt.
Proof.
  intros Hh. unfold validatePersistenceBatchBounds. simpl. rewrite Hh. cbn [negb andb].
  do 2 (case_outer; [done|]). done.
Qed.

Lemma replacement_written (d : RecoveredState) (s : Snapshot) (b : PersistenceBatch) (bytes : list byte) :
  wf d → stored_typed d → RS_Snapshot d = Some s → replacementBatchForState d = Ok b →
  encodeWALTransaction 1 b = Ok bytes → written_to bytes (d <| RS_Snapshot := None |>) 1.
Proof.
  intros Hd Ht Hs Hb He. destruct (wf_snapshot_index d s Hd Hs) as [_ Hz].
  pose proof (rw_log _ _ _ _ _ Hd) as [_ Hn Ho Hcm _ Hr _ _]. simpl in *.
  apply replacementBatch_Ok in Hb as Hrep. destruct Ht as (Ht1 & Ht2 & Ht3 & Ht4 & Ht5).
  assert (batch_values b) as Hbv.
  { assert (batch_values (replacement d)) as Hv; [|by rewrite <- Hrep in Hv].
    unfold batch_values. simpl. split_and!; try done; try ulia.
    destruct (Z.eqb_spec (len (RS_Entries d)) 0); [ulia|]. pose proof (len_nonneg (RS_Entries d)). ulia. }
  rewrite <- (app_nil_l bytes). change 1 with (0 + 1).
  eapply (written_step sha256 identity voters [] (emptyState identity) 0 b); try done; [constructor|].
  rewrite Hrep. unfold applyPersistenceBatch.
  assert (validatePersistenceBatchBounds (replacement d) = Ok tt) as ->.
  { rewrite <- Hrep. apply bounds_nosnap.
    - by assert (isSome (PB_HardState (b <| PB_Snapshot := None |>)) = true) by (by rewrite Hrep).
    - revert He. unfold encodeWALTransaction. case_outer; [done|]. case_outer; [|done..]. by destruct a. }
  cbn [outcome_bind]. by apply replacement_apply.
Qed.

(** ** The state that the files select *)

Definition accepted (w : RecoveredState) (o : option Snapshot) : option RecoveredState :=
  match o with
  | None => None
  | Some _ => match reconcile w o with Ok d => Some d | _ => None end
  end.

Definition pick (w : RecoveredState) (current previous : option Snapshot) : option RecoveredState :=
  match accepted w current with
  | Some d => Some d
  | None => match accepted w previous with
            | Some d => Some d
            | None => if base_of w =? 0 then Some w else None
            end
  end.

Lemma accepted_seen (w : RecoveredState) (s : Snapshot) (d : RecoveredState) :
  wf w → seen w (Some s) d → accepted w (Some s) = Some d.
Proof. intros Hw [Hs Hv]. unfold accepted. by rewrite (proj2 (reconcile_views w s d Hw Hs) Hv). Qed.

Lemma pick_current (w : RecoveredState) (s : Snapshot) (o : option Snapshot) (d : RecoveredState) :
  wf w → seen w (Some s) d → pick w (Some s) o = Some d.
Proof. intros Hw Hv. unfold pick. by rewrite (accepted_seen w s d). Qed.

Lemma pick_previous (w : RecoveredState) (c o : option Snapshot) (d : RecoveredState) :
  wf w → accepted w c = None → seen w o d → pick w c o = Some d.
Proof.
  intros Hw Hc Hv. unfold pick. rewrite Hc. destruct o as [s|].
  - by rewrite (accepted_seen w s d).
  - destruct Hv as (Hz & -> & _). simpl. by rewrite Hz.
Qed.

Lemma pick_only (w : RecoveredState) (o : option Snapshot) (d : RecoveredState) :
  wf w → seen w o d → pick w o None = Some d.
Proof.
  intros Hw Hv. destruct o; [by apply pick_current|]. by apply pick_previous.
Qed.

(** ** Bytes of the log *)

(** A log whose last transaction may be torn. *)
Definition log_bytes (c : list byte) (w : RecoveredState) (last : Z) : Prop :=
  ∃ pre tail, c = pre ++ tail ∧ written_to pre w last ∧ len c ≤ max_int ∧
    (tail = [] ∨ ∃ b bytes, last < max_uint64 ∧ batch_values b ∧ encodeWALTransaction (last + 1) b = Ok bytes ∧
       len pre + len bytes ≤ max_int ∧ tail `prefix_of` bytes ∧ (length tail < length bytes)%nat).

Context (Hempty : ValidateRecoveredState sha256 (emptyState identity) identity voters = Ok tt).

Lemma written_wf (c : list byte) (w : RecoveredState) (last : Z) : written_to c w last → wf w.
Proof.
  intros Hw. apply valid_wf; [|by eapply written_valid].
  destruct (written_typed _ _ _ Hw) as [(_ & _ & _ & [? _] & _) _]. done.
Qed.

Lemma log_bytes_recover (c : list byte) (w : RecoveredState) (last : Z) :
  log_bytes c w last →
  ∃ cut, recoverWAL sha256 identity voters c = Ok (w, last, cut) ∧
    written_to (match cut with None => c | Some n => take (Z.to_nat n) c end) w last.
Proof.
  intros (pre & tail & -> & Hw & Hmax & [->|(b & bytes & Hl & Hb & He & Hm & Hp & Hlt)]).
  - exists None. rewrite app_nil_r in *. split; [by apply recoverWAL_complete|done].
  - exists (crash_cut pre tail). split; [by eapply recoverWAL_written|]. unfold crash_cut.
    case_goal; bool_hyps.
    + apply len_0_nil in Heq as ->. by rewrite app_nil_r.
    + unfold len. by rewrite Nat2Z.id, take_app_length.
Qed.

Lemma log_bytes_wf (c : list byte) (w : RecoveredState) (last : Z) :
  log_bytes c w last → wf w ∧ RS_Snapshot w = None ∧ stored_typed w ∧ len (RS_Entries w) ≤ max_int.
Proof.
  intros (pre & tail & -> & Hw & Hmax & _). destruct (written_typed _ _ _ Hw) as (Ht & Hn & Hl).
  rewrite len_app in Hmax. pose proof (len_nonneg tail). split_and!; try done; [by eapply written_wf|lia].
Qed.

Lemma written_log_bytes (c : list byte) (w : RecoveredState) (last : Z) :
  written_to c w last → len c ≤ max_int → log_bytes c w last.
Proof. intros Hw Hm. exists c, []. rewrite app_nil_r. auto. Qed.
End recovery.
End RaftFileRecovery.
