(* ===== verification/RaftFileStoreInv.v ===== *)
(** * The file store keeps its contract

    The invariant of a recoverable directory, and that every operation of
    [RaftFileStore], whatever fails or is lost at any system call, leaves a
    directory that recovers to the state before it or to the state after it. *)

From stdpp Require Import strings.
From S2P Require Import Prelude RaftTypes RaftLog RaftVoters RaftCodec Hash RaftSnapshot RaftStorage RaftWAL RaftFileStore RaftFileRecovery.

Module RaftFileStoreInv.
Import RaftLog RaftVoters RaftCodec Hash RaftSnapshot RaftStorage RaftWAL RaftFileStore RaftFileRecovery.
Open Scope Z_scope.

(** ** Names *)

Lemma stale_not_core (n : string) : isStaleName n = true → isCoreName n = false.
Proof.
  intros Hs. destruct (isCoreName n) eqn:Hc; [|done]. exfalso. unfold isCoreName in Hc.
  apply existsb_exists in Hc as (c & Hc & ->%String.eqb_eq). simpl in Hc.
  repeat destruct Hc as [<-|Hc]; try done; revert Hs; vm_compute; discriminate.
Qed.

Lemma hexDigit_hex (n : Z) : 0 ≤ n < 16 → isHexDigit (hexDigit n) = true.
Proof.
  intros Hn. assert (forallb (λ k, isHexDigit (hexDigit (Z.of_nat k))) (seq 0 16) = true) as H by reflexivity.
  rewrite forallb_forall in H. rewrite <- (Z2Nat.id n) by lia. apply H, in_seq. lia.
Qed.

Lemma hexEncode_ok (l : list byte) :
  hexDecodes (hexEncode l) = true ∧ String.length (hexEncode l) = (2 * length l)%nat.
Proof.
  induction l as [|b l [IH1 IH2]]; [done|]. cbn [hexEncode hexDecodes String.length length].
  pose proof (byte_to_Z_range b). rewrite IH1, IH2.
  rewrite !hexDigit_hex by (try apply Z.mod_pos_bound; try (split; [apply Z.div_pos|apply Z.div_lt_upper_bound]); lia).
  split; [done|lia].
Qed.

Lemma stripPrefix_append (p s : string) : stripPrefix p (String.append p s) = Some s.
Proof. induction p as [|a p IH]; [done|]. simpl. by rewrite Ascii.eqb_refl. Qed.

(** The names of temporaries are recognised when a store is opened again. *)
Lemma temporary_name (prefix : string) (suffix : list byte) :
  prefix = snapshotTemporaryPrefix ∨ prefix = walTemporaryPrefix → length suffix = 16%nat →
  isStaleName (String.append prefix (hexEncode suffix)) = true.
Proof.
  intros Hp Hl. destruct (hexEncode_ok suffix) as [Hd Hn]. unfold isStaleName. apply orb_true_iff. left.
  unfold validStoreTemporaryName, temporaryWithPrefix. destruct Hp as [->| ->].
  - rewrite stripPrefix_append, Hn, Hl, Hd. done.
  - replace (stripPrefix snapshotTemporaryPrefix _) with (@None string) by done.
    rewrite stripPrefix_append, Hn, Hl, Hd. done.
Qed.

(** ** The directory *)

(** The inodes of the four files that carry the state. *)
Record core_files := mkFiles {
  CF_identity : option Z;
  CF_wal : option Z;
  CF_snapshot : option Z;
  CF_previous : option Z
}.

Definition core_of (v : gmap string Z) : core_files :=
  mkFiles (v !! RaftIdentityFilename) (v !! RaftWALFilename) (v !! RaftSnapshotFilename)
    (v !! raftSnapshotPreviousFilename).

Definition uses (c : core_files) (ino : Z) : Prop :=
  CF_identity c = Some ino ∨ CF_wal c = Some ino ∨ CF_snapshot c = Some ino ∨ CF_previous c = Some ino.

(** A change of a name outside the four files. *)
Definition inert (n : string) : Prop := isStaleName n = true ∨ n = RaftLockFilename.

Lemma inert_known (n : string) : inert n → (isStaleName n || isCoreName n) = true.
Proof. intros [->| ->]; [done|by rewrite orb_true_r]. Qed.

Lemma core_of_inert (v v' : gmap string Z) (n : string) :
  inert n → (∀ m, m ≠ n → v' !! m = v !! m) → core_of v' = core_of v.
Proof.
  intros Hn Hv. assert (∀ c, isCoreName c = true → c ≠ RaftLockFilename → v' !! c = v !! c) as Hc.
  { intros c Hc Hl. apply Hv. intros ->. destruct Hn as [Hn%stale_not_core| ->]; congruence. }
  unfold core_of. by rewrite !Hc.
Qed.

(** Names that move. *)
Ltac solve_core := unfold core_of; simpl; f_equal; by rewrite ?lookup_insert_eq, ?lookup_insert_ne, ?lookup_delete_eq, ?lookup_delete_ne by done.

Lemma core_delete_stale (v : gmap string Z) (n : string) : isStaleName n = true → core_of (delete n v) = core_of v.
Proof. intros Hn. apply (core_of_inert _ _ n); [by left|]. intros m Hm. by rewrite lookup_delete_ne. Qed.

Lemma core_put_snapshot (v : gmap string Z) (n : string) (t : Z) :
  isStaleName n = true →
  core_of (<[RaftSnapshotFilename := t]> (delete n v)) =
  mkFiles (CF_identity (core_of v)) (CF_wal (core_of v)) (Some t) (CF_previous (core_of v)).
Proof. intros Hn. rewrite <- (core_delete_stale v n Hn). solve_core. Qed.

Lemma core_put_wal (v : gmap string Z) (n : string) (t : Z) :
  isStaleName n = true →
  core_of (<[RaftWALFilename := t]> (delete n v)) =
  mkFiles (CF_identity (core_of v)) (Some t) (CF_snapshot (core_of v)) (CF_previous (core_of v)).
Proof. intros Hn. rewrite <- (core_delete_stale v n Hn). solve_core. Qed.

Lemma core_demote (v : gmap string Z) (t : Z) :
  core_of (<[raftSnapshotPreviousFilename := t]> (delete RaftSnapshotFilename v)) =
  mkFiles (CF_identity (core_of v)) (CF_wal (core_of v)) None (Some t).
Proof. solve_core. Qed.

Lemma core_restore (v : gmap string Z) (t : Z) :
  core_of (<[RaftSnapshotFilename := t]> (delete raftSnapshotPreviousFilename v)) =
  mkFiles (CF_identity (core_of v)) (CF_wal (core_of v)) (Some t) None.
Proof. solve_core. Qed.

Lemma core_drop_previous (v : gmap string Z) :
  core_of (delete raftSnapshotPreviousFilename v) =
  mkFiles (CF_identity (core_of v)) (CF_wal (core_of v)) (CF_snapshot (core_of v)) None.
Proof. solve_core. Qed.

Lemma core_drop_snapshot (v : gmap string Z) :
  core_of (delete RaftSnapshotFilename v) =
  mkFiles (CF_identity (core_of v)) (CF_wal (core_of v)) None (CF_previous (core_of v)).
Proof. solve_core. Qed.

Definition regular (dk : disk) (ino : Z) : Prop :=
  ∃ f, D_files dk !! ino = Some f ∧ validateRegularFileInfo (OF_info f) = Ok tt.

(** A file whose content is durable. *)
Definition fixed (dk : disk) (ino : Z) (content : list byte) : Prop :=
  ∃ f, D_files dk !! ino = Some f ∧ OF_content f = content ∧ OF_durable f = content.

(** The names the store knows, each of a regular file of its own. *)
Record names_ok (dk : disk) (v : gmap string Z) : Prop := {
  no_each : map_Forall (λ n ino, (isStaleName n || isCoreName n) = true ∧ regular dk ino ∧ ino < D_next dk) v;
  no_distinct : ∀ n m ino, v !! n = Some ino → v !! m = Some ino → n = m
}.

Definition anchored (dk : disk) : Prop :=
  (∃ p, D_parent dk = Some p ∧ FI_isDir p = true) ∧
  (∃ i, D_directory dk = Some i ∧ validateDirectoryInfo i = Ok tt) ∧ D_anchored dk = true.

(** Every version of the directory that a loss of power may leave. *)
Definition versions (dk : disk) (P : core_files → Prop) : Prop :=
  anchored dk ∧ ∀ v, v ∈ D_entries dk :: D_older dk → names_ok dk v ∧ P (core_of v).

Lemma versions_mono (dk : disk) (P P' : core_files → Prop) :
  (∀ c, P c → P' c) → versions dk P → versions dk P'.
Proof. intros HP [Ha Hv]. split; [done|]. intros v Hin. destruct (Hv v Hin). auto. Qed.

Lemma versions_now (dk : disk) (P : core_files → Prop) :
  versions dk P → names_ok dk (D_entries dk) ∧ P (core_of (D_entries dk)).
Proof. intros [_ Hv]. apply Hv. by left. Qed.

Lemma names_ok_files (dk dk' : disk) (v : gmap string Z) :
  (∀ ino, regular dk ino → regular dk' ino) → D_next dk ≤ D_next dk' → names_ok dk v → names_ok dk' v.
Proof.
  intros Hf Hn [H Hd]. split; [|done]. intros n ino Hin. destruct (H n ino Hin) as (? & ? & ?).
  split_and!; auto. lia.
Qed.

Lemma names_ok_same (dk dk' : disk) (v : gmap string Z) :
  D_files dk' = D_files dk → D_next dk' = D_next dk → names_ok dk v → names_ok dk' v.
Proof. intros Hf Hn. apply names_ok_files; [|lia]. intros ino. unfold regular. by rewrite Hf. Qed.

Lemma versions_sync (dk : disk) (P : core_files → Prop) :
  versions dk P → versions (dk <| D_older := [] |>) (λ c, c = core_of (D_entries dk)).
Proof.
  intros [Ha Hv]. split; [done|]. simpl. intros v [->|[]%elem_of_nil]%elem_of_cons.
  split; [|done]. apply (names_ok_same dk); [done..|]. apply Hv. by left.
Qed.

Lemma versions_update (dk : disk) (P : core_files → Prop) (ino : Z) (f : osFile → osFile) :
  (∀ o, OF_info (f o) = OF_info o) → versions dk P → versions (updateFile ino f dk) P.
Proof.
  intros Hf [Ha Hv]. split; [done|]. intros v Hin. destruct (Hv v Hin) as [Hn Hp]. split; [|done].
  revert Hn. apply names_ok_files; [|done]. intros i (o & Ho & Hi). unfold regular. simpl.
  destruct (decide (i = ino)) as [->|].
  - exists (f o). by rewrite lookup_alter_eq, Ho, Hf.
  - exists o. by rewrite lookup_alter_ne.
Qed.

Lemma versions_set (dk : disk) (P : core_files → Prop) (v : gmap string Z) :
  names_ok dk v → versions dk P → versions (setEntries v dk) (λ c, P c ∨ c = core_of v).
Proof.
  intros Hv [Ha H]. split; [done|]. simpl. intros v' [->|Hin]%elem_of_cons.
  - split; [by apply (names_ok_same dk)|by right].
  - destruct (H v' Hin). split; [by apply (names_ok_same dk)|by left].
Qed.

Lemma names_ok_insert (dk : disk) (v : gmap string Z) (n : string) (ino : Z) :
  (isStaleName n || isCoreName n) = true → regular dk ino → ino < D_next dk → names_ok dk v →
  (∀ m, v !! m = Some ino → m = n) → names_ok dk (<[n := ino]> v).
Proof.
  intros Hn Hr Hl [H Hd] Hi. split; [by apply map_Forall_insert_2|]. intros m k j.
  destruct (decide (m = n)) as [->|Hm], (decide (k = n)) as [->|Hk];
    rewrite ?lookup_insert_eq, ?lookup_insert_ne by done; try done.
  - intros [= <-] Hj. symmetry. auto.
  - intros Hj [= <-]. auto.
  - apply Hd.
Qed.

Lemma names_ok_delete (dk : disk) (v : gmap string Z) (n : string) : names_ok dk v → names_ok dk (delete n v).
Proof.
  intros [H Hd]. split; [by apply map_Forall_delete|].
  intros m k j [_ Hm]%lookup_delete_Some [_ Hk]%lookup_delete_Some. by apply (Hd m k j).
Qed.

(** A rename moves the inode from one name to another. *)
Lemma names_ok_rename (dk : disk) (v : gmap string Z) (old new : string) (ino : Z) :
  v !! old = Some ino → (isStaleName new || isCoreName new) = true → names_ok dk v →
  names_ok dk (<[new := ino]> (delete old v)).
Proof.
  intros Ho Hn H. destruct (no_each _ _ H old ino Ho) as (_ & ? & ?).
  apply names_ok_insert; try done; [by apply names_ok_delete|].
  intros m [Hm Hj]%lookup_delete_Some. destruct Hm. symmetry. by apply (no_distinct _ _ H m old ino).
Qed.

(** A new empty file. *)
Definition created (name : string) (dk : disk) : disk :=
  setEntries (<[name := D_next dk]> (D_entries dk))
    (dk <| D_files ::= <[D_next dk := mkFile newFileInfo [] []]> |> <| D_next := D_next dk + 1 |>).

Lemma created_regular (name : string) (dk : disk) : regular (created name dk) (D_next dk).
Proof. exists (mkFile newFileInfo [] []). simpl. by rewrite lookup_insert_eq. Qed.

Lemma versions_create (dk : disk) (P : core_files → Prop) (name : string) :
  (isStaleName name || isCoreName name) = true → versions dk P →
  versions (created name dk) (λ c, P c ∨ c = core_of (<[name := D_next dk]> (D_entries dk))).
Proof.
  intros Hn [Ha Hv]. set (dk1 := dk <| D_files ::= <[D_next dk := mkFile newFileInfo [] []]> |> <| D_next := D_next dk + 1 |>).
  assert (∀ v, names_ok dk v → names_ok dk1 v) as Hmono.
  { intros v [Hok Hd]. split; [|done]. intros n ino Hin.
    destruct (Hok n ino Hin) as (? & (f & Hf & Hi) & Hl). subst dk1. simpl. split_and!; [done| |lia]. exists f. simpl. by rewrite lookup_insert_ne by lia. }
  assert (versions dk1 P) as H1.
  { split; [done|]. intros v Hin. destruct (Hv v Hin). auto. }
  assert (names_ok dk (D_entries dk)) as Hnow by (apply Hv; by left).
  apply (versions_set dk1); [|done]. apply names_ok_insert; [done| |subst dk1; simpl; lia|by apply Hmono|].
  - exists (mkFile newFileInfo [] []). subst dk1. simpl. by rewrite lookup_insert_eq.
  - intros m Hm. destruct (no_each _ _ Hnow m _ Hm) as (_ & _ & ?). lia.
Qed.

(** ** Programs under faults *)

(** No fault is to come. *)
Definition clean (o : os) : Prop := OS_tape o = [] ∧ OS_crashed o = false.

Definition withOS (s : FileStore) (o : os) : FileStore :=
  mkFileStore (FS_identity s) (FS_voters s) (FS_snapshotLimit s) (FS_directory s) (FS_root s)
    (FS_lock s) (FS_lockHeld s) (FS_wal s) o (FS_state s) (FS_nextTxnID s) (FS_closed s)
    (FS_poisoned s) (FS_stage s).

(** ** Writing *)

Definition setContent (ino : Z) (content : list byte) (dk : disk) : disk :=
  updateFile ino (λ f, f <| OF_content := content |>) dk.

Lemma updateFile_ext (dk dk' : disk) (ino : Z) (g g' : osFile → osFile) :
  dk' <| D_files := ∅ |> = dk <| D_files := ∅ |> → alter g ino (D_files dk) = alter g' ino (D_files dk') →
  updateFile ino g dk = updateFile ino g' dk'.
Proof. destruct dk, dk'. cbv. intros [=] ?. congruence. Qed.

Lemma updateFile_content (dk : disk) (ino : Z) (f : osFile) (g : list byte → list byte) :
  D_files dk !! ino = Some f →
  updateFile ino (λ f, f <| OF_content ::= g |>) dk = setContent ino (g (OF_content f)) dk.
Proof.
  intros Hf. apply updateFile_ext; [done|]. apply alter_ext.
  intros f' Hf'. rewrite Hf in Hf'. by injection Hf' as <-.
Qed.

Lemma setContent_same (dk : disk) (ino : Z) (f : osFile) :
  D_files dk !! ino = Some f → setContent ino (OF_content f) dk = dk.
Proof.
  intros Hf. transitivity (updateFile ino id dk).
  - apply updateFile_ext; [done|]. apply alter_ext. intros f'. rewrite Hf. intros [= <-]. by destruct f.
  - destruct dk. cbv [updateFile set_field]. cbn. f_equal. by apply alter_id.
Qed.

Lemma setContent_twice (dk : disk) (ino : Z) (c c' : list byte) :
  setContent ino c' (setContent ino c dk) = setContent ino c' dk.
Proof.
  apply updateFile_ext; [done|]. apply map_eq. intros i. destruct (decide (i = ino)) as [->|Hi]; simpl.
  - rewrite !lookup_alter_eq. by destruct (D_files dk !! ino).
  - by rewrite !lookup_alter_ne.
Qed.

Lemma setContent_lookup (dk : disk) (ino : Z) (c : list byte) (f : osFile) :
  D_files dk !! ino = Some f → D_files (setContent ino c dk) !! ino = Some (f <| OF_content := c |>).
Proof. intros Hf. unfold setContent. simpl. by rewrite lookup_alter_eq, Hf. Qed.

Lemma overwrite_end (c bytes : list byte) : overwrite (length c) bytes c = c ++ bytes.
Proof.
  unfold overwrite. rewrite Nat.sub_diag, firstn_all, skipn_all2 by lia. simpl. by rewrite app_nil_r.
Qed.

Section fwp.
(** Whether the run is free of faults. *)
Context (C : Prop).

(** [m] returns a value with [Q] or an error with [E]; it neither panics nor blocks. *)
Definition fwp {A} (m : FS A) (E : FileStore → Prop) (Q : A → FileStore → Prop) (s : FileStore) : Prop :=
  (C → clean (FS_ops s)) →
  match m s with
  | (Ok a, s') => (C → clean (FS_ops s')) ∧ Q a s'
  | (Err _, s') => (C → clean (FS_ops s')) ∧ E s'
  | _ => False
  end.

Lemma fwp_mono {A} (m : FS A) (E E' : FileStore → Prop) (Q Q' : A → FileStore → Prop) (s : FileStore) :
  fwp m E Q s → (∀ s', E s' → E' s') → (∀ a s', Q a s' → Q' a s') → fwp m E' Q' s.
Proof. intros H HE HQ Hc. specialize (H Hc). destruct (m s) as [[] s']; naive_solver. Qed.

Lemma fwp_bind {A B} (m : FS A) (k : A → FS B) (E : FileStore → Prop) (Q : B → FileStore → Prop) (s : FileStore) :
  fwp m E (λ a s', fwp (k a) E Q s') s → fwp (bind m k) E Q s.
Proof.
  intros H Hc. specialize (H Hc). unfold bind. destruct (m s) as [[] s']; [|done..].
  destruct H as [Hc' H]. by apply H.
Qed.

Lemma fwp_ret {A} (a : A) (E : FileStore → Prop) (Q : A → FileStore → Prop) (s : FileStore) :
  Q a s → fwp (ret a) E Q s.
Proof. by intros ??. Qed.

Lemma fwp_throw {A} (e : error) (E : FileStore → Prop) (Q : A → FileStore → Prop) (s : FileStore) :
  E s → fwp (throw e) E Q s.
Proof. by intros ??. Qed.

Lemma fwp_get {B} (k : FileStore → FS B) (E : FileStore → Prop) (Q : B → FileStore → Prop) (s : FileStore) :
  fwp (k s) E Q s → fwp (bind get k) E Q s.
Proof. done. Qed.

Lemma fwp_modify (f : FileStore → FileStore) (E : FileStore → Prop) (Q : unit → FileStore → Prop) (s : FileStore) :
  FS_ops (f s) = FS_ops s → Q tt (f s) → fwp (modify f) E Q s.
Proof. intros Hf H Hc. simpl. by rewrite Hf. Qed.

Lemma fwp_put (s0 : FileStore) (E : FileStore → Prop) (Q : unit → FileStore → Prop) (s : FileStore) :
  FS_ops s0 = FS_ops s → Q tt s0 → fwp (put s0) E Q s.
Proof. intros Hf H Hc. simpl. by rewrite Hf. Qed.

Lemma fwp_lift {A} (o : outcome error A) (E : FileStore → Prop) (Q : A → FileStore → Prop) (s : FileStore) :
  returns o → (∀ a, o = Ok a → Q a s) → (∀ e, o = Err e → E s) → fwp (lift o) E Q s.
Proof. intros Hr Hq He Hc. unfold lift. destruct o; try done; split; eauto. Qed.

Lemma fwp_onError {A} (m : FS A) (cleanup : FS unit) (E E' : FileStore → Prop) (Q : A → FileStore → Prop)
    (s : FileStore) :
  fwp m E' Q s → (∀ s', E' s' → fwp cleanup E (λ _, E) s') → fwp (onError m cleanup) E Q s.
Proof.
  intros H HE Hc. specialize (H Hc). unfold onError. destruct (m s) as [[] s']; try done.
  destruct H as [Hc' H]. specialize (HE _ H Hc'). by destruct (cleanup s') as [[] s''].
Qed.

Lemma fwp_attempt (m : FS unit) (E : FileStore → Prop) (Q : option error → FileStore → Prop) (s : FileStore) :
  fwp m (λ s', ∀ e, Q (Some e) s') (λ _ s', Q None s') s → fwp (attempt m) E Q s.
Proof. intros H Hc. specialize (H Hc). unfold attempt. destruct (m s) as [[] s']; naive_solver. Qed.

Lemma fwp_poisoning {A} (m : FS A) (E : FileStore → Prop) (Q : A → FileStore → Prop) (s : FileStore) :
  fwp m (λ s', E (s' <| FS_poisoned := true |>)) Q s → fwp (poisoning m) E Q s.
Proof. intros H. eapply fwp_onError; [done|]. intros s' H'. by apply fwp_modify. Qed.

(** ** System calls *)

(** The same store on another system with the disk [dk]. *)
Definition onDisk (P : FileStore → Prop) (dk : disk) (s : FileStore) : Prop :=
  ∀ o, OS_disk o = dk → P (withOS s o).

Lemma fwp_nextFault (E : FileStore → Prop) (Q : fault → FileStore → Prop) (s : FileStore) :
  (∀ f, (C → f = FaultNone) → onDisk (Q f) (theDisk s) s) → fwp nextFault E Q s.
Proof.
  intros H Hc. unfold nextFault, bind, get. destruct s as [? ? ? ? ? ? ? ? [dk tape crashed random] ? ? ? ? ?].
  simpl in *. destruct crashed; simpl.
  { split; [done|]. apply (H FaultCrash); [intros Hn; by destruct (Hc Hn)|done]. }
  destruct tape as [|f rest]; simpl.
  { split; [done|]. by apply (H FaultNone). }
  split; [intros Hn; by destruct (Hc Hn)|]. apply (H f); [|done]. intros Hn. by destruct (Hc Hn).
Qed.

Lemma fwp_syscall {A} (run : disk → outcome error A * disk) (E : FileStore → Prop) (Q : A → FileStore → Prop)
    (s : FileStore) :
  (¬ C → onDisk E (theDisk s) s ∧ onDisk E (run (theDisk s)).2 s) →
  match (run (theDisk s)).1 with
  | Ok a => onDisk (Q a) (run (theDisk s)).2 s
  | Err _ => onDisk E (run (theDisk s)).2 s
  | _ => False
  end →
  fwp (syscall run) E Q s.
Proof.
  intros HE HQ. apply fwp_bind, fwp_nextFault. intros f Hf o Ho. apply fwp_get.
  assert (fwp (put (setDisk (run (theDisk (withOS s o))).2 (withOS s o)) ;;! lift (run (theDisk (withOS s o))).1)
            E Q (withOS s o)) as Hok.
  { intros Hc. unfold bind, put, lift. simpl in *. rewrite Ho.
    set (o' := o <| OS_disk := (run (theDisk s)).2 |>).
    destruct ((run (theDisk s)).1); try done; (split; [exact Hc|]); exact (HQ o' eq_refl). }
  destruct f as [|n|[] n|]; [exact Hok|exact Hok| | |];
    (destruct HE as [H1 H2]; [intros Hn; by specialize (Hf Hn)|]); [|apply fwp_throw; by apply H1..].
  intros Hc. unfold bind, put, throw. simpl in *. rewrite Ho. split; [exact Hc|].
  set (o' := o <| OS_disk := (run (theDisk s)).2 |>). exact (H2 o' eq_refl).
Qed.

Lemma fwp_inspect {A} (read : disk → outcome error A) (E : FileStore → Prop) (Q : A → FileStore → Prop)
    (s : FileStore) :
  (¬ C → onDisk E (theDisk s) s) →
  match read (theDisk s) with
  | Ok a => onDisk (Q a) (theDisk s) s
  | Err _ => onDisk E (theDisk s) s
  | _ => False
  end →
  fwp (inspect read) E Q s.
Proof. intros HE HQ. apply fwp_syscall; [|done]. intros Hn. split; by apply HE. Qed.

Section write.
Context (ino : Z) (E : FileStore → Prop).

Lemma fwp_opWrite (f : osFile) (bytes : list byte) (Q : Z → FileStore → Prop) (s : FileStore) :
  D_files (theDisk s) !! ino = Some f →
  (∀ n, n = 0%nat ∨ len (OF_content f) + len bytes ≤ max_int →
     onDisk E (setContent ino (OF_content f ++ take n bytes) (theDisk s)) s) →
  (∀ n, (n ≤ length bytes)%nat → len (OF_content f) + len bytes ≤ max_int →
     onDisk (Q (Z.of_nat n)) (setContent ino (OF_content f ++ take n bytes) (theDisk s)) s) →
  fwp (opWrite ino (length (OF_content f)) bytes) E Q s.
Proof.
  intros Hf HE HQ. apply fwp_bind, fwp_nextFault. intros ft _ o Ho. apply fwp_get. cbv zeta.
  destruct (Z.ltb_spec max_int (Z.of_nat (length (OF_content f)) + len bytes)) as [|Hmx].
  { apply fwp_throw. apply (HE 0%nat); [by left|]. by rewrite take_0, app_nil_r, setContent_same. }
  assert (∀ n (P : FileStore → Prop), onDisk P (setContent ino (OF_content f ++ take n bytes) (theDisk s)) s →
    P (setDisk (updateFile ino (λ f0, f0 <| OF_content ::= overwrite (length (OF_content f)) (take n bytes) |>)
         (OS_disk o)) (withOS s o))) as Hd.
  { intros n P HP. rewrite Ho. rewrite (updateFile_content _ _ f _ Hf), overwrite_end.
    set (o' := o <| OS_disk := setContent ino (OF_content f ++ take n bytes) (theDisk s) |>).
    exact (HP o' eq_refl). }
  destruct ft as [|n|b n|].
  - intros Hc. split; [exact Hc|]. apply Hd. apply HQ; [lia|done].
  - intros Hc. split; [exact Hc|]. apply Hd. replace (take n bytes) with (take (n `min` length bytes) bytes).
    + apply HQ; [lia|done].
    + by rewrite <- take_take, firstn_all.
  - intros Hc. split; [exact Hc|]. apply Hd, HE. by right.
  - apply fwp_throw. apply (HE 0%nat); [by left|]. by rewrite take_0, app_nil_r, setContent_same.
Qed.

Lemma fwp_writeAllLoop (fuel : nat) (f : osFile) (bytes : list byte) (Q : unit → FileStore → Prop) (s : FileStore) :
  (length bytes < fuel)%nat → D_files (theDisk s) !! ino = Some f →
  (∀ n, n = 0%nat ∨ len (OF_content f) + len bytes ≤ max_int →
     onDisk E (setContent ino (OF_content f ++ take n bytes) (theDisk s)) s) →
  ((bytes = [] ∨ len (OF_content f) + len bytes ≤ max_int) →
     onDisk (Q tt) (setContent ino (OF_content f ++ bytes) (theDisk s)) s) →
  fwp (writeAllLoop fuel ino (length (OF_content f)) bytes) E Q s.
Proof.
  revert f bytes s. induction fuel as [|fuel IH]; intros f bytes s Hfuel Hf HE HQ; [lia|].
  destruct bytes as [|b bytes].
  { intros Hc. split; [done|]. specialize (HQ (or_introl eq_refl) (FS_ops s)).
    destruct s. apply HQ. by rewrite app_nil_r, setContent_same. }
  cbn [writeAllLoop]. set (all := b :: bytes) in *. apply fwp_bind, (fwp_opWrite f); [done|done|].
  intros n Hn Hmx o Ho. case_goal.
  { apply fwp_throw. apply (HE n); [by right|done]. }
  bool_hyps. rewrite Nat2Z.id. set (f' := f <| OF_content := OF_content f ++ take n all |>).
  replace (length (OF_content f) + n)%nat with (length (OF_content f')).
  2: { simpl. rewrite length_app, length_take. lia. }
  assert (OF_content f' = OF_content f ++ take n all) as Hc' by done.
  assert (∀ l, setContent ino (OF_content f' ++ l) (OS_disk o) = setContent ino (OF_content f ++ take n all ++ l) (theDisk s)) as Hset.
  { intros l. by rewrite Ho, setContent_twice, Hc', app_assoc. }
  apply IH.
  - rewrite length_drop. subst all. simpl in *. lia.
  - simpl. rewrite Ho. by apply setContent_lookup.
  - intros k _ o' Ho'. apply (HE (n + k)%nat); [by right|]. rewrite Ho'. simpl. rewrite Hset. by rewrite take_take_drop.
  - intros _ o' Ho'. apply HQ; [by right|]. rewrite Ho'. simpl. by rewrite Hset, take_drop.
Qed.

Lemma fwp_writeAll (f : osFile) (bytes : list byte) (Q : unit → FileStore → Prop) (s : FileStore) :
  D_files (theDisk s) !! ino = Some f →
  (∀ n, n = 0%nat ∨ len (OF_content f) + len bytes ≤ max_int →
     onDisk E (setContent ino (OF_content f ++ take n bytes) (theDisk s)) s) →
  ((bytes = [] ∨ len (OF_content f) + len bytes ≤ max_int) →
     onDisk (Q tt) (setContent ino (OF_content f ++ bytes) (theDisk s)) s) →
  fwp (writeAll ino (length (OF_content f)) bytes) E Q s.
Proof. apply fwp_writeAllLoop. lia. Qed.
End write.
End fwp.

(** ** Recoverable directories *)

Lemma fixed_survives (dk : disk) (ino : Z) (c c' : list byte) (f : osFile) :
  fixed dk ino c → D_files dk !! ino = Some f → survives f c' → c' = c.
Proof.
  intros (f0 & Hf & <- & Hd) Hf'. rewrite Hf in Hf'. injection Hf' as <-. intros [->|[->|[Hp Hq]]]; [done|done|].
  rewrite Hd in Hp. by apply (anti_symm prefix).
Qed.

Lemma fixed_agree (dk dk' : disk) (ino : Z) (c : list byte) :
  D_files dk' !! ino = D_files dk !! ino → fixed dk ino c → fixed dk' ino c.
Proof. intros H (f & Hf & Hc). exists f. by rewrite H. Qed.

(** The same files but one. *)
Definition alike (x : Z) (dk dk' : disk) : Prop := ∀ i, i ≠ x → D_files dk' !! i = D_files dk !! i.

Lemma alike_update (x : Z) (g : osFile → osFile) (dk : disk) : alike x dk (updateFile x g dk).
Proof. intros i Hi. simpl. by rewrite lookup_alter_ne. Qed.

Lemma alike_created (name : string) (dk : disk) : alike (D_next dk) dk (created name dk).
Proof. intros i Hi. simpl. by rewrite lookup_insert_ne. Qed.

(** The files in use are named in the directory. *)
Lemma uses_below (dk : disk) (v : gmap string Z) (ino : Z) :
  names_ok dk v → uses (core_of v) ino → ino < D_next dk ∧ is_Some (D_files dk !! ino).
Proof.
  intros [H _] Hu. assert (∃ n, v !! n = Some ino) as [n Hn].
  { destruct Hu as [Hu|[Hu|[Hu|Hu]]]; simpl in Hu; eauto. }
  destruct (H n ino Hn) as (_ & (f & Hf & _) & ?). eauto.
Qed.

(** *** Changes outside the files in use *)

(** A property of the files in use. *)
Definition stable (G : disk → core_files → Prop) : Prop :=
  ∀ dk dk' c, (∀ ino, uses c ino → D_files dk' !! ino = D_files dk !! ino) → G dk c → G dk' c.

(** No version of the directory uses the file. *)
Definition unused (dk : disk) (x : Z) : Prop := ∀ v, v ∈ D_entries dk :: D_older dk → ¬ uses (core_of v) x.

Lemma stable_eq (c0 : core_files) : stable (λ _ c, c = c0).
Proof. by intros ????. Qed.

Section stable.
Context (G : disk → core_files → Prop) (HG : stable G).

Lemma stable_files (dk dk' : disk) :
  D_files dk' = D_files dk → D_entries dk' = D_entries dk → D_older dk' = D_older dk → D_next dk' = D_next dk →
  anchored dk' → versions dk (G dk) → versions dk' (G dk').
Proof.
  intros Hf He Ho Hn Ha [_ Hv]. split; [done|]. rewrite He, Ho. intros v Hin. destruct (Hv v Hin) as [Hok HGv].
  split; [by apply (names_ok_same dk)|]. revert HGv. apply HG. intros ino _. by rewrite Hf.
Qed.

Lemma stable_update (dk : disk) (x : Z) (g : osFile → osFile) :
  (∀ o, OF_info (g o) = OF_info o) → unused dk x → versions dk (G dk) →
  versions (updateFile x g dk) (G (updateFile x g dk)).
Proof.
  intros Hg Hx Hv. pose proof (versions_update _ _ x g Hg Hv) as [Ha Hv']. split; [done|].
  intros v Hin. destruct (Hv' v Hin) as [Hn HGv]. split; [done|]. revert HGv. apply HG.
  intros ino Hu. apply alike_update. intros ->. by apply (Hx v Hin).
Qed.

Lemma stable_create (dk : disk) (name : string) :
  inert name → versions dk (G dk) → versions (created name dk) (G (created name dk)).
Proof.
  intros Hn Hv. pose proof (versions_create dk (G dk) name (inert_known name Hn) Hv) as [Ha Hv'].
  pose proof (versions_now _ _ Hv) as [Hnow HGnow].
  assert (core_of (<[name := D_next dk]> (D_entries dk)) = core_of (D_entries dk)) as Hcore.
  { apply (core_of_inert _ _ name); [done|]. intros m Hm. by rewrite lookup_insert_ne. }
  split; [done|]. intros v Hin. destruct (Hv' v Hin) as [Hok _]. split; [done|].
  assert (∃ v0, names_ok dk v0 ∧ G dk (core_of v0) ∧ core_of v = core_of v0) as (v0 & Hok0 & HG0 & ->).
  { simpl in Hin. apply elem_of_cons in Hin as [->|Hin]; [eauto|]. destruct Hv as [_ Hv]. destruct (Hv v Hin). eauto. }
  revert HG0. apply HG. intros ino Hu. apply alike_created. destruct (uses_below _ _ _ Hok0 Hu). lia.
Qed.

Lemma stable_entries (dk : disk) (v : gmap string Z) :
  core_of v = core_of (D_entries dk) → names_ok dk v → versions dk (G dk) →
  versions (setEntries v dk) (G (setEntries v dk)).
Proof.
  intros Hc Hn Hv. pose proof (versions_set dk (G dk) v Hn Hv) as H. revert H. apply versions_mono.
  intros c [Hg| ->]; [|rewrite Hc; destruct (versions_now _ _ Hv) as [_ Hg]]; revert Hg; by apply HG.
Qed.

Lemma stable_remove (dk : disk) (name : string) :
  inert name → versions dk (G dk) →
  versions (setEntries (delete name (D_entries dk)) dk) (G (setEntries (delete name (D_entries dk)) dk)).
Proof.
  intros Hn Hv. destruct (versions_now _ _ Hv) as [Hok _]. apply stable_entries; [|by apply names_ok_delete|done].
  apply (core_of_inert _ _ name Hn). intros m Hm. by rewrite lookup_delete_ne.
Qed.

Lemma stable_sync (dk : disk) : versions dk (G dk) → versions (dk <| D_older := [] |>) (G (dk <| D_older := [] |>)).
Proof.
  intros Hv. destruct (versions_now _ _ Hv) as [_ Hg]. pose proof (versions_sync _ _ Hv) as H. revert H.
  apply versions_mono. intros c ->. revert Hg. by apply HG.
Qed.
End stable.

(** A change that no opening can tell. *)
Record quiet (dk dk' : disk) : Prop := {
  q_versions : ∀ G, stable G → versions dk (G dk) → versions dk' (G dk');
  q_files : ∀ ino, is_Some (D_files dk !! ino) → is_Some (D_files dk' !! ino);
  q_next : D_next dk ≤ D_next dk'
}.

Lemma quiet_refl (dk : disk) : quiet dk dk.
Proof. by split. Qed.

Lemma quiet_trans (dk dk' dk'' : disk) : quiet dk dk' → quiet dk' dk'' → quiet dk dk''.
Proof. intros [] []. split; [auto|auto|lia]. Qed.

Lemma quiet_create (dk : disk) (name : string) : inert name → quiet dk (created name dk).
Proof.
  intros Hn. split; [|intros ino Hi; simpl|simpl; lia].
  - intros G HG. by apply stable_create.
  - destruct (decide (ino = D_next dk)) as [->|]; [by rewrite lookup_insert_eq|by rewrite lookup_insert_ne].
Qed.

Lemma quiet_remove (dk : disk) (name : string) :
  inert name → quiet dk (setEntries (delete name (D_entries dk)) dk).
Proof. intros Hn. split; [|done|simpl; lia]. intros G HG. by apply stable_remove. Qed.

Lemma quiet_update (dk : disk) (x : Z) (g : osFile → osFile) :
  (∀ o, OF_info (g o) = OF_info o) → unused dk x → quiet dk (updateFile x g dk).
Proof.
  intros Hg Hx. split; [|intros ino Hi; simpl|simpl; lia].
  - intros G HG. by apply stable_update.
  - destruct (decide (ino = x)) as [->|]; [rewrite lookup_alter_eq|by rewrite lookup_alter_ne].
    destruct Hi as [f ->]. by exists (g f).
Qed.

Lemma quiet_sync (dk : disk) : quiet dk (dk <| D_older := [] |>).
Proof. split; [|done|simpl; lia]. intros G HG. by apply stable_sync. Qed.

Lemma quiet_lock (dk : disk) (b : bool) : quiet dk (dk <| D_locked := b |>).
Proof.
  split; [|done|simpl; lia]. intros G HG Hv. apply (stable_files G HG dk); try done. by destruct Hv.
Qed.

Lemma quiet_unused (dk dk' : disk) (x : Z) :
  quiet dk dk' → versions dk (λ _, True) → unused dk x → unused dk' x.
Proof.
  intros Hq Hv Hx. destruct (q_versions _ _ Hq (λ _ c, ¬ uses c x)) as [_ H]; [by intros ???|split; [apply Hv|]|].
  - intros v Hin. split; [by apply Hv|by apply Hx].
  - intros v Hin. by apply H.
Qed.

(** ** Calls that change nothing in use *)

Definition calm (K : FileStore → Prop) : Prop :=
  ∀ s o, quiet (theDisk s) (OS_disk o) → K s → K (withOS s o).

Section calm.
Context (C : Prop) (K : FileStore → Prop) (HK : calm K).
Abbreviation fwp := (fwp C).

Lemma calm_syscall {A} (run : disk → outcome error A * disk) (s : FileStore) :
  quiet (theDisk s) (run (theDisk s)).2 → returns (run (theDisk s)).1 → K s →
  fwp (syscall run) K (λ a s', (run (theDisk s)).1 = Ok a ∧ (∃ o, OS_disk o = (run (theDisk s)).2 ∧ s' = withOS s o) ∧ K s') s.
Proof.
  intros Hq Hr Hs. apply fwp_syscall.
  - intros _. split; intros o Ho; apply HK; try done; rewrite Ho; [apply quiet_refl|done].
  - destruct ((run (theDisk s)).1); try done.
    + intros o Ho. split_and!; [done|eauto|]. apply HK; [by rewrite Ho|done].
    + intros o Ho. apply HK; [by rewrite Ho|done].
Qed.

Lemma calm_inspect {A} (read : disk → outcome error A) (s : FileStore) :
  returns (read (theDisk s)) → K s →
  fwp (inspect read) K (λ a s', read (theDisk s) = Ok a ∧ (∃ o, OS_disk o = theDisk s ∧ s' = withOS s o) ∧ K s') s.
Proof. intros Hr Hs. apply (calm_syscall (λ dk, (read dk, dk))); [apply quiet_refl|done|done]. Qed.

Lemma calm_opClose (s : FileStore) : K s → fwp opClose K (λ _, K) s.
Proof. intros Hs. eapply fwp_mono; [by apply calm_inspect|done|]. by intros ?? (_ & _ & ?). Qed.

Lemma calm_opSeek (s : FileStore) : K s → fwp opSeek K (λ _, K) s.
Proof. apply calm_opClose. Qed.

Lemma calm_opSyncDirectory (s : FileStore) : K s → fwp opSyncDirectory K (λ _, K) s.
Proof.
  intros Hs. eapply fwp_mono; [apply calm_syscall; [apply quiet_sync|done|done]|done|]. by intros ?? (_ & _ & ?).
Qed.

Lemma calm_opUnlock (s : FileStore) : K s → fwp opUnlock K (λ _, K) s.
Proof.
  intros Hs. eapply fwp_mono; [apply calm_syscall; [apply quiet_lock|done|done]|done|]. by intros ?? (_ & _ & ?).
Qed.

Lemma calm_opRemove (name : string) (s : FileStore) : inert name → K s → fwp (opRemove name) K (λ _, K) s.
Proof.
  intros Hn Hs. eapply fwp_mono; [apply calm_syscall; [|by destruct (D_entries _ !! name)|done]|done|].
  - destruct (D_entries _ !! name); [by apply quiet_remove|apply quiet_refl].
  - by intros ?? (_ & _ & ?).
Qed.

Lemma calm_attempt (m : FS unit) (E : FileStore → Prop) (s : FileStore) :
  fwp m K (λ _, K) s → fwp (attempt m) E (λ _, K) s.
Proof. intros H. apply fwp_attempt. revert H. intros H. eapply fwp_mono; [done|by intros|done]. Qed.

Lemma calm_joined (errs : list (option error)) (s : FileStore) : K s → fwp (joined errs) K (λ _, K) s.
Proof. intros Hs. unfold joined. destruct (omap id errs); [by apply fwp_ret|by apply fwp_throw]. Qed.

(** Writing to a file that is not in use. *)
Section unused_file.
Context (ino : Z) (Hino : ∀ s, K s → unused (theDisk s) ino).

Lemma calm_opWrite (offset : nat) (bytes : list byte) (s : FileStore) :
  K s → fwp (opWrite ino offset bytes) K (λ n s', 0 ≤ n ≤ len bytes ∧ K s') s.
Proof.
  intros Hs. apply fwp_bind, fwp_nextFault. intros f _ o Ho. apply fwp_get. cbv zeta.
  assert (K (withOS s o)) as Hs1 by (apply HK; [rewrite Ho; apply quiet_refl|done]).
  assert (∀ g : osFile → osFile, (∀ o, OF_info (g o) = OF_info o) →
    K (setDisk (updateFile ino g (theDisk (withOS s o))) (withOS s o))) as Hg.
  { intros g Hg. set (o' := o <| OS_disk := updateFile ino g (OS_disk o) |>).
    apply (HK (withOS s o) o'); [|done]. apply quiet_update; [done|]. by apply (Hino (withOS s o)). }
  case_goal; [by apply fwp_throw|]. pose proof (len_nonneg bytes).
  destruct f as [|n|b n|]; [| | |by apply fwp_throw]; (intros Hc; split; [exact Hc|]); try split; try apply Hg; try done;
    unfold len; lia.
Qed.

Lemma calm_writeAllLoop (fuel : nat) (offset : nat) (bytes : list byte) (s : FileStore) :
  (length bytes < fuel)%nat → K s → fwp (writeAllLoop fuel ino offset bytes) K (λ _, K) s.
Proof.
  revert offset bytes s. induction fuel as [|fuel IH]; intros offset bytes s Hf Hs; [lia|].
  destruct bytes as [|b bytes]; [by apply fwp_ret|]. cbn [writeAllLoop].
  apply fwp_bind. eapply fwp_mono; [by apply calm_opWrite|done|]. intros n s' [Hn Hs'].
  case_goal; [by apply fwp_throw|]. bool_hyps. apply IH; [|done]. rewrite length_drop. simpl in *. lia.
Qed.

Lemma calm_writeAll (offset : nat) (bytes : list byte) (s : FileStore) :
  K s → fwp (writeAll ino offset bytes) K (λ _, K) s.
Proof. apply calm_writeAllLoop. lia. Qed.

Lemma calm_opSync (s : FileStore) : K s → fwp (opSync ino) K (λ _, K) s.
Proof.
  intros Hs. eapply fwp_mono; [apply calm_syscall; [|done|done]|done|by intros ?? (_ & _ & ?)].
  apply quiet_update; [done|]. by apply Hino.
Qed.
End unused_file.

(** A new temporary file: its name is stale, its inode is fresh. *)
Record temporary (dk dk' : disk) (name : string) (ino : Z) : Prop := {
  tm_quiet : quiet dk dk';
  tm_name : isStaleName name = true;
  tm_entry : D_entries dk' !! name = Some ino;
  tm_file : D_files dk' !! ino = Some (mkFile newFileInfo [] []);
  tm_fresh : D_next dk ≤ ino < D_next dk';
  tm_unused : unused dk' ino
}.

Lemma created_temporary (dk : disk) (name : string) :
  isStaleName name = true → versions dk (λ _, True) → temporary dk (created name dk) name (D_next dk).
Proof.
  intros Hn Hv. pose proof (quiet_create dk name (or_introl Hn)) as Hq. split; try done.
  - simpl. by rewrite lookup_insert_eq.
  - simpl. by rewrite lookup_insert_eq.
  - simpl. lia.
  - apply (quiet_unused dk); [done..|]. intros v Hin Hu. destruct Hv as [_ Hv].
    destruct (Hv v Hin) as [Hok _]. destruct (uses_below _ _ _ Hok Hu). lia.
Qed.

Lemma fwp_opCreate (name : string) (Q : Z → FileStore → Prop) (s : FileStore) :
  isStaleName name = true → versions (theDisk s) (λ _, True) → K s →
  (∀ o ino, temporary (theDisk s) (OS_disk o) name ino → Q ino (withOS s o)) →
  fwp (opCreate name) K Q s.
Proof.
  intros Hn Hv Hs HQ. apply fwp_syscall.
  - intros _. split; intros o Ho; apply HK; try done; rewrite Ho; [apply quiet_refl|].
    destruct (D_entries _ !! name); [apply quiet_refl|by apply quiet_create; left].
  - destruct (D_entries _ !! name); intros o Ho.
    + apply HK; [rewrite Ho; apply quiet_refl|done].
    + apply HQ. rewrite Ho. by apply created_temporary.
Qed.

Lemma fwp_opRandom (Q : list byte → FileStore → Prop) (s : FileStore) :
  K s → (∀ bytes, length bytes = 16%nat → onDisk (Q bytes) (theDisk s) s) → fwp opRandom K Q s.
Proof.
  intros Hs HQ Hc. unfold opRandom, bind, get. destruct (OS_random (FS_ops s)) as [|bytes rest].
  { by split. }
  unfold put. set (o := (FS_ops s) <| OS_random := rest |>).
  assert (∀ P : FileStore → Prop, onDisk P (theDisk s) s → P (s <| FS_ops ::= (λ o, o <| OS_random := rest |>) |>)) as Ho.
  { intros P HP. exact (HP o eq_refl). }
  destruct (Z.eqb_spec (len bytes) 16) as [Hl|]; simpl.
  - split; [exact Hc|]. apply (Ho (Q bytes)), HQ. unfold len in Hl. lia.
  - split; [exact Hc|]. apply Ho. intros o' Ho'. apply HK; [rewrite Ho'; apply quiet_refl|done].
Qed.

Lemma fwp_validateOpened (ino : Z) (f : osFile) (E : FileStore → Prop) (Q : unit → FileStore → Prop) (s : FileStore) :
  D_files (theDisk s) !! ino = Some f → validateRegularFileInfo (OF_info f) = Ok tt →
  (¬ C → onDisk E (theDisk s) s) → onDisk (Q tt) (theDisk s) s → fwp (validateOpenedRegularFile ino) E Q s.
Proof.
  intros Hf Hv HE HQ. apply fwp_bind, fwp_inspect; [done|]. rewrite Hf. intros o Ho.
  apply fwp_lift; rewrite Hv; [done| |done]. intros [] _. by apply HQ.
Qed.

Lemma fwp_newTemporary (prefix : string) (Q : string * Z → FileStore → Prop) (s : FileStore) :
  prefix = snapshotTemporaryPrefix ∨ prefix = walTemporaryPrefix → versions (theDisk s) (λ _, True) → K s →
  (∀ o name ino, temporary (theDisk s) (OS_disk o) name ino → Q (name, ino) (withOS s o)) →
  fwp (newTemporaryRegularFile prefix) K Q s.
Proof.
  intros Hp Hv Hs HQ. apply fwp_bind, fwp_opRandom; [done|]. intros bytes Hb o1 Ho1. cbv zeta.
  assert (K (withOS s o1)) as Hs1 by (apply HK; [rewrite Ho1; apply quiet_refl|done]).
  apply fwp_bind, fwp_opCreate; simpl; [by apply temporary_name|by rewrite Ho1|done|].
  intros o2 ino Ht. rewrite Ho1 in Ht. apply fwp_bind.
  assert (∀ o, OS_disk o = OS_disk o2 → K (withOS s o)) as Hk.
  { intros o Ho. apply HK; [rewrite Ho; apply Ht|done]. }
  eapply fwp_onError; [apply (fwp_validateOpened ino (mkFile newFileInfo [] [])); [apply Ht|done| |]|].
  - intros _ o Ho. apply Hk. by rewrite Ho.
  - intros o Ho. apply fwp_ret. apply HQ. by rewrite Ho.
  - intros s' Hs'. by apply calm_opClose.
Qed.
End calm.

Section recoverable.
Context (sha256 : list byte → list byte) (identity : StorageIdentity) (voters : VoterSet) (limit : Z).

Abbreviation pick := (pick sha256 identity voters limit).
Abbreviation log_bytes := (log_bytes sha256 identity voters).

(** The snapshot that an optional file holds. *)
Definition holds (dk : disk) (o : option Z) (so : option Snapshot) : Prop :=
  match o, so with
  | None, None => True
  | Some ino, Some s => fixed dk ino (Snapshot_envelope s) ∧ decoded sha256 identity limit s
  | _, _ => False
  end.

(** What may be left of the log. *)
Definition log_content (dk : disk) (o : option Z) (c : list byte) : Prop :=
  match o with
  | None => c = []
  | Some ino => ∃ f, D_files dk !! ino = Some f ∧ survives f c
  end.

(** Whatever is left of the files of [c], opening the store selects a state of [D]. *)
Record good (dk : disk) (D : RecoveredState → Prop) (c : core_files) : Prop := {
  g_identity : ∃ i, CF_identity c = Some i ∧ fixed dk i (encodeStorageIdentity identity);
  g_log : ∃ cs ps, holds dk (CF_snapshot c) cs ∧ holds dk (CF_previous c) ps ∧
    ∀ content, log_content dk (CF_wal c) content →
      ∃ w last d, log_bytes content w last ∧ pick w cs ps = Some d ∧ D d
}.

Definition recoverable (dk : disk) (D : RecoveredState → Prop) : Prop := versions dk (good dk D).

Lemma holds_agree (dk dk' : disk) (o : option Z) (so : option Snapshot) :
  (∀ ino, o = Some ino → D_files dk' !! ino = D_files dk !! ino) → holds dk o so → holds dk' o so.
Proof.
  intros H. destruct o as [ino|], so as [s|]; try done. intros [Hf Hd]. split; [|done].
  revert Hf. apply fixed_agree. by apply H.
Qed.

Lemma good_agree (dk dk' : disk) (D : RecoveredState → Prop) (c : core_files) :
  (∀ ino, uses c ino → D_files dk' !! ino = D_files dk !! ino) → good dk D c → good dk' D c.
Proof.
  intros H [(i & Hi & Hid) (cs & ps & Hcs & Hps & Hl)]. split.
  - exists i. split; [done|]. revert Hid. apply fixed_agree, H. by left.
  - exists cs, ps. split_and!.
    + revert Hcs. apply holds_agree. intros ino Ho. apply H. unfold uses. auto.
    + revert Hps. apply holds_agree. intros ino Ho. apply H. unfold uses. auto.
    + intros content Hc. apply Hl. destruct (CF_wal c) as [iw|] eqn:Hw; [|done].
      destruct Hc as (f & Hf & Hs). exists f. split; [|done]. rewrite <- Hf. symmetry. apply H. unfold uses. auto.
Qed.

Lemma good_stable (D : RecoveredState → Prop) : stable (λ dk, good dk D).
Proof. intros dk dk' c. apply good_agree. Qed.

Lemma good_mono (dk : disk) (D D' : RecoveredState → Prop) (c : core_files) :
  (∀ d, D d → D' d) → good dk D c → good dk D' c.
Proof.
  intros H [? (cs & ps & Hcs & Hps & Hl)]. split; [done|]. exists cs, ps. split_and!; try done.
  intros content Hc. destruct (Hl content Hc) as (w & last & d & ? & ? & ?). exists w, last, d. auto.
Qed.

Lemma recoverable_mono (dk : disk) (D D' : RecoveredState → Prop) :
  (∀ d, D d → D' d) → recoverable dk D → recoverable dk D'.
Proof. intros H. apply versions_mono. intros c. by apply good_mono. Qed.
End recoverable.

(** ** Programs that keep the state in memory *)

Definition stateless {A} (m : FS A) : Prop := ∀ s, FS_state (m s).2 = FS_state s.

(** A failure comes before the state is replaced. *)
Definition failsBefore {A} (m : FS A) : Prop :=
  ∀ s, match (m s).1 with Ok _ => True | _ => FS_state (m s).2 = FS_state s end.

Create HintDb stateless.

Section stateless.
Context {A B : Type}.

Lemma stateless_bind (m : FS A) (k : A → FS B) : stateless m → (∀ a, stateless (k a)) → stateless (bind m k).
Proof.
  intros Hm Hk s. unfold bind. specialize (Hm s). destruct (m s) as [[a|e| |] s']; simpl in *; [|done..].
  by rewrite Hk.
Qed.

Lemma failsBefore_bind (m : FS A) (k : A → FS B) : stateless m → (∀ a, failsBefore (k a)) → failsBefore (bind m k).
Proof.
  intros Hm Hk s. unfold bind. specialize (Hm s). destruct (m s) as [[a|e| |] s']; simpl in *; [|done..].
  specialize (Hk a s'). destruct ((k a s').1); congruence.
Qed.

Lemma stateless_failsBefore (m : FS A) : stateless m → failsBefore m.
Proof. intros H s. rewrite H. by destruct ((m s).1). Qed.

Lemma stateless_ret (a : A) : stateless (ret a).
Proof. done. Qed.
Lemma stateless_throw (e : error) : stateless (throw e : FS A).
Proof. done. Qed.
Lemma stateless_panic : stateless (panic : FS A).
Proof. done. Qed.
Lemma stateless_lift (o : outcome error A) : stateless (lift o).
Proof. intros s. by destruct o. Qed.
Lemma stateless_get (k : FileStore → FS B) : (∀ s, stateless (k s)) → stateless (bind get k).
Proof. intros H s. by apply H. Qed.
Lemma stateless_modify (f : FileStore → FileStore) : (∀ s, FS_state (f s) = FS_state s) → stateless (modify f).
Proof. intros H s. apply H. Qed.
Lemma failsBefore_get (k : FileStore → FS B) : (∀ s, failsBefore (k s)) → failsBefore (bind get k).
Proof. intros H s. by apply H. Qed.

Lemma stateless_onError (m : FS A) (cleanup : FS unit) : stateless m → stateless cleanup → stateless (onError m cleanup).
Proof.
  intros Hm Hc s. unfold onError. specialize (Hm s). destruct (m s) as [[a|e| |] s']; simpl in *; try done.
  specialize (Hc s'). destruct (cleanup s') as [[] s'']; simpl in *; congruence.
Qed.

Lemma stateless_poisoning (m : FS A) : stateless m → stateless (poisoning m).
Proof. intros H. by apply stateless_onError. Qed.

Lemma stateless_syscall (run : disk → outcome error A * disk) : stateless (syscall run).
Proof.
  intros s. unfold syscall, nextFault, bind, get. simpl. destruct (OS_crashed (FS_ops s)); [done|].
  destruct (OS_tape (FS_ops s)) as [|f rest]; simpl.
  - unfold put, lift. by destruct ((run (theDisk s)).1).
  - destruct f as [|n|[] n|]; simpl; unfold put, lift, throw; try done; by destruct ((run _).1).
Qed.
End stateless.
#[export] Hint Resolve stateless_ret stateless_throw stateless_panic stateless_lift stateless_syscall stateless_onError
  stateless_poisoning : stateless.
#[export] Hint Extern 1 (stateless (inspect _)) => apply stateless_syscall : stateless.
#[export] Hint Extern 1 (stateless (modify _)) => apply stateless_modify; reflexivity : stateless.

(** Follow the program to its calls. *)
Ltac solve_stateless :=
  repeat match goal with
  | |- stateless (bind get _) => apply stateless_get; intros ?
  | |- stateless (bind _ _) => apply stateless_bind; [|intros ?]
  | |- stateless (onError _ _) => apply stateless_onError
  | |- stateless (poisoning _) => apply stateless_poisoning
  | |- stateless (match ?x with _ => _ end) => destruct x
  | |- stateless (let _ := _ in _) => cbv zeta
  | |- stateless _ => solve [auto 2 with stateless]
  end.

Lemma stateless_attempt (m : FS unit) : stateless m → stateless (attempt m).
Proof. intros H s. unfold attempt. specialize (H s). by destruct (m s) as [[] ?]. Qed.

#[export] Hint Resolve stateless_attempt : stateless.

Lemma stateless_opWrite (ino : Z) (offset : nat) (bytes : list byte) : stateless (opWrite ino offset bytes).
Proof.
  intros s. unfold opWrite, nextFault, bind, get. destruct (OS_crashed (FS_ops s)); simpl; [by destruct (_ <? _)|].
  destruct (OS_tape (FS_ops s)) as [|f rest]; simpl; (destruct (_ <? _); [done|]); [done|by destruct f].
Qed.
#[export] Hint Resolve stateless_opWrite : stateless.

Lemma stateless_writeAll (ino : Z) (offset : nat) (bytes : list byte) : stateless (writeAll ino offset bytes).
Proof.
  unfold writeAll. generalize (S (length bytes)) as fuel. intros fuel. revert offset bytes.
  induction fuel as [|fuel IH]; intros offset bytes; destruct bytes; simpl; solve_stateless.
Qed.

Lemma stateless_opRandom : stateless opRandom.
Proof.
  intros s. unfold opRandom, bind, get. destruct (OS_random (FS_ops s)); [done|]. simpl. by destruct (_ =? _).
Qed.

Lemma stateless_validateOpened (ino : Z) : stateless (validateOpenedRegularFile ino).
Proof. unfold validateOpenedRegularFile, opStat. solve_stateless. Qed.
#[export] Hint Resolve stateless_writeAll stateless_opRandom stateless_validateOpened : stateless.

#[export] Hint Extern 1 (stateless opClose) => apply stateless_syscall : stateless.
#[export] Hint Extern 1 (stateless opSeek) => apply stateless_syscall : stateless.
#[export] Hint Extern 1 (stateless opUnlock) => apply stateless_syscall : stateless.
#[export] Hint Extern 1 (stateless opSyncDirectory) => apply stateless_syscall : stateless.
#[export] Hint Extern 1 (stateless (opSync _)) => apply stateless_syscall : stateless.
#[export] Hint Extern 1 (stateless (opRemove _)) => apply stateless_syscall : stateless.
#[export] Hint Extern 1 (stateless (opRename _ _)) => apply stateless_syscall : stateless.
#[export] Hint Extern 1 (stateless (opCreate _)) => apply stateless_syscall : stateless.
#[export] Hint Extern 1 (stateless (opOpen _)) => apply stateless_syscall : stateless.
#[export] Hint Extern 1 (stateless (opLstat _)) => apply stateless_syscall : stateless.
#[export] Hint Extern 1 (stateless (opStat _)) => apply stateless_syscall : stateless.
#[export] Hint Extern 1 (stateless (opReadAt _ _ _)) => apply stateless_syscall : stateless.

Lemma stateless_newTemporary (prefix : string) : stateless (newTemporaryRegularFile prefix).
Proof. unfold newTemporaryRegularFile. solve_stateless. Qed.

Lemma stateless_openAnchored (name : string) (create : bool) : stateless (openAnchoredRegularFile name create).
Proof. unfold openAnchoredRegularFile. solve_stateless. Qed.
#[export] Hint Resolve stateless_newTemporary stateless_openAnchored : stateless.

Lemma stateless_joined (errs : list (option error)) : stateless (joined errs).
Proof. unfold joined. solve_stateless. Qed.
#[export] Hint Resolve stateless_joined : stateless.

Lemma stateless_abort : stateless abortFileStageLocked.
Proof.
  intros s. unfold abortFileStageLocked, bind at 1, get. destruct (FS_stage s); [|done].
  set (k := bind (attempt opClose) _). change (FS_state (k (s <| FS_stage := None |>)).2 = FS_state s).
  transitivity (FS_state (s <| FS_stage := None |>)); [|done]. assert (stateless k) as Hk; [|apply Hk].
  unfold k. solve_stateless.
Qed.
#[export] Hint Resolve stateless_abort : stateless.

Lemma stateless_reject {A} (e : error) : stateless (rejectFileStageLocked e : FS A).
Proof. unfold rejectFileStageLocked. solve_stateless. Qed.
#[export] Hint Resolve stateless_reject : stateless.

Lemma stateless_release : stateless releaseOpenResources.
Proof. unfold releaseOpenResources. solve_stateless. Qed.
#[export] Hint Resolve stateless_release : stateless.

Lemma stateless_installSnapshotFile (snapshot : Snapshot) (had : bool) : stateless (installSnapshotFile snapshot had).
Proof. unfold installSnapshotFile. solve_stateless. Qed.

Lemma stateless_replaceWAL (d : RecoveredState) : stateless (replaceWAL d).
Proof. unfold replaceWAL. solve_stateless. Qed.
#[export] Hint Resolve stateless_installSnapshotFile stateless_replaceWAL : stateless.

Lemma failsBefore_modify (f : FileStore → FileStore) : failsBefore (modify f).
Proof. done. Qed.

Ltac solve_failsBefore :=
  repeat match goal with
  | |- failsBefore (bind get _) => apply failsBefore_get; intros ?
  | |- failsBefore (bind _ _) => apply failsBefore_bind; [solve_stateless|intros ?]
  | |- failsBefore (modify _) => apply failsBefore_modify
  | |- failsBefore (match ?x with _ => _ end) => destruct x
  | |- failsBefore (let _ := _ in _) => cbv zeta
  | |- failsBefore _ => apply stateless_failsBefore; solve_stateless
  end.

Lemma failsBefore_persistSnapshotState (snapshot : Snapshot) (d : RecoveredState) :
  failsBefore (persistSnapshotStateLocked snapshot d).
Proof. unfold persistSnapshotStateLocked. solve_failsBefore. Qed.

Lemma failsBefore_Persist (sha256 : list byte → list byte) (b : PersistenceBatch) : failsBefore (FileStore_Persist sha256 b).
Proof. unfold FileStore_Persist, whileSound, whileOpen, openFile. solve_failsBefore. Qed.

Lemma failsBefore_PersistSnapshot (sha256 : list byte → list byte) (snapshot : Snapshot) :
  failsBefore (FileStore_PersistSnapshot sha256 snapshot).
Proof.
  unfold FileStore_PersistSnapshot, whileSound, whileOpen. 
  do 2 (apply failsBefore_get; intros ?; case_match; [by solve_failsBefore|]).
  apply failsBefore_get. intros s1. apply failsBefore_bind; [solve_stateless|]. intros d. apply failsBefore_persistSnapshotState.
Qed.

Lemma fwp_failsBefore {A} (C : Prop) (m : FS A) (E : FileStore → Prop) (Q : A → FileStore → Prop) (s : FileStore) :
  failsBefore m → fwp C m (λ s', FS_state s' = FS_state s → E s') Q s → fwp C m E Q s.
Proof.
  intros Hm H Hc. specialize (H Hc). specialize (Hm s). destruct (m s) as [[] s']; simpl in *; try done.
  destruct H. auto.
Qed.

Lemma fwp_stateless {A} (C : Prop) (m : FS A) (E : FileStore → Prop) (Q : A → FileStore → Prop) (s : FileStore) :
  stateless m → fwp C m (λ s', FS_state s' = FS_state s → E s') (λ a s', FS_state s' = FS_state s → Q a s') s → fwp C m E Q s.
Proof.
  intros Hm H Hc. specialize (H Hc). specialize (Hm s). destruct (m s) as [[] s']; simpl in *; try done; destruct H; auto.
Qed.

End RaftFileStoreInv.
