(* ===== verification/RaftFileStoreOps.v ===== *)
(** * The running file store

    Every operation of an open [FileStore], under any faults, succeeds with its
    effect, fails and leaves the store as it was, or fails, poisons the store and
    leaves a directory that recovers to the state before or after. *)

From stdpp Require Import strings.
From S2P Require Import Prelude RaftTypes RaftLog RaftVoters RaftCodec Hash RaftSnapshot RaftStorage RaftWAL RaftFileStore RaftFileRecovery RaftFileStoreInv.

Module RaftFileStoreOps.
Import RaftLog RaftVoters RaftCodec Hash RaftSnapshot RaftStorage RaftWAL RaftFileStore RaftFileRecovery RaftFileStoreInv.
Open Scope Z_scope.

(** ** Every pure step returns *)

Lemma encodeEntriesLoop_returns (es : list Entry) (n : list byte) : returns (encodeEntriesLoop n es).
Proof. revert n. induction es as [|e es IH]; intros n; simpl; [exact I|]. solve_returns. Qed.
#[local] Hint Resolve encodeEntriesLoop_returns : returns.

Lemma encodeRecords_returns (total : Z) (rs : list (Z * list byte)) : returns (encodeRecords total rs).
Proof.
  revert total. induction rs as [|[t p] rs IH]; intros total; simpl; [exact I|].
  apply outcome_bind_returns; [unfold encodeWALRecord; solve_returns|]. intros bytes _. solve_returns.
Qed.
#[local] Hint Resolve encodeRecords_returns : returns.

Lemma encodeWALTransaction_returns (id : Z) (b : PersistenceBatch) : returns (encodeWALTransaction id b).
Proof. unfold encodeWALTransaction, encodeTransactionBoundaryPayload, encodeEntriesPayload. solve_returns. Qed.

Lemma replacementBatch_returns (d : RecoveredState) : returns (replacementBatchForState d).
Proof. unfold replacementBatchForState. solve_returns. Qed.
#[local] Hint Resolve encodeWALTransaction_returns replacementBatch_returns : returns.

Section ops.
Context (sha256 : list byte → list byte) (identity : StorageIdentity) (voters : VoterSet) (limit : Z).
Context (Hlimit : 0 ≤ limit ≤ MaxRaftSnapshotBytes).
Context (Hempty : ValidateRecoveredState sha256 (emptyState identity) identity voters = Ok tt).
Context (sha256_length : ∀ l, length (sha256 l) = 32%nat) (Hidentity : identity_typed identity).
Context (C : Prop).

Abbreviation fwp := (fwp C).
Abbreviation good := (good sha256 identity voters limit).
Abbreviation recoverable := (recoverable sha256 identity voters limit).
Abbreviation holds := (holds sha256 identity limit).
Abbreviation seen := (seen sha256 identity voters limit).
Abbreviation written_to := (written sha256 identity voters).
Abbreviation encoded_identity := (encodeStorageIdentity identity).

(** ** The store at rest *)

Definition mine (s : FileStore) : Prop :=
  FS_identity s = identity ∧ FS_voters s = voters ∧ FS_snapshotLimit s = limit ∧
  (FS_closed s = true ∨ is_Some (FS_wal s)).

Lemma mine_wal (s : FileStore) (t : Z) : mine s → mine (s <| FS_wal := Some t |>).
Proof. intros (? & ? & ? & _). split_and!; [done..|right; by eexists]. Qed.

(** Three files, all durable. *)
Definition settled (i iw : Z) (isn : option Z) (so : option Snapshot) (content : list byte)
    (dk : disk) (c : core_files) : Prop :=
  c = mkFiles (Some i) (Some iw) isn None ∧ fixed dk i encoded_identity ∧ fixed dk iw content ∧
  holds dk isn so.

(** The directory of a store whose last operation is complete. *)
Definition at_rest (dk : disk) (wal : option Z) (next : Z) (d : RecoveredState) : Prop :=
  ∃ i iw isn so content w last,
    versions dk (settled i iw isn so content dk) ∧ wal = Some iw ∧ len content ≤ max_int ∧
    written_to content w last ∧ seen w so d ∧ next = (if last =? max_uint64 then 0 else last + 1).

Definition stage_ok (dk : disk) (stage : option fileSnapshotStage) : Prop :=
  match stage with
  | None => True
  | Some st => FSS_file st < D_next dk ∧ unused dk (FSS_file st)
  end.

Record live (s : FileStore) (d : RecoveredState) : Prop := {
  lv_mine : mine s;
  lv_closed : FS_closed s = false;
  lv_poisoned : FS_poisoned s = false;
  lv_state : FS_state s = d;
  lv_disk : at_rest (theDisk s) (FS_wal s) (FS_nextTxnID s) d;
  lv_stage : stage_ok (theDisk s) (FS_stage s)
}.

(** A store that refuses to write, on a directory that recovers to a state of [D]. *)
Record broken (D : RecoveredState → Prop) (s : FileStore) : Prop := {
  br_mine : mine s;
  br_shut : FS_poisoned s = true ∨ FS_closed s = true;
  br_disk : recoverable (theDisk s) D
}.

Lemma settled_stable (i iw : Z) (isn : option Z) (so : option Snapshot) (content : list byte) :
  stable (settled i iw isn so content).
Proof.
  intros dk dk' c Hf (-> & Hi & Hw & Hs). split_and!; [done| | |].
  - revert Hi. apply fixed_agree, Hf. by left.
  - revert Hw. apply fixed_agree, Hf. by right; left.
  - revert Hs. apply holds_agree. intros ino ->. apply Hf. by right; right; left.
Qed.

Lemma versions_any (dk : disk) (P : core_files → Prop) : versions dk P → versions dk (λ _, True).
Proof. by apply versions_mono. Qed.

Lemma at_rest_versions (dk : disk) (wal : option Z) (next : Z) (d : RecoveredState) :
  at_rest dk wal next d → versions dk (λ _, True).
Proof. intros (i & iw & isn & so & content & w & last & Hv & _). by eapply versions_any. Qed.

Lemma at_rest_quiet (dk dk' : disk) (wal : option Z) (next : Z) (d : RecoveredState) :
  quiet dk dk' → at_rest dk wal next d → at_rest dk' wal next d.
Proof.
  intros Hq (i & iw & isn & so & content & w & last & Hv & Hr). exists i, iw, isn, so, content, w, last.
  split; [|done]. apply (q_versions _ _ Hq); [apply settled_stable|done].
Qed.

Lemma stage_ok_quiet (dk dk' : disk) (stage : option fileSnapshotStage) :
  quiet dk dk' → versions dk (λ _, True) → stage_ok dk stage → stage_ok dk' stage.
Proof.
  intros Hq Hv. destruct stage as [st|]; [|done]. intros [Hn Hu]. split; [destruct Hq; lia|].
  by apply (quiet_unused dk).
Qed.

Lemma live_calm (d : RecoveredState) : calm (λ s, live s d).
Proof.
  intros s o Hq [Hm Hc Hp Hs Hd Hst]. split; try done; simpl.
  - by apply (at_rest_quiet (theDisk s)).
  - apply (stage_ok_quiet (theDisk s)); [done| |done]. by eapply at_rest_versions.
Qed.

Lemma broken_calm (D : RecoveredState → Prop) : calm (broken D).
Proof.
  intros s o Hq [Hm Hs Hd]. split; try done. apply (q_versions _ _ Hq (λ dk, good dk D)); [apply good_stable|done].
Qed.

Lemma settled_recoverable (dk : disk) (i iw last : Z) (isn : option Z) (so : option Snapshot) (content : list byte)
    (w d : RecoveredState) :
  versions dk (settled i iw isn so content dk) → len content ≤ max_int → written_to content w last → seen w so d →
  recoverable dk (λ x, x = d).
Proof.
  intros Hv Hl Hw Hsn. revert Hv. apply versions_mono.
  intros c (-> & Hi & Hwf & Hh). split; [eauto|]. exists so, None. split_and!; [done|done|].
  intros c' (f & Hf & Hsv). rewrite (fixed_survives _ _ _ _ _ Hwf Hf Hsv).
  exists w, last, d. split_and!; [by apply written_log_bytes| |done].
  apply pick_only; [done| |done]. by apply (written_wf _ _ _ Hempty content w last).
Qed.

Lemma at_rest_recoverable (dk : disk) (wal : option Z) (next : Z) (d : RecoveredState) :
  at_rest dk wal next d → recoverable dk (λ x, x = d).
Proof.
  intros (i & iw & isn & so & content & w & last & Hv & -> & Hl & Hw & Hsn & _). by eapply settled_recoverable.
Qed.

Lemma live_recoverable (s : FileStore) (d : RecoveredState) : live s d → recoverable (theDisk s) (λ x, x = d).
Proof. intros H. by eapply at_rest_recoverable, (lv_disk _ _ H). Qed.

(** ** Appending to the log *)

Lemma settled_distinct (dk : disk) (i iw : Z) (isn : option Z) (so : option Snapshot) (content : list byte) :
  versions dk (settled i iw isn so content dk) → i ≠ iw ∧ isn ≠ Some i ∧ isn ≠ Some iw.
Proof.
  intros Hv. destruct (versions_now _ _ Hv) as [[_ Hd] (Hc & _)]. injection Hc as Hi Hw Hs _.
  split_and!; intros ->.
  - by specialize (Hd _ _ _ Hi Hw).
  - by specialize (Hd _ _ _ Hi Hs).
  - by specialize (Hd _ _ _ Hw Hs).
Qed.

Section append.
Context (dk : disk) (i iw : Z) (isn : option Z) (so : option Snapshot) (content bytes : list byte).
Context (w w' d d' : RecoveredState) (last : Z) (b : PersistenceBatch).
Context (Hv : versions dk (settled i iw isn so content dk)) (Hlen : len content ≤ max_int).
Context (Hw : written_to content w last) (Hd : seen w so d) (Hlast : last < max_uint64) (Hb : batch_values b).
Context (Henc : encodeWALTransaction (last + 1) b = Ok bytes).
Context (Hw' : written_to (content ++ bytes) w' (last + 1)) (Hd' : seen w' so d').

(** Any prefix of the transaction may have reached the log. *)
Lemma append_log_bytes (t : list byte) :
  t `prefix_of` bytes → t = [] ∨ len content + len bytes ≤ max_int →
  ∃ x last' st, log_bytes sha256 identity voters (content ++ t) x last' ∧
    pick sha256 identity voters limit x so None = Some st ∧ (st = d ∨ st = d').
Proof.
  intros Ht Hmx. destruct (decide (length t < length bytes)%nat) as [Hlt|Hge].
  - exists w, last, d. split_and!; [| |by left].
    + exists content, t. split_and!; [done|done| |].
      * destruct Hmx as [->|Hmx]; [by rewrite app_nil_r|]. rewrite len_app. unfold len in *. lia.
      * destruct Hmx as [->|Hmx]; [by left|]. right. exists b, bytes. split_and!; try done.
    + apply pick_only; [done| |done]. by apply (written_wf _ _ _ Hempty content w last).
  - assert (t = bytes) as ->.
    { destruct Ht as [k ->]. rewrite length_app in Hge. destruct k; [by rewrite app_nil_r|simpl in Hge; lia]. }
    exists w', (last + 1), d'. split_and!; [| |by right].
    + apply written_log_bytes; [done|]. rewrite len_app. destruct Hmx as [->|]; [|done].
      change (len []) with 0. lia.
    + apply pick_only; [done| |done]. by apply (written_wf _ _ _ Hempty (content ++ bytes) w' (last + 1)).
Qed.

(** The log while the transaction is written. *)
Lemma append_recoverable (g : osFile → osFile) :
  (∀ o, OF_info (g o) = OF_info o) →
  (∀ f c', OF_content f = content → OF_durable f = content → survives (g f) c' →
     ∃ t, c' = content ++ t ∧ t `prefix_of` bytes ∧ (t = [] ∨ len content + len bytes ≤ max_int)) →
  recoverable (updateFile iw g dk) (λ x, x = d ∨ x = d').
Proof.
  intros Hg Hs. destruct (settled_distinct _ _ _ _ _ _ Hv) as (Hi & _ & Hsn).
  pose proof (versions_update _ _ iw g Hg Hv) as Hu. revert Hu. apply versions_mono.
  intros c (-> & Hid & (f & Hf & Hc & Hdur) & Hh). split; simpl.
  - exists i. split; [done|]. revert Hid. by apply fixed_agree, alike_update.
  - exists so, None. split_and!; [|done|].
    + revert Hh. apply holds_agree. intros ino Ho. apply alike_update. congruence.
    + intros c' (f' & Hf' & Hsv). rewrite lookup_alter_eq, Hf in Hf'. injection Hf' as <-.
      destruct (Hs f c' Hc Hdur Hsv) as (t & -> & Ht & Hmx). by apply append_log_bytes.
Qed.

Lemma append_written (n : nat) :
  n = 0%nat ∨ len content + len bytes ≤ max_int →
  recoverable (setContent iw (content ++ take n bytes) dk) (λ x, x = d ∨ x = d').
Proof.
  intros Hn. apply append_recoverable; [done|]. intros f c' Hc Hdur Hs.
  assert (∃ t, c' = content ++ t ∧ t `prefix_of` take n bytes) as (t & -> & Ht).
  { destruct Hs as [Hs|[Hs|[[t Hs] Hq]]]; simpl in *.
    - by exists (take n bytes).
    - exists []. rewrite app_nil_r. split; [congruence|apply prefix_nil].
    - exists t. rewrite Hdur in Hs. subst c'. split; [done|]. by apply prefix_app_inv in Hq. }
  exists t. split_and!; [done| |].
  - etrans; [done|apply prefix_take].
  - destruct Hn as [->|]; [left|by right]. rewrite take_0 in Ht. by apply prefix_nil_inv.
Qed.

Definition synced : disk := updateFile iw (λ f, f <| OF_durable := OF_content f |>) (setContent iw (content ++ bytes) dk).

Lemma synced_settled : versions synced (settled i iw isn so (content ++ bytes) synced).
Proof.
  destruct (settled_distinct _ _ _ _ _ _ Hv) as (Hi & _ & Hsn).
  assert (versions synced (settled i iw isn so content dk)) as Hs by (do 2 (apply versions_update; [done|]); done).
  revert Hs. apply versions_mono. intros c (-> & Hid & (f & Hf & Hc & Hdur) & Hh).
  assert (∀ x, x ≠ iw → D_files synced !! x = D_files dk !! x) as Hag.
  { intros x Hx. etrans; by apply alike_update. }
  split_and!; [done| | |].
  - revert Hid. by apply fixed_agree, Hag.
  - exists (f <| OF_content := content ++ bytes |> <| OF_durable := content ++ bytes |>). simpl.
    split; [|done]. by rewrite !lookup_alter_eq, Hf.
  - revert Hh. apply holds_agree. intros ino Ho. apply Hag. congruence.
Qed.
End append.

(** ** Outcomes of an operation *)

(** The store stopped with [d] in memory. *)
Definition halted (d : RecoveredState) (D : RecoveredState → Prop) (s : FileStore) : Prop :=
  FS_state s = d ∧ broken D s.

(** A failed operation: without effect, or without acknowledgement. *)
Definition failed (op : store_op) (d : RecoveredState) (s : FileStore) : Prop :=
  live s d ∨ halted d (λ x, x = d ∨ store_effect sha256 identity voters limit d op x) s ∨
  ∃ d', store_effect sha256 identity voters limit d op d' ∧ halted d' (λ x, x = d') s.

Lemma broken_mono (D D' : RecoveredState → Prop) (s : FileStore) : (∀ x, D x → D' x) → broken D s → broken D' s.
Proof. intros H []. split; [done|done|]. by eapply recoverable_mono. Qed.

Definition sane (D : RecoveredState → Prop) (s : FileStore) : Prop := mine s ∧ recoverable (theDisk s) D.

Lemma sane_calm (D : RecoveredState → Prop) : calm (sane D).
Proof. intros s o Hq [Hm Hd]. split; [done|]. apply (q_versions _ _ Hq (λ dk, good dk D)); [apply good_stable|done]. Qed.

Lemma fwp_poison {A} (m : FS A) (D : RecoveredState → Prop) (E : FileStore → Prop) (Q : A → FileStore → Prop)
    (s : FileStore) :
  fwp m (sane D) Q s → (∀ s', broken D s' → E s') → fwp (poisoning m) E Q s.
Proof.
  intros H HE. apply fwp_poisoning. eapply fwp_mono; [done| |done]. intros s' [Hm Hd]. apply HE.
  split; [done|by left|done].
Qed.

Lemma fwp_whileSound {A} (m : FS A) (E : FileStore → Prop) (Q : A → FileStore → Prop) (s : FileStore) (d : RecoveredState) :
  live s d → fwp m E Q s → fwp (whileSound m) E Q s.
Proof.
  intros Hl H. apply fwp_get. rewrite (lv_closed _ _ Hl). apply fwp_get. by rewrite (lv_poisoned _ _ Hl).
Qed.

Lemma contentOf_fixed (dk : disk) (ino : Z) (c : list byte) : fixed dk ino c → contentOf dk ino = c.
Proof. intros (f & Hf & Hc & _). unfold contentOf. by rewrite Hf. Qed.

(** The writes of [Persist]. *)
Lemma append_law (s : FileStore) (d d' w w' : RecoveredState) (i iw last : Z) (isn : option Z) (so : option Snapshot)
    (content bytes : list byte) (b : PersistenceBatch) (k : FS unit) (E : FileStore → Prop) (Q : unit → FileStore → Prop) :
  mine s → versions (theDisk s) (settled i iw isn so content (theDisk s)) → len content ≤ max_int →
  written_to content w last → seen w so d → last < max_uint64 → batch_values b →
  encodeWALTransaction (last + 1) b = Ok bytes → written_to (content ++ bytes) w' (last + 1) → seen w' so d' →
  (∀ s', broken (λ x, x = d ∨ x = d') s' → E s') →
  (len content + len bytes ≤ max_int → onDisk (fwp k E Q) (synced (theDisk s) iw content bytes) s) →
  fwp (poisoning opSeek ;;!
       poisoning (writeAll iw (length content) bytes) ;;!
       poisoning (opSync iw) ;;! k) E Q s.
Proof.
  intros Hm Hv Hlen Hw Hd Hlast Hb Henc Hw' Hd' HE HQ. set (D := λ x, x = d ∨ x = d') in *.
  pose proof (append_written (theDisk s) i iw isn so content bytes w w' d d' last b Hv Hlen Hw Hd Hlast Hb Henc Hw' Hd') as Hwr.
  destruct (versions_now _ _ Hv) as [_ (_ & _ & (f & Hf & Hc & Hdur) & _)].
  assert (recoverable (theDisk s) D) as Hnow.
  { specialize (Hwr 0%nat (or_introl eq_refl)). rewrite take_0, app_nil_r, <- Hc in Hwr.
    by rewrite (setContent_same _ _ _ Hf) in Hwr. }
  assert (∀ o, OS_disk o = theDisk s → sane D (withOS s o)) as Hsane by (intros o Ho; split; [done|by rewrite <- Ho in Hnow]).
  apply fwp_bind, (fwp_poison _ D); [|done]. apply fwp_inspect; [by intros _|]. intros o1 Ho1.
  apply fwp_bind, (fwp_poison _ D); [|done]. rewrite <- Hc. apply (fwp_writeAll _ _ _ f).
  { simpl. by rewrite Ho1. }
  { rewrite Hc. intros n Hn o Ho. split; [done|]. simpl in *. rewrite Ho, Ho1. by apply Hwr. }
  rewrite Hc. intros Hmx o2 Ho2. simpl in Ho2. rewrite Ho1 in Ho2.
  assert (len content + len bytes ≤ max_int) as Hmx'.
  { destruct Hmx as [->|]; [|done]. change (len []) with 0. lia. }
  apply fwp_bind, (fwp_poison _ D); [|done].
  assert (∀ o, OS_disk o = setContent iw (content ++ bytes) (theDisk s) → recoverable (OS_disk o) D) as Hwhole.
  { intros o ->. specialize (Hwr (length bytes) (or_intror Hmx')). by rewrite firstn_all in Hwr. }
  apply fwp_syscall; simpl; rewrite Ho2.
  - intros _. split; intros o Ho; (split; [done|]); [by apply Hwhole|]. simpl. rewrite Ho.
    apply (recoverable_mono _ _ _ _ _ (λ x, x = d')); [by right|].
    eapply settled_recoverable; [by apply (synced_settled _ i _ isn so)|by rewrite len_app|done|done].
  - intros o Ho. by apply HQ.
Qed.

Lemma Persist_law (s : FileStore) (d : RecoveredState) (b : PersistenceBatch) :
  live s d → node_op d (SPersist b) →
  fwp (FileStore_Persist sha256 b) (failed (SPersist b) d)
    (λ _ s', ∃ d', store_effect sha256 identity voters limit d (SPersist b) d' ∧ live s' d') s.
Proof.
  intros Hl (Hb & Hbase & Hsn). apply fwp_failsBefore; [apply failsBefore_Persist|].
  rewrite (lv_state _ _ Hl). eapply fwp_whileSound; [done|]. apply fwp_get. rewrite Hsn.
  pose proof (lv_mine _ _ Hl) as Hm.
  pose proof Hl as [(Hid & Hvo & Hli & _) Hcl Hpo Hst (i & iw & isn & so & content & w & last & Hv & Hwal & Hlen & Hw & Hd & Hnext) Hstage].
  assert (∀ s', live s' d → FS_state s' = d → failed (SPersist b) d s') as Hsame by (by left).
  apply fwp_bind, fwp_lift; [auto with returns| |by auto]. intros [] Hbounds.
  pose proof (written_last _ _ _ _ _ _ Hw) as Hrange.
  case_goal; [apply fwp_throw; auto|]. bool_hyps.
  assert (last < max_uint64) as Hlast by (revert Hnext; case_goal; bool_hyps; lia).
  assert (FS_nextTxnID s = last + 1) as Hn by (rewrite Hnext; case_goal; [absurd_bool|done]).
  rewrite Hid, Hvo, Hst, Hn. apply fwp_bind, fwp_lift; [auto with returns| |by auto]. intros d' Hd'.
  apply fwp_bind, fwp_lift; [auto with returns| |by auto]. intros bytes Henc.
  rewrite Hwal. apply fwp_bind, fwp_ret. destruct (versions_now _ _ Hv) as [_ (_ & _ & Hfix & _)].
  rewrite (contentOf_fixed _ _ _ Hfix).
  assert (recovered_wf sha256 identity voters MaxRaftSnapshotBytes w) as Hwf by (by eapply written_wf).
  destruct (written_typed _ _ _ _ _ _ Hw) as (_ & Hnos & Hents).
  destruct (seen_persist sha256 identity voters limit Hlimit w so d d' b) as (w' & Hw' & Hd''); try done; [lia|].
  assert (written_to (content ++ bytes) w' (last + 1)) as Hwr.
  { econstructor; try done. replace (b <| PB_Snapshot := None |>) with b by (destruct b; simpl in *; by subst).
    unfold applyPersistenceBatch. by rewrite Hbounds. }
  assert (store_effect sha256 identity voters limit d (SPersist b) d') as Heff.
  { simpl. unfold applyPersistenceBatch. by rewrite Hbounds. }
  eapply append_law; try done.
  { intros s' Hbr Hst'. right. left. split; [done|]. revert Hbr. apply broken_mono. intros x [->| ->]; auto. }
  intros Hmx o Ho. apply fwp_modify; [done|]. exists d'. split; [done|]. split; try done; simpl.
  - rewrite Hn, Ho. exists i, iw, isn, so, (content ++ bytes), w', (last + 1). split_and!; try done.
    + by apply synced_settled.
    + by rewrite len_app.
  - destruct (FS_stage s) as [st|]; [|done]. destruct Hstage as [Hs1 Hs2]. simpl. by rewrite Ho.
Qed.

(** ** A new file *)

(** A temporary file under construction. *)
Record draft (dk0 dk : disk) (name : string) (t : Z) (bytes : list byte) (durable : bool) : Prop := {
  dr_quiet : quiet dk0 dk;
  dr_name : isStaleName name = true;
  dr_entry : D_entries dk !! name = Some t;
  dr_file : ∃ f, D_files dk !! t = Some f ∧ OF_content f = bytes ∧ (durable = true → OF_durable f = bytes);
  dr_fresh : D_next dk0 ≤ t < D_next dk;
  dr_unused : unused dk t
}.

Lemma temporary_draft (dk0 dk : disk) (name : string) (t : Z) :
  temporary dk0 dk name t → draft dk0 dk name t [] true.
Proof. intros []. split; try done. eauto. Qed.

Lemma draft_update (dk0 dk : disk) (name : string) (t : Z) (bytes bytes' : list byte) (b b' : bool)
    (g : osFile → osFile) :
  (∀ o, OF_info (g o) = OF_info o) →
  (∀ f, OF_content f = bytes → OF_content (g f) = bytes' ∧ (b' = true → OF_durable (g f) = bytes')) →
  draft dk0 dk name t bytes b → draft dk0 (updateFile t g dk) name t bytes' b'.
Proof.
  intros Hg Hb [Hq Hn He (f & Hf & Hc & _) Hfr Hu]. pose proof (quiet_update dk t g Hg Hu) as Hq'.
  split; try done.
  - by eapply quiet_trans.
  - exists (g f). simpl. rewrite lookup_alter_eq, Hf. split; [done|by apply Hb].
Qed.

Lemma sane_quiet (D : RecoveredState → Prop) (s : FileStore) (o : os) :
  sane D s → quiet (theDisk s) (OS_disk o) → sane D (withOS s o).
Proof. intros H Hq. by apply sane_calm. Qed.

Section new_file.
Context (D : RecoveredState → Prop) (dk0 : disk) (s : FileStore) (name : string) (t : Z) (Q : unit → FileStore → Prop).
Context (Hs : sane D s).

Lemma fwp_fill (bytes : list byte) :
  draft dk0 (theDisk s) name t [] true →
  (∀ o, len bytes ≤ max_int → draft dk0 (OS_disk o) name t bytes false → Q tt (withOS s o)) →
  fwp (writeAll t 0 bytes) (sane D) Q s.
Proof.
  intros Hd HQ. destruct (dr_file _ _ _ _ _ _ Hd) as (f & Hf & Hc & _).
  change 0%nat with (length (@nil byte)). rewrite <- Hc. apply (fwp_writeAll _ _ _ f); [done| |]; rewrite Hc.
  - intros n _ o Ho. apply sane_quiet; [done|]. rewrite Ho. apply quiet_update; [done|apply Hd].
  - intros Hmx o Ho. apply HQ; [by destruct Hmx as [->|Hmx]; [vm_compute|]|]. rewrite Ho. by apply (draft_update dk0 _ _ _ [] _ true false).
Qed.

Lemma fwp_settle (bytes : list byte) (b : bool) :
  draft dk0 (theDisk s) name t bytes b →
  (∀ o, draft dk0 (OS_disk o) name t bytes true → Q tt (withOS s o)) →
  fwp (opSync t) (sane D) Q s.
Proof.
  intros Hd HQ. apply fwp_syscall; simpl.
  - intros _. split; intros o Ho; (apply sane_quiet; [done|]); rewrite Ho; [apply quiet_refl|].
    apply quiet_update; [done|apply Hd].
  - intros o Ho. apply HQ. rewrite Ho. by apply (draft_update dk0 _ _ _ bytes bytes b true).
Qed.
End new_file.

(** A rename whose two sides both recover. *)
Lemma fwp_rename (D : RecoveredState → Prop) (s : FileStore) (old new : string) (ino : Z) (Q : unit → FileStore → Prop) :
  D_entries (theDisk s) !! old = Some ino → sane D s →
  recoverable (setEntries (<[new := ino]> (delete old (D_entries (theDisk s)))) (theDisk s)) D →
  onDisk (Q tt) (setEntries (<[new := ino]> (delete old (D_entries (theDisk s)))) (theDisk s)) s →
  fwp (opRename old new) (sane D) Q s.
Proof.
  intros He [Hm Hr] Hr' HQ. apply fwp_syscall; simpl; rewrite He; simpl; [|done].
  intros _. split; intros o Ho; (split; [done|]); simpl; by rewrite Ho.
Qed.

(** ** Replacing the snapshot and the log *)

Lemma fwp_syncDirectory (D : RecoveredState → Prop) (s : FileStore) (Q : unit → FileStore → Prop) :
  sane D s → onDisk (Q tt) ((theDisk s) <| D_older := [] |>) s → fwp opSyncDirectory (sane D) Q s.
Proof.
  intros Hs HQ. apply fwp_syscall; simpl; [|done].
  intros _. split; intros o Ho; (apply sane_quiet; [done|]); rewrite Ho; [apply quiet_refl|apply quiet_sync].
Qed.

(** Fixed files that select a state of [D]. *)
Lemma good_core (dk : disk) (D : RecoveredState → Prop) (i iw last : Z) (cn pn : option Z) (cs ps : option Snapshot)
    (content : list byte) (w x : RecoveredState) :
  fixed dk i encoded_identity → fixed dk iw content → holds dk cn cs → holds dk pn ps →
  len content ≤ max_int → written_to content w last → pick sha256 identity voters limit w cs ps = Some x → D x →
  good dk D (mkFiles (Some i) (Some iw) cn pn).
Proof.
  intros Hi Hw Hc Hp Hl Hwr Hx HD. split; [eauto|]. exists cs, ps. split_and!; [done|done|].
  intros c' (f & Hf & Hsv). rewrite (fixed_survives _ _ _ _ _ Hw Hf Hsv).
  exists w, last, x. split_and!; [by apply written_log_bytes|done|done].
Qed.

Section install.
Context (dk0 : disk) (i iw : Z) (isn : option Z) (so : option Snapshot) (content : list byte).
Context (w d d' : RecoveredState) (last : Z) (sn : Snapshot).
Context (Hv0 : versions dk0 (settled i iw isn so content dk0)) (Hlen : len content ≤ max_int).
Context (Hw : written_to content w last) (Hd : seen w so d).
Context (Hsn : RS_Snapshot d' = Some sn) (Hdec : decoded sha256 identity limit sn).
Context (Hwf' : recovered_wf sha256 identity voters limit d').
Context (Hmid : ∃ x, pick sha256 identity voters limit w (Some sn) so = Some x ∧ (x = d ∨ x = d')).
Abbreviation D := (λ x, x = d ∨ x = d').
Abbreviation env := (Snapshot_envelope sn).

(** The files of before. *)
Definition kept (dk : disk) : Prop := fixed dk i encoded_identity ∧ fixed dk iw content ∧ holds dk isn so.

Lemma log_wf : recovered_wf sha256 identity voters MaxRaftSnapshotBytes w.
Proof. by apply (written_wf _ _ _ Hempty content w last). Qed.

Lemma good_before (dk : disk) : kept dk → good dk D (mkFiles (Some i) (Some iw) isn None).
Proof.
  intros (Hi & Hl & Hs). eapply (good_core dk D i iw last isn None so None content w d); try done; [|by left].
  apply pick_only; [done|apply log_wf|done].
Qed.

Lemma good_demoted (dk : disk) : kept dk → good dk D (mkFiles (Some i) (Some iw) None isn).
Proof.
  intros (Hi & Hl & Hs). eapply (good_core dk D i iw last None isn None so content w d); try done; [|by left].
  apply pick_previous; [done|apply log_wf|done|done].
Qed.

Lemma good_installed (dk : disk) (t : Z) :
  kept dk → fixed dk t env → good dk D (mkFiles (Some i) (Some iw) (Some t) isn).
Proof.
  intros (Hi & Hl & Hs) Ht. destruct Hmid as (x & Hx & HD).
  by eapply (good_core dk D i iw last (Some t) isn (Some sn) so content w x).
Qed.

(** The new log goes with the new snapshot, whatever is left of the old one. *)
Lemma good_replaced (dk : disk) (t t2 : Z) (pn : option Z) (ps : option Snapshot) (bytes : list byte) :
  fixed dk i encoded_identity → holds dk pn ps → fixed dk t env → fixed dk t2 bytes → len bytes ≤ max_int →
  written_to bytes (d' <| RS_Snapshot := None |>) 1 → good dk (λ x, x = d') (mkFiles (Some i) (Some t2) (Some t) pn).
Proof.
  intros Hi Hp Ht Ht2 Hl Hwr.
  eapply (good_core dk _ i t2 1 (Some t) pn (Some sn) ps bytes _ d'); try done.
  apply pick_current; [done|by apply (written_wf _ _ _ Hempty bytes _ 1)|]. by apply nosnap_seen.
Qed.

(** The new snapshot is durable under a temporary name; [c] is in use. *)
Record ready (c : core_files) (name : string) (t : Z) (dk : disk) : Prop := {
  rd_versions : versions dk (λ c', c' = c);
  rd_kept : kept dk;
  rd_name : isStaleName name = true;
  rd_entry : D_entries dk !! name = Some t;
  rd_file : fixed dk t env;
  rd_fresh : D_next dk0 ≤ t < D_next dk
}.

Lemma draft_ready (dk : disk) (name : string) (t : Z) :
  draft dk0 dk name t env true → ready (mkFiles (Some i) (Some iw) isn None) name t dk.
Proof.
  intros [Hq Hn He (f & Hf & Hc & Hdur) Hfr Hu].
  pose proof (q_versions _ _ Hq _ (settled_stable i iw isn so content) Hv0) as Hv.
  split; try done.
  - revert Hv. apply versions_mono. by intros c (-> & _).
  - by destruct (versions_now _ _ Hv) as [_ (_ & ?)].
  - exists f. auto.
Qed.

(** One rename and the sync that settles it. *)
Lemma renamed_recoverable (dk : disk) (P : core_files → Prop) (old new : string) (ino : Z) :
  versions dk P → D_entries dk !! old = Some ino → isCoreName new = true →
  (∀ c, P c → good dk D c) → good dk D (core_of (<[new := ino]> (delete old (D_entries dk)))) →
  recoverable (setEntries (<[new := ino]> (delete old (D_entries dk))) dk) D.
Proof.
  intros Hv He Hn HP Hg. destruct (versions_now _ _ Hv) as [Hok _].
  assert (names_ok dk (<[new := ino]> (delete old (D_entries dk)))) as Hok'.
  { apply names_ok_rename; [done|by rewrite Hn, orb_true_r|done]. }
  pose proof (versions_set _ _ _ Hok' Hv) as Hs. revert Hs. apply versions_mono.
  intros c [Hc| ->]; [apply HP in Hc; revert Hc|revert Hg]; by apply good_stable.
Qed.

Lemma demote_law (s : FileStore) (name : string) (t : Z) (E : FileStore → Prop) (Q : unit → FileStore → Prop) :
  mine s → ready (mkFiles (Some i) (Some iw) isn None) name t (theDisk s) → (∀ s', broken D s' → E s') →
  (∀ o, ready (mkFiles (Some i) (Some iw) None isn) name t (OS_disk o) → Q tt (withOS s o)) →
  fwp (if isSome isn then
         poisoning (opRename RaftSnapshotFilename raftSnapshotPreviousFilename) ;;!
         poisoning opSyncDirectory
       else ret tt) E Q s.
Proof.
  intros Hm [Hv Hk Hn He Hf Hfr] HE HQ. destruct isn as [ino|] eqn:Hisn; simpl.
  2: { apply fwp_ret. destruct s as [? ? ? ? ? ? ? ? o]. apply (HQ o). by split. }
  destruct (versions_now _ _ Hv) as [Hok Hc]. assert (D_entries (theDisk s) !! RaftSnapshotFilename = Some ino) as Hs.
  { by injection Hc. }
  set (dk' := setEntries (<[raftSnapshotPreviousFilename := ino]> (delete RaftSnapshotFilename (D_entries (theDisk s)))) (theDisk s)).
  assert (core_of (D_entries dk') = mkFiles (Some i) (Some iw) None (Some ino)) as Hc' by (simpl; by rewrite core_demote, Hc).
  assert (recoverable dk' D) as Hr'.
  { apply (renamed_recoverable _ _ _ _ _ Hv); [done|done| |].
    - intros c ->. rewrite <- Hisn. by apply good_before.
    - simpl in Hc'. rewrite Hc', <- Hisn. by apply good_demoted. }
  apply fwp_bind, (fwp_poison _ D); [|done]. apply (fwp_rename _ _ _ _ ino); [done| |done|].
  { split; [done|]. revert Hv. apply versions_mono. intros c ->. rewrite <- Hisn. by apply good_before. }
  intros o1 Ho1. apply (fwp_poison _ D); [|done]. apply fwp_syncDirectory; [split; [done|by simpl; rewrite Ho1]|].
  simpl. rewrite Ho1. intros o2 Ho2. apply (HQ o2). rewrite Ho2. pose proof (versions_sync _ _ Hr') as Hv'.
  rewrite Hc' in Hv'. split; try done. simpl.
  rewrite lookup_insert_ne, lookup_delete_ne; [done|..]; intros <-; by apply stale_not_core in Hn.
Qed.

(** The new snapshot is in place. *)
Record placed (t : Z) (dk : disk) : Prop := {
  pl_versions : versions dk (λ c, c = mkFiles (Some i) (Some iw) (Some t) isn);
  pl_kept : kept dk;
  pl_file : fixed dk t env;
  pl_fresh : D_next dk0 ≤ t < D_next dk
}.

Lemma place_law (s : FileStore) (name : string) (t : Z) (E : FileStore → Prop) (Q : unit → FileStore → Prop) :
  mine s → ready (mkFiles (Some i) (Some iw) None isn) name t (theDisk s) → (∀ s', broken D s' → E s') →
  (∀ o, recoverable (OS_disk o) D → placed t ((OS_disk o) <| D_older := [] |>) → Q tt (withOS s o)) →
  fwp (poisoning (opRename name RaftSnapshotFilename)) E Q s.
Proof.
  intros Hm [Hv Hk Hn He Hf Hfr] HE HQ. destruct (versions_now _ _ Hv) as [Hok Hc].
  set (dk' := setEntries (<[RaftSnapshotFilename := t]> (delete name (D_entries (theDisk s)))) (theDisk s)).
  assert (core_of (D_entries dk') = mkFiles (Some i) (Some iw) (Some t) isn) as Hc' by (simpl; by rewrite core_put_snapshot, Hc).
  assert (recoverable dk' D) as Hr'.
  { apply (renamed_recoverable _ _ _ _ _ Hv); [done|done| |].
    - intros c ->. by apply good_demoted.
    - simpl in Hc'. rewrite Hc'. by apply good_installed. }
  apply (fwp_poison _ D); [|done]. apply (fwp_rename _ _ _ _ t); [done| |done|].
  { split; [done|]. revert Hv. apply versions_mono. intros c ->. by apply good_demoted. }
  intros o Ho. apply (HQ o); rewrite Ho; [done|]. pose proof (versions_sync _ _ Hr') as Hv'.
  rewrite Hc' in Hv'. by split.
Qed.

Lemma installSnapshotFile_law (s : FileStore) (snapshot : Snapshot) (E : FileStore → Prop) (Q : unit → FileStore → Prop) :
  live s d → theDisk s = dk0 → Snapshot_envelope snapshot = env →
  (∀ s', live s' d → E s') → (∀ s', broken D s' → E s') →
  (∀ o t, placed t (OS_disk o) → Q tt (withOS s o)) →
  fwp (installSnapshotFile snapshot (isSome isn)) E Q s.
Proof.
  intros Hl Hdk He HEl HE HQ. pose proof (lv_mine _ _ Hl) as Hm. unfold installSnapshotFile. rewrite He.
  apply fwp_bind. eapply fwp_mono with (Q := λ r s', fwp _ E Q s');
    [apply (fwp_newTemporary C _ (live_calm d)); [by left| |done|]|exact HEl|by intros ???].
  { rewrite Hdk. by eapply versions_any. }
  intros o1 name t Ht. rewrite Hdk in Ht. apply temporary_draft in Ht.
  assert (∀ o b bs, draft dk0 (OS_disk o) name t bs b → sane D (withOS s o)) as Hsane.
  { intros o b bs Ho. split; [done|]. apply live_recoverable in Hl. rewrite Hdk in Hl. simpl.
    apply (q_versions _ _ (dr_quiet _ _ _ _ _ _ Ho) (λ dk, good dk D)); [apply good_stable|].
    revert Hl. apply recoverable_mono. by left. }
  apply fwp_bind. eapply fwp_onError with (E' := broken D).
  2: { intros s' Hb. eapply fwp_mono; [apply (calm_opRemove C _ (broken_calm D)); [left; apply Ht|done]|done|done]. }
  apply fwp_bind. eapply fwp_onError with (E' := broken D).
  2: { intros s' Hb. by apply (calm_opClose C _ (broken_calm D)). }
  apply fwp_bind, (fwp_poison _ D); [|done]. apply (fwp_fill D dk0 _ name); [by eapply Hsane|done|].
  intros o2 _ Ho2.
  apply (fwp_poison _ D); [|done]. apply (fwp_settle D dk0 _ name t _ ltac:(by eapply Hsane) env false); [done|].
  intros o3 Ho3. apply fwp_bind, (fwp_poison _ D); [|done].
  apply fwp_inspect; [intros _ o Ho; apply (Hsane o true env); by rewrite Ho|]. intros o4 Ho4. simpl in Ho4.
  rewrite <- Ho4 in Ho3. apply draft_ready in Ho3.
  apply fwp_bind. apply (demote_law _ name t); [done|done|done|]. intros o5 Ho5.
  apply (place_law _ name t); [done|done|done|]. intros o6 Hr6 Ho6.
  apply (fwp_poison _ D); [|done]. apply fwp_syncDirectory; [by split|]. intros o7 Ho7. simpl in Ho7.
  apply (HQ o7 t). by rewrite Ho7.
Qed.

(** *** The new log *)

Definition place (t : Z) (dk : disk) (c : core_files) : Prop :=
  c = mkFiles (Some i) (Some iw) (Some t) isn ∧ kept dk ∧ fixed dk t env.

Lemma place_stable (t : Z) : stable (place t).
Proof.
  intros dk dk' c Hf (-> & (Hi & Hl & Hs) & Ht). split_and!; [done|split_and!|].
  - revert Hi. apply fixed_agree, Hf. by left.
  - revert Hl. apply fixed_agree, Hf. by right; left.
  - revert Hs. apply holds_agree. intros ino ->. apply Hf. by right; right; right.
  - revert Ht. apply fixed_agree, Hf. by right; right; left.
Qed.

Lemma placed_place (t : Z) (dk : disk) : placed t dk → versions dk (place t dk).
Proof. intros [Hv Hk Hf _]. revert Hv. apply versions_mono. by intros c ->. Qed.

Lemma place_good (t : Z) (dk : disk) : versions dk (place t dk) → recoverable dk D.
Proof. apply versions_mono. intros c (-> & Hk & Ht). by apply good_installed. Qed.

(** The new log is in place. *)
Record replaced (t t2 : Z) (bytes : list byte) (dk : disk) : Prop := {
  rp_versions : versions dk (λ c, c = mkFiles (Some i) (Some t2) (Some t) isn);
  rp_identity : fixed dk i encoded_identity;
  rp_previous : holds dk isn so;
  rp_file : fixed dk t env;
  rp_log : fixed dk t2 bytes;
  rp_written : written_to bytes (d' <| RS_Snapshot := None |>) 1;
  rp_len : len bytes ≤ max_int;
  rp_fresh : D_next dk0 ≤ t < D_next dk ∧ D_next dk0 ≤ t2 < D_next dk
}.

Lemma switch_log_law (s : FileStore) (dk1 : disk) (t t2 : Z) (name : string) (bytes : list byte)
    (E : FileStore → Prop) (Q : unit → FileStore → Prop) :
  mine s → placed t dk1 → draft dk1 (theDisk s) name t2 bytes true → len bytes ≤ max_int →
  written_to bytes (d' <| RS_Snapshot := None |>) 1 → (∀ s', broken D s' → E s') →
  (∀ o, recoverable (OS_disk o) D → replaced t t2 bytes ((OS_disk o) <| D_older := [] |>) → Q tt (withOS s o)) →
  fwp (poisoning (opRename name RaftWALFilename)) E Q s.
Proof.
  intros Hm Hp [Hq Hn He (f & Hf & Hc & Hdur) Hfr Hu] Hl Hwr HE HQ.
  pose proof (q_versions _ _ Hq _ (place_stable t) (placed_place _ _ Hp)) as Hv.
  destruct (versions_now _ _ Hv) as [Hok (Hcore & (Hi & Hlog & Hs) & Ht)].
  set (dk' := setEntries (<[RaftWALFilename := t2]> (delete name (D_entries (theDisk s)))) (theDisk s)).
  assert (core_of (D_entries dk') = mkFiles (Some i) (Some t2) (Some t) isn) as Hc' by (simpl; by rewrite core_put_wal, Hcore).
  assert (fixed (theDisk s) t2 bytes) as Ht2 by (exists f; auto).
  assert (recoverable dk' D) as Hr'.
  { apply (renamed_recoverable _ _ _ _ _ Hv); [done|done| |].
    - intros c (-> & Hk & Hft). by apply good_installed.
    - simpl in Hc'. rewrite Hc'. apply (good_mono _ _ _ _ _ (λ x, x = d')); [by right|].
      by apply (good_replaced _ _ _ _ so bytes). }
  apply (fwp_poison _ D); [|done]. apply (fwp_rename _ _ _ _ t2); [done| |done|].
  { split; [done|]. by apply (place_good t). }
  intros o Ho. apply (HQ o); rewrite Ho; [done|]. pose proof (versions_sync _ _ Hr') as Hv'. rewrite Hc' in Hv'.
  split; try done. destruct Hp as [_ _ _ Hpf], Hq as [_ _ Hqn]. simpl. lia.
Qed.

Lemma replaceWAL_law (s : FileStore) (t : Z) (E : FileStore → Prop) (Q : unit → FileStore → Prop) :
  stored_typed d' → mine s → placed t (theDisk s) → (∀ s', broken D s' → E s') →
  (∀ o t2 bytes, replaced t t2 bytes (OS_disk o) → Q tt (withOS (s <| FS_wal := Some t2 |>) o)) →
  fwp (replaceWAL d') E Q s.
Proof.
  intros Hty Hm Hp HE HQ. pose proof (placed_place _ _ Hp) as Hv. pose proof (place_good _ _ Hv) as Hr.
  assert (sane D s) as Hs by done.
  apply fwp_bind, (fwp_poison _ D); [|done]. apply fwp_lift; [auto with returns| |done]. intros b Hb.
  apply fwp_bind, (fwp_poison _ D); [|done]. apply fwp_lift; [auto with returns| |done]. intros bytes Henc.
  assert (written_to bytes (d' <| RS_Snapshot := None |>) 1) as Hwr.
  { by apply (replacement_written sha256 identity voters d' sn b); [apply (wf_of_limit _ _ _ _ Hlimit)|..]. }
  apply fwp_bind, (fwp_poison _ D); [|done]. apply (fwp_newTemporary C _ (sane_calm D)); [by right|by eapply versions_any|done|].
  intros o1 name t2 Ht. apply temporary_draft in Ht.
  assert (∀ o b bs, draft (theDisk s) (OS_disk o) name t2 bs b → sane D (withOS s o)) as Hsane.
  { intros o b' bs Ho. apply sane_quiet; [done|apply Ho]. }
  apply fwp_bind. eapply fwp_onError with (E' := broken D).
  2: { intros s' Hb'. apply fwp_bind. eapply fwp_mono; [by apply (calm_attempt C (broken D) _ E), calm_opClose, Hb'; apply broken_calm|done|].
       intros ? s'' Hb''. eapply fwp_mono; [apply (calm_opRemove C _ (broken_calm D)); [left; apply Ht|done]|done|done]. }
  apply fwp_bind, (fwp_poison _ D); [|done]. apply (fwp_fill D (theDisk s) _ name); [by eapply Hsane|done|].
  intros o2 Hl Ho2. apply fwp_bind, (fwp_poison _ D); [|done].
  apply (fwp_settle D (theDisk s) _ name t2 _ ltac:(by eapply Hsane) bytes false); [done|]. intros o3 Ho3.
  apply (switch_log_law _ (theDisk s) t t2 name bytes); try done. intros o4 Hr4 Ho4.
  apply fwp_bind. eapply fwp_onError with (E' := broken D).
  2: { intros s' Hb'. eapply fwp_mono; [by apply (calm_opClose C _ (broken_calm D))|done|done]. }
  apply (fwp_poison _ D); [|done]. apply fwp_syncDirectory; [by split|]. intros o5 Ho5.
  assert (recoverable (OS_disk o5) D) as Hr5.
  { simpl in Ho5. rewrite Ho5. by apply (stable_sync (λ dk, good dk D)); [apply good_stable|]. }
  assert (mine (s <| FS_wal := Some t2 |>)) as Hm2 by (by apply mine_wal).
  apply fwp_bind, fwp_modify; [done|]. apply (fwp_poison _ D); [|done].
  apply fwp_inspect; [intros _ o Ho; split; [done|simpl in *; by rewrite Ho]|]. intros o6 Ho6.
  apply (HQ o6 t2 bytes). simpl in *. by rewrite Ho6, Ho5.
Qed.

Lemma dropPrevious_law (s : FileStore) (t t2 : Z) (bytes : list byte) (E : FileStore → Prop) (Q : unit → FileStore → Prop) :
  mine s → replaced t t2 bytes (theDisk s) → (∀ s', broken D s' → E s') →
  (∀ o, versions (OS_disk o) (settled i t2 (Some t) (Some sn) bytes (OS_disk o)) → D_next (OS_disk o) = D_next (theDisk s) →
     Q tt (withOS s o)) →
  fwp (if isSome isn then
         poisoning (opRemove raftSnapshotPreviousFilename) ;;!
         poisoning opSyncDirectory
       else ret tt) E Q s.
Proof.
  intros Hm [Hv Hi Hp Hf Hl Hwr Hlen' Hfr] HE HQ. destruct (versions_now _ _ Hv) as [Hok Hc].
  assert (∀ dk', D_files dk' = D_files (theDisk s) → versions dk' (λ c, c = mkFiles (Some i) (Some t2) (Some t) None) →
    versions dk' (settled i t2 (Some t) (Some sn) bytes dk')) as Hdone.
  { intros dk' Hd'. apply versions_mono. intros c ->.
    split_and!; [done| | |split; [|done]]; (eapply fixed_agree; [by rewrite Hd'|done]). }
  destruct isn as [ino|] eqn:Hisn; simpl.
  2: { apply fwp_ret. destruct s as [? ? ? ? ? ? ? ? o]. by apply (HQ o); [apply Hdone|]. }
  assert (D_entries (theDisk s) !! raftSnapshotPreviousFilename = Some ino) as He by (by injection Hc).
  set (dk' := setEntries (delete raftSnapshotPreviousFilename (D_entries (theDisk s))) (theDisk s)).
  assert (core_of (D_entries dk') = mkFiles (Some i) (Some t2) (Some t) None) as Hc' by (simpl; by rewrite core_drop_previous, Hc).
  pose proof (versions_set _ _ _ (names_ok_delete _ _ raftSnapshotPreviousFilename Hok) Hv) as Hv'. fold dk' in Hv'.
  assert (recoverable (theDisk s) D) as Hr.
  { revert Hv. apply versions_mono. intros c ->. apply (good_mono _ _ _ _ _ (λ x, x = d')); [by right|].
    by apply (good_replaced _ _ _ _ so bytes). }
  assert (recoverable dk' D) as Hr'.
  { revert Hv'. apply versions_mono. intros c Hcc. apply (good_mono _ _ _ _ _ (λ x, x = d')); [by right|].
    destruct Hcc as [->| ->]; [by apply (good_replaced _ _ _ _ so bytes)|].
    simpl in Hc'. rewrite Hc'. by apply (good_replaced _ _ _ _ None bytes). }
  apply fwp_bind, (fwp_poison _ D); [|done]. apply fwp_syscall; simpl; rewrite He; simpl.
  { intros _. split; intros o Ho; (split; [done|]); simpl; by rewrite Ho. }
  intros o1 Ho1. apply (fwp_poison _ D); [|done]. apply fwp_syncDirectory; [split; [done|simpl; by rewrite Ho1]|].
  intros o2 Ho2. simpl in Ho2. rewrite Ho1 in Ho2. apply HQ; rewrite Ho2; [|done]. apply Hdone; [done|].
  pose proof (versions_sync _ _ Hr') as H. by rewrite Hc' in H.
Qed.
End install.

(** *** The states that a snapshot leads to *)

(** A snapshot that may replace the one of [d], with the state it leads to. *)
Record snapshot_step (w : RecoveredState) (so : option Snapshot) (d : RecoveredState) (sn : Snapshot)
    (d' : RecoveredState) : Prop := {
  ss_snapshot : RS_Snapshot d' = Some sn;
  ss_decoded : decoded sha256 identity limit sn;
  ss_wf : recovered_wf sha256 identity voters limit d';
  ss_typed : stored_typed d';
  ss_pick : ∃ x, pick sha256 identity voters limit w (Some sn) so = Some x ∧ (x = d ∨ x = d')
}.

Lemma seen_typed (w : RecoveredState) (so : option Snapshot) (d : RecoveredState) :
  stored_typed w → seen w so d → stored_typed d.
Proof.
  intros Hw. destruct so as [s|]; [|by intros (_ & -> & _)]. intros [Hdec [-> _ _ _ _]].
  apply NewSnapshot_decoded in Hdec as (Hm & _); [|done..]. destruct Hw as (? & ? & ? & ? & He).
  split_and!; try done. simpl. by apply Forall_drop.
Qed.

Lemma compact_step (w : RecoveredState) (so : option Snapshot) (d d' : RecoveredState) (snapshot : Snapshot) :
  recovered_wf sha256 identity voters MaxRaftSnapshotBytes w → stored_typed w → seen w so d →
  LastIncludedIndex (RS_SnapshotBase d) < LastIncludedIndex (Snapshot_Metadata snapshot) →
  compactRecoveredState sha256 d snapshot identity voters limit = Ok d' →
  ∃ sn, snapshot_step w so d sn d' ∧ Snapshot_envelope sn = Snapshot_envelope snapshot.
Proof.
  intros Hwf Ht Hs Hlt Hc.
  destruct (seen_compact sha256 identity voters limit Hlimit w so d d' snapshot Hwf Hs Hlt Hc) as (sn & Hsn & He & Hr & Hb).
  exists sn. split; [|done]. split; [done|apply Hsn|by eapply seen_wf|by eapply seen_typed|].
  exists d'. split; [by apply pick_current|by right].
Qed.

Lemma wf_limit_decoded (d : RecoveredState) (sn : Snapshot) :
  recovered_wf sha256 identity voters MaxRaftSnapshotBytes d → RS_Snapshot d = Some sn →
  decoded sha256 identity limit sn → recovered_wf sha256 identity voters limit d.
Proof.
  intros Hwf Hs Hdec. destruct (wf_snapshot_index _ _ _ _ _ Hwf Hs) as [Hm Hz]. destruct Hwf. split; try done.
  unfold validateRecoveredSnapshot. rewrite Hs, Hm, bool_decide_true, Hdec by done.
  apply NewSnapshot_decoded in Hdec as (_ & Hn & _); [|done..]. apply NewSnapshot_fields in Hn as (_ & _ & _ & _ & _ & Hl).
  rewrite !bool_decide_true by done. case_goal; [absurd_bool|]. by case_goal; [absurd_bool|].
Qed.

Lemma install_entries (d d' : RecoveredState) (sn : Snapshot) :
  installRecoveredSnapshot sha256 d sn identity voters = Ok d' →
  ∃ k, RS_Entries d' = drop k (RS_Entries d).
Proof.
  unfold installRecoveredSnapshot. case_outer; [|done..]. case_outer; [|done..]. intros [= <-].
  revert Heq. unfold installSnapshotState. cbv zeta. case_outer; [done|]. case_outer; [done|].
  case_outer; [|done..]. intros [= <-]. simpl. revert Heq2.
  assert (∃ k, [] = drop k (RS_Entries d)) as Hnil by (exists (length (RS_Entries d)); by rewrite skipn_all).
  case_outer; [|by intros [= <-]]. case_outer; [|done..]. case_outer; intros [= <-]; eauto.
Qed.

Lemma install_step (w : RecoveredState) (so : option Snapshot) (d d' : RecoveredState) (m : SnapshotMetadata)
    (state : list byte) (sn : Snapshot) :
  recovered_wf sha256 identity voters MaxRaftSnapshotBytes w → stored_typed w → seen w so d → metadata_typed m →
  NewSnapshot sha256 identity m state limit = Ok sn →
  installRecoveredSnapshot sha256 d sn identity voters = Ok d' → snapshot_step w so d sn d'.
Proof.
  intros Hwf Ht Hs Hm Hn Hi. pose proof (DecodeSnapshotEnvelope_new _ sha256_length _ Hidentity _ _ _ _ Hm Hn) as Hdec.
  pose proof (NewSnapshot_fields _ _ _ _ _ _ Hn) as (Hmeta & _ & _ & Hi0 & Ht0 & _).
  pose proof (seen_wf _ _ _ _ _ _ _ Hs) as Hwfd. pose proof (seen_typed _ _ _ Ht Hs) as (Ht1 & Ht2 & Ht3 & Ht4 & Ht5).
  destruct (installRecoveredSnapshot_cases _ _ _ _ _ _ _ Hwfd ltac:(by rewrite Hmeta) Hi)
    as (Hc & Hh & Hb & Hsn & Hre & Hv).
  rewrite Hmeta in *. assert (recovered_wf sha256 identity voters MaxRaftSnapshotBytes d') as Hwf'.
  { apply valid_wf; [|done]. rewrite Hb. apply Hm. }
  split; [done|done|by eapply wf_limit_decoded| |].
  - split_and!; rewrite ?Hh, ?Hb; simpl; try done; [apply Hm|].
    destruct (install_entries _ _ _ Hi) as [k ->]. by apply Forall_drop.
  - exists d. split; [|by left]. apply pick_previous; try done. unfold accepted.
    destruct (reconcile_ahead sha256 identity voters limit w sn) as [e ->]; [done| |done].
    rewrite Hmeta. by rewrite <- (seen_hard _ _ _ _ _ _ _ Hs).
Qed.

(** ** Compaction and installation *)

Lemma settled_stage (dk0 dk : disk) (i iw t t2 : Z) (isn : option Z) (so sn : option Snapshot) (content bytes : list byte)
    (stage : option fileSnapshotStage) :
  versions dk0 (settled i iw isn so content dk0) → stage_ok dk0 stage →
  versions dk (settled i t2 (Some t) sn bytes dk) → D_next dk0 ≤ t < D_next dk → D_next dk0 ≤ t2 < D_next dk →
  stage_ok dk stage.
Proof.
  intros Hv0 Hs Hv Ht Ht2. destruct stage as [st|]; [|done]. destruct Hs as [Hn Hu]. split; [lia|].
  intros v Hin. destruct Hv as [_ Hv]. destruct (Hv v Hin) as [_ (-> & _)].
  intros [[= ->]|[[= ->]|[[= ->]|[=]]]]; [|lia|lia].
  destruct (versions_now _ _ Hv0) as [_ (Hc & _)]. apply (Hu (D_entries dk0)); [by left|]. rewrite Hc. by left.
Qed.

Lemma persistSnapshotState_law (s : FileStore) (snapshot sn : Snapshot) (d d' w : RecoveredState) (i iw last : Z)
    (isn : option Z) (so : option Snapshot) (content : list byte) (E : FileStore → Prop) (Q : unit → FileStore → Prop) :
  live s d → versions (theDisk s) (settled i iw isn so content (theDisk s)) → len content ≤ max_int →
  written_to content w last → seen w so d → snapshot_step w so d sn d' →
  Snapshot_envelope snapshot = Snapshot_envelope sn →
  (∀ s', live s' d → E s') → (∀ s', broken (λ x, x = d ∨ x = d') s' → E s') → (∀ s', live s' d' → Q tt s') →
  fwp (persistSnapshotStateLocked snapshot d') E Q s.
Proof.
  intros Hl Hv Hlen Hw Hs [Hsn Hdec Hwf Hty Hpick] He HEl HE HQ. pose proof Hl as [Hm Hcl Hpo Hst _ Hstage].
  destruct (written_typed _ _ _ _ _ _ Hw) as (_ & Hnos & _).
  assert (isSome (RS_Snapshot (FS_state s)) = isSome isn) as Hhad.
  { rewrite Hst, (seen_snapshot _ _ _ _ _ _ _ Hnos Hs). destruct (versions_now _ _ Hv) as [_ (_ & _ & _ & Hh)].
    by destruct isn, so. }
  apply fwp_get. rewrite Hhad. cbv zeta.
  apply fwp_bind, (installSnapshotFile_law (theDisk s) i iw isn so content w d d' last sn); try done.
  intros o1 t Ho1. apply fwp_bind, (replaceWAL_law (theDisk s) i iw isn so content w d d' last sn) with t; try done.
  intros o2 t2 bytes Ho2. pose proof Ho2 as [_ _ _ _ _ Hwr Hlen2 [Hfr1 Hfr2]].
  apply fwp_bind, (dropPrevious_law (theDisk s) i iw isn so content d d' sn) with t t2 bytes; try done.
  { exact (mine_wal s t2 Hm). }
  intros o3 Hv3 Hn3. simpl in Hn3. apply fwp_modify; [done|]. apply HQ. split; try done; simpl.
  - exact (mine_wal s t2 Hm).
  - exists i, t2, (Some t), (Some sn), bytes, (d' <| RS_Snapshot := None |>), 1. split_and!; try done.
    by apply nosnap_seen.
  - apply (settled_stage (theDisk s) _ i iw t t2 isn so (Some sn) content bytes); [done|done|done|lia|lia].
Qed.

Lemma PersistSnapshot_law (s : FileStore) (d : RecoveredState) (snapshot : Snapshot) :
  live s d → node_op d (SPersistSnapshot snapshot) →
  fwp (FileStore_PersistSnapshot sha256 snapshot) (failed (SPersistSnapshot snapshot) d)
    (λ _ s', ∃ d', store_effect sha256 identity voters limit d (SPersistSnapshot snapshot) d' ∧ live s' d') s.
Proof.
  intros Hl (Hty & Hlt). apply fwp_failsBefore; [apply failsBefore_PersistSnapshot|].
  rewrite (lv_state _ _ Hl). eapply fwp_whileSound; [done|]. apply fwp_get.
  pose proof (lv_mine _ _ Hl) as Hm.
  pose proof Hl as [(Hid & Hvo & Hli & _) Hcl Hpo Hst (i & iw & isn & so & content & w & last & Hv & Hwal & Hlen & Hw & Hd & Hnext) Hstage].
  rewrite Hid, Hvo, Hli, Hst. apply fwp_bind, fwp_lift; [auto with returns| |by left]. intros d' Hd'.
  destruct (written_typed _ _ _ _ _ _ Hw) as (Htw & _). pose proof (written_wf _ _ _ Hempty _ _ _ Hw) as Hwf.
  destruct (compact_step w so d d' snapshot Hwf Htw Hd Hlt Hd') as (sn & Hstep & He).
  eapply persistSnapshotState_law; try done; [by left| |by eauto].
  intros s' Hbr Hst'. right. left. split; [done|]. revert Hbr. apply broken_mono. intros x [->| ->]; auto.
Qed.

(** ** Staging *)

Section resources.
(** A property that neither the stage nor the held resources matter to. *)
Context (K : FileStore → Prop) (HK : calm K) (HKstage : ∀ s, K s → K (s <| FS_stage := None |>)).

Lemma abort_law (s : FileStore) : K s → fwp abortFileStageLocked K (λ _, K) s.
Proof.
  intros Hs. apply fwp_get. destruct (FS_stage s); [|by apply fwp_ret].
  apply fwp_bind, fwp_put; [done|]. apply HKstage in Hs.
  apply fwp_bind. eapply fwp_mono; [by apply (calm_attempt C K _ K), calm_opClose|done|]. intros e1 s1 Hs1.
  apply fwp_bind. eapply fwp_mono; [by apply (calm_attempt C K _ K), calm_opRemove; [|left|]|done|]. intros e2 s2 Hs2.
  apply fwp_bind. eapply fwp_mono with (E := K) (Q := λ _, K); [|done|intros e3 s3 Hs3; by apply calm_joined].
  destruct e2; [by apply fwp_ret|]. by apply (calm_attempt C K _ K), calm_opSyncDirectory.
Qed.

Lemma reject_law {A} (reason : error) (E : FileStore → Prop) (Q : A → FileStore → Prop) (s : FileStore) :
  (∀ s', K s' → E s') → K s → fwp (rejectFileStageLocked reason) E Q s.
Proof.
  intros HE Hs. apply fwp_bind. eapply fwp_mono; [by apply (calm_attempt C K _ E), abort_law|done|].
  intros ? s' Hs'. apply fwp_throw. auto.
Qed.
End resources.

Lemma attempt_close (K : FileStore → Prop) (HK : calm K) (E : FileStore → Prop) (s : FileStore) :
  K s → fwp (attempt opClose) E (λ _, K) s.
Proof. intros Hs. by apply (calm_attempt C K _ E), calm_opClose. Qed.

Lemma live_stage (s : FileStore) (d : RecoveredState) : live s d → live (s <| FS_stage := None |>) d.
Proof. intros []. by split. Qed.

Lemma openAnchored_stage_law (K : FileStore → Prop) (HK : calm K) (s : FileStore) :
  K s → versions (theDisk s) (λ _, True) →
  fwp (openAnchoredRegularFile raftSnapshotStageFilename true) K
    (λ r s', if r.2 : bool then ∃ o, s' = withOS s o ∧ temporary (theDisk s) (OS_disk o) raftSnapshotStageFilename r.1
             else K s') s.
Proof.
  intros Hs Hv. apply fwp_bind. eapply fwp_mono; [apply (calm_inspect C K HK); [|done]|done|].
  { simpl. case_match; [|done]. by case_match. }
  intros before s1 (_ & (o1 & Ho1 & ->) & Hs1). destruct before as [[[bino info] sz]|]; simpl.
  - apply fwp_bind, fwp_lift; [unfold validateRegularFileInfo, validateOpenedOwner; solve_returns| |done]. intros [] _.
    apply fwp_bind. eapply fwp_mono; [apply (calm_inspect C K HK); [|done]|done|]; [simpl; by case_match|].
    intros ino s2 (_ & _ & Hs2). eapply fwp_onError with (E' := K); [|by intros; apply calm_opClose].
    apply fwp_bind, fwp_bind. eapply fwp_mono; [apply (calm_inspect C K HK); [|done]|done|]; [simpl; by case_match|].
    intros [info' sz'] s3 (_ & _ & Hs3). apply fwp_lift; [unfold validateRegularFileInfo, validateOpenedOwner; solve_returns| |done].
    intros [] _. case_goal; [by apply fwp_throw|by apply fwp_ret].
  - apply fwp_bind, (fwp_opCreate C K HK); [done|by simpl; rewrite Ho1|done|]. intros o2 ino Ht. simpl in Ht. rewrite Ho1 in Ht.
    assert (∀ o, OS_disk o = OS_disk o2 → K (withOS s o)) as Hk by (intros o Ho; apply HK; [rewrite Ho; apply Ht|done]).
    eapply fwp_onError with (E' := K); [|by intros; apply calm_opClose].
    apply fwp_bind, (fwp_validateOpened C ino (mkFile newFileInfo [] [])); [apply Ht|done| |].
    + intros _ o Ho. by apply Hk.
    + intros o Ho. apply fwp_ret. exists o. split; [done|]. simpl. by rewrite Ho.
Qed.

(** The store with an open stage. *)
Definition staging (d : RecoveredState) (st : fileSnapshotStage) (s : FileStore) : Prop :=
  live s d ∧ FS_stage s = Some st.

Lemma staging_calm (d : RecoveredState) (st : fileSnapshotStage) : calm (staging d st).
Proof. intros s o Hq [Hl Hs]. split; [|done]. by apply (live_calm d). Qed.

(** A file of the store's own that no opening reads. *)
Definition spare (ino : Z) (s : FileStore) : Prop :=
  versions (theDisk s) (λ _, True) ∧ ino < D_next (theDisk s) ∧ unused (theDisk s) ino.

Lemma spare_calm (ino : Z) : calm (spare ino).
Proof.
  intros s o Hq (Hv & Hn & Hu). split_and!.
  - by apply (q_versions _ _ Hq (λ _ _, True)).
  - destruct Hq. simpl. lia.
  - by apply (quiet_unused (theDisk s)).
Qed.

Lemma calm_and (K K' : FileStore → Prop) : calm K → calm K' → calm (λ s, K s ∧ K' s).
Proof. intros H H' s o Hq []. split; auto. Qed.

Lemma openFileStage_law (s : FileStore) (d : RecoveredState) (r : InstallSnapshotRequest) :
  live s d → fwp (openFileStage r) (λ s', live s' d) (λ st, staging d st) s.
Proof.
  intros Hl. pose proof (live_calm d) as HK. apply fwp_get. cbv zeta. destruct (FS_stage s) as [st|] eqn:Hst.
  { case_goal; [by apply (reject_law (λ s', live s' d) HK); [intros; by apply live_stage|..]|by apply fwp_ret]. }
  case_goal; [by apply fwp_throw|].
  assert (versions (theDisk s) (λ _, True)) as Hv by (by eapply at_rest_versions, lv_disk).
  apply fwp_bind. eapply fwp_mono; [by apply (openAnchored_stage_law _ HK)|done|].
  intros [ino created] s1 H1. simpl in H1. destruct created; simpl.
  2: { apply fwp_bind. eapply fwp_mono; [by apply (attempt_close _ HK (λ s', live s' d))|done|].
       intros ? s2 H2. by apply fwp_throw. }
  destruct H1 as (o1 & -> & Ht). set (K := λ s', live s' d ∧ spare ino s').
  assert (calm K) as HK' by (apply calm_and; [done|apply spare_calm]).
  assert (K (withOS s o1)) as H1.
  { split; [apply HK; [apply Ht|done]|]. split_and!; [|apply Ht|apply Ht]. by apply (q_versions _ _ (tm_quiet _ _ _ _ Ht) (λ _ _, True)). }
  apply fwp_bind. eapply fwp_onError with (E' := K).
  - eapply fwp_mono; [by apply (calm_opSyncDirectory C K HK')|done|]. intros _ s2 [H2 (_ & Hn & Hu)].
    apply fwp_bind, fwp_modify; [done|]. apply fwp_ret. split; [|done]. destruct H2. by split.
  - intros s2 [H2 _]. apply fwp_bind. eapply fwp_mono; [by apply (attempt_close _ HK (λ s', live s' d))|done|].
    intros ? s3 H3. eapply fwp_mono; [by apply (calm_opRemove C _ HK); [left|]|done|done].
Qed.

Lemma staging_spare (d : RecoveredState) (st : fileSnapshotStage) (s : FileStore) :
  staging d st s → spare (FSS_file st) s.
Proof.
  intros [Hl Hs]. pose proof (lv_stage _ _ Hl) as H. rewrite Hs in H. destruct H.
  split_and!; [by eapply at_rest_versions, lv_disk|done|done].
Qed.

(** A failure of a call that changed nothing in use. *)
Lemma live_poison {A} (m : FS A) (E : FileStore → Prop) (Q : A → FileStore → Prop) (d : RecoveredState) (s : FileStore) :
  fwp m (λ s', live s' d) Q s → (∀ s', halted d (λ x, x = d) s' → E s') → fwp (poisoning m) E Q s.
Proof.
  intros H HE. apply fwp_poisoning. eapply fwp_mono; [done| |done]. intros s' Hl. apply HE.
  pose proof (live_recoverable _ _ Hl). destruct Hl. split; [done|]. split; [done|by left|done].
Qed.

Lemma stage_poison {A} (m : FS A) (E : FileStore → Prop) (Q : A → FileStore → Prop) (d : RecoveredState)
    (st : fileSnapshotStage) (s : FileStore) :
  fwp m (staging d st) Q s → (∀ s', halted d (λ x, x = d) s' → E s') → fwp (poisoning m) E Q s.
Proof. intros H. apply live_poison. eapply fwp_mono; [done|by intros s' []|done]. Qed.

Lemma halted_failed (op : store_op) (d : RecoveredState) (s : FileStore) : halted d (λ x, x = d) s → failed op d s.
Proof. intros [Hst Hb]. right. left. split; [done|]. revert Hb. apply broken_mono. by left. Qed.

Lemma stageFileBytes_law (s : FileStore) (d : RecoveredState) (r : InstallSnapshotRequest) (st : fileSnapshotStage) :
  staging d st s →
  fwp (stageFileBytes r st) (failed (SStage r) d) (λ _ s', ∃ st', FSS_file st' = FSS_file st ∧ staging d st' s') s.
Proof.
  intros Hs. pose proof (halted_failed (SStage r) d) as HE.
  assert (∀ s', staging d st s' → fwp (rejectFileStageLocked ErrSnapshotRejected : FS Z) (failed (SStage r) d)
    (λ _ s'', ∃ st', FSS_file st' = FSS_file st ∧ staging d st' s'') s') as Hrej.
  { intros s' [Hl _]. apply (reject_law (λ s', live s' d) (live_calm d)); [intros; by apply live_stage|by left|done]. }
  pose proof (staging_calm d st) as HK. unfold stageFileBytes. cbv zeta. case_goal.
  - assert (∀ s', staging d st s' → unused (theDisk s') (FSS_file st)) as Hu by (intros s' H'; apply (staging_spare _ _ _ H')).
    apply fwp_bind. apply (stage_poison _ _ _ d st); [|done]. eapply fwp_mono; [by apply calm_opSeek|done|]. intros [] s1 H1.
    apply fwp_bind. apply (stage_poison _ _ _ d st); [|done]. eapply fwp_mono; [by apply calm_writeAll|done|]. intros [] s2 H2.
    apply fwp_bind. apply (stage_poison _ _ _ d st); [|done]. eapply fwp_mono; [by apply calm_opSync|done|]. intros [] s3 H3.
    apply fwp_bind, fwp_modify; [done|]. apply fwp_ret. eexists. split; [|split; [|simpl; reflexivity]]; [done|].
    pose proof (staging_spare _ _ _ H3) as (_ & Hn & Hun). destruct H3 as [[] _]. by split.
  - case_goal; [|by apply Hrej]. case_goal; [by apply Hrej|].
    apply fwp_bind. apply (stage_poison _ _ _ d st); [|done].
    eapply fwp_mono; [apply (calm_inspect C _ HK); [|done]|done|]; [simpl; by case_match|].
    intros staged s1 (_ & _ & H1). case_goal; [by apply Hrej|]. apply fwp_ret. eauto.
Qed.

(** The part of [installFileStage] after the snapshot was accepted. *)
Lemma acceptStage_law (s : FileStore) (d d' : RecoveredState) (r : InstallSnapshotRequest) (sn : Snapshot)
    (state : list byte) (n : Z) :
  live s d → rpc_typed (RPC_InstallSnapshotRequest r) →
  NewSnapshot sha256 identity (STM_metadata (snapshotTransferMetadataFor r)) state limit = Ok sn →
  installRecoveredSnapshot sha256 d sn identity voters = Ok d' →
  fwp (modify (λ s, s <| FS_stage := None |>) ;;!
       poisoning opClose ;;!
       persistSnapshotStateLocked sn d' ;;!
       poisoning (opRemove raftSnapshotStageFilename) ;;!
       poisoning opSyncDirectory ;;!
       ret (mkStageResult n true d')) (failed (SStage r) d)
    (λ res s', SSR_Done res = true ∧ SSR_State res = d' ∧ installed sha256 identity voters r d d' ∧ live s' d') s.
Proof.
  intros Hl Hty Hn Hi. pose proof Hty as (_ & _ & _ & _ & Hidx & Hschema & _ & _ & _).
  assert (metadata_typed (STM_metadata (snapshotTransferMetadataFor r))) as Hmt.
  { simpl. repeat (apply Forall_cons in Hidx as [? Hidx]). by split_and!. }
  assert (installed sha256 identity voters r d d') as Hinst.
  { exists sn. apply NewSnapshot_fields in Hn as (-> & _ & _ & _ & Ht & _). by split_and!. }
  pose proof (halted_failed (SStage r) d) as HE1.
  assert (∀ s', halted d' (λ x, x = d') s' → failed (SStage r) d s') as HE2 by (intros s'' Hb; right; right; eauto).
  apply fwp_bind, fwp_modify; [done|]. apply live_stage in Hl.
  apply fwp_bind, (live_poison _ _ _ d); [|done].
  eapply fwp_mono; [by apply (calm_opClose C _ (live_calm d))|done|]. intros [] s1 Hl1.
  pose proof Hl1 as [_ _ _ _ (i & iw & isn & so & content & w & last & Hv & _ & Hlen & Hw & Hd & _) _].
  destruct (written_typed _ _ _ _ _ _ Hw) as (Htw & _). pose proof (written_wf _ _ _ Hempty _ _ _ Hw) as Hwf.
  pose proof (install_step w so d d' _ _ sn Hwf Htw Hd Hmt Hn Hi) as Hstep.
  apply fwp_bind, fwp_failsBefore; [apply failsBefore_persistSnapshotState|]. rewrite (lv_state _ _ Hl1).
  eapply persistSnapshotState_law; try done; [by left| |].
  { intros s2 Hb Hst2. right. left. split; [done|]. revert Hb. apply broken_mono. intros x [->| ->]; [by left|by right]. }
  intros s2 Hl2. apply fwp_bind, (live_poison _ _ _ d'); [|done].
  eapply fwp_mono; [by apply (calm_opRemove C _ (live_calm d')); [left|]|done|]. intros [] s3 Hl3.
  apply fwp_bind, (live_poison _ _ _ d'); [|done].
  eapply fwp_mono; [by apply (calm_opSyncDirectory C _ (live_calm d'))|done|]. intros [] s4 Hl4.
  by apply fwp_ret.
Qed.

(** What a chunk leads to. *)
Definition staged (r : InstallSnapshotRequest) (d : RecoveredState) (res : SnapshotStageResult) (s : FileStore) : Prop :=
  if SSR_Done res then installed sha256 identity voters r d (SSR_State res) ∧ live s (SSR_State res) else live s d.

Lemma installFileStage_law (s : FileStore) (d : RecoveredState) (r : InstallSnapshotRequest) (st : fileSnapshotStage) (n : Z) :
  live s d → rpc_typed (RPC_InstallSnapshotRequest r) →
  fwp (installFileStage sha256 r st n) (failed (SStage r) d) (staged r d) s.
Proof.
  intros Hl Hty. assert (∀ s' e, live s' d → fwp (rejectFileStageLocked e : FS SnapshotStageResult) (failed (SStage r) d)
    (staged r d) s') as Hrej.
  { intros s' e Hl'. apply (reject_law (λ s', live s' d) (live_calm d)); [intros; by apply live_stage|by left|done]. }
  apply fwp_get. pose proof Hl as [(Hid & Hvo & Hli & _) _ _ Hst _ _]. rewrite Hid, Hvo, Hli, Hst.
  case_goal; [by apply Hrej|]. apply fwp_bind.
  apply fwp_mono with (E := failed (SStage r) d) (Q := λ _ s', live s' d); [|done|].
  { case_goal; [by apply fwp_ret|]. apply (live_poison _ _ _ d); [|apply halted_failed].
    eapply fwp_mono; [apply (calm_inspect C _ (live_calm d)); [|done]|done|by intros ?? (_ & _ & ?)].
    simpl. by case_match. }
  intros bytes s1 Hl1. case_goal; [by apply Hrej|].
  destruct (NewSnapshot _ _ _ _ _) as [sn| | |] eqn:Hn; [|by apply Hrej..]. case_goal; [by apply Hrej|].
  pose proof (installRecoveredSnapshot_returns sha256 d sn identity voters) as Hret.
  destruct (installRecoveredSnapshot _ _ _ _ _) as [d'|e| |] eqn:Hi; [|by apply Hrej|done..].
  eapply fwp_mono; [by eapply acceptStage_law|done|]. intros res s' (Hdone & Hstate & Hinst & Hl'). unfold staged.
  by rewrite Hdone, Hstate.
Qed.

Lemma Stage_law (s : FileStore) (d : RecoveredState) (r : InstallSnapshotRequest) :
  live s d → rpc_typed (RPC_InstallSnapshotRequest r) →
  fwp (FileStore_StageSnapshotChunk sha256 r) (failed (SStage r) d) (staged r d) s.
Proof.
  intros Hl Hty. eapply fwp_whileSound; [done|]. apply fwp_get. cbv zeta.
  destruct (validateSnapshotRequest _ _);
    [|apply (reject_law (λ s', live s' d) (live_calm d)); [intros; by apply live_stage|by left|done]..].
  apply fwp_bind. eapply fwp_mono; [by apply openFileStage_law|by left|]. intros st s1 H1.
  apply fwp_bind. eapply fwp_mono; [by apply stageFileBytes_law|done|]. intros n s2 (st' & _ & [H2 _]).
  case_goal; [by apply fwp_ret|]. by apply installFileStage_law.
Qed.

(** ** Releasing *)

(** Stores that differ in the resources they hold. *)
Definition akin (s s' : FileStore) : Prop :=
  FS_ops s' = FS_ops s ∧ FS_closed s' = FS_closed s ∧ FS_poisoned s' = FS_poisoned s ∧
  FS_identity s' = FS_identity s ∧ FS_voters s' = FS_voters s ∧ FS_snapshotLimit s' = FS_snapshotLimit s ∧
  (FS_stage s' = FS_stage s ∨ FS_stage s' = None).

Section release.
Context (K : FileStore → Prop) (Hakin : ∀ s s', akin s s' → K s → K s').
Context (Hclose : ∀ s, K s → fwp opClose K (λ _, K) s) (Hunlock : ∀ s, K s → fwp opUnlock K (λ _, K) s).
Context (Habort : ∀ s, K s → fwp abortFileStageLocked K (λ _, K) s).

Lemma attempts (m : FS unit) (s : FileStore) : fwp m K (λ _, K) s → fwp (attempt m) K (λ _, K) s.
Proof. apply calm_attempt. Qed.

(** Give one resource up. *)
Lemma relinquish (s : FileStore) (f : FileStore → FileStore) :
  (∀ s, akin s (f s)) → K s → fwp (let! e := attempt opClose in modify f ;;! ret e) K (λ _, K) s.
Proof.
  intros Hf Hs. apply fwp_bind. eapply fwp_mono; [by apply attempts, Hclose|done|].
  intros ? s2 H2. apply fwp_bind, fwp_modify; [apply Hf|]. apply fwp_ret. by apply (Hakin s2).
Qed.

Lemma relinquish_lock (s0 s : FileStore) :
  K s → fwp (let! eu := (if FS_lockHeld s0 then attempt opUnlock else ret None) in
             modify (λ s, s <| FS_lockHeld := false |>) ;;!
             let! ec := attempt opClose in
             modify (λ s, s <| FS_lock := None |>) ;;!
             ret (match eu with Some e => Some e | None => ec end)) K (λ _, K) s.
Proof.
  intros Hs. apply fwp_bind. eapply fwp_mono with (E := K) (Q := λ _, K); [|done|intros eu s3 H3].
  { destruct (FS_lockHeld s0); [|by apply fwp_ret]. by apply attempts, Hunlock. }
  apply fwp_bind, fwp_modify; [done|]. apply fwp_bind.
  eapply fwp_mono; [apply attempts, Hclose; apply (Hakin s3); [|done]; split_and!; try done; by left|done|]. intros ec s4 H4.
  apply fwp_bind, fwp_modify; [done|]. apply fwp_ret. apply (Hakin s4); [|done]. split_and!; try done. by left.
Qed.

Lemma release_each (s : FileStore) : K s → fwp releaseOpenResources K (λ _, K) s.
Proof.
  intros Hs. apply fwp_bind.
  eapply fwp_mono; [by apply attempts, Habort|done|].
  intros e0 s1 H1. apply fwp_get.
  apply fwp_bind. eapply fwp_mono with (E := K) (Q := λ _, K); [|done|intros e1 s2 H2].
  { destruct (FS_wal s1); [apply relinquish; [intros ?; split_and!; try done; by left|done]|by apply fwp_ret]. }
  apply fwp_bind. eapply fwp_mono with (E := K) (Q := λ _, K); [|done|intros e2 s3 H3].
  { destruct (FS_lock s1); [by apply relinquish_lock|by apply fwp_ret]. }
  apply fwp_bind. eapply fwp_mono with (E := K) (Q := λ _, K); [|done|intros e3 s4 H4].
  { destruct (FS_root s1); [apply relinquish; [intros ?; split_and!; try done; by left|done]|by apply fwp_ret]. }
  apply fwp_bind. eapply fwp_mono with (E := K) (Q := λ _, K); [|done|intros e4 s5 H5; by apply calm_joined].
  destruct (FS_directory s1); [apply relinquish; [intros ?; split_and!; try done; by left|done]|by apply fwp_ret].
Qed.
End release.

Lemma release_law (K : FileStore → Prop) (s : FileStore) :
  calm K → (∀ s s', akin s s' → K s → K s') → K s → fwp releaseOpenResources K (λ _, K) s.
Proof.
  intros HK Hakin. apply release_each; [done|by intros; apply calm_opClose|by intros; apply calm_opUnlock|].
  intros s' Hs'. apply abort_law; [done| |done]. intros s1 ?. apply (Hakin s1); [|done].
  split_and!; try done. by right.
Qed.

Lemma shut_release (D : RecoveredState → Prop) (s : FileStore) :
  FS_closed s = true → broken D s → fwp releaseOpenResources (broken D) (λ _, broken D) s.
Proof.
  intros Hc Hb. set (K := λ s, FS_closed s = true ∧ broken D s).
  apply fwp_mono with (E := K) (Q := λ _, K); [|by intros ? []|by intros ?? []]. apply release_law; [..|done].
  - apply calm_and; [by intros ???|apply broken_calm].
  - intros s1 s2 (H3 & H1 & H2 & H4 & H5 & H6 & _) [Hc1 [(? & ? & ? & _) _ Hd]]. split; [congruence|]. split.
    + split_and!; try congruence. left. congruence.
    + right. congruence.
    + by rewrite H3.
Qed.

(** ** The other operations *)

Lemma Close_law (s : FileStore) (D : RecoveredState → Prop) :
  mine s → recoverable (theDisk s) D → FS_closed s = false →
  fwp FileStore_Close (halted (FS_state s) D) (λ _, halted (FS_state s) D) s.
Proof.
  intros (? & ? & ? & _) Hr Hc. apply fwp_get. rewrite Hc. apply fwp_bind, fwp_modify; [done|].
  apply fwp_stateless; [apply stateless_release|].
  eapply fwp_mono; [apply shut_release; [done|]; split; [|by right|done]; split_and!; try done; by left| |]; by intros.
Qed.

Lemma Retained_law (K : FileStore → Prop) (HK : calm K) (s : FileStore) :
  mine s → K s → fwp FileStore_RetainedWALBytes K (λ _, K) s.
Proof.
  intros (_ & _ & _ & Hw) Hs. apply fwp_get. destruct (FS_closed s); [by apply fwp_throw|].
  destruct Hw as [?|[iw Hw]]; [done|]. apply fwp_get. rewrite Hw. apply fwp_bind, fwp_ret. apply fwp_bind.
  eapply fwp_mono; [apply (calm_inspect C K HK); [|done]|done|]; [simpl; by case_match|].
  intros [info sz] s1 (_ & _ & H1). by apply fwp_ret.
Qed.

Lemma Recover_law (s : FileStore) (K : FileStore → Prop) :
  K s → fwp (FileStore_Recover sha256) K (λ r s', r = FS_state s ∧ K s') s.
Proof.
  intros Hs. apply fwp_get. destruct (FS_closed s); [by apply fwp_throw|]. apply fwp_get.
  apply fwp_bind, fwp_lift; [auto with returns| |done]. intros [] _. by apply fwp_ret.
Qed.

Lemma fwp_mapM {A B} (f : A → B) (m : FS A) (E : FileStore → Prop) (Q : B → FileStore → Prop) (s : FileStore) :
  fwp m E (λ a, Q (f a)) s → fwp (mapM f m) E Q s.
Proof. intros H. apply fwp_bind. eapply fwp_mono; [done|done|]. intros a s' H'. by apply fwp_ret. Qed.

Abbreviation run op := (@runStore _ (FileStore_StableStore sha256) op).
Abbreviation spec := (store_spec sha256 identity voters limit).

(** An operation of a live store. *)
Lemma live_op (s : FileStore) (d : RecoveredState) (op : store_op) :
  live s d → node_op d op →
  fwp (run op) (failed op d) (λ res s', ∃ d', spec d op (Ok res) d' ∧ (op ≠ SClose ∧ live s' d' ∨ op = SClose ∧ halted d' (λ x, x = d') s')) s.
Proof.
  intros Hl Hop. assert (∀ s', live s' d → failed op d s') as HE by (by left).
  destruct op as [|b|r| |sn| |]; apply fwp_mapM; simpl.
  - eapply fwp_mono; [by apply (Recover_law s (λ s', live s' d))|done|]. intros res s' [-> Hl']. exists d.
    rewrite (lv_state _ _ Hl). auto 6.
  - eapply fwp_mono; [by apply Persist_law|done|]. intros ? s' (d' & ? & ?). exists d'. auto 6.
  - eapply fwp_mono; [apply Stage_law; [done|apply Hop]|done|]. intros res s'. unfold staged.
    destruct (SSR_Done res); [intros [? ?]; exists (SSR_State res)|intros ?; exists d]; auto 6.
  - eapply fwp_mono with (E := λ s', live s' d) (Q := λ _ s', live s' d); [|done|intros ? s' ?; exists d; auto 6].
    apply fwp_get. rewrite (lv_closed _ _ Hl). apply (abort_law (λ s', live s' d)); [apply live_calm|intros; by apply live_stage|done].
  - eapply fwp_mono; [by apply PersistSnapshot_law|done|]. intros ? s' (d' & ? & ?). exists d'. auto 6.
  - eapply fwp_mono; [apply (Retained_law (λ s', live s' d)); [apply live_calm|apply Hl|done]|done|]. intros ? s' ?. exists d. auto 6.
  - eapply fwp_mono; [apply (Close_law s (λ x, x = d)); [apply Hl|by apply live_recoverable|apply Hl]| |];
      rewrite (lv_state _ _ Hl).
    + intros s' Hb. by apply halted_failed.
    + intros ? s' Hb. exists d. auto.
Qed.

(** A store that was poisoned or closed installs nothing. *)
Lemma broken_op (s : FileStore) (d0 : RecoveredState) (D : RecoveredState → Prop) (op : store_op) :
  halted d0 D s →
  fwp (run op) (halted d0 D) (λ res s', halted d0 D s' ∧ (∀ d x, ¬ store_effect sha256 identity voters limit d op x) ∧
    (op = SRecover ∨ ∀ d, spec d op (Ok res) d)) s.
Proof.
  intros [Hst Hb]. pose proof Hb as [Hm Hs Hr]. assert (halted d0 D s) as Hh by done.
  assert (calm (halted d0 D)) as Hcalm by (intros s' o Hq [? ?]; split; [done|by apply broken_calm]).
  assert (∀ A (m : FS A) Q, fwp (whileSound m) (halted d0 D) Q s) as Hsound.
  { intros A m Q. apply fwp_get. destruct (FS_closed s); [by apply fwp_throw|]. apply fwp_get.
    destruct (FS_poisoned s); [by apply fwp_throw|]. naive_solver. }
  destruct op as [|b|r| |sn| |]; apply fwp_mapM; simpl; try apply Hsound.
  - eapply fwp_mono; [by apply (Recover_law s (halted d0 D))|done|]. intros ? s' [_ ?]. split_and!; auto.
  - eapply fwp_mono with (E := halted d0 D) (Q := λ _, halted d0 D); [|done|auto]. apply fwp_get.
    destruct (FS_closed s) eqn:Hc; [by apply fwp_throw|]. apply (abort_law (halted d0 D)); [done| |done].
    intros s' [? []]. by split; [|split].
  - eapply fwp_mono; [by apply (Retained_law (halted d0 D))|done|auto].
  - destruct (FS_closed s) eqn:Hc; [apply fwp_get; rewrite Hc; by apply fwp_throw|].
    eapply fwp_mono; [by apply (Close_law s D)| |]; rewrite Hst; [done|auto].
Qed.
End ops.
End RaftFileStoreOps.
