(* ===== verification/RaftFileStoreOpen.v ===== *)
(** * Opening the file store

    Opening a recoverable directory under any faults: a success is a live store
    with a state the directory recovers to, a failure happens only after a fault
    and leaves a directory that recovers as before. *)

From stdpp Require Import strings.
From S2P Require Import Prelude RaftTypes RaftLog RaftVoters RaftCodec Hash RaftSnapshot RaftStorage RaftWAL RaftFileStore RaftFileRecovery RaftFileStoreInv RaftFileStoreOps.

Module RaftFileStoreOpen.
Import RaftLog RaftVoters RaftCodec Hash RaftSnapshot RaftStorage RaftWAL RaftFileStore RaftFileRecovery RaftFileStoreInv RaftFileStoreOps.
Open Scope Z_scope.

(** ** The identity file *)

Definition identity_values (id : StorageIdentity) : Prop :=
  is_u16 (SI_FormatVersion id) ∧ is_u16 (SI_LocalVoterID id) ∧ identity_typed id.

Definition identity_fields (id : StorageIdentity) (checksum : list byte) : list (list byte) :=
  [identityMagic; be_bytes 2 (SI_FormatVersion id); SI_ClusterID id; be_bytes 2 (SI_LocalVoterID id);
   SI_VoterFingerprint id; checksum].

Lemma decode_encode_identity (id : StorageIdentity) :
  identity_values id → decodeStorageIdentity (encodeStorageIdentity id) = Ok id.
Proof.
  intros (Hf & Hl & Hc & Hv). unfold encodeStorageIdentity. cbv zeta.
  set (content := identityMagic ++ _). set (ck := be_bytes 4 (crc32c content)).
  assert (content ++ ck = concat (identity_fields id ck)) as He.
  { unfold identity_fields, content. cbn [concat]. by rewrite app_nil_r, <- !app_assoc. }
  assert (length ck = 4%nat) as Hck by apply length_be_bytes.
  assert (length content = 56%nat) as Hlc.
  { unfold content. rewrite !length_app, !length_be_bytes, Hc, Hv. done. }
  unfold decodeStorageIdentity.
  assert (len (content ++ ck) = 60) as -> by (unfold len; rewrite length_app; lia). cbn [Z.eqb negb].
  assert (take 4 (content ++ ck) = identityMagic) as -> by done. rewrite bool_decide_true by done. cbn [negb].
  assert (take 56 (content ++ ck) = content) as -> by (by apply take_app_length').
  assert (∀ i first last field, identity_fields id ck !! i = Some field →
    first = length (concat (take i (identity_fields id ck))) → last = (first + length field)%nat →
    sub first last (content ++ ck) = field) as Hsub by (intros; rewrite He; by eapply sub_concat).
  assert (sub 56 60 (content ++ ck) = ck) as ->.
  { apply (Hsub 5%nat); [done| |by rewrite Hck]. cbn [take identity_fields concat].
    rewrite app_nil_r, !length_app, !length_be_bytes, Hc, Hv. done. }
  pose proof (crc32c_u32 content). unfold ck at 1. rewrite be_value_small by (simpl Z.pow; ulia).
  rewrite Z.eqb_refl. cbn [negb]. rewrite (Hsub 1%nat _ _ (be_bytes 2 (SI_FormatVersion id))), (Hsub 2%nat _ _ (SI_ClusterID id)),
    (Hsub 3%nat _ _ (be_bytes 2 (SI_LocalVoterID id))), (Hsub 4%nat _ _ (SI_VoterFingerprint id));
    try done; cbn [take identity_fields concat]; rewrite ?app_nil_r, ?length_app, ?length_be_bytes, ?Hc, ?Hv; try done.
  rewrite !be_value_small by (simpl Z.pow; ulia). by destruct id.
Qed.

Lemma be_value_u16 (l : list byte) : length l = 2%nat → is_u16 (be_value l).
Proof. intros Hl. pose proof (be_value_range l) as H. rewrite Hl in H. simpl in H. ulia. Qed.

Lemma encode_decode_identity (content : list byte) (id : StorageIdentity) :
  decodeStorageIdentity content = Ok id → content = encodeStorageIdentity id ∧ identity_values id.
Proof.
  unfold decodeStorageIdentity. do 3 (case_outer; [done|]). intros [= <-]. bool_hyps.
  assert (length content = 60%nat) as Hl by (unfold len, identityBytes in *; lia).
  assert (∀ first last, (first ≤ last ≤ 60)%nat → length (sub first last content) = (last - first)%nat) as Hs.
  { intros first last Hr. apply sub_length. lia. }
  split; [|by split_and!; [apply be_value_u16, Hs; lia|apply be_value_u16, Hs; lia|split; apply Hs; lia]].
  assert (∀ first last n, (first ≤ last ≤ 60)%nat → (last - first)%nat = n →
    be_bytes n (be_value (sub first last content)) = sub first last content) as Hbe.
  { intros first last n Hr <-. rewrite <- (Hs first last Hr) at 1. apply be_bytes_value. }
  unfold encodeStorageIdentity. simpl SI_FormatVersion. simpl SI_ClusterID. simpl SI_LocalVoterID. simpl SI_VoterFingerprint.
  rewrite !Hbe by lia. set (head := identityMagic ++ _).
  assert (content = head ++ sub 56 60 content) as He.
  { unfold head. rewrite <- !app_assoc. match goal with H : take 4 content = _ |- _ => rewrite <- H end.
    rewrite <- (take_drop 4 content) at 1. f_equal.
    rewrite (sub_split 4 6), (sub_split 6 22), (sub_split 22 24), (sub_split 24 56), (sub_split 56 60) by lia.
    by rewrite (skipn_all2 content) by lia; rewrite app_nil_r. }
  assert (take 56 content = head) as Ht.
  { rewrite He. apply take_app_length'. unfold head. rewrite !length_app, !Hs by lia. done. }
  match goal with H : crc32c _ = _ |- _ => rewrite <- Ht, H end. rewrite Hbe by lia. by rewrite Ht.
Qed.

(** ** Steps of the opening *)

Section opening.
Context (sha256 : list byte → list byte) (identity : StorageIdentity) (voters : VoterSet) (limit : Z).
Context (Hlimit : 0 ≤ limit ≤ MaxRaftSnapshotBytes).
Context (Hempty : ValidateRecoveredState sha256 (emptyState identity) identity voters = Ok tt).
Context (sha256_length : ∀ l, length (sha256 l) = 32%nat) (Hidentity : identity_values identity).
Context (shuffle : list string → list string) (Hshuffle : ∀ l, shuffle l ≡ₚ l).
Context (C : Prop) (D : RecoveredState → Prop).

Abbreviation fwp := (fwp C).
Abbreviation good := (good sha256 identity voters limit).
Abbreviation recoverable := (recoverable sha256 identity voters limit).
Abbreviation holds := (holds sha256 identity limit).
Abbreviation seen := (seen sha256 identity voters limit).
Abbreviation live := (live sha256 identity voters limit).
Abbreviation log_bytes := (log_bytes sha256 identity voters).
Abbreviation pick := (pick sha256 identity voters limit).
Abbreviation written_to := (written sha256 identity voters).
Abbreviation encoded_identity := (encodeStorageIdentity identity).

Definition opening (s : FileStore) : Prop :=
  FS_identity s = identity ∧ FS_voters s = voters ∧ FS_snapshotLimit s = limit ∧
  FS_closed s = false ∧ FS_poisoned s = false ∧ FS_stage s = None.

(** The store being opened, on the disk [dk]. *)
Definition on (dk : disk) (wal : option Z) (s : FileStore) : Prop :=
  opening s ∧ theDisk s = dk ∧ FS_wal s = wal.

(** A failed opening: there was a fault, and another opening may still succeed. *)
Definition unlucky (s : FileStore) : Prop := ¬ C ∧ recoverable (theDisk s) D.

Lemma on_syscall {A} (run : disk → outcome error A * disk) (dk dk' : disk) (wal : option Z) (a : A)
    (Q : A → FileStore → Prop) (s : FileStore) :
  on dk wal s → run dk = (Ok a, dk') → recoverable dk D → recoverable dk' D →
  (∀ s', on dk' wal s' → Q a s') → fwp (syscall run) unlucky Q s.
Proof.
  intros (Ho & Hd & Hw) Hr Hdk Hdk' HQ. apply fwp_syscall; rewrite Hd, Hr; simpl.
  - intros Hn. split; intros o Hos; (split; [done|]); simpl; by rewrite Hos.
  - intros o Hos. by apply HQ.
Qed.

Lemma on_quiet {A} (run : disk → outcome error A * disk) (dk dk' : disk) (wal : option Z) (a : A)
    (Q : A → FileStore → Prop) (s : FileStore) :
  on dk wal s → run dk = (Ok a, dk') → recoverable dk D → quiet dk dk' →
  (∀ s', on dk' wal s' → recoverable dk' D → Q a s') → fwp (syscall run) unlucky Q s.
Proof.
  intros Hs Hr Hdk Hq HQ. assert (recoverable dk' D) as Hdk'.
  { apply (q_versions _ _ Hq (λ dk, good dk D)); [apply good_stable|done]. }
  eapply on_syscall; try done. auto.
Qed.

Lemma on_inspect {A} (read : disk → outcome error A) (dk : disk) (wal : option Z) (a : A)
    (Q : A → FileStore → Prop) (s : FileStore) :
  on dk wal s → read dk = Ok a → recoverable dk D → (∀ s', on dk wal s' → Q a s') →
  fwp (inspect read) unlucky Q s.
Proof. intros Hs Hr Hdk HQ. eapply on_syscall; try done. by rewrite Hr. Qed.

(** Cleaning up after a failure. *)
Lemma unlucky_close (s : FileStore) : unlucky s → fwp opClose unlucky (λ _, unlucky) s.
Proof. intros Hs. apply calm_opClose; [|done]. intros s' o Hq [Hn Hr]. split; [done|].
  apply (q_versions _ _ Hq (λ dk, good dk D)); [apply good_stable|done].
Qed.

Lemma on_close {A} (m : FS A) (Q : A → FileStore → Prop) (s : FileStore) :
  fwp m unlucky Q s → fwp (onError m opClose) unlucky Q s.
Proof. intros H. eapply fwp_onError; [done|]. apply unlucky_close. Qed.

(** An existing file of the store. *)
Lemma open_existing (name : string) (create : bool) (dk : disk) (wal : option Z) (ino : Z)
    (Q : Z * bool → FileStore → Prop) (s : FileStore) :
  on dk wal s → recoverable dk D → D_entries dk !! name = Some ino →
  (∀ s', on dk wal s' → Q (ino, false) s') → fwp (openAnchoredRegularFile name create) unlucky Q s.
Proof.
  intros Hs Hr He HQ. destruct (versions_now _ _ Hr) as [[Hn _] _]. destruct (Hn name ino He) as (_ & (f & Hf & Hv) & _).
  apply fwp_bind. eapply on_inspect; [done|simpl; by rewrite He, Hf|done|]. intros s1 H1.
  apply fwp_bind, fwp_lift; rewrite Hv; [done| |done]. intros [] _.
  apply fwp_bind. eapply on_inspect; [done|simpl; by rewrite He|done|]. intros s2 H2. apply on_close.
  apply fwp_bind, fwp_bind. eapply on_inspect; [done|simpl; by rewrite Hf|done|]. intros s3 H3.
  apply fwp_lift; rewrite Hv; [done| |done]. intros [] _. rewrite Z.eqb_refl. apply fwp_ret. auto.
Qed.

(** *** The directory and its lock *)

Lemma disk_anchored (dk : disk) : D_anchored dk = true → dk <| D_anchored := true |> = dk.
Proof. destruct dk. simpl. by intros ->. Qed.

Lemma anchorParent_law (dk : disk) (wal : option Z) (Q : unit → FileStore → Prop) (s : FileStore) :
  on dk wal s → recoverable dk D → (∀ s', on dk wal s' → Q tt s') → fwp anchorParent unlucky Q s.
Proof.
  intros Hs Hr HQ. pose proof Hr as [((p & Hp & Hdir) & (i & Hi & _) & Ha) _].
  apply fwp_bind. eapply on_syscall; [done|by rewrite Hp, Hi|done|done|]. intros s1 H1.
  apply fwp_bind. eapply on_inspect; [done|by rewrite Hp|done|]. intros s2 H2. rewrite Hdir.
  apply fwp_bind, on_close. eapply on_syscall; [done|by rewrite disk_anchored|done|done|]. intros s3 H3.
  eapply on_inspect; try done.
Qed.

Lemma on_modify (f : FileStore → FileStore) (dk : disk) (wal wal' : option Z) (Q : unit → FileStore → Prop) (s : FileStore) :
  (∀ s, on dk wal s → on dk wal' (f s)) → FS_ops (f s) = FS_ops s → on dk wal s →
  (∀ s', on dk wal' s' → Q tt s') → fwp (modify f) unlucky Q s.
Proof. intros Hf Ho Hs HQ. apply fwp_modify; [done|]. auto. Qed.

Lemma anchorDirectory_law (dk : disk) (wal : option Z) (Q : unit → FileStore → Prop) (s : FileStore) :
  on dk wal s → recoverable dk D → (∀ s', on dk wal s' → Q tt s') → fwp anchorDirectory unlucky Q s.
Proof.
  intros Hs Hr HQ. pose proof Hr as [(_ & (i & Hi & Hv) & _) _].
  apply fwp_bind. eapply on_inspect; [done|by rewrite Hi|done|]. intros s1 H1.
  apply fwp_bind, fwp_lift; rewrite Hv; [done| |done]. intros [] _.
  apply fwp_bind. eapply on_inspect; [done|by rewrite Hi|done|]. intros s2 H2.
  apply fwp_bind. eapply on_inspect; [done|by rewrite Hi|done|]. intros s3 H3.
  apply fwp_bind, fwp_lift; rewrite Hv; [done| |done]. intros [] _.
  apply fwp_bind. eapply on_inspect; [done..|]. intros s4 H4.
  apply fwp_bind. eapply on_modify; [by intros|done|done|]. intros s5 H5.
  apply fwp_bind. eapply on_inspect; [done..|]. intros s6 H6.
  apply fwp_bind. eapply on_inspect; [done|by rewrite Hi|done|]. intros s7 H7.
  apply fwp_bind. eapply on_inspect; [done..|]. intros s8 H8.
  apply fwp_lift; rewrite Hv; [done| |done]. intros [] _. auto.
Qed.

Lemma acquireLock_law (dk : disk) (wal : option Z) (Q : unit → FileStore → Prop) (s : FileStore) :
  on dk wal s → recoverable dk D → D_locked dk = false →
  (∀ dk' s', on dk' wal s' → recoverable dk' D → quiet dk dk' → Q tt s') → fwp acquireLock unlucky Q s.
Proof.
  intros Hs Hr Hl HQ. apply fwp_bind.
  assert (∀ dk1 s1 ino, on dk1 wal s1 → recoverable dk1 D → quiet dk dk1 → D_locked dk1 = false →
    fwp (modify (λ s, s <| FS_lock := Some ino |>) ;;! opFlock ;;! modify (λ s, s <| FS_lockHeld := true |>)) unlucky Q s1) as Hk.
  { intros dk1 s1 ino H1 Hr1 Hq1 Hl1. apply fwp_bind. eapply on_modify; [by intros|done|done|]. intros s2 H2.
    apply fwp_bind. eapply on_quiet; [done|by rewrite Hl1|done|apply quiet_lock|]. intros s3 H3 Hr3.
    eapply on_modify; [by intros|done|done|]. intros s4 H4. eapply HQ; [done|done|].
    eapply quiet_trans; [done|apply quiet_lock]. }
  destruct (D_entries dk !! RaftLockFilename) as [ino|] eqn:He.
  { eapply open_existing; try done. intros s1 H1. by apply (Hk dk); try apply quiet_refl. }
  apply fwp_bind. eapply on_inspect; [done|simpl; by rewrite He|done|]. intros s1 H1. simpl.
  assert (quiet dk (created RaftLockFilename dk)) as Hq by (apply quiet_create; by right).
  apply fwp_bind. eapply on_quiet; [done|simpl; by rewrite He|done|done|]. intros s2 H2 Hr2. apply on_close.
  apply fwp_bind, fwp_bind. eapply on_inspect; [done|simpl; by rewrite lookup_insert_eq|done|]. intros s3 H3.
  apply fwp_lift; [done| |done]. intros [] _. apply fwp_ret. by apply (Hk (created RaftLockFilename dk)).
Qed.

(** *** Leftovers and the identity *)

Lemma removeAll_law (l : list string) (dk : disk) (wal : option Z) (Q : unit → FileStore → Prop) (s : FileStore) :
  NoDup l → (∀ n, n ∈ l → isStaleName n = true ∧ is_Some (D_entries dk !! n)) → on dk wal s → recoverable dk D →
  (∀ dk' s', on dk' wal s' → recoverable dk' D → Q tt s') → fwp (forEach l removeStale) unlucky Q s.
Proof.
  intros Hl. revert dk s. induction Hl as [|n l Hn _ IH]; intros dk s Hin Hs Hr HQ; simpl.
  { apply fwp_ret. eauto. }
  destruct (Hin n (list_elem_of_here n l)) as [Hst [ino He]].
  destruct (versions_now _ _ Hr) as [[Hok _] _]. destruct (Hok n ino He) as (_ & (f & Hf & Hv) & _).
  apply fwp_bind, fwp_bind. eapply on_inspect; [done|simpl; by rewrite He, Hf|done|]. intros s1 H1.
  apply fwp_bind, fwp_lift; rewrite Hv; [done| |done]. intros [] _.
  eapply on_quiet; [done|simpl; by rewrite He|done|apply quiet_remove; by left|]. intros s2 H2 Hr2.
  eapply IH; [|done|done|done]. intros m Hm. destruct (Hin m (list_elem_of_further m n l Hm)) as [? ?]. split; [done|].
  simpl. rewrite lookup_delete_ne; [done|]. by intros ->.
Qed.

Lemma identity_length : len encoded_identity = identityBytes.
Proof.
  pose proof (decode_encode_identity identity Hidentity) as H. revert H. unfold decodeStorageIdentity.
  case_outer; [done|]. intros _. by bool_hyps.
Qed.

Lemma readIdentity_law (dk : disk) (wal : option Z) (Q : unit → FileStore → Prop) (s : FileStore) :
  on dk wal s → recoverable dk D → (∀ s', on dk wal s' → Q tt s') → fwp readIdentity unlucky Q s.
Proof.
  intros Hs Hr HQ. destruct (versions_now _ _ Hr) as [_ [(i & Hi & f & Hf & Hc & _) _]]. simpl in Hi.
  apply fwp_get. assert (FS_identity s = identity) as -> by apply Hs. apply fwp_bind. eapply open_existing; [done..|].
  intros s1 H1. apply fwp_bind, on_close. apply fwp_bind. eapply on_inspect; [done|simpl; by rewrite Hf|done|].
  intros s2 H2. rewrite Hc, identity_length. cbn [Z.eqb Pos.eqb negb identityBytes]. apply fwp_bind.
  eapply on_inspect; [done|done|done|]. intros s3 H3. unfold contentOf. rewrite Hf, Hc, take_ge.
  2: { pose proof identity_length as Hl. unfold len in Hl. unfold identityBytes in *. lia. }
  rewrite (decode_encode_identity _ Hidentity). apply fwp_lift; [done| |done]. intros id [= <-].
  apply fwp_bind. eapply on_inspect; [done..|]. intros s4 H4. rewrite bool_decide_true by done. apply fwp_ret. auto.
Qed.

Lemma loadIdentity_law (dk : disk) (wal : option Z) (Q : unit → FileStore → Prop) (s : FileStore) :
  on dk wal s → recoverable dk D → (∀ dk' s', on dk' wal s' → recoverable dk' D → Q tt s') →
  fwp (loadOrCreateIdentity shuffle) unlucky Q s.
Proof.
  intros Hs Hr HQ. destruct (versions_now _ _ Hr) as [[Hok _] [(i & Hi & _) _]]. simpl in Hi.
  set (names := (map_to_list (D_entries dk)).*1).
  assert (∀ n, n ∈ names ↔ is_Some (D_entries dk !! n)) as Hnames.
  { intros n. unfold names. rewrite list_elem_of_fmap. split.
    - intros ([m ino] & -> & Hm%elem_of_map_to_list). by exists ino.
    - intros [ino Hm]. exists (n, ino). split; [done|]. by apply elem_of_map_to_list. }
  apply fwp_bind. eapply on_inspect; [done..|]. intros s1 H1.
  apply fwp_bind. eapply on_inspect; [done|reflexivity|done|]. intros s2 H2. fold names.
  apply fwp_bind. eapply on_inspect; [done..|]. intros s3 H3.
  rewrite bool_decide_true by (apply Hnames; eauto). cbn [negb]. cbv zeta.
  apply fwp_bind, (removeAll_law _ dk wal); [| |done|done|].
  - apply NoDup_filter. rewrite Hshuffle. apply NoDup_fst_map_to_list.
  - intros n [Hst Hn]%list_elem_of_filter. rewrite Hshuffle in Hn. split; [done|by apply Hnames].
  - intros dk' s4 H4 Hr4. assert (forallb (λ name, isStaleName name || isCoreName name) names = true) as ->.
    { apply forallb_forall. intros n Hn%list_elem_of_In%Hnames. destruct Hn as [ino Hn]. by destruct (Hok n ino Hn). }
    cbn [negb]. apply fwp_bind. case_goal.
    + apply fwp_ret. eapply readIdentity_law; [done..|]. eauto.
    + eapply on_quiet; [done|reflexivity|done|apply quiet_sync|]. intros s5 H5 Hr5. eapply readIdentity_law; [done..|]. eauto.
Qed.

(** *** The snapshot files *)

Lemma decoded_sizes (e : list byte) (sn : Snapshot) :
  DecodeSnapshotEnvelope sha256 e identity limit = Ok sn →
  146 ≤ len e ∧ 146 + be_value (sub 74 82 e) = len e ∧ be_value (sub 74 82 e) ≤ limit ∧
  be_value (sub 74 82 e) ≤ 1073741824.
Proof.
  unfold DecodeSnapshotEnvelope. unfold_offsets. do 4 (case_outer; [done|]). cbv zeta.
  destruct (validateSnapshotInputs _ _ _ _) as [[]| | |] eqn:Hval; cbn [outcome_bind]; [|done..].
  do 2 (case_outer; [done|]). intros _. bool_hyps. pose proof (validateSnapshotInputs_bound _ _ _ _ Hval).
  revert Hval. unfold validateSnapshotInputs. do 4 (case_outer; [done|]). intros _. bool_hyps. split_and!; lia.
Qed.

Lemma take_all_but (n : nat) (l : list byte) : take (Z.to_nat (len l - Z.of_nat n)) (drop n l) = drop n l.
Proof. apply take_ge. rewrite length_drop. unfold len. lia. Qed.

Lemma loadSnapshot_law (name : string) (dk : disk) (wal : option Z) (so : option Snapshot)
    (Q : option Snapshot → FileStore → Prop) (s : FileStore) :
  on dk wal s → recoverable dk D → holds dk (D_entries dk !! name) so →
  (∀ s', on dk wal s' → Q so s') → fwp (loadSnapshotFile sha256 name) unlucky Q s.
Proof.
  intros Hs Hr Hh HQ. apply fwp_get. assert (FS_identity s = identity) as -> by apply Hs.
  assert (FS_snapshotLimit s = limit) as -> by apply Hs.
  destruct (D_entries dk !! name) as [ino|] eqn:He, so as [sn|]; try done.
  2: { apply fwp_bind. eapply on_inspect; [done|by rewrite He|done|]. intros s1 H1. apply fwp_ret. auto. }
  destruct Hh as [(f & Hf & Hc & _) Hdec]. pose proof (decoded_sizes _ _ Hdec) as (Hmin & Hsz & Hlim & Hmax).
  set (e := Snapshot_envelope sn) in *. destruct (versions_now _ _ Hr) as [[Hok _] _].
  destruct (Hok name ino He) as (_ & (f' & Hf' & Hv) & _). rewrite Hf in Hf'. injection Hf' as <-.
  apply fwp_bind. eapply on_inspect; [done|by rewrite He, Hf|done|]. intros s1 H1. rewrite Hc.
  apply fwp_bind, fwp_lift; rewrite Hv; [done| |done]. intros [] _. cbv zeta. unfold_offsets.
  change (Z.of_nat 146) with 146. case_goal; [absurd_bool|].
  apply fwp_bind. eapply open_existing; [done..|]. intros s2 H2. apply fwp_bind, on_close. apply fwp_bind.
  assert (length (take 146 e) = 146%nat) as Hl146 by (rewrite length_take; unfold len in *; lia).
  eapply on_inspect; [done| |done|].
  { unfold contentOf. rewrite Hf, Hc. change (Z.to_nat 146) with 146%nat. change (Z.to_nat 0) with 0%nat.
    rewrite drop_0. unfold len. rewrite Hl146. reflexivity. }
  intros s3 H3. assert (sub 74 82 (take 146 e) = sub 74 82 e) as ->.
  { unfold sub. rewrite skipn_firstn_comm, take_take. done. }
  case_goal; [bool_hyps; unfold max_int in *; lia|]. case_goal; [bool_hyps; lia|].
  apply fwp_bind. eapply on_inspect; [done| |done|].
  { unfold contentOf. rewrite Hf, Hc. change (Z.to_nat 146) with 146%nat.
    replace (be_value (sub 74 82 e)) with (len e - Z.of_nat 146) by lia. rewrite take_all_but.
    replace (len (drop 146 e)) with (len e - Z.of_nat 146) by (unfold len in *; rewrite length_drop; lia).
    rewrite Z.eqb_refl. reflexivity. }
  intros s4 H4. apply fwp_ret. apply fwp_bind. eapply on_inspect; [done..|]. intros s5 H5.
  rewrite take_drop. fold e in Hdec. unfold decoded in Hdec. fold e in Hdec. rewrite Hdec. apply fwp_ret. auto.
Qed.

(** *** The log *)

Definition fsynced (x : Z) (dk : disk) : disk := updateFile x (λ f, f <| OF_durable := OF_content f |>) dk.

Lemma fsynced_lookup (x y : Z) (dk : disk) (f : osFile) :
  D_files (fsynced x dk) !! y = Some f → ∃ f0, D_files dk !! y = Some f0 ∧ OF_content f = OF_content f0 ∧
    (f = f0 ∨ OF_durable f = OF_content f0).
Proof.
  unfold fsynced. simpl. destruct (decide (y = x)) as [->|Hy]; [rewrite lookup_alter_eq|rewrite lookup_alter_ne by done; eauto].
  destruct (D_files dk !! x) as [f0|]; [|done]. intros [= <-]. eauto.
Qed.

Lemma fixed_fsynced (x ino : Z) (dk : disk) (c : list byte) : fixed dk ino c → fixed (fsynced x dk) ino c.
Proof.
  intros (f & Hf & Hc & Hd). destruct (decide (ino = x)) as [->|Hi].
  - exists (f <| OF_durable := OF_content f |>). simpl. by rewrite lookup_alter_eq, Hf.
  - exists f. simpl. by rewrite lookup_alter_ne.
Qed.

Lemma holds_fsynced (x : Z) (dk : disk) (o : option Z) (so : option Snapshot) : holds dk o so → holds (fsynced x dk) o so.
Proof. destruct o, so; try done. intros [? ?]. split; [by apply fixed_fsynced|done]. Qed.

(** A sync only narrows what may be left. *)
Lemma good_fsynced (x : Z) (dk : disk) (c : core_files) : good dk D c → good (fsynced x dk) D c.
Proof.
  intros [(i & Hi & Hf) (cs & ps & Hc & Hp & Hl)]. split; [exists i; split; [done|by apply fixed_fsynced]|].
  exists cs, ps. split_and!; [by apply holds_fsynced..|]. intros content Hlc. apply Hl.
  destruct (CF_wal c) as [iw|]; [|done]. destruct Hlc as (f & Hfl & Hs).
  destruct (fsynced_lookup _ _ _ _ Hfl) as (f0 & Hf0 & Hcc & Hd). exists f0. split; [done|].
  destruct Hd as [->|Hd]; [done|]. left. destruct Hs as [->|[->|[Hp1 Hp2]]]; [congruence|congruence|].
  rewrite Hd, Hcc in *. by apply (anti_symm prefix).
Qed.

Lemma recoverable_fsynced (x : Z) (dk : disk) : recoverable dk D → recoverable (fsynced x dk) D.
Proof.
  intros Hr. assert (versions (fsynced x dk) (good dk D)) as H by (apply versions_update; [done|exact Hr]).
  revert H. apply versions_mono. intros c. apply good_fsynced.
Qed.

(** The files found: the identity, the log and what the snapshot files hold. *)
Definition found (i iw : Z) (cn pn : option Z) (cs ps : option Snapshot) (content : list byte) (dk : disk) : Prop :=
  versions dk (λ c, c = mkFiles (Some i) (Some iw) cn pn) ∧ fixed dk i encoded_identity ∧ fixed dk iw content ∧
  holds dk cn cs ∧ holds dk pn ps.

(** The log says which state is selected. *)
Definition chosen (cs ps : option Snapshot) (content : list byte) (w : RecoveredState) (last : Z) (d : RecoveredState) : Prop :=
  log_bytes content w last ∧ pick w cs ps = Some d ∧ D d.

Lemma openWAL_settle (dk : disk) (iw : Z) (cs ps : option Snapshot) (f : osFile) (i : Z)
    (Q : Z → FileStore → Prop) (s : FileStore) :
  on dk None s → recoverable dk D → D_entries dk !! RaftWALFilename = Some iw → D_files dk !! iw = Some f →
  D_entries dk !! RaftIdentityFilename = Some i → fixed dk i encoded_identity →
  holds dk (D_entries dk !! RaftSnapshotFilename) cs → holds dk (D_entries dk !! raftSnapshotPreviousFilename) ps →
  (∀ dk' s' cn pn, on dk' None s' → recoverable dk' D → found i iw cn pn cs ps (OF_content f) dk' → Q iw s') →
  fwp (onError (opSync iw ;;! opSyncDirectory) opClose ;;! ret iw) unlucky Q s.
Proof.
  intros Hs Hr He Hf Hi Hid Hcs Hps HQ. apply fwp_bind, on_close.
  pose proof (recoverable_fsynced iw _ Hr) as Hr1.
  apply fwp_bind. eapply on_syscall; [done|reflexivity|done|done|]. intros s1 H1.
  eapply on_quiet; [done|reflexivity|done|apply quiet_sync|]. intros s2 H2 Hr2. apply fwp_ret.
  eapply HQ; [done|done|]. split_and!.
  - pose proof (versions_sync _ _ Hr1) as Hv. revert Hv. apply versions_mono. intros c ->. unfold core_of. simpl.
    rewrite Hi, He. reflexivity.
  - apply (fixed_fsynced iw) in Hid. exact Hid.
  - exists (f <| OF_durable := OF_content f |>). simpl. by rewrite lookup_alter_eq, Hf.
  - exact (holds_fsynced iw _ _ _ Hcs).
  - exact (holds_fsynced iw _ _ _ Hps).
Qed.

Lemma created_wal_recoverable (dk : disk) :
  D_entries dk !! RaftWALFilename = None → recoverable dk D → recoverable (created RaftWALFilename dk) D.
Proof.
  intros He Hr. pose proof (versions_create dk _ RaftWALFilename (orb_true_r _) Hr) as [Ha Hv].
  destruct (versions_now _ _ Hr) as [Hok Hg]. split; [done|]. intros v Hin. destruct (Hv v Hin) as [Hokv _]. split; [done|].
  assert (∀ v0, names_ok dk v0 → good dk D (core_of v0) → good (created RaftWALFilename dk) D (core_of v0)) as Hold.
  { intros v0 Hok0. apply good_stable. intros ino Hu. apply alike_created. destruct (uses_below _ _ _ Hok0 Hu). lia. }
  simpl in Hin. apply elem_of_cons in Hin as [->|Hin].
  2: { destruct Hr as [_ Hr]. destruct (Hr v Hin). by apply Hold. }
  apply (Hold _ Hok) in Hg. revert Hg. assert (core_of (<[RaftWALFilename:=D_next dk]> (D_entries dk)) =
    mkFiles (CF_identity (core_of (D_entries dk))) (Some (D_next dk)) (CF_snapshot (core_of (D_entries dk)))
      (CF_previous (core_of (D_entries dk)))) as -> by solve_core.
  intros [Hid (cs & ps & Hcs & Hps & Hl)]. split; [done|]. exists cs, ps. split_and!; [done|done|].
  intros content (f & Hf & Hs). apply Hl. simpl in Hf |- *. rewrite He. rewrite lookup_insert_eq in Hf. injection Hf as <-.
  destruct Hs as [->|[->|[_ Hp]]]; [done|done|]. by apply prefix_nil_inv in Hp.
Qed.

Lemma openOrCreateWAL_law (dk : disk) (cs ps : option Snapshot) (Q : Z → FileStore → Prop) (s : FileStore) :
  on dk None s → recoverable dk D →
  holds dk (D_entries dk !! RaftSnapshotFilename) cs → holds dk (D_entries dk !! raftSnapshotPreviousFilename) ps →
  (∀ content, log_content dk (D_entries dk !! RaftWALFilename) content → ∃ w last d, chosen cs ps content w last d) →
  (∀ dk' s' i iw cn pn content w last d, on dk' None s' → recoverable dk' D → found i iw cn pn cs ps content dk' →
     chosen cs ps content w last d → Q iw s') →
  fwp openOrCreateWAL unlucky Q s.
Proof.
  intros Hs Hr Hcs Hps Hl HQ. destruct (versions_now _ _ Hr) as [Hok [(i & Hi & Hid) _]]. simpl in Hi.
  apply fwp_bind. destruct (D_entries dk !! RaftWALFilename) as [iw|] eqn:He.
  - destruct (no_each _ _ Hok _ _ He) as (_ & (f & Hf & _) & _).
    destruct (Hl (OF_content f)) as (w & last & d & Hch). { exists f. split; [done|by left]. }
    eapply open_existing; [done..|]. intros s1 H1. eapply (openWAL_settle dk iw cs ps f i); try done.
    intros dk' s2 cn pn H2 Hr2 Hfo. by eapply HQ.
  - destruct (Hl [] eq_refl) as (w & last & d & Hch).
    apply fwp_bind. eapply on_inspect; [done|by rewrite He|done|]. intros s1 H1. simpl.
    pose proof (created_wal_recoverable dk He Hr) as Hr1.
    apply fwp_bind. eapply on_syscall; [done|rewrite He; reflexivity|done|done|]. intros s2 H2. apply on_close.
    apply fwp_bind, fwp_bind. eapply on_inspect; [done|simpl; by rewrite lookup_insert_eq|done|]. intros s3 H3.
    apply fwp_lift; [done| |done]. intros [] _. apply fwp_ret.
    assert (∀ n ino, D_entries dk !! n = Some ino → D_files (created RaftWALFilename dk) !! ino = D_files dk !! ino) as Hsame.
    { intros n ino Hn. destruct (no_each _ _ Hok _ _ Hn) as (_ & _ & Hlt). apply alike_created. lia. }
    eapply (openWAL_settle (created RaftWALFilename dk) (D_next dk) cs ps (mkFile newFileInfo [] []) i); try done.
    + simpl. by rewrite lookup_insert_eq.
    + simpl. by rewrite lookup_insert_eq.
    + simpl. by rewrite lookup_insert_ne.
    + revert Hid. apply fixed_agree. by eapply Hsame.
    + simpl. rewrite lookup_insert_ne by done. revert Hcs. apply holds_agree. intros ino Hn. by eapply Hsame.
    + simpl. rewrite lookup_insert_ne by done. revert Hps. apply holds_agree. intros ino Hn. by eapply Hsame.
    + intros dk' s4 cn pn H4 Hr4 Hfo. by eapply HQ.
Qed.

Section found.
Context (i iw : Z) (cn pn : option Z) (cs ps : option Snapshot) (content : list byte) (dk : disk).
Context (Hfound : found i iw cn pn cs ps content dk).

Lemma found_distinct : i ≠ iw ∧ cn ≠ Some iw ∧ pn ≠ Some iw.
Proof.
  destruct Hfound as [Hv _]. destruct (versions_now _ _ Hv) as [[_ Hd] Hc]. injection Hc as Hi Hw Hs Hp.
  split_and!; intros ->.
  - by specialize (Hd _ _ _ Hi Hw).
  - by specialize (Hd _ _ _ Hw Hs).
  - by specialize (Hd _ _ _ Hw Hp).
Qed.

(** Another content of the log with the same state. *)
Lemma found_update (dk' : disk) (content' : list byte) :
  alike iw dk dk' → versions dk' (λ c, c = mkFiles (Some i) (Some iw) cn pn) → fixed dk' iw content' →
  found i iw cn pn cs ps content' dk'.
Proof.
  intros Ha Hv Hf. destruct found_distinct as (Hi & Hcn & Hpn). destruct Hfound as (_ & Hid & _ & Hcs & Hps).
  split_and!; [done| |done| |].
  - revert Hid. by apply fixed_agree, Ha.
  - revert Hcs. apply holds_agree. intros ino ->. apply Ha. congruence.
  - revert Hps. apply holds_agree. intros ino ->. apply Ha. congruence.
Qed.

Lemma cut_recoverable (n : nat) (w : RecoveredState) (last : Z) (d : RecoveredState) :
  chosen cs ps content w last d → written_to (take n content) w last →
  recoverable (updateFile iw (λ f, f <| OF_content ::= take n |>) dk) D.
Proof.
  intros (Hl & Hp & Hd) Hw. destruct found_distinct as (Hi & Hcn & Hpn). destruct Hfound as (Hv & Hid & (f & Hf & Hfc & Hfd) & Hcs & Hps).
  assert (versions (updateFile iw (λ f, f <| OF_content ::= take n |>) dk) (λ c, c = mkFiles (Some i) (Some iw) cn pn)) as Hv'
    by (by apply versions_update).
  revert Hv'. apply versions_mono. intros c ->. split; simpl.
  - exists i. split; [done|]. revert Hid. by apply fixed_agree, alike_update.
  - exists cs, ps. split_and!.
    + revert Hcs. apply holds_agree. intros ino ->. apply alike_update. congruence.
    + revert Hps. apply holds_agree. intros ino ->. apply alike_update. congruence.
    + intros c' (f' & Hf' & Hs). rewrite lookup_alter_eq, Hf in Hf'. injection Hf' as <-. exists w, last, d.
      split_and!; [|done|done]. pose proof Hl as (pre & tail & -> & _ & Hlen & _).
      assert (log_bytes (take n (pre ++ tail)) w last) as Hcut.
      { apply written_log_bytes; [done|]. unfold len in *. rewrite length_take. lia. }
      destruct Hs as [->|[->|[H1 H2]]]; simpl in *; rewrite ?Hfc, ?Hfd in *; [done|done|].
      assert (c' = pre ++ tail) as ->; [|done]. apply (anti_symm prefix); [|done]. etrans; [done|apply prefix_take].
Qed.
End found.

Lemma recoverWALFile_law (dk : disk) (i iw : Z) (cn pn : option Z) (cs ps : option Snapshot) (content : list byte)
    (w d : RecoveredState) (last : Z) (Q : RecoveredState * Z → FileStore → Prop) (s : FileStore) :
  on dk (Some iw) s → recoverable dk D → found i iw cn pn cs ps content dk → chosen cs ps content w last d →
  (∀ dk' s' content', on dk' (Some iw) s' → recoverable dk' D → found i iw cn pn cs ps content' dk' →
     written_to content' w last → len content' ≤ max_int → Q (w, last) s') →
  fwp (recoverWALFile sha256 iw) unlucky Q s.
Proof.
  intros Hs Hr Hf Hch HQ. pose proof Hf as (_ & _ & Hfix & _). pose proof Hfix as (f & Hfl & Hfc & Hfd).
  pose proof Hch as (Hl & _). assert (len content ≤ max_int) as Hlen by (by destruct Hl as (? & ? & _ & _ & ? & _)).
  destruct (log_bytes_recover _ _ _ Hempty _ _ _ Hl) as (cut & Hrec & Hwr).
  apply fwp_get. assert (FS_identity s = identity) as -> by apply Hs. assert (FS_voters s = voters) as -> by apply Hs.
  apply fwp_bind. eapply on_inspect; [done|simpl; by rewrite Hfl|done|]. intros s1 H1.
  apply fwp_bind. eapply on_inspect; [done|reflexivity|done|]. intros s2 H2. rewrite (contentOf_fixed _ _ _ Hfix).
  apply fwp_bind, fwp_lift; rewrite Hrec; [done| |done]. intros r [= <-]. cbn beta iota.
  apply fwp_bind. destruct cut as [n|].
  2: { apply fwp_ret, fwp_ret. by eapply HQ. }
  pose proof (cut_recoverable _ _ _ _ _ _ _ _ Hf (Z.to_nat n) w last d Hch Hwr) as Hr1.
  apply fwp_bind. eapply on_syscall; [done|reflexivity|done|done|]. intros s3 H3.
  pose proof (recoverable_fsynced iw _ Hr1) as Hr2.
  eapply on_syscall; [done|reflexivity|done|done|]. intros s4 H4. apply fwp_ret.
  eapply (HQ _ s4 (take (Z.to_nat n) content)); [done|done| |done|unfold len in *; rewrite length_take; lia].
  apply (found_update _ _ _ _ _ _ _ _ Hf).
  - intros x Hx. etrans; by apply alike_update.
  - do 2 (apply versions_update; [done|]). apply Hf.
  - exists (f <| OF_content := take (Z.to_nat n) content |> <| OF_durable := take (Z.to_nat n) content |>).
    simpl. split; [|done]. rewrite !lookup_alter_eq, Hfl. simpl. unfold set_field. simpl. by rewrite Hfc.
Qed.

(** *** Selecting the snapshot *)

Section select.
Context (i iw last : Z) (content : list byte) (w d : RecoveredState).
Context (Hw : written_to content w last) (Hlen : len content ≤ max_int) (HD : D d).
Abbreviation core cn pn := (mkFiles (Some i) (Some iw) cn pn).

(** The files in use while the selection is made durable. *)
Record selecting (cn pn : option Z) (cs ps : option Snapshot) (dk : disk) : Prop := {
  sl_recoverable : recoverable dk D;
  sl_core : core_of (D_entries dk) = core cn pn;
  sl_identity : fixed dk i encoded_identity;
  sl_log : fixed dk iw content;
  sl_current : holds dk cn cs;
  sl_previous : holds dk pn ps
}.

Lemma select_good (dk : disk) (cn pn : option Z) (cs ps : option Snapshot) :
  fixed dk i encoded_identity → fixed dk iw content → holds dk cn cs → holds dk pn ps → pick w cs ps = Some d →
  good dk D (core cn pn).
Proof. intros. by eapply good_core. Qed.

Lemma select_entries (cn pn cn' pn' : option Z) (cs ps cs' ps' : option Snapshot) (dk : disk) (v : gmap string Z) :
  selecting cn pn cs ps dk → core_of v = core cn' pn' → names_ok dk v → holds dk cn' cs' → holds dk pn' ps' →
  pick w cs' ps' = Some d → selecting cn' pn' cs' ps' (setEntries v dk).
Proof.
  intros [Hr Hc Hi Hl Hcs Hps] Hv Hn Hcs' Hps' Hp. split; try done.
  pose proof (versions_set _ _ _ Hn Hr) as H. revert H. apply versions_mono. intros c [Hg| ->].
  - revert Hg. by apply good_stable.
  - rewrite Hv. by apply (select_good _ _ _ cs' ps').
Qed.

Lemma drop_previous (cn : option Z) (cs : option Snapshot) (p : Z) (sp : Snapshot) (dk : disk) (Q : unit → FileStore → Prop) (s : FileStore) :
  on dk (Some iw) s → selecting cn (Some p) cs (Some sp) dk → pick w cs None = Some d →
  (∀ dk' s', on dk' (Some iw) s' → selecting cn None cs None dk' → Q tt s') →
  fwp (opRemove raftSnapshotPreviousFilename) unlucky Q s.
Proof.
  intros Hs Hsel Hp HQ. pose proof Hsel as [Hr Hc _ _ Hcs _]. assert (D_entries dk !! raftSnapshotPreviousFilename = Some p) as He by (by injection Hc).
  destruct (versions_now _ _ Hr) as [Hok _].
  assert (selecting cn None cs None (setEntries (delete raftSnapshotPreviousFilename (D_entries dk)) dk)) as Hsel'.
  { eapply select_entries; try done; [by rewrite core_drop_previous, Hc|by apply names_ok_delete]. }
  eapply on_syscall; [done|by rewrite He|done|apply Hsel'|]. intros s' Hs'. by eapply HQ.
Qed.

Lemma drop_snapshot (pn : option Z) (ps : option Snapshot) (c : Z) (sc : Snapshot) (dk : disk) (Q : unit → FileStore → Prop) (s : FileStore) :
  on dk (Some iw) s → selecting (Some c) pn (Some sc) ps dk → pick w None ps = Some d →
  (∀ dk' s', on dk' (Some iw) s' → selecting None pn None ps dk' → Q tt s') →
  fwp (opRemove RaftSnapshotFilename) unlucky Q s.
Proof.
  intros Hs Hsel Hp HQ. pose proof Hsel as [Hr Hc _ _ _ Hps]. assert (D_entries dk !! RaftSnapshotFilename = Some c) as He by (by injection Hc).
  destruct (versions_now _ _ Hr) as [Hok _].
  assert (selecting None pn None ps (setEntries (delete RaftSnapshotFilename (D_entries dk)) dk)) as Hsel'.
  { eapply select_entries; try done; [by rewrite core_drop_snapshot, Hc|by apply names_ok_delete]. }
  eapply on_syscall; [done|by rewrite He|done|apply Hsel'|]. intros s' Hs'. by eapply HQ.
Qed.

Lemma restore_previous (p : Z) (sp : Snapshot) (dk : disk) (Q : unit → FileStore → Prop) (s : FileStore) :
  on dk (Some iw) s → selecting None (Some p) None (Some sp) dk → pick w (Some sp) None = Some d →
  (∀ dk' s', on dk' (Some iw) s' → selecting (Some p) None (Some sp) None dk' → Q tt s') →
  fwp (opRename raftSnapshotPreviousFilename RaftSnapshotFilename) unlucky Q s.
Proof.
  intros Hs Hsel Hp HQ. pose proof Hsel as [Hr Hc _ _ _ Hps]. assert (D_entries dk !! raftSnapshotPreviousFilename = Some p) as He by (by injection Hc).
  destruct (versions_now _ _ Hr) as [Hok _].
  assert (selecting (Some p) None (Some sp) None
    (setEntries (<[RaftSnapshotFilename := p]> (delete raftSnapshotPreviousFilename (D_entries dk))) dk)) as Hsel'.
  { eapply select_entries; try done; [by rewrite core_restore, Hc|by apply names_ok_rename]. }
  eapply on_syscall; [done|by rewrite He|done|apply Hsel'|]. intros s' Hs'. by eapply HQ.
Qed.

(** The selection is durable. *)
Lemma sync_selection (cn : option Z) (cs : option Snapshot) (dk : disk) (Q : unit → FileStore → Prop) (s : FileStore) :
  on dk (Some iw) s → selecting cn None cs None dk →
  (∀ dk' s', on dk' (Some iw) s' → versions dk' (settled sha256 identity limit i iw cn cs content dk') → Q tt s') →
  fwp opSyncDirectory unlucky Q s.
Proof.
  intros Hs Hsel HQ. pose proof Hsel as [Hr Hc Hi Hl Hcs _].
  eapply on_quiet; [done|reflexivity|done|apply quiet_sync|]. intros s' Hs' Hr'. eapply HQ; [done|].
  pose proof (versions_sync _ _ Hr) as Hv. revert Hv. apply versions_mono. intros c ->. by rewrite Hc.
Qed.

Abbreviation accepted := (accepted sha256 identity voters limit).

Lemma log_state : recovered_wf sha256 identity voters MaxRaftSnapshotBytes w ∧ RS_Snapshot w = None.
Proof.
  split; [by apply (written_wf _ _ _ Hempty content w last)|]. by destruct (written_typed _ _ _ _ _ _ Hw) as (_ & ? & _).
Qed.

Lemma accepted_views (sn : Snapshot) (d' : RecoveredState) :
  decoded sha256 identity limit sn → accepted w (Some sn) = Some d' → seen w (Some sn) d'.
Proof.
  intros Hdec. unfold RaftFileRecovery.accepted. case_match eqn:Hrec; [|done..]. intros [= ->]. split; [done|].
  by apply (reconcile_views sha256 identity voters limit Hlimit w sn d'); [apply log_state|..].
Qed.

Lemma unaccepted_seen : LastIncludedIndex (RS_SnapshotBase w) = 0 → seen w None w.
Proof.
  intros Hb. split_and!; [done|done|]. destruct log_state as [[] Hs]. split; try done.
  unfold validateRecoveredSnapshot. by rewrite Hs.
Qed.

Lemma holds_decoded (dk : disk) (o : option Z) (sn : Snapshot) : holds dk o (Some sn) → decoded sha256 identity limit sn.
Proof. destruct o; [|done]. by intros [_ ?]. Qed.

Lemma found_selecting (cn pn : option Z) (cs ps : option Snapshot) (dk : disk) :
  recoverable dk D → found i iw cn pn cs ps content dk → selecting cn pn cs ps dk.
Proof. intros Hr (Hv & Hi & Hl & Hc & Hp). destruct (versions_now _ _ Hv) as [_ ?]. by split. Qed.

Lemma found_settled (cn : option Z) (cs : option Snapshot) (dk : disk) :
  found i iw cn None cs None content dk → versions dk (settled sha256 identity limit i iw cn cs content dk).
Proof. intros (Hv & Hi & Hl & Hc & _). revert Hv. apply versions_mono. by intros c ->. Qed.

(** The disk of an opened store. *)
Definition selected (dk : disk) : Prop :=
  ∃ cn so, versions dk (settled sha256 identity limit i iw cn so content dk) ∧ seen w so d.

Lemma select_current (cn pn : option Z) (sn : Snapshot) (ps : option Snapshot) (dk : disk) (Q : RecoveredState → FileStore → Prop) (s : FileStore) :
  on dk (Some iw) s → recoverable dk D → found i iw cn pn (Some sn) ps content dk → accepted w (Some sn) = Some d →
  (∀ dk' s', on dk' (Some iw) s' → selected dk' → Q d s') →
  fwp (match ps with
       | None => ret tt
       | Some _ => opRemove raftSnapshotPreviousFilename ;;! opSyncDirectory
       end ;;! ret d) unlucky Q s.
Proof.
  intros Hs Hr Hf Ha HQ. pose proof Hf as (_ & _ & _ & Hc & Hp). pose proof (accepted_views _ _ (holds_decoded _ _ _ Hc) Ha) as Hseen.
  apply fwp_bind. destruct ps as [sp|].
  - destruct pn as [p|]; [|done]. apply fwp_bind.
    eapply drop_previous; [done|by apply found_selecting| |].
    { unfold RaftFileRecovery.pick. by rewrite Ha. }
    intros dk1 s1 H1 Hsel. eapply sync_selection; [done..|]. intros dk2 s2 H2 Hv. apply fwp_ret. eapply HQ; [done|].
    by exists cn, (Some sn).
  - destruct pn; [done|]. apply fwp_ret, fwp_ret. eapply HQ; [done|]. exists cn, (Some sn). split; [by apply found_settled|done].
Qed.

Lemma select_previous (cn pn : option Z) (cs : option Snapshot) (sp : Snapshot) (dk : disk) (Q : RecoveredState → FileStore → Prop) (s : FileStore) :
  on dk (Some iw) s → recoverable dk D → found i iw cn pn cs (Some sp) content dk → accepted w (Some sp) = Some d →
  (∀ dk' s', on dk' (Some iw) s' → selected dk' → Q d s') →
  fwp (removeCandidate RaftSnapshotFilename cs ;;!
       opRename raftSnapshotPreviousFilename RaftSnapshotFilename ;;!
       opSyncDirectory ;;! ret d) unlucky Q s.
Proof.
  intros Hs Hr Hf Ha HQ. pose proof Hf as (_ & _ & _ & Hc & Hp). pose proof (accepted_views _ _ (holds_decoded _ _ _ Hp) Ha) as Hseen.
  destruct pn as [p|]; [|done].
  assert (∀ dk1 s1, on dk1 (Some iw) s1 → selecting None (Some p) None (Some sp) dk1 →
    fwp (opRename raftSnapshotPreviousFilename RaftSnapshotFilename ;;! opSyncDirectory ;;! ret d) unlucky Q s1) as Hk.
  { intros dk1 s1 H1 Hsel. apply fwp_bind. eapply restore_previous; [done|done| |].
    { unfold RaftFileRecovery.pick. by rewrite Ha. }
    intros dk2 s2 H2 Hsel2. apply fwp_bind. eapply sync_selection; [done..|]. intros dk3 s3 H3 Hv. apply fwp_ret.
    eapply HQ; [done|]. by exists (Some p), (Some sp). }
  apply found_selecting in Hf; [|done]. apply fwp_bind. destruct cs as [sc|]; simpl.
  - destruct cn as [c|]; [|done]. eapply drop_snapshot; [done|done| |by eauto]. unfold RaftFileRecovery.pick.
    change (accepted w None) with (@None RecoveredState). by rewrite Ha.
  - destruct cn; [done|]. apply fwp_ret. by apply (Hk dk).
Qed.

Lemma select_none (cn pn : option Z) (cs ps : option Snapshot) (dk : disk) (Q : RecoveredState → FileStore → Prop) (s : FileStore) :
  on dk (Some iw) s → recoverable dk D → found i iw cn pn cs ps content dk →
  accepted w cs = None → accepted w ps = None → LastIncludedIndex (RS_SnapshotBase w) = 0 → d = w →
  (∀ dk' s', on dk' (Some iw) s' → selected dk' → Q w s') →
  fwp (removeCandidate RaftSnapshotFilename cs ;;!
       removeCandidate raftSnapshotPreviousFilename ps ;;!
       (if isSome cs || isSome ps then opSyncDirectory else ret tt) ;;!
       ret w) unlucky Q s.
Proof.
  intros Hs Hr Hf Hac Hap Hb Hdw HQ. pose proof Hf as (_ & _ & _ & Hc & Hp). pose proof (unaccepted_seen Hb) as Hseen. rewrite <- Hdw in Hseen at 2.
  assert (pick w None ps = Some d ∧ pick w None None = Some d) as [Hp1 Hp2].
  { unfold RaftFileRecovery.pick. change (accepted w None) with (@None RecoveredState). rewrite Hap, Hb. simpl. by rewrite Hdw. }
  assert (∀ dk2 s2 b, on dk2 (Some iw) s2 → selecting None None None None dk2 →
    (b = false → versions dk2 (settled sha256 identity limit i iw None None content dk2)) →
    fwp ((if b : bool then opSyncDirectory else ret tt) ;;! ret w) unlucky Q s2) as Hsync.
  { intros dk2 s2 b H2 Hsel Hv. apply fwp_bind. destruct b.
    - eapply sync_selection; [done..|]. intros dk3 s3 H3 Hv3. apply fwp_ret. eapply HQ; [done|]. by exists None, None.
    - apply fwp_ret, fwp_ret. eapply HQ; [done|]. exists None, None. auto. }
  assert (∀ dk1 s1, on dk1 (Some iw) s1 → selecting None pn None ps dk1 → 
    (isSome cs = false → isSome ps = false → versions dk1 (settled sha256 identity limit i iw None None content dk1)) →
    fwp (removeCandidate raftSnapshotPreviousFilename ps ;;!
       (if isSome cs || isSome ps then opSyncDirectory else ret tt) ;;! ret w) unlucky Q s1) as Hprev.
  { intros dk1 s1 H1 Hsel Hv. apply fwp_bind. destruct ps as [sp|]; simpl.
    - destruct pn as [p|]; [|done]. eapply drop_previous; [done|done|done|]. intros dk2 s2 H2 Hsel2.
      rewrite orb_true_r. by apply (Hsync dk2 s2 true).
    - destruct pn; [done|]. apply fwp_ret. apply (Hsync dk1 s1); [done|done|]. rewrite orb_false_r. auto. }
  pose proof (found_selecting _ _ _ _ _ Hr Hf) as Hsel. apply fwp_bind. destruct cs as [sc|]; simpl.
  - destruct cn as [c|]; [|done]. eapply drop_snapshot; [done|done|done|]. intros dk1 s1 H1 Hsel1. by apply (Hprev dk1).
  - destruct cn; [done|]. apply fwp_ret. apply (Hprev dk); [done|done|]. intros _ Hn. destruct ps; [done|].
    destruct pn; [done|]. by apply found_settled.
Qed.

Lemma select_law (cn pn : option Z) (cs ps : option Snapshot) (dk : disk) (Q : RecoveredState → FileStore → Prop) (s : FileStore) :
  on dk (Some iw) s → recoverable dk D → found i iw cn pn cs ps content dk → pick w cs ps = Some d →
  (∀ dk' s', on dk' (Some iw) s' → selected dk' → Q d s') →
  fwp (selectRecoveredSnapshot sha256 w cs ps) unlucky Q s.
Proof.
  intros Hs Hr Hf Hp HQ. apply fwp_get. assert (FS_identity s = identity) as -> by apply Hs.
  assert (FS_voters s = voters) as -> by apply Hs. assert (FS_snapshotLimit s = limit) as -> by apply Hs. cbv zeta.
  revert Hp. unfold RaftFileRecovery.pick.
  change (match cs with Some _ => _ | None => None end) with (accepted w cs).
  change (match ps with Some _ => _ | None => None end) with (accepted w ps).
  destruct (accepted w cs) as [x|] eqn:Hac.
  { intros [= ->]. destruct cs as [sn|]; [|done]. by eapply select_current. }
  destruct (accepted w ps) as [x|] eqn:Hap.
  { intros [= ->]. destruct ps as [sp|]; [|done]. by eapply select_previous. }
  case_goal; [|done]. intros [= Hdw]. bool_hyps. eapply select_none; try done. rewrite Hdw. done.
Qed.
End select.

(** ** The opening *)

Lemma recoverState_law (dk : disk) (s : FileStore) :
  on dk None s → recoverable dk D → fwp (recoverState sha256) unlucky (λ _ s', ∃ d, D d ∧ live s' d) s.
Proof.
  intros Hs Hr.
  destruct (versions_now _ _ Hr) as [_ [_ (cs & ps & Hcs & Hps & Hl)]]. simpl in Hcs, Hps, Hl.
  apply fwp_bind. eapply loadSnapshot_law; [done..|]. intros s1 H1.
  apply fwp_bind. eapply loadSnapshot_law; [done..|]. intros s2 H2.
  apply fwp_bind. eapply (openOrCreateWAL_law dk cs ps); [done..|]. clear dk Hr Hcs Hps Hl Hs H1 H2 s s1 s2.
  intros dk s i iw cn pn content w last d Hs Hr Hf Hch.
  apply fwp_bind. eapply (on_modify _ dk None (Some iw)); [by intros s' (? & ? & _)|done|done|]. intros s1 H1.
  apply fwp_bind. eapply recoverWALFile_law; [done..|]. clear dk s s1 Hs H1 Hr Hf.
  intros dk s content' Hs Hr Hf Hw Hlen. cbn beta iota. destruct Hch as (_ & Hp & HD).
  apply fwp_bind. eapply (select_law i iw last content' w d Hw Hlen HD); [done..|].
  intros dk' s' (Ho & Hdk & Hwal) (cn' & so & Hv & Hseen). apply fwp_modify; [done|]. exists d. split; [done|].
  destruct Ho as (Hid & Hvo & Hli & Hcl & Hpo & Hst). subst dk'. split; simpl; try done.
  - split_and!; try done. right. simpl. rewrite Hwal. by eexists.
  - by exists i, iw, cn', so, content', w, last.
  - by rewrite Hst.
Qed.

Lemma recoverFiles_law (dk : disk) (s : FileStore) :
  on dk None s → recoverable dk D →
  fwp (recoverFiles sha256 shuffle) unlucky (λ _ s', ∃ d, D d ∧ live s' d) s.
Proof.
  intros Hs Hr. apply fwp_bind. eapply loadIdentity_law; [done..|]. intros dk' s' Hs' Hr'. by apply (recoverState_law dk').
Qed.

Lemma unlucky_release (s : FileStore) : unlucky s → fwp releaseOpenResources unlucky (λ _, unlucky) s.
Proof.
  apply release_law.
  - intros s' o Hq [Hn Hr]. split; [done|]. apply (q_versions _ _ Hq (λ dk, good dk D)); [apply good_stable|done].
  - intros s1 s2 (Ho & _) [Hn Hr]. split; [done|]. by rewrite Ho.
Qed.

Lemma open_law (storageDir : string) (mx : Z) (o : os) :
  snapshotLimit mx = Ok limit → storageDir ≠ ""%string → cleansToRoot storageDir = false →
  recoverable (OS_disk o) D → D_locked (OS_disk o) = false → (C → clean o) →
  match openFileStoreWithOptions sha256 shuffle storageDir identity voters mx o with
  | (Ok _, s) => ∃ d, D d ∧ live s d
  | (Err _, s) => unlucky s
  | _ => False
  end.
Proof.
  intros Hmx Hdir Hroot Hr Hlock Hclean. unfold openFileStoreWithOptions. rewrite Hmx.
  set (s0 := unopened identity voters limit o). assert (on (OS_disk o) None s0) as Hs by done.
  assert (fwp (if String.eqb storageDir "" || cleansToRoot storageDir then throw ErrStorageCorrupt
     else
       lift (ValidateRecoveredState sha256 (emptyState identity) identity voters) ;;!
       anchorParent ;;!
       inspect (λ _, Ok tt) ;;!
       modify (λ s, s <| FS_directory := true |>) ;;!
       onError (anchorDirectory ;;! acquireLock ;;! recoverFiles sha256 shuffle) releaseOpenResources)
     unlucky (λ _ s, ∃ d, D d ∧ live s d) s0) as H.
  { rewrite Hroot, orb_false_r. case_goal; [by apply String.eqb_eq in Heq|].
    apply fwp_bind, fwp_lift; rewrite Hempty; [done| |done]. intros [] _.
    apply fwp_bind. eapply anchorParent_law; [done..|]. intros s1 H1.
    apply fwp_bind. eapply on_inspect; [done..|]. intros s2 H2.
    apply fwp_bind. eapply on_modify; [by intros|done|done|]. intros s3 H3.
    eapply fwp_onError; [|apply unlucky_release].
    apply fwp_bind. eapply anchorDirectory_law; [done..|]. intros s4 H4.
    apply fwp_bind. eapply acquireLock_law; [done..|]. intros dk s5 H5 Hr5 _. by eapply recoverFiles_law. }
  specialize (H Hclean).
  match type of H with match ?x with _ => _ end => destruct x as [[] s] end; try done; by destruct H.
Qed.
End opening.

(** ** Power loss *)

Section loss.
Context (sha256 : list byte → list byte) (identity : StorageIdentity) (voters : VoterSet) (limit : Z).
Context (dk dk' : disk) (Hloss : after_loss dk dk').

Lemma loss_file (ino : Z) (f : osFile) :
  D_files dk !! ino = Some f →
  ∃ f', D_files dk' !! ino = Some f' ∧ OF_info f' = OF_info f ∧ OF_durable f' = OF_content f' ∧ survives f (OF_content f').
Proof.
  intros Hf. destruct (al_kept _ _ Hloss ino f Hf) as [f' Hf']. exists f'.
  destruct (al_files _ _ Hloss ino f' Hf') as (f0 & Hf0 & ?). rewrite Hf in Hf0. by injection Hf0 as <-.
Qed.

Lemma loss_fixed (ino : Z) (c : list byte) : fixed dk ino c → fixed dk' ino c.
Proof.
  intros Hfix. pose proof Hfix as (f & Hf & _). destruct (loss_file ino f Hf) as (f' & Hf' & _ & Hd & Hs).
  pose proof (fixed_survives _ _ _ _ _ Hfix Hf Hs). exists f'. split_and!; congruence.
Qed.

Lemma loss_holds (o : option Z) (so : option Snapshot) :
  holds sha256 identity limit dk o so → holds sha256 identity limit dk' o so.
Proof. destruct o, so; try done. intros [? ?]. split; [by apply loss_fixed|done]. Qed.

Lemma loss_good (D : RecoveredState → Prop) (c : core_files) :
  good sha256 identity voters limit dk D c → good sha256 identity voters limit dk' D c.
Proof.
  intros [(i & Hi & Hid) (cs & ps & Hc & Hp & Hl)]. split; [exists i; split; [done|by apply loss_fixed]|].
  exists cs, ps. split_and!; [by apply loss_holds..|]. intros content Hlc. apply Hl.
  destruct (CF_wal c) as [iw|]; [|done]. destruct Hlc as (f' & Hf' & Hs).
  destruct (al_files _ _ Hloss iw f' Hf') as (f & Hf & _ & Hd & Hs'). exists f. split; [done|].
  assert (content = OF_content f') as ->; [|done].
  apply (fixed_survives dk' iw (OF_content f') content f'); [by exists f'|done|done].
Qed.

Lemma loss_names (v : gmap string Z) : names_ok dk v → names_ok dk' v.
Proof.
  apply names_ok_files; [|by rewrite (al_next _ _ Hloss)]. intros ino (f & Hf & Hv).
  destruct (loss_file ino f Hf) as (f' & Hf' & Hi & _). exists f'. by rewrite Hi.
Qed.

Lemma loss_recoverable (D : RecoveredState → Prop) :
  recoverable sha256 identity voters limit dk D → recoverable sha256 identity voters limit dk' D.
Proof.
  intros [(Hp & Hd & Ha) Hv]. split.
  - pose proof (al_directory _ _ Hloss) as Hdir. rewrite Ha in Hdir. unfold anchored.
    by rewrite (al_parent _ _ Hloss), Hdir, (al_anchored _ _ Hloss).
  - rewrite (al_older _ _ Hloss). intros v [->|[]%elem_of_nil]%elem_of_cons.
    destruct (Hv _ (al_entries _ _ Hloss)). split; [by apply loss_names|by apply loss_good].
Qed.
End loss.

(** C31: A byte sequence is a stored identity exactly when it is the encoding of
    one whose fields have their Go types: the identity file is read back as it was
    written, and no two files stand for the same identity. *)
Theorem storage_identity_bijection (content : list byte) (id : StorageIdentity) :
  decodeStorageIdentity content = Ok id ↔ identity_values id ∧ content = encodeStorageIdentity id.
Proof.
  split.
  - intros [-> H]%encode_decode_identity. done.
  - intros [H ->]. by apply decode_encode_identity.
Qed.

End RaftFileStoreOpen.
