(* ===== verification/RaftFileMachine.v ===== *)
(** * A disk, a process and power losses

    The file store as a machine: operations of a process under faults, power
    losses, and openings of what is left.  The machine refines an abstract store
    that loses nothing it acknowledged, and what is left always opens again. *)

From stdpp Require Import strings.
From S2P Require Import Prelude RaftTypes RaftLog RaftVoters RaftCodec Hash RaftSnapshot RaftStorage RaftWAL RaftFileStore RaftFileRecovery RaftFileStoreInv RaftFileStoreOps RaftFileStoreOpen.

Module RaftFileMachine.
Import RaftLog RaftVoters RaftCodec Hash RaftSnapshot RaftStorage RaftWAL RaftFileStore RaftFileRecovery RaftFileStoreInv RaftFileStoreOps RaftFileStoreOpen.
Open Scope Z_scope.

(** ** A fresh directory *)

(** A storage root with no directory in it, or an empty one. *)
Record fresh (dk : disk) : Prop := {
  fr_parent : ∃ p, D_parent dk = Some p ∧ FI_isDir p = true;
  fr_directory : match D_directory dk with None => True | Some i => validateDirectoryInfo i = Ok tt end;
  fr_entries : D_entries dk = ∅;
  fr_unlocked : D_locked dk = false
}.

Section fresh.
Context (sha256 : list byte → list byte) (identity : StorageIdentity) (voters : VoterSet) (limit : Z).
Context (Hlimit : 0 ≤ limit ≤ MaxRaftSnapshotBytes).
Context (Hempty : ValidateRecoveredState sha256 (emptyState identity) identity voters = Ok tt).
Context (sha256_length : ∀ l, length (sha256 l) = 32%nat) (Hidentity : identity_values identity).
Context (shuffle : list string → list string) (Hshuffle : ∀ l, shuffle l ≡ₚ l).
Context (C : Prop).
Abbreviation on := (on identity voters limit).
Abbreviation any := (λ _ : FileStore, True).

Lemma any_syscall {A} (run : disk → outcome error A * disk) (dk dk' : disk) (wal : option Z) (a : A)
    (Q : A → FileStore → Prop) (s : FileStore) :
  on dk wal s → run dk = (Ok a, dk') → (∀ s', on dk' wal s' → Q a s') → fwp C (syscall run) any Q s.
Proof.
  intros (Ho & Hd & Hw) Hr HQ. apply fwp_syscall; rewrite Hd, Hr; simpl; [by intros|].
  intros o Hos. by apply HQ.
Qed.

Lemma any_inspect {A} (read : disk → outcome error A) (dk : disk) (wal : option Z) (a : A)
    (Q : A → FileStore → Prop) (s : FileStore) :
  on dk wal s → read dk = Ok a → (∀ s', on dk wal s' → Q a s') → fwp C (inspect read) any Q s.
Proof. intros Hs Hr HQ. eapply any_syscall; try done. by rewrite Hr. Qed.

Lemma any_onError {A} (m : FS A) (cleanup : FS unit) (Q : A → FileStore → Prop) (s : FileStore) :
  (∀ s, fwp C cleanup any (λ _, any) s) → fwp C m any Q s → fwp C (onError m cleanup) any Q s.
Proof. intros Hc H. by eapply fwp_onError. Qed.

Lemma any_close (s : FileStore) : fwp C opClose any (λ _, any) s.
Proof. by apply fwp_inspect. Qed.

Lemma any_remove (name : string) (s : FileStore) : fwp C (opRemove name) any (λ _, any) s.
Proof. apply fwp_syscall; [by intros|]. by destruct (D_entries (theDisk s) !! name). Qed.

(** The directory after the identity was created. *)
Record initialised (dk : disk) (l t : Z) : Prop := {
  in_anchored : anchored dk;
  in_entries : D_entries dk = <[RaftIdentityFilename := t]> {[RaftLockFilename := l]};
  in_older : D_older dk = [];
  in_distinct : l ≠ t ∧ l < D_next dk ∧ t < D_next dk;
  in_lock : regular dk l;
  in_regular : regular dk t;
  in_identity : fixed dk t (encodeStorageIdentity identity)
}.

Lemma initialised_recoverable (dk : disk) (l t : Z) :
  initialised dk l t → recoverable sha256 identity voters limit dk (λ x, x = emptyState identity).
Proof.
  intros [Ha He Ho (Hne & Hl & Ht) Hrl Hrt Hid]. split; [done|]. rewrite Ho, He. intros v [->|[]%elem_of_nil]%elem_of_cons.
  split; [split|].
  - apply map_Forall_insert_2; [by split_and!|]. apply map_Forall_singleton. by split_and!.
  - intros n m ino. rewrite !lookup_insert_Some, !lookup_singleton_Some. naive_solver.
  - split; [exists t; split; [|done]; simpl; by rewrite lookup_insert_eq|].
    exists None, None. unfold core_of. simpl. rewrite !lookup_insert_ne, !lookup_singleton_ne by done.
    split_and!; [done|done|]. intros content ->. exists (emptyState identity), 0, (emptyState identity).
    split_and!; [|done|done]. apply written_log_bytes; [constructor|by vm_compute].
Qed.

(** The directory with only its lock. *)
Record locked_only (dk : disk) (l : Z) : Prop := {
  lo_anchored : anchored dk;
  lo_entries : D_entries dk = {[RaftLockFilename := l]};
  lo_next : l < D_next dk;
  lo_lock : regular dk l
}.

Lemma createIdentity_law (dk : disk) (l : Z) (Q : unit → FileStore → Prop) (s : FileStore) :
  on dk None s → locked_only dk l → (∀ dk' s' t, on dk' None s' → initialised dk' l t → Q tt s') →
  fwp C createIdentity any Q s.
Proof.
  intros Hs [Ha He Hn (fl & Hfl & Hvl)] HQ. apply fwp_get. assert (FS_identity s = identity) as -> by apply Hs.
  apply fwp_bind, (fwp_opRandom C any); [by intros ????|done|]. intros bytes _ o Ho. cbv zeta.
  assert (on dk None (withOS s o)) as H0 by (destruct Hs as (? & <- & ?); by split_and!).
  set (tmp := String.append _ _). set (t := D_next dk).
  assert (tmp ≠ RaftLockFilename ∧ tmp ≠ RaftIdentityFilename) as [Htl Hti] by (unfold tmp; by split).
  apply fwp_bind. eapply any_syscall; [done|by rewrite He, lookup_singleton_ne by done|]. intros s1 H1. fold t in H1 |- *.
  set (dk1 := setEntries _ _) in H1. set (f0 := mkFile newFileInfo [] []).
  assert (D_files dk1 !! t = Some f0) as Hf0 by (simpl; by rewrite lookup_insert_eq).
  assert (D_files dk1 !! l = Some fl) as Hfl1 by (simpl; rewrite lookup_insert_ne by lia; done).
  apply fwp_bind, any_onError; [apply any_remove|]. apply fwp_bind, any_onError; [apply any_close|].
  apply fwp_bind, fwp_bind. eapply any_inspect; [done|by rewrite Hf0|]. intros s2 H2.
  apply fwp_lift; [done| |done]. intros [] _.
  apply fwp_bind, (fwp_writeAll C t any f0); [by destruct H2 as (_ & -> & _)|done|]. intros _ o3 Ho3.
  set (dk3 := setContent t (encodeStorageIdentity identity) dk1).
  assert (on dk3 None (withOS s2 o3)) as H3 by (destruct H2 as (? & Hd2 & ?); rewrite Hd2 in Ho3; by split_and!).
  eapply any_syscall; [done|reflexivity|]. intros s4 H4. set (dk4 := updateFile _ _ _) in H4.
  apply fwp_bind. eapply any_inspect; [done..|]. intros s5 H5.
  assert (D_entries dk4 !! tmp = Some t) as Het by (simpl; by rewrite lookup_insert_eq).
  eapply any_syscall; [done|by rewrite Het|]. intros s6 H6.
  eapply any_syscall; [done|reflexivity|]. intros s7 H7. eapply (HQ _ _ t); [done|].
  set (f4 := f0 <| OF_content := encodeStorageIdentity identity |> <| OF_durable := encodeStorageIdentity identity |>).
  assert (D_files dk4 !! t = Some f4) as Hf4 by (unfold dk4, dk3, setContent; simpl; by rewrite !lookup_alter_eq, lookup_insert_eq).
  assert (D_files dk4 !! l = Some fl) as Hfl4 by (unfold dk4, dk3, setContent; simpl; by rewrite !lookup_alter_ne by lia).
  split; simpl; try done.
  - rewrite delete_insert_id; [done|by rewrite lookup_singleton_ne].
  - subst t. lia.
  - by exists fl.
  - by exists f4.
  - by exists f4.
Qed.

Lemma acquire_fresh_law (dk : disk) (Q : unit → FileStore → Prop) (s : FileStore) :
  on dk None s → anchored dk → D_entries dk = ∅ → D_locked dk = false →
  (∀ dk' s' l, on dk' None s' → locked_only dk' l → Q tt s') → fwp C acquireLock any Q s.
Proof.
  intros Hs Ha He Hl HQ. apply fwp_bind, fwp_bind. eapply any_inspect; [done|by rewrite He|]. intros s1 H1. simpl.
  apply fwp_bind. eapply any_syscall; [done|by rewrite He|]. intros s2 H2.
  apply any_onError; [apply any_close|]. apply fwp_bind, fwp_bind.
  eapply any_inspect; [done|simpl; by rewrite lookup_insert_eq|]. intros s3 H3.
  apply fwp_lift; [done| |done]. intros [] _. apply fwp_ret. apply fwp_bind, fwp_modify; [done|].
  apply fwp_bind. eapply any_syscall; [exact H3|simpl; by rewrite Hl|]. intros s4 H4.
  apply fwp_modify; [done|]. eapply (HQ _ _ (D_next dk)); [exact H4|]. split; simpl; try done.
  - lia.
  - exists (mkFile newFileInfo [] []). simpl. by rewrite lookup_insert_eq.
Qed.

Lemma any_release (s : FileStore) : fwp C releaseOpenResources any (λ _, any) s.
Proof. by apply release_law. Qed.

Lemma anchor_fresh_law (dk : disk) (Q : unit → FileStore → Prop) (s : FileStore) :
  on dk None s → fresh dk →
  (∀ dk' s', on dk' None s' → anchored dk' → D_entries dk' = ∅ → D_locked dk' = false → Q tt s') →
  fwp C anchorParent any Q s.
Proof.
  intros Hs [(p & Hp & Hdir) Hd He Hl] HQ. apply fwp_bind.
  assert (∀ dk1 s1 i, on dk1 None s1 → D_parent dk1 = Some p → D_directory dk1 = Some i → validateDirectoryInfo i = Ok tt →
    D_entries dk1 = ∅ → D_locked dk1 = false →
    fwp C (let! parent := inspect (λ dk, match D_parent dk with Some info => Ok info | None => Err ErrIO end) in
           onError (if negb (FI_isDir parent) then throw ErrStorageCorrupt else opSyncParent) opClose ;;! opClose) any Q s1) as Hk.
  { intros dk1 s1 i H1 Hp1 Hi Hvi He1 Hl1. apply fwp_bind. eapply any_inspect; [done|by rewrite Hp1|]. intros s2 H2.
    rewrite Hdir. apply fwp_bind, any_onError; [apply any_close|]. eapply any_syscall; [done|reflexivity|]. intros s3 H3.
    eapply any_inspect; [done..|]. intros s4 H4. eapply HQ; [done| |done|done]. split_and!; simpl; eauto. }
  destruct (D_directory dk) as [i|] eqn:Hdi.
  - eapply any_syscall; [done|by rewrite Hp, Hdi|]. intros s1 H1. by eapply Hk.
  - eapply any_syscall; [done|rewrite Hp, Hdi; reflexivity|]. intros s1 H1. by eapply Hk.
Qed.

Lemma anchorDirectory_any (dk : disk) (Q : unit → FileStore → Prop) (s : FileStore) :
  on dk None s → anchored dk → (∀ s', on dk None s' → Q tt s') → fwp C anchorDirectory any Q s.
Proof.
  intros Hs (_ & (i & Hi & Hv) & _) HQ.
  apply fwp_bind. eapply any_inspect; [done|by rewrite Hi|]. intros s1 H1.
  apply fwp_bind, fwp_lift; rewrite Hv; [done| |done]. intros [] _.
  do 2 (apply fwp_bind; eapply any_inspect; [done|by rewrite Hi|]; intros).
  apply fwp_bind, fwp_lift; rewrite Hv; [done| |done]. intros [] _.
  apply fwp_bind. eapply any_inspect; [done..|]. intros s4 H4. apply fwp_bind, fwp_modify; [done|].
  apply fwp_bind. eapply any_inspect; [exact H4|done|]. intros s6 H6.
  apply fwp_bind. eapply any_inspect; [done|by rewrite Hi|]. intros s7 H7.
  apply fwp_bind. eapply any_inspect; [done..|]. intros s8 H8.
  apply fwp_lift; rewrite Hv; [done| |done]. intros [] _. auto.
Qed.

Lemma open_fresh (storageDir : string) (mx : Z) (o : os) (s : FileStore) :
  snapshotLimit mx = Ok limit → fresh (OS_disk o) → (C → clean o) →
  openFileStoreWithOptions sha256 shuffle storageDir identity voters mx o = (Ok tt, s) →
  live sha256 identity voters limit s (emptyState identity).
Proof.
  intros Hmx Hf Hclean. unfold openFileStoreWithOptions. rewrite Hmx.
  set (s0 := unopened identity voters limit o). assert (on (OS_disk o) None s0) as Hs by done.
  assert (∀ m, fwp C m any (λ _ s, live sha256 identity voters limit s (emptyState identity)) s0 → m s0 = (Ok tt, s) →
    live sha256 identity voters limit s (emptyState identity)) as Hfin.
  { intros m H Hm. specialize (H Hclean). rewrite Hm in H. by destruct H. }
  apply Hfin. case_goal; [by apply fwp_throw|].
  apply fwp_bind, fwp_lift; rewrite Hempty; [done| |done]. intros [] _.
  apply fwp_bind. eapply anchor_fresh_law; [done..|]. intros dk1 s1 H1 Ha He Hl.
  apply fwp_bind. eapply any_inspect; [done..|]. intros s2 H2. apply fwp_bind, fwp_modify; [done|].
  apply any_onError; [apply any_release|]. apply fwp_bind. eapply anchorDirectory_any; [exact H2|done|]. intros s3 H3.
  apply fwp_bind. eapply acquire_fresh_law; [done..|]. intros dk4 s4 l H4 Hlo.
  apply fwp_bind, fwp_bind. eapply any_inspect; [done..|]. intros s5 H5.
  apply fwp_bind. eapply any_inspect; [done|reflexivity|]. intros s6 H6.
  rewrite (lo_entries _ _ Hlo), map_to_list_singleton.
  apply fwp_bind. eapply any_inspect; [done..|]. intros s7 H7. simpl. eapply createIdentity_law; [done..|]. intros dk8 s8 t H8 Hin.
  eapply fwp_mono; [apply (recoverState_law sha256 identity voters limit Hlimit Hempty C (λ x, x = emptyState identity) dk8)|done|].
  - done.
  - by eapply initialised_recoverable.
  - by intros ? s' (d & -> & ?).
Qed.
End fresh.

(** ** The machine *)

Inductive machine := Up (s : FileStore) | Off (dk : disk).

Inductive event :=
| EvOp (op : store_op) (result : outcome error store_result)
| EvLoss
| EvOpened (state : RecoveredState)
| EvOpenFailed.

Section machine.
Context (sha256 : list byte → list byte) (shuffle : list string → list string) (storageDir : string).
Context (identity : StorageIdentity) (voters : VoterSet) (maxSnapshotBytes : Z).

Abbreviation open o := (openFileStoreWithOptions sha256 shuffle storageDir identity voters maxSnapshotBytes o).
Abbreviation run op := (@runStore _ (FileStore_StableStore sha256) op).

(** A process runs operations of the node, under the faults of its system, until
    the power fails or the process ends; then the store is opened on what is
    left, under other faults.  While the store accepts writes the operations are
    those of [node_op]: arguments of their Go types, batches that carry neither a
    snapshot base nor a snapshot, and captured snapshots ahead of the durable
    base. *)
Inductive fs_step : machine → event → machine → Prop :=
| step_op s op result s' :
    (FS_poisoned s = false → FS_closed s = false → node_op (FS_state s) op) →
    run op s = (result, s') → fs_step (Up s) (EvOp op result) (Up s')
| step_loss s dk' : after_loss (theDisk s) dk' → fs_step (Up s) EvLoss (Off dk')
| step_opened o s : open o = (Ok tt, s) → fs_step (Off (OS_disk o)) (EvOpened (FS_state s)) (Up s)
| step_open_failed o e s dk' :
    open o = (Err e, s) → after_loss (theDisk s) dk' → fs_step (Off (OS_disk o)) EvOpenFailed (Off dk').

Inductive fs_run : machine → list event → machine → Prop :=
| fs_nil m : fs_run m [] m
| fs_cons m e m1 events m2 : fs_step m e m1 → fs_run m1 events m2 → fs_run m (e :: events) m2.
End machine.

(** ** The specification *)

(** A store with a durable state, one that stopped accepting writes, or one whose
    process is gone; the latter know which states may come back. *)
Inductive abstract :=
| Running (d : RecoveredState)
| Stopped (D : RecoveredState → Prop)
| Down (D : RecoveredState → Prop).

Definition candidates (a : abstract) : RecoveredState → Prop :=
  match a with Running d => λ x, x = d | Stopped D | Down D => D end.

Section spec.
Context (sha256 : list byte → list byte) (identity : StorageIdentity) (voters : VoterSet) (limit : Z).
Abbreviation effect := (store_effect sha256 identity voters limit).
Abbreviation spec := (store_spec sha256 identity voters limit).

(** What was acknowledged stays; an operation that failed has no effect, or stops
    the store and may or may not have had its effect. *)
Inductive spec_step : abstract → event → abstract → Prop :=
| spec_ok d op result d' :
    spec d op (Ok result) d' → op ≠ SClose → spec_step (Running d) (EvOp op (Ok result)) (Running d')
| spec_close d result : spec_step (Running d) (EvOp SClose (Ok result)) (Stopped (λ x, x = d))
| spec_failed d op e : spec_step (Running d) (EvOp op (Err e)) (Running d)
| spec_stopped d op e : spec_step (Running d) (EvOp op (Err e)) (Stopped (λ x, x = d ∨ effect d op x))
| spec_refused D op e : spec_step (Stopped D) (EvOp op (Err e)) (Stopped D)
| spec_read D op result : (∀ d x, ¬ effect d op x) → spec_step (Stopped D) (EvOp op (Ok result)) (Stopped D)
| spec_loss a : spec_step a EvLoss (Down (candidates a))
| spec_opened (D : RecoveredState → Prop) d : D d → spec_step (Down D) (EvOpened d) (Running d)
| spec_open_failed D : spec_step (Down D) EvOpenFailed (Down D).

Inductive spec_run : abstract → list event → abstract → Prop :=
| spec_nil a : spec_run a [] a
| spec_cons a e a1 events a2 : spec_step a e a1 → spec_run a1 events a2 → spec_run a (e :: events) a2.

(** The store shows the state it is said to have. *)
Definition agrees (m : machine) (a : abstract) : Prop :=
  match m, a with
  | Up s, Running d => FS_state s = d ∧ recovered_wf sha256 identity voters limit d
  | Up s, Stopped _ => FS_poisoned s = true ∨ FS_closed s = true
  | Off _, Down _ => True
  | _, _ => False
  end.
End spec.

(** ** The simulation *)

Section simulation.
Context (sha256 : list byte → list byte) (identity : StorageIdentity) (voters : VoterSet) (limit maxSnapshotBytes : Z).
Context (shuffle : list string → list string) (storageDir : string).
Context (Hlimit : 0 ≤ limit ≤ MaxRaftSnapshotBytes) (Hmx : snapshotLimit maxSnapshotBytes = Ok limit).
Context (Hempty : ValidateRecoveredState sha256 (emptyState identity) identity voters = Ok tt).
Context (sha256_length : ∀ l, length (sha256 l) = 32%nat) (Hidentity : identity_values identity).
Context (Hshuffle : ∀ l, shuffle l ≡ₚ l).
Context (Hdir : storageDir ≠ ""%string) (Hroot : cleansToRoot storageDir = false).

Abbreviation fs_step := (fs_step sha256 shuffle storageDir identity voters maxSnapshotBytes).
Abbreviation fs_run := (fs_run sha256 shuffle storageDir identity voters maxSnapshotBytes).
Abbreviation spec_step := (spec_step sha256 identity voters limit).
Abbreviation spec_run := (spec_run sha256 identity voters limit).
Abbreviation live := (live sha256 identity voters limit).
Abbreviation broken := (broken sha256 identity voters limit).
Abbreviation recoverable := (recoverable sha256 identity voters limit).

Definition simulates (m : machine) (a : abstract) : Prop :=
  match m, a with
  | Up s, Running d => live s d
  | Up s, Stopped D => broken D s
  | Off dk, Down D => recoverable dk D ∧ D_locked dk = false
  | _, _ => False
  end.

Lemma simulates_disk (s : FileStore) (a : abstract) : simulates (Up s) a → recoverable (theDisk s) (candidates a).
Proof. destruct a; simpl; [|by intros []|done]. intros Hl. by apply live_recoverable. Qed.

Lemma op_simulation (s s' : FileStore) (a : abstract) (op : store_op) (result : outcome error store_result) :
  simulates (Up s) a → (FS_poisoned s = false → FS_closed s = false → node_op (FS_state s) op) →
  @runStore _ (FileStore_StableStore sha256) op s = (result, s') →
  ∃ a', spec_step a (EvOp op result) a' ∧ simulates (Up s') a'.
Proof.
  intros Hs Hop Hrun. destruct a as [d|D|D]; [| |done].
  - pose proof (live_op sha256 identity voters limit Hlimit Hempty sha256_length (proj2 (proj2 Hidentity)) False s d op Hs) as H.
    destruct Hs as [_ Hcl Hpo Hst _ _]. rewrite Hst in Hop. specialize (H (Hop Hpo Hcl)). unfold fwp in H.
    specialize (H (False_ind _)). rewrite Hrun in H. destruct result as [res|e| |]; [| |done..]; destruct H as [_ H].
    + destruct H as (d' & Hspec & [[Hne Hl]|[-> Hb]]).
      * exists (Running d'). split; [by constructor|done].
      * exists (Stopped (λ x, x = d)). simpl in Hspec. destruct res; try done. subst d'. split; [constructor|apply Hb].
    + destruct H as [Hl|Hb]; [exists (Running d); split; [constructor|done]|].
      exists (Stopped (λ x, x = d ∨ store_effect sha256 identity voters limit d op x)). split; [constructor|].
      destruct Hb as [[_ Hb]|(d' & He & _ & Hb)]; [done|]. revert Hb. apply broken_mono. intros x ->. by right.
  - pose proof (broken_op sha256 identity voters limit Hlimit False s (FS_state s) D op (conj eq_refl Hs) (False_ind _)) as H.
    rewrite Hrun in H. destruct result as [res|e| |]; [| |done..]; destruct H as [_ H]; exists (Stopped D).
    + destruct H as ([_ Hb] & He & _). split; [by constructor|done].
    + split; [constructor|apply H].
Qed.

Lemma step_simulation (m m' : machine) (e : event) (a : abstract) :
  simulates m a → fs_step m e m' → ∃ a', spec_step a e a' ∧ simulates m' a'.
Proof.
  intros Hs Hstep. destruct Hstep as [s op result s' Hop Hrun|s dk' Hloss|o s Hopen|o e s dk' Hopen Hloss].
  - by eapply op_simulation.
  - exists (Down (candidates a)). split; [constructor|]. split; [|apply Hloss].
    eapply loss_recoverable; [done|]. by apply simulates_disk.
  - destruct a as [d|D|D]; [done|done|]. destruct Hs as [Hr Hl].
    pose proof (open_law sha256 identity voters limit Hlimit Hempty Hidentity shuffle Hshuffle False D storageDir
      maxSnapshotBytes o Hmx Hdir Hroot Hr Hl (False_ind _)) as H. rewrite Hopen in H. destruct H as (d & HD & Hlive).
    rewrite (lv_state _ _ _ _ _ _ Hlive). exists (Running d). split; [by constructor|done].
  - destruct a as [d|D|D]; [done|done|]. destruct Hs as [Hr Hl].
    pose proof (open_law sha256 identity voters limit Hlimit Hempty Hidentity shuffle Hshuffle False D storageDir
      maxSnapshotBytes o Hmx Hdir Hroot Hr Hl (False_ind _)) as H. rewrite Hopen in H. destruct H as [_ Hr'].
    exists (Down D). split; [constructor|]. split; [by eapply loss_recoverable|apply Hloss].
Qed.

Lemma run_simulation (m m' : machine) (events : list event) (a : abstract) :
  simulates m a → fs_run m events m' → ∃ a', spec_run a events a' ∧ simulates m' a'.
Proof.
  intros Hs Hrun. revert a Hs. induction Hrun as [m|m e m1 events m2 Hstep _ IH]; intros a Hs.
  - exists a. split; [constructor|done].
  - destruct (step_simulation _ _ _ _ Hs Hstep) as (a1 & Hspec & Hs1). destruct (IH a1 Hs1) as (a2 & Hspecs & Hs2).
    exists a2. split; [by econstructor|done].
Qed.

Lemma simulates_agrees (m : machine) (a : abstract) : simulates m a → agrees sha256 identity voters limit m a.
Proof.
  destruct m as [s|dk], a as [d|D|D]; simpl; try done; [|by intros []].
  intros [_ _ _ Hst (i & iw & isn & so & content & w & last & _ & _ & _ & _ & Hd & _) _]. split; [done|]. by eapply seen_wf.
Qed.

(** What is left opens when no fault comes in the way. *)
Lemma remains_open (dk : disk) (a : abstract) (o : os) :
  simulates (Off dk) a → OS_disk o = dk → clean o →
  ∃ s, openFileStoreWithOptions sha256 shuffle storageDir identity voters maxSnapshotBytes o = (Ok tt, s) ∧
    candidates a (FS_state s).
Proof.
  destruct a as [d|D|D]; [done|done|]. intros [Hr Hl] <- Hc.
  pose proof (open_law sha256 identity voters limit Hlimit Hempty Hidentity shuffle Hshuffle True D storageDir
    maxSnapshotBytes o Hmx Hdir Hroot Hr Hl (λ _, Hc)) as H.
  destruct (openFileStoreWithOptions _ _ _ _ _ _ _) as [[[]|e| |] s]; [|by destruct H|done..].
  exists s. split; [done|]. destruct H as (d & HD & Hlive). by rewrite (lv_state _ _ _ _ _ _ Hlive).
Qed.
End simulation.

(** ** Interrupted initialisation *)

(** A directory without an identity that holds more than the lock. *)
Definition leftover (dk : disk) : Prop :=
  D_entries dk !! RaftIdentityFilename = None ∧ ∃ n, n ≠ RaftLockFilename ∧ is_Some (D_entries dk !! n).

Section leftover.
Abbreviation K := (λ s, leftover (theDisk s) ∧ FS_stage s = None).
Abbreviation fwp := (fwp False).

Lemma left_syscall {A} (run : disk → outcome error A * disk) (s : FileStore) :
  (∀ dk, leftover dk → leftover (run dk).2 ∧ returns (run dk).1) → K s → fwp (syscall run) K (λ _, K) s.
Proof.
  intros Hrun [Hl Hs]. destruct (Hrun _ Hl) as [Hl' Hr]. apply fwp_syscall.
  - intros _. split; intros o Ho; (split; [|done]); simpl; by rewrite Ho.
  - destruct ((run (theDisk s)).1); try done; intros o Ho; (split; [|done]); simpl; by rewrite Ho.
Qed.

Lemma left_inspect {A} (read : disk → outcome error A) (s : FileStore) :
  (∀ dk, returns (read dk)) → K s → fwp (inspect read) K (λ _, K) s.
Proof. intros Hr. apply left_syscall. intros dk Hl. split; [done|apply Hr]. Qed.

Lemma left_close (s : FileStore) : K s → fwp opClose K (λ _, K) s.
Proof. by apply left_inspect. Qed.

Lemma left_lift {A} (o : outcome error A) (s : FileStore) : returns o → K s → fwp (lift o) K (λ _, K) s.
Proof. intros Hr Hs. by apply fwp_lift. Qed.

Lemma left_modify (f : FileStore → FileStore) (s : FileStore) :
  (∀ s, FS_ops (f s) = FS_ops s) → (∀ s, FS_stage (f s) = FS_stage s) → K s → fwp (modify f) K (λ _, K) s.
Proof. intros Ho Hf [Hl Hs]. apply fwp_modify; [done|]. split; [by rewrite Ho|by rewrite Hf]. Qed.

Lemma left_bind {A B} (m : FS A) (k : A → FS B) (Q : B → FileStore → Prop) (s : FileStore) :
  fwp m K (λ _, K) s → (∀ a s', K s' → fwp (k a) K Q s') → fwp (bind m k) K Q s.
Proof. intros Hm Hk. apply fwp_bind. eapply fwp_mono; [done|done|]. auto. Qed.

Lemma validate_returns_info (info : fileInfo) :
  returns (validateRegularFileInfo info) ∧ returns (validateDirectoryInfo info).
Proof. unfold validateRegularFileInfo, validateDirectoryInfo, validateOpenedOwner. split; solve_returns. Qed.

Lemma left_anchorParent (s : FileStore) : K s → fwp anchorParent K (λ _, K) s.
Proof.
  intros Hs. apply left_bind; [apply left_syscall; [|done]; intros dk Hl; by repeat case_match|].
  intros _ s1 H1. apply left_bind; [apply left_inspect; [|done]; intros dk; by case_match|]. intros p s2 H2.
  apply left_bind; [|by intros _; apply left_close]. eapply fwp_onError; [|by apply left_close].
  case_goal; [by apply fwp_throw|]. by apply left_syscall.
Qed.

Lemma left_anchorDirectory (s : FileStore) : K s → fwp anchorDirectory K (λ _, K) s.
Proof.
  intros Hs. assert (∀ s, K s → fwp directoryInfo K (λ _, K) s) as Hd.
  { intros s' H'. apply left_inspect; [|done]. intros dk. by case_match. }
  pose proof (λ i, proj2 (validate_returns_info i)) as Hv.
  apply left_bind; [by apply Hd|]. intros i s1 H1. apply left_bind; [by apply left_lift|]. intros _ s2 H2.
  apply left_bind; [by apply Hd|]. intros _ s3 H3. apply left_bind; [by apply Hd|]. intros i' s4 H4.
  apply left_bind; [by apply left_lift|]. intros _ s5 H5. apply left_bind; [by apply left_inspect|]. intros _ s6 H6.
  apply left_bind; [by apply left_modify|]. intros _ s7 H7. apply left_bind; [by apply left_inspect|]. intros _ s8 H8.
  apply left_bind; [by apply Hd|]. intros i'' s9 H9. apply left_bind; [by apply left_close|]. intros _ s10 H10.
  by apply left_lift.
Qed.

Lemma left_create (s : FileStore) : K s → fwp (opCreate RaftLockFilename) K (λ _, K) s.
Proof.
  apply left_syscall. intros dk [Hi (n & Hn & He)]. case_match; [by repeat split; eauto|]. split; [|done].
  split; simpl; [by rewrite lookup_insert_ne|]. exists n. split; [done|]. by rewrite lookup_insert_ne.
Qed.

Lemma left_lockFile (s : FileStore) : K s → fwp (openAnchoredRegularFile RaftLockFilename true) K (λ _, K) s.
Proof.
  intros Hs. pose proof (λ i, proj1 (validate_returns_info i)) as Hv.
  assert (∀ ino s, K s → fwp (validateOpenedRegularFile ino) K (λ _, K) s) as Ho.
  { intros ino s' H'. apply left_bind; [apply left_inspect; [|done]; intros dk; by case_match|].
    intros [i sz] s1 H1. by apply left_lift. }
  apply left_bind; [apply left_inspect; [|done]; intros dk; by repeat case_match|]. intros [[[b i] sz]|] s1 H1; simpl.
  - apply left_bind; [by apply left_lift|]. intros _ s2 H2.
    apply left_bind; [apply left_inspect; [|done]; intros dk; by case_match|]. intros ino s3 H3.
    eapply fwp_onError; [|by apply left_close]. apply left_bind; [by apply Ho|]. intros _ s4 H4.
    case_goal; [by apply fwp_throw|by apply fwp_ret].
  - apply left_bind; [by apply left_create|]. intros ino s2 H2. eapply fwp_onError; [|by apply left_close].
    apply left_bind; [by apply Ho|]. intros _ s4 H4. by apply fwp_ret.
Qed.

Lemma left_acquireLock (s : FileStore) : K s → fwp acquireLock K (λ _, K) s.
Proof.
  intros Hs. apply left_bind; [by apply left_lockFile|]. intros [l c] s1 H1.
  apply left_bind; [by apply left_modify|]. intros _ s2 H2. apply left_bind; [|intros _ s3 H3; by apply left_modify].
  apply left_syscall; [|done]. intros dk Hl. by case_match.
Qed.

Lemma left_identity (shuffle : list string → list string) (s : FileStore) :
  K s → fwp (loadOrCreateIdentity shuffle) K (λ _ _, False) s.
Proof.
  intros Hs. apply left_bind; [by apply left_inspect|]. intros _ s1 [Hleft Hst]. pose proof Hleft as [Hi (n & Hn & He)].
  apply fwp_bind, fwp_inspect; [intros _ o Ho; split; [by simpl; rewrite Ho|done]|]. intros o Ho.
  assert (K (withOS s1 o)) as H1 by (split; [simpl; by rewrite Ho|done]).
  set (names := (map_to_list (D_entries (theDisk s1))).*1).
  assert (∀ m, m ∈ names ↔ is_Some (D_entries (theDisk s1) !! m)) as Hnames.
  { intros m. unfold names. rewrite list_elem_of_fmap. split.
    - intros ([m' ino] & -> & Hm%elem_of_map_to_list). by exists ino.
    - intros [ino Hm]. exists (m, ino). split; [done|]. by apply elem_of_map_to_list. }
  apply left_bind; [by apply left_close|]. intros _ s2 H2. rewrite bool_decide_false.
  2: { rewrite Hnames, Hi. by intros []. }
  rewrite bool_decide_false; [by apply fwp_throw|]. intros Heq. apply Hnames in He. rewrite Heq in He.
  by apply list_elem_of_singleton in He.
Qed.

Lemma left_release (s : FileStore) : K s → fwp releaseOpenResources K (λ _, K) s.
Proof.
  apply release_each.
  - intros s1 s2 (Ho & _ & _ & _ & _ & _ & Hst) [Hl Hs]. split; [by rewrite Ho|]. destruct Hst; congruence.
  - apply left_close.
  - intros s'. by apply left_syscall.
  - intros s' Hs'. apply fwp_get. destruct Hs' as [Hl Hst]. rewrite Hst. by apply fwp_ret.
Qed.
End leftover.

(** ** Main results *)

Lemma snapshotLimit_range (mx limit : Z) : 0 ≤ mx → snapshotLimit mx = Ok limit → 0 ≤ limit ≤ MaxRaftSnapshotBytes.
Proof.
  intros Hmx. unfold snapshotLimit. case_outer; [done|]. intros [= <-]. bool_hyps. split; [|done].
  case_goal; [by vm_compute|done].
Qed.

Section main.
Context (sha256 : list byte → list byte) (shuffle : list string → list string) (storageDir : string).
Context (identity : StorageIdentity) (voters : VoterSet) (maxSnapshotBytes : Z).
Abbreviation open o := (openFileStoreWithOptions sha256 shuffle storageDir identity voters maxSnapshotBytes o).

(** An opening that succeeds passed the checks of its arguments. *)
Lemma opened_arguments (o : os) (s : FileStore) :
  open o = (Ok tt, s) →
  ValidateRecoveredState sha256 (emptyState identity) identity voters = Ok tt ∧
  storageDir ≠ ""%string ∧ cleansToRoot storageDir = false ∧ ∃ limit, snapshotLimit maxSnapshotBytes = Ok limit.
Proof.
  unfold openFileStoreWithOptions. destruct (snapshotLimit maxSnapshotBytes) as [limit| | |] eqn:Hmx; [|done..].
  case_goal; [done|]. apply orb_false_elim in Heq as [Hd Hr]. unfold bind at 1, lift.
  destruct (ValidateRecoveredState _ _ _ _) as [[]| | |] eqn:Hv; [|done..]. intros _.
  split_and!; [done| |done|eauto]. intros ->. done.
Qed.

(** A run from a fresh directory is simulated. *)
Lemma run_from_fresh (limit : Z) (o : os) (s : FileStore) (events : list event) (m : machine) :
  (∀ l, length (sha256 l) = 32%nat) → (∀ l, shuffle l ≡ₚ l) → identity_values identity →
  0 ≤ maxSnapshotBytes → snapshotLimit maxSnapshotBytes = Ok limit → fresh (OS_disk o) → open o = (Ok tt, s) →
  fs_run sha256 shuffle storageDir identity voters maxSnapshotBytes (Up s) events m →
  ∃ a, spec_run sha256 identity voters limit (Running (emptyState identity)) events a ∧
    simulates sha256 identity voters limit m a.
Proof.
  intros Hsha Hsh Hid Hmx0 Hmx Hf Hopen Hrun. pose proof (snapshotLimit_range _ _ Hmx0 Hmx) as Hlimit.
  destruct (opened_arguments _ _ Hopen) as (Hv & Hd & Hr & _).
  pose proof (open_fresh sha256 identity voters limit Hlimit Hv shuffle False storageDir maxSnapshotBytes o s Hmx Hf
    (False_ind _) Hopen) as Hl.
  exact (run_simulation sha256 identity voters limit maxSnapshotBytes shuffle storageDir Hlimit Hmx Hv Hsha Hid Hsh Hd Hr
    (Up s) m events (Running (emptyState identity)) Hl Hrun).
Qed.
End main.

(** C5: For the operations the node issues, the file store refines a store that
    loses nothing it acknowledged.  A store was opened successfully on a fresh
    directory; then operations run under arbitrary faults of the system calls, the
    power fails at any point, and the store is opened again, under faults as well.
    The operations are those of [node_op]: no batch carries a snapshot base or a
    snapshot, and a captured snapshot is ahead of the durable base.  A loss keeps of
    every file its present content, or what was last synced followed by some prefix
    of what was appended since, and of the directory one of its versions since its
    last sync ([after_loss]).  Every run is a run of the specification: an
    acknowledged operation has its effect, a failed one has none or stops the store,
    and an opening recovers the state before or after the operation that failed. *)
Theorem FileStore_refines_spec (sha256 : list byte → list byte) (shuffle : list string → list string)
    (storageDir : string) (identity : StorageIdentity) (voters : VoterSet) (maxSnapshotBytes limit : Z)
    (o : os) (s : FileStore) (events : list event) (m : machine) :
  (∀ l, length (sha256 l) = 32%nat) → (∀ l, shuffle l ≡ₚ l) → identity_values identity →
  0 ≤ maxSnapshotBytes → snapshotLimit maxSnapshotBytes = Ok limit → fresh (OS_disk o) →
  openFileStoreWithOptions sha256 shuffle storageDir identity voters maxSnapshotBytes o = (Ok tt, s) →
  fs_run sha256 shuffle storageDir identity voters maxSnapshotBytes (Up s) events m →
  ∃ a, spec_run sha256 identity voters limit (Running (emptyState identity)) events a ∧
    agrees sha256 identity voters limit m a.
Proof.
  intros Hsha Hsh Hid Hmx0 Hmx Hf Hopen Hrun.
  destruct (run_from_fresh _ _ _ _ _ _ _ _ _ _ _ Hsha Hsh Hid Hmx0 Hmx Hf Hopen Hrun) as (a & Hspec & Hs).
  exists a. split; [done|]. by apply simulates_agrees.
Qed.

(** C6: What a power loss leaves of a store that was opened successfully once can
    be opened: after any run of the operations the node issues ([node_op]), under
    arbitrary faults and the losses of [after_loss], and however often later openings
    were interrupted, an opening without faults succeeds, with a state that the
    specification allows. *)
Theorem FileStore_reopens (sha256 : list byte → list byte) (shuffle : list string → list string)
    (storageDir : string) (identity : StorageIdentity) (voters : VoterSet) (maxSnapshotBytes limit : Z)
    (o o' : os) (s : FileStore) (events : list event) :
  (∀ l, length (sha256 l) = 32%nat) → (∀ l, shuffle l ≡ₚ l) → identity_values identity →
  0 ≤ maxSnapshotBytes → snapshotLimit maxSnapshotBytes = Ok limit → fresh (OS_disk o) →
  openFileStoreWithOptions sha256 shuffle storageDir identity voters maxSnapshotBytes o = (Ok tt, s) →
  fs_run sha256 shuffle storageDir identity voters maxSnapshotBytes (Up s) events (Off (OS_disk o')) → clean o' →
  ∃ s' a, openFileStoreWithOptions sha256 shuffle storageDir identity voters maxSnapshotBytes o' = (Ok tt, s') ∧
    spec_run sha256 identity voters limit (Running (emptyState identity)) events a ∧ candidates a (FS_state s').
Proof.
  intros Hsha Hsh Hid Hmx0 Hmx Hf Hopen Hrun Hc. pose proof (snapshotLimit_range _ _ Hmx0 Hmx) as Hlimit.
  destruct (opened_arguments _ _ _ _ _ _ _ _ Hopen) as (Hv & Hd & Hr & _).
  destruct (run_from_fresh _ _ _ _ _ _ _ _ _ _ _ Hsha Hsh Hid Hmx0 Hmx Hf Hopen Hrun) as (a & Hspec & Hs).
  destruct (remains_open sha256 identity voters limit maxSnapshotBytes shuffle storageDir Hlimit Hmx Hv Hid Hsh Hd Hr
    _ a o' Hs eq_refl Hc) as (s' & Hs' & Hca). by exists s', a.
Qed.

(** C30: An initialisation that is interrupted after its temporary identity file
    was made is never repaired: on a directory that has no identity and holds
    anything besides the lock, every opening fails, whatever its arguments, and
    leaves such a directory. *)
Theorem interrupted_initialization_stuck (sha256 : list byte → list byte) (shuffle : list string → list string)
    (storageDir : string) (identity : StorageIdentity) (voters : VoterSet) (maxSnapshotBytes : Z) (o : os) :
  leftover (OS_disk o) →
  ∃ e s, openFileStoreWithOptions sha256 shuffle storageDir identity voters maxSnapshotBytes o = (Err e, s) ∧
    leftover (theDisk s).
Proof.
  intros Hl. unfold openFileStoreWithOptions.
  destruct (snapshotLimit maxSnapshotBytes) as [limit| | |]; [|by eauto..].
  set (s0 := unopened identity voters limit o). assert (leftover (theDisk s0) ∧ FS_stage s0 = None) as Hs by done.
  assert (∀ m : FS unit, fwp False m (λ s, leftover (theDisk s) ∧ FS_stage s = None) (λ _ _, False) s0 →
    ∃ e s, m s0 = (Err e, s) ∧ leftover (theDisk s)) as Hfin.
  { intros m H. specialize (H (False_ind _)). destruct (m s0) as [[] s]; try done; destruct H as [_ H]; [done|].
    destruct H. eauto. }
  apply Hfin. case_goal; [by apply fwp_throw|].
  apply left_bind; [apply left_lift; [unfold ValidateRecoveredState; auto with returns|done]|]. intros _ s1 H1.
  apply left_bind; [by apply left_anchorParent|]. intros _ s2 H2.
  apply left_bind; [by apply left_inspect|]. intros _ s3 H3. apply left_bind; [by apply left_modify|]. intros _ s4 H4.
  eapply fwp_onError; [|by apply left_release].
  apply left_bind; [by apply left_anchorDirectory|]. intros _ s5 H5.
  apply left_bind; [by apply left_acquireLock|]. intros _ s6 H6.
  apply fwp_bind. eapply fwp_mono; [by apply left_identity|done|done].
Qed.

(** ** Examples *)

(** A power loss that loses nothing but the process. *)
Definition kept_all (dk : disk) : disk :=
  mkDisk (D_parent dk) (D_directory dk) true (D_entries dk) []
    ((λ f, f <| OF_durable := OF_content f |>) <$> D_files dk) (D_next dk) false.

Lemma kept_all_loss (dk : disk) : after_loss dk (kept_all dk).
Proof.
  split; simpl; try done.
  - by destruct (D_anchored dk).
  - apply list_elem_of_here.
  - intros ino f' Hf. apply lookup_fmap_Some in Hf as (f & <- & Hf). exists f. split_and!; [done..|by left].
  - intros ino f Hf. rewrite lookup_fmap, Hf. eauto.
Qed.

(** Everything on a disk is synced. *)
Definition all_synced (dk : disk) : Prop :=
  D_anchored dk = true ∧ D_older dk = [] ∧ map_Forall (λ _ f, OF_durable f = OF_content f) (D_files dk).

Lemma synced_loss (dk dk' : disk) : all_synced dk → after_loss dk dk' → dk' = kept_all dk.
Proof.
  intros (Ha & Ho & Hf) [Hp Hd He Ho' Ha' Hfiles Hkept Hn Hl].
  destruct dk as [p d an es older files next lk], dk' as [p' d' an' es' older' files' next' lk']; simpl in *; subst.
  apply list_elem_of_singleton in He as ->. unfold kept_all. simpl. f_equal. apply map_eq. intros ino.
  rewrite lookup_fmap. destruct (files' !! ino) as [f'|] eqn:Hf'.
  - destruct (Hfiles ino f' Hf') as (f & Hx & Hi & Hdu & Hs). rewrite Hx. simpl. f_equal. pose proof (Hf ino f Hx) as Hsy. simpl in Hsy.
    assert (OF_content f' = OF_content f) as Hc.
    { destruct Hs as [?|[?|[Hp1 Hp2]]]; [done|congruence|]. rewrite Hsy in Hp1. by apply (anti_symm prefix). }
    destruct f, f'. simpl in *. unfold set_field. simpl. congruence.
  - destruct (files !! ino) as [f|] eqn:Hx; [|done]. destruct (Hkept ino f Hx) as [? Hy]. congruence.
Qed.

(** A storage root without a directory. *)
Definition exDisk : disk := mkDisk (Some (mkInfo true false 448 true 2)) None false ∅ [] ∅ 1 false.
Definition exSystem (tape : list fault) (dk : disk) : os :=
  mkOS dk tape false [replicate 16 Byte.x01; replicate 16 Byte.x02; replicate 16 Byte.x03].
Abbreviation exOpen o := (openFileStoreWithOptions exSha id "data" exStoreIdentity exVoterSet 0 o).

Lemma exDisk_fresh : fresh exDisk.
Proof. split; try done. by eexists. Qed.

Lemma exStoreIdentity_values : identity_values exStoreIdentity.
Proof. split_and!; vm_compute; split; try done. Qed.

(** The opening takes 35 calls; of the second batch only 20 bytes arrive. *)
Definition exFaulty : os := exSystem (replicate 38 FaultNone ++ [FaultNone; FaultFail true 20]) exDisk.
Definition exOp (n : Z) : store_op := SPersist (mkBatch (Some (mkHardState n 1 0)) 0 [] None None None).
Definition exStore0 : FileStore := (exOpen exFaulty).2.
Definition exRun (op : store_op) (s : FileStore) := @runStore _ (FileStore_StableStore exSha) op s.
Definition exStore1 : FileStore := (exRun (exOp 2) exStore0).2.
Definition exStore2 : FileStore := (exRun (exOp 3) exStore1).2.
Definition exReopen : os := exSystem [] (kept_all (theDisk exStore2)).
Definition exEvents : list event := [EvOp (exOp 2) (Ok ResultUnit); EvOp (exOp 3) (Err ErrIO); EvLoss].

Lemma exOp_node (n : Z) (d : RecoveredState) : is_u64 n → node_op d (exOp n).
Proof. intros Hn. split; [|done]. unfold store_op_typed, exOp, batch_values. simpl. split_and!; try ulia; done. Qed.

Lemma exFaulty_opens : exOpen exFaulty = (Ok tt, exStore0).
Proof. assert ((exOpen exFaulty).1 = Ok tt) as H by (vm_compute; reflexivity). unfold exStore0. by destruct (exOpen exFaulty); simpl in *; subst. Qed.

Lemma exLoss : fs_run exSha id "data" exStoreIdentity exVoterSet 0 (Up exStore0) exEvents (Off (OS_disk exReopen)).
Proof.
  assert ((exRun (exOp 2) exStore0).1 = Ok ResultUnit) as H1 by (vm_compute; reflexivity).
  assert ((exRun (exOp 3) exStore1).1 = Err ErrIO) as H2 by (vm_compute; reflexivity).
  eapply fs_cons; [apply (step_op _ _ _ _ _ _ _ _ _ exStore1)|].
  { intros _ _. apply exOp_node. ulia. }
  { unfold exStore1, exRun in *. by destruct (runStore _ exStore0); simpl in *; subst. }
  eapply fs_cons; [apply (step_op _ _ _ _ _ _ _ _ _ exStore2)|].
  { intros _ _. apply exOp_node. ulia. }
  { unfold exStore2, exRun in *. by destruct (runStore _ exStore1); simpl in *; subst. }
  eapply fs_cons; [apply step_loss, kept_all_loss|]. constructor.
Qed.

Lemma FileStore_refines_spec_witness :
  ∃ s m a, fs_run exSha id "data" exStoreIdentity exVoterSet 0 (Up exStore0)
      (exEvents ++ [EvOpened (FS_state s)]) m ∧ HardState_Term (RS_HardState (FS_state s)) = 2 ∧
    spec_run exSha exStoreIdentity exVoterSet DefaultSnapshotLimitBytes (Running (emptyState exStoreIdentity))
      (exEvents ++ [EvOpened (FS_state s)]) a ∧ agrees exSha exStoreIdentity exVoterSet DefaultSnapshotLimitBytes m a.
Proof.
  set (s := (exOpen exReopen).2). assert (exOpen exReopen = (Ok tt, s)) as Hs.
  { assert ((exOpen exReopen).1 = Ok tt) as H by (vm_compute; reflexivity). unfold s. by destruct (exOpen exReopen); simpl in *; subst. }
  assert (fs_run exSha id "data" exStoreIdentity exVoterSet 0 (Up exStore0) (exEvents ++ [EvOpened (FS_state s)]) (Up s)) as Hrun.
  { pose proof exLoss as H. remember (Up exStore0) as m0. remember (Off (OS_disk exReopen)) as m1. clear Heqm0.
    induction H as [m|m e m' es m'' Hstep _ IH]; simpl.
    - subst m. eapply fs_cons; [by apply step_opened|constructor].
    - eapply fs_cons; [done|]. by apply IH. }
  destruct (FileStore_refines_spec exSha id "data" exStoreIdentity exVoterSet 0 DefaultSnapshotLimitBytes exFaulty exStore0
    (exEvents ++ [EvOpened (FS_state s)]) (Up s)) as (a & Ha & Hag).
  - intros l. apply length_be_bytes.
  - done.
  - exact exStoreIdentity_values.
  - lia.
  - reflexivity.
  - exact exDisk_fresh.
  - exact exFaulty_opens.
  - exact Hrun.
  - exists s, (Up s), a. split_and!; [exact Hrun|vm_compute; reflexivity|exact Ha|exact Hag].
Defined.

Lemma FileStore_reopens_witness :
  ∃ s' a, exOpen exReopen = (Ok tt, s') ∧
    spec_run exSha exStoreIdentity exVoterSet DefaultSnapshotLimitBytes (Running (emptyState exStoreIdentity)) exEvents a ∧
    candidates a (FS_state s').
Proof.
  apply (FileStore_reopens exSha id "data" exStoreIdentity exVoterSet 0 DefaultSnapshotLimitBytes exFaulty exReopen exStore0 exEvents).
  - intros l. apply length_be_bytes.
  - done.
  - exact exStoreIdentity_values.
  - lia.
  - reflexivity.
  - exact exDisk_fresh.
  - exact exFaulty_opens.
  - exact exLoss.
  - done.
Defined.

(** A voter that holds one committed entry and is given a batch with a snapshot of
    it, which the bounds of a batch allow. *)
Definition exMarkedVoters : VoterSet := mkVoterSet (VS_voters exVoterSet) (VS_byID exVoterSet) (replicate 32 Byte.x09).
Definition exMarked : StorageIdentity := mkStorageIdentity 1 (replicate 16 Byte.x07) 1 (replicate 32 Byte.x09).
Abbreviation exMarkedOpen o := (openFileStoreWithOptions exSha id "data" exMarked exMarkedVoters 0 o).
Definition exBase : SnapshotMetadata := mkSnapshotMetadata 1 2 1.
Definition exPayload : Snapshot :=
  match NewSnapshot exSha exMarked exBase [Byte.x61] 64 with Ok s => s | _ => exSnapshot end.
Definition exEntryBatch : PersistenceBatch :=
  mkBatch (Some (mkHardState 2 1 1)) 1 [mkEntry 1 2 EntryNoOp []] None None None.
Definition exSnapshotBatch : PersistenceBatch := mkBatch None 0 [] (Some exBase) (Some exPayload) (Some 1).
Definition exMarked0 : FileStore := (exMarkedOpen (exSystem [] exDisk)).2.
Definition exMarked1 : FileStore := (FileStore_Persist exSha exEntryBatch exMarked0).2.
Definition exMarked2 : FileStore := (FileStore_Persist exSha exSnapshotBatch exMarked1).2.

Lemma exMarked2_synced : all_synced (theDisk exMarked2).
Proof. apply (bool_decide_unpack _). vm_compute. exact I. Qed.


(** The power fails while the identity file is written. *)
Definition exInterrupted : disk := kept_all (theDisk (exOpen (exSystem (replicate 22 FaultNone ++ [FaultCrash]) exDisk)).2).

Lemma interrupted_initialization_stuck_witness :
  after_loss (theDisk (exOpen (exSystem (replicate 22 FaultNone ++ [FaultCrash]) exDisk)).2) exInterrupted ∧
  ∃ e s, exOpen (exSystem [] exInterrupted) = (Err e, s) ∧ leftover (theDisk s).
Proof.
  split; [apply kept_all_loss|].
  apply (interrupted_initialization_stuck exSha id "data" exStoreIdentity exVoterSet 0 (exSystem [] exInterrupted)).
  split; [vm_compute; reflexivity|]. exists (String.append identityTemporaryPrefix (hexEncode (replicate 16 Byte.x01))).
  split; [done|]. exists 2. vm_compute. reflexivity.
Defined.
End RaftFileMachine.
