(* ===== verification/RaftFileStoreLaws.v ===== *)
(** * The file store under the node

    [FileStore] keeps the contract that [RaftNodeInv] and [RaftCluster] rely on,
    across power losses and interrupted openings. *)

From stdpp Require Import strings.
From S2P Require Import Prelude RaftTypes RaftLog RaftVoters RaftCodec Hash RaftSnapshot RaftStorage RaftWAL RaftFileStore RaftFileRecovery RaftFileStoreInv RaftFileStoreOps RaftFileStoreOpen RaftFileMachine.

Module RaftFileStoreLaws.
Import RaftLog RaftVoters RaftCodec Hash RaftSnapshot RaftStorage RaftWAL RaftFileStore RaftFileRecovery RaftFileStoreInv RaftFileStoreOps RaftFileStoreOpen RaftFileMachine.
Open Scope Z_scope.

(** ** Rejections come before the state changes *)

Abbreviation rejected e := (error_is e ErrSnapshotRejected).

(** An outcome that is no rejection. *)
Definition plain {A} (o : outcome error A) : Prop := match o with Err e => rejected e = false | _ => True end.

Definition unrejected {A} (m : FS A) : Prop := ∀ s, plain (m s).1.

Definition rejectsBefore {A} (m : FS A) : Prop :=
  ∀ s, match (m s).1 with Err e => rejected e = true → FS_state (m s).2 = FS_state s | _ => True end.

Lemma plain_bind {A B} (o : outcome error A) (k : A → outcome error B) :
  plain o → (∀ a, plain (k a)) → plain (outcome_bind o k).
Proof. intros Ho Hk. destruct o; [apply Hk|done..]. Qed.

Ltac solve_plain :=
  repeat match goal with
  | |- plain ?x =>
    lazymatch x with
    | outcome_bind _ _ => apply plain_bind; [|intros ?]
    | match ?y with _ => _ end => destruct y eqn:?
    | let _ := _ in _ => cbv zeta
    | _ => solve [exact I | reflexivity | auto with plain]
    end
  | |- True => exact I
  end.
Create HintDb plain.

Section unrejected.
Context {A B : Type}.
Lemma unrejected_bind (m : FS A) (k : A → FS B) : unrejected m → (∀ a, unrejected (k a)) → unrejected (bind m k).
Proof.
  intros Hm Hk s. unfold bind. specialize (Hm s). destruct (m s) as [[a|e| |] s']; simpl in *; [apply Hk|done..].
Qed.
Lemma unrejected_get (k : FileStore → FS B) : (∀ s, unrejected (k s)) → unrejected (bind get k).
Proof. intros H s. by apply H. Qed.
Lemma unrejected_ret (a : A) : unrejected (ret a).
Proof. done. Qed.
Lemma unrejected_lift (o : outcome error A) : plain o → unrejected (lift o).
Proof. intros H s. by destruct o. Qed.
Lemma unrejected_modify (f : FileStore → FileStore) : unrejected (modify f).
Proof. done. Qed.
Lemma unrejected_onError (m : FS A) (cleanup : FS unit) : unrejected m → unrejected (onError m cleanup).
Proof.
  intros Hm s. unfold onError. specialize (Hm s). destruct (m s) as [[] s']; simpl in *; try done.
  by destruct (cleanup s') as [[] s''].
Qed.
Lemma unrejected_poisoning (m : FS A) : unrejected m → unrejected (poisoning m).
Proof. apply unrejected_onError. Qed.
Lemma unrejected_syscall (run : disk → outcome error A * disk) : (∀ dk, plain (run dk).1) → unrejected (syscall run).
Proof.
  intros H s. unfold syscall, nextFault, bind, get. simpl. destruct (OS_crashed (FS_ops s)); [done|].
  assert (∀ dk (s : FileStore), plain (lift (run dk).1 s).1) as Hl.
  { intros dk s'. specialize (H dk). unfold lift. by destruct ((run dk).1). }
  destruct (OS_tape (FS_ops s)) as [|f rest]; [apply Hl|].
  destruct f as [|n|[] n|]; try done; apply Hl.
Qed.

Lemma rejectsBefore_stateless (m : FS A) : stateless m → rejectsBefore m.
Proof. intros H s. rewrite H. by destruct ((m s).1). Qed.
Lemma rejectsBefore_unrejected (m : FS A) : unrejected m → rejectsBefore m.
Proof. intros H s. specialize (H s). destruct ((m s).1); simpl in *; [done|congruence|done..]. Qed.
Lemma rejectsBefore_bind (m : FS A) (k : A → FS B) : stateless m → (∀ a, rejectsBefore (k a)) → rejectsBefore (bind m k).
Proof.
  intros Hm Hk s. unfold bind. specialize (Hm s). destruct (m s) as [[a|e| |] s']; simpl in *; try done.
  specialize (Hk a s'). destruct ((k a s').1); try done. rewrite <- Hm. done.
Qed.
Lemma rejectsBefore_get (k : FileStore → FS B) : (∀ s, rejectsBefore (k s)) → rejectsBefore (bind get k).
Proof. intros H s. by apply H. Qed.
End unrejected.

Lemma unrejected_opWrite (ino : Z) (offset : nat) (bytes : list byte) : unrejected (opWrite ino offset bytes).
Proof.
  intros s. unfold opWrite, nextFault, bind, get. destruct (OS_crashed (FS_ops s)); simpl; [by destruct (_ <? _)|].
  destruct (OS_tape (FS_ops s)) as [|f rest]; simpl; (destruct (_ <? _); [done|]); [done|by destruct f].
Qed.

Create HintDb unrejected.
#[local] Hint Resolve unrejected_ret unrejected_modify unrejected_opWrite : unrejected.
#[local] Hint Extern 2 (unrejected (lift _)) => apply unrejected_lift; solve_plain : unrejected.
#[local] Hint Extern 2 (unrejected (throw _)) => (intros ?; reflexivity) : unrejected.
#[local] Hint Extern 2 (unrejected _) => apply unrejected_syscall; intros ?; simpl; repeat case_match; reflexivity || exact I : unrejected.

Ltac solve_unrejected :=
  repeat match goal with
  | |- unrejected (bind get _) => apply unrejected_get; intros ?
  | |- unrejected (bind _ _) => apply unrejected_bind; [|intros ?]
  | |- unrejected (onError _ _) => apply unrejected_onError
  | |- unrejected (poisoning _) => apply unrejected_poisoning
  | |- unrejected (match ?x with _ => _ end) => destruct x
  | |- unrejected (let _ := _ in _) => cbv zeta
  | |- unrejected _ => solve [auto 3 with unrejected]
  end.

Lemma unrejected_writeAll (ino : Z) (offset : nat) (bytes : list byte) : unrejected (writeAll ino offset bytes).
Proof.
  unfold writeAll. generalize (S (length bytes)) as fuel. intros fuel. revert offset bytes.
  induction fuel as [|fuel IH]; intros offset bytes; destruct bytes; simpl; solve_unrejected.
Qed.
#[local] Hint Resolve unrejected_writeAll : unrejected.

Lemma unrejected_newTemporary (prefix : string) : unrejected (newTemporaryRegularFile prefix).
Proof.
  unfold newTemporaryRegularFile. apply unrejected_bind.
  { intros s. unfold opRandom, bind, get. destruct (OS_random (FS_ops s)); [done|]. simpl. by destruct (_ =? _). }
  intros suffix. unfold validateOpenedRegularFile, validateRegularFileInfo, validateOpenedOwner. solve_unrejected.
Qed.
#[local] Hint Resolve unrejected_newTemporary : unrejected.


Lemma plain_validateLogEntry (e : Entry) : plain (validateLogEntry e).
Proof. unfold validateLogEntry. solve_plain. Qed.
#[local] Hint Resolve plain_validateLogEntry : plain.

Lemma plain_bounds (b : PersistenceBatch) : plain (validatePersistenceBatchBounds b).
Proof.
  assert (∀ es n, plain (entriesPayloadLoop n es)) as Hl.
  { intros es. induction es as [|e es IH]; intros n; simpl; solve_plain. }
  unfold validatePersistenceBatchBounds, addRecord. solve_plain.
Qed.
#[local] Hint Resolve plain_bounds : plain.

Lemma plain_encodeEntriesLoop (es : list Entry) (p : list byte) : plain (encodeEntriesLoop p es).
Proof. revert p. induction es as [|e es IH]; intros p; simpl; solve_plain. Qed.
#[local] Hint Resolve plain_encodeEntriesLoop : plain.

Lemma plain_encodeRecords (total : Z) (rs : list (Z * list byte)) : plain (encodeRecords total rs).
Proof.
  revert total. induction rs as [|[t p] rs IH]; intros total; simpl; [exact I|].
  apply plain_bind; [unfold encodeWALRecord; solve_plain|]. intros bytes. solve_plain.
Qed.
#[local] Hint Resolve plain_encodeRecords : plain.

Lemma plain_encodeWALTransaction (id : Z) (b : PersistenceBatch) : plain (encodeWALTransaction id b).
Proof. unfold encodeWALTransaction, encodeTransactionBoundaryPayload, encodeEntriesPayload. solve_plain. Qed.

Lemma plain_replacementBatch (d : RecoveredState) : plain (replacementBatchForState d).
Proof. unfold replacementBatchForState. solve_plain. Qed.
#[local] Hint Resolve plain_encodeWALTransaction plain_replacementBatch : plain.

Lemma unrejected_persistSnapshotState (snapshot : Snapshot) (d : RecoveredState) :
  unrejected (persistSnapshotStateLocked snapshot d).
Proof. unfold persistSnapshotStateLocked, installSnapshotFile, replaceWAL. solve_unrejected. Qed.
#[local] Hint Resolve unrejected_persistSnapshotState : unrejected.

Lemma stateless_openFileStage (r : InstallSnapshotRequest) : stateless (openFileStage r).
Proof. unfold openFileStage. solve_stateless. Qed.

Lemma stateless_stageFileBytes (r : InstallSnapshotRequest) (st : fileSnapshotStage) : stateless (stageFileBytes r st).
Proof. unfold stageFileBytes. solve_stateless. Qed.
#[local] Hint Resolve stateless_openFileStage stateless_stageFileBytes : stateless.

Lemma rejectsBefore_install (sha256 : list byte → list byte) (r : InstallSnapshotRequest) (st : fileSnapshotStage) (n : Z) :
  rejectsBefore (installFileStage sha256 r st n).
Proof.
  unfold installFileStage. apply rejectsBefore_get. intros s. destruct (_ <? _); [apply rejectsBefore_stateless; solve_stateless|].
  apply rejectsBefore_bind; [solve_stateless|]. intros bytes. destruct (negb _); [apply rejectsBefore_stateless; solve_stateless|].
  destruct (NewSnapshot _ _ _ _ _); try solve [apply rejectsBefore_stateless; solve_stateless].
  destruct (negb _); [apply rejectsBefore_stateless; solve_stateless|].
  destruct (installRecoveredSnapshot _ _ _ _ _); try solve [apply rejectsBefore_stateless; solve_stateless].
  apply rejectsBefore_unrejected. solve_unrejected.
Qed.

Lemma rejectsBefore_Stage (sha256 : list byte → list byte) (r : InstallSnapshotRequest) :
  rejectsBefore (FileStore_StageSnapshotChunk sha256 r).
Proof.
  unfold FileStore_StageSnapshotChunk, whileSound, whileOpen.
  do 2 (apply rejectsBefore_get; intros ?; case_match; [apply rejectsBefore_stateless; solve_stateless|]).
  apply rejectsBefore_get. intros ?. cbv zeta.
  destruct (validateSnapshotRequest _ _); try solve [apply rejectsBefore_stateless; solve_stateless].
  apply rejectsBefore_bind; [solve_stateless|]. intros st. apply rejectsBefore_bind; [solve_stateless|]. intros n.
  destruct (negb _); [apply rejectsBefore_stateless; solve_stateless|apply rejectsBefore_install].
Qed.

Lemma failsBefore_rejectsBefore {A} (m : FS A) : failsBefore m → rejectsBefore m.
Proof. intros H s. specialize (H s). by destruct ((m s).1). Qed.

Lemma rejectsBefore_mapM {A B} (f : A → B) (m : FS A) : rejectsBefore m → rejectsBefore (mapM f m).
Proof.
  intros H s. specialize (H s). unfold mapM, bind. by destruct (m s) as [[] s'].
Qed.

Lemma rejectsBefore_op (sha256 : list byte → list byte) (op : store_op) :
  rejectsBefore (@runStore _ (FileStore_StableStore sha256) op).
Proof.
  destruct op; apply rejectsBefore_mapM; simpl.
  - apply rejectsBefore_stateless. unfold FileStore_Recover, whileOpen. solve_stateless.
  - apply failsBefore_rejectsBefore, failsBefore_Persist.
  - apply rejectsBefore_Stage.
  - apply rejectsBefore_stateless. unfold FileStore_AbortSnapshotStage, whileOpen. solve_stateless.
  - apply failsBefore_rejectsBefore, failsBefore_PersistSnapshot.
  - apply rejectsBefore_stateless. unfold FileStore_RetainedWALBytes, whileOpen, openFile. solve_stateless.
  - apply rejectsBefore_stateless. unfold FileStore_Close, whileOpen. solve_stateless.
Qed.

(** ** The contract *)

Section laws.
Context (sha256 : list byte → list byte) (shuffle : list string → list string) (storageDir : string).
Context (identity : StorageIdentity) (voters : VoterSet) (maxSnapshotBytes limit : Z).
Context (sha256_length : ∀ l, length (sha256 l) = 32%nat) (Hshuffle : ∀ l, shuffle l ≡ₚ l).
Context (Hidentity : identity_values identity).
Context (Hmx : snapshotLimit maxSnapshotBytes = Ok limit) (Hlimit : 0 ≤ limit ≤ MaxRaftSnapshotBytes).
Context (Hdir : storageDir ≠ ""%string) (Hroot : cleansToRoot storageDir = false).

Abbreviation open o := (openFileStoreWithOptions sha256 shuffle storageDir identity voters maxSnapshotBytes o).
Abbreviation live := (live sha256 identity voters limit).
Abbreviation halted := (halted sha256 identity voters limit).
Abbreviation effect := (store_effect sha256 identity voters limit).
Abbreviation recoverable := (recoverable sha256 identity voters limit).
Abbreviation wf := (recovered_wf sha256 identity voters MaxRaftSnapshotBytes).

(** [x] is the state [d], or that of an operation on it. *)
Definition reach (d x : RecoveredState) : Prop := x = d ∨ ∃ op, node_op d op ∧ effect d op x.

(** A well-formed state has an identity that may start empty. *)
Lemma wf_empty (d : RecoveredState) : wf d → ValidateRecoveredState sha256 (emptyState identity) identity voters = Ok tt.
Proof.
  intros [_ Hf Hc Hv Hl _ _ _ _ _]. apply valid_wf; [simpl; ulia|]. split; simpl; try done.
Qed.

Definition file_ok (s : FileStore) : Prop :=
  wf (FS_state s) ∧ (live s (FS_state s) ∨ ∃ D, halted (FS_state s) D s ∧ ∀ x, D x → reach (FS_state s) x).

(** What the disk of a store becomes when its process ends, the power fails, and
    openings are interrupted. *)
Inductive left_by (s : FileStore) : disk → Prop :=
| left_loss dk : after_loss (theDisk s) dk → left_by s dk
| left_again o e s1 dk :
    left_by s (OS_disk o) → open o = (Err e, s1) → after_loss (theDisk s1) dk → left_by s dk.

Definition power_cycle (s s' : FileStore) : Prop := ∃ o, left_by s (OS_disk o) ∧ open o = (Ok tt, s').

Lemma file_ok_recoverable (s : FileStore) : file_ok s → recoverable (theDisk s) (reach (FS_state s)).
Proof.
  intros [Hwf [Hl|(D & [_ Hb] & HD)]].
  - apply (recoverable_mono _ _ _ _ _ (λ x, x = FS_state s)); [by left|]. apply live_recoverable; [done| |done].
    by apply (wf_empty (FS_state s)).
  - apply (recoverable_mono _ _ _ _ _ D); [done|]. apply Hb.
Qed.

Lemma left_recoverable (s : FileStore) (dk : disk) :
  file_ok s → left_by s dk → recoverable dk (reach (FS_state s)) ∧ D_locked dk = false.
Proof.
  intros Hs. induction 1 as [dk Hloss|o e s1 dk _ [Hr Hl] Hopen Hloss].
  - split; [|apply Hloss]. eapply loss_recoverable; [done|]. by apply file_ok_recoverable.
  - split; [|apply Hloss]. eapply loss_recoverable; [done|].
    pose proof (open_law sha256 identity voters limit Hlimit (wf_empty _ (proj1 Hs)) Hidentity shuffle Hshuffle False _ storageDir
      maxSnapshotBytes o Hmx Hdir Hroot Hr Hl (False_ind _)) as H. rewrite Hopen in H. by destruct H.
Qed.

Lemma live_wf (s : FileStore) (d : RecoveredState) : live s d → wf d ∧ FS_state s = d.
Proof.
  intros [_ _ _ Hst (i & iw & isn & so & content & w & last & _ & _ & _ & _ & Hd & _) _].
  split; [|done]. apply (wf_of_limit _ _ _ _ Hlimit). by eapply seen_wf.
Qed.

Lemma live_ok (s : FileStore) (d : RecoveredState) : live s d → file_ok s.
Proof. intros Hl. destruct (live_wf s d Hl) as [Hwf Hst]. split; [|left]; by rewrite Hst. Qed.

Lemma power_cycle_law (s s' : FileStore) :
  file_ok s → power_cycle s s' → live s' (FS_state s') ∧ reach (FS_state s) (FS_state s').
Proof.
  intros Hs (o & Hleft & Hopen). destruct (left_recoverable _ _ Hs Hleft) as [Hr Hl].
  pose proof (open_law sha256 identity voters limit Hlimit (wf_empty _ (proj1 Hs)) Hidentity shuffle Hshuffle False _ storageDir
    maxSnapshotBytes o Hmx Hdir Hroot Hr Hl (False_ind _)) as H. rewrite Hopen in H. destruct H as (d & HD & Hlive).
  destruct (live_wf _ _ Hlive) as [_ ->]. done.
Qed.

Lemma halted_ok (d : RecoveredState) (D : RecoveredState → Prop) (s : FileStore) :
  wf d → halted d D s → (∀ x, D x → reach d x) → file_ok s ∧ FS_snapshotLimit s = limit.
Proof.
  intros Hwf [Hst Hb] HD. split; [|apply Hb]. rewrite <- Hst in *. split; [done|]. right. by exists D.
Qed.

Lemma live_law (op : store_op) (s : FileStore) :
  live s (FS_state s) → wf (FS_state s) → node_op (FS_state s) op →
  let r := @runStore _ (FileStore_StableStore sha256) op s in
  file_ok r.2 ∧ FS_snapshotLimit r.2 = limit ∧ store_spec sha256 identity voters limit (FS_state s) op r.1 (FS_state r.2).
Proof.
  intros Hl Hwf Hop r. set (d := FS_state s) in *. pose proof (rejectsBefore_op sha256 op s) as Hrej. fold r in Hrej.
  pose proof (live_op sha256 identity voters limit Hlimit (wf_empty _ Hwf) sha256_length (proj2 (proj2 Hidentity)) False s d op Hl Hop
    (False_ind _)) as H. fold r in H. destruct r as [[res|e| |] s']; simpl in *; [| |done..]; destruct H as [_ H].
  - destruct H as (d' & Hspec & [[_ Hl']|[-> Hh]]).
    + destruct (live_wf _ _ Hl') as [_ ->]. split_and!; [by eapply live_ok|apply Hl'|done].
    + assert (d' = d) as ->. { simpl in Hspec. by destruct res. }
      destruct (halted_ok d _ s' Hwf Hh) as [? ?]; [by left|]. destruct Hh as [-> _]. done.
  - destruct H as [Hl'|[Hh|(d' & He & Hh)]].
    + destruct (live_wf _ _ Hl') as [_ ->]. split_and!; [by eapply live_ok|apply Hl'|by left].
    + destruct (halted_ok d _ s' Hwf Hh) as [? ?]; [intros x [->|?]; [by left|right; eauto]|].
      destruct Hh as [-> _]. split_and!; [done|done|by left].
    + destruct (store_effect_safe _ _ _ _ _ _ _ (proj2 Hlimit) Hwf (proj1 Hop) He) as [Hwf' _].
      destruct (halted_ok d' _ s' Hwf' Hh) as [? ?]; [by left|]. destruct Hh as [Hst _]. split_and!; [done|done|].
      destruct (rejected e) eqn:Hr; [left; auto|]. right. by rewrite Hst.
Qed.

Lemma halted_law (op : store_op) (s : FileStore) (D : RecoveredState → Prop) :
  halted (FS_state s) D s → wf (FS_state s) → (∀ x, D x → reach (FS_state s) x) → op ≠ SRecover →
  let r := @runStore _ (FileStore_StableStore sha256) op s in
  file_ok r.2 ∧ FS_snapshotLimit r.2 = limit ∧ store_spec sha256 identity voters limit (FS_state s) op r.1 (FS_state r.2).
Proof.
  intros Hh Hwf HD Hop r. pose proof (broken_op sha256 identity voters limit Hlimit False s (FS_state s) D op Hh (False_ind _)) as H.
  fold r in H. destruct r as [[res|e| |] s']; simpl in *; [| |done..]; destruct H as [_ H].
  - destruct H as (Hh' & _ & Hspec). destruct (halted_ok _ _ s' Hwf Hh' HD) as [? ?]. destruct Hh' as [-> _].
    destruct Hspec as [|Hspec]; [done|]. split_and!; [done|done|apply Hspec].
  - destruct (halted_ok _ _ s' Hwf H HD) as [? ?]. destruct H as [-> _]. split_and!; [done|done|by left].
Qed.

#[global] Instance FileStore_laws : @StoreLaws sha256 identity voters FileStore (FileStore_StableStore sha256).
Proof.
  refine {| durable := FS_state; store_ok := λ s, file_ok s ∧ FS_snapshotLimit s = limit;
    store_live := λ s, live s (FS_state s); reopens := power_cycle |}.
  - by intros s [[Hwf _] _].
  - intros s [_ Hl]. simpl. lia.
  - intros op s [[Hwf Hs] Hl] Hop Hrec. simpl. rewrite Hl.
    match goal with |- ?P ∧ ?Q => assert (file_ok (@runStore _ (FileStore_StableStore sha256) op s).2 ∧ Q) as (Hok & Hl' & Hspec); [|by split_and!] end.
    destruct Hs as [Hs|(D & Hh & HD)]; [by apply live_law|].
    apply (halted_law op s D); try done. intros ->. specialize (Hrec eq_refl).
    destruct Hh as [_ [_ Hb _]], Hrec as [_ Hc Hp _ _ _]. destruct Hb; congruence.
  - intros s s' [Hs Hl] Hc. destruct (power_cycle_law s s' Hs Hc) as [Hl' Hr]. simpl. rewrite Hl.
    split_and!; [by eapply live_ok|apply Hl'|done|exact Hr].
Defined.
End laws.
End RaftFileStoreLaws.
