(* ===== verification/RaftNode.v ===== *)
(** * The node: the serialized owner of one core

    [node.go] and [node_durability.go]: recovery, the loop that turns a batch of
    the core into persistence, peer messages, application and replies, the local
    request and leadership APIs, and the event handlers of [Run].

    The store, the application, the transport and the source of transfer
    identities are interfaces; a node is parameterised by their implementations.
    Goroutines other than the owner appear as separate steps: an API call places
    an event in the queue, and a finished capture places its result there. *)

From S2P Require Import Prelude RaftTypes RaftLog RaftVoters RaftCodec RaftCore RaftSnapshot RaftStorage.

Module RaftNode.
Import RaftLog RaftVoters RaftCodec RaftCore RaftSnapshot RaftStorage.

(** ** Interfaces *)

(** An application capture: the schema before and after the encoding, and the
    encoded bytes. *)
Record SnapshotCapture := mkCapture {
  SC_SchemaVersion : Z;
  SC_SchemaAfter : Z;
  SC_MarshalBinary : outcome error (list byte)
}.

Class StateMachine (A : Type) := {
  Apply : Z → Z → list byte → M A error (list byte);
  Capture : Z → Z → M A error (option SnapshotCapture);
  Restore : Z → list byte → M A error unit
}.

Abbreviation TransportHandoff := Z (only parsing).
Definition TransportAccepted : TransportHandoff := 1.
Definition TransportUnavailable : TransportHandoff := 2.

Class Transport (T : Type) := { Handoff : PeerMessage → M T error TransportHandoff }.

Class TransferIDSource (I : Type) := { NextTransferID : Z → M I error TransferID }.

(** ** Data *)

Definition MaxPendingLocalRequests : Z := 1024.
Definition MaxNodeEventQueue : Z := 1024.
Definition MinLeadershipSubscriptionCapacity : Z := 1.
Definition MaxLeadershipSubscriptionCapacity : Z := 1024.

Inductive lifecycle := nodeLifecycleNew | nodeLifecycleStarting | nodeLifecycleRunning | nodeLifecycleStopped.

#[global] Instance lifecycle_eq_decision : EqDecision lifecycle.
Proof. solve_decision. Defined.

(** The configuration values of [NodeOptions]; durations are nanoseconds. *)
Record NodeOptions := mkNodeOptions {
  NO_LocalID : Z;
  NO_Voters : VoterSet;
  NO_Identity : StorageIdentity;
  NO_Random : option (list Z);
  NO_ElectionTimeoutMin : Z;
  NO_ElectionTimeoutMax : Z;
  NO_HeartbeatInterval : Z;
  NO_MaxAppendEntries : Z;
  NO_MaxAppendBytes : Z;
  NO_SnapshotEntryThreshold : Z;
  NO_SnapshotByteThreshold : Z;
  NO_MaxSnapshotBytes : Z;
  NO_MaxSnapshotChunkBytes : Z
}.

#[global] Instance NodeOptions_settable : Settable NodeOptions :=
  λ r, mkNodeOptions (NO_LocalID r) (NO_Voters r) (NO_Identity r) (NO_Random r) (NO_ElectionTimeoutMin r)
    (NO_ElectionTimeoutMax r) (NO_HeartbeatInterval r) (NO_MaxAppendEntries r) (NO_MaxAppendBytes r)
    (NO_SnapshotEntryThreshold r) (NO_SnapshotByteThreshold r) (NO_MaxSnapshotBytes r)
    (NO_MaxSnapshotChunkBytes r).

Record ProposalResult := mkProposalResult {
  PR_Index : Z;
  PR_Term : Z;
  PR_Result : list byte
}.

(** A reply to a local request; [leader] is the hint of a [NotLeaderError]. *)
Inductive localRequestResponse :=
| LocalResult (result : ProposalResult)
| LocalError (err : error) (leader : Z).

Record pendingLocalRequest := mkPendingLocal {
  PL_entry : Entry;
  PL_response : Z
}.

Record LeadershipEvent := mkLeadershipEvent {
  LE_Sequence : Z;
  LE_Term : Z;
  LE_Role : Role;
  LE_LeaderID : Z;
  LE_LocalID : Z
}.

#[global] Instance LeadershipEvent_settable : Settable LeadershipEvent :=
  λ r, mkLeadershipEvent (LE_Sequence r) (LE_Term r) (LE_Role r) (LE_LeaderID r) (LE_LocalID r).

(** A subscription: its snapshot, the events its reader has taken, and the
    buffered ones. *)
Record leadershipSubscriber := mkSubscriber {
  LS_capacity : Z;
  LS_snapshot : LeadershipEvent;
  LS_received : list LeadershipEvent;
  LS_events : list LeadershipEvent;
  LS_err : option error
}.

#[global] Instance leadershipSubscriber_settable : Settable leadershipSubscriber :=
  λ r, mkSubscriber (LS_capacity r) (LS_snapshot r) (LS_received r) (LS_events r) (LS_err r).

Record snapshotCaptureResult := mkCaptureResult {
  SCR_result : outcome error Snapshot
}.

(** The events of the owner queue; [response] names the reply channel. *)
Inductive queuedEvent :=
| inboundRPCEvent (response : Z) (senderID : Z) (rpc : interfaceRPC)
| localRequestEvent (response : Z) (kind : EntryKind) (command : list byte)
| leadershipRequestEvent (response : Z) (capacity : Z)
| leadershipCancelEvent (id : Z) (err : option error)
| captureResultEvent (result : snapshotCaptureResult).

(** A value sent on a reply channel. *)
Inductive reply :=
| ReplyRPC (response : Z) (err : option error)
| ReplyLocal (response : Z) (r : localRequestResponse)
| ReplySubscription (response : Z) (r : outcome error Z).

Record Node {S A T I : Type} := mkNode {
  N_options : NodeOptions;
  N_store : S;
  N_app : A;
  N_transport : T;
  N_ids : I;
  N_lifecycle : lifecycle;
  N_status : Status;
  N_events : list queuedEvent;
  N_core : option Core;
  N_timer : option Z;
  N_epoch : Z;
  N_durableState : RecoveredState;
  N_pendingReservations : Z;
  N_pendingLocal : gmap Z pendingLocalRequest;
  N_subscribers : gmap Z leadershipSubscriber;
  N_ended : gmap Z leadershipSubscriber;
  N_nextSubscriberID : Z;
  N_leadership : option LeadershipEvent;
  N_captureInFlight : bool;
  N_capture : option (SnapshotMetadata * SnapshotCapture);
  N_replies : list reply;
  (** The number of further reads of [ctx.Err()] before the context is cancelled. *)
  N_cancelAfter : option nat;
  (** The messages given to the transport, a record of the model. *)
  N_handed : list PeerMessage
}.
Arguments Node : clear implicits.
Arguments mkNode {S A T I}.

#[global] Instance Node_settable {S A T I} : Settable (Node S A T I) :=
  λ n, mkNode (N_options n) (N_store n) (N_app n) (N_transport n) (N_ids n) (N_lifecycle n)
    (N_status n) (N_events n) (N_core n) (N_timer n) (N_epoch n) (N_durableState n)
    (N_pendingReservations n) (N_pendingLocal n) (N_subscribers n) (N_ended n) (N_nextSubscriberID n)
    (N_leadership n) (N_captureInFlight n) (N_capture n) (N_replies n) (N_cancelAfter n) (N_handed n).

(** ** Pure checks of a batch *)

Definition persistenceBatchForReady (ready : Ready) : PersistenceBatch :=
  let batch := PersistenceBatch_zero <| PB_HardState := Ready_HardState ready |> in
  match Ready_Entries ready with
  | [] => batch
  | first :: _ => batch <| PB_ReplaceFrom := Entry_Index first |> <| PB_Entries := Ready_Entries ready |>
  end.

Definition persistenceBatchHasEffects (batch : PersistenceBatch) : bool :=
  isSome (PB_HardState batch) || negb (PB_ReplaceFrom batch =? 0) || isSome (PB_SnapshotBase batch) ||
  isSome (PB_AppliedIndex batch).

Fixpoint validateUnstable (previous : option Entry) (es : list Entry) : outcome error unit :=
  match es with
  | [] => Ok tt
  | entry :: rest =>
    let? _ := validateLogEntry entry in
    let? _ := match previous with
              | None => Ok tt
              | Some p => match checkedNextIndex (Entry_Index p) with
                          | Some expected => if Entry_Index entry =? expected then Ok tt else Err ErrLogGap
                          | None => Err ErrLogGap
                          end
              end in
    validateUnstable (Some entry) rest
  end.

Definition validateReadyMessage (options : NodeOptions) (ready : Ready) (message : PeerMessage) :
    outcome error unit :=
  if negb (Contains (NO_Voters options) (PM_To message)) || (PM_To message =? NO_LocalID options)
  then Err ErrTransportInvariant
  else if DP_HardState (PM_Requires message) && negb (isSome (Ready_HardState ready))
  then Err ErrInvalidCoreState
  else if negb (DP_EntriesThrough (PM_Requires message) =? 0) &&
          negb (existsb (λ entry, Entry_Index entry =? DP_EntriesThrough (PM_Requires message))
                  (Ready_Entries ready))
  then Err ErrInvalidCoreState
  else Ok tt.

Definition validateReadyAction (options : NodeOptions) (action : SnapshotAction) : outcome error unit :=
  let leader := ISReq_LeaderID (SA_Request action) in
  if (leader =? NO_LocalID options) || negb (Contains (NO_Voters options) leader)
  then Err ErrInvalidCoreState
  else validateSnapshotRequest (SA_Request action)
         (DefaultCodecLimits <| MaxSnapshotBytes := NO_MaxSnapshotBytes options |>).

(** [for _, x := range l { if err := f(x); err != nil { return err } }] *)
Fixpoint forAll {A} (f : A → outcome error unit) (l : list A) : outcome error unit :=
  match l with
  | [] => Ok tt
  | x :: rest => let? _ := f x in forAll f rest
  end.

(** The loop over the committed entries; [expected] is the zero value after an
    overflow. *)
Fixpoint validateCommitted (final : option Entry) (expected : Z) (es : list Entry) : outcome error unit :=
  match es with
  | [] => Ok tt
  | entry :: rest =>
    let? _ := validateLogEntry entry in
    if negb (Entry_Index entry =? expected) then Err ErrLogInvariant
    else match checkedNextIndex expected with
         | Some next => validateCommitted final next rest
         | None =>
           if match final with Some e => negb (Entry_Index entry =? Entry_Index e) | None => true end
           then Err ErrLogOverflow
           else validateCommitted final 0 rest
         end
  end.

Section checks.
Context (pendingLocal : gmap Z pendingLocalRequest).

(** Whether a proposal has its exact local waiter. *)
Definition hasWaiter (id : ProposalID) (entry : Entry) : bool :=
  match pendingLocal !! id with Some pending => sameEntry (PL_entry pending) entry | None => false end.

Fixpoint validateCommittedProposals (committed : list Entry) (seen : gset Z) (ps : list CommittedProposal) :
    outcome error (gset Z) :=
  match ps with
  | [] => Ok seen
  | proposal :: rest =>
    if CP_ID proposal =? 0 then Err ErrInvalidCoreState
    else if bool_decide (CP_ID proposal ∈ seen) then Err ErrInvalidCoreState
    else if negb (hasWaiter (CP_ID proposal) (CP_Entry proposal)) then Err ErrInvalidCoreState
    else if negb (existsb (sameEntry (CP_Entry proposal)) committed) then Err ErrInvalidCoreState
    else validateCommittedProposals committed ({[CP_ID proposal]} ∪ seen) rest
  end.

Fixpoint validateFailedProposals (seen : gset Z) (ps : list FailedProposal) : outcome error unit :=
  match ps with
  | [] => Ok tt
  | proposal :: rest =>
    if FP_ID proposal =? 0 then Err ErrInvalidCoreState
    else if bool_decide (FP_ID proposal ∈ seen) then Err ErrInvalidCoreState
    else if negb (hasWaiter (FP_ID proposal) (FP_Entry proposal)) then Err ErrInvalidCoreState
    else validateFailedProposals ({[FP_ID proposal]} ∪ seen) rest
  end.

Definition validateReadyStructure (options : NodeOptions) (core : Core) (ready : Ready) :
    outcome error unit :=
  if Ready_Token ready =? 0 then Err ErrAdvanceToken
  else
    let? _ := validateUnstable None (Ready_Entries ready) in
    let? _ := forAll (validateReadyMessage options ready) (Ready_Messages ready) in
    if 1 <? len (Ready_SnapshotActions ready) then Err ErrInvalidCoreState
    else
      let? _ := forAll (validateReadyAction options) (Ready_SnapshotActions ready) in
      let committed := Ready_CommittedEntries ready in
      let expected := checkedNextIndex (Status_AppliedIndex (Core_Status core)) in
      if negb (isSome expected) && negb (len committed =? 0) then Err ErrLogOverflow
      else
        let? _ := validateCommitted (last committed) (default 0 expected) committed in
        let? seen := validateCommittedProposals committed ∅ (Ready_CommittedProposals ready) in
        validateFailedProposals seen (Ready_FailedProposals ready).
End checks.

Definition sameEntries (l k : list Entry) : bool :=
  (length l =? length k)%nat && forallb (λ p, sameEntry p.1 p.2) (zip l k).

Definition validateProspectiveCoreState (core : Core) (prospective : RecoveredState) : outcome error unit :=
  if negb (bool_decide (RS_HardState prospective = hardState core)) then Err ErrInvalidCoreState
  else
    let state := State (log core) in
    if negb (LastIncludedIndex (RS_SnapshotBase prospective) =? LS_SnapshotIndex state) ||
       negb (LastIncludedTerm (RS_SnapshotBase prospective) =? LS_SnapshotTerm state)
    then Err ErrInvalidCoreState
    else if negb (sameEntries (RS_Entries prospective) (LS_Entries state)) then Err ErrInvalidCoreState
    else Ok tt.

(** ** Durability of messages *)

(** The requirements found so far: the hard state, and the entries through an index. *)
Record requirements := mkRequirements {
  RQ_HardState : bool;
  RQ_EntriesThrough : Z
}.

#[global] Instance requirements_settable : Settable requirements :=
  λ r, mkRequirements (RQ_HardState r) (RQ_EntriesThrough r).

Section durability.
Context (core : Core) (current prospective : RecoveredState).

Definition needHardState (needed : bool) (r : requirements) : requirements :=
  if needed then r <| RQ_HardState := true |> else r.
Definition needEntry (needed : bool) (index : Z) (r : requirements) : requirements :=
  if needed && (RQ_EntriesThrough r <? index) then r <| RQ_EntriesThrough := index |> else r.

Definition requireTerm (term : Z) (r : requirements) : outcome error requirements :=
  if HardState_Term (RS_HardState prospective) <? term then Err ErrInvalidCoreState
  else Ok (needHardState (HardState_Term (RS_HardState current) <? term) r).

Definition requireCommit (commit : Z) (r : requirements) : outcome error requirements :=
  if HardState_CommitIndex (RS_HardState prospective) <? commit then Err ErrInvalidCoreState
  else Ok (needHardState (HardState_CommitIndex (RS_HardState current) <? commit) r).

Definition requireVote (term voter : Z) (r : requirements) : outcome error requirements :=
  if negb (HardState_Term (RS_HardState prospective) =? term) ||
     negb (HardState_VotedFor (RS_HardState prospective) =? voter)
  then Err ErrInvalidCoreState
  else Ok (needHardState (negb (HardState_Term (RS_HardState current) =? term) ||
                          negb (HardState_VotedFor (RS_HardState current) =? voter)) r).

(** Whether a recovered state holds exactly [entry] at its index. *)
Definition holdsEntry (state : RecoveredState) (entry : Entry) (index : Z) : bool :=
  match recoveredEntryAt state index with Some e => sameEntry e entry | None => false end.

Definition requireCorePosition (index : Z) (r : requirements) : outcome error requirements :=
  if index =? 0 then Ok r
  else
    let? coreTerm := asInvalidCore (Log_Term (log core) index) in
    let? prospectiveTerm := asInvalidCore (recoveredTermAt prospective index) in
    if negb (prospectiveTerm =? coreTerm) then Err ErrInvalidCoreState
    else if index =? snapshotIndex (log core) then Ok r
    else
      let? coreEntry := asInvalidCore (Log_Entry (log core) index) in
      if negb (holdsEntry prospective coreEntry index) then Err ErrInvalidCoreState
      else Ok (needEntry (negb (holdsEntry current coreEntry index)) index r).

Definition requireRPCEntry (entry : Entry) (r : requirements) : outcome error requirements :=
  let index := Entry_Index entry in
  if negb (holdsEntry prospective entry index) then Err ErrInvalidCoreState
  else Ok (needEntry (negb (holdsEntry current entry index)) index r).

Fixpoint requireRPCEntries (es : list Entry) (r : requirements) : outcome error requirements :=
  match es with
  | [] => Ok r
  | entry :: rest => let? r := requireRPCEntry entry r in requireRPCEntries rest r
  end.

Definition requireSnapshotChunk (rpc : InstallSnapshotRequest) : outcome error unit :=
  let metadata := STM_metadata (snapshotTransferMetadataFor rpc) in
  match RS_Snapshot prospective with
  | None => Err ErrInvalidCoreState
  | Some snapshot =>
    if negb (bool_decide (Snapshot_ID snapshot = ISReq_SnapshotID rpc)) ||
       negb (bool_decide (Snapshot_Metadata snapshot = metadata)) ||
       negb (bool_decide (Snapshot_StateChecksum snapshot = ISReq_Checksum rpc))
    then Err ErrInvalidCoreState
    else
      let state := Snapshot_state snapshot in
      let end_ := wrap64 (ISReq_Offset rpc + len (ISReq_Chunk rpc)) in
      if negb (ISReq_TotalLength rpc =? len state) || (len state <? end_) then Err ErrInvalidCoreState
      else if end_ <? ISReq_Offset rpc then Panic
      else if negb (bool_decide (ISReq_Chunk rpc =
                sub (Z.to_nat (ISReq_Offset rpc)) (Z.to_nat end_) state))
      then Err ErrInvalidCoreState
      else Ok tt
  end.

(** The [switch] over the message types. *)
Definition requiredBy (rpc : RPC) (r : requirements) : outcome error requirements :=
  match rpc with
  | RPC_PreVoteRequest m => requireTerm (PVReq_CurrentTerm m) r
  | RPC_PreVoteResponse m => requireTerm (PVResp_Term m) r
  | RPC_RequestVoteRequest m => requireVote (RVReq_Term m) (RVReq_CandidateID m) r
  | RPC_RequestVoteResponse m =>
    let? r := requireTerm (RVResp_Term m) r in
    if RVResp_Granted m then requireVote (RVResp_Term m) (RVResp_CandidateID m) r else Ok r
  | RPC_AppendEntriesRequest m =>
    let? r := requireTerm (AEReq_Term m) r in
    let? r := requireCommit (AEReq_LeaderCommit m) r in
    let? r :=
      if AEReq_PrevLogIndex m =? 0 then Ok r
      else
        let? term := asInvalidCore (recoveredTermAt prospective (AEReq_PrevLogIndex m)) in
        if negb (term =? AEReq_PrevLogTerm m) then Err ErrInvalidCoreState
        else if LastIncludedIndex (RS_SnapshotBase prospective) <? AEReq_PrevLogIndex m
        then requireCorePosition (AEReq_PrevLogIndex m) r
        else Ok r in
    requireRPCEntries (AEReq_Entries m) r
  | RPC_AppendEntriesResponse m =>
    let? r := requireTerm (AEResp_Term m) r in
    if AEResp_Success m then
      let? r := requireCommit (HardState_CommitIndex (hardState core)) r in
      requireCorePosition (AEResp_MatchIndex m) r
    else Ok r
  | RPC_InstallSnapshotRequest m =>
    let? r := requireTerm (ISReq_Term m) r in
    let? _ := requireSnapshotChunk m in
    Ok r
  | RPC_InstallSnapshotResponse m => requireTerm (ISResp_Term m) r
  | RPC_Handshake _ | RPC_HandshakeAck _ | RPC_ErrorResponse _ => Ok r
  end.

Definition validateMessageDurability (message : PeerMessage) : outcome error unit :=
  let? r := requiredBy (PM_RPC message) (mkRequirements false 0) in
  if negb (Bool.eqb (DP_HardState (PM_Requires message)) (RQ_HardState r)) then Err ErrInvalidCoreState
  else if negb (DP_EntriesThrough (PM_Requires message) =? RQ_EntriesThrough r) then Err ErrInvalidCoreState
  else Ok tt.
End durability.

(** [errors.Is] of the classes that end the node. *)
Definition fatalCoreError (e : error) : bool :=
  existsb (error_is e) [ErrCommittedConflict; ErrLogInvariant; ErrLogOverflow; ErrTermOverflow;
    ErrDeadlineOverflow; ErrReplicationGenerationOverflow; ErrReadyTokenExhausted; ErrInvalidCoreState].

Section node.
Context {S A T I : Type} (sha256 : list byte → list byte).
Context `{!StableStore S} `{!StateMachine A} `{!Transport T} `{!TransferIDSource I}.
Abbreviation NodeT := (Node S A T I).
Abbreviation NodeM R := (M NodeT error R).

(** ** Access to the parts *)

Definition onStore {R} (m : M S error R) : NodeM R := zoom N_store (λ s n, n <| N_store := s |>) m.
Definition onApp {R} (m : M A error R) : NodeM R := zoom N_app (λ a n, n <| N_app := a |>) m.
Definition onTransport {R} (m : M T error R) : NodeM R :=
  zoom N_transport (λ t n, n <| N_transport := t |>) m.
Definition onIDs {R} (m : M I error R) : NodeM R := zoom N_ids (λ i n, n <| N_ids := i |>) m.

(** [node.core]; a nil dereference panics. *)
Definition theCore : NodeM Core :=
  let! n := get in
  match N_core n with Some c => ret c | None => panic end.
Definition onCore {R} (m : M Core error R) : NodeM R := λ n,
  match N_core n with
  | None => (Panic, n)
  | Some c => let (o, c') := m c in (o, n <| N_core := Some c' |>)
  end.

(** [ctx.Err() != nil] of the context of [Run]. *)
Definition ctxDone : NodeM bool :=
  let! n := get in
  match N_cancelAfter n with
  | None => ret false
  | Some O => ret true
  | Some (Datatypes.S k) => put (n <| N_cancelAfter := Some k |>) ;;! ret false
  end.

Definition sendReply (r : reply) : NodeM unit := modify (λ n, n <| N_replies ::= (λ l, l ++ [r]) |>).

Definition releaseLocalReservation : NodeM unit :=
  modify (λ n, n <| N_pendingReservations ::= (λ k, k - 1) |>) ;;!
  let! n := get in
  if N_pendingReservations n <? 0 then panic else ret tt.

(** ** Effects of one batch *)

Definition validateReadyAndDerive (ready : Ready) : NodeM (PersistenceBatch * RecoveredState) :=
  let! n := get in
  let! core := theCore in
  let o := N_options n in
  lift (validateReadyStructure (N_pendingLocal n) o core ready) ;;!
  let batch := persistenceBatchForReady ready in
  let! prospective :=
    if persistenceBatchHasEffects batch
    then lift (asInvalidCore (applyPersistenceBatch sha256 (N_durableState n) batch (NO_Identity o) (NO_Voters o)))
    else ret (N_durableState n) in
  lift (validateProspectiveCoreState core prospective) ;;!
  lift (forAll (validateMessageDurability core (N_durableState n) prospective) (Ready_Messages ready)) ;;!
  ret (batch, prospective).

Definition handoffPeerMessage (message : PeerMessage) : NodeM unit :=
  modify (λ n, n <| N_handed ::= (λ l, l ++ [message]) |>) ;;!
  let! result := onTransport (Handoff message) in
  if negb (result =? TransportAccepted) && negb (result =? TransportUnavailable)
  then throw ErrTransportInvariant
  else ret tt.

Fixpoint replayEntries (commitIndex : Z) (es : list Entry) : NodeM unit :=
  match es with
  | [] => ret tt
  | entry :: rest =>
    if commitIndex <? Entry_Index entry then ret tt
    else if Entry_Kind entry =? EntryNoOp then replayEntries commitIndex rest
    else
      onApp (Apply (Entry_Index entry) (Entry_Term entry) (Entry_command entry)) ;;!
      replayEntries commitIndex rest
  end.

Definition replayRecovered (recovered : RecoveredState) : NodeM unit :=
  replayEntries (HardState_CommitIndex (RS_HardState recovered)) (RS_Entries recovered).

(** A snapshot stage error that means the request was refused. *)
Definition catchRejected {R} (m : NodeM R) : NodeM (option R) := λ n,
  match m n with
  | (Ok r, n') => (Ok (Some r), n')
  | (Err e, n') => if error_is e ErrSnapshotRejected then (Ok None, n') else (Err e, n')
  | (Panic, n') => (Panic, n')
  | (Blocked, n') => (Blocked, n')
  end.

Definition rejectedResult : SnapshotActionResult :=
  mkSnapshotActionResult 0 false
    (mkRecoveredState (mkStorageIdentity 0 (zero_bytes 16) 0 (zero_bytes 32)) (mkHardState 0 0 0)
       (mkSnapshotMetadata 0 0 0) None 0 []) true.

Definition executeSnapshotAction (token : ReadyToken) (action : SnapshotAction) : NodeM PeerMessage :=
  (if SA_Reset action then onStore AbortSnapshotStage else ret tt) ;;!
  if bool_decide (SA_Kind action = SnapshotActionAbort) then
    onStore AbortSnapshotStage ;;!
    onCore (CompleteSnapshotAction token rejectedResult)
  else
    let! staged := catchRejected (onStore (StageSnapshotChunk (SA_Request action))) in
    match staged with
    | None => onCore (CompleteSnapshotAction token rejectedResult)
    | Some staged =>
      let! n := get in
      let o := N_options n in
      let result := mkSnapshotActionResult (SSR_NextOffset staged) (SSR_Done staged)
                      (SAR_State rejectedResult) false in
      if SSR_Done staged then
        let installed := SSR_State staged in
        match RS_Snapshot installed with
        | None => throw ErrInvalidCoreState
        | Some snapshot =>
          lift (asInvalidCore (validateRecoveredStateWithSnapshotLimit sha256 installed (NO_Identity o)
                                 (NO_Voters o) (NO_MaxSnapshotBytes o))) ;;!
          onApp (Restore (StateMachineSchemaVersion (Snapshot_Metadata snapshot)) (Snapshot_state snapshot)) ;;!
          replayRecovered installed ;;!
          let coreState := installed <| RS_AppliedIndex := HardState_CommitIndex (RS_HardState installed) |> in
          modify (λ n, n <| N_durableState := installed |>) ;;!
          onCore (CompleteSnapshotAction token
                    (mkSnapshotActionResult (SSR_NextOffset staged) true coreState false))
        end
      else onCore (CompleteSnapshotAction token result)
    end.

(** Apply the committed entries; the results by index. *)
Fixpoint applyCommitted (applied : gmap Z ProposalResult) (es : list Entry) :
    NodeM (gmap Z ProposalResult) :=
  match es with
  | [] => ret applied
  | entry :: rest =>
    let! result :=
      if Entry_Kind entry =? EntryCommand
      then onApp (Apply (Entry_Index entry) (Entry_Term entry) (Entry_command entry))
      else ret [] in
    applyCommitted (<[Entry_Index entry := mkProposalResult (Entry_Index entry) (Entry_Term entry) result]> applied)
      rest
  end.

Definition completeProposal (applied : gmap Z ProposalResult) (committed : CommittedProposal) : NodeM unit :=
  let! n := get in
  match N_pendingLocal n !! CP_ID committed with
  | None => throw ErrInvalidCoreState
  | Some pending =>
    if negb (sameEntry (PL_entry pending) (CP_Entry committed)) then throw ErrInvalidCoreState
    else match applied !! Entry_Index (CP_Entry committed) with
         | None => throw ErrInvalidCoreState
         | Some result =>
           if negb (PR_Term result =? Entry_Term (CP_Entry committed)) then throw ErrInvalidCoreState
           else
             sendReply (ReplyLocal (PL_response pending) (LocalResult result)) ;;!
             modify (λ n, n <| N_pendingLocal ::= delete (CP_ID committed) |>) ;;!
             releaseLocalReservation
         end
  end.

Definition failProposal (failed : FailedProposal) : NodeM unit :=
  let! n := get in
  match N_pendingLocal n !! FP_ID failed with
  | None => throw ErrInvalidCoreState
  | Some pending =>
    if negb (sameEntry (PL_entry pending) (FP_Entry failed)) then throw ErrInvalidCoreState
    else
      sendReply (ReplyLocal (PL_response pending) (LocalError (FP_Err failed) 0)) ;;!
      modify (λ n, n <| N_pendingLocal ::= delete (FP_ID failed) |>) ;;!
      releaseLocalReservation
  end.

(** One batch: persist, snapshot actions, messages, application, replies, and
    [Advance]. *)
Definition processReady (ready : Ready) : NodeM unit :=
  let! (batch, prospectiveDurable) := validateReadyAndDerive ready in
  (if persistenceBatchHasEffects batch then
     onStore (Persist batch) ;;!
     modify (λ n, n <| N_durableState := prospectiveDurable |>)
   else ret tt) ;;!
  forEach (Ready_SnapshotActions ready) (λ action,
    let! message := executeSnapshotAction (Ready_Token ready) action in
    handoffPeerMessage message) ;;!
  forEach (Ready_Messages ready) handoffPeerMessage ;;!
  let! applied := applyCommitted ∅ (Ready_CommittedEntries ready) in
  forEach (Ready_CommittedProposals ready) (completeProposal applied) ;;!
  forEach (Ready_FailedProposals ready) failProposal ;;!
  onCore (Advance (Ready_Token ready)).

(** ** Snapshots *)

Definition snapshotChunkLimit (o : NodeOptions) : Z :=
  if NO_MaxSnapshotChunkBytes o =? 0 then MaxRaftSnapshotChunkBytes else NO_MaxSnapshotChunkBytes o.

(** The body of the loop of [maybeStartSnapshotTransfer] for one peer that needs
    a snapshot. *)
Definition startTransferTo (peer : Z) : NodeM unit :=
  let! n := get in
  let! core := theCore in
  let o := N_options n in
  match RS_Snapshot (N_durableState n) with
  | None => throw ErrSnapshotUnavailable
  | Some snapshot =>
    let metadata := Snapshot_Metadata snapshot in
    if negb (bool_decide (metadata = RS_SnapshotBase (N_durableState n))) ||
       negb (LastIncludedIndex metadata =? snapshotIndex (log core)) ||
       negb (LastIncludedTerm metadata =? snapshotTerm (log core))
    then throw ErrSnapshotUnavailable
    else if NO_MaxSnapshotBytes o <? len (Snapshot_state snapshot) then throw ErrSnapshotUnavailable
    else
      let! transferID := (λ n, match onIDs (NextTransferID peer) n with
                               | (Err _, n') => (Err ErrTransferIDExhausted, n')
                               | r => r
                               end) in
      if TransferID_IsZero transferID then throw ErrTransferIDExhausted
      else onCore (StartSnapshotTransfer peer snapshot transferID (snapshotChunkLimit o))
  end.

(** The first configured peer that needs a snapshot and has no transfer. *)
Definition needsTransfer (o : NodeOptions) (core : Core) (peer : Z) : bool :=
  negb (peer =? NO_LocalID o) &&
  match lookupMap (progress core) peer with
  | None => false
  | Some p => Progress_SnapshotNeeded p && TransferID_IsZero (Progress_ActiveTransferID p)
  end.

Definition maybeStartSnapshotTransfer : NodeM bool :=
  let! n := get in
  let! core := theCore in
  if negb (isLeader core) then ret false
  else match List.find (needsTransfer (N_options n) core) (map Voter_ID (Voters (NO_Voters (N_options n)))) with
       | None => ret false
       | Some peer => startTransferTo peer ;;! ret true
       end.

Definition maybeStartSnapshotCapture : NodeM bool :=
  let! n := get in
  let! core := theCore in
  if N_captureInFlight n then ret false
  else
    let o := N_options n in
    let state := State (log core) in
    let applied := LS_AppliedIndex state in
    if applied <? LS_SnapshotIndex state then throw ErrLogInvariant
    else if applied =? LS_SnapshotIndex state then ret false
    else
      let entryTriggered := NO_SnapshotEntryThreshold o <? applied - LS_SnapshotIndex state in
      let! retained := onStore RetainedWALBytes in
      let byteTriggered := NO_SnapshotByteThreshold o <? retained in
      if negb entryTriggered && negb byteTriggered then ret false
      else
        let! term := lift (Log_Term (log core) applied) in
        let! capture := onApp (Capture applied term) in
        match capture with
        | None => throw ErrInvalidSnapshot
        | Some capture =>
          let schema := SC_SchemaVersion capture in
          if schema =? 0 then throw ErrInvalidSnapshot
          else
            modify (λ n, n <| N_captureInFlight := true |>
                           <| N_capture := Some (mkSnapshotMetadata applied term schema, capture) |>) ;;!
            ret true
        end.

(** The goroutine of a capture, when the queue has room for its result. *)
Definition encodeCapture (o : NodeOptions) (metadata : SnapshotMetadata) (capture : SnapshotCapture) :
    snapshotCaptureResult :=
  mkCaptureResult
    (let? stateBytes := SC_MarshalBinary capture in
     if negb (SC_SchemaAfter capture =? StateMachineSchemaVersion metadata) then Err ErrInvalidSnapshot
     else NewSnapshot sha256 (NO_Identity o) metadata stateBytes (NO_MaxSnapshotBytes o)).

Definition captureFinishes : NodeM unit :=
  let! n := get in
  match N_capture n with
  | None => ret tt
  | Some (metadata, capture) =>
    if bool_decide (N_lifecycle n = nodeLifecycleStopped) then modify (λ n, n <| N_capture := None |>)
    else if MaxNodeEventQueue <=? len (N_events n) then ret tt
    else modify (λ n, n <| N_capture := None |>
                        <| N_events ::= (λ l, l ++ [captureResultEvent (encodeCapture (N_options n) metadata capture)]) |>)
  end.

Definition finishSnapshotCapture (result : snapshotCaptureResult) : NodeM unit :=
  let! n := get in
  let! core := theCore in
  let o := N_options n in
  if negb (N_captureInFlight n) then throw ErrInvalidCoreState
  else
    modify (λ n, n <| N_captureInFlight := false |>) ;;!
    let! snapshot := lift (SCR_result result) in
    let index := LastIncludedIndex (Snapshot_Metadata snapshot) in
    if index <=? snapshotIndex (log core) then ret tt
    else if appliedIndex (log core) <? index then throw ErrInvalidCoreState
    else
      let! prospective := lift (compactRecoveredState sha256 (N_durableState n) snapshot (NO_Identity o)
                                  (NO_Voters o) (NO_MaxSnapshotBytes o)) in
      onStore (PersistSnapshot snapshot) ;;!
      onCore (CompactSnapshot (Snapshot_Metadata snapshot)) ;;!
      modify (λ n, n <| N_durableState := prospective |>).

(** ** The drain loop *)

(** Fuel: a batch and the start of a transfer per peer, and the first batch.  A
    round that needs more is [Blocked]. *)
Definition drainFuel (o : NodeOptions) : nat := (3 + 2 * length (Voters (NO_Voters o)))%nat.

Fixpoint drainLoop (fuel : nat) : NodeM unit :=
  match fuel with
  | O => lift Blocked
  | Datatypes.S fuel =>
    let! ready := onCore Core_Ready in
    match ready with
    | None =>
      let! core := theCore in
      match terminalErr core with
      | Some e => throw e
      | None =>
        let! started := maybeStartSnapshotTransfer in
        if started then drainLoop fuel
        else let! _ := maybeStartSnapshotCapture in ret tt
      end
    | Some ready =>
      processReady ready ;;!
      let! cancelled := ctxDone in
      if cancelled then ret tt else drainLoop fuel
    end
  end.

Definition drainReady : NodeM unit := let! n := get in drainLoop (drainFuel (N_options n)).

(** ** Leadership *)

Definition terminateLeadershipSubscriber (id : Z) (err : option error) (n : NodeT) : NodeT :=
  match N_subscribers n !! id with
  | None => n
  | Some subscriber =>
    n <| N_subscribers ::= delete id |> <| N_ended ::= <[id := subscriber <| LS_err := err |>]> |>
  end.

(** Offer an event to every subscriber; a full buffer ends the subscription. *)
Definition hasRoom (subscriber : leadershipSubscriber) : bool :=
  len (LS_events subscriber) <? LS_capacity subscriber.

Definition offerEvent (event : LeadershipEvent) (n : NodeT) : NodeT :=
  n <| N_subscribers ::= (λ m, (λ s, s <| LS_events ::= (λ l, l ++ [event]) |>) <$>
                               filter (λ p, hasRoom p.2 = true) m) |>
    <| N_ended ::= (λ e, ((λ s, s <| LS_err := Some ErrLeadershipResyncRequired |>) <$>
                          filter (λ p, hasRoom p.2 = false) (N_subscribers n)) ∪ e) |>.

Definition publishStatus : NodeM unit :=
  let! n := get in
  let! core := theCore in
  let status := Core_Status core in
  let next := mkLeadershipEvent 0 (Status_Term status) (Status_Role status) (Status_LeaderID status)
                (NO_LocalID (N_options n)) in
  match N_leadership n with
  | None => modify (λ n, n <| N_leadership := Some (next <| LE_Sequence := 1 |>) |> <| N_status := status |>)
  | Some current =>
    if LE_Term next <? LE_Term current then throw ErrInvalidCoreState
    else if (LE_Term next =? LE_Term current) && bool_decide (LE_Role next = LE_Role current) &&
            (LE_LeaderID next =? LE_LeaderID current)
    then modify (λ n, n <| N_status := status |>)
    else if LE_Sequence current =? max_uint64 then throw ErrLeadershipSequenceOverflow
    else
      let next := next <| LE_Sequence := LE_Sequence current + 1 |> in
      modify (λ n, offerEvent next (n <| N_leadership := Some next |>) <| N_status := status |>)
  end.

Definition addLeadershipSubscription (capacity : Z) : NodeM Z :=
  let! n := get in
  if N_nextSubscriberID n =? max_uint64 then throw ErrLeadershipSequenceOverflow
  else
    let id := N_nextSubscriberID n + 1 in
    let snapshot := default (mkLeadershipEvent 0 0 RoleFollower 0 0) (N_leadership n) in
    modify (λ n, n <| N_nextSubscriberID := id |>
                   <| N_subscribers ::= <[id := mkSubscriber capacity snapshot [] [] None]> |>) ;;!
    ret id.

(** The goroutine that watches the context and the closing of a subscription,
    when the queue has room for its event. *)
Definition watcherCancels (id : Z) (err : option error) (n : NodeT) : NodeT :=
  match N_subscribers n !! id with
  | None => n
  | Some _ =>
    if len (N_events n) <? MaxNodeEventQueue
    then n <| N_events ::= (λ l, l ++ [leadershipCancelEvent id err]) |> else n
  end.

(** The reader of a subscription takes the next buffered event. *)
Definition receiveEvent (id : Z) (n : NodeT) : NodeT :=
  let take_event s := match LS_events s with
                      | [] => s
                      | e :: rest => s <| LS_events := rest |> <| LS_received ::= (λ l, l ++ [e]) |>
                      end in
  n <| N_subscribers ::= alter take_event id |> <| N_ended ::= alter take_event id |>.

(** ** Timer *)

Definition logicalNow (clock : Z) : NodeM Z :=
  let! n := get in
  if clock <? N_epoch n then throw ErrTickRegression
  else
    let logical := clock - N_epoch n in
    match N_core n with
    | None => ret logical
    | Some core => if logical <? now core then throw ErrTickRegression else ret logical
    end.

Definition nextTimerDuration (core : Core) (at_ : Z) : Z :=
  let deadline :=
    if isLeader core then
      if quorumDeadline core <? heartbeatDeadline core then quorumDeadline core else heartbeatDeadline core
    else electionDeadline core in
  if deadline <=? at_ then 0
  else
    let delta := deadline - at_ in
    if max_int <? delta then max_int else delta.

Definition resetTimer (at_ : Z) : NodeM unit :=
  let! core := theCore in
  modify (λ n, n <| N_timer := Some (nextTimerDuration core at_) |>).

(** ** The event handlers of [Run] *)

(** Whether the owner loop goes on or returns without an error. *)
Inductive loopResult := Continue | Return.

(** [if ctx.Err() != nil { cleanup; return nil }] *)
Definition unlessDone (cleanup : NodeM unit) (k : NodeM loopResult) : NodeM loopResult :=
  let! done_ := ctxDone in
  if done_ then cleanup ;;! ret Return else k.

Definition handleTimer (clock : Z) : NodeM loopResult :=
  unlessDone (ret tt) (
    let! now_ := logicalNow clock in
    unlessDone (ret tt) (
      onCore (Tick now_) ;;!
      drainReady ;;!
      publishStatus ;;!
      resetTimer now_ ;;!
      ret Continue)).

(** A step that may be refused by the core: the error and whether it is fatal. *)
Definition tryCore {R} (m : M Core error R) : NodeM (error + R) := λ n,
  match onCore m n with
  | (Ok r, n') => (Ok (inr r), n')
  | (Err e, n') => (Ok (inl e), n')
  | (Panic, n') => (Panic, n')
  | (Blocked, n') => (Blocked, n')
  end.

(** [requestDone] is the reading of [event.ctx.Err()]. *)
Definition handleRPC (response senderID : Z) (rpc : interfaceRPC) (requestDone : bool) (clock : Z) :
    NodeM loopResult :=
  let stopped := sendReply (ReplyRPC response (Some ErrStopped)) in
  unlessDone stopped (
    if requestDone then sendReply (ReplyRPC response (Some ErrContext)) ;;! ret Continue
    else unlessDone stopped (
      let! step := tryCore (Step senderID rpc) in
      match step with
      | inl e =>
        if fatalCoreError e then throw e
        else sendReply (ReplyRPC response (Some e)) ;;! ret Continue
      | inr _ =>
        drainReady ;;!
        publishStatus ;;!
        let! now_ := logicalNow clock in
        resetTimer now_ ;;!
        sendReply (ReplyRPC response None) ;;!
        ret Continue
      end)).

Definition localRequestError (e : error) : NodeM localRequestResponse :=
  let! core := theCore in
  ret (LocalError e (if error_is e ErrNotLeader then leaderID core else 0)).

Definition handleLocal (response : Z) (kind : EntryKind) (command : list byte) (requestDone : bool)
    (clock : Z) : NodeM loopResult :=
  let refuse e := releaseLocalReservation ;;! sendReply (ReplyLocal response (LocalError e 0)) in
  unlessDone (refuse ErrStopped) (
    if requestDone then refuse ErrContext ;;! ret Continue
    else unlessDone (refuse ErrStopped) (
      let! proposal := tryCore (proposeTracked kind command) in
      match proposal with
      | inl e =>
        releaseLocalReservation ;;!
        let! r := localRequestError e in
        sendReply (ReplyLocal response r) ;;! ret Continue
      | inr (proposalID, entry) =>
        modify (λ n, n <| N_pendingLocal ::= <[proposalID := mkPendingLocal entry response]> |>) ;;!
        drainReady ;;!
        publishStatus ;;!
        let! now_ := logicalNow clock in
        resetTimer now_ ;;!
        ret Continue
      end)).

Definition handleSubscribe (response capacity : Z) (requestDone : bool) : NodeM loopResult :=
  let stopped := sendReply (ReplySubscription response (Err ErrStopped)) in
  unlessDone stopped (
    if requestDone then sendReply (ReplySubscription response (Err ErrContext)) ;;! ret Continue
    else unlessDone stopped (λ n,
      match addLeadershipSubscription capacity n with
      | (Ok id, n') => (sendReply (ReplySubscription response (Ok id)) ;;! ret Continue) n'
      | (Err e, n') => (sendReply (ReplySubscription response (Err e)) ;;! ret Continue) n'
      | (Panic, n') => (Panic, n')
      | (Blocked, n') => (Blocked, n')
      end)).

Definition handleEvent (event : queuedEvent) (requestDone : bool) (clock : Z) : NodeM loopResult :=
  match event with
  | inboundRPCEvent response senderID rpc => handleRPC response senderID rpc requestDone clock
  | localRequestEvent response kind command => handleLocal response kind command requestDone clock
  | leadershipRequestEvent response capacity => handleSubscribe response capacity requestDone
  | leadershipCancelEvent id err =>
    unlessDone (ret tt) (modify (terminateLeadershipSubscriber id err) ;;! ret Continue)
  | captureResultEvent result =>
    unlessDone (ret tt) (
      finishSnapshotCapture result ;;!
      drainReady ;;!
      publishStatus ;;!
      ret Continue)
  end.

(** ** Local API *)

Definition lifecycleError (n : NodeT) : option error :=
  match N_lifecycle n with
  | nodeLifecycleRunning => None
  | nodeLifecycleStopped => Some ErrStopped
  | nodeLifecycleNew | nodeLifecycleStarting => Some ErrNotRunning
  end.

Definition checkLifecycle : NodeM unit :=
  let! n := get in match lifecycleError n with Some e => throw e | None => ret tt end.

(** [requestDone] is the reading of the context of the caller. *)
Definition enqueuePublicEvent (requestDone : bool) (event : queuedEvent) : NodeM unit :=
  checkLifecycle ;;!
  if requestDone then throw ErrContext
  else
    let! n := get in
    if len (N_events n) <? MaxNodeEventQueue
    then modify (λ n, n <| N_events ::= (λ l, l ++ [event]) |>)
    else throw ErrOverloaded.

Definition reserveLocalRequest : NodeM bool :=
  let! n := get in
  if MaxPendingLocalRequests <=? N_pendingReservations n then ret false
  else modify (λ n, n <| N_pendingReservations ::= (λ k, k + 1) |>) ;;! ret true.

(** The part of [submitLocal] before it waits for the reply. *)
Definition submitLocal (response : Z) (kind : EntryKind) (command : list byte) (doneBefore doneAfter : bool) :
    NodeM unit :=
  checkLifecycle ;;!
  if doneBefore then throw ErrContext
  else
    let! reserved := reserveLocalRequest in
    if negb reserved then throw ErrOverloaded
    else λ n,
      match enqueuePublicEvent doneAfter (localRequestEvent response kind command) n with
      | (Err e, n') => (releaseLocalReservation ;;! throw e) n'
      | r => r
      end.

Definition SubscribeLeadership (response capacity : Z) (doneBefore doneAfter : bool) : NodeM unit :=
  checkLifecycle ;;!
  if (capacity <? MinLeadershipSubscriptionCapacity) || (MaxLeadershipSubscriptionCapacity <? capacity)
  then throw ErrInvalidLeadershipCapacity
  else if doneBefore then throw ErrContext
  else enqueuePublicEvent doneAfter (leadershipRequestEvent response capacity).

Definition SubmitRPC (response senderID : Z) (rpc : interfaceRPC) (doneBefore doneAfter : bool) : NodeM unit :=
  checkLifecycle ;;!
  if doneBefore then throw ErrContext
  else enqueuePublicEvent doneAfter (inboundRPCEvent response senderID rpc).

(** ** Recovery *)

Definition recoverPreparedState : NodeM unit :=
  let! n := get in
  let o := N_options n in
  let! recovered := onStore Recover in
  lift (validateRecoveredStateWithSnapshotLimit sha256 recovered (NO_Identity o) (NO_Voters o)
          (NO_MaxSnapshotBytes o)) ;;!
  let base := RS_SnapshotBase recovered in
  let! recovered :=
    match RS_Snapshot recovered with
    | None =>
      if negb (LastIncludedIndex base =? 0) then throw ErrSnapshotUnavailable else ret recovered
    | Some snapshot =>
      match DecodeSnapshotEnvelope sha256 (Snapshot_envelope snapshot) (NO_Identity o) (NO_MaxSnapshotBytes o) with
      | Ok decoded =>
        if negb (bool_decide (Snapshot_Metadata decoded = base)) ||
           negb (bool_decide (Snapshot_ID decoded = Snapshot_ID snapshot))
        then throw ErrSnapshotUnavailable
        else ret (recovered <| RS_Snapshot := Some decoded |>)
      | Panic => panic
      | Blocked => lift Blocked
      | Err _ => throw ErrSnapshotUnavailable
      end
    end in
  let commit := HardState_CommitIndex (RS_HardState recovered) in
  let recoveryApplied := LastIncludedIndex base in
  let! log := lift (NewLog (LastIncludedIndex base) (LastIncludedTerm base) commit recoveryApplied
                      (RS_Entries recovered)) in
  let! core := lift (NewCore (mkCoreOptions (NO_LocalID o) (NO_Voters o) (RS_HardState recovered)
    (Some log) recoveryApplied (NO_ElectionTimeoutMin o) (NO_ElectionTimeoutMax o)
    (NO_HeartbeatInterval o) (NO_MaxAppendEntries o) (NO_MaxAppendBytes o) (NO_Random o))) in
  modify (λ n, n <| N_core := Some core |> <| N_durableState := recovered |>) ;;!
  let (schema, bytes) := match RS_Snapshot recovered with
                         | None => (0, [])
                         | Some s => (StateMachineSchemaVersion (Snapshot_Metadata s), Snapshot_state s)
                         end in
  onApp (Restore schema bytes) ;;!
  replayRecovered recovered ;;!
  onCore (onLog (AdvanceApplied commit)) ;;!
  modify (λ n, n <| N_pendingLocal := ∅ |> <| N_subscribers := ∅ |>) ;;!
  publishStatus.

(** The deferred function of [Run]: the lifecycle, the reservations of the
    pending requests and of the queued ones, the subscriptions and the store. *)
Definition isLocalRequest (e : queuedEvent) : bool :=
  match e with localRequestEvent _ _ _ => true | _ => false end.

Fixpoint releaseMany (k : nat) : NodeM unit :=
  match k with O => ret tt | Datatypes.S k => releaseLocalReservation ;;! releaseMany k end.

Definition releasePendingReservations : NodeM unit :=
  let! n := get in
  releaseMany (size (N_pendingLocal n)) ;;!
  modify (λ n, n <| N_pendingLocal := ∅ |>) ;;!
  releaseMany (length (List.filter isLocalRequest (N_events n))) ;;!
  modify (λ n, n <| N_events := [] |>).

Definition terminateLeadershipSubscriptions (err : error) (n : NodeT) : NodeT :=
  n <| N_ended ::= (λ e, ((λ s, s <| LS_err := Some err |>) <$> N_subscribers n) ∪ e) |>
    <| N_subscribers := ∅ |>.

(** The result of [Run]: nil, an error of the loop, or one of closing the store. *)
Definition stopNode (runErr : option error) : NodeM (option error) :=
  modify (λ n, n <| N_timer := None |> <| N_lifecycle := nodeLifecycleStopped |>) ;;!
  releasePendingReservations ;;!
  modify (terminateLeadershipSubscriptions ErrStopped) ;;!
  λ n, match onStore Close n with
       | (Ok _, n') => (Ok runErr, n')
       | (Err e, n') => (Ok (Some (match runErr with Some r => r | None => e end)), n')
       | (Panic, n') => (Panic, n')
       | (Blocked, n') => (Blocked, n')
       end.

(** [Run] up to the loop: [None] when the node is running. *)
Definition startNode (clock : Z) : NodeM (option (option error)) :=
  let! n := get in
  if negb (bool_decide (N_lifecycle n = nodeLifecycleNew)) then throw ErrStopped
  else
    modify (λ n, n <| N_lifecycle := nodeLifecycleStarting |>) ;;!
    let! done_ := ctxDone in
    if done_ then let! r := stopNode None in ret (Some r)
    else λ n,
      match recoverPreparedState n with
      | (Ok _, n') =>
        (modify (λ n, n <| N_epoch := clock |>) ;;!
         resetTimer 0 ;;!
         modify (λ n, n <| N_lifecycle := nodeLifecycleRunning |>) ;;!
         ret None) n'
      | (Err e, n') => (let! r := stopNode (Some e) in ret (Some r)) n'
      | (Panic, n') => (Panic, n')
      | (Blocked, n') => (Blocked, n')
      end.

(** What the owner selects: the end of its context, the timer, or the head of the
    queue. *)
Inductive wake := WakeDone | WakeTimer | WakeEvent (requestDone : bool).

(** One round of the loop of [Run]. *)
Definition ownerRound (w : wake) (clock : Z) : NodeM loopResult :=
  unlessDone (ret tt) (
    match w with
    | WakeDone => ret Return
    | WakeTimer => handleTimer clock
    | WakeEvent requestDone =>
      let! n := get in
      match N_events n with
      | [] => ret Continue
      | event :: rest => put (n <| N_events := rest |>) ;;! handleEvent event requestDone clock
      end
    end).

(** [None] when the node keeps running, the result of [Run] otherwise. *)
Definition ownerStep (w : wake) (clock : Z) : NodeM (option (option error)) := λ n,
  match ownerRound w clock n with
  | (Ok Continue, n') => (Ok None, n')
  | (Ok Return, n') => (let! r := stopNode None in ret (Some r)) n'
  | (Err e, n') => (let! r := stopNode (Some e) in ret (Some r)) n'
  | (Panic, n') => (Panic, n')
  | (Blocked, n') => (Blocked, n')
  end.

(** ** Construction *)

Definition NewNode (options : NodeOptions) (store : option S) (app : option A) (transport : option T)
    (ids : option I) : outcome error NodeT :=
  let o := options in
  let? _ := asInvalidCore (ValidateLocalID (NO_Voters o) (NO_LocalID o)) in
  match NewStorageIdentity (SI_FormatVersion (NO_Identity o)) (SI_ClusterID (NO_Identity o)) (NO_LocalID o)
          (NO_Voters o) with
  | Ok expected =>
    if negb (bool_decide (expected = NO_Identity o)) then Err ErrInvalidStorageIdentity
    else match store, app, transport, ids, NO_Random o with
    | Some store, Some app, Some transport, Some ids, Some _ =>
      let hb := NO_HeartbeatInterval o in
      let min := NO_ElectionTimeoutMin o in
      if (hb <=? 0) || (min <=? 0) || (NO_ElectionTimeoutMax o <=? min) || (min <=? hb)
      then Err ErrInvalidCoreState
      else if (NO_SnapshotEntryThreshold o =? 0) || (NO_SnapshotByteThreshold o =? 0) ||
              (NO_MaxSnapshotBytes o =? 0) || (MaxRaftSnapshotBytes <? NO_MaxSnapshotBytes o)
      then Err ErrInvalidCoreState
      else if negb (SnapshotLimit store =? NO_MaxSnapshotBytes o) then Err ErrInvalidCoreState
      else
        let o := if NO_MaxSnapshotChunkBytes o =? 0
                 then o <| NO_MaxSnapshotChunkBytes := MaxRaftSnapshotChunkBytes |> else o in
        if MaxRaftSnapshotChunkBytes <? NO_MaxSnapshotChunkBytes o then Err ErrInvalidCoreState
        else if min / hb <? 3 then Err ErrInvalidCoreState
        else
          let limits := DefaultCodecLimits in
          let limits := if NO_MaxAppendEntries o =? 0 then limits
                        else limits <| MaxAppendEntries := NO_MaxAppendEntries o |> in
          let limits := if NO_MaxAppendBytes o =? 0 then limits
                        else limits <| MaxEncodedBytes := NO_MaxAppendBytes o |> in
          let? _ := asInvalidCore (EncodeRPC (InterfaceValue (RPC_AppendEntriesRequest
                      (mkAppendEntriesRequest (NO_LocalID o) 1 1 0 0 0 []))) limits) in
          Ok (mkNode o store app transport ids nodeLifecycleNew (mkStatus RoleFollower 0 0 0 0 0) [] None
                None 0 (SAR_State rejectedResult) 0 ∅ ∅ ∅ 0 None false None [] None [])
    | _, _, _, _, _ => Err ErrInvalidCoreState
    end
  | _ => Err ErrInvalidStorageIdentity
  end.

End node.
End RaftNode.
