(* ===== verification/RaftNodeInv.v ===== *)
(** * The durability contract of the node

    What the owner loop guarantees between the core, the store and the
    transport: at the end of every event the core and the durable state agree on
    the hard state, the durable term and vote only move forward, and a vote
    request or a granted vote is handed to the transport only when that vote is
    durable. *)

From S2P Require Import Prelude RaftTypes RaftLog RaftVoters RaftCodec RaftCore RaftCoreInv RaftCoreOps RaftCoreTyped RaftSnapshot RaftStorage RaftMemoryStore RaftNode.

Module RaftNodeInv.
Import RaftLog RaftVoters RaftCodec RaftCore RaftCoreInv RaftCoreOps RaftCoreTyped RaftSnapshot RaftStorage RaftMemoryStore RaftNode.

Create HintDb neutral.

(** ** What the core operations of the loop change *)

Lemma Core_Ready_spec (c : Core) :
  match Core_Ready c with
  | (Ok (Some r), c') => hasPending c = true ∧ hasPending c' = true ∧ pendingReady c' = r ∧
      hardState c' = hardState c ∧ votes c' = votes c
  | (Ok None, c') => hasPending c = false ∧ c' = c ∨ terminalErr c' ≠ None
  | _ => False
  end.
Proof.
  unfold Core_Ready, bind, get. destruct (hasPending c) eqn:Hp; simpl; [|by left].
  case_goal; [|by split_and!]. case_goal; simpl; [by right|]. by split_and!.
Qed.

Lemma Advance_spec (t : Z) (c c' : Core) (u : unit) :
  core_inv c → Advance t c = (Ok u, c') → hasPending c' = false ∧ hardState c' = hardState c ∧ votes c' = votes c.
Proof.
  intros Hinv Ha. pose proof (Advance_safe t c Hinv) as (_ & _ & Hadv).
  rewrite Ha in Hadv. split_and!; [|apply Hadv|apply Hadv]. revert Ha. unfold Advance, bind at 1, get.
  destruct (terminalErr c); [done|]. do 2 (destruct (_ || _) || destruct (_ && _); [done|]).
  unfold bind. destruct (last _) as [e|]; [|by intros [= <- <-]].
  destruct (onLog _ c) as [[] c1]; try done; by intros [= <- <-].
Qed.

(** A completed action answers with an install response; only an installation
    changes the hard state, to that of the installed state. *)
Lemma CompleteSnapshotAction_spec (t : Z) (r : SnapshotActionResult) (c c' : Core) (m : PeerMessage) :
  CompleteSnapshotAction t r c = (Ok m, c') →
  (∃ q, PM_RPC m = RPC_InstallSnapshotResponse q) ∧ term_of c' = term_of c ∧ vote_of c' = vote_of c ∧
  votes c' = votes c ∧ pendingReady c' = pendingReady c ∧
  ((SAR_Rejected r = true ∨ SAR_Done r = false) → hardState c' = hardState c ∧ log c' = log c) ∧
  (∀ a, a ∈ Ready_SnapshotActions (pendingReady c) → SA_Kind a = SnapshotActionStage →
    SAR_Rejected r = false → SAR_Done r = true →
    hardState c' = RS_HardState (SAR_State r) ∧
    (result_typed r → snapshotIndex (log c') = LastIncludedIndex (RS_SnapshotBase (SAR_State r)))).
Proof.
  unfold CompleteSnapshotAction, bind at 1, get. destruct (terminalErr c); [done|].
  destruct (Ready_SnapshotActions (pendingReady c)) as [|a [|]]; try done.
  case_goal; [done|]. cbv zeta. unfold finishAction, bind, modify, get, ret, lift, throw.
  case_goal. { intros [= <- <-]. simpl. bool_hyps. split_and!; eauto.
    intros a' ->%list_elem_of_singleton Ha. congruence. }
  destruct (incomingSnapshot c) as [i|]; [|done]. case_goal; [done|].
  case_goal. { intros [= <- <-]. simpl. split_and!; eauto. intros; congruence. }
  case (negb _ && _); [done|]. case (_ || (_ <? _)); [done|].
  destruct (SAR_Done r) eqn:Hd; cbn [negb].
  2:{ case (_ || _); [done|]. intros [= <- <-]. simpl. split_and!; eauto. intros; congruence. }
  case (_ || _); [done|]. destruct (installedMatches _ _ _) eqn:Hm; [|done]. cbn [negb].
  destruct (asInvalidCore _) as [l| | |] eqn:Hl; try done. intros [= <- <-]. simpl.
  unfold installedMatches in Hm. destruct (RS_Snapshot _); [|done]. bool_hyps.
  split_and!; eauto; [intros [|]; congruence|]. intros a' _ _ _ _. split; [done|]. intros Hr.
  apply asInvalidCore_Ok, NewLog_wf in Hl as [_ Hl]; [|done]. unfold State in Hl. congruence.
Qed.

Lemma CompactSnapshot_spec (metadata : SnapshotMetadata) (c c' : Core) (u : unit) :
  log_wf (log c) → CompactSnapshot metadata c = (Ok u, c') →
  hasPending c = false ∧ snapshotIndex (log c') = LastIncludedIndex metadata ∧ hardState c' = hardState c.
Proof.
  intros Hwf. unfold CompactSnapshot, requireIdle, bind, get, throw, ret, modify, onLog.
  destruct (terminalErr c); [done|]. destruct (hasPending c); [done|].
  destruct (Compact_cases (log c) (LastIncludedIndex metadata) (LastIncludedTerm metadata) Hwf)
    as [(e & ->)|[(-> & Hi & _)|(_ & _ & ->)]]; [done|rewrite Hi|];
    intros E; inversion E; case (isLeader _); by split.
Qed.

Lemma compactRecoveredState_hard (sha256 : list byte → list byte) (d d' : RecoveredState) (s : Snapshot)
    (i : StorageIdentity) (vs : VoterSet) (limit : Z) :
  compactRecoveredState sha256 d s i vs limit = Ok d' →
  RS_HardState d' = RS_HardState d ∧
  (RS_SnapshotBase d' = RS_SnapshotBase d ∨ RS_SnapshotBase d' = Snapshot_Metadata s).
Proof.
  unfold compactRecoveredState. cbv zeta. case_outer; [done|]. case_outer; [|done..]. case_outer; [done|].
  case_outer. { case_outer; [|done]. case_outer; [|done]. intros [= <-]. auto. }
  case_outer; [done|]. case_outer; [|done..]. case_outer; [done|]. case_outer; [done|].
  case_outer; [|done..]. intros [= <-]. auto.
Qed.

(** A durable state whose hard state and base are values of their Go types. *)
Definition durable_typed (d : RecoveredState) : Prop :=
  hs_typed (RS_HardState d) ∧ metadata_typed (RS_SnapshotBase d).

Lemma store_effect_typed (sha256 : list byte → list byte) (identity : StorageIdentity) (vs : VoterSet)
    (limit : Z) (d d' : RecoveredState) (op : store_op) :
  recovered_wf sha256 identity vs MaxRaftSnapshotBytes d → store_op_typed op →
  store_effect sha256 identity vs limit d op d' → durable_typed d → durable_typed d'.
Proof.
  intros Hwf Ht He [Hh Hb]. destruct op as [|b|r| |s| |]; simpl in He; try done.
  - unfold applyPersistenceBatch in He. revert He. case_outer; [|done..].
    intros (Hh' & _ & Hb' & _)%applyValidated_hard. unfold durable_typed. rewrite Hh', Hb'.
    destruct Ht as (Ht & _ & _ & Htb & _).
    destruct (PB_HardState b), (PB_SnapshotBase b); simpl; unfold hs_typed; naive_solver.
  - destruct He as (s & Hm & Hz & _ & Hi).
    destruct (installRecoveredSnapshot_cases _ _ _ _ _ _ _ Hwf Hz Hi) as (_ & Hh' & Hb' & _).
    unfold durable_typed. by rewrite Hh', Hb'.
  - apply compactRecoveredState_hard in He as [Hh' [Hb'|Hb']]; unfold durable_typed; by rewrite Hh', Hb'.
Qed.

(** ** Triples

    [n] is in the phase of an event: the durable hard state lies between the one
    at the start of the event and that of the core, and what was handed over
    since respects the ballot of the core. *)

Lemma vote_le_antisym (h h' : HardState) :
  vote_le h h' → vote_le h' h →
  HardState_Term h = HardState_Term h' ∧ HardState_VotedFor h = HardState_VotedFor h'.
Proof. unfold vote_le. lia. Qed.

Lemma vote_le_fields (h h' k k' : HardState) :
  HardState_Term h = HardState_Term k → HardState_VotedFor h = HardState_VotedFor k →
  HardState_Term h' = HardState_Term k' → HardState_VotedFor h' = HardState_VotedFor k' →
  vote_le h h' → vote_le k k'.
Proof. unfold vote_le. intros -> -> -> ->. done. Qed.

(** The schema version of a capture is a 32-bit number. *)
Class CaptureTyped (A : Type) `{!StateMachine A} := capture_typed :
  ∀ (index term : Z) (a a' : A) (cap : SnapshotCapture),
    Capture index term a = (Ok (Some cap), a') → is_u32 (SC_SchemaVersion cap).

Lemma Log_Term_typed (l : Log) (i t : Z) : log_typed l → Log_Term l i = Ok t → is_u64 t.
Proof.
  intros [He _ [_ Ht]]. unfold Log_Term, entryAt. case_outer; [done|]. case_outer; [by intros [= <-]|].
  case_outer; [|done..]. destruct (entries l !! a) as [e|] eqn:Hl; [|done]. intros [= <-].
  rewrite Forall_forall in He. apply He. by eapply list_elem_of_lookup_2.
Qed.

Section node_inv.
Context {S A T I : Type} (sha256 : list byte → list byte).
Context (identity : StorageIdentity) (voterSet : VoterSet) (local : Z).
Context `{!StableStore S} `{!StateMachine A} `{!Transport T} `{!TransferIDSource I}.
Context `{!StoreLaws sha256 identity voterSet S} `{!CaptureTyped A}.
Abbreviation NodeT := (Node S A T I).
Abbreviation NodeM R := (M NodeT error R).
Implicit Types n : NodeT.

(** The hard state the store holds. *)
Definition dhs n : HardState := RS_HardState (durable (N_store n)).

(** ** Parts of the node outside the contract *)

(** Nodes that agree on the core, the store, the durable state and the messages. *)
Record same n n' : Prop := {
  sm_options : N_options n' = N_options n;
  sm_events : N_events n' = N_events n;
  sm_capture : N_capture n' = N_capture n;
  sm_store : N_store n' = N_store n;
  sm_handed : N_handed n' = N_handed n;
  sm_core : N_core n' = N_core n;
  sm_durable : N_durableState n' = N_durableState n
}.

Lemma same_refl n : same n n.
Proof. by split. Qed.
Lemma same_trans n1 n2 n3 : same n1 n2 → same n2 n3 → same n1 n3.
Proof. intros [] []. split; congruence. Qed.

Lemma same_sym n n' : same n n' → same n' n.
Proof. intros []. by split. Qed.

Definition neutral {R} (m : NodeM R) : Prop := ∀ n, same n (m n).2.

Lemma neutral_ret {R} (a : R) : neutral (ret a).
Proof. intros n. apply same_refl. Qed.
Lemma neutral_throw {R} (e : error) : neutral (throw e : NodeM R).
Proof. intros n. apply same_refl. Qed.
Lemma neutral_panic {R} : neutral (panic : NodeM R).
Proof. intros n. apply same_refl. Qed.
Lemma neutral_lift {R} (r : outcome error R) : neutral (lift r).
Proof. intros n. apply same_refl. Qed.
Lemma neutral_get : neutral get.
Proof. intros n. apply same_refl. Qed.
Lemma neutral_modify (f : NodeT → NodeT) : (∀ n, same n (f n)) → neutral (modify f).
Proof. intros Hf n. apply Hf. Qed.
Lemma neutral_bind {R B} (m : NodeM R) (k : R → NodeM B) :
  neutral m → (∀ a, neutral (k a)) → neutral (bind m k).
Proof.
  intros Hm Hk n. unfold bind. specialize (Hm n). destruct (m n) as [[a| | |] n1]; simpl in *; try done.
  eapply same_trans; [done|apply Hk].
Qed.
Lemma neutral_forEach {X} (l : list X) (f : X → NodeM unit) :
  (∀ x, neutral (f x)) → neutral (forEach l f).
Proof. intros Hf. induction l; simpl; [apply neutral_ret|apply neutral_bind; auto]. Qed.
Lemma neutral_onApp {R} (m : M A error R) : neutral (onApp m).
Proof. intros n. unfold onApp, zoom. destruct (m _). by split. Qed.
Lemma neutral_onTransport {R} (m : M T error R) : neutral (onTransport m).
Proof. intros n. unfold onTransport, zoom. destruct (m _). by split. Qed.
Lemma neutral_onIDs {R} (m : M I error R) : neutral (onIDs m).
Proof. intros n. unfold onIDs, zoom. destruct (m _). by split. Qed.
Lemma neutral_theCore : neutral theCore.
Proof. apply neutral_bind; [apply neutral_get|]. intros n. destruct (N_core n); [apply neutral_ret|apply neutral_panic]. Qed.

#[local] Hint Resolve neutral_ret neutral_throw neutral_panic neutral_lift neutral_get neutral_forEach
  neutral_onApp neutral_onTransport neutral_onIDs neutral_theCore : neutral.

Ltac solve_neutral :=
  repeat (intros; first
    [ solve [auto with neutral]
    | apply neutral_bind
    | match goal with |- neutral (match ?x with _ => _ end) => destruct x end
    | apply neutral_modify; intros; by split ]).

Lemma ctxDone_neutral : neutral ctxDone.
Proof.
  intros n. unfold ctxDone, bind, get, put, ret. destruct (N_cancelAfter n) as [[|k]|]; by split.
Qed.
#[local] Hint Resolve ctxDone_neutral : neutral.

Lemma sendReply_neutral (r : reply) : neutral (sendReply r).
Proof. unfold sendReply. solve_neutral. Qed.
#[local] Hint Resolve sendReply_neutral : neutral.

Lemma releaseLocalReservation_neutral : neutral releaseLocalReservation.
Proof. unfold releaseLocalReservation. solve_neutral. Qed.
#[local] Hint Resolve releaseLocalReservation_neutral : neutral.

Lemma validateReadyAndDerive_neutral (r : Ready) : neutral (validateReadyAndDerive sha256 r).
Proof. unfold validateReadyAndDerive. solve_neutral. Qed.

Lemma replayRecovered_neutral (d : RecoveredState) : neutral (replayRecovered d).
Proof. unfold replayRecovered. induction (RS_Entries d) as [|e es IH]; simpl; solve_neutral. Qed.
#[local] Hint Resolve replayRecovered_neutral : neutral.

Lemma applyCommitted_neutral (es : list Entry) (applied : gmap Z ProposalResult) :
  neutral (applyCommitted applied es).
Proof. revert applied. induction es as [|e es IH]; simpl; solve_neutral. Qed.

Lemma completeProposal_neutral (applied : gmap Z ProposalResult) (p : CommittedProposal) :
  neutral (completeProposal applied p).
Proof. unfold completeProposal. solve_neutral. Qed.

Lemma failProposal_neutral (p : FailedProposal) : neutral (failProposal p).
Proof. unfold failProposal. solve_neutral. Qed.
#[local] Hint Resolve applyCommitted_neutral completeProposal_neutral failProposal_neutral : neutral.

Lemma offerEvent_same (e : LeadershipEvent) n : same n (offerEvent e n).
Proof. by split. Qed.

Lemma publishStatus_neutral : neutral publishStatus.
Proof. unfold publishStatus. solve_neutral. Qed.

Lemma addLeadershipSubscription_neutral (capacity : Z) : neutral (addLeadershipSubscription capacity).
Proof. unfold addLeadershipSubscription. solve_neutral. Qed.

Lemma terminate_same (id : Z) (err : option error) n : same n (terminateLeadershipSubscriber id err n).
Proof. unfold terminateLeadershipSubscriber. by destruct (N_subscribers n !! id). Qed.

Lemma logicalNow_neutral (clock : Z) : neutral (logicalNow clock).
Proof. unfold logicalNow. solve_neutral. Qed.

Lemma resetTimer_neutral (t : Z) : neutral (resetTimer t).
Proof. unfold resetTimer. solve_neutral. Qed.

Lemma releaseMany_neutral (k : nat) : neutral (releaseMany k).
Proof. induction k; simpl; solve_neutral. Qed.
#[local] Hint Resolve publishStatus_neutral logicalNow_neutral resetTimer_neutral releaseMany_neutral : neutral.

Lemma localRequestError_neutral (e : error) : neutral (localRequestError e).
Proof. unfold localRequestError. solve_neutral. Qed.
#[local] Hint Resolve localRequestError_neutral addLeadershipSubscription_neutral : neutral.

Section phase.
Context (n0 : NodeT) (h : HardState) (V : Z → Prop).

Record phase n : Prop := {
  ph_options : N_options n = N_options n0;
  ph_events : N_events n = N_events n0;
  ph_capture : ∀ m cap, N_capture n = Some (m, cap) → metadata_typed m;
  ph_store : store_ok (N_store n);
  ph_limit : SnapshotLimit (N_store n) ≤ MaxRaftSnapshotBytes;
  ph_typed : durable_typed (durable (N_store n));
  ph_low : vote_le (dhs n0) (dhs n);
  ph_high : vote_le (dhs n) h;
  ph_handed : ∃ ms, N_handed n = N_handed n0 ++ ms ∧
    Forall (ballot_ok local (HardState_Term h) (HardState_VotedFor h)) ms ∧ (ms = [] ∨ vote_le h (dhs n))
}.

(** The core of a running node. *)
Record core_ok (c : Core) : Prop := {
  co_inv : core_inv c;
  co_typed : core_typed c;
  co_local : localID c = local;
  co_voters : voters c = voterSet;
  co_term : term_of c = HardState_Term h;
  co_vote : vote_of c = HardState_VotedFor h;
  co_votes : ∀ r, r ∈ default ∅ (votes c) → r = local ∨ V r
}.

(** A running node: its record of the durable hard state is that of the store,
    and the log of the core is compacted at least as far as the store. *)
Record running n (c : Core) : Prop := {
  ru_phase : phase n;
  ru_get : N_core n = Some c;
  ru_core : core_ok c;
  ru_hard : RS_HardState (N_durableState n) = dhs n;
  ru_base : LastIncludedIndex (RS_SnapshotBase (durable (N_store n))) ≤ snapshotIndex (log c)
}.

(** A normal return establishes [Q]; every other outcome stays in the phase. *)
Definition tri {R} (m : NodeM R) (Q : R → NodeT → Prop) n : Prop :=
  wp m (λ o n', match o with Ok a => Q a n' | _ => phase n' end) n.

Lemma tri_bind {R B} (m : NodeM R) (k : R → NodeM B) Q n :
  tri m (λ a, tri (k a) Q) n → tri (bind m k) Q n.
Proof. unfold tri, wp, bind. by destruct (m n) as [[] ?]. Qed.
Lemma tri_mono {R} (m : NodeM R) (Q Q' : R → NodeT → Prop) n :
  tri m Q n → (∀ a n', Q a n' → Q' a n') → tri m Q' n.
Proof. unfold tri, wp. destruct (m n) as [[] ?]; simpl; auto. Qed.
Lemma tri_ret {R} (a : R) (Q : R → NodeT → Prop) n : Q a n → tri (ret a) Q n.
Proof. done. Qed.
Lemma tri_throw {R} (e : error) (Q : R → NodeT → Prop) n : phase n → tri (throw e) Q n.
Proof. done. Qed.
Lemma tri_panic {R} (Q : R → NodeT → Prop) n : phase n → tri (panic : NodeM R) Q n.
Proof. done. Qed.
Lemma tri_lift {R} (r : outcome error R) (Q : R → NodeT → Prop) n :
  phase n → (∀ a, r = Ok a → Q a n) → tri (lift r) Q n.
Proof. unfold tri, wp, lift. intros Hp HQ. destruct r; simpl; auto. Qed.
Lemma tri_get {B} (k : NodeT → NodeM B) Q n : tri (k n) Q n → tri (bind get k) Q n.
Proof. done. Qed.
Lemma tri_modify (f : NodeT → NodeT) (Q : unit → NodeT → Prop) n : Q tt (f n) → tri (modify f) Q n.
Proof. done. Qed.
Lemma tri_theCore (Q : Core → NodeT → Prop) n :
  phase n → (∀ c, N_core n = Some c → Q c n) → tri theCore Q n.
Proof.
  intros Hp HQ. apply tri_get. destruct (N_core n) eqn:Hc; [by apply tri_ret, HQ|by apply tri_panic].
Qed.

(** ** Steps outside the contract *)

Lemma phase_same n n' : same n n' → phase n → phase n'.
Proof.
  intros [Ho Hev Hcap Hs Hh _ _] []. unfold dhs in *. split; unfold dhs; rewrite ?Ho, ?Hev, ?Hcap, ?Hs, ?Hh; done.
Qed.

Lemma running_same n n' c : same n n' → running n c → running n' c.
Proof.
  intros Hsame [Hp Hc Hok Hhard Hbase]. pose proof (phase_same _ _ Hsame Hp). destruct Hsame.
  split; unfold dhs in *; congruence.
Qed.

Lemma tri_neutral {R} (m : NodeM R) (Q : R → NodeT → Prop) n :
  neutral m → phase n → (∀ a n', m n = (Ok a, n') → same n n' → Q a n') → tri m Q n.
Proof.
  intros Hm Hp HQ. specialize (Hm n). unfold tri, wp. destruct (m n) as [[] n']; simpl in *; auto;
    by eapply phase_same.
Qed.

Lemma tri_core {R} (m : M Core error R) (Q : R → NodeT → Prop) n (c : Core) :
  N_core n = Some c → phase n →
  (∀ a c', m c = (Ok a, c') → phase (n <| N_core := Some c' |>) → Q a (n <| N_core := Some c' |>)) →
  tri (onCore m) Q n.
Proof.
  intros Hc Hp HQ. assert (∀ c', phase (n <| N_core := Some c' |>)) as Hp' by (intros; by destruct Hp).
  unfold tri, wp, onCore. rewrite Hc. destruct (m c) as [[] c'] eqn:Hm; simpl; auto.
Qed.

(** ** The store *)

(** The hard state of the durable state after an operation is the old one, the
    one of the batch, or the old one with another commit index. *)
Lemma store_effect_high (limit : Z) (d d' : RecoveredState) (op : store_op) :
  limit ≤ MaxRaftSnapshotBytes → recovered_wf sha256 identity voterSet MaxRaftSnapshotBytes d →
  store_effect sha256 identity voterSet limit d op d' → vote_le (RS_HardState d) h →
  (∀ b k, op = SPersist b → PB_HardState b = Some k → vote_le k h) → vote_le (RS_HardState d') h.
Proof.
  intros Hl Hwf He Hd Hb. destruct op as [|b|r| |s| |]; simpl in He; try done.
  - unfold applyPersistenceBatch in He. revert He. case_outer; [|done..]. intros Ha.
    apply applyValidated_hard in Ha as (-> & _). destruct (PB_HardState b) eqn:Hk; [by eapply Hb|done].
  - destruct He as (s & _ & Hz & _ & Hi).
    destruct (installRecoveredSnapshot_cases _ _ _ _ _ _ _ Hwf Hz Hi) as (_ & -> & _).
    by eapply vote_le_fields, Hd.
  - destruct (compactRecoveredState_cases _ _ _ _ _ _ _ _ Hwf He) as [->|(-> & _)]; done.
Qed.

Lemma onStore_wp {R} (f : R → store_result) (m : M S error R) (op : store_op) n :
  runStore op = mapM f m → phase n → node_op (durable (N_store n)) op →
  (op = SRecover → store_live (N_store n)) →
  (∀ b k, op = SPersist b → PB_HardState b = Some k → vote_le k h) →
  wp (onStore m) (λ r n', ∃ s', n' = n <| N_store := s' |> ∧ phase n' ∧
    store_spec sha256 identity voterSet (SnapshotLimit (N_store n)) (durable (N_store n)) op
      (match r with Ok a => Ok (f a) | Err e => Err e | Panic => Panic | Blocked => Blocked end) (durable s')) n.
Proof.
  intros Hop Hp Hn Hr Hb. pose proof Hp as [Ho Hev Hcap Hs Hlim Hty Hlow Hhigh Hhd].
  destruct (store_law op (N_store n) Hs Hn Hr) as (Hs' & Hl' & Hspec). pose proof (store_wf _ Hs) as Hwf.
  rewrite Hop in *. unfold wp, onStore, zoom. destruct (m (N_store n)) as [r s'] eqn:Hm.
  assert (mapM f m (N_store n) = (match r with Ok a => Ok (f a) | Err e => Err e | Panic => Panic | Blocked => Blocked end, s')) as Hmap.
  { unfold mapM, bind. rewrite Hm. by destruct r. }
  rewrite Hmap in *. simpl in *. exists s'. split_and!; [done| |done].
  assert (durable s' = durable (N_store n) ∨
    store_effect sha256 identity voterSet (SnapshotLimit (N_store n)) (durable (N_store n)) op (durable s')) as Hcase.
  { destruct r as [a|e| |]; simpl in Hspec; try done; [|naive_solver]. destruct op, (f a); simpl in *; try done; auto.
    - destruct Hspec. by left.
    - destruct (SSR_Done result); [destruct Hspec|]; auto. }
  assert (vote_le (dhs n) (RS_HardState (durable s')) ∧ vote_le (RS_HardState (durable s')) h) as [Hup Hhi].
  { destruct Hcase as [->|He]; [split; [reflexivity|done]|].
    destruct (store_effect_safe _ _ _ _ _ _ _ Hlim Hwf (proj1 Hn) He) as [_ [_ Hle]].
    split; [done|]. by eapply store_effect_high. }
  split; unfold dhs; simpl; try done; [by rewrite Hl'| |by etransitivity|].
  { destruct Hcase as [->|He]; [done|]. eapply store_effect_typed; [done|apply Hn|done|done]. }
  destruct Hhd as (ms & Hms & Hball & Hor). exists ms. split_and!; [done|done|].
  destruct Hor as [|Hor]; [by left|right]. by etransitivity.
Qed.

Lemma onStore_tri {R} (f : R → store_result) (m : M S error R) (op : store_op) (Q : R → NodeT → Prop) n :
  runStore op = mapM f m → phase n → node_op (durable (N_store n)) op →
  (op = SRecover → store_live (N_store n)) →
  (∀ b k, op = SPersist b → PB_HardState b = Some k → vote_le k h) →
  (∀ a s', phase (n <| N_store := s' |>) →
    store_spec sha256 identity voterSet (SnapshotLimit (N_store n)) (durable (N_store n)) op (Ok (f a)) (durable s') →
    Q a (n <| N_store := s' |>)) →
  tri (onStore m) Q n.
Proof.
  intros Hop Hp Hn Hr Hb HQ. pose proof (onStore_wp f m op n Hop Hp Hn Hr Hb) as H. unfold tri, wp in *.
  destruct (onStore m n) as [[] n']; destruct H as (s' & -> & Hp' & Hspec);
    [by apply HQ|done..].
Qed.

(** ** One batch *)

Lemma core_ok_keep (c c' : Core) :
  core_inv c' → core_typed c' → localID c' = localID c → voters c' = voters c →
  term_of c' = term_of c → vote_of c' = vote_of c →
  (∀ r, r ∈ default ∅ (votes c') → r = localID c ∨ r ∈ default ∅ (votes c)) →
  core_ok c → core_ok c'.
Proof.
  intros Hi Ht Hl Hv Hterm Hvote Hvotes []. split; try congruence; try done.
  intros r Hr. destruct (Hvotes r Hr) as [->|]; [left; congruence|auto].
Qed.

(** The core and the store agree on the hard state, and [ready] is in flight. *)
Definition synced (ready : Ready) n : Prop :=
  ∃ c, running n c ∧ hardState c = dhs n ∧ Ready_SnapshotActions (pendingReady c) = Ready_SnapshotActions ready ∧
    Ready_Messages (pendingReady c) = Ready_Messages ready.

Lemma synced_phase ready n : synced ready n → phase n.
Proof. intros (c & [] & _). done. Qed.

Lemma synced_same ready n n' : same n n' → synced ready n → synced ready n'.
Proof.
  intros Hs (c & Hr & Hh & Ha & Hm). exists c. split_and!; [by eapply running_same| |done|done].
  unfold dhs. by rewrite (sm_store _ _ Hs).
Qed.

(** The handoff of a message when the core and the store agree. *)
Lemma phase_handed ready n (m : PeerMessage) :
  synced ready n → ballot_ok local (HardState_Term h) (HardState_VotedFor h) m →
  synced ready (n <| N_handed ::= (λ l, l ++ [m]) |>).
Proof.
  intros (c & [Hp Hc Hok Hhard Hbase] & Hh & Ha & Hm) Hb. exists c. split_and!; try done. split; try done.
  destruct Hp as [Ho Hev Hcap Hs Hlim Hty Hlow Hhigh (ms & Hms & Hball & _)]. split; try done.
  exists (ms ++ [m]). simpl. rewrite Hms, app_assoc. split_and!; [done|by apply Forall_app_2, Forall_singleton|].
  right. change (vote_le h (dhs n)). rewrite <- Hh. destruct Hok as [_ _ _ _ Ht Hv _].
  unfold vote_le. lia.
Qed.

Lemma handoff_tri ready n (m : PeerMessage) :
  synced ready n → ballot_ok local (HardState_Term h) (HardState_VotedFor h) m →
  tri (handoffPeerMessage m) (λ _, synced ready) n.
Proof.
  intros Hs Hb. apply tri_bind, tri_modify. pose proof (phase_handed _ _ _ Hs Hb) as Hs'.
  apply tri_neutral; [solve_neutral|by eapply synced_phase|]. intros a n' _ Hsame. by eapply synced_same.
Qed.

(** The fields of a validated batch. *)
Lemma validateReadyAndDerive_spec (r : Ready) n n' (c : Core) (b : PersistenceBatch) (d : RecoveredState) :
  N_core n = Some c → validateReadyAndDerive sha256 r n = (Ok (b, d), n') →
  n' = n ∧ b = persistenceBatchForReady r ∧ RS_HardState d = hardState c ∧
  RS_HardState d = default (RS_HardState (N_durableState n)) (Ready_HardState r).
Proof.
  intros Hc. unfold validateReadyAndDerive, theCore, bind, get, lift. rewrite Hc. unfold ret.
  destruct (validateReadyStructure _ _ _ _); try done.
  assert (∀ d', RS_HardState d' = default (RS_HardState (N_durableState n)) (Ready_HardState r) →
    match validateProspectiveCoreState c d' with
    | Ok _ => match forAll (validateMessageDurability c (N_durableState n) d') (Ready_Messages r) with
              | Ok _ => (Ok (persistenceBatchForReady r, d'), n)
              | Err e => (Err e, n) | Panic => (Panic, n) | Blocked => (Blocked, n)
              end
    | Err e => (Err e, n) | Panic => (Panic, n) | Blocked => (Blocked, n)
    end = (Ok (b, d), n') →
    n' = n ∧ b = persistenceBatchForReady r ∧ RS_HardState d = hardState c ∧
    RS_HardState d = default (RS_HardState (N_durableState n)) (Ready_HardState r)) as Hend.
  { intros d' Hd'. destruct (validateProspectiveCoreState c d') as [[]| | |] eqn:Hv; try done.
    revert Hv. unfold validateProspectiveCoreState. case_outer; [done|]. bool_hyps. intros _.
    destruct (forAll _ _); try done. by intros [= <- <- <-]. }
  destruct (persistenceBatchHasEffects _) eqn:He; cbv beta iota.
  - destruct (asInvalidCore _) as [d'| | |] eqn:Hd; try done. apply asInvalidCore_Ok in Hd. apply Hend.
    unfold applyPersistenceBatch in Hd. revert Hd. case_outer; [|done..].
    intros (-> & _)%applyValidated_hard. f_equal. unfold persistenceBatchForReady.
    by destruct (Ready_Entries r).
  - apply Hend. revert He. unfold persistenceBatchForReady, persistenceBatchHasEffects.
    destruct (Ready_Entries r); simpl; by destruct (Ready_HardState r).
Qed.

Lemma ready_batch_values (r : Ready) (c : Core) :
  core_ok c → Ready_Entries (pendingReady c) = Ready_Entries r →
  (∀ k, Ready_HardState r = Some k → k = hardState c) → batch_values (persistenceBatchForReady r).
Proof.
  intros Hok He Hk. destruct Hok as [Hinv [_ [Ht Hv] _ Hr _] _ _ _ _ _]. rewrite He in Hr.
  pose proof (ci_commit _ Hinv) as Hc. pose proof (ci_log _ Hinv) as [_ Hn Ho Hcl Hl Hrg _ _].
  unfold batch_values, persistenceBatchForReady.
  assert (match Ready_HardState r with
    | Some k => is_u64 (HardState_Term k) ∧ is_u16 (HardState_VotedFor k) ∧ is_u64 (HardState_CommitIndex k)
    | None => True end) as Hh.
  { destruct (Ready_HardState r) as [k|]; [|done]. rewrite (Hk k eq_refl), Hc. split_and!; [done..|]. ulia. }
  destruct (Ready_Entries r) as [|e es]; simpl; split_and!; try done; try ulia.
  apply Forall_cons in Hr as [Hr _]. apply Hr.
Qed.

(** Persisting the batch brings the store to the hard state of the core. *)
Lemma persist_tri (r : Ready) n (c : Core) (d : RecoveredState) :
  running n c → pendingReady c = r → RS_HardState d = hardState c →
  RS_HardState d = default (RS_HardState (N_durableState n)) (Ready_HardState r) →
  tri (if persistenceBatchHasEffects (persistenceBatchForReady r) then
         onStore (Persist (persistenceBatchForReady r)) ;;! modify (λ n, n <| N_durableState := d |>)
       else ret tt) (λ _, synced r) n.
Proof.
  intros Hrun Hr Hd Hdef. pose proof Hrun as [Hp Hc Hok Hhard Hbase].
  assert (default (dhs n) (Ready_HardState r) = hardState c) as Hnew by congruence.
  assert (PB_HardState (persistenceBatchForReady r) = Ready_HardState r ∧
          PB_SnapshotBase (persistenceBatchForReady r) = None ∧ PB_Snapshot (persistenceBatchForReady r) = None)
    as (Hbh & Hbb & Hbs) by (unfold persistenceBatchForReady; by destruct (Ready_Entries r)).
  destruct (persistenceBatchHasEffects _) eqn:He.
  - apply tri_bind. eapply (onStore_tri (λ _, ResultUnit) _ (SPersist (persistenceBatchForReady r))); try done.
    + split; [|done]. eapply ready_batch_values; [done|by rewrite Hr|]. intros k Hk. by rewrite Hk in Hnew.
    + intros b k [= <-] Hk. rewrite Hbh in Hk. rewrite Hk in Hnew. simpl in Hnew. subst k.
      destruct Hok as [_ _ _ _ Ht Hv _]. unfold vote_le. lia.
    + intros [] s' Hp' Hspec. apply tri_modify. simpl in Hspec. unfold applyPersistenceBatch in Hspec.
      revert Hspec. case_outer; [|done..]. intros Ha. apply applyValidated_hard in Ha as (Hh & _ & Hb & _).
      rewrite Hbh in Hh. rewrite Hbb in Hb. simpl in Hb. change (RS_HardState (durable (N_store n))) with (dhs n) in Hh.
      exists c. split_and!; [|unfold dhs; simpl; congruence|by rewrite Hr..].
      split; try done; unfold dhs; simpl; [by destruct Hp'|congruence|by rewrite Hb].
  - apply tri_ret. exists c. split_and!; [done| |by rewrite Hr..]. rewrite <- Hnew.
    revert He. unfold persistenceBatchHasEffects. rewrite Hbh. by destruct (Ready_HardState r).
Qed.

(** ** Snapshot actions *)

Lemma core_ok_complete (t : Z) (result : SnapshotActionResult) (c c' : Core) (m : PeerMessage) :
  core_ok c → result_typed result → (SAR_Done result = true → state_typed (SAR_State result)) →
  CompleteSnapshotAction t result c = (Ok m, c') → core_ok c'.
Proof.
  intros Hok Hr Hd Hc. pose proof (CompleteSnapshotAction_safe t result c Hr (co_inv _ Hok)) as (_ & Hi & Hm).
  pose proof (CompleteSnapshotAction_typed t result Hd c (co_typed _ Hok)) as Ht. rewrite Hc in *. simpl in *.
  destruct (CompleteSnapshotAction_spec _ _ _ _ _ Hc) as (_ & Hterm & Hvote & Hv & _).
  eapply core_ok_keep, Hok; try done; [apply Hm|apply Hm|]. rewrite Hv. auto.
Qed.

Lemma install_response_ballot (m : PeerMessage) q (t v : Z) :
  PM_RPC m = RPC_InstallSnapshotResponse q → ballot_ok local t v m.
Proof. unfold ballot_ok. by intros ->. Qed.

(** The answer to a request that installed nothing. *)
Lemma complete_unchanged_tri ready (t : Z) (result : SnapshotActionResult) n :
  synced ready n → result_typed result → SAR_Done result = false →
  tri (onCore (CompleteSnapshotAction t result))
    (λ m n', synced ready n' ∧ ballot_ok local (HardState_Term h) (HardState_VotedFor h) m) n.
Proof.
  intros (c & [Hp Hc Hok Hhard Hbase] & Hh & Ha & Hm) Hr Hd. eapply tri_core; [done..|].
  intros m c' Hcomp Hp'. destruct (CompleteSnapshotAction_spec _ _ _ _ _ Hcomp)
    as ((q & Hq) & Hterm & Hvote & Hv & Hready & Hkeep & _).
  destruct (Hkeep (or_intror Hd)) as [Hhs Hlog].
  split; [|by eapply install_response_ballot]. exists c'. rewrite Hready.
  split_and!; [|by rewrite Hhs|done|done]. split; simpl; try done; [|by rewrite Hlog].
  eapply core_ok_complete; try done. intros Hd'. congruence.
Qed.

(** The durable state is a value of its Go types when its term and vote are. *)
Lemma terms_between_typed (prev top : Z) (es : list Entry) :
  0 ≤ prev → top ≤ max_uint64 → terms_between prev top es → Forall (λ e, is_u64 (Entry_Term e)) es.
Proof.
  revert prev. induction es as [|e es IH]; intros prev Hp Ht; simpl; [constructor|].
  intros [Hle Hrest]. constructor; [ulia|]. eapply IH; [|done|done]. lia.
Qed.

Lemma recovered_typed (limit : Z) (d : RecoveredState) :
  recovered_wf sha256 identity voterSet limit d → hs_typed (RS_HardState d) →
  metadata_typed (RS_SnapshotBase d) → state_typed d.
Proof.
  intros [_ _ _ _ _ _ _ Hlog Hterms _] Hh (Hi & Ht & _). unfold state_typed. split_and!; [done..|].
  destruct Hlog as [_ Hn _ _ Hl Hr Hcont Hval]. simpl in *.
  assert (Forall (λ e, is_u64 (Entry_Term e)) (RS_Entries d)) as Hterm.
  { eapply terms_between_typed; [|apply Hh|done]. ulia. }
  apply Forall_forall. intros e He. rewrite Forall_forall in Hterm, Hval.
  specialize (Hterm e He). specialize (Hval e He).
  apply list_elem_of_lookup in He as [k Hk]. pose proof (lookup_lt_Some _ _ _ Hk) as Hlt.
  unfold entry_typed. rewrite (Hcont k e Hk). split_and!; try done.
  - unfold len in *. ulia.
  - unfold valid_entry, validateLogEntry, EntryCommand, EntryNoOp in Hval. revert Hval.
    case_outer; [done|]. case_outer; [done|]. intros _. bool_hyps. ulia.
Qed.

(** The answer to the last chunk, when the store holds the installed state. *)
Lemma complete_installed_tri ready (t next : Z) (action : SnapshotAction) (d : RecoveredState) n (c : Core) :
  phase n → N_core n = Some c → core_ok c → RS_HardState (N_durableState n) = dhs n →
  Ready_SnapshotActions (pendingReady c) = Ready_SnapshotActions ready →
  Ready_Messages (pendingReady c) = Ready_Messages ready → action ∈ Ready_SnapshotActions ready →
  SA_Kind action = SnapshotActionStage → RS_HardState d = dhs n →
  RS_SnapshotBase d = RS_SnapshotBase (durable (N_store n)) → state_typed d →
  tri (onCore (CompleteSnapshotAction t (mkSnapshotActionResult next true d false)))
    (λ m n', synced ready n' ∧ ballot_ok local (HardState_Term h) (HardState_VotedFor h) m) n.
Proof.
  intros Hp Hc Hok Hhard Ha Hm Hin Hkind Hhs Hbase Hst. eapply tri_core; [done..|].
  intros m c' Hcomp Hp'. pose proof Hst as (_ & Hres & _).
  destruct (CompleteSnapshotAction_spec _ _ _ _ _ Hcomp)
    as ((q & Hq) & Hterm & Hvote & Hv & Hready & _ & Hinst). rewrite Ha in Hinst.
  destruct (Hinst action Hin Hkind eq_refl eq_refl) as [Hh Hsnap]. simpl in *.
  split; [|by eapply install_response_ballot]. exists c'. rewrite Hready.
  split_and!; [|unfold dhs in *; simpl; congruence|done|done].
  split; simpl; try done; [|]. { eapply core_ok_complete, Hcomp; [done|exact Hres|done]. }
  rewrite (Hsnap Hres), Hbase. done.
Qed.

Lemma synced_store ready n (s' : S) :
  durable s' = durable (N_store n) → phase (n <| N_store := s' |>) → synced ready n →
  synced ready (n <| N_store := s' |>).
Proof.
  intros Hd Hp (c & [_ Hc Hok Hhard Hbase] & Hh & Ha & Hm). exists c. unfold dhs in *. simpl.
  split_and!; [|congruence|done|done]. split; simpl; try done; unfold dhs; simpl; congruence.
Qed.

Lemma abort_tri ready n : synced ready n → tri (onStore AbortSnapshotStage) (λ _, synced ready) n.
Proof.
  intros Hs. eapply (onStore_tri (λ _, ResultUnit) _ SAbort); try done; [by eapply synced_phase|].
  intros [] s' Hp' Hspec. by apply synced_store.
Qed.

Lemma rejected_tri ready (t : Z) n :
  synced ready n →
  tri (onCore (CompleteSnapshotAction t rejectedResult))
    (λ m n', synced ready n' ∧ ballot_ok local (HardState_Term h) (HardState_VotedFor h) m) n.
Proof. intros Hs. apply complete_unchanged_tri; [done|unfold result_typed; simpl; ulia|done]. Qed.

(** Staging a chunk: a refusal and a partial transfer change no durable state, a
    complete one installs a state that keeps the term and the vote. *)
Lemma stage_tri ready (r : InstallSnapshotRequest) n :
  synced ready n → rpc_typed (RPC_InstallSnapshotRequest r) →
  tri (catchRejected (onStore (StageSnapshotChunk r)))
    (λ staged n', match staged with
       | Some staged => if SSR_Done staged
         then ∃ c s', n' = n <| N_store := s' |> ∧ phase n' ∧ N_core n' = Some c ∧ core_ok c ∧
           Ready_SnapshotActions (pendingReady c) = Ready_SnapshotActions ready ∧
           Ready_Messages (pendingReady c) = Ready_Messages ready ∧
           SSR_State staged = durable s' ∧ state_typed (durable s')
         else synced ready n'
       | None => synced ready n'
       end) n.
Proof.
  intros Hs Hr. pose proof (synced_phase _ _ Hs) as Hp.
  pose proof (onStore_wp ResultStage (StageSnapshotChunk r) (SStage r) n eq_refl Hp
    (conj Hr Logic.I) ltac:(done) ltac:(done)) as Hw.
  unfold tri, wp, catchRejected in *. destruct (onStore (StageSnapshotChunk r) n) as [[staged|e| |] n1];
    cbn [fst snd] in Hw |- *; destruct Hw as (s' & -> & Hp' & Hspec); simpl in Hspec; try done.
  - destruct (SSR_Done staged); [|by apply synced_store]. destruct Hspec as [He Hst].
    destruct Hs as (c & [_ Hc Hok _ _] & Hh & Ha & Hm). exists c, s'. split_and!; try done.
    destruct He as (snap & Hmt & Hz & _ & Hi).
    destruct (installRecoveredSnapshot_cases _ _ _ _ _ _ _ (store_wf _ (ph_store _ Hp)) Hz Hi)
      as (_ & Hhs & Hb & _). apply (recovered_typed MaxRaftSnapshotBytes).
    + apply (store_wf s' (ph_store _ Hp')).
    + rewrite Hhs. change (RS_HardState (durable (N_store n))) with (dhs n). rewrite <- Hh. apply (co_typed _ Hok).
    + by rewrite Hb.
  - destruct (error_is e ErrSnapshotRejected) eqn:He; simpl; [|done].
    apply synced_store; [|done|done]. by destruct Hspec as [|[? _]].
Qed.

Lemma executeSnapshotAction_tri ready (t : Z) (action : SnapshotAction) n :
  synced ready n → action ∈ Ready_SnapshotActions ready →
  tri (executeSnapshotAction sha256 t action)
    (λ m n', synced ready n' ∧ ballot_ok local (HardState_Term h) (HardState_VotedFor h) m) n.
Proof.
  intros Hs Hin. unfold executeSnapshotAction. apply tri_bind.
  eapply (tri_mono _ (λ _, synced ready)).
  { destruct (SA_Reset action); [by apply abort_tri|by apply tri_ret]. }
  clear n Hs. intros [] n Hs. case_bool_decide as Hk.
  { apply tri_bind. eapply tri_mono; [by apply abort_tri|]. intros [] n'. apply rejected_tri. }
  assert (SA_Kind action = SnapshotActionStage) as Hstage by (by destruct (SA_Kind action)).
  apply tri_bind. eapply tri_mono.
  { apply stage_tri; [done|]. destruct Hs as (c & [_ _ Hok _ _] & _ & Ha & _).
    apply (ct_staged _ (co_typed _ Hok)); [by rewrite Ha|done]. }
  intros [staged|] n'; [|apply rejected_tri]. simpl. intros HQ. apply tri_get. cbv zeta.
  destruct (SSR_Done staged) eqn:Hdone.
  2:{ apply complete_unchanged_tri; [done|unfold result_typed; simpl; ulia|done]. }
  destruct HQ as (c & s' & -> & Hp & Hc & Hok & Ha & Hm & Hst & Hty).
  destruct (RS_Snapshot (SSR_State staged)) as [snap|]; [|by apply tri_throw].
  apply tri_bind, tri_lift; [done|]. intros [] _. apply tri_bind, tri_neutral; [solve_neutral|done|].
  intros [] n1 _ Hs1. pose proof (phase_same _ _ Hs1 Hp) as Hp1.
  apply tri_bind, tri_neutral; [solve_neutral|done|]. intros [] n2 _ Hs2.
  pose proof (same_trans _ _ _ Hs1 Hs2) as Hs12. pose proof (phase_same _ _ Hs12 Hp) as Hp2. destruct Hs12.
  apply tri_bind, tri_modify. simpl in *.
  eapply (complete_installed_tri ready _ _ action _ _ c); simpl; try done; try congruence; unfold dhs; simpl;
    rewrite ?sm_store0, ?Hst; try done. by destruct Hp2.
Qed.

(** ** Draining *)

Lemma tri_forEach {X} (l : list X) (f : X → NodeM unit) (P : NodeT → Prop) n :
  (∀ x n, x ∈ l → P n → tri (f x) (λ _, P) n) → P n → tri (forEach l f) (λ _, P) n.
Proof.
  revert n. induction l as [|x l IH]; intros n Hf Hn; simpl; [by apply tri_ret|].
  apply tri_bind. eapply tri_mono; [apply Hf; [left|done]|]. intros [] n' Hn'. apply IH; [|done].
  intros y n'' Hy. apply Hf. by right.
Qed.

(** Nothing is pending and the core and the store agree on the hard state. *)
Definition settled n : Prop := ∃ c, running n c ∧ hasPending c = false ∧ hardState c = dhs n.

(** The state at the head of the drain loop. *)
Definition atHead n : Prop := ∃ c, running n c ∧ (hasPending c = true ∨ hardState c = dhs n).

Lemma settled_phase n : settled n → phase n.
Proof. intros (c & [] & _). done. Qed.
Lemma settled_same n n' : same n n' → settled n → settled n'.
Proof.
  intros Hs (c & Hr & Hp & Hh). exists c. split_and!; [by eapply running_same|done|].
  unfold dhs. by rewrite (sm_store _ _ Hs).
Qed.
Lemma settled_atHead n : settled n → atHead n.
Proof. intros (c & Hr & _ & Hh). exists c. auto. Qed.

Lemma atHead_phase n : atHead n → phase n.
Proof. intros (c & [] & _). done. Qed.
Lemma atHead_same n n' : same n n' → atHead n → atHead n'.
Proof.
  intros Hs (c & Hr & Hor). exists c. split; [by eapply running_same|].
  unfold dhs. by rewrite (sm_store _ _ Hs).
Qed.

Lemma synced_ballot ready n (m : PeerMessage) :
  synced ready n → m ∈ Ready_Messages ready → ballot_ok local (HardState_Term h) (HardState_VotedFor h) m.
Proof.
  intros (c & [_ _ Hok _ _] & _ & _ & Hm) Hin. destruct Hok as [Hinv _ Hl _ Ht Hv _].
  pose proof (ci_messages _ Hinv) as Hb. rewrite Hm, Hl, Ht, Hv, Forall_forall in Hb. by apply Hb.
Qed.

Lemma advance_tri ready (t : Z) n : synced ready n → tri (onCore (Advance t)) (λ _, settled) n.
Proof.
  intros (c & [Hp Hc Hok Hhard Hbase] & Hh & _ & _). eapply tri_core; [done..|]. intros [] c' Ha Hp'.
  destruct (Advance_spec _ _ _ _ (co_inv _ Hok) Ha) as (Hpend & Hhs & Hv).
  pose proof (Advance_safe t c (co_inv _ Hok)) as (_ & Hi & [Hl Hvs _ Hlog _ _]).
  pose proof (Advance_typed t c (co_typed _ Hok)) as Ht. rewrite Ha in *. simpl in *.
  exists c'. split_and!; [|done|by rewrite Hhs]. split; simpl; try done.
  - eapply core_ok_keep, Hok; try done; rewrite ?Hhs, ?Hv; auto.
  - destruct Hlog. lia.
Qed.

Lemma processReady_tri (r : Ready) n (c : Core) :
  running n c → pendingReady c = r → tri (processReady sha256 r) (λ _, settled) n.
Proof.
  intros Hrun Hr. unfold processReady. pose proof (ru_phase _ _ Hrun) as Hp. apply tri_bind, tri_neutral.
  { apply validateReadyAndDerive_neutral. } { done. }
  intros [b d] n1 Hv _. destruct (validateReadyAndDerive_spec _ _ _ _ _ _ (ru_get _ _ Hrun) Hv)
    as (-> & -> & Hd & Hdef). clear Hv.
  apply tri_bind. eapply tri_mono; [by eapply persist_tri|]. clear n Hrun Hp Hdef. intros [] n Hs. simpl in Hs.
  apply tri_bind. eapply tri_mono.
  { apply (tri_forEach _ _ (synced r)); [|done]. intros action n1 Hin Hs1. apply tri_bind.
    eapply tri_mono; [by apply executeSnapshotAction_tri|]. intros m n2 [Hs2 Hb]. by apply handoff_tri. }
  clear n Hs. intros [] n Hs. apply tri_bind. eapply tri_mono.
  { apply (tri_forEach _ _ (synced r)); [|done]. intros m n1 Hin Hs1. apply handoff_tri; [done|].
    by eapply synced_ballot. }
  clear n Hs. intros [] n Hs.
  do 3 (apply tri_bind, tri_neutral; [solve_neutral|by eapply synced_phase|];
    let n1 := fresh "n" in intros ? n1 _ Hsame; apply (synced_same _ _ _ Hsame) in Hs; clear Hsame).
  by eapply advance_tri.
Qed.

(** An operation of the core that keeps its term and its vote. *)
Lemma steady_tri {R} (m : M Core error R) n :
  (∀ c, steady m c) → typed m → atHead n → tri (onCore m) (λ _, atHead) n.
Proof.
  intros Hst Hty (c & [Hp Hc Hok Hhard Hbase] & Hor). eapply tri_core; [done..|]. intros a c' Hm Hp'.
  pose proof (Hst c (co_inv _ Hok)) as (_ & Hi & [Hle _ Ht Hv Hvs]).
  pose proof (Hty c (co_typed _ Hok)) as Htc. rewrite Hm in *. simpl in *. exists c'. split.
  - split; simpl; try done.
    + eapply core_ok_keep, Hok; try done; [apply Hle|apply Hle|rewrite Hvs; auto].
    + destruct (le_log _ _ _ Hle). lia.
  - destruct (hasPending c') eqn:Hpend; [by left|right]. unfold dhs in *; simpl.
    destruct (le_changed _ _ _ Hle) as [->|Hrec].
    + destruct Hor as [Hpc|]; [|done]. apply (le_pending _ _ _ Hle) in Hpc. congruence.
    + by rewrite (ci_idle _ Hi Hpend) in Hrec.
Qed.

Lemma coreReady_tri n :
  atHead n →
  tri (onCore Core_Ready) (λ r n', match r with
    | Some r => ∃ c, running n' c ∧ pendingReady c = r
    | None => settled n' ∨ (phase n' ∧ ∃ c, N_core n' = Some c ∧ terminalErr c ≠ None)
    end) n.
Proof.
  intros (c & [Hp Hc Hok Hhard Hbase] & Hor). eapply tri_core; [done..|]. intros r c' Hr Hp'.
  pose proof (Core_Ready_spec c) as Hspec. pose proof (Core_Ready_safe c (co_inv _ Hok)) as (_ & Hi & Hle).
  pose proof (Core_Ready_typed c (co_typed _ Hok)) as Ht. rewrite Hr in *. simpl in *.
  destruct r as [r|].
  - destruct Hspec as (_ & _ & Hpr & Hh & Hv). exists c'. split; [|done]. split; simpl; try done.
    + eapply core_ok_keep, Hok; try done; [apply Hle|apply Hle|rewrite Hh|rewrite Hh|rewrite Hv]; auto.
    + destruct (le_log _ _ _ Hle). lia.
  - destruct Hspec as [[Hpend ->]|Hterm]; [left|right; split; [done|by exists c']].
    exists c. split; [by split|]. split; [done|]. destruct Hor as [Hor|]; [congruence|done].
Qed.

Lemma maybeStartSnapshotTransfer_tri n :
  settled n → tri maybeStartSnapshotTransfer (λ started n', if started then atHead n' else settled n') n.
Proof.
  intros Hs. pose proof (settled_phase _ Hs) as Hp. apply tri_get, tri_bind, tri_theCore; [done|]. intros c _.
  case_goal; [by apply tri_ret|]. destruct (List.find _ _) as [peer|]; [|by apply tri_ret].
  apply tri_bind. eapply (tri_mono _ (λ _, atHead)); [|by intros [] n' Hn'; apply tri_ret].
  unfold startTransferTo. apply tri_get, tri_bind, tri_theCore; [done|]. intros c' _. cbv zeta.
  destruct (RS_Snapshot _) as [snapshot|]; [|by apply tri_throw]. case_goal; [by apply tri_throw|].
  case_goal; [by apply tri_throw|]. apply tri_bind, tri_neutral; [|done|].
  { intros n1. pose proof (neutral_onIDs (NextTransferID peer) n1) as Hn.
    by destruct (onIDs (NextTransferID peer) n1) as [[] ?]. }
  intros id n1 _ Hs1. apply (settled_same _ _ Hs1) in Hs. case_goal; [by apply tri_throw, settled_phase|].
  apply steady_tri; [|apply StartSnapshotTransfer_typed|by apply settled_atHead].
  intros c1. apply StartSnapshotTransfer_steady.
Qed.

Lemma settled_store n (s' : S) :
  durable s' = durable (N_store n) → phase (n <| N_store := s' |>) → settled n →
  settled (n <| N_store := s' |>).
Proof.
  intros Hd Hp (c & [_ Hc Hok Hhard Hbase] & Hpend & Hh). exists c. unfold dhs in *. simpl.
  split_and!; [|done|congruence]. split; simpl; try done; unfold dhs; simpl; congruence.
Qed.

Lemma settled_capture (m : SnapshotMetadata) (cap : SnapshotCapture) n :
  metadata_typed m → settled n →
  settled (n <| N_captureInFlight := true |> <| N_capture := Some (m, cap) |>).
Proof.
  intros Hm (c & [Hp Hc Hok Hhard Hbase] & Hpend & Hh). exists c. split_and!; [|done|done].
  split; try done. destruct Hp. split; try done. by intros ? ? [= <- _].
Qed.

Lemma maybeStartSnapshotCapture_tri n : settled n → tri maybeStartSnapshotCapture (λ _, settled) n.
Proof.
  intros Hs. pose proof (settled_phase _ Hs) as Hp. apply tri_get, tri_bind, tri_theCore; [done|]. intros c Hc.
  destruct (N_captureInFlight n); [by apply tri_ret|]. cbv zeta. case_goal; [by apply tri_throw|].
  case_goal; [by apply tri_ret|]. apply tri_bind.
  eapply (onStore_tri ResultBytes _ SRetained); try done. intros retained s' Hp' Hspec.
  assert (settled (n <| N_store := s' |>)) as Hs' by (by apply settled_store).
  case_goal; [by apply tri_ret|]. apply tri_bind, tri_lift; [done|]. intros t Ht.
  assert (is_u64 (appliedIndex (log c)) ∧ is_u64 t) as [Hat Htt].
  { destruct Hs as (c' & [_ Hc' Hok _ _] & _). assert (c' = c) as -> by congruence. split.
    - destruct (ci_log _ (co_inv _ Hok)). ulia.
    - eapply Log_Term_typed, Ht. apply (co_typed _ Hok). }
  apply tri_bind, tri_neutral; [solve_neutral|done|]. intros cap n1 Hcap Hs1.
  apply (settled_same _ _ Hs1) in Hs'. apply settled_phase in Hs' as Hp1.
  destruct cap as [cap|]; [|by apply tri_throw]. case_goal; [by apply tri_throw|].
  apply tri_bind, tri_modify, tri_ret, settled_capture; [|done]. split_and!; [done|done|].
  revert Hcap. unfold onApp, zoom. simpl. destruct (Capture _ _ _) as [o a'] eqn:Hcapture. intros [= -> _].
  by eapply capture_typed.
Qed.

Lemma drainLoop_tri (fuel : nat) n : atHead n → tri (drainLoop sha256 fuel) (λ _, settled) n.
Proof.
  revert n. induction fuel as [|fuel IH]; intros n Hn; simpl.
  { destruct Hn as (c & [] & _). by apply tri_lift. }
  apply tri_bind. eapply tri_mono; [by apply coreReady_tri|]. clear n Hn. intros [r|] n Hn.
  - destruct Hn as (c & Hrun & Hr). apply tri_bind. eapply tri_mono; [by eapply processReady_tri|].
    clear n c Hrun Hr. intros [] n Hs. apply tri_bind, tri_neutral; [apply ctxDone_neutral|by apply settled_phase|].
    intros cancelled n1 _ Hs1. apply (settled_same _ _ Hs1) in Hs. destruct cancelled; [by apply tri_ret|].
    by apply IH, settled_atHead.
  - assert (phase n) as Hp by (destruct Hn as [|[]]; [by apply settled_phase|done]).
    apply tri_bind, tri_theCore; [done|]. intros c Hc. destruct (terminalErr c) eqn:Ht; [by apply tri_throw|].
    assert (settled n) as Hs by (destruct Hn as [|(_ & c' & Hc' & ?)]; [done|congruence]).
    apply tri_bind. eapply tri_mono; [by apply maybeStartSnapshotTransfer_tri|].
    intros [] n1 Hn1; simpl in Hn1; [by apply IH|]. apply tri_bind.
    eapply tri_mono; [by apply maybeStartSnapshotCapture_tri|]. intros b n2 Hn2. by apply tri_ret.
Qed.

Lemma drainReady_tri n : atHead n → tri (drainReady sha256) (λ _, settled) n.
Proof. intros Hn. apply tri_get. by apply drainLoop_tri. Qed.

(** ** A finished capture *)

Lemma finishSnapshotCapture_tri (result : snapshotCaptureResult) n :
  atHead n → (∀ s, SCR_result result = Ok s → metadata_typed (Snapshot_Metadata s)) →
  tri (finishSnapshotCapture sha256 result) (λ _, atHead) n.
Proof.
  intros Hs Hty. pose proof (atHead_phase _ Hs) as Hp. unfold finishSnapshotCapture.
  apply tri_get, tri_bind, tri_theCore; [done|]. intros c Hc. cbv zeta.
  case_goal; [by apply tri_throw|]. apply tri_bind, tri_modify.
  set (n1 := n <| N_captureInFlight := false |>).
  assert (atHead n1) as Hs1 by (eapply atHead_same, Hs; by split). apply atHead_phase in Hs1 as Hp1.
  apply tri_bind, tri_lift; [done|]. intros snapshot Hsnap. specialize (Hty _ Hsnap).
  case_goal; [by apply tri_ret|]. case_goal; [by apply tri_throw|].
  apply tri_bind, tri_lift; [done|]. intros d Hd. apply compactRecoveredState_hard in Hd as [Hdh _].
  destruct Hs1 as (c1 & [_ Hc1 Hok Hhard Hbase] & Hor).
  assert (c1 = c) as -> by (simpl in Hc1; congruence). bool_hyps.
  apply tri_bind. eapply (onStore_tri (λ _, ResultUnit) _ (SPersistSnapshot snapshot)); try done.
  { split; [done|]. simpl in *. lia. }
  intros [] s' Hp' Hspec. apply compactRecoveredState_hard in Hspec as [Hsh Hsb].
  apply tri_bind. eapply tri_core; [done|done|]. intros [] c' Hcompact Hpc. apply tri_modify.
  destruct (CompactSnapshot_spec _ _ _ _ (ci_log _ (co_inv _ Hok)) Hcompact) as (Hpend & Hidx & Hhc).
  pose proof (CompactSnapshot_steady (Snapshot_Metadata snapshot) c (co_inv _ Hok)) as (_ & Hi & [Hle _ Ht Hv Hvs]).
  pose proof (CompactSnapshot_typed (Snapshot_Metadata snapshot) (proj1 Hty) (proj1 (proj2 Hty)) c (co_typed _ Hok)) as Hct.
  rewrite Hcompact in *. simpl in *. exists c'. split.
  - split; simpl; try done; [by destruct Hpc| |unfold dhs in *; simpl in *; congruence|].
    + eapply core_ok_keep, Hok; try done; [apply Hle|apply Hle|rewrite Hvs; auto].
    + rewrite Hidx. destruct Hsb as [->| ->]; lia.
  - right. destruct Hor as [|Hh]; [congruence|]. unfold dhs in *. simpl in *. congruence.
Qed.

End phase.

(** ** Between events *)

(** [W r t] says that the vote of [r] in term [t] may be counted.  A node between
    two events is at the head of its drain loop. *)
Definition node_ok (W : Z → Z → Prop) n : Prop :=
  ∃ c, running n (hardState c) (λ r, W r (term_of c)) n c ∧
    (hasPending c = true ∨ hardState c = dhs n).

(** What an event does to the durable state and to the transport: the durable
    term and vote only move forward, and each message handed over respects the
    durable term and vote at the end. *)
Record moved n n' : Prop := {
  mv_options : N_options n' = N_options n;
  mv_store : store_ok (N_store n');
  mv_limit : SnapshotLimit (N_store n') ≤ MaxRaftSnapshotBytes;
  mv_typed : durable_typed (durable (N_store n'));
  mv_vote : vote_le (dhs n) (dhs n');
  mv_handed : ∃ ms, N_handed n' = N_handed n ++ ms ∧
    Forall (ballot_ok local (HardState_Term (dhs n')) (HardState_VotedFor (dhs n'))) ms
}.

Definition grow (W : Z → Z → Prop) (X : gset (Z * Z)) (r t : Z) : Prop := W r t ∨ (r, t) ∈ X.

Lemma phase_moved (h : HardState) n n' : phase n h n' → moved n n'.
Proof.
  intros [Ho _ _ Hs Hl Ht Hlow Hhigh (ms & Hms & Hb & Hor)]. split; try done. exists ms. split; [done|].
  destruct Hor as [->|Hle]; [done|]. by destruct (vote_le_antisym _ _ Hhigh Hle) as [-> ->].
Qed.

(** Later phases start where an earlier one ended. *)
Lemma phase_rebase n0 (h : HardState) n : phase n0 h n → phase n h n.
Proof. intros []. split; try done. exists []. rewrite app_nil_r. auto. Qed.

Lemma phase_base n1 n0 (h : HardState) n : same n1 n0 → phase n0 h n → phase n1 h n.
Proof.
  intros [Ho Hev _ Hs Hh _ _] []. unfold dhs in *. rewrite ?Ho, ?Hev, ?Hs, ?Hh in *. by split.
Qed.

Lemma atHead_base n1 n0 (h : HardState) (V : Z → Prop) n :
  same n1 n0 → atHead n0 h V n → atHead n1 h V n.
Proof.
  intros Hs (c & [Hp Hc Hok Hh Hb] & Hor). exists c. split; [|done]. split; try done. by eapply phase_base.
Qed.

Lemma head_node_ok (W : Z → Z → Prop) n0 (h : HardState) n :
  atHead n0 h (λ r, W r (HardState_Term h)) n → node_ok W n ∧ N_events n = N_events n0.
Proof.
  intros (c & [Hp Hc Hok Hh Hb] & Hor). split; [|by destruct Hp]. exists c. split; [|done].
  destruct Hok as [Hi Hty Hl Hv Ht Hvt Hvs].
  assert (vote_le h (hardState c) ∧ vote_le (hardState c) h) as [Hle Hge] by (unfold vote_le; lia).
  split; try done.
  - destruct (phase_rebase _ _ _ Hp) as [? ? ? ? ? ? ? Hhigh (ms & Hms & Hball & _)]. split; try done.
    + by etransitivity.
    + exists []. rewrite app_nil_r. auto.
  - split; try done. by rewrite Ht.
Qed.

Lemma same_node_ok (W : Z → Z → Prop) n n' : same n n' → node_ok W n → node_ok W n'.
Proof.
  intros Hs (c & Hr & Hor). apply (running_same _ _ _ _ _ _ Hs) in Hr.
  exists c. destruct Hr as [Hp Hc Hok Hh Hb]. unfold dhs in *. rewrite (sm_store _ _ Hs). split; [|done].
  split; try done. eapply phase_base; [by apply same_sym|done].
Qed.

(** Nodes that agree on the store and on the messages. *)
Record agree n n' : Prop := {
  ag_options : N_options n' = N_options n;
  ag_store : N_store n' = N_store n;
  ag_handed : N_handed n' = N_handed n
}.

Lemma same_agree n n' : same n n' → agree n n'.
Proof. intros []. by split. Qed.

Lemma same_moved n n1 n' : same n n1 → moved n1 n' → moved n n'.
Proof.
  intros [Ho _ _ Hs Hh _ _] []. unfold dhs in *. rewrite ?Ho, ?Hs, ?Hh in *. by split.
Qed.

Lemma moved_agree n n1 n' : moved n n1 → agree n1 n' → moved n n'.
Proof.
  intros [] [Ho Hs Hh]. unfold dhs in *. split; unfold dhs; rewrite ?Ho, ?Hs, ?Hh; done.
Qed.

Lemma moved_same n n1 n' : moved n n1 → same n1 n' → moved n n'.
Proof. intros Hm Hs. eapply moved_agree, same_agree; done. Qed.

Lemma node_ok_moved (W : Z → Z → Prop) n : node_ok W n → moved n n.
Proof. intros (c & [Hp _ _ _ _] & _). by eapply phase_moved. Qed.

(** A step of the core between events. *)
Lemma core_step {R} (m : M Core error R) (W : Z → Z → Prop) (X : gset (Z * Z)) n :
  node_ok W n →
  (∀ c, localID c = local → keeps core_inv (core_le X) m c) → typed m →
  ∃ c, N_core n = Some c ∧
    let c' := (m c).2 in
    atHead n (hardState c') (λ r, grow W X r (term_of c'))
      (n <| N_core := Some c' |>).
Proof.
  intros (c & [Hp Hc Hok Hh Hb] & Hor) Hm Hty. exists c. split; [done|]. cbv zeta.
  destruct Hok as [Hi Ht Hl Hv _ _ Hvs].
  destruct (Hm c Hl Hi) as (_ & Hi' & Hle). pose proof (Hty c Ht) as Ht'. set (c' := (m c).2) in *.
  exists c'. split.
  - split; simpl; try done.
    + destruct Hp as [Ho Hev Hcap Hs Hlim Htyp Hlow Hhigh Hhd]. split; try done.
      * etransitivity; [apply Hhigh|]. apply (le_hard _ _ _ Hle).
      * exists []. rewrite app_nil_r. auto.
    + split; try done; [rewrite (le_local _ _ _ Hle); done|rewrite (le_voters _ _ _ Hle); done|].
      intros r Hr. destruct (le_votes _ _ _ Hle r Hr) as [->|[[Hr' ->]|HX]]; [by left| |right; by right].
      destruct (Hvs r Hr') as [|HW]; [by left|right; by left].
    + destruct (le_log _ _ _ Hle). lia.
  - unfold dhs in *. simpl. destruct (hasPending c') eqn:Hpend; [by left|right].
    destruct (le_changed _ _ _ Hle) as [->|Hrec].
    + destruct Hor as [Hpc|]; [|done]. apply (le_pending _ _ _ Hle) in Hpc. congruence.
    + by rewrite (ci_idle _ Hi' Hpend) in Hrec.
Qed.

(** ** Handlers *)

(** The outcome of handling an event that started in [n]. *)
Definition handled (W : Z → Z → Prop) n {R} (goesOn : R → Prop) (o : outcome error R) n' : Prop :=
  moved n n' ∧ ∀ a, o = Ok a → goesOn a → node_ok W n' ∧ N_events n' = N_events n.

Abbreviation hwp W n goesOn m n1 := (wp m (handled W n goesOn) n1).

Section handlers.
Context {R : Type} (goesOn : R → Prop) (W : Z → Z → Prop).

Lemma hwp_neutral {B} (m : NodeM B) (k : B → NodeM R) n n1 :
  node_ok W n → same n n1 → neutral m → (∀ a n2, same n n2 → hwp W n goesOn (k a) n2) →
  hwp W n goesOn (bind m k) n1.
Proof.
  intros Hn Hs Hm Hk. unfold wp, bind. specialize (Hm n1).
  destruct (m n1) as [[a| | |] n2]; simpl in *; pose proof (same_trans _ _ _ Hs Hm) as Hs2;
    [by apply Hk|split; [|done]; eapply moved_same, Hs2; by eapply node_ok_moved..].
Qed.

Lemma hwp_done (m : NodeM R) n n1 :
  node_ok W n → same n n1 → neutral m → hwp W n goesOn m n1.
Proof.
  intros Hn Hs Hm. specialize (Hm n1). pose proof (same_trans _ _ _ Hs Hm) as Hs2. split.
  - eapply moved_same, Hs2. by eapply node_ok_moved.
  - intros a _ _. split; [by eapply same_node_ok|]. apply Hs2.
Qed.

(** The end of a handler: drain and then touch nothing of the contract. *)
Lemma hwp_drain (k : NodeM R) (h : HardState) n n1 :
  atHead n h (λ r, W r (HardState_Term h)) n1 → neutral k →
  hwp W n goesOn (drainReady sha256 ;;! k) n1.
Proof.
  intros Hh Hk. pose proof (drainReady_tri _ _ _ n1 Hh) as Ht. unfold tri, wp, bind in *.
  destruct (drainReady sha256 n1) as [[[]| | |] n2]; simpl in *;
    [|split; [by eapply phase_moved|done]..].
  specialize (Hk n2). destruct (k n2) as [o n3]. simpl in *. split.
  - eapply moved_same, Hk. by eapply phase_moved, settled_phase.
  - intros a _ _. rewrite (sm_events _ _ Hk). apply settled_atHead, head_node_ok in Ht as [Hok Hev].
    split; [|done]. by eapply same_node_ok.
Qed.

(** A handler that goes on without draining. *)
Lemma hwp_rest (k : NodeM R) (h : HardState) n n1 :
  atHead n h (λ r, W r (HardState_Term h)) n1 → neutral k →
  hwp W n goesOn k n1.
Proof.
  intros Hh Hk. specialize (Hk n1). split.
  - eapply moved_same, Hk. by eapply phase_moved, atHead_phase.
  - intros a _ _. rewrite (sm_events _ _ Hk). apply head_node_ok in Hh as [Hok Hev].
    split; [|done]. by eapply same_node_ok.
Qed.
End handlers.

Abbreviation continues := (λ r : loopResult, r = Continue).

Lemma unlessDone_hwp (W : Z → Z → Prop) (cleanup : NodeM unit) (k : NodeM loopResult) n n1 :
  node_ok W n → same n n1 → neutral cleanup → (∀ n2, same n n2 → hwp W n continues k n2) →
  hwp W n continues (unlessDone cleanup k) n1.
Proof.
  intros Hn Hs Hc Hk. apply hwp_neutral; [done|done|apply ctxDone_neutral|]. intros [] n2 Hs2; [|by apply Hk].
  apply hwp_done; [done|done|]. apply neutral_bind; [done|]. intros _. apply neutral_ret.
Qed.

Lemma node_ok_grow (W : Z → Z → Prop) (X : gset (Z * Z)) n : node_ok W n → node_ok (grow W X) n.
Proof.
  intros (c & [Hp Hc Hok Hh Hb] & Hor). exists c. split; [|done]. split; try done.
  destruct Hok as [? ? ? ? ? ? Hv]. split; try done. intros r Hr. destruct (Hv r Hr); [by left|].
  right. by left.
Qed.

(** A step of the core on the way through a handler that started in [n]. *)
Lemma core_step_same {R} (m : M Core error R) (W : Z → Z → Prop) (X : gset (Z * Z)) n n1 :
  node_ok W n → same n n1 →
  (∀ c, localID c = local → keeps core_inv (core_le X) m c) → typed m →
  ∃ c, N_core n1 = Some c ∧
    let c' := (m c).2 in
    atHead n (hardState c') (λ r, grow W X r (term_of c'))
      (n1 <| N_core := Some c' |>).
Proof.
  intros Hn Hs Hm Hty. destruct (core_step m W X n1 (same_node_ok _ _ _ Hs Hn) Hm Hty) as (c & Hc & Hh).
  exists c. split; [done|]. by eapply atHead_base.
Qed.

Lemma hwp_core {B} (W : Z → Z → Prop) (m : M Core error B) (k : B → NodeM loopResult) n n1 (c : Core) :
  N_core n1 = Some c →
  (let n2 := n1 <| N_core := Some (m c).2 |> in
   moved n n2 ∧ ∀ a, (m c).1 = Ok a → hwp W n continues (k a) n2) →
  hwp W n continues (bind (onCore m) k) n1.
Proof.
  intros Hc. unfold wp, handled, bind, onCore. rewrite Hc.
  destruct (m c) as [[a| | |] c']; simpl; intros [Hm Hk]; [by apply Hk|by split..].
Qed.

Lemma hwp_try {B} (W : Z → Z → Prop) (m : M Core error B) (k : error + B → NodeM loopResult) n n1 (c : Core) :
  N_core n1 = Some c →
  (let n2 := n1 <| N_core := Some (m c).2 |> in
   moved n n2 ∧ ∀ r, hwp W n continues (k r) n2) →
  hwp W n continues (bind (tryCore m) k) n1.
Proof.
  intros Hc. unfold wp, handled, bind, tryCore, onCore. rewrite Hc.
  destruct (m c) as [[a| | |] c']; simpl; intros [Hm Hk]; [by apply Hk|by apply Hk|by split..].
Qed.

Lemma handleTimer_hwp (W : Z → Z → Prop) (clock : Z) n :
  node_ok W n → hwp (grow W ∅) n continues (handleTimer sha256 clock) n.
Proof.
  intros Hn. pose proof (node_ok_grow W ∅ n Hn) as Hg.
  apply unlessDone_hwp; [done|apply same_refl|apply neutral_ret|]. intros n1 Hs1.
  apply hwp_neutral; [done|done|apply logicalNow_neutral|]. intros t n2 Hs2.
  apply unlessDone_hwp; [done|done|apply neutral_ret|]. intros n3 Hs3.
  destruct (core_step_same (Tick t) W ∅ n n3 Hn Hs3) as (c & Hc & Hh).
  { intros c _. apply Tick_safe. } { apply Tick_typed. }
  apply (hwp_core _ _ _ _ _ _ Hc). split; [by eapply phase_moved, atHead_phase|]. intros [] _.
  apply (hwp_drain _ _ _ _ _ _ Hh). solve_neutral.
Qed.

Definition rpc_votes (rpc : interfaceRPC) : gset (Z * Z) := op_votes local (OpStep 0 rpc).

Lemma handleRPC_hwp (W : Z → Z → Prop) (response senderID : Z) (rpc : interfaceRPC) (requestDone : bool)
    (clock : Z) n :
  node_ok W n → (∀ m, normalizeRPC rpc = Some m → rpc_typed m) →
  hwp (grow W (rpc_votes rpc)) n continues (handleRPC sha256 response senderID rpc requestDone clock) n.
Proof.
  intros Hn Hty. pose proof (node_ok_grow W (rpc_votes rpc) n Hn) as Hg. unfold handleRPC.
  apply unlessDone_hwp; [done|apply same_refl|apply sendReply_neutral|]. intros n1 Hs1.
  destruct requestDone; [apply hwp_done; [done..|solve_neutral]|].
  apply unlessDone_hwp; [done|done|apply sendReply_neutral|]. intros n2 Hs2.
  destruct (core_step_same (Step senderID rpc) W (rpc_votes rpc) n n2 Hn Hs2) as (c & Hc & Hh).
  { intros c Hl. unfold rpc_votes. rewrite <- Hl. exact (Step_grows senderID rpc c). } { by apply Step_typed. }
  apply (hwp_try _ _ _ _ _ _ Hc). split; [by eapply phase_moved, atHead_phase|]. intros [e|[]].
  2: { apply (hwp_drain _ _ _ _ _ _ Hh). solve_neutral. }
  destruct (fatalCoreError e); [split; [by eapply phase_moved, atHead_phase|done]|].
  apply (hwp_rest _ _ _ _ _ _ Hh). solve_neutral.
Qed.

Lemma handleLocal_hwp (W : Z → Z → Prop) (response : Z) (kind : EntryKind) (command : list byte)
    (requestDone : bool) (clock : Z) n :
  node_ok W n → hwp (grow W ∅) n continues (handleLocal sha256 response kind command requestDone clock) n.
Proof.
  intros Hn. pose proof (node_ok_grow W ∅ n Hn) as Hg. unfold handleLocal. cbv zeta.
  apply unlessDone_hwp; [done|apply same_refl|solve_neutral|]. intros n1 Hs1.
  destruct requestDone; [apply hwp_done; [done..|solve_neutral]|].
  apply unlessDone_hwp; [done|done|solve_neutral|]. intros n2 Hs2.
  destruct (core_step_same (proposeTracked kind command) W ∅ n n2 Hn Hs2) as (c & Hc & Hh).
  { intros c _. apply proposeTracked_safe. } { apply proposeTracked_typed. }
  apply (hwp_try _ _ _ _ _ _ Hc). split; [by eapply phase_moved, atHead_phase|]. intros [e|[id entry]].
  - apply (hwp_rest _ _ _ _ _ _ Hh). solve_neutral.
  - apply wp_modify. eapply hwp_drain; [|solve_neutral]. eapply atHead_same, Hh. by split.
Qed.

Lemma handleSubscribe_hwp (W : Z → Z → Prop) (response capacity : Z) (requestDone : bool) n :
  node_ok W n → hwp W n continues (handleSubscribe response capacity requestDone) n.
Proof.
  intros Hn. unfold handleSubscribe. cbv zeta.
  apply unlessDone_hwp; [done|apply same_refl|solve_neutral|]. intros n1 Hs1.
  destruct requestDone; [apply hwp_done; [done..|solve_neutral]|].
  apply unlessDone_hwp; [done|done|solve_neutral|]. intros n2 Hs2. apply hwp_done; [done|done|].
  intros n3. pose proof (addLeadershipSubscription_neutral capacity n3) as Ha.
  destruct (addLeadershipSubscription capacity n3) as [[id|e| |] n4]; try done;
    (eapply same_trans; [exact Ha|by split]).
Qed.

Lemma captureResult_hwp (W : Z → Z → Prop) (result : snapshotCaptureResult) n n1 :
  node_ok W n → same n n1 → (∀ s, SCR_result result = Ok s → metadata_typed (Snapshot_Metadata s)) →
  hwp W n continues (finishSnapshotCapture sha256 result ;;! drainReady sha256 ;;! publishStatus ;;!
                     ret Continue) n1.
Proof.
  intros Hn Hs Hty. destruct Hn as (c & Hr & Hor).
  assert (atHead n (hardState c) (λ r, W r (term_of c)) n1) as Hh.
  { eapply atHead_same; [done|]. by exists c. }
  pose proof (finishSnapshotCapture_tri _ _ _ result n1 Hh Hty) as Ht. unfold tri in Ht.
  apply wp_bind. eapply wp_mono; [exact Ht|]. intros o n2 Ho. destruct o as [[]| | |]; simpl in *;
    [|split; [by eapply phase_moved|done]..].
  apply (hwp_drain _ _ _ _ _ _ Ho). solve_neutral.
Qed.

(** Events whose arguments are values of their Go types. *)
Definition event_typed (event : queuedEvent) : Prop :=
  match event with
  | inboundRPCEvent _ _ rpc => ∀ m, normalizeRPC rpc = Some m → rpc_typed m
  | captureResultEvent result => ∀ s, SCR_result result = Ok s → metadata_typed (Snapshot_Metadata s)
  | _ => True
  end.

(** The vote an event carries. *)
Definition event_votes (event : queuedEvent) : gset (Z * Z) :=
  match event with inboundRPCEvent _ _ rpc => rpc_votes rpc | _ => ∅ end.

Lemma handleEvent_hwp (W : Z → Z → Prop) (event : queuedEvent) (requestDone : bool) (clock : Z) n :
  node_ok W n → event_typed event →
  hwp (grow W (event_votes event)) n continues (handleEvent sha256 event requestDone clock) n.
Proof.
  intros Hn Hty. pose proof (node_ok_grow W (event_votes event) n Hn) as Hg. destruct event; simpl.
  - by apply handleRPC_hwp.
  - by apply handleLocal_hwp.
  - by apply handleSubscribe_hwp.
  - apply unlessDone_hwp; [done|apply same_refl|solve_neutral|]. intros n1 Hs1.
    apply hwp_done; [done|done|]. apply neutral_bind; [apply neutral_modify, terminate_same|solve_neutral].
  - apply unlessDone_hwp; [done|apply same_refl|solve_neutral|]. intros n1 Hs1. by apply captureResult_hwp.
Qed.

(** ** Stopping *)

Lemma Close_moved n n1 : moved n n1 → moved n (onStore Close n1).2.
Proof.
  intros [Ho Hs Hl Ht Hv Hh].
  destruct (store_law SClose (N_store n1) Hs (conj Logic.I Logic.I) ltac:(done)) as (Hs' & Hl' & Hspec).
  unfold onStore, zoom. simpl in *. unfold mapM, bind in *.
  destruct (Close (N_store n1)) as [o s']. simpl in *.
  assert (store_ok s' ∧ SnapshotLimit s' = SnapshotLimit (N_store n1) ∧ durable s' = durable (N_store n1))
    as (Hs1 & Hl1 & Hd1).
  { destruct o; simpl in *; try done; split_and!; try done. by destruct Hspec as [|[]]. }
  split; unfold dhs in *; simpl in *; rewrite ?Hl1, ?Hd1; done.
Qed.

Lemma agree_trans n1 n2 n3 : agree n1 n2 → agree n2 n3 → agree n1 n3.
Proof. intros [] []. split; congruence. Qed.

Lemma releasePendingReservations_agree n : agree n (releasePendingReservations n).2.
Proof.
  assert (∀ k n1, agree n1 (releaseMany k n1).2) as Hr by (intros k n1; apply same_agree, releaseMany_neutral).
  unfold releasePendingReservations. unfold bind at 1, get. unfold bind at 1.
  specialize (Hr (size (N_pendingLocal n)) n) as H1.
  destruct (releaseMany _ n) as [[[]| | |] n1]; simpl in *; try done.
  unfold bind at 1, modify at 1. set (n2 := n1 <| N_pendingLocal := ∅ |>).
  assert (agree n n2) as H2 by (eapply agree_trans; [done|by split]). unfold bind.
  specialize (Hr (length (List.filter isLocalRequest (N_events n))) n2) as H3.
  destruct (releaseMany _ n2) as [[[]| | |] n3]; simpl in *; (eapply agree_trans; [done|]); try done.
  eapply agree_trans; [done|by split].
Qed.

Lemma stopNode_moved (err : option error) n n1 : moved n n1 → moved n (stopNode err n1).2.
Proof.
  intros Hm. unfold stopNode. unfold bind at 1. simpl. unfold bind at 1.
  match goal with |- context [releasePendingReservations ?x] => set (n2 := x) end.
  assert (moved n n2) as H2 by (eapply moved_same; [done|by split]).
  pose proof (releasePendingReservations_agree n2) as Hr.
  destruct (releasePendingReservations n2) as [[[]| | |] n3]; simpl in *; try (by eapply moved_agree).
  unfold bind, modify.
  match goal with |- context [onStore Close ?x] => set (n4 := x) end.
  assert (moved n n4) as H4 by (eapply moved_same; [by eapply moved_agree|by split]).
  apply Close_moved in H4. by destruct (onStore Close n4) as [[] n5].
Qed.

(** What wakes the owner is typed. *)
Definition wake_typed (w : wake) n : Prop :=
  match w, N_events n with WakeEvent _, event :: _ => event_typed event | _, _ => True end.

Definition wake_votes (w : wake) n : gset (Z * Z) :=
  match w, N_events n with WakeEvent _, event :: _ => event_votes event | _, _ => ∅ end.

Abbreviation keepsRunning := (λ r : option (option error), r = None).

(** The queue is not part of the contract. *)
Lemma node_ok_events (W : Z → Z → Prop) (events : list queuedEvent) n :
  node_ok W n → node_ok W (n <| N_events := events |>).
Proof.
  intros (c & [Hp Hc Hok Hh Hb] & Hor). exists c. split; [|done]. split; try done. destruct Hp. by split.
Qed.

Lemma events_moved (events : list queuedEvent) n n' : moved (n <| N_events := events |>) n' → moved n n'.
Proof. intros []. by split. Qed.

(** The queue left by a wake-up. *)
Definition rest_events (w : wake) (events : list queuedEvent) : list queuedEvent :=
  match w with WakeDone | WakeTimer => events | WakeEvent _ => tail events end.

Lemma stop_handled (W : Z → Z → Prop) (err : option error) n n1 :
  moved n n1 →
  handled W n keepsRunning ((let! r := stopNode err in ret (Some r)) n1).1
    ((let! r := stopNode err in ret (Some r)) n1).2.
Proof.
  intros Hm. pose proof (stopNode_moved err _ _ Hm). unfold bind.
  destruct (stopNode err n1) as [[] n']; split; try done. by intros ? [= <-].
Qed.

(** A round of the loop: how it moves the node, and what holds if it goes on. *)
Definition round_ok (W : Z → Z → Prop) (w : wake) n (o : outcome error loopResult) n' : Prop :=
  moved n n' ∧
  (o = Ok Continue → node_ok (grow W (wake_votes w n)) n' ∧ N_events n' = rest_events w (N_events n)).

Lemma ownerRound_wp (W : Z → Z → Prop) (w : wake) (clock : Z) n :
  node_ok W n → wake_typed w n → wp (ownerRound sha256 w clock) (round_ok W w n) n.
Proof.
  intros Hn Hw. pose proof (ctxDone_neutral n) as Hs. pose proof (node_ok_moved _ _ Hn) as Hm.
  unfold ownerRound, unlessDone. apply wp_bind. unfold wp.
  destruct (ctxDone n) as [[[]| | |] n1]; cbn [on_ok fst snd] in *;
    try (split; [by eapply moved_same|done]).
  assert (N_events n1 = N_events n) as Hev by apply Hs.
  apply (same_node_ok _ _ _ Hs) in Hn. unfold round_ok, wake_votes, wake_typed, rest_events in *.
  destruct w as [| |requestDone].
  - split; [by eapply moved_same|done].
  - destruct (handleTimer_hwp W clock n1 Hn) as [Hm1 Hok]. rewrite <- Hev.
    split; [by eapply same_moved|]. intros Ho. by apply (Hok Continue).
  - unfold bind, get, put. rewrite Hev. destruct (N_events n) as [|event rest]; simpl.
    { split; [by eapply moved_same|]. intros _. split; [by apply node_ok_grow|done]. }
    destruct (handleEvent_hwp W event requestDone clock _ (node_ok_events W rest n1 Hn) Hw) as [Hm1 Hok].
    split; [by eapply same_moved, events_moved|]. intros Ho. by apply (Hok Continue).
Qed.

Lemma ownerStep_wp (W : Z → Z → Prop) (w : wake) (clock : Z) n :
  node_ok W n → wake_typed w n →
  wp (ownerStep sha256 w clock) (λ o n', moved n n' ∧
    (o = Ok None → node_ok (grow W (wake_votes w n)) n' ∧ N_events n' = rest_events w (N_events n))) n.
Proof.
  intros Hn Hw. pose proof (ownerRound_wp W w clock n Hn Hw) as Hr. unfold wp, ownerStep in *.
  destruct (ownerRound sha256 w clock n) as [[[|]|e| |] n']; destruct Hr as [Hm Hok]; simpl in *;
    try (split; [done|done]).
  - split; [done|]. intros _. by apply Hok.
  - destruct (stop_handled W None n n' Hm) as [Hm' _]. split; [done|].
    unfold bind. by destruct (stopNode None n') as [[] ?].
  - destruct (stop_handled W (Some e) n n' Hm) as [Hm' _]. split; [done|].
    unfold bind. by destruct (stopNode (Some e) n') as [[] ?].
Qed.

(** ** Starting *)

(** The options of a node are values of their Go types. *)
Record node_options_ok (o : NodeOptions) : Prop := {
  no_local : NO_LocalID o = local;
  no_voters : NO_Voters o = voterSet;
  no_wf : voters_wf voterSet;
  no_u16 : is_u16 local;
  no_min : 0 ≤ NO_ElectionTimeoutMin o;
  no_max : NO_ElectionTimeoutMax o ≤ max_uint64;
  no_entries : is_u16 (NO_MaxAppendEntries o);
  no_bytes : is_u64 (NO_MaxAppendBytes o);
  no_tape : ∀ tape, NO_Random o = Some tape → Forall is_u64 tape
}.

(** A node over an opened store. *)
Record opened n : Prop := {
  op_options : node_options_ok (N_options n);
  op_store : store_ok (N_store n);
  op_live : store_live (N_store n);
  op_limit : SnapshotLimit (N_store n) ≤ MaxRaftSnapshotBytes;
  op_durable : durable_typed (durable (N_store n));
  op_capture : N_capture n = None
}.

Definition no_votes : Z → Z → Prop := λ _ _, False.

Section start.
Context (n0 : NodeT) (Hopen : opened n0).
Abbreviation startPhase := (phase n0 (dhs n0)).
Abbreviation startSettled := (settled n0 (dhs n0) (λ _, False)).

Lemma opened_phase n : same n0 n → startPhase n.
Proof.
  intros Hs. eapply phase_same; [done|]. destruct Hopen. split; try done; try reflexivity.
  { intros m cap Hc. congruence. }
  exists []. rewrite app_nil_r. auto.
Qed.

(** The core built from the recovered state. *)
Lemma recovered_core (d : RecoveredState) (l : Log) (c : Core) :
  RS_HardState d = dhs n0 → RS_SnapshotBase d = RS_SnapshotBase (durable (N_store n0)) →
  RS_Entries d = RS_Entries (durable (N_store n0)) →
  let o := N_options n0 in let base := RS_SnapshotBase d in
  NewLog (LastIncludedIndex base) (LastIncludedTerm base) (HardState_CommitIndex (RS_HardState d))
    (LastIncludedIndex base) (RS_Entries d) = Ok l →
  NewCore (mkCoreOptions (NO_LocalID o) (NO_Voters o) (RS_HardState d) (Some l) (LastIncludedIndex base)
    (NO_ElectionTimeoutMin o) (NO_ElectionTimeoutMax o) (NO_HeartbeatInterval o) (NO_MaxAppendEntries o)
    (NO_MaxAppendBytes o) (NO_Random o)) = Ok c →
  core_ok (dhs n0) (λ _, False) c ∧ hasPending c = false ∧ hardState c = dhs n0 ∧
  snapshotIndex (log c) = LastIncludedIndex (RS_SnapshotBase (durable (N_store n0))).
Proof.
  intros Hh Hb He. cbv zeta. rewrite Hh, Hb, He. intros Hl Hc. destruct Hopen as [[] Hs _ _ [Hty Hm] _].
  pose proof (recovered_typed _ _ (store_wf _ Hs) Hty Hm) as (_ & Hi & Ht & Hes).
  pose proof (NewLog_wf _ _ _ _ _ _ Hi Hl) as [_ Hst]. unfold State in Hst. injection Hst as Hsi _ _ _ _.
  pose proof (NewLog_typed _ _ _ _ _ _ Hi Ht Hes Hl) as Hlt.
  pose proof Hc as Hct. apply NewCore_inv in Hc as (Hinv & Hhs & Hlocal & Hvoters & _ & Hvotes & _ & Hpend & Hsnap).
  2:{ split; simpl; try done; [by rewrite no_voters0|apply Hty|]. intros l' [= <-]. apply Hlt. }
  apply NewCore_typed with (l := l) in Hct; simpl; try done; [|by rewrite no_local0].
  simpl in *. split_and!; try done; [|by rewrite (Hsnap l eq_refl)].
  split; try done; try congruence. by rewrite Hvotes.
Qed.
(** Recovery marks the committed entries as applied. *)
Lemma advanceApplied_tri (commit : Z) n :
  startSettled n →
  tri n0 (dhs n0) (onCore (onLog (AdvanceApplied commit))) (λ _, startSettled) n.
Proof.
  intros (c & [Hp Hc Hok Hhard Hbase] & Hpend & Hh). eapply tri_core; [done..|]. intros [] c' Ha Hp'.
  pose proof (onLog_typed _ (AdvanceApplied_keeps commit) c (co_typed _ _ _ Hok)) as Hty.
  pose proof (ci_log _ (co_inv _ _ _ Hok)) as Hwf.
  pose proof (AdvanceApplied_safe (log c) commit Hwf) as [Hwf' [Hsnap _]].
  assert (commitIndex (AdvanceApplied commit (log c)).2 = commitIndex (log c)) as Hcom.
  { unfold AdvanceApplied, bind, get. repeat case_goal; done. }
  unfold onLog in *. destruct (AdvanceApplied commit (log c)) as [o l]. simplify_eq. simpl in *.
  exists (c <| log := l |>). split_and!; [|done|done]. split; simpl; try done; [|lia].
  destruct Hok as [Hinv ? ? ? ? ? ?]. split; try done. solve_inv. congruence.
Qed.

Lemma recoverPreparedState_tri n :
  same n0 n →
  tri n0 (dhs n0) (recoverPreparedState sha256) (λ _, startSettled) n.
Proof.
  intros Hs. pose proof (opened_phase n Hs) as Hp. unfold recoverPreparedState. apply tri_get.
  apply tri_bind. eapply (onStore_tri _ _ (λ _, False) ResultState _ SRecover); try done.
  { intros _. rewrite (sm_store _ _ Hs). apply Hopen. }
  intros d s' Hp' [-> Hd]. set (n1 := n <| N_store := s' |>).
  apply tri_bind, tri_lift; [done|]. intros [] _. cbv zeta.
  apply tri_bind. eapply tri_mono with (Q := (λ d n2, n2 = n1 ∧ RS_HardState d = dhs n0 ∧
    RS_SnapshotBase d = RS_SnapshotBase (durable (N_store n0)) ∧
    RS_Entries d = RS_Entries (durable (N_store n0)))%type).
  { unfold dhs. rewrite (sm_store _ _ Hs). destruct (RS_Snapshot _).
    - destruct (DecodeSnapshotEnvelope _ _ _ _); try done. case_goal; [done|]. by apply tri_ret.
    - case_goal; [done|]. by apply tri_ret. }
  intros d n2 (-> & Hh & Hb & He). rewrite (sm_store _ _ Hs), (sm_options _ _ Hs), <- Hb.
  apply tri_bind, tri_lift; [done|]. intros l Hl. apply tri_bind, tri_lift; [done|]. intros c Hc.
  destruct (recovered_core d l c Hh Hb He Hl Hc) as (Hok & Hpend & Hhs & Hsnap).
  apply tri_bind, tri_modify. set (n2 := n1 <| N_core := _ |> <| N_durableState := d |>).
  assert (settled n0 (dhs n0) (λ _, False) n2) as Hset.
  { assert (dhs n2 = dhs n0) as Hdhs by (unfold dhs; simpl; rewrite Hd, (sm_store _ _ Hs); done).
    exists c. split_and!; [|done|by rewrite Hdhs].
    split; simpl; try done; [by destruct Hp'|by rewrite Hdhs|]. rewrite Hd, (sm_store _ _ Hs), Hsnap. done. }
  clearbody n2. clear dependent n s' l c. 
  match goal with |- context [let (_, _) := ?p in _] => destruct p as [schema bytes] end.
  do 2 (apply tri_bind, tri_neutral; [solve_neutral|by eapply settled_phase|];
    let n1 := fresh "n" in intros ? n1 _ Hsame; apply (settled_same _ _ _ _ _ Hsame) in Hset; clear Hsame).
  apply tri_bind. eapply tri_mono; [by apply advanceApplied_tri|]. clear dependent n2 n n1. intros [] n Hset.
  apply tri_bind, tri_modify. assert (startSettled (n <| N_pendingLocal := ∅ |> <| N_subscribers := ∅ |>)) as Hset'.
  { eapply settled_same, Hset. by split. }
  apply tri_neutral; [solve_neutral|by eapply settled_phase|]. intros [] n3 _ Hsame. by eapply settled_same.
Qed.

Lemma startNode_hwp (clock : Z) : hwp no_votes n0 keepsRunning (startNode sha256 clock) n0.
Proof.
  assert (moved n0 n0) as Hrefl by (eapply phase_moved, opened_phase, same_refl).
  unfold startNode. apply wp_get. case_goal; [by split|]. apply wp_modify.
  set (n1 := n0 <| N_lifecycle := nodeLifecycleStarting |>).
  assert (same n0 n1) as Hs1 by (by split). apply wp_bind. pose proof (ctxDone_neutral n1) as Hs2.
  unfold wp. destruct (ctxDone n1) as [[[]| | |] n2]; simpl in *;
    pose proof (same_trans _ _ _ Hs1 Hs2) as Hs; [| |split; [by eapply moved_same|done]..].
  { apply stop_handled. by eapply moved_same. }
  pose proof (recoverPreparedState_tri n2 Hs) as Ht. unfold tri, wp in Ht.
  destruct (recoverPreparedState sha256 n2) as [[[]|e| |] n3]; simpl in *;
    [|by eapply stop_handled, phase_moved|split; [by eapply phase_moved|done]..].
  apply (hwp_rest keepsRunning no_votes _ (dhs n0) _ _ (settled_atHead _ _ _ _ Ht)). solve_neutral.
Qed.


End start.
End node_inv.

(** ** Main result *)

(** C3: The owner loop persists before it sends.  From a node between two events,
    one round of the loop, whatever its outcome (an I/O error of the store
    included), moves the durable term and vote only forward; each vote request
    and each granted vote that it hands to the transport is for the durable term
    and carries the durable vote; and when the node goes on, it is again between
    two events and has counted at most the vote of the event it handled. *)
Theorem node_persists_before_sending {S A T I : Type} (sha256 : list byte → list byte)
    (identity : StorageIdentity) (voterSet : VoterSet) (local : Z)
    `{!StableStore S} `{!StateMachine A} `{!Transport T} `{!TransferIDSource I}
    `{!StoreLaws sha256 identity voterSet S} `{!CaptureTyped A}
    (W : Z → Z → Prop) (w : wake) (clock : Z) (n n' : Node S A T I) (o : outcome error (option (option error))) :
  node_ok sha256 identity voterSet local W n → wake_typed w n →
  ownerStep sha256 w clock n = (o, n') →
  vote_le (RS_HardState (durable (N_store n))) (RS_HardState (durable (N_store n'))) ∧
  (∃ ms, N_handed n' = N_handed n ++ ms ∧
    Forall (ballot_ok local (HardState_Term (RS_HardState (durable (N_store n'))))
      (HardState_VotedFor (RS_HardState (durable (N_store n'))))) ms) ∧
  (o = Ok None → node_ok sha256 identity voterSet local (grow W (wake_votes local w n)) n').
Proof.
  intros Hn Hw Ho. pose proof (ownerStep_wp sha256 identity voterSet local W w clock n Hn Hw) as H.
  unfold wp in H. rewrite Ho in H. destruct H as [Hm Hok]. split_and!; [apply Hm|apply Hm|].
  intros Hr. by apply Hok.
Qed.

(** ** Witness *)

(** A node over the in-memory store, with an application that records its
    commands, a transport that accepts everything and counted transfers. *)
#[local] Instance exStableStore : StableStore MemoryStore := MemoryStore_StableStore exSha.
#[local] Instance exStoreLaws : StoreLaws exSha exStoreIdentity exVoterSet MemoryStore :=
  MemoryStore_laws exSha exStoreIdentity exVoterSet.
#[local] Instance exStateMachine : StateMachine (list (list byte)) := {
  Apply := λ _ _ command, modify (λ l, l ++ [command]) ;;! ret [];
  Capture := λ _ _, let! l := get in ret (Some (mkCapture 1 1 (Ok (concat l))));
  Restore := λ _ bytes, put []
}.
#[local] Instance exTransport : Transport unit := { Handoff := λ _, ret TransportAccepted }.
#[local] Instance exTransferIDs : TransferIDSource Z := {
  NextTransferID := λ _, modify (λ k, k + 1) ;;! let! k := get in ret (be_bytes 16 k)
}.
#[local] Instance exCaptureTyped : CaptureTyped (list (list byte)).
Proof. intros i t a a' cap. simpl. intros [= <- _]. simpl. ulia. Qed.

Definition exNodeOptions : NodeOptions :=
  mkNodeOptions 1 exVoterSet exStoreIdentity (Some (replicate 8 7)) 10 20 1 0 0 100 1000 4096 0.

Definition exStore : MemoryStore :=
  mkMemoryStore exStoreIdentity exVoterSet 4096
    (mkRecoveredState exStoreIdentity (mkHardState 0 0 0) (mkSnapshotMetadata 0 0 0) None 0 [])
    false ∅ None.

Lemma exStore_new : NewMemoryStoreWithOptions exSha exStoreIdentity exVoterSet 4096 = Ok exStore.
Proof. vm_compute. reflexivity. Qed.


Definition exNode : Node MemoryStore (list (list byte)) unit Z :=
  mkNode (exNodeOptions <| NO_MaxSnapshotChunkBytes := MaxRaftSnapshotChunkBytes |>) exStore [] tt 0
    nodeLifecycleNew (mkStatus RoleFollower 0 0 0 0 0) [] None
    None 0 (SAR_State rejectedResult) 0 ∅ ∅ ∅ 0 None false None [] None [].

Lemma exNode_new : NewNode exNodeOptions (Some exStore) (Some []) (Some tt) (Some 0) = Ok exNode.
Proof. vm_compute. reflexivity. Qed.

Lemma exNode_opened : opened exSha exStoreIdentity exVoterSet 1 exNode.
Proof.
  split; try done.
  - split; simpl; try done; try ulia; [exact exVoterSet_wf|]. intros tape [= <-]. repeat constructor; ulia.
Qed.

(** The node starts, and its first election timeout sends a pre-vote to each peer. *)
Lemma node_persists_before_sending_witness :
  ∃ n n', startNode exSha 5 exNode = (Ok None, n) ∧ ownerStep exSha WakeTimer 30 n = (Ok None, n') ∧
    length (N_handed n') = 2%nat ∧
    node_ok exSha exStoreIdentity exVoterSet 1 (grow no_votes ∅) n'.
Proof.
  destruct (startNode exSha 5 exNode) as [o n] eqn:Hs.
  assert (o = Ok None) as -> by (revert Hs; vm_compute; congruence).
  pose proof (startNode_hwp exSha exStoreIdentity exVoterSet 1 exNode exNode_opened 5) as [_ Hn].
  rewrite Hs in Hn. simpl in Hn. destruct (Hn None eq_refl eq_refl) as [Hok _]. clear Hn.
  destruct (ownerStep exSha WakeTimer 30 n) as [o n'] eqn:Ho. exists n, n'.
  assert (o = Ok None ∧ length (N_handed n') = 2%nat) as [-> Hlen].
  { vm_compute in Hs. injection Hs as <-. vm_compute in Ho. by injection Ho as <- <-. }
  split_and!; [done|done|done|].
  apply (node_persists_before_sending exSha exStoreIdentity exVoterSet 1 no_votes WakeTimer 30 n n' (Ok None));
    done.
Defined.

End RaftNodeInv.
