(* ===== verification/RaftCluster.v ===== *)
(** * A cluster of nodes

    Voters that run [RaftNode] over their own stores, exchange the messages they
    hand to their transports, crash and restart.  The network may delay,
    duplicate, reorder and lose messages but does not forge them.

    The cluster refines an abstract voting machine in which a voter casts at most
    one vote per term; so at most one leader is ever elected in a term. *)

From S2P Require Import Prelude RaftTypes RaftLog RaftVoters RaftCodec RaftCore RaftCoreInv RaftCoreOps RaftCoreTyped RaftSnapshot RaftStorage RaftMemoryStore RaftNode RaftNodeInv.

Module RaftCluster.
Import RaftLog RaftVoters RaftCodec RaftCore RaftCoreInv RaftCoreOps RaftCoreTyped RaftSnapshot RaftStorage RaftMemoryStore RaftNode RaftNodeInv.

(** ** The abstract voting machine *)

(** The vote of each voter in each term. *)
Abbreviation votes_cast := (gmap (Z * Z) Z).

Inductive vote_step : votes_cast → votes_cast → Prop :=
| vote_cast (sp : votes_cast) (voter term candidate : Z) :
    candidate ≠ 0 → sp !! (voter, term) = None → vote_step sp (<[(voter, term) := candidate]> sp).

(** A majority of the voters voted for [candidate] in [term]. *)
Definition elected (vs : VoterSet) (sp : votes_cast) (term candidate : Z) : Prop :=
  ∃ Q : gset Z, Q ⊆ ids vs ∧ Majority vs ≤ Z.of_nat (size Q) ∧
    ∀ r, r ∈ Q → sp !! (r, term) = Some candidate.

Lemma vote_steps_subseteq (sp sp' : votes_cast) : rtc vote_step sp sp' → sp ⊆ sp'.
Proof.
  induction 1 as [|sp1 sp2 sp3 Hs _ IH]; [done|]. destruct Hs. etransitivity; [|done].
  by apply insert_subseteq.
Qed.

Lemma elected_unique (vs : VoterSet) (sp sp' : votes_cast) (term i j : Z) :
  voters_wf vs → sp ⊆ sp' → elected vs sp term i → elected vs sp' term j → i = j.
Proof.
  intros Hwf Hsub (Q1 & H1 & Hs1 & Hv1) (Q2 & H2 & Hs2 & Hv2).
  destruct (quorum_intersection vs Q1 Q2 Hwf H1 H2 Hs1 Hs2) as (v & Hq1 & Hq2).
  pose proof (lookup_weaken _ _ _ _ (Hv1 v Hq1) Hsub). pose proof (Hv2 v Hq2). congruence.
Qed.

Section cluster.
Context {S A T I : Type} (sha256 : list byte → list byte) (identity : Z → StorageIdentity) (voterSet : VoterSet).
Context `{!StableStore S} `{!StateMachine A} `{!Transport T} `{!TransferIDSource I} `{!CaptureTyped A}.
Context `{L : ∀ i, StoreLaws sha256 (identity i) voterSet S}.
Abbreviation NodeT := (Node S A T I).

(** ** Cluster states *)

(** A process: prepared by [NewNode], in its owner loop, or ended. *)
Inductive process :=
| Prepared (n : NodeT)
| Running (n : NodeT)
| Halted (n : NodeT).

Definition nodeOf (p : process) : NodeT := match p with Prepared n | Running n | Halted n => n end.

Record cluster := mkCluster {
  CL_procs : gmap Z process;
  (** Every message handed to a transport, with its sender. *)
  CL_sent : list (Z * PeerMessage)
}.

Definition afterRound (r : outcome error (option (option error)) * NodeT) : process :=
  match r with (Ok None, n) => Running n | (_, n) => Halted n end.

(** ** Steps *)

Inductive proc_step (sent : list (Z * PeerMessage)) (i : Z) : process → process → Prop :=
| ps_start n clock :
    proc_step sent i (Prepared n) (afterRound (startNode sha256 clock n))
| ps_owner n w clock :
    proc_step sent i (Running n) (afterRound (ownerStep sha256 w clock n))
| ps_deliver n sender m response doneBefore doneAfter :
    (sender, m) ∈ sent → PM_To m = i → rpc_typed (PM_RPC m) →
    proc_step sent i (Running n)
      (Running (SubmitRPC response sender (InterfaceValue (PM_RPC m)) doneBefore doneAfter n).2)
| ps_submit n response kind command doneBefore doneAfter :
    proc_step sent i (Running n) (Running (submitLocal response kind command doneBefore doneAfter n).2)
| ps_subscribe n response capacity doneBefore doneAfter :
    proc_step sent i (Running n) (Running (SubscribeLeadership response capacity doneBefore doneAfter n).2)
| ps_unsubscribe n id err :
    proc_step sent i (Running n) (Running (watcherCancels id err n))
| ps_receive n id :
    proc_step sent i (Running n) (Running (receiveEvent id n))
| ps_capture n :
    proc_step sent i (Running n) (Running (captureFinishes sha256 n).2)
| ps_cancel n k :
    proc_step sent i (Running n) (Running (n <| N_cancelAfter := Some k |>))
| ps_restart p options s app transport transferIDs n :
    reopens (StoreLaws := L i) (N_store (nodeOf p)) s → node_options_ok voterSet i options →
    NewNode options (Some s) (Some app) (Some transport) (Some transferIDs) = Ok n →
    proc_step sent i p (Prepared n).

(** The messages handed over by a step. *)
Definition handedOver (p p' : process) : list PeerMessage :=
  drop (length (N_handed (nodeOf p))) (N_handed (nodeOf p')).

Inductive cluster_step (cl : cluster) : cluster → Prop :=
| cluster_proc i p p' :
    CL_procs cl !! i = Some p → proc_step (CL_sent cl) i p p' →
    cluster_step cl (mkCluster (<[i := p']> (CL_procs cl)) (CL_sent cl ++ map (pair i) (handedOver p p'))).

(** A new cluster: each voter prepared over an empty store, nothing sent. *)
Definition new_process (i : Z) (p : process) : Prop :=
  ∃ options s app transport transferIDs n, p = Prepared n ∧
    store_ok (StoreLaws := L i) s ∧ store_live (StoreLaws := L i) s ∧
    RS_HardState (durable (StoreLaws := L i) s) = mkHardState 0 0 0 ∧
    RS_SnapshotBase (durable (StoreLaws := L i) s) = mkSnapshotMetadata 0 0 0 ∧
    node_options_ok voterSet i options ∧
    NewNode options (Some s) (Some app) (Some transport) (Some transferIDs) = Ok n.

Definition new_cluster (cl : cluster) : Prop :=
  (∀ i p, CL_procs cl !! i = Some p → new_process i p) ∧ CL_sent cl = [].

(** Process [i] leads [term]: its core is a leader with nothing left to process. *)
Definition leads (cl : cluster) (term i : Z) : Prop :=
  ∃ n c, CL_procs cl !! i = Some (Running n) ∧ N_core n = Some c ∧ role c = RoleLeader ∧
    HardState_Term (hardState c) = term ∧ hasPending c = false.

(** ** Invariant *)

Implicit Types (sp : votes_cast) (n : NodeT).

(** What the voting machine knows of voter [i] with durable hard state [h]. *)
Record recorded sp (i : Z) (h : HardState) : Prop := {
  rc_now : HardState_VotedFor h ≠ 0 → sp !! (i, HardState_Term h) = Some (HardState_VotedFor h);
  rc_past : ∀ t k, sp !! (i, t) = Some k →
    k ≠ 0 ∧ (t < HardState_Term h ∨ (t = HardState_Term h ∧ HardState_VotedFor h = k))
}.

(** A granted vote is a vote of the machine. *)
Definition backed sp (s : Z) (m : PeerMessage) : Prop :=
  match PM_RPC m with
  | RPC_RequestVoteResponse r => RVResp_Granted r = true → RVResp_CandidateID r ≠ 0 →
      RVResp_ResponderID r = s ∧ sp !! (s, RVResp_RequestTerm r) = Some (RVResp_CandidateID r)
  | _ => True
  end.

Definition event_ok sp (i : Z) (event : queuedEvent) : Prop :=
  event_typed event ∧ ∀ r t, (r, t) ∈ event_votes i event → sp !! (r, t) = Some i.

Abbreviation dhs_of i n := (dhs (S := S) sha256 (identity i) voterSet n).
Abbreviation votesFor sp i := (λ r t, sp !! (r, t) = Some i).

Record proc_ok sp (i : Z) (p : process) : Prop := {
  po_wf : voters_wf voterSet;
  po_voter : i ∈ ids voterSet;
  po_store : store_ok (StoreLaws := L i) (N_store (nodeOf p));
  po_typed : durable_typed (durable (StoreLaws := L i) (N_store (nodeOf p)));
  po_recorded : recorded sp i (dhs_of i (nodeOf p));
  po_state : match p with
    | Prepared n => opened sha256 (identity i) voterSet i n ∧ N_events n = []
    | Running n => node_ok sha256 (identity i) voterSet i (votesFor sp i) n ∧
        Forall (event_ok sp i) (N_events n)
    | Halted _ => True
    end
}.

Record cluster_ok sp (cl : cluster) : Prop := {
  cok_procs : ∀ i p, CL_procs cl !! i = Some p → proc_ok sp i p;
  cok_sent : ∀ s m, (s, m) ∈ CL_sent cl → backed sp s m
}.

(** ** Votes only accumulate *)

Lemma node_ok_mono (W W' : Z → Z → Prop) (i : Z) n :
  (∀ r t, W r t → W' r t) → node_ok sha256 (identity i) voterSet i W n →
  node_ok sha256 (identity i) voterSet i W' n.
Proof.
  intros HW (c & [Hp Hc Hok Hh Hb] & Hor). exists c. split; [|done]. split; try done.
  destruct Hok as [? ? ? ? ? ? Hv]. split; try done. intros r Hr. destruct (Hv r Hr); [by left|]. right. auto.
Qed.

Lemma backed_mono sp sp' (s : Z) (m : PeerMessage) : sp ⊆ sp' → backed sp s m → backed sp' s m.
Proof.
  intros Hsub. unfold backed. destruct (PM_RPC m); try done. intros Hb Hg Hz.
  destruct (Hb Hg Hz) as [? ?]. split; [done|]. by eapply lookup_weaken.
Qed.

Lemma event_ok_mono sp sp' (i : Z) (e : queuedEvent) : sp ⊆ sp' → event_ok sp i e → event_ok sp' i e.
Proof. intros Hsub [Ht Hv]. split; [done|]. intros r t Hr. eapply lookup_weaken; [by apply Hv|done]. Qed.

Lemma proc_ok_other sp sp' (i j : Z) (p : process) :
  sp ⊆ sp' → i ≠ j → (∀ k t, k ≠ i → sp' !! (k, t) = sp !! (k, t)) → proc_ok sp j p → proc_ok sp' j p.
Proof.
  intros Hsub Hij Hother [Hwf Hv Hs Ht [Hn Hp] Hst]. split; try done.
  - split; [rewrite Hother by done; done|]. intros t k. rewrite Hother by done. apply Hp.
  - destruct p; [done| |done]. destruct Hst as [Hok Hev]. split.
    + eapply (node_ok_mono (votesFor sp j)), Hok. intros r t Hr. eapply lookup_weaken; [exact Hr|done].
    + eapply Forall_impl; [exact Hev|]. intros e. by apply event_ok_mono.
Qed.

(** A durable vote that moves forward is a step of the machine. *)
Lemma recorded_moves sp (i : Z) (h h' : HardState) :
  recorded sp i h → vote_le h h' →
  ∃ sp', rtc vote_step sp sp' ∧ recorded sp' i h' ∧ (∀ k t, k ≠ i → sp' !! (k, t) = sp !! (k, t)).
Proof.
  intros [Hnow Hpast] Hle.
  destruct (decide (HardState_VotedFor h' = 0)) as [Hz|Hz].
  { exists sp. split_and!; [done| |done]. split; [done|]. intros t k Hk. destruct (Hpast t k Hk) as [? Hor].
    split; [done|]. unfold vote_le in Hle. lia. }
  destruct (sp !! (i, HardState_Term h')) as [k|] eqn:Hk.
  - exists sp. destruct (Hpast _ _ Hk) as [Hnz Hor]. unfold vote_le in Hle.
    assert (k = HardState_VotedFor h') as -> by lia. split_and!; [done| |done].
    split; [done|]. intros t k Ht. destruct (Hpast t k Ht) as [? Hor']. split; [done|]. lia.
  - exists (<[(i, HardState_Term h') := HardState_VotedFor h']> sp). split_and!.
    + by apply rtc_once, vote_cast.
    + split; [intros _; by rewrite lookup_insert_eq|]. intros t k. rewrite lookup_insert_Some.
      intros [[[= <-] <-]|[Hne Ht]]; [split; [done|by right]|]. destruct (Hpast t k Ht) as [? Hor].
      split; [done|]. unfold vote_le in Hle. left.
      assert (t ≠ HardState_Term h') by (intros ->; congruence). lia.
    + intros j t Hj. rewrite lookup_insert_ne; [done|]. congruence.
Qed.

Lemma handed_backed sp (i : Z) (h : HardState) (m : PeerMessage) :
  recorded sp i h → ballot_ok i (HardState_Term h) (HardState_VotedFor h) m → backed sp i m.
Proof.
  intros [Hnow _]. unfold ballot_ok, backed. destruct (PM_RPC m); try done. intros Hb Hg Hz.
  destruct (Hb Hg) as (-> & -> & Hc). rewrite Hc in *. auto.
Qed.

(** ** Steps of a process *)

Definition state_ok sp (i : Z) (p : process) : Prop :=
  match p with
  | Prepared n => opened sha256 (identity i) voterSet i n ∧ N_events n = []
  | Running n => node_ok sha256 (identity i) voterSet i (votesFor sp i) n ∧
      Forall (event_ok sp i) (N_events n)
  | Halted _ => True
  end.

(** The machine steps that match a step of process [i]. *)
Definition matched sp (i : Z) (p p' : process) : Prop :=
  ∃ sp', rtc vote_step sp sp' ∧ proc_ok sp' i p' ∧ (∀ k t, k ≠ i → sp' !! (k, t) = sp !! (k, t)) ∧
    ∀ m, m ∈ handedOver p p' → backed sp' i m.

Lemma moved_matched sp (i : Z) (p p' : process) :
  proc_ok sp i p → moved sha256 (identity i) voterSet i (nodeOf p) (nodeOf p') →
  (∀ sp', sp ⊆ sp' → state_ok sp' i p') → matched sp i p p'.
Proof.
  intros [Hwf Hv Hs Ht Hrec _] [_ Hs' _ Ht' Hle (ms & Hms & Hb)] Hst.
  destruct (recorded_moves sp i _ _ Hrec Hle) as (sp' & Hrun & Hrec' & Hother).
  exists sp'. split_and!; [done| |done|].
  - split; try done. by apply Hst, vote_steps_subseteq.
  - intros m. unfold handedOver. rewrite Hms, drop_app_length. intros Hm. rewrite Forall_forall in Hb.
    eapply handed_backed; [done|]. by apply Hb.
Qed.

(** Steps outside the contract. *)
Lemma local_matched sp (i : Z) n n' :
  proc_ok sp i (Running n) → agree n n' → N_core n' = N_core n → N_durableState n' = N_durableState n →
  (∀ m cap, N_capture n' = Some (m, cap) → N_capture n = Some (m, cap)) →
  Forall (event_ok sp i) (N_events n') → matched sp i (Running n) (Running n').
Proof.
  intros [Hwf Hv Hs Ht Hrec [(c & [Hp Hc Hok Hh Hb] & Hor) _]] [Ho Hst Hhd] Hcore Hd Hcap Hev.
  unfold dhs in *. simpl in *.
  exists sp. split_and!; [done| |done|].
  - split; simpl; try done; unfold dhs; try (by rewrite Hst). split; [|done]. exists c.
    unfold dhs. rewrite Hst. split; [|done]. split; unfold dhs; try congruence.
    destruct Hp as [? ? Hcapt ? ? ? ? ? Hhand]. unfold dhs in *.
    split; unfold dhs; rewrite ?Hst; try done; [|by exists []; rewrite app_nil_r; auto].
    intros m cap Hm. by eapply Hcapt, Hcap.
  - unfold handedOver. simpl. rewrite Hhd, drop_all. set_solver.
Qed.

Lemma start_matched sp (i : Z) n (clock : Z) :
  proc_ok sp i (Prepared n) → matched sp i (Prepared n) (afterRound (startNode sha256 clock n)).
Proof.
  intros Hok. pose proof (po_state _ _ _ Hok) as [Hop Hev].
  destruct (startNode_hwp sha256 (identity i) voterSet i n Hop clock) as [Hm Hn].
  destruct (startNode sha256 clock n) as [o n']. simpl in *.
  apply moved_matched; [done|by destruct o as [[]| | |]|]. intros sp' Hsub.
  destruct o as [[]| | |]; simpl; try done. destruct (Hn None eq_refl eq_refl) as [Hnode Hev'].
  rewrite Hev', Hev. split; [|done]. by eapply node_ok_mono, Hnode.
Qed.

Lemma owner_matched sp (i : Z) n (w : wake) (clock : Z) :
  proc_ok sp i (Running n) → matched sp i (Running n) (afterRound (ownerStep sha256 w clock n)).
Proof.
  intros Hok. pose proof (po_state _ _ _ Hok) as [Hn Hev].
  assert (wake_typed w n) as Hw.
  { unfold wake_typed. destruct w; [done|done|]. destruct Hev as [|e es He _]; [done|]. apply He. }
  destruct (ownerStep_wp sha256 (identity i) voterSet i _ w clock n Hn Hw) as [Hm Hcont].
  destruct (ownerStep sha256 w clock n) as [o n']. simpl in *.
  apply moved_matched; [done|by destruct o as [[]| | |]|]. intros sp' Hsub.
  destruct o as [[]| | |]; simpl; try done. destruct (Hcont eq_refl) as [Hnode ->]. split.
  - eapply node_ok_mono, Hnode. intros r t [Hr|Hr]; [by eapply lookup_weaken|].
    eapply lookup_weaken; [|done]. unfold wake_votes in Hr. destruct w; [set_solver|set_solver|].
    destruct Hev as [|e es [_ He] _]; [set_solver|]. by apply He.
  - assert (Forall (event_ok sp i) (rest_events w (N_events n))) as Hrest.
    { unfold rest_events. destruct w; [done|done|]. by destruct Hev. }
    eapply Forall_impl; [exact Hrest|]. intros e. by apply event_ok_mono.
Qed.

(** ** Calls of the local API *)

Lemma enqueue_cases (requestDone : bool) (event : queuedEvent) n :
  (enqueuePublicEvent requestDone event n).2 = n ∨
  (enqueuePublicEvent requestDone event n).2 = n <| N_events ::= (λ l, l ++ [event]) |>.
Proof.
  unfold enqueuePublicEvent, checkLifecycle, bind, get. destruct (lifecycleError n); [by left|].
  simpl. destruct requestDone; [by left|]. case (_ <? _); [by right|by left].
Qed.

(** The caller waits for the queue only: the state changes by at most one event
    and by the count of the reservations. *)
Definition enqueues (event : queuedEvent) n n' : Prop :=
  agree n n' ∧ N_core n' = N_core n ∧ N_durableState n' = N_durableState n ∧ N_capture n' = N_capture n ∧
  (N_events n' = N_events n ∨ N_events n' = N_events n ++ [event]).

Lemma enqueues_matched sp (i : Z) (event : queuedEvent) n n' :
  proc_ok sp i (Running n) → event_ok sp i event → enqueues event n n' → matched sp i (Running n) (Running n').
Proof.
  intros Hok He (Ha & Hc & Hd & Hcap & Hev). apply local_matched; try done; [by rewrite Hcap|].
  pose proof (po_state _ _ _ Hok) as [_ Hq]. destruct Hev as [-> | ->]; [done|].
  by apply Forall_app_2, Forall_singleton.
Qed.

Lemma SubmitRPC_enqueues (response sender : Z) (rpc : interfaceRPC) (d d' : bool) n :
  enqueues (inboundRPCEvent response sender rpc) n (SubmitRPC response sender rpc d d' n).2.
Proof.
  unfold SubmitRPC, checkLifecycle. unfold bind at 1 2, get at 1.
  destruct (lifecycleError n); [repeat split; by left|]. simpl. destruct d; [repeat split; by left|].
  destruct (enqueue_cases d' (inboundRPCEvent response sender rpc) n) as [-> | ->]; repeat split; auto.
Qed.

Lemma SubscribeLeadership_enqueues (response capacity : Z) (d d' : bool) n :
  enqueues (leadershipRequestEvent response capacity) n (SubscribeLeadership response capacity d d' n).2.
Proof.
  unfold SubscribeLeadership, checkLifecycle. unfold bind at 1 2, get at 1.
  destruct (lifecycleError n); [repeat split; by left|]. simpl. case (_ || _); [repeat split; by left|].
  destruct d; [repeat split; by left|].
  destruct (enqueue_cases d' (leadershipRequestEvent response capacity) n) as [-> | ->]; repeat split; auto.
Qed.

Lemma submitLocal_enqueues (response : Z) (kind : EntryKind) (command : list byte) (d d' : bool) n :
  enqueues (localRequestEvent response kind command) n (submitLocal response kind command d d' n).2.
Proof.
  unfold submitLocal, checkLifecycle. unfold bind at 1 2, get at 1.
  destruct (lifecycleError n); [repeat split; by left|]. simpl. destruct d; [repeat split; by left|].
  unfold reserveLocalRequest, bind at 1 2, get at 1. case (_ <=? _); [repeat split; by left|]. simpl.
  set (n1 := n <| N_pendingReservations ::= _ |>).
  pose proof (enqueue_cases d' (localRequestEvent response kind command) n1) as Hc.
  destruct (enqueuePublicEvent d' (localRequestEvent response kind command) n1) as [[]] eqn:Hq.
  all: simpl in Hc.
  2:{ unfold releaseLocalReservation, bind, modify, get. simpl. destruct Hc as [-> | ->];
      case (_ <? 0); repeat split; auto. }
  all: destruct Hc as [-> | ->]; repeat split; auto.
Qed.

Lemma captureFinishes_matched sp (i : Z) n :
  proc_ok sp i (Running n) → matched sp i (Running n) (Running (captureFinishes sha256 n).2).
Proof.
  intros Hok. pose proof (po_state _ _ _ Hok) as [(c & [Hp _ _ _ _] & _) Hq].
  unfold captureFinishes, bind, get. destruct (N_capture n) as [[metadata capture]|] eqn:Hc.
  2: by apply local_matched.
  case_bool_decide; [by apply local_matched|]. case (_ <=? _); [by apply local_matched; simpl; rewrite ?Hc|].
  apply local_matched; try done. simpl. apply Forall_app_2, Forall_singleton; [done|].
  split; [|set_solver]. intros snap. simpl. destruct (SC_MarshalBinary capture); try done.
  case (negb _); [done|]. intros (-> & _)%NewSnapshot_fields. by eapply (ph_capture _ _ _ _ _ _ _ Hp).
Qed.

(** ** Construction *)

Lemma NewNode_fields (i : Z) (options : NodeOptions) (s : S) app transport transferIDs n :
  node_options_ok voterSet i options →
  NewNode options (Some s) (Some app) (Some transport) (Some transferIDs) = Ok n →
  i ∈ ids voterSet ∧ node_options_ok voterSet i (N_options n) ∧ N_store n = s ∧ N_events n = [] ∧
  N_capture n = None ∧ N_handed n = [].
Proof.
  intros Ho. unfold NewNode. case_outer; [|done..]. destruct (NewStorageIdentity _ _ _ _); try done.
  destruct (negb (bool_decide _)); [done|]. destruct (NO_Random options); [|done].
  do 3 (case_outer; [done|]). cbv zeta. do 2 (case_outer; [done|]). case_outer; [|done..]. intros [= <-].
  simpl. split_and!; try done.
  - destruct Ho as [Hl Hv Hwf _ _ _ _ _ _]. apply asInvalidCore_Ok in Heq.
    rewrite Hl, Hv in Heq. unfold ValidateLocalID in Heq. revert Heq. case_outer; [done|]. intros _.
    apply (Contains_spec _ _ Hwf). bool_hyps. done.
  - destruct Ho. destruct (NO_MaxSnapshotChunkBytes options =? 0); split; done.
Qed.

Lemma prepared_ok sp (i : Z) (options : NodeOptions) (s : S) app transport transferIDs n :
  node_options_ok voterSet i options →
  NewNode options (Some s) (Some app) (Some transport) (Some transferIDs) = Ok n →
  store_ok (StoreLaws := L i) s → store_live (StoreLaws := L i) s →
  durable_typed (durable (StoreLaws := L i) s) → recorded sp i (RS_HardState (durable (StoreLaws := L i) s)) →
  proc_ok sp i (Prepared n).
Proof.
  intros Ho Hn Hs Hl Ht Hrec.
  destruct (NewNode_fields _ _ _ _ _ _ _ Ho Hn) as (Hi & Hopt & Hst & Hev & Hcap & _).
  split; simpl; unfold dhs; rewrite ?Hst; try done; [by destruct Ho|]. split; [|done].
  split; rewrite ?Hst; try done. by apply store_limit.
Qed.

(** The state found by a restart is not behind. *)
Lemma reopened_hard (i : Z) (s : S) (d : RecoveredState) :
  store_ok (StoreLaws := L i) s → durable_typed (durable (StoreLaws := L i) s) →
  (d = durable (StoreLaws := L i) s ∨ ∃ op, node_op (durable (StoreLaws := L i) s) op ∧
     store_effect sha256 (identity i) voterSet (SnapshotLimit s) (durable (StoreLaws := L i) s) op d) →
  vote_le (RS_HardState (durable (StoreLaws := L i) s)) (RS_HardState d) ∧ durable_typed d.
Proof.
  intros Hs Ht [->|(op & [Hop _] & He)]; [split; [reflexivity|done]|]. pose proof (store_wf _ Hs) as Hwf.
  split; [|by eapply store_effect_typed].
  destruct (store_effect_safe _ _ _ _ _ _ _ (store_limit _ Hs) Hwf Hop He) as [_ [_ Hle]]. done.
Qed.

(** ** Simulation *)

Lemma proc_step_matched sp (sent : list (Z * PeerMessage)) (i : Z) (p p' : process) :
  proc_ok sp i p → (∀ s m, (s, m) ∈ sent → backed sp s m) → proc_step sent i p p' → matched sp i p p'.
Proof.
  intros Hok Hsent Hstep. destruct Hstep as [n clock|n w clock|n sender m response d d' Hin Hto Hty|
    n response kind command d d'|n response capacity d d'|n id err|n id|n|n k|
    p options s app transport transferIDs n Hre Ho Hnew].
  - by apply start_matched.
  - by apply owner_matched.
  - eapply enqueues_matched, SubmitRPC_enqueues; [done|]. split; [by intros ? [= <-]|].
    intros r t. simpl. unfold rpc_votes, op_votes. simpl. specialize (Hsent _ _ Hin). unfold backed in Hsent.
    destruct (PM_RPC m) as [| | | | |q| | | | |]; try (by intros ?%elem_of_empty). unfold counted.
    destruct (RVResp_Granted q) eqn:Hg; simpl; [|by intros ?%elem_of_empty].
    destruct (Z.eqb_spec (RVResp_CandidateID q) i) as [Hi|]; [|by intros ?%elem_of_empty].
    intros [= -> ->]%elem_of_singleton. destruct Hsent as [-> Hv]; [done| |congruence].
    rewrite Hi. by apply (ids_nonzero voterSet), Hok; apply Hok.
  - eapply enqueues_matched, submitLocal_enqueues; [done|split; [done|by intros ? ? ?%elem_of_empty]].
  - eapply enqueues_matched, SubscribeLeadership_enqueues; [done|split; [done|by intros ? ? ?%elem_of_empty]].
  - pose proof (po_state _ _ _ Hok) as [_ Hq]. unfold watcherCancels.
    destruct (N_subscribers n !! id); [|by apply local_matched].
    case (_ <? _); apply local_matched; try done. simpl. apply Forall_app_2, Forall_singleton; [done|].
    split; [done|by intros ? ? ?%elem_of_empty].
  - pose proof (po_state _ _ _ Hok) as [_ Hq]. by apply local_matched.
  - by apply captureFinishes_matched.
  - pose proof (po_state _ _ _ Hok) as [_ Hq]. by apply local_matched.
  - destruct Hok as [Hwf Hv Hst Hty Hrec _]. destruct (store_reopens _ _ Hst Hre) as (Hs & Hl & Hd).
    destruct (reopened_hard i _ _ Hst Hty Hd) as [Hle Hty'].
    destruct (recorded_moves sp i _ _ Hrec Hle) as (sp' & Hrun & Hrec' & Hother).
    exists sp'. split_and!; [done| |done|].
    + by eapply prepared_ok.
    + destruct (NewNode_fields _ _ _ _ _ _ _ Ho Hnew) as (_ & _ & _ & _ & _ & Hh).
      unfold handedOver. simpl. rewrite Hh, drop_nil. set_solver.
Qed.

Lemma cluster_step_matched sp (cl cl' : cluster) :
  cluster_ok sp cl → cluster_step cl cl' → ∃ sp', rtc vote_step sp sp' ∧ cluster_ok sp' cl'.
Proof.
  intros [Hprocs Hsent] Hstep. destruct Hstep as [i p p' Hp Hstep].
  destruct (proc_step_matched sp _ i p p' (Hprocs _ _ Hp) Hsent Hstep) as (sp' & Hrun & Hok & Hother & Hb).
  exists sp'. split; [done|]. pose proof (vote_steps_subseteq _ _ Hrun) as Hsub. split; simpl.
  - intros j q. rewrite lookup_insert_Some. intros [[<- <-]|[Hij Hq]]; [done|].
    eapply proc_ok_other; try done. by apply Hprocs.
  - intros s m. rewrite elem_of_app, list_elem_of_fmap. intros [Hm|(m' & [= -> ->] & Hm)]; [|by apply Hb].
    by eapply backed_mono, Hsent.
Qed.

Lemma new_cluster_ok (cl : cluster) : new_cluster cl → cluster_ok ∅ cl.
Proof.
  intros [Hnew Hsent]. split; [|rewrite Hsent; set_solver].
  intros i p Hp. destruct (Hnew i p Hp) as (o & s & app & tr & ids & n & -> & Hs & Hl & Hh & Hb & Ho & Hn).
  eapply prepared_ok; try done.
  - split; rewrite ?Hh, ?Hb; repeat split; simpl; ulia.
  - rewrite Hh. split; [done|]. intros t k. by rewrite lookup_empty.
Qed.

Lemma cluster_steps_matched sp (cl cl' : cluster) :
  cluster_ok sp cl → rtc cluster_step cl cl' → ∃ sp', rtc vote_step sp sp' ∧ cluster_ok sp' cl'.
Proof.
  intros Hok Hrun. revert sp Hok. induction Hrun as [|cl1 cl2 cl3 Hstep _ IH]; intros sp Hok; [by exists sp|].
  destruct (cluster_step_matched sp _ _ Hok Hstep) as (sp1 & Hr1 & Hok1).
  destruct (IH sp1 Hok1) as (sp2 & Hr2 & Hok2). exists sp2. split; [by etransitivity|done].
Qed.

(** A leader holds the votes of a majority, its own durable one included. *)
Lemma leader_elected sp (cl : cluster) (term i : Z) :
  cluster_ok sp cl → leads cl term i → elected voterSet sp term i ∧ voters_wf voterSet.
Proof.
  intros [Hprocs _] (n & c & Hp & Hc & Hrole & Hterm & Hpend).
  destruct (Hprocs _ _ Hp) as [Hwf Hi _ _ Hrec [(c' & [_ Hc' Hok _ _] & Hor) _]].
  assert (c' = c) as -> by congruence. destruct Hok as [Hinv _ Hl Hvs _ _ Hvotes].
  pose proof (ci_role _ Hinv) as Hr. unfold role_ok in Hr. rewrite Hrole in Hr.
  destruct Hr as (_ & _ & Hown & Hmaj). destruct Hor as [|Hh]; [congruence|]. subst term.
  split; [|done]. exists (default ∅ (votes c)). rewrite <- Hvs. split_and!; [apply (ci_votes _ Hinv)|done|].
  intros r Hr. destruct (Hvotes r Hr) as [->|]; [|done]. rewrite Hl in Hown.
  destruct Hrec as [Hnow _]. simpl in Hnow. rewrite <- Hh, Hown in Hnow. apply Hnow.
  by eapply ids_nonzero.
Qed.
End cluster.

(** ** Executable runs *)

#[local] Instance entry_typed_dec (e : Entry) : Decision (entry_typed e).
Proof. unfold entry_typed, is_u64, is_u8. apply _. Defined.

#[local] Instance rpc_typed_dec (rpc : RPC) : Decision (rpc_typed rpc).
Proof. destruct rpc; simpl; unfold is_u64, is_u32, is_u16; apply _. Defined.

(** Executable steps: the start of a process, a round of its loop, and the
    delivery of the [k]-th message sent. *)
Inductive action := AStart (i clock : Z) | AOwner (i : Z) (w : wake) (clock : Z) | ADeliver (k : nat).

Section runs.
Context {S A T I : Type} (sha256 : list byte → list byte) (identity : Z → StorageIdentity) (voterSet : VoterSet).
Context `{!StableStore S} `{!StateMachine A} `{!Transport T} `{!TransferIDSource I} `{!CaptureTyped A}.
Context `{L : ∀ i, StoreLaws sha256 (identity i) voterSet S}.
Abbreviation clusterT := (cluster (S := S) (A := A) (T := T) (I := I)).

Definition act (a : action) (cl : clusterT) : option clusterT :=
  let go i p p' := Some (mkCluster (<[i := p']> (CL_procs cl))
                           (CL_sent cl ++ map (pair i) (handedOver p p'))) in
  match a with
  | AStart i clock =>
    match CL_procs cl !! i with
    | Some (Prepared n) => go i (Prepared n) (afterRound (startNode sha256 clock n))
    | _ => None
    end
  | AOwner i w clock =>
    match CL_procs cl !! i with
    | Some (Running n) => go i (Running n) (afterRound (ownerStep sha256 w clock n))
    | _ => None
    end
  | ADeliver k =>
    match CL_sent cl !! k with
    | Some (sender, m) =>
      match CL_procs cl !! PM_To m with
      | Some (Running n) =>
        if decide (rpc_typed (PM_RPC m))
        then go (PM_To m) (Running n) (Running (SubmitRPC 0 sender (InterfaceValue (PM_RPC m)) false false n).2)
        else None
      | _ => None
      end
    | None => None
    end
  end.

Fixpoint acts (l : list action) (cl : clusterT) : option clusterT :=
  match l with [] => Some cl | a :: l => match act a cl with Some cl' => acts l cl' | None => None end end.

Lemma act_step (a : action) (cl cl' : clusterT) :
  act a cl = Some cl' → cluster_step sha256 identity voterSet (L := L) cl cl'.
Proof.
  destruct a as [i clock|i w clock|k]; simpl.
  - destruct (CL_procs cl !! i) as [[n|n|n]|] eqn:Hp; try done. intros [= <-].
    apply cluster_proc; [done|]. apply ps_start.
  - destruct (CL_procs cl !! i) as [[n|n|n]|] eqn:Hp; try done. intros [= <-].
    apply cluster_proc; [done|]. apply ps_owner.
  - destruct (CL_sent cl !! k) as [[sender m]|] eqn:Hm; [|done].
    destruct (CL_procs cl !! PM_To m) as [[n|n|n]|] eqn:Hp; try done. case_decide; [|done]. intros [= <-].
    apply cluster_proc; [done|]. apply ps_deliver; [by eapply list_elem_of_lookup_2|done|done].
Qed.

Lemma acts_steps (l : list action) (cl cl' : clusterT) :
  acts l cl = Some cl' → rtc (cluster_step sha256 identity voterSet (L := L)) cl cl'.
Proof.
  revert cl. induction l as [|a l IH]; intros cl; simpl; [by intros [= ->]|].
  destruct (act a cl) as [cl1|] eqn:Ha; [|done]. intros H. eapply rtc_l; [by eapply act_step|by apply IH].
Qed.

Definition leadsb (cl : clusterT) (term i : Z) : bool :=
  match CL_procs cl !! i with
  | Some (Running n) =>
    match N_core n with
    | Some c => bool_decide (role c = RoleLeader) && (HardState_Term (hardState c) =? term) && negb (hasPending c)
    | None => false
    end
  | _ => false
  end.

Lemma leadsb_leads (cl : clusterT) (term i : Z) : leadsb cl term i = true → leads cl term i.
Proof.
  unfold leadsb. destruct (CL_procs cl !! i) as [[n|n|n]|] eqn:Hp; try done.
  destruct (N_core n) as [c|] eqn:Hc; [|done]. intros H. bool_hyps. by exists n, c.
Qed.

End runs.

(** ** Main results *)

Section main.
Context {S A T I : Type} (sha256 : list byte → list byte) (identity : Z → StorageIdentity) (voterSet : VoterSet).
Context `{!StableStore S} `{!StateMachine A} `{!Transport T} `{!TransferIDSource I} `{!CaptureTyped A}.
Context `{L : ∀ i, StoreLaws sha256 (identity i) voterSet S}.
Abbreviation step := (cluster_step (A := A) (T := T) (I := I) sha256 identity voterSet (L := L)).
Abbreviation new := (new_cluster (A := A) (T := T) (I := I) sha256 identity voterSet (L := L)).

(** Two leaders of a term are the same process. *)
Lemma leaders_agree (cl0 cl1 cl2 : cluster) (term i j : Z) :
  new cl0 → rtc step cl0 cl1 → rtc step cl1 cl2 → leads cl1 term i → leads cl2 term j → i = j.
Proof.
  intros Hnew H1 H2 Hi Hj. pose proof (new_cluster_ok sha256 identity voterSet cl0 Hnew) as Hok0.
  destruct (cluster_steps_matched _ _ _ ∅ cl0 cl1 Hok0 H1) as (sp1 & Hr1 & Hok1).
  destruct (cluster_steps_matched _ _ _ sp1 cl1 cl2 Hok1 H2) as (sp2 & Hr2 & Hok2).
  destruct (leader_elected _ _ _ sp1 cl1 term i Hok1 Hi) as [He1 Hwf].
  destruct (leader_elected _ _ _ sp2 cl2 term j Hok2 Hj) as [He2 _].
  eapply elected_unique; [done|by apply vote_steps_subseteq|done|done].
Qed.

(** C2: A cluster refines the voting machine: along every run, with crashes,
    restarts, store errors and lost, repeated or reordered messages, there is a
    run of the machine in which a voter casts at most one vote per term and which
    backs every granted vote ever sent and every leader of the final state with a
    majority. *)
Theorem cluster_refines_voting (cl0 cl : cluster) :
  new cl0 → rtc step cl0 cl →
  ∃ sp, rtc vote_step ∅ sp ∧ (∀ s m, (s, m) ∈ CL_sent cl → backed sp s m) ∧
    ∀ term i, leads cl term i → elected voterSet sp term i.
Proof.
  intros Hnew Hrun. pose proof (new_cluster_ok sha256 identity voterSet cl0 Hnew) as Hok0.
  destruct (cluster_steps_matched _ _ _ ∅ cl0 cl Hok0 Hrun) as (sp & Hr & Hok).
  exists sp. split_and!; [done|apply Hok|]. intros term i Hl.
  by destruct (leader_elected _ _ _ sp cl term i Hok Hl).
Qed.

(** C1: Election safety: in a run of the cluster at most one process ever leads a
    term, now or later, across crashes and restarts. *)
Theorem election_safety (cl0 cl1 cl2 : cluster) (term i j : Z) :
  new cl0 → rtc step cl0 cl1 → rtc step cl1 cl2 →
  leads cl1 term i → leads cl2 term j → i = j.
Proof.
  intros Hnew H1 H2 Hi Hj. by apply (leaders_agree cl0 cl1 cl2 term).
Qed.
End main.

(** ** Witnesses *)

#[local] Existing Instances exStableStore exStateMachine exTransport exTransferIDs exCaptureTyped.

Definition exIdentity (i : Z) : StorageIdentity := 
  mkStorageIdentity 1 (replicate 16 Byte.x07) i (Fingerprint exVoterSet).
#[local] Instance exLaws (i : Z) : StoreLaws exSha (exIdentity i) exVoterSet MemoryStore :=
  MemoryStore_laws exSha (exIdentity i) exVoterSet.

Abbreviation exCluster := (cluster (S := MemoryStore) (A := list (list byte)) (T := unit) (I := Z)).

Definition exStoreOf (i : Z) : MemoryStore :=
  exStore <| MS_identity := exIdentity i |> <| MS_state ::= (λ d, d <| RS_Identity := exIdentity i |>) |>.
Definition exOptionsOf (i : Z) : NodeOptions :=
  exNodeOptions <| NO_LocalID := i |> <| NO_Identity := exIdentity i |>.
Definition exNodeOf (i : Z) : Node MemoryStore (list (list byte)) unit Z :=
  exNode <| N_options := (exOptionsOf i) <| NO_MaxSnapshotChunkBytes := MaxRaftSnapshotChunkBytes |> |>
         <| N_store := exStoreOf i |>.

Definition exCluster0 : exCluster :=
  mkCluster {[1 := Prepared (exNodeOf 1); 2 := Prepared (exNodeOf 2); 3 := Prepared (exNodeOf 3)]} [].

Lemma exOptionsOf_ok (i : Z) : i = 1 ∨ i = 2 ∨ i = 3 → node_options_ok exVoterSet i (exOptionsOf i).
Proof.
  intros Hi. split; simpl; try done; try ulia; [exact exVoterSet_wf|]. intros tape [= <-]. repeat constructor; ulia.
Qed.

Lemma exCluster0_new : new_cluster exSha exIdentity exVoterSet (L := exLaws) exCluster0.
Proof.
  assert (∀ i, i = 1 ∨ i = 2 ∨ i = 3 →
    new_process exSha exIdentity exVoterSet (L := exLaws) i (Prepared (exNodeOf i))) as Hnew.
  { intros i Hi. exists (exOptionsOf i), (exStoreOf i), [], tt, 0, (exNodeOf i). split_and!; try done.
    - eapply (NewMemoryStore_ok _ _ _ 4096); [lia|]. destruct Hi as [->|[->| ->]]; vm_compute; reflexivity.
    - by apply exOptionsOf_ok.
    - destruct Hi as [->|[->| ->]]; vm_compute; reflexivity. }
  split; [|done]. intros i p. simpl. rewrite !lookup_insert_Some, lookup_singleton_Some.
  intros [[<- <-]|[_ [[<- <-]|[_ [<- <-]]]]]; apply Hnew; lia.
Qed.

(** Voters 1 and 2 start; 1 times out, collects a pre-vote and a vote of 2 and
    leads term 1. *)
Definition exActions : list action :=
  [AStart 1 0; AStart 2 0; AOwner 1 WakeTimer 30; ADeliver 0; AOwner 2 (WakeEvent false) 30;
   ADeliver 2; AOwner 1 (WakeEvent false) 31; ADeliver 3; AOwner 2 (WakeEvent false) 31;
   ADeliver 5; AOwner 1 (WakeEvent false) 32].

(** Voter 3 starts later and learns of the leader. *)
Definition exLater : list action :=
  [AStart 3 0; AOwner 1 WakeTimer 34; ADeliver 7; AOwner 3 (WakeEvent false) 40].

Lemma exActions_leads :
  match acts exSha exActions exCluster0 with Some cl => leadsb cl 1 1 | None => false end = true.
Proof. vm_compute. reflexivity. Qed.

Lemma exLater_leads :
  match acts exSha exActions exCluster0 with
  | Some cl => match acts exSha exLater cl with Some cl' => leadsb cl' 1 1 | None => false end
  | None => false
  end = true.
Proof. vm_compute. reflexivity. Qed.

Lemma cluster_refines_voting_witness :
  ∃ cl sp, acts exSha exActions exCluster0 = Some cl ∧ leads cl 1 1 ∧ rtc vote_step ∅ sp ∧ elected exVoterSet sp 1 1.
Proof.
  pose proof exActions_leads as Hl.
  destruct (acts exSha exActions exCluster0) as [cl|] eqn:Hrun; [|discriminate Hl]. apply leadsb_leads in Hl.
  destruct (cluster_refines_voting exSha exIdentity exVoterSet exCluster0 cl exCluster0_new (acts_steps _ _ _ _ _ _ Hrun))
    as (sp & Hr & _ & He).
  exists cl, sp. split_and!; [done|done|done|]. by apply He.
Defined.

Lemma election_safety_witness :
  ∃ cl1 cl2, acts exSha exActions exCluster0 = Some cl1 ∧ acts exSha exLater cl1 = Some cl2 ∧
    leads cl1 1 1 ∧ leads cl2 1 1 ∧ ∀ j, leads cl2 1 j → 1 = j.
Proof.
  pose proof exActions_leads as Hl1. pose proof exLater_leads as Hl2.
  destruct (acts exSha exActions exCluster0) as [cl1|] eqn:H1; [|discriminate Hl1].
  destruct (acts exSha exLater cl1) as [cl2|] eqn:H2; [|discriminate Hl2].
  apply leadsb_leads in Hl1, Hl2. exists cl1, cl2. split_and!; [done..|]. intros j Hj.
  apply (election_safety exSha exIdentity exVoterSet exCluster0 cl1 cl2 1 1 j exCluster0_new
    (acts_steps _ _ _ _ _ _ H1) (acts_steps _ _ _ _ _ _ H2) Hl1 Hj).
Defined.

End RaftCluster.
