(* ===== verification/RaftFileCluster.v ===== *)
(** * A cluster over file stores

    The cluster of [RaftCluster] with every voter over its own [RaftFileStore]: the
    voters start on fresh directories, every system call may fail or be cut short,
    and a restart follows a power loss ([after_loss]).  Election safety of the cluster rests on the contract of the store
    alone, and [RaftFileStoreLaws] discharges that contract for the files. *)

From stdpp Require Import strings.
From S2P Require Import Prelude RaftTypes RaftLog RaftVoters RaftCodec RaftCore RaftCoreInv RaftCoreOps RaftCoreTyped RaftSnapshot RaftStorage RaftMemoryStore RaftWAL RaftFileStore RaftFileStoreOps RaftFileStoreOpen RaftFileMachine RaftFileStoreLaws RaftNode RaftNodeInv RaftCluster.

Module RaftFileCluster.
Import RaftLog RaftVoters RaftCodec RaftCore RaftCoreInv RaftCoreOps RaftCoreTyped RaftSnapshot RaftStorage RaftMemoryStore RaftWAL RaftFileStore RaftFileStoreOps RaftFileStoreOpen RaftFileMachine RaftFileStoreLaws RaftNode RaftNodeInv RaftCluster.
Open Scope Z_scope.

Section files.
Context {A T I : Type} (sha256 : list byte → list byte) (shuffle : list string → list string).
Context (storageDir : Z → string) (identity : Z → StorageIdentity) (voterSet : VoterSet) (maxSnapshotBytes limit : Z).
Context `{!StateMachine A} `{!Transport T} `{!TransferIDSource I} `{!CaptureTyped A}.
Context (sha256_length : ∀ l, length (sha256 l) = 32%nat) (Hshuffle : ∀ l, shuffle l ≡ₚ l).
Context (Hidentity : ∀ i, identity_values (identity i)).
Context (Hmx : snapshotLimit maxSnapshotBytes = Ok limit) (Hlimit : 0 ≤ limit ≤ MaxRaftSnapshotBytes).
Context (Hdir : ∀ i, storageDir i ≠ ""%string) (Hroot : ∀ i, cleansToRoot (storageDir i) = false).

#[local] Instance fileStableStore : StableStore FileStore := FileStore_StableStore sha256.

(** The contract of the store of voter [i]. *)
Definition fileLaws (i : Z) : StoreLaws sha256 (identity i) voterSet FileStore :=
  FileStore_laws sha256 shuffle (storageDir i) (identity i) voterSet maxSnapshotBytes limit sha256_length Hshuffle
    (Hidentity i) Hmx Hlimit (Hdir i) (Hroot i).

Abbreviation processT := (process (S := FileStore) (A := A) (T := T) (I := I)).
Abbreviation clusterT := (cluster (S := FileStore) (A := A) (T := T) (I := I)).

(** A voter prepared over a store that was opened on a fresh directory. *)
Definition new_file_process (i : Z) (p : processT) : Prop :=
  ∃ options o s app transport transferIDs n, p = Prepared n ∧ fresh (OS_disk o) ∧
    openFileStoreWithOptions sha256 shuffle (storageDir i) (identity i) voterSet maxSnapshotBytes o = (Ok tt, s) ∧
    node_options_ok voterSet i options ∧
    NewNode options (Some s) (Some app) (Some transport) (Some transferIDs) = Ok n.

Definition new_file_cluster (cl : clusterT) : Prop :=
  (∀ i p, CL_procs cl !! i = Some p → new_file_process i p) ∧ CL_sent cl = [].

Lemma new_file_cluster_new (cl : clusterT) :
  new_file_cluster cl → new_cluster sha256 identity voterSet (L := fileLaws) cl.
Proof.
  intros [Hp Hs]. split; [|done]. intros i p Hi.
  destruct (Hp i p Hi) as (options & o & s & app & transport & ids & n & -> & Hf & Hopen & Hopt & Hn).
  destruct (opened_arguments _ _ _ _ _ _ _ _ Hopen) as (Hv & _).
  pose proof (open_fresh sha256 (identity i) voterSet limit Hlimit Hv shuffle False (storageDir i) maxSnapshotBytes o s Hmx Hf
    (False_ind _) Hopen) as Hl.
  destruct (live_wf _ _ _ _ Hlimit _ _ Hl) as [_ Hst].
  exists options, s, app, transport, ids, n. simpl. rewrite Hst.
  split_and!; try done; [by eapply live_ok|apply Hl].
Qed.

(** C7: Election safety of nodes over files: voters start on fresh directories,
    system calls fail or are cut short, processes end at any point and restart on
    what a power loss kept, messages are lost, repeated and reordered; still at
    most one process ever leads a term. *)
Theorem file_election_safety (cl0 cl1 cl2 : clusterT) (term i j : Z) :
  new_file_cluster cl0 →
  rtc (cluster_step sha256 identity voterSet (L := fileLaws)) cl0 cl1 →
  rtc (cluster_step sha256 identity voterSet (L := fileLaws)) cl1 cl2 →
  leads cl1 term i → leads cl2 term j → i = j.
Proof.
  intros Hnew H1 H2 Hi Hj.
  exact (leaders_agree sha256 identity voterSet cl0 cl1 cl2 term i j (new_file_cluster_new cl0 Hnew) H1 H2 Hi Hj).
Qed.
End files.

(** ** Witness *)

#[local] Existing Instances exStateMachine exTransport exTransferIDs exCaptureTyped.
#[local] Instance exFileStore : StableStore FileStore := fileStableStore exSha.

Definition exVoterIdentity (i : Z) : StorageIdentity := exIdentity (i mod 2 ^ 16).
Definition exOpenedOf (i : Z) : outcome error unit * FileStore :=
  openFileStoreWithOptions exSha id "data" (exVoterIdentity i) exVoterSet 4096 (exSystem [] exDisk).
Definition exFileNodeOf (i : Z) (s : FileStore) : outcome error (Node FileStore (list (list byte)) unit Z) :=
  NewNode (exOptionsOf i) (Some s) (Some []) (Some tt) (Some 0).
Definition exProcessOf (i : Z) : option process :=
  match exFileNodeOf i (exOpenedOf i).2 with Ok n => Some (Prepared n) | _ => None end.
Abbreviation exFileClusterT := (cluster (S := FileStore) (A := list (list byte)) (T := unit) (I := Z)).
Definition exFileCluster : option exFileClusterT :=
  match exProcessOf 1, exProcessOf 2, exProcessOf 3 with
  | Some p1, Some p2, Some p3 => Some (mkCluster {[1 := p1; 2 := p2; 3 := p3]} [])
  | _, _, _ => None
  end.

(** The power of a voter fails and it starts again on what its disk kept. *)
Definition exRestart (i : Z) (cl : exFileClusterT) : option exFileClusterT :=
  match CL_procs cl !! i with
  | Some p =>
    match openFileStoreWithOptions exSha id "data" (exVoterIdentity i) exVoterSet 4096
            (exSystem [] (kept_all (theDisk (N_store (nodeOf p))))) with
    | (Ok _, s) =>
      match exFileNodeOf i s with
      | Ok n => Some (mkCluster (<[i := Prepared n]> (CL_procs cl)) (CL_sent cl ++ map (pair i) (handedOver p (Prepared n))))
      | _ => None
      end
    | _ => None
    end
  | None => None
  end.

Definition exRun1 : option exFileClusterT := exFileCluster ≫= acts exSha exActions.
(** Voter 2 restarts, voter 3 starts, and voter 2 hears from the leader. *)
Definition exRun2 : option exFileClusterT :=
  cl ← exRun1; cl ← exRestart 2 cl;
  acts exSha [AStart 2 0; AStart 3 0; AOwner 1 WakeTimer 34; ADeliver 8; AOwner 2 (WakeEvent false) 40] cl.

Lemma exSha_length (l : list byte) : length (exSha l) = 32%nat.
Proof. apply length_be_bytes. Qed.

Lemma exVoterIdentity_values (i : Z) : identity_values (exVoterIdentity i).
Proof.
  pose proof (Z.mod_pos_bound i (2 ^ 16) eq_refl). split_and!; [unfold exVoterIdentity; simpl; ulia..|].
  split; reflexivity.
Qed.

Lemma exLimit : snapshotLimit 4096 = Ok 4096.
Proof. reflexivity. Qed.

Lemma exLimit_range : 0 ≤ 4096 ≤ MaxRaftSnapshotBytes.
Proof. done. Qed.

Lemma exDirectory (i : Z) : "data"%string ≠ ""%string.
Proof. done. Qed.

Lemma exDirectory_root (i : Z) : cleansToRoot "data" = false.
Proof. reflexivity. Qed.

Abbreviation exFileLaws :=
  (fileLaws exSha id (λ _, "data"%string) exVoterIdentity exVoterSet 4096 4096 exSha_length (λ l, reflexivity l)
     exVoterIdentity_values exLimit exLimit_range exDirectory exDirectory_root).
Abbreviation exFileStep := (cluster_step exSha exVoterIdentity exVoterSet (L := exFileLaws)).

Lemma exRestart_step (i : Z) (cl cl' : exFileClusterT) :
  i = 1 ∨ i = 2 ∨ i = 3 → exRestart i cl = Some cl' → exFileStep cl cl'.
Proof.
  intros Hi. unfold exRestart. destruct (CL_procs cl !! i) as [p|] eqn:Hp; [|done].
  destruct (openFileStoreWithOptions _ _ _ _ _ _ _) as [[[]| | |] s] eqn:Hopen; try done.
  destruct (exFileNodeOf i s) as [n| | |] eqn:Hn; [|done..]. intros [= <-]. apply cluster_proc; [done|].
  eapply ps_restart; [|by apply exOptionsOf_ok|exact Hn].
  eexists. split; [|exact Hopen]. apply left_loss, kept_all_loss.
Qed.

Lemma exFileCluster_new (cl : exFileClusterT) :
  exFileCluster = Some cl → new_file_cluster exSha id (λ _, "data"%string) exVoterIdentity exVoterSet 4096 cl.
Proof.
  assert (∀ i, i = 1 ∨ i = 2 ∨ i = 3 → (exOpenedOf i).1 = Ok tt) as Hopen.
  { intros i [->|[->| ->]]; vm_compute; reflexivity. }
  assert (∀ i p, i = 1 ∨ i = 2 ∨ i = 3 → exProcessOf i = Some p →
    new_file_process exSha id (λ _, "data"%string) exVoterIdentity exVoterSet 4096 i p) as Hnew.
  { intros i p Hi. unfold exProcessOf. destruct (exFileNodeOf i _) as [n| | |] eqn:Hn; [|done..]. intros [= <-].
    exists (exOptionsOf i), (exSystem [] exDisk), (exOpenedOf i).2, [], tt, 0, n.
    split_and!; [done|exact exDisk_fresh| |by apply exOptionsOf_ok|exact Hn].
    specialize (Hopen i Hi). unfold exOpenedOf in *. by destruct (openFileStoreWithOptions _ _ _ _ _ _ _); simpl in *; subst. }
  unfold exFileCluster. destruct (exProcessOf 1) as [p1|] eqn:H1; [|done].
  destruct (exProcessOf 2) as [p2|] eqn:H2; [|done]. destruct (exProcessOf 3) as [p3|] eqn:H3; [|done].
  intros [= <-]. split; [|done]. intros i p. simpl. rewrite !lookup_insert_Some, lookup_singleton_Some.
  intros [[<- <-]|[_ [[<- <-]|[_ [<- <-]]]]]; apply Hnew; auto.
Qed.

Lemma exRun_leads :
  match exRun1, exRun2 with Some cl1, Some cl2 => leadsb cl1 1 1 && leadsb cl2 1 1 | _, _ => false end = true.
Proof. vm_compute. reflexivity. Qed.

Lemma file_election_safety_witness :
  ∃ cl1 cl2, exRun1 = Some cl1 ∧ exRun2 = Some cl2 ∧ leads cl1 1 1 ∧ leads cl2 1 1 ∧ ∀ j, leads cl2 1 j → 1 = j.
Proof.
  pose proof exRun_leads as Hl. unfold exRun2 in *. destruct exRun1 as [cl1|] eqn:H1; [|discriminate Hl].
  destruct (mbind _ (Some cl1)) as [cl2|] eqn:H2; [|discriminate Hl].
  apply andb_prop in Hl as [Hl1%leadsb_leads Hl2%leadsb_leads]. exists cl1, cl2. split_and!; [done..|]. intros j Hj.
  unfold exRun1 in H1. apply bind_Some in H1 as (cl0 & H0 & H1).
  cbn [mbind option_bind] in H2. apply bind_Some in H2 as (cl1' & Hr & H2).
  apply (file_election_safety exSha id (λ _, "data"%string) exVoterIdentity exVoterSet 4096 4096 exSha_length (λ l, reflexivity l)
    exVoterIdentity_values exLimit exLimit_range exDirectory exDirectory_root cl0 cl1 cl2 1 1 j).
  - by apply exFileCluster_new.
  - exact (acts_steps exSha exVoterIdentity exVoterSet (L := exFileLaws) _ _ _ H1).
  - exact (rtc_l _ _ _ _ (exRestart_step 2 cl1 cl1' (or_intror (or_introl eq_refl)) Hr)
      (acts_steps exSha exVoterIdentity exVoterSet (L := exFileLaws) _ _ _ H2)).
  - exact Hl1.
  - exact Hj.
Defined.

End RaftFileCluster.
