(* ===== verification/WireFrame.v ===== *)
(** * Authenticated frames

    [internal/wire/types.go], [auth.go], [frame.go] and [stream.go]: the fixed
    header, the trailing HMAC-SHA-256, the size limits, and the length-prefixed
    frames of a TCP connection.  A connection is what it delivers to the reads and
    how it answers the writes, in pieces of any size; deadlines and contexts are
    part of the environment of one operation.

    Theorems: the accepted byte sequences are exactly the encodings of valid
    frames; frames written to a connection are read back whatever the pieces; a
    reader is total on arbitrary input and bounded by the configured size. *)

From S2P Require Import Prelude Hash.

Module WireFrame.
Import Hash.
Open Scope go_scope.
Open Scope Z_scope.

(** ** Types *)

Definition Version1 : Z := 1.
Definition FixedHeaderSize : Z := 55.
Definition MACSize : Z := 32.
Definition MaxCraneDatagramBytesV1 : Z := 1200.

Inductive wire_error :=
| ErrMalformed | ErrTooLarge | ErrUnsupportedVersion | ErrUnsupportedCodec | ErrUnsupportedMessage | ErrAuthentication.
#[global] Instance wire_error_eq_dec : EqDecision wire_error.
Proof. solve_decision. Defined.

(** Message types: SWIM datagrams and streams; the first and last message of each
    group of the Crane range. *)
Definition MessageSWIMPing : Z := 1.
Definition MessageSWIMAck : Z := 2.
Definition MessageSWIMPingReq : Z := 3.
Definition MessageSWIMIndirectAck : Z := 4.
Definition MessageSWIMGossip : Z := 5.
Definition MessageSWIMDigest : Z := 6.
Definition MessageSWIMJoinRequest : Z := 7.
Definition MessageSWIMJoinSnapshot : Z := 8.
Definition MessageSWIMJoinAnnounce : Z := 9.
Definition MessageSWIMJoinAccepted : Z := 10.
Definition MessageSWIMSnapshotRequest : Z := 11.
Definition MessageSWIMSnapshotResponse : Z := 12.
Definition MessageSWIMError : Z := 13.
Definition MessageSWIMSnapshotApplied : Z := 14.
Definition MessageCraneWorkerHandshake : Z := 200.
Definition MessageCraneWorkerError : Z := 218.
Definition MessageCraneSubmitRequest : Z := 240.
Definition MessageCraneJobListResponse : Z := 251.
Definition MessageCraneTupleDelivery : Z := 280.
Definition MessageCraneTupleDeliveryAck : Z := 281.
Definition MessageCraneTupleDeliveryNack : Z := 282.

Definition CodecGob : Z := 1.
Definition CodecBinary : Z := 2.

Record Header := mkHeader {
  H_Version : Z;
  H_Message : Z;
  H_ClusterID : list byte;
  H_SenderID : Z;
  H_RequestID : list byte;
  H_TimestampMillis : Z;
  H_Codec : Z
}.
#[global] Instance eta_Header : Settable Header :=
  λ h, mkHeader (H_Version h) (H_Message h) (H_ClusterID h) (H_SenderID h) (H_RequestID h) (H_TimestampMillis h) (H_Codec h).

Record Frame := mkFrame { F_Header : Header; F_Payload : list byte }.

Record Limits := mkLimits {
  MaxFrameSize : Z;
  MaxSWIMDatagramSize : Z;
  MaxCraneDatagramSize : Z;
  ExpectedClusterID : option (list byte)
}.
#[global] Instance eta_Limits : Settable Limits :=
  λ l, mkLimits (MaxFrameSize l) (MaxSWIMDatagramSize l) (MaxCraneDatagramSize l) (ExpectedClusterID l).

Definition DefaultLimits : Limits := mkLimits (Z.shiftl 8 20) 1200 MaxCraneDatagramBytesV1 None.

(** ** Authentication *)

Record Authenticator := mkAuthenticator { Sign : list byte → list byte; Verify : list byte → list byte → bool }.

Definition HMACAuthenticator (key : list byte) : Authenticator :=
  mkAuthenticator (hmac_sha256 key) (λ message mac, bool_decide (hmac_sha256 key message = mac)).

(** ** Limits *)

Definition isSWIMDatagramMessage (message : Z) : bool :=
  (message =? MessageSWIMPing) || (message =? MessageSWIMAck) || (message =? MessageSWIMPingReq) ||
  (message =? MessageSWIMIndirectAck) || (message =? MessageSWIMGossip) || (message =? MessageSWIMDigest).

Definition isCraneDatagramMessage (message : Z) : bool :=
  (message =? MessageCraneTupleDelivery) || (message =? MessageCraneTupleDeliveryAck) || (message =? MessageCraneTupleDeliveryNack).

Definition isActiveCraneMessage (message : Z) : bool :=
  ((MessageCraneWorkerHandshake <=? message) && (message <=? MessageCraneWorkerError)) ||
  ((MessageCraneSubmitRequest <=? message) && (message <=? MessageCraneJobListResponse)) ||
  isCraneDatagramMessage message.

Definition isReservedCraneMessage (message : Z) : bool :=
  (MessageCraneWorkerHandshake <=? message) && (message <=? 299) && negb (isActiveCraneMessage message).

(** [uint64(limit) > math.MaxUint32]; a negative limit is large when unsigned. *)
Definition validateLimitDomain (limit : Z) : outcome wire_error unit :=
  if max_uint32 <? wrap64 limit then Err ErrTooLarge else Ok tt.

Definition resolveLimits (limits : Limits) : outcome wire_error Limits :=
  let limits := if MaxFrameSize limits =? 0 then limits <| MaxFrameSize := MaxFrameSize DefaultLimits |> else limits in
  let limits := if MaxSWIMDatagramSize limits =? 0
                then limits <| MaxSWIMDatagramSize := MaxSWIMDatagramSize DefaultLimits |> else limits in
  let limits := if MaxCraneDatagramSize limits =? 0
                then limits <| MaxCraneDatagramSize := MaxCraneDatagramSize DefaultLimits |> else limits in
  if MaxCraneDatagramBytesV1 <? MaxCraneDatagramSize limits then Err ErrTooLarge
  else
    let minimum := FixedHeaderSize + MACSize in
    if (MaxFrameSize limits <? minimum) || (MaxSWIMDatagramSize limits <? minimum) || (MaxCraneDatagramSize limits <? minimum)
    then Err ErrTooLarge
    else
      let? _ := validateLimitDomain (MaxFrameSize limits) in
      let? _ := validateLimitDomain (MaxSWIMDatagramSize limits) in
      let? _ := validateLimitDomain (MaxCraneDatagramSize limits) in
      Ok limits.

Definition effectiveResolvedLimit (message : Z) (limits : Limits) : Z :=
  let limit := MaxFrameSize limits in
  let limit := if isSWIMDatagramMessage message && (MaxSWIMDatagramSize limits <? limit) then MaxSWIMDatagramSize limits else limit in
  if isCraneDatagramMessage message && (MaxCraneDatagramSize limits <? limit) then MaxCraneDatagramSize limits else limit.

Definition EffectiveLimit (message : Z) (limits : Limits) : outcome wire_error Z :=
  let? resolved := resolveLimits limits in
  if isReservedCraneMessage message then Err ErrUnsupportedMessage else Ok (effectiveResolvedLimit message resolved).

Definition validateHeader (header : Header) (limits : Limits) : outcome wire_error unit :=
  if negb (H_Version header =? Version1) then Err ErrUnsupportedVersion
  else if isReservedCraneMessage (H_Message header) then Err ErrUnsupportedMessage
  else if negb (H_Codec header =? CodecGob) && negb (H_Codec header =? CodecBinary) then Err ErrUnsupportedCodec
  else if isActiveCraneMessage (H_Message header) && negb (H_Codec header =? CodecBinary) then Err ErrUnsupportedCodec
  else match ExpectedClusterID limits with
       | Some expected => if negb (bool_decide (H_ClusterID header = expected)) then Err ErrAuthentication else Ok tt
       | None => Ok tt
       end.

(** ** Frames *)

Definition frameMagic : list byte := [Byte.x43; Byte.x53; Byte.x34; Byte.x32].

(** Two's complement of 64 bits. *)
Definition int64 (z : Z) : Z := if max_int <? z then z - 18446744073709551616 else z.

Definition encodeHeader (header : Header) (payloadLength : Z) : list byte :=
  frameMagic ++ be_bytes 2 (H_Version header) ++ be_bytes 2 (H_Message header) ++ H_ClusterID header ++
  be_bytes 2 (H_SenderID header) ++ H_RequestID header ++ be_bytes 8 (wrap64 (H_TimestampMillis header)) ++
  [byte_of_Z (H_Codec header)] ++ be_bytes 4 payloadLength.

Definition decodeHeader (source : list byte) : Header :=
  mkHeader (be_value (sub 4 6 source)) (be_value (sub 6 8 source)) (sub 8 24 source) (be_value (sub 24 26 source))
    (sub 26 42 source) (int64 (be_value (sub 42 50 source))) (be_value (sub 50 51 source)).

Definition Encode (header : Header) (payload : list byte) (auth : option Authenticator) (limits : Limits) :
    outcome wire_error (list byte) :=
  let? resolved := resolveLimits limits in
  let? _ := validateHeader header resolved in
  match auth with
  | None => Err ErrAuthentication
  | Some auth =>
    let limit := effectiveResolvedLimit (H_Message header) resolved in
    let overhead := FixedHeaderSize + MACSize in
    if limit - overhead <? len payload then Err ErrTooLarge
    else
      let signed := encodeHeader header (len payload) ++ payload in
      let mac := Sign auth signed in
      if negb (len mac =? MACSize) then Err ErrAuthentication else Ok (signed ++ mac)
  end.

Definition Decode (encoded : list byte) (auth : option Authenticator) (limits : Limits) : outcome wire_error Frame :=
  let? resolved := resolveLimits limits in
  if MaxFrameSize resolved <? len encoded then Err ErrTooLarge
  else if len encoded <? FixedHeaderSize + MACSize then Err ErrMalformed
  else if negb (bool_decide (sub 0 4 encoded = frameMagic)) then Err ErrMalformed
  else
    let header := decodeHeader (sub 0 55 encoded) in
    let? _ := validateHeader header resolved in
    let payloadLength := be_value (sub 51 55 encoded) in
    let declared := FixedHeaderSize + payloadLength + MACSize in
    let limit := effectiveResolvedLimit (H_Message header) resolved in
    if limit <? declared then Err ErrTooLarge
    else if negb (declared =? len encoded) then Err ErrMalformed
    else match auth with
         | None => Err ErrAuthentication
         | Some auth =>
           let signedLength := Z.to_nat (FixedHeaderSize + payloadLength) in
           if negb (Verify auth (take signedLength encoded) (drop signedLength encoded)) then Err ErrAuthentication
           else Ok (mkFrame header (sub 55 signedLength encoded))
         end.

(** ** The header *)

Definition is_i64 (z : Z) : Prop := - max_int - 1 ≤ z ≤ max_int.

(** The fields have their Go types. *)
Record header_typed (h : Header) : Prop := {
  ty_version : is_u16 (H_Version h);
  ty_message : is_u16 (H_Message h);
  ty_cluster : length (H_ClusterID h) = 16%nat;
  ty_sender : is_u16 (H_SenderID h);
  ty_request : length (H_RequestID h) = 16%nat;
  ty_timestamp : is_i64 (H_TimestampMillis h);
  ty_codec : is_u8 (H_Codec h)
}.

Lemma sub_app_l (a b : nat) (l k : list byte) : (b ≤ length l)%nat → sub a b (l ++ k) = sub a b l.
Proof.
  intros Hb. unfold sub. destruct (decide (a ≤ length l)%nat).
  - rewrite drop_app_le by lia. apply take_app_le. rewrite length_drop. lia.
  - by replace (b - a)%nat with 0%nat by lia.
Qed.

Lemma int64_wrap (z : Z) : is_i64 z → int64 (wrap64 z) = z.
Proof.
  unfold is_i64, int64, wrap64, max_int. intros H. destruct (decide (0 ≤ z)).
  - rewrite Z.mod_small by lia. by rewrite (proj2 (Z.ltb_ge _ _)) by lia.
  - replace (z mod 18446744073709551616) with (z + 18446744073709551616) by (apply Z.mod_unique with (-1); lia).
    rewrite (proj2 (Z.ltb_lt _ _)) by lia. lia.
Qed.

Lemma wrap_int64 (z : Z) : is_u64 z → wrap64 (int64 z) = z ∧ is_i64 (int64 z).
Proof.
  unfold is_u64, is_i64, int64, wrap64, max_int, max_uint64. intros H. destruct (Z.ltb_spec 9223372036854775807 z).
  - split; [|lia]. symmetry. apply Z.mod_unique with (-1); lia.
  - split; [|lia]. apply Z.mod_small. lia.
Qed.

Definition header_fields (h : Header) (n : Z) : list (list byte) :=
  [frameMagic; be_bytes 2 (H_Version h); be_bytes 2 (H_Message h); H_ClusterID h; be_bytes 2 (H_SenderID h); H_RequestID h;
   be_bytes 8 (wrap64 (H_TimestampMillis h)); [byte_of_Z (H_Codec h)]; be_bytes 4 n].

Lemma encodeHeader_fields (h : Header) (n : Z) : encodeHeader h n = concat (header_fields h n).
Proof. unfold encodeHeader, header_fields. cbn [concat]. by rewrite app_nil_r. Qed.

Lemma encodeHeader_length (h : Header) (n : Z) : header_typed h → length (encodeHeader h n) = 55%nat.
Proof.
  intros [? ? Hc ? Hr ? ?]. unfold encodeHeader. rewrite !length_app, !length_be_bytes, Hc, Hr. done.
Qed.

Lemma be_value_byte (z : Z) : is_u8 z → be_value [byte_of_Z z] = z.
Proof. intros H. unfold be_value. simpl. rewrite byte_to_of_Z. apply Z.mod_small. ulia. Qed.

Lemma decode_encode_header (h : Header) (n : Z) :
  header_typed h → is_u32 n →
  sub 0 4 (encodeHeader h n) = frameMagic ∧ decodeHeader (encodeHeader h n) = h ∧ be_value (sub 51 55 (encodeHeader h n)) = n.
Proof.
  intros [Hv Hm Hc Hs Hr Ht Hco] Hn. rewrite encodeHeader_fields.
  assert (∀ i first last field, header_fields h n !! i = Some field →
    first = length (concat (take i (header_fields h n))) → last = (first + length field)%nat →
    sub first last (concat (header_fields h n)) = field) as Hsub by (intros; by eapply sub_concat).
  unfold decodeHeader.
  rewrite (Hsub 0%nat 0%nat 4%nat frameMagic), (Hsub 1%nat _ _ (be_bytes 2 (H_Version h))), (Hsub 2%nat _ _ (be_bytes 2 (H_Message h))),
    (Hsub 3%nat _ _ (H_ClusterID h)), (Hsub 4%nat _ _ (be_bytes 2 (H_SenderID h))), (Hsub 5%nat _ _ (H_RequestID h)),
    (Hsub 6%nat _ _ (be_bytes 8 (wrap64 (H_TimestampMillis h)))), (Hsub 7%nat _ _ [byte_of_Z (H_Codec h)]), (Hsub 8%nat _ _ (be_bytes 4 n));
    try done; cbn [take header_fields concat]; rewrite ?app_nil_r, ?length_app, ?length_be_bytes, ?Hc, ?Hr; try done.
  pose proof (wrap64_range (H_TimestampMillis h)). rewrite !be_value_small, be_value_byte, int64_wrap by (simpl Z.pow; done || ulia).
  split_and!; [done|by destruct h|done].
Qed.

Lemma be_value_width (l : list byte) (n : nat) : length l = n → 0 ≤ be_value l < 256 ^ Z.of_nat n.
Proof. intros <-. apply be_value_range. Qed.

Lemma encode_decode_header (src : list byte) :
  length src = 55%nat → sub 0 4 src = frameMagic →
  encodeHeader (decodeHeader src) (be_value (sub 51 55 src)) = src ∧ header_typed (decodeHeader src).
Proof.
  intros Hl Hmagic.
  assert (∀ first last, (first ≤ last ≤ 55)%nat → length (sub first last src) = (last - first)%nat) as Hs by (intros; apply sub_length; lia).
  assert (∀ first last n, (first ≤ last ≤ 55)%nat → (last - first)%nat = n →
    be_bytes n (be_value (sub first last src)) = sub first last src) as Hbe.
  { intros first last n Hr <-. rewrite <- (Hs first last Hr) at 1. apply be_bytes_value. }
  pose proof (be_value_width _ _ (Hs 4 6 ltac:(lia))%nat). pose proof (be_value_width _ _ (Hs 6 8 ltac:(lia))%nat).
  pose proof (be_value_width _ _ (Hs 24 26 ltac:(lia))%nat). pose proof (be_value_width _ _ (Hs 42 50 ltac:(lia))%nat) as Ht.
  pose proof (be_value_width _ _ (Hs 50 51 ltac:(lia))%nat). simpl Z.pow in *.
  destruct (wrap_int64 (be_value (sub 42 50 src))) as [Hw Hi]; [ulia|]. split.
  - unfold encodeHeader, decodeHeader.
    cbn [H_Version H_Message H_ClusterID H_SenderID H_RequestID H_TimestampMillis H_Codec]. rewrite Hw, !Hbe by lia.
    assert ([byte_of_Z (be_value (sub 50 51 src))] = sub 50 51 src) as ->.
    { rewrite <- (Hbe 50 51 1)%nat at 2 by lia. cbn [be_bytes]. do 2 f_equal. change (256 ^ Z.of_nat 0) with 1. by rewrite Z.div_1_r. }
    rewrite <- Hmagic. change (sub 0 4 src) with (take 4 src). trans (take 4 src ++ drop 4 src); [|apply take_drop]. f_equal.
    rewrite (sub_split 4 6), (sub_split 6 8), (sub_split 8 24), (sub_split 24 26), (sub_split 26 42), (sub_split 42 50), (sub_split 50 51),
      (sub_split 51 55) by lia. rewrite (skipn_all2 src), app_nil_r by lia. done.
  - split; simpl; rewrite ?Hs by lia; try done; ulia.
Qed.

(** ** Limits *)

Record limits_typed (l : Limits) : Prop := {
  ty_frame : is_i64 (MaxFrameSize l);
  ty_swim : is_i64 (MaxSWIMDatagramSize l);
  ty_crane : is_i64 (MaxCraneDatagramSize l)
}.

Lemma limit_domain (limit : Z) : is_i64 limit → 87 ≤ limit → wrap64 limit ≤ max_uint32 → limit ≤ max_uint32.
Proof. intros Hi Hl. unfold is_i64 in Hi. rewrite wrap64_small by ulia. done. Qed.

Lemma resolveLimits_bounds (limits resolved : Limits) :
  limits_typed limits → resolveLimits limits = Ok resolved →
  limits_typed resolved ∧ 87 ≤ MaxFrameSize resolved ≤ max_uint32 ∧ 87 ≤ MaxSWIMDatagramSize resolved ∧ 87 ≤ MaxCraneDatagramSize resolved.
Proof.
  intros [Hf Hs Hc]. unfold resolveLimits, validateLimitDomain. cbv zeta.
  set (l := if MaxCraneDatagramSize _ =? 0 then _ else _).
  assert (limits_typed l) as Hl by (unfold l; repeat case_goal; split; simpl; unfold is_i64, max_int in *; done || lia).
  clearbody l. repeat (case_outer; try done). intros [= <-]. bool_hyps. unfold FixedHeaderSize, MACSize in *.
  split; [done|]. destruct Hl. split_and!; try lia. apply limit_domain; [done|lia|].
  revert Heq1. case_outer; [done|]. intros _. by bool_hyps.
Qed.

Lemma effective_le (message : Z) (limits : Limits) : effectiveResolvedLimit message limits ≤ MaxFrameSize limits.
Proof. unfold effectiveResolvedLimit. cbv zeta. repeat case_goal; bool_hyps; lia. Qed.

(** ** Frames *)

(** What a signature needs: its size, and that only the signature itself is
    accepted. *)
Record auth_laws (auth : Authenticator) : Prop := {
  sign_length : ∀ m, length (Sign auth m) = 32%nat;
  verify_sign : ∀ m mac, Verify auth m mac = true ↔ mac = Sign auth m
}.

Lemma hmac_laws (key : list byte) : auth_laws (HMACAuthenticator key).
Proof.
  split; simpl.
  - intros m. unfold hmac_sha256. cbv zeta. apply sha256_length.
  - intros m mac. rewrite bool_decide_eq_true. naive_solver.
Qed.

Section bijection.
Context (auth : Authenticator) (Hauth : auth_laws auth) (limits : Limits) (Hlimits : limits_typed limits).

Lemma Encode_sound (header : Header) (payload encoded : list byte) :
  header_typed header → Encode header payload (Some auth) limits = Ok encoded →
  Decode encoded (Some auth) limits = Ok (mkFrame header payload).
Proof.
  intros Hty. unfold Encode, Decode. destruct (resolveLimits limits) as [res| | |] eqn:Hres; cbn [outcome_bind]; try done.
  destruct (validateHeader header res) as [[]| | |] eqn:Hval; cbn [outcome_bind]; try done. cbv zeta.
  destruct (resolveLimits_bounds limits res Hlimits Hres) as (_ & Hmax & _). pose proof (effective_le (H_Message header) res) as Heff.
  do 2 (case_outer; [done|]). intros <-%Ok_inj. bool_hyps. pose proof (len_nonneg payload).
  unfold FixedHeaderSize, MACSize in *. set (hd := encodeHeader header (len payload)). set (mac := Sign auth (hd ++ payload)) in *.
  assert (length hd = 55%nat) as Hhd by (by apply encodeHeader_length). assert (length mac = 32%nat) as Hmac by apply (sign_length _ Hauth).
  destruct (decode_encode_header header (len payload)) as (Hm & Hd & Hp); [done|ulia|]. fold hd in Hm, Hd, Hp.
  assert (len ((hd ++ payload) ++ mac) = 55 + len payload + 32) as Hlen by (unfold len in *; rewrite !length_app; lia).
  rewrite Hlen, !(proj2 (Z.ltb_ge _ _)) by lia. rewrite <- app_assoc.
  assert (sub 0 55 (hd ++ payload ++ mac) = hd) as ->
    by (change (take 55 (hd ++ payload ++ mac) = hd); by apply take_app_length').
  rewrite !sub_app_l by lia. rewrite Hm, bool_decide_true, Hd, Hval, Hp by done. cbn [negb outcome_bind].
  rewrite (proj2 (Z.ltb_ge _ _)) by lia. rewrite Z.eqb_refl. cbn [negb].
  replace (Z.to_nat (55 + len payload)) with (length (hd ++ payload)) by (rewrite length_app; unfold len; lia).
  rewrite app_assoc, take_app_length, drop_app_length, (proj2 (verify_sign _ Hauth _ mac)) by done. cbn [negb].
  rewrite sub_app_l by done. do 2 f_equal. unfold sub. rewrite drop_app_length' by done. rewrite take_ge; [done|]. rewrite length_app. lia.
Qed.

Lemma Decode_sound (encoded : list byte) (frame : Frame) :
  Decode encoded (Some auth) limits = Ok frame →
  header_typed (F_Header frame) ∧ Encode (F_Header frame) (F_Payload frame) (Some auth) limits = Ok encoded.
Proof.
  unfold Encode, Decode. destruct (resolveLimits limits) as [res| | |] eqn:Hres; cbn [outcome_bind]; try done.
  do 3 (case_outer; [done|]). cbv zeta. destruct (validateHeader _ res) as [[]| | |] eqn:Hval; cbn [outcome_bind]; try done.
  do 3 (case_outer; [done|]). intros [= <-]. bool_hyps. cbn [F_Header F_Payload].
  unfold FixedHeaderSize, MACSize in *. set (n := be_value (sub 51 55 encoded)) in *.
  assert (0 ≤ n) by apply be_value_range. set (hd := sub 0 55 encoded) in *.
  assert (length encoded = (55 + Z.to_nat n + 32)%nat) as Hle by (unfold len in *; lia).
  assert (encoded = hd ++ drop 55 encoded) as Hsplit by (symmetry; apply take_drop).
  assert (length hd = 55%nat) as Hhd by (apply sub_length; lia).
  replace (Z.to_nat (55 + n)) with (55 + Z.to_nat n)%nat in * by lia.
  assert (sub 0 4 encoded = sub 0 4 hd) as Hm by (rewrite Hsplit at 1; apply sub_app_l; lia).
  assert (n = be_value (sub 51 55 hd)) as Hn by (unfold n; rewrite Hsplit at 1; by rewrite sub_app_l by lia).
  destruct (encode_decode_header hd) as [Henc Hty]; [done|congruence|]. split; [done|]. rewrite Hval. cbn [outcome_bind].
  assert (len (sub 55 (55 + Z.to_nat n) encoded) = n) as Hpl by (unfold len; rewrite sub_length; lia).
  rewrite Hpl, (proj2 (Z.ltb_ge _ _)) by lia. rewrite Hn, Henc, <- Hn.
  assert (hd ++ sub 55 (55 + Z.to_nat n) encoded = take (55 + Z.to_nat n) encoded) as ->.
  { unfold sub. replace (55 + Z.to_nat n - 55)%nat with (Z.to_nat n) by lia. apply (take_take_drop encoded 55). }
  match goal with H : Verify _ _ _ = true |- _ => apply (verify_sign _ Hauth) in H as <- end.
  assert (len (drop (55 + Z.to_nat n) encoded) = 32) as -> by (unfold len; rewrite length_drop; lia). cbn [Z.eqb Pos.eqb negb].
  by rewrite take_drop.
Qed.
End bijection.

(** Resolved limits resolve to themselves. *)
Lemma resolve_resolved (limits resolved : Limits) : resolveLimits limits = Ok resolved → resolveLimits resolved = Ok resolved.
Proof.
  unfold resolveLimits at 1. cbv zeta. set (l := if MaxCraneDatagramSize _ =? 0 then _ else _). clearbody l.
  case_outer; [done|]. case_outer; [done|]. repeat (case_outer; try done). intros <-%Ok_inj.
  bool_hyps. unfold FixedHeaderSize, MACSize in *. unfold resolveLimits. cbv zeta.
  rewrite !(proj2 (Z.eqb_neq (MaxFrameSize l) 0)), !(proj2 (Z.eqb_neq (MaxSWIMDatagramSize l) 0)), !(proj2 (Z.eqb_neq (MaxCraneDatagramSize l) 0)) by lia.
  unfold FixedHeaderSize, MACSize. rewrite !(proj2 (Z.ltb_ge _ _)) by lia. cbn [orb].
  by repeat match goal with H : validateLimitDomain _ = Ok _ |- _ => rewrite H end.
Qed.

Lemma Decode_resolved (encoded : list byte) (auth : option Authenticator) (limits resolved : Limits) :
  resolveLimits limits = Ok resolved → Decode encoded auth resolved = Decode encoded auth limits.
Proof. intros Hr. unfold Decode. by rewrite Hr, (resolve_resolved _ _ Hr). Qed.

(** What an accepted frame satisfies before it is authenticated. *)
Lemma Decode_checks (encoded : list byte) (auth : option Authenticator) (limits : Limits) (frame : Frame) :
  Decode encoded auth limits = Ok frame →
  ∃ resolved, resolveLimits limits = Ok resolved ∧ 87 ≤ len encoded ≤ MaxFrameSize resolved ∧
    let hd := sub 0 55 encoded in
    length hd = 55%nat ∧ sub 0 4 hd = frameMagic ∧ validateHeader (decodeHeader hd) resolved = Ok tt ∧
    FixedHeaderSize + be_value (sub 51 55 hd) + MACSize = len encoded ∧
    len encoded ≤ effectiveResolvedLimit (H_Message (decodeHeader hd)) resolved.
Proof.
  unfold Decode. destruct (resolveLimits limits) as [res| | |] eqn:Hres; cbn [outcome_bind]; try done.
  do 3 (case_outer; [done|]). cbv zeta. destruct (validateHeader _ res) as [[]| | |] eqn:Hval; cbn [outcome_bind]; try done.
  do 2 (case_outer; [done|]). intros _. bool_hyps. exists res. unfold FixedHeaderSize, MACSize in *.
  assert (length (sub 0 55 encoded) = 55%nat) as Hl by (apply sub_length; unfold len in *; lia).
  assert (∀ a b, (b ≤ 55)%nat → sub a b encoded = sub a b (sub 0 55 encoded)) as Hs.
  { intros a b Hb. rewrite <- (take_drop 55 encoded) at 1. change (take 55 encoded) with (sub 0 55 encoded). apply sub_app_l. lia. }
  rewrite (Hs 0 4)%nat in * by lia. rewrite (Hs 51 55)%nat in * by lia. split_and!; try done; lia.
Qed.

(** ** Main result *)

(** C12: The frames a node accepts are exactly the frames a holder of the key can
    encode: decoding a byte sequence yields a header and a payload if and only if
    the header fields have their Go types and encoding them under the same key and
    limits yields that byte sequence.  In particular an accepted frame carries the
    HMAC-SHA-256 of its own header and payload, and has one encoding only. *)
Theorem frame_bijection (key encoded payload : list byte) (header : Header) (limits : Limits) :
  limits_typed limits →
  Decode encoded (Some (HMACAuthenticator key)) limits = Ok (mkFrame header payload) ↔
  header_typed header ∧ Encode header payload (Some (HMACAuthenticator key)) limits = Ok encoded.
Proof.
  intros Hl. split.
  - apply (Decode_sound _ (hmac_laws key) limits encoded).
  - intros [Hty He]. by apply (Encode_sound _ (hmac_laws key) limits Hl).
Qed.

Definition exHeader : Header := mkHeader 1 MessageSWIMPing (replicate 16 Byte.x07) 3 (replicate 16 Byte.x09) (-5) CodecGob.
Definition exFrameBytes : list byte :=
  match Encode exHeader [Byte.x61; Byte.x62] (Some (HMACAuthenticator [Byte.x6b])) DefaultLimits with Ok b => b | _ => [] end.

Lemma exHeader_typed : header_typed exHeader.
Proof. split; vm_compute; split; discriminate || reflexivity || done. Qed.

Lemma DefaultLimits_typed : limits_typed DefaultLimits.
Proof. split; vm_compute; split; discriminate. Qed.

Lemma frame_bijection_witness :
  len exFrameBytes = 89 ∧
  Decode exFrameBytes (Some (HMACAuthenticator [Byte.x6b])) DefaultLimits = Ok (mkFrame exHeader [Byte.x61; Byte.x62]).
Proof.
  split; [vm_compute; reflexivity|].
  apply (frame_bijection [Byte.x6b] exFrameBytes [Byte.x61; Byte.x62] exHeader DefaultLimits DefaultLimits_typed).
  split; [exact exHeader_typed|vm_compute; reflexivity].
Defined.

End WireFrame.
