(* ===== verification/WireStream.v ===== *)
(** * Frames on a TCP connection

    [internal/wire/stream.go]: one length-prefixed frame per operation, with the
    deadline of the operation.  The read side of a connection is the pieces it
    will deliver and the error after them; the write side is how it answers the
    next writes and the bytes it took.  The mutexes of a stream make each operation
    atomic in its direction.

    Theorems: frames that were written are read back in order whatever the pieces
    are; a reader of arbitrary input returns, never takes more than one frame of
    the configured size, and gives up on a bad header without its body. *)

From S2P Require Import Prelude Hash WireFrame.

Module WireStream.
Import Hash WireFrame.
Open Scope go_scope.
Open Scope Z_scope.

(** ** Connections and contexts *)

Inductive io_error :=
| EOF | UnexpectedEOF | ShortWrite | NoProgress | ConnectionError | Canceled | DeadlineExceeded
| SetDeadlineError | ClearDeadlineError | NilConnection | NilContext | NilStream | WireError (e : wire_error).
#[global] Instance io_error_eq_dec : EqDecision io_error.
Proof. solve_decision. Defined.

(** An error value is the list of the errors joined in it. *)
Abbreviation errors := (list io_error).

Record Context := mkContext { ctx_Err : option io_error; ctx_Deadline : option Z }.

(** The environment of one operation: its context, the time, what the connection
    answers to setting and clearing the deadline, and the state of the context and
    the time when an input or output fails. *)
Record operation := mkOperation {
  OP_ctx : option Context;
  OP_now : Z;
  OP_setDeadline : bool;
  OP_clearDeadline : bool;
  OP_laterErr : option io_error;
  OP_laterNow : Z
}.

Record Conn := mkConn {
  CN_pieces : list (list byte);
  CN_end : io_error;
  CN_replies : list (Z * option io_error);
  CN_sent : list byte
}.
#[global] Instance eta_Conn : Settable Conn := λ c, mkConn (CN_pieces c) (CN_end c) (CN_replies c) (CN_sent c).

Abbreviation IO A := (M Conn errors A).

Definition liftWire {A} (o : outcome wire_error A) : outcome errors A :=
  match o with Ok a => Ok a | Err e => Err [WireError e] | Panic => Panic | Blocked => Blocked end.

(** ** Deadlines *)

(** The result tells whether a deadline was set and has to be cleared; the zero
    time is no deadline. *)
Definition applyOperationDeadline (op : operation) (ioTimeout : Z) : outcome errors bool :=
  match OP_ctx op with
  | None => Err [NilContext]
  | Some ctx =>
    match ctx_Err ctx with
    | Some e => Err [e]
    | None =>
      let deadline := if 0 <? ioTimeout then Time_Add (OP_now op) ioTimeout else 0 in
      let deadline := match ctx_Deadline ctx with
                      | Some d => if (deadline =? 0) || (d <? deadline) then d else deadline
                      | None => deadline
                      end in
      if deadline =? 0 then Ok false
      else if OP_setDeadline op then Ok true else Err [SetDeadlineError]
    end
  end.

Definition contextualIOError (op : operation) (ioError : io_error) : errors :=
  match OP_ctx op with
  | None => [ioError]
  | Some ctx =>
    match OP_laterErr op with
    | Some e => [e; ioError]
    | None =>
      match ctx_Deadline ctx with
      | Some d => if negb (OP_laterNow op <? d) then [DeadlineExceeded; ioError] else [ioError]
      | None => [ioError]
      end
    end
  end.

(** The deferred call: a failure to clear the deadline is joined to the result. *)
Definition clearing {A} (op : operation) (armed : bool) (m : IO A) : IO A := λ c,
  let (o, c) := m c in
  if negb armed || OP_clearDeadline op then (o, c)
  else match o with
       | Ok _ => (Err [ClearDeadlineError], c)
       | Err e => (Err (e ++ [ClearDeadlineError]), c)
       | Panic => (Panic, c)
       | Blocked => (Blocked, c)
       end.

(** ** Reading *)

(** [io.ReadFull] of [n] bytes: a read delivers at most one piece and leaves the
    rest of it. *)
Fixpoint readPieces (n : nat) (got : bool) (ending : io_error) (pieces : list (list byte)) :
    outcome io_error (list byte) * list (list byte) :=
  match n with
  | O => (Ok [], pieces)
  | S _ =>
    match pieces with
    | [] => (Err (if got && bool_decide (ending = EOF) then UnexpectedEOF else ending), [])
    | piece :: rest =>
      if (n <? length piece)%nat then (Ok (take n piece), drop n piece :: rest)
      else match readPieces (n - length piece) (got || (0 <? length piece)%nat) ending rest with
           | (Ok bytes, rest) => (Ok (piece ++ bytes), rest)
           | (o, rest) => (o, rest)
           end
    end
  end.

Definition ReadFull (op : operation) (n : Z) : IO (list byte) := λ c,
  match readPieces (Z.to_nat n) false (CN_end c) (CN_pieces c) with
  | (Ok bytes, rest) => (Ok bytes, c <| CN_pieces := rest |>)
  | (Err e, rest) => (Err (contextualIOError op e), c <| CN_pieces := rest |>)
  | (Panic, rest) => (Panic, c <| CN_pieces := rest |>)
  | (Blocked, rest) => (Blocked, c <| CN_pieces := rest |>)
  end.

Definition readBody (op : operation) (auth : option Authenticator) (resolved : Limits) : IO Frame :=
  let! prefix := ReadFull op 4 in
  let bodyLength := be_value prefix in
  if bodyLength <? FixedHeaderSize + MACSize then throw [WireError ErrMalformed]
  else if MaxFrameSize resolved <? bodyLength then throw [WireError ErrTooLarge]
  else
    let! fixedHeader := ReadFull op FixedHeaderSize in
    if negb (bool_decide (sub 0 4 fixedHeader = frameMagic)) then throw [WireError ErrMalformed]
    else
      let header := decodeHeader fixedHeader in
      let! _ := lift (liftWire (validateHeader header resolved)) in
      let payloadLength := be_value (sub 51 55 fixedHeader) in
      let declaredLength := FixedHeaderSize + payloadLength + MACSize in
      if effectiveResolvedLimit (H_Message header) resolved <? declaredLength then throw [WireError ErrTooLarge]
      else if negb (declaredLength =? bodyLength) then throw [WireError ErrMalformed]
      else
        let! rest := ReadFull op (bodyLength - FixedHeaderSize) in
        lift (liftWire (Decode (fixedHeader ++ rest) auth resolved)).

(** [present] tells whether there is a connection. *)
Definition ReadTCPFrame (present : bool) (op : operation) (auth : option Authenticator) (limits : Limits) (ioTimeout : Z) : IO Frame :=
  if negb present then throw [NilConnection]
  else
    let! resolved := lift (liftWire (resolveLimits limits)) in
    let! armed := lift (applyOperationDeadline op ioTimeout) in
    clearing op armed (readBody op auth resolved).

(** ** Writing *)

(** One call of [Write]: the connection takes a part of the bytes; when nothing
    else is known of it, all of them. *)
Definition connWrite (payload : list byte) (c : Conn) : Z * option io_error * Conn :=
  match CN_replies c with
  | (written, e) :: rest =>
    (written, e, c <| CN_replies := rest |> <| CN_sent ::= λ s, s ++ take (Z.to_nat written) payload |>)
  | [] => (len payload, None, c <| CN_sent ::= λ s, s ++ payload |>)
  end.

Fixpoint writeLoop (fuel : nat) (payload : list byte) (c : Conn) : outcome io_error unit * Conn :=
  match payload with
  | [] => (Ok tt, c)
  | _ =>
    match fuel with
    | O => (Blocked, c)
    | S fuel =>
      let '(written, e, c) := connWrite payload c in
      if (written <? 0) || (len payload <? written) then (Err ShortWrite, c)
      else
        let payload := drop (Z.to_nat written) payload in
        match e with
        | Some e => (Err e, c)
        | None => if written =? 0 then (Err NoProgress, c) else writeLoop fuel payload c
        end
    end
  end.

Definition connWriteAll (op : operation) (payload : list byte) : IO unit := λ c,
  match writeLoop (length payload) payload c with
  | (Ok _, c) => (Ok tt, c)
  | (Err e, c) => (Err (contextualIOError op e), c)
  | (Panic, c) => (Panic, c)
  | (Blocked, c) => (Blocked, c)
  end.

Definition WriteTCPFrame (present : bool) (op : operation) (frame : Frame) (auth : option Authenticator) (limits : Limits)
    (ioTimeout : Z) : IO unit :=
  if negb present then throw [NilConnection]
  else
    let! body := lift (liftWire (Encode (F_Header frame) (F_Payload frame) auth limits)) in
    if max_uint32 <? len body then throw [WireError ErrTooLarge]
    else
      let! armed := lift (applyOperationDeadline op ioTimeout) in
      clearing op armed (connWriteAll op (be_bytes 4 (len body)) ;;! connWriteAll op body).

(** ** Streams *)

(** [ST_conn] tells whether there is a connection.  The limits are copied when the
    stream is made. *)
Record TCPFrameStream := mkStream {
  ST_conn : bool;
  ST_auth : option Authenticator;
  ST_limits : Limits;
  ST_ioTimeout : Z
}.

Definition NewTCPFrameStream (conn : bool) (auth : option Authenticator) (limits : Limits) (ioTimeout : Z) : TCPFrameStream :=
  mkStream conn auth limits ioTimeout.

Definition ReadFrame (s : option TCPFrameStream) (op : operation) : IO Frame :=
  match s with
  | None => throw [NilStream]
  | Some s => ReadTCPFrame (ST_conn s) op (ST_auth s) (ST_limits s) (ST_ioTimeout s)
  end.

Definition WriteFrame (s : option TCPFrameStream) (op : operation) (frame : Frame) : IO unit :=
  match s with
  | None => throw [NilStream]
  | Some s => WriteTCPFrame (ST_conn s) op frame (ST_auth s) (ST_limits s) (ST_ioTimeout s)
  end.

(** ** Pieces *)

Lemma readPieces_exact (pieces : list (list byte)) (n : nat) (got : bool) (ending : io_error) (l k : list byte) :
  concat pieces = l ++ k → length l = n →
  ∃ rest, readPieces n got ending pieces = (Ok l, rest) ∧ concat rest = k.
Proof.
  revert n got l. induction pieces as [|piece pieces IH]; intros n got l Hc Hl.
  - symmetry in Hc. apply app_eq_nil in Hc as [-> ->]. simpl in Hl. subst n. by exists [].
  - destruct n as [|n]; [apply nil_length_inv in Hl as ->; by exists (piece :: pieces)|].
    cbn [readPieces]. simpl in Hc. destruct (Nat.ltb_spec (S n) (length piece)) as [Hlt|Hge].
    + exists (drop (S n) piece :: pieces). assert (take (S n) piece = l) as <-.
      { rewrite <- (take_app_length' l k (S n) (eq_sym Hl)), <- Hc, take_app_le by lia. done. }
      split; [done|]. cbn [concat]. rewrite <- drop_app_le by lia. rewrite Hc. apply drop_app_length'. done.
    + set (got' := got || _). clearbody got'. assert (take (length piece) l = piece) as Hp.
      { rewrite <- (take_app_le l k) by lia. rewrite <- Hc. apply take_app_length. }
      destruct (IH (S n - length piece)%nat got' (drop (length piece) l)) as (rest & -> & Hr).
      { rewrite <- (take_drop (length piece) l), Hp, <- app_assoc in Hc. by apply app_inv_head in Hc. }
      { rewrite length_drop. lia. }
      exists rest. split; [|done]. do 2 f_equal. rewrite <- Hp at 1. apply take_drop.
Qed.

(** What a read takes is a prefix of what the connection delivers. *)
Lemma readPieces_prefix (pieces : list (list byte)) (n : nat) (got : bool) (ending : io_error) :
  let r := readPieces n got ending pieces in
  ∃ taken, concat pieces = taken ++ concat r.2 ∧ (length taken ≤ n)%nat ∧
    match r.1 with Ok l => l = taken ∧ length l = n | Err _ => True | _ => False end.
Proof.
  revert n got. induction pieces as [|piece pieces IH]; intros n got; cbv zeta.
  - destruct n; simpl; exists []; simpl; split_and!; try done; lia.
  - destruct n as [|n]; cbn [readPieces]; [exists []; simpl; split_and!; try done; lia|].
    destruct (Nat.ltb_spec (S n) (length piece)) as [Hlt|Hge].
    + exists (take (S n) piece). cbn [fst snd concat]. rewrite app_assoc, take_drop, length_take. split_and!; try done; lia.
    + set (got' := got || _). clearbody got'. destruct (IH (S n - length piece)%nat got') as (taken & Hc & Hl & Hr).
      exists (piece ++ taken). destruct (readPieces _ _ _ _) as [[l|e| |] rest]; cbn [fst snd concat] in *; try done;
        rewrite Hc, app_assoc, length_app.
      * destruct Hr as [-> Hn]. split_and!; try done; try lia. rewrite length_app. lia.
      * split_and!; try done; lia.
Qed.

Lemma ReadFull_exact (op : operation) (c : Conn) (l k : list byte) :
  concat (CN_pieces c) = l ++ k →
  ∃ rest, ReadFull op (len l) c = (Ok l, c <| CN_pieces := rest |>) ∧ concat rest = k.
Proof.
  intros Hc. unfold ReadFull. destruct (readPieces_exact (CN_pieces c) (Z.to_nat (len l)) false (CN_end c) l k) as (rest & -> & Hr);
    [done|unfold len; lia|]. eauto.
Qed.

(** ** Writing a frame *)

Lemma writeLoop_spec (fuel : nat) (payload : list byte) (c : Conn) :
  (length payload ≤ fuel)%nat →
  let r := writeLoop fuel payload c in
  returns r.1 ∧ (r.1 = Ok tt → CN_sent r.2 = CN_sent c ++ payload).
Proof.
  revert payload c. induction fuel as [|fuel IH]; intros payload c Hf; cbv zeta.
  { destruct payload; [|simpl in Hf; lia]. simpl. split; [done|]. by rewrite app_nil_r. }
  destruct payload as [|b payload]; [simpl; split; [done|]; by rewrite app_nil_r|]. cbn [writeLoop].
  set (p := b :: payload) in *. destruct (connWrite p c) as [[written e] c'] eqn:Hw.
  destruct ((written <? 0) || (len p <? written)) eqn:Hr; [done|]. bool_hyps. destruct e; [done|].
  destruct (Z.eqb_spec written 0); [done|]. assert (CN_sent c' = CN_sent c ++ take (Z.to_nat written) p) as Hs.
  { revert Hw. unfold connWrite. destruct (CN_replies c) as [|[w e] rest]; intros Hw; simplify_eq; simpl; [|done]. f_equal.
    symmetry. apply take_ge. unfold p, len. simpl. lia. }
  destruct (IH (drop (Z.to_nat written) p) c') as [H1 H2]; [rewrite length_drop; unfold len in *; lia|]. split; [done|].
  intros Ho. rewrite (H2 Ho), Hs, <- app_assoc, take_drop. done.
Qed.

Lemma connWriteAll_sent (op : operation) (payload : list byte) (c c' : Conn) :
  connWriteAll op payload c = (Ok tt, c') → CN_sent c' = CN_sent c ++ payload.
Proof.
  unfold connWriteAll. destruct (writeLoop_spec (length payload) payload c) as [_ H]; [done|].
  destruct (writeLoop _ _ _) as [[[]| | |] c1]; simpl in H; intros [= <-]. by apply H.
Qed.

Lemma clearing_Ok {A} (op : operation) (armed : bool) (m : IO A) (c c' : Conn) (a : A) :
  clearing op armed m c = (Ok a, c') → m c = (Ok a, c').
Proof. unfold clearing. destruct (m c) as [o c1]. repeat case_goal; try done. Qed.

(** The bytes of a frame on the connection. *)
Definition on_stream (body : list byte) : list byte := be_bytes 4 (len body) ++ body.

Lemma WriteTCPFrame_sent (present : bool) (op : operation) (frame : Frame) (auth : option Authenticator) (limits : Limits)
    (ioTimeout : Z) (c c' : Conn) :
  WriteTCPFrame present op frame auth limits ioTimeout c = (Ok tt, c') →
  ∃ body, Encode (F_Header frame) (F_Payload frame) auth limits = Ok body ∧ len body ≤ max_uint32 ∧
    CN_sent c' = CN_sent c ++ on_stream body.
Proof.
  unfold WriteTCPFrame. destruct present; [|done]. cbn [negb]. unfold bind at 1, lift at 1.
  destruct (Encode _ _ _ _) as [body| | |]; cbn [liftWire]; try done. destruct (Z.ltb_spec max_uint32 (len body)); [done|].
  unfold bind at 1, lift at 1. destruct (applyOperationDeadline op ioTimeout) as [armed| | |]; try done.
  intros Hc%clearing_Ok. exists body. split_and!; [done|lia|]. revert Hc. unfold bind.
  destruct (connWriteAll op (be_bytes 4 (len body)) c) as [[[]| | |] c1] eqn:H1; try done. intros H2.
  rewrite (connWriteAll_sent _ _ _ _ H2), (connWriteAll_sent _ _ _ _ H1). unfold on_stream. by rewrite app_assoc.
Qed.

(** ** Reading a frame *)

(** The context is alive and the connection obeys the deadlines. *)
Definition live (op : operation) : Prop :=
  (∃ ctx, OP_ctx op = Some ctx ∧ ctx_Err ctx = None) ∧ OP_setDeadline op = true ∧ OP_clearDeadline op = true.

Lemma live_applies (op : operation) (ioTimeout : Z) : live op → ∃ armed, applyOperationDeadline op ioTimeout = Ok armed.
Proof.
  intros ((ctx & Hc & He) & Hs & _). unfold applyOperationDeadline. rewrite Hc, He, Hs. cbv zeta. repeat case_goal; eauto.
Qed.

Lemma live_clearing {A} (op : operation) (armed : bool) (m : IO A) (c : Conn) : live op → clearing op armed m c = m c.
Proof. intros (_ & _ & Hc). unfold clearing. rewrite Hc, orb_true_r. by destruct (m c). Qed.

Lemma ReadTCPFrame_live (op : operation) (auth : option Authenticator) (limits resolved : Limits) (ioTimeout : Z) (c : Conn) :
  live op → resolveLimits limits = Ok resolved → ReadTCPFrame true op auth limits ioTimeout c = readBody op auth resolved c.
Proof.
  intros Hop Hr. unfold ReadTCPFrame. cbn [negb]. unfold bind, lift. rewrite Hr. cbn [liftWire].
  destruct (live_applies op ioTimeout Hop) as [armed ->]. by apply live_clearing.
Qed.

Lemma ReadTCPFrame_frame (op : operation) (auth : option Authenticator) (limits : Limits) (ioTimeout : Z) (c : Conn)
    (frame : Frame) (body k : list byte) :
  live op → Decode body auth limits = Ok frame → len body ≤ max_uint32 → concat (CN_pieces c) = on_stream body ++ k →
  ∃ rest, ReadTCPFrame true op auth limits ioTimeout c = (Ok frame, c <| CN_pieces := rest |>) ∧ concat rest = k.
Proof.
  intros Hop Hdec Hmax Hc. destruct (Decode_checks _ _ _ _ Hdec) as (res & Hres & Hlen & Hhd & Hmagic & Hval & Hdecl & Heff).
  set (hd := sub 0 55 body) in *. rewrite (ReadTCPFrame_live op auth limits res) by done. unfold readBody.
  assert (body = hd ++ drop 55 body) as Hbody by (symmetry; apply take_drop).
  unfold on_stream in Hc. rewrite <- app_assoc in Hc. unfold bind at 1.
  destruct (ReadFull_exact op c (be_bytes 4 (len body)) (body ++ k)) as (r1 & H1 & Hr1); [done|].
  change (len (be_bytes 4 (len body))) with 4 in H1. rewrite H1. rewrite be_value_small by (simpl Z.pow; ulia).
  unfold FixedHeaderSize, MACSize in *. rewrite !(proj2 (Z.ltb_ge _ _)) by lia. unfold bind at 1.
  destruct (ReadFull_exact op (c <| CN_pieces := r1 |>) hd (drop 55 body ++ k)) as (r2 & H2 & Hr2).
  { simpl. rewrite Hr1, Hbody at 1. by rewrite <- app_assoc. }
  replace (len hd) with 55 in H2 by (unfold len; lia). rewrite H2, Hmagic, bool_decide_true by done. cbn [negb].
  unfold bind at 1, lift at 1. rewrite Hval. cbn [liftWire]. rewrite Hdecl, (proj2 (Z.ltb_ge _ _)), Z.eqb_refl by lia. cbn [negb].
  unfold bind, lift. destruct (ReadFull_exact op (c <| CN_pieces := r2 |>) (drop 55 body) k) as (r3 & H3 & Hr3); [done|].
  replace (len (drop 55 body)) with (len body - 55) in H3 by (unfold len in *; rewrite length_drop; lia).
  change ((c <| CN_pieces := r1 |>) <| CN_pieces := r2 |>) with (c <| CN_pieces := r2 |>). rewrite H3, <- Hbody.
  rewrite (Decode_resolved _ _ _ _ Hres), Hdec. exists r3. split; [done|done].
Qed.

(** ** Sequences of frames *)

Section transfer.
Context (auth : Authenticator) (limits : Limits) (ioTimeout : Z).
Let stream : option TCPFrameStream := Some (mkStream true (Some auth) limits ioTimeout).

Definition sendFrames (op : operation) (frames : list Frame) : IO unit := forEach frames (WriteFrame stream op).

Fixpoint receiveFrames (op : operation) (n : nat) : IO (list Frame) :=
  match n with
  | O => ret []
  | S n => let! frame := ReadFrame stream op in let! frames := receiveFrames op n in ret (frame :: frames)
  end.

Lemma sendFrames_sent (op : operation) (frames : list Frame) (c c' : Conn) :
  sendFrames op frames c = (Ok tt, c') →
  ∃ bodies, Forall2 (λ f b, Encode (F_Header f) (F_Payload f) (Some auth) limits = Ok b ∧ len b ≤ max_uint32) frames bodies ∧
    CN_sent c' = CN_sent c ++ concat (on_stream <$> bodies).
Proof.
  revert c. unfold sendFrames. induction frames as [|f frames IH]; intros c; cbn [forEach].
  - intros [= <-]. exists []. split; [constructor|]. by rewrite app_nil_r.
  - unfold bind. destruct (WriteFrame stream op f c) as [[[]| | |] c1] eqn:H1; try done. intros H2.
    destruct (IH c1 H2) as (bodies & Hb & Hs). apply WriteTCPFrame_sent in H1 as (body & He & Hl & Hs1).
    exists (body :: bodies). split; [by constructor|]. rewrite Hs, Hs1, <- app_assoc. done.
Qed.

Lemma receiveFrames_sent (op : operation) (frames : list Frame) (bodies : list (list byte)) (c : Conn) :
  live op → auth_laws auth → limits_typed limits → Forall (λ f, header_typed (F_Header f)) frames →
  Forall2 (λ f b, Encode (F_Header f) (F_Payload f) (Some auth) limits = Ok b ∧ len b ≤ max_uint32) frames bodies →
  concat (CN_pieces c) = concat (on_stream <$> bodies) →
  ∃ rest, receiveFrames op (length frames) c = (Ok frames, c <| CN_pieces := rest |>) ∧ concat rest = [].
Proof.
  intros Hop Hauth Hlim Hty Hb. revert c Hty. induction Hb as [|f b frames bodies [He Hl] _ IH]; intros c Hty Hc.
  - exists (CN_pieces c). split; [by destruct c|done].
  - inversion Hty as [|? ? Hf Hty']; subst. rewrite fmap_cons in Hc. cbn [concat] in Hc.
    destruct (ReadTCPFrame_frame op (Some auth) limits ioTimeout c f b (concat (on_stream <$> bodies))) as (r1 & H1 & Hr1);
      [done| |done|done|]. { destruct f. by apply Encode_sound. }
    destruct (IH (c <| CN_pieces := r1 |>)) as (r2 & H2 & Hr2); [done|done|]. exists r2. split; [|done].
    cbn [length receiveFrames]. unfold bind at 1. cbn [ReadFrame stream ST_conn ST_auth ST_limits ST_ioTimeout]. rewrite H1.
    unfold bind. by rewrite H2.
Qed.
End transfer.

(** ** Bounds on the input taken *)

(** A computation takes a prefix of the input and returns. *)
Definition takes {A} (m : IO A) (c : Conn) (Q : list byte → outcome errors A → Prop) : Prop :=
  ∃ taken, concat (CN_pieces c) = taken ++ concat (CN_pieces (m c).2) ∧ returns (m c).1 ∧ Q taken (m c).1.

Lemma takes_throw {A} (e : errors) (c : Conn) (Q : list byte → outcome errors A → Prop) : Q [] (Err e) → takes (throw e) c Q.
Proof. intros HQ. by exists []. Qed.

Lemma takes_lift {A} (o : outcome errors A) (c : Conn) (Q : list byte → outcome errors A → Prop) :
  returns o → Q [] o → takes (lift o) c Q.
Proof. intros Hr HQ. by exists []. Qed.

Lemma takes_lift_bind {A B} (o : outcome errors A) (k : A → IO B) (c : Conn) (Q : list byte → outcome errors B → Prop) :
  (∀ e, o = Err e → Q [] (Err e)) → returns o → (∀ a, o = Ok a → takes (k a) c Q) → takes (bind (lift o) k) c Q.
Proof.
  intros He Hr Hk. destruct o as [a|e| |]; try done; [by apply Hk|]. exists []. split_and!; [done|done|by apply He].
Qed.

(** Reading [n] bytes and going on. *)
Lemma takes_ReadFull {B} (op : operation) (n : Z) (k : list byte → IO B) (c : Conn) (Q : list byte → outcome errors B → Prop) :
  (∀ taken e, len taken ≤ Z.max 0 n → Q taken (Err e)) →
  (∀ bytes rest, len bytes = Z.max 0 n → takes (k bytes) (c <| CN_pieces := rest |>) (λ more, Q (bytes ++ more))) →
  takes (bind (ReadFull op n) k) c Q.
Proof.
  intros He Hk. destruct (readPieces_prefix (CN_pieces c) (Z.to_nat n) false (CN_end c)) as (taken & Hc & Hl & Ho).
  unfold takes, bind, ReadFull. destruct (readPieces _ _ _ _) as [[l|e| |] rest]; cbn [fst snd] in *; try done.
  - destruct Ho as [-> Hn]. destruct (Hk taken rest) as (more & Hm & Hr & HQ); [unfold len; lia|]. exists (taken ++ more).
    simpl in Hm. rewrite Hc, Hm, app_assoc. done.
  - exists taken. simpl. split_and!; [done|done|]. apply He. unfold len. lia.
Qed.

Lemma validateHeader_returns (header : Header) (limits : Limits) : returns (validateHeader header limits).
Proof. unfold validateHeader. repeat case_goal; exact I. Qed.

Lemma Decode_returns (encoded : list byte) (auth : option Authenticator) (limits : Limits) :
  returns (resolveLimits limits) → returns (Decode encoded auth limits).
Proof.
  intros Hr. unfold Decode. destruct (resolveLimits limits); try done. cbn [outcome_bind]. cbv zeta.
  pose proof (validateHeader_returns (decodeHeader (sub 0 55 encoded)) a). destruct (validateHeader _ a); try done; cbn [outcome_bind];
    repeat case_goal; exact I.
Qed.

Lemma liftWire_returns {A} (o : outcome wire_error A) : returns o → returns (liftWire o).
Proof. by destruct o. Qed.

Lemma resolveLimits_returns (limits : Limits) : returns (resolveLimits limits).
Proof.
  unfold resolveLimits, validateLimitDomain. cbv zeta. set (l := if MaxCraneDatagramSize _ =? 0 then _ else _). clearbody l.
  repeat case_goal; exact I.
Qed.

(** Beyond the prefix and the header only the body of a header that passed its
    checks is taken, and it is within the limit of its message type. *)
Definition bounded_input (resolved : Limits) (taken : list byte) : Prop :=
  len taken ≤ 59 ∨
  let header := decodeHeader (sub 4 59 taken) in
  sub 4 8 taken = frameMagic ∧ validateHeader header resolved = Ok tt ∧
  len taken ≤ 4 + effectiveResolvedLimit (H_Message header) resolved.

Lemma readBody_bounded (op : operation) (auth : option Authenticator) (limits resolved : Limits) (c : Conn) :
  resolveLimits limits = Ok resolved →
  takes (readBody op auth resolved) c (λ taken _, bounded_input resolved taken).
Proof.
  intros Hres. unfold readBody. apply takes_ReadFull; [intros taken e Hl; left; lia|]. intros prefix r1 H4.
  replace (Z.max 0 4) with 4 in H4 by lia.
  assert (∀ e, takes (throw e : IO Frame) (c <| CN_pieces := r1 |>) (λ more _, bounded_input resolved (prefix ++ more))) as Hthrow.
  { intros e. apply takes_throw. left. rewrite app_nil_r. lia. }
  destruct (be_value prefix <? _) eqn:Hmin; [done|]. destruct (MaxFrameSize resolved <? _) eqn:Hmax; [done|]. clear Hthrow. bool_hyps.
  change FixedHeaderSize with 55 in *. change MACSize with 32 in *.
  apply takes_ReadFull; [intros taken e Hl; left; rewrite len_app; lia|]. intros hd r2 H55. replace (Z.max 0 55) with 55 in H55 by lia.
  assert (∀ o : outcome errors Frame, returns o → takes (lift o) (c <| CN_pieces := r1 |> <| CN_pieces := r2 |>)
    (λ more _, bounded_input resolved (prefix ++ hd ++ more))) as Hshort.
  { intros o Ho. apply takes_lift; [done|]. left. rewrite app_nil_r, len_app. lia. }
  destruct (negb (bool_decide (sub 0 4 hd = frameMagic))) eqn:Hmagic; [by apply (Hshort (Err _))|].
  apply takes_lift_bind; [intros e _; left; rewrite app_nil_r, len_app; lia|apply liftWire_returns, validateHeader_returns|].
  intros [] Hval. destruct (_ <? 55 + _ + 32) eqn:Heff; [by apply (Hshort (Err _))|].
  destruct (negb (_ =? _)) eqn:Hdecl; [by apply (Hshort (Err _))|]. clear Hshort. bool_hyps.
  assert (length prefix = 4%nat ∧ length hd = 55%nat) as [Hp Hh] by (unfold len in *; lia).
  assert (∀ more, len more ≤ be_value prefix - 55 → bounded_input resolved (prefix ++ hd ++ more)) as Hfinal.
  { intros more Hm. right. cbv zeta.
    assert (∀ a b, (b ≤ 55)%nat → sub (4 + a) (4 + b) (prefix ++ hd ++ more) = sub a b hd) as Hsub.
    { intros a b Hb. rewrite <- (sub_app_l a b hd more) by lia. unfold sub. replace (4 + b - (4 + a))%nat with (b - a)%nat by lia.
      replace (4 + a)%nat with (length prefix + a)%nat by lia. by rewrite drop_app_add. }
    pose proof (Hsub 0 55 ltac:(lia))%nat as E1. pose proof (Hsub 0 4 ltac:(lia))%nat as E2. cbn [Nat.add] in E1, E2.
    rewrite E1, E2. change (sub 0 55 hd) with (take 55 hd). rewrite take_ge by lia.
    split_and!; [done|by destruct (validateHeader _ _) as [[]| | |]|]. rewrite !len_app. lia. }
  apply takes_ReadFull; [intros taken e Hl; apply Hfinal; lia|]. intros rest r3 Hrest. apply takes_lift.
  - apply liftWire_returns, Decode_returns. by rewrite (resolve_resolved _ _ Hres).
  - apply Hfinal. rewrite app_nil_r. lia.
Qed.

(** ** Main results *)

(** C13: Frames written to a connection arrive: when every write returned without
    an error, a reader that receives the bytes in any pieces reads exactly these
    frames in this order, and then the end of the connection.  A write may have
    been taken by the connection in any number of parts. *)
Theorem stream_transfers_frames (key : list byte) (limits : Limits) (ioTimeout : Z) (opW opR : operation)
    (frames : list Frame) (c c' : Conn) (pieces : list (list byte)) :
  let auth := HMACAuthenticator key in
  limits_typed limits → Forall (λ f, header_typed (F_Header f)) frames → live opR →
  CN_sent c = [] → sendFrames auth limits ioTimeout opW frames c = (Ok tt, c') → concat pieces = CN_sent c' →
  ∃ reader, receiveFrames auth limits ioTimeout opR (length frames) (mkConn pieces EOF [] []) = (Ok frames, reader) ∧
    (ReadFrame (Some (mkStream true (Some auth) limits ioTimeout)) opR reader).1 =
      match resolveLimits limits with Ok _ => Err (contextualIOError opR EOF) | Err e => Err [WireError e] | _ => Panic end.
Proof.
  intros auth Hl Hty Hop Hs Hsend Hp. destruct (sendFrames_sent _ _ _ _ _ _ _ Hsend) as (bodies & Hb & Hs').
  rewrite Hs in Hs'. simpl in Hs'.
  destruct (receiveFrames_sent auth limits ioTimeout opR frames bodies (mkConn pieces EOF [] [])) as (rest & Hr & Hrest);
    [done|apply hmac_laws|done|done|done|simpl; congruence|].
  exists ((mkConn pieces EOF [] []) <| CN_pieces := rest |>). split; [done|].
  cbn [ReadFrame ST_conn ST_auth ST_limits ST_ioTimeout]. pose proof (resolveLimits_returns limits) as Hret.
  destruct (resolveLimits limits) as [res|e| |] eqn:Hres; try done.
  - rewrite (ReadTCPFrame_live opR (Some auth) limits res) by done. unfold readBody, bind, ReadFull. simpl.
    assert (∀ l, concat l = [] → readPieces (Z.to_nat 4) false EOF l = (Err EOF, [])) as Hend; [|by rewrite Hend].
    clear. change (Z.to_nat 4) with 4%nat. induction l as [|p l IH]; [done|]. cbn [concat]. intros [-> Hl]%app_eq_nil.
    specialize (IH Hl). cbn [readPieces length Nat.ltb Nat.leb orb Nat.sub]. by rewrite IH.
  - unfold ReadTCPFrame, bind, lift. by rewrite Hres.
Qed.

(** C14: A reader is safe on arbitrary input: whatever a peer sends, reading a
    frame returns, and beyond the length prefix and the fixed header it takes only
    the body of a header that passed the checks of version, message, codec and
    cluster, within the limit of that message type. *)
Theorem stream_read_bounded (op : operation) (auth : option Authenticator) (limits : Limits) (ioTimeout : Z) (c : Conn) :
  takes (ReadTCPFrame true op auth limits ioTimeout) c (λ taken _,
    match resolveLimits limits with Ok resolved => bounded_input resolved taken | _ => taken = [] end).
Proof.
  unfold ReadTCPFrame. cbn [negb]. pose proof (resolveLimits_returns limits) as Hr.
  destruct (resolveLimits limits) as [res|e| |] eqn:Hres; try done; [|by exists []].
  apply takes_lift_bind; [done|done|]. intros ? [= <-].
  assert (bounded_input res []) as Hnil by (left; rewrite len_nil; lia).
  apply takes_lift_bind; [done|unfold applyOperationDeadline; cbv zeta; repeat case_goal; exact I|]. intros armed _.
  destruct (readBody_bounded op auth limits res c Hres) as (taken & Hc & Hret & Hb). exists taken. unfold clearing.
  destruct (readBody op auth res c) as [o c1]. cbn [fst snd] in *. repeat case_goal; cbn [fst snd]; split_and!; try done.
Qed.

Definition exOp : operation := mkOperation (Some (mkContext None None)) 0 true true None 0.
Definition exFrames : list Frame := [mkFrame exHeader [Byte.x61]; mkFrame (exHeader <| H_SenderID := 4 |>) []].
Definition exConn : Conn := mkConn [] EOF [(1, None); (3, None); (50, None)] [].
Definition exPieces : list (list byte) :=
  let sent := CN_sent (sendFrames (HMACAuthenticator [Byte.x6b]) DefaultLimits 0 exOp exFrames exConn).2 in
  [take 2 sent; []; sub 2 70 sent; drop 70 sent].

Lemma exOp_live : live exOp.
Proof. split; [by exists (mkContext None None)|done]. Qed.

Lemma exFrames_typed : Forall (λ f, header_typed (F_Header f)) exFrames.
Proof. repeat constructor; vm_compute; reflexivity || discriminate. Qed.

Lemma stream_transfers_frames_witness :
  length (concat exPieces) = 183%nat ∧
  ∃ reader, receiveFrames (HMACAuthenticator [Byte.x6b]) DefaultLimits 0 exOp (length exFrames) (mkConn exPieces EOF [] []) = (Ok exFrames, reader).
Proof.
  split; [vm_compute; reflexivity|].
  assert (∃ w, sendFrames (HMACAuthenticator [Byte.x6b]) DefaultLimits 0 exOp exFrames exConn = (Ok tt, w) ∧ concat exPieces = CN_sent w)
    as (w & Hw & Hp).
  { eexists. split; [vm_compute; reflexivity|vm_compute; reflexivity]. }
  destruct (stream_transfers_frames [Byte.x6b] DefaultLimits 0 exOp exOp exFrames exConn w exPieces) as (reader & Hr & _);
    [exact DefaultLimits_typed|exact exFrames_typed|exact exOp_live|reflexivity|exact Hw|exact Hp|].
  exists reader. exact Hr.
Defined.

End WireStream.
