(* ===== verification/WireReplay.v ===== *)
(** * Replay defence of the wire protocol

    [internal/wire/replay.go]: the guard that accepts each authenticated request at
    most once.  It keeps the accepted and the semantically invalid requests of the
    replay window in two bounded caches, each a map with a heap of expiries.  A
    reading of the clock is an argument of each operation; the mutex makes each one
    atomic.

    Theorems: over a clock that does not go back no request is accepted twice,
    however long the guard runs, and a request is refused for the exact reasons the
    error names; the caches stay within their bounds. *)

From stdpp Require Import sorting.
From S2P Require Import Prelude Heap.

Module WireReplay.
Import Heap.
Open Scope go_scope.
Open Scope Z_scope.

(** ** State *)

Inductive replay_error := ErrReplay | ErrTimestamp | ErrReplayCacheFull | ErrReplayConfiguration.

Record replayKey := mkReplayKey { senderID : Z; requestID : list byte }.
#[global] Instance replayKey_eq_dec : EqDecision replayKey.
Proof. solve_decision. Defined.
#[global] Instance replayKey_countable : Countable replayKey.
Proof. refine (inj_countable' (λ k, (senderID k, requestID k)) (λ x, mkReplayKey x.1 x.2) _). by intros []. Defined.

Record replayExpiry := mkReplayExpiry { RE_key : replayKey; RE_expiresAt : Z }.

Definition expiresBefore (a b : replayExpiry) : bool := RE_expiresAt a <? RE_expiresAt b.

(** The soonest expiry is at the root. *)
#[global] Instance replayExpiryHeap : HeapInterface (list replayExpiry) replayExpiry := slice_heap expiresBefore.

(** [RG_clock] tells whether the guard was given a clock. *)
Record ReplayGuard := mkReplayGuard {
  RG_clock : bool;
  RG_window : Z;
  RG_maxFutureSkew : Z;
  RG_maxEntries : Z;
  RG_seen : gmap replayKey Z;
  RG_expirations : list replayExpiry;
  RG_invalid : gmap replayKey Z;
  RG_invalidExpiry : list replayExpiry
}.
#[global] Instance eta_ReplayGuard : Settable ReplayGuard :=
  λ g, mkReplayGuard (RG_clock g) (RG_window g) (RG_maxFutureSkew g) (RG_maxEntries g)
         (RG_seen g) (RG_expirations g) (RG_invalid g) (RG_invalidExpiry g).

Abbreviation Guard A := (M ReplayGuard replay_error A).

Definition NewReplayGuard (clock : bool) (window maxFutureSkew maxEntries : Z) : ReplayGuard :=
  mkReplayGuard clock window maxFutureSkew maxEntries ∅ [] ∅ [].

(** ** Operations *)

(** One cache: its map and its heap. *)
Abbreviation cache := (gmap replayKey Z * list replayExpiry)%type.

(** [heap.Pop], and the entry leaves the map when it is still the current one. *)
Definition popExpiry (c : cache) : outcome replay_error cache :=
  let? (expired, h) := heap_Pop c.2 in
  Ok (match c.1 !! RE_key expired with
      | Some current => if current =? RE_expiresAt expired then delete (RE_key expired) c.1 else c.1
      | None => c.1
      end, h).

Fixpoint purgeLoop (fuel : nat) (now : Z) (c : cache) : outcome replay_error cache :=
  match fuel with
  | O => Blocked
  | S fuel =>
    match c.2 with
    | root :: _ => if RE_expiresAt root <=? now then let? c := popExpiry c in purgeLoop fuel now c else Ok c
    | [] => Ok c
    end
  end.

Definition purge (now : Z) (c : cache) : outcome replay_error cache := purgeLoop (S (length c.2)) now c.

Definition purgeExpired (now : Z) : Guard unit :=
  let! g := get in
  let! (seen, expirations) := lift (purge now (RG_seen g, RG_expirations g)) in
  put (g <| RG_seen := seen |> <| RG_expirations := expirations |>).

Definition purgeInvalidExpired (now : Z) : Guard unit :=
  let! g := get in
  let! (invalid, invalidExpiry) := lift (purge now (RG_invalid g, RG_invalidExpiry g)) in
  put (g <| RG_invalid := invalid |> <| RG_invalidExpiry := invalidExpiry |>).

Definition outsideWindow (timestamp now : Z) (g : ReplayGuard) : bool :=
  (Time_Add now (RG_maxFutureSkew g) <? timestamp) || (Time_Add timestamp (RG_window g) <=? now).

Definition present {A} (key : replayKey) (m : gmap replayKey A) : bool := bool_decide (is_Some (m !! key)).

Definition preflightLocked (sender : Z) (request : list byte) (timestamp now : Z) : Guard unit :=
  let! g := get in
  if outsideWindow timestamp now g then throw ErrTimestamp
  else
    purgeExpired now ;;!
    purgeInvalidExpired now ;;!
    let key := mkReplayKey sender request in
    let! g := get in
    if present key (RG_seen g) then throw ErrReplay
    else if present key (RG_invalid g) then throw ErrReplay
    else if RG_maxEntries g <=? Z.of_nat (size (RG_seen g)) then throw ErrReplayCacheFull
    else ret tt.

Definition preflightInvalidLocked (sender : Z) (request : list byte) (timestamp now : Z) : Guard unit :=
  let! g := get in
  if outsideWindow timestamp now g then throw ErrTimestamp
  else
    purgeExpired now ;;!
    purgeInvalidExpired now ;;!
    let key := mkReplayKey sender request in
    let! g := get in
    if present key (RG_seen g) then throw ErrReplay
    else if present key (RG_invalid g) then throw ErrReplay
    else if RG_maxEntries g <=? Z.of_nat (size (RG_invalid g)) then throw ErrReplayCacheFull
    else ret tt.

Definition withClock (m : Guard unit) : Guard unit :=
  let! g := get in if RG_clock g then m else throw ErrReplayConfiguration.

Definition Preflight (sender : Z) (request : list byte) (timestamp now : Z) : Guard unit :=
  withClock (preflightLocked sender request timestamp now).

Definition PreflightInvalid (sender : Z) (request : list byte) (timestamp now : Z) : Guard unit :=
  withClock (preflightInvalidLocked sender request timestamp now).

(** [seen[key] = expiresAt] and the push of its expiry. *)
Definition remember (key : replayKey) (expiresAt : Z) (c : cache) : outcome replay_error cache :=
  let? h := heap_Push (mkReplayExpiry key expiresAt) c.2 in Ok (<[key := expiresAt]> c.1, h).

Definition rememberSeen (sender : Z) (request : list byte) (timestamp : Z) : Guard unit :=
  let! g := get in
  let! (seen, expirations) := lift (remember (mkReplayKey sender request) (Time_Add timestamp (RG_window g)) (RG_seen g, RG_expirations g)) in
  put (g <| RG_seen := seen |> <| RG_expirations := expirations |>).

Definition rememberInvalid (sender : Z) (request : list byte) (timestamp : Z) : Guard unit :=
  let! g := get in
  let! (invalid, invalidExpiry) := lift (remember (mkReplayKey sender request) (Time_Add timestamp (RG_window g)) (RG_invalid g, RG_invalidExpiry g)) in
  put (g <| RG_invalid := invalid |> <| RG_invalidExpiry := invalidExpiry |>).

Definition ReplayGuard_Commit (sender : Z) (request : list byte) (timestamp now : Z) : Guard unit :=
  withClock (preflightLocked sender request timestamp now ;;! rememberSeen sender request timestamp).

Definition CommitInvalid (sender : Z) (request : list byte) (timestamp now : Z) : Guard unit :=
  withClock (preflightInvalidLocked sender request timestamp now ;;! rememberInvalid sender request timestamp).

Definition Accept (sender : Z) (request : list byte) (timestamp now : Z) : Guard unit :=
  ReplayGuard_Commit sender request timestamp now.

(** Live invalid entries leave, soonest expiry first, until there is room. *)
Fixpoint evictLoop (fuel : nat) (maxEntries : Z) (c : cache) : outcome replay_error cache :=
  match fuel with
  | O => Blocked
  | S fuel =>
    if (maxEntries <=? Z.of_nat (size c.1)) && (0 <? len c.2)
    then let? c := popExpiry c in evictLoop fuel maxEntries c
    else Ok c
  end.

Definition RecordInvalid (sender : Z) (request : list byte) (timestamp now : Z) : Guard unit :=
  let! g := get in
  if negb (RG_clock g) || (RG_maxEntries g <=? 0) then ret tt
  else if outsideWindow timestamp now g then ret tt
  else
    purgeExpired now ;;!
    purgeInvalidExpired now ;;!
    let key := mkReplayKey sender request in
    let! g := get in
    if present key (RG_seen g) then ret tt
    else if present key (RG_invalid g) then ret tt
    else
      let! (invalid, invalidExpiry) := lift (evictLoop (S (length (RG_invalidExpiry g))) (RG_maxEntries g) (RG_invalid g, RG_invalidExpiry g)) in
      put (g <| RG_invalid := invalid |> <| RG_invalidExpiry := invalidExpiry |>) ;;!
      if RG_maxEntries g <=? Z.of_nat (size invalid) then ret tt
      else rememberInvalid sender request timestamp.

Definition ValidateTimestamp (timestamp now : Z) : Guard unit :=
  withClock (let! g := get in if outsideWindow timestamp now g then throw ErrTimestamp else ret tt).

(** ** Caches *)

Definition expiry_of (kv : replayKey * Z) : replayExpiry := mkReplayExpiry kv.1 kv.2.

(** The heap holds the entries of the map. *)
Definition cache_ok (c : cache) : Prop :=
  heap_ok expiresBefore c.2 ∧ c.2 ≡ₚ expiry_of <$> map_to_list c.1.

Abbreviation live t := (λ kv : replayKey * Z, t < kv.2).

Lemma expiry_laws : HeapLaws (HeapInterface0 := replayExpiryHeap) id expiresBefore (λ _, True).
Proof. apply slice_laws, key_order. Qed.

Lemma cache_entry (c : cache) (x : replayExpiry) : cache_ok c → x ∈ c.2 ↔ c.1 !! RE_key x = Some (RE_expiresAt x).
Proof.
  intros [_ Hp]. rewrite Hp, list_elem_of_fmap. split.
  - intros ([k e] & -> & Hm%elem_of_map_to_list). done.
  - intros Hm%elem_of_map_to_list. exists (RE_key x, RE_expiresAt x). split; [by destruct x|done].
Qed.

Lemma cache_ok_empty : cache_ok (∅, []).
Proof. split; simpl; [|by rewrite map_to_list_empty]. intros i Hi a b Ha. by rewrite lookup_nil in Ha. Qed.

Lemma popExpiry_spec (c : cache) (root : replayExpiry) (rest : list replayExpiry) :
  cache_ok c → c.2 = root :: rest →
  ∃ h, popExpiry c = Ok (delete (RE_key root) c.1, h) ∧ cache_ok (delete (RE_key root) c.1, h) ∧
    length c.2 = S (length h) ∧ c.1 !! RE_key root = Some (RE_expiresAt root) ∧
    ∀ k e, c.1 !! k = Some e → RE_expiresAt root ≤ e.
Proof.
  intros Hc Hr. pose proof Hc as [Hok Hp]. unfold popExpiry.
  destruct (heap_Pop_spec (E := replay_error) id expiresBefore (λ _, True) expiry_laws c.2 root rest) as (h1 & l & -> & _ & Hv & Hl & Hperm);
    [done|done|done|]. unfold id in *. subst h1. rewrite (slice_Pop expiresBefore). cbn [must outcome_bind].
  assert (c.1 !! RE_key root = Some (RE_expiresAt root)) as Hroot by (apply cache_entry; [done|]; rewrite Hr; left).
  rewrite Hroot, Z.eqb_refl. exists l. split_and!; [done| | |done|].
  - split; [done|]. simpl. apply (Permutation_cons_inv (a := root)). rewrite Permutation_cons_append, Hperm, Hp.
    rewrite <- (map_to_list_delete c.1 (RE_key root) (RE_expiresAt root) Hroot). simpl. by destruct root.
  - rewrite <- Hperm, length_app. simpl. lia.
  - intros k e Hke. apply Z.ltb_ge. change (expiresBefore (mkReplayExpiry k e) root = false).
    apply (heap_root_least expiresBefore (key_order _) c.2); [done|by rewrite Hr|]. by apply cache_entry.
Qed.

Lemma filter_live_all (t : Z) (m : gmap replayKey Z) : (∀ k e, m !! k = Some e → t < e) → filter (live t) m = m.
Proof. intros H. apply map_filter_id. exact H. Qed.

Lemma purge_spec (now : Z) (c : cache) :
  cache_ok c → ∃ h, purge now c = Ok (filter (live now) c.1, h) ∧ cache_ok (filter (live now) c.1, h).
Proof.
  unfold purge. generalize (Nat.lt_succ_diag_r (length c.2)). generalize (S (length c.2)). intros fuel.
  revert c. induction fuel as [|fuel IH]; intros c Hf Hc; [lia|]. simpl.
  destruct c.2 as [|root rest] eqn:Hr.
  - exists []. assert (c.1 = ∅) as He.
    { destruct Hc as [_ Hp]. rewrite Hr in Hp. symmetry in Hp. apply Permutation_nil_r, fmap_nil_inv in Hp. by apply map_to_list_empty_iff. }
    rewrite He, map_filter_empty. split; [destruct c; simpl in *; by subst|apply cache_ok_empty].
  - destruct (Z.leb_spec (RE_expiresAt root) now) as [Hle|Hgt].
    + destruct (popExpiry_spec c root rest) as (h & -> & Hc' & Hl & Hroot & _); [done|done|]. cbn [outcome_bind].
      destruct (IH (delete (RE_key root) c.1, h)) as (h' & Hpu & Hc2); [rewrite Hr in Hl; simpl in *; lia|done|]. simpl in *.
      assert (filter (live now) (delete (RE_key root) c.1) = filter (live now) c.1) as He.
      { rewrite map_filter_delete. apply delete_id. apply map_lookup_filter_None. right. intros e He. simpl. rewrite Hroot in He. injection He as <-. lia. }
      rewrite He in *. eauto.
    + exists c.2. rewrite filter_live_all; [split; [by destruct c|by destruct c]|]. intros k e Hke.
      destruct (popExpiry_spec c root rest) as (_ & _ & _ & _ & _ & Hmin); [done|done|]. specialize (Hmin k e Hke). lia.
Qed.

Lemma remember_spec (key : replayKey) (e : Z) (c : cache) :
  cache_ok c → c.1 !! key = None →
  ∃ h, remember key e c = Ok (<[key := e]> c.1, h) ∧ cache_ok (<[key := e]> c.1, h).
Proof.
  intros [Hok Hp] Hn. unfold remember.
  destruct (heap_Push_spec (E := replay_error) id expiresBefore (λ _, True) expiry_laws (mkReplayExpiry key e) c.2 (mkReplayExpiry key e))
    as (h & -> & _ & Hh & Hperm); [done|done|done|]. unfold id in *. cbn [outcome_bind]. exists h. split; [done|]. split; [done|]. simpl.
  rewrite Hperm, (map_to_list_insert _ _ _ Hn), Hp. done.
Qed.

Lemma evict_spec (maxEntries : Z) (fuel : nat) (c : cache) :
  cache_ok c → (length c.2 < fuel)%nat → 0 < maxEntries →
  ∃ c', evictLoop fuel maxEntries c = Ok c' ∧ cache_ok c' ∧ c'.1 ⊆ c.1 ∧ Z.of_nat (size c'.1) < maxEntries.
Proof.
  revert c. induction fuel as [|fuel IH]; intros c Hc Hf Hm; [lia|]. simpl.
  assert (length c.2 = size c.1) as Hsz by (destruct Hc as [_ Hp]; rewrite Hp, length_fmap; apply length_map_to_list).
  destruct (Z.leb_spec maxEntries (Z.of_nat (size c.1))) as [Hle|Hgt]; cbn [andb]; [|exists c; by split_and!].
  destruct c.2 as [|root rest] eqn:Hr; [simpl in Hsz; lia|]. rewrite (proj2 (Z.ltb_lt _ _)) by (unfold len; simpl; lia).
  destruct (popExpiry_spec c root rest) as (h & -> & Hc' & Hl & Hroot & _); [done|done|]. cbn [outcome_bind].
  destruct (IH (delete (RE_key root) c.1, h)) as (c2 & He & Hok & Hsub & Hs); [done|rewrite Hr in Hl; simpl in *; lia|done|].
  exists c2. split_and!; [done|done| |done]. simpl in Hsub. etrans; [done|apply delete_subseteq].
Qed.

(** ** The guard *)

Record guard_ok (g : ReplayGuard) : Prop := {
  ok_seen : cache_ok (RG_seen g, RG_expirations g);
  ok_invalid : cache_ok (RG_invalid g, RG_invalidExpiry g);
  ok_seen_size : Z.of_nat (size (RG_seen g)) ≤ Z.max 0 (RG_maxEntries g);
  ok_invalid_size : Z.of_nat (size (RG_invalid g)) ≤ Z.max 0 (RG_maxEntries g)
}.

Definition same_config (g g' : ReplayGuard) : Prop :=
  RG_clock g' = RG_clock g ∧ RG_window g' = RG_window g ∧ RG_maxFutureSkew g' = RG_maxFutureSkew g ∧ RG_maxEntries g' = RG_maxEntries g.

(** The expired entries of both caches are gone. *)
Definition swept (now : Z) (g g' : ReplayGuard) : Prop :=
  guard_ok g' ∧ same_config g g' ∧ RG_seen g' = filter (live now) (RG_seen g) ∧ RG_invalid g' = filter (live now) (RG_invalid g).

Lemma size_filter_le (t : Z) (m : gmap replayKey Z) : (size (filter (live t) m) ≤ size m)%nat.
Proof. apply map_subseteq_size, map_filter_subseteq. Qed.

Lemma sweep_spec (now : Z) (g : ReplayGuard) :
  guard_ok g → ∃ g', swept now g g' ∧ ∀ A (k : Guard A), (purgeExpired now ;;! purgeInvalidExpired now ;;! k) g = k g'.
Proof.
  intros [Hs Hi Hss His]. destruct (purge_spec now _ Hs) as (h1 & H1 & Hc1). destruct (purge_spec now _ Hi) as (h2 & H2 & Hc2).
  simpl in *. exists (g <| RG_seen := filter (live now) (RG_seen g) |> <| RG_expirations := h1 |>
                       <| RG_invalid := filter (live now) (RG_invalid g) |> <| RG_invalidExpiry := h2 |>). split.
  - pose proof (size_filter_le now (RG_seen g)). pose proof (size_filter_le now (RG_invalid g)).
    split_and!; [|done..]. split; simpl; try done; lia.
  - intros A k. unfold purgeExpired, purgeInvalidExpired, bind, get, lift, put. rewrite H1. simpl. rewrite H2. done.
Qed.

(** The answer to a request, by what is live in the caches. *)
Definition verdict (key : replayKey) (seen invalid full : gmap replayKey Z) (maxEntries : Z) : outcome replay_error unit :=
  if present key seen || present key invalid then Err ErrReplay
  else if maxEntries <=? Z.of_nat (size full) then Err ErrReplayCacheFull else Ok tt.

Lemma preflight_spec (sender : Z) (request : list byte) (ts now : Z) (g : ReplayGuard) :
  guard_ok g → outsideWindow ts now g = false →
  ∃ g', swept now g g' ∧
    preflightLocked sender request ts now g =
      (verdict (mkReplayKey sender request) (RG_seen g') (RG_invalid g') (RG_seen g') (RG_maxEntries g), g') ∧
    preflightInvalidLocked sender request ts now g =
      (verdict (mkReplayKey sender request) (RG_seen g') (RG_invalid g') (RG_invalid g') (RG_maxEntries g), g').
Proof.
  intros Hok Hw. destruct (sweep_spec now g Hok) as (g' & Hsw & Hk). exists g'. split; [done|].
  destruct Hsw as (_ & (_ & _ & _ & Hmax) & _ & _). unfold preflightLocked, preflightInvalidLocked, verdict.
  split; change (bind get ?f g) with (f g g); cbv beta; rewrite Hw, Hk; unfold bind, get, throw, ret; rewrite Hmax; repeat case_goal; done.
Qed.

Lemma rememberSeen_spec (sender : Z) (request : list byte) (ts : Z) (g : ReplayGuard) :
  guard_ok g → RG_seen g !! mkReplayKey sender request = None → Z.of_nat (size (RG_seen g)) < RG_maxEntries g →
  ∃ g', rememberSeen sender request ts g = (Ok tt, g') ∧ guard_ok g' ∧ same_config g g' ∧
    RG_seen g' = <[mkReplayKey sender request := Time_Add ts (RG_window g)]> (RG_seen g) ∧ RG_invalid g' = RG_invalid g.
Proof.
  intros [Hs Hi Hss His] Hn Hlt. unfold rememberSeen, bind, get, lift, put.
  destruct (remember_spec (mkReplayKey sender request) (Time_Add ts (RG_window g)) _ Hs Hn) as (h & -> & Hc).
  eexists. split; [done|]. split_and!; [|done..]. split; simpl; try done. rewrite map_size_insert_None by done. lia.
Qed.

Lemma rememberInvalid_spec (sender : Z) (request : list byte) (ts : Z) (g : ReplayGuard) :
  guard_ok g → RG_invalid g !! mkReplayKey sender request = None → Z.of_nat (size (RG_invalid g)) < RG_maxEntries g →
  ∃ g', rememberInvalid sender request ts g = (Ok tt, g') ∧ guard_ok g' ∧ same_config g g' ∧ RG_seen g' = RG_seen g.
Proof.
  intros [Hs Hi Hss His] Hn Hlt. unfold rememberInvalid, bind, get, lift, put.
  destruct (remember_spec (mkReplayKey sender request) (Time_Add ts (RG_window g)) _ Hi Hn) as (h & -> & Hc).
  eexists. split; [done|]. split_and!; [|done..]. split; simpl; try done. rewrite map_size_insert_None by done. lia.
Qed.

Lemma verdict_Ok (key : replayKey) (seen invalid full : gmap replayKey Z) (maxEntries : Z) :
  verdict key seen invalid full maxEntries = Ok tt →
  seen !! key = None ∧ invalid !! key = None ∧ Z.of_nat (size full) < maxEntries.
Proof.
  unfold verdict, present. repeat case_goal; try done. intros _. bool_hyps. rewrite !eq_None_not_Some. split_and!; [done|done|lia].
Qed.

(** ** Runs *)

Inductive replay_op :=
| OpPreflight (sender : Z) (request : list byte) (timestamp : Z)
| OpPreflightInvalid (sender : Z) (request : list byte) (timestamp : Z)
| OpCommit (sender : Z) (request : list byte) (timestamp : Z)
| OpCommitInvalid (sender : Z) (request : list byte) (timestamp : Z)
| OpAccept (sender : Z) (request : list byte) (timestamp : Z)
| OpRecordInvalid (sender : Z) (request : list byte) (timestamp : Z)
| OpValidateTimestamp (timestamp : Z).

Definition op_run (op : replay_op) (now : Z) : Guard unit :=
  match op with
  | OpPreflight s r ts => Preflight s r ts now
  | OpPreflightInvalid s r ts => PreflightInvalid s r ts now
  | OpCommit s r ts => ReplayGuard_Commit s r ts now
  | OpCommitInvalid s r ts => CommitInvalid s r ts now
  | OpAccept s r ts => Accept s r ts now
  | OpRecordInvalid s r ts => RecordInvalid s r ts now
  | OpValidateTimestamp ts => ValidateTimestamp ts now
  end.

(** The request an operation accepts when it succeeds. *)
Definition accepts (op : replay_op) : list (replayKey * Z) :=
  match op with
  | OpCommit s r ts | OpAccept s r ts => [(mkReplayKey s r, ts)]
  | _ => []
  end.

(** A run: the guard, the last reading of the clock, and the requests accepted so
    far with their timestamps. *)
Definition trace : Type := ReplayGuard * Z * list (replayKey * Z).

Inductive guard_step : trace → trace → Prop :=
| guard_op (g : ReplayGuard) (now : Z) (accepted : list (replayKey * Z)) (op : replay_op) (now' : Z) :
  now ≤ now' →
  guard_step (g, now, accepted)
    ((op_run op now' g).2, now', (if is_Ok (op_run op now' g).1 then accepts op else []) ++ accepted).

Definition expiries (window : Z) (accepted : list (replayKey * Z)) : list (replayKey * Z) :=
  (λ kt, (kt.1, Time_Add kt.2 window)) <$> accepted.

(** What the guard remembers and what was accepted agree on the unexpired. *)
Definition tracks (now : Z) (g : ReplayGuard) (accepted : list (replayKey * Z)) : Prop :=
  ∀ t, now ≤ t → map_to_list (filter (live t) (RG_seen g)) ≡ₚ filter (live t) (expiries (RG_window g) accepted).

(** How an operation may change the accepted requests. *)
Definition seen_effect (op : replay_op) (now : Z) (o : outcome replay_error unit) (g g' : ReplayGuard) : Prop :=
  (if is_Ok o then accepts op else []) = [] ∧ (RG_seen g' = RG_seen g ∨ RG_seen g' = filter (live now) (RG_seen g)) ∨
  ∃ key ts, o = Ok tt ∧ accepts op = [(key, ts)] ∧ now < Time_Add ts (RG_window g) ∧
    filter (live now) (RG_seen g) !! key = None ∧
    RG_seen g' = <[key := Time_Add ts (RG_window g)]> (filter (live now) (RG_seen g)).

Lemma ReplayGuard_Commit_spec (sender : Z) (request : list byte) (ts now : Z) (g : ReplayGuard) :
  guard_ok g → RG_clock g = true → outsideWindow ts now g = false →
  ∃ gs g', swept now g gs ∧ guard_ok g' ∧ same_config g g' ∧
    ReplayGuard_Commit sender request ts now g =
      (verdict (mkReplayKey sender request) (RG_seen gs) (RG_invalid gs) (RG_seen gs) (RG_maxEntries g), g') ∧
    seen_effect (OpCommit sender request ts) now (verdict (mkReplayKey sender request) (RG_seen gs) (RG_invalid gs) (RG_seen gs) (RG_maxEntries g)) g g'.
Proof.
  intros Hok Hc Hw. destruct (preflight_spec sender request ts now g Hok Hw) as (gs & Hsw & Hp & _).
  pose proof Hsw as (Hoks & Hcfg & Hs & Hi). pose proof Hcfg as (Hc1 & Hc2 & Hc3 & Hc4). unfold ReplayGuard_Commit, withClock. change (bind get ?f g) with (f g g). cbv beta. rewrite Hc.
  unfold bind. rewrite Hp. destruct (verdict _ _ _ _ _) as [[]| | |] eqn:Hv.
  - pose proof (verdict_Ok _ _ _ _ _ Hv) as (Hn & _ & Hlt). rewrite <- Hc4 in Hlt.
    destruct (rememberSeen_spec sender request ts gs Hoks Hn Hlt) as (g' & -> & Hok' & Hcfg' & Hs' & _).
    exists gs, g'. rewrite Hv. refine (conj Hsw (conj Hok' (conj _ (conj eq_refl _)))).
    + unfold same_config in *. intuition congruence.
    + right. exists (mkReplayKey sender request), ts. rewrite <- Hs, Hs', Hc2. split_and!; try done.
      unfold outsideWindow in Hw. bool_hyps. done.
  - exists gs, gs. rewrite Hv. refine (conj Hsw (conj Hoks (conj Hcfg (conj eq_refl _)))). left. eauto.
  - exfalso. revert Hv. unfold verdict. by repeat case_goal.
  - exfalso. revert Hv. unfold verdict. by repeat case_goal.
Qed.

Lemma verdict_returns (key : replayKey) (seen invalid full : gmap replayKey Z) (maxEntries : Z) :
  returns (verdict key seen invalid full maxEntries).
Proof. unfold verdict. repeat case_goal; exact I. Qed.

Lemma RecordInvalid_spec (sender : Z) (request : list byte) (ts now : Z) (g : ReplayGuard) :
  guard_ok g → ∃ g', RecordInvalid sender request ts now g = (Ok tt, g') ∧ guard_ok g' ∧ same_config g g' ∧
    (RG_seen g' = RG_seen g ∨ RG_seen g' = filter (live now) (RG_seen g)).
Proof.
  intros Hok. unfold RecordInvalid. change (bind get ?f g) with (f g g). cbv beta.
  destruct (negb (RG_clock g) || (RG_maxEntries g <=? 0)) eqn:Hc; [exists g; split_and!; eauto; done|].
  destruct (outsideWindow ts now g) eqn:Hw; [exists g; split_and!; eauto; done|]. bool_hyps.
  destruct (sweep_spec now g Hok) as (gs & (Hoks & Hcfg & Hs & _) & ->). pose proof Hcfg as (_ & _ & _ & Hmax).
  change (bind get ?f gs) with (f gs gs). cbv beta.
  destruct (present _ (RG_seen gs)); [exists gs; split_and!; eauto|].
  destruct (present _ (RG_invalid gs)) eqn:Hpi; [exists gs; split_and!; eauto|]. unfold present in Hpi. bool_hyps.
  apply eq_None_not_Some in Hpi. pose proof Hoks as [Hcs Hci Hss His].
  destruct (evict_spec (RG_maxEntries gs) (S (length (RG_invalidExpiry gs))) _ Hci) as ([m h] & He & Hce & Hsub & Hsz); [simpl; lia|lia|].
  unfold bind, lift, put. rewrite He. simpl in Hsub, Hsz. rewrite (proj2 (Z.leb_gt _ _)) by lia.
  set (g1 := (gs <| RG_invalid := m |>) <| RG_invalidExpiry := h |>).
  assert (guard_ok g1) as Hok1 by (split; simpl; try done; lia).
  destruct (rememberInvalid_spec sender request ts g1 Hok1) as (g' & Hr & Hok' & Hcfg' & Hs'); [|done|].
  { simpl. eapply lookup_weaken_None; [exact Hpi|done]. }
  fold g1. rewrite Hr. exists g'. split_and!; [done|done| |right; by rewrite Hs'].
  unfold same_config in *. simpl in Hcfg'. intuition congruence.
Qed.

(** An operation returns, keeps the invariant and has one of the effects above. *)
Definition op_good (op : replay_op) (now : Z) (g : ReplayGuard) (r : outcome replay_error unit * ReplayGuard) : Prop :=
  returns r.1 ∧ guard_ok r.2 ∧ same_config g r.2 ∧ seen_effect op now r.1 g r.2.

Lemma op_good_same (op : replay_op) (now : Z) (g : ReplayGuard) (o : outcome replay_error unit) :
  guard_ok g → returns o → (if is_Ok o then accepts op else []) = [] → op_good op now g (o, g).
Proof. intros Hok Ho Ha. split; [done|]. split; [done|]. split; [done|]. left. eauto. Qed.

Lemma op_good_swept (op : replay_op) (now : Z) (g gs : ReplayGuard) (o : outcome replay_error unit) :
  swept now g gs → returns o → (if is_Ok o then accepts op else []) = [] → op_good op now g (o, gs).
Proof. intros (Hok & Hcfg & Hs & _) Ho Ha. split; [done|]. split; [done|]. split; [done|]. left. eauto. Qed.

Lemma preflight_outside (sender : Z) (request : list byte) (ts now : Z) (g : ReplayGuard) :
  outsideWindow ts now g = true →
  preflightLocked sender request ts now g = (Err ErrTimestamp, g) ∧
  preflightInvalidLocked sender request ts now g = (Err ErrTimestamp, g).
Proof. intros Hw. unfold preflightLocked, preflightInvalidLocked, bind, get, throw. by rewrite Hw. Qed.

Lemma withClock_on (m : Guard unit) (g : ReplayGuard) : RG_clock g = true → withClock m g = m g.
Proof. intros Hc. unfold withClock, bind, get. by rewrite Hc. Qed.

Lemma CommitInvalid_good (sender : Z) (request : list byte) (ts now : Z) (g : ReplayGuard) :
  guard_ok g → RG_clock g = true →
  op_good (OpCommitInvalid sender request ts) now g (CommitInvalid sender request ts now g).
Proof.
  intros Hok Hc. unfold CommitInvalid. rewrite withClock_on by done. unfold bind. destruct (outsideWindow ts now g) eqn:Hw.
  - rewrite (proj2 (preflight_outside sender request ts now g Hw)). by apply op_good_same.
  - destruct (preflight_spec sender request ts now g Hok Hw) as (gs & Hsw & _ & ->).
    pose proof Hsw as (Hoks & Hcfg & Hs & _). pose proof (verdict_returns (mkReplayKey sender request) (RG_seen gs) (RG_invalid gs) (RG_invalid gs) (RG_maxEntries g)) as Hr.
    destruct (verdict _ _ _ _ _) as [[]| | |] eqn:Hv; try by apply op_good_swept; [|done|].
    pose proof (verdict_Ok _ _ _ _ _ Hv) as (_ & Hn & Hlt). pose proof Hcfg as (_ & _ & _ & Hmax). rewrite <- Hmax in Hlt.
    destruct (rememberInvalid_spec sender request ts gs Hoks Hn Hlt) as (g' & -> & Hok' & Hcfg' & Hs').
    split; [done|]. split; [done|]. split; [unfold same_config in *; simpl; intuition congruence|]. left. split; [done|]. right. simpl. by rewrite Hs'.
Qed.

Lemma op_run_good (op : replay_op) (now : Z) (g : ReplayGuard) :
  guard_ok g → RG_clock g = true → op_good op now g (op_run op now g).
Proof.
  intros Hok Hc.
  assert (∀ s r ts op, accepts op = accepts (OpCommit s r ts) → op_good op now g (ReplayGuard_Commit s r ts now g)) as Hcommit.
  { intros s r ts op' Ha. destruct (outsideWindow ts now g) eqn:Hw.
    - unfold ReplayGuard_Commit. rewrite withClock_on by done. unfold bind. rewrite (proj1 (preflight_outside s r ts now g Hw)). by apply op_good_same.
    - destruct (ReplayGuard_Commit_spec s r ts now g Hok Hc Hw) as (gs & g' & _ & ? & ? & -> & He). split; [apply verdict_returns|].
      split; [done|]. split; [done|]. unfold seen_effect in *. by rewrite Ha. }
  destruct op as [s r ts|s r ts|s r ts|s r ts|s r ts|s r ts|ts]; simpl op_run.
  - unfold Preflight. rewrite withClock_on by done. destruct (outsideWindow ts now g) eqn:Hw.
    + rewrite (proj1 (preflight_outside s r ts now g Hw)). by apply op_good_same.
    + destruct (preflight_spec s r ts now g Hok Hw) as (gs & Hsw & -> & _). apply op_good_swept; [done|apply verdict_returns|by case_goal].
  - unfold PreflightInvalid. rewrite withClock_on by done. destruct (outsideWindow ts now g) eqn:Hw.
    + rewrite (proj2 (preflight_outside s r ts now g Hw)). by apply op_good_same.
    + destruct (preflight_spec s r ts now g Hok Hw) as (gs & Hsw & _ & ->). apply op_good_swept; [done|apply verdict_returns|by case_goal].
  - by apply Hcommit.
  - by apply CommitInvalid_good.
  - by apply Hcommit.
  - destruct (RecordInvalid_spec s r ts now g Hok) as (g' & -> & ? & ? & Hs). split; [done|]. split; [done|]. split; [done|]. left. by split.
  - unfold ValidateTimestamp. rewrite withClock_on by done. unfold bind, get, throw, ret. case_goal; by apply op_good_same.
Qed.

Lemma filter_live_filter (t now : Z) (m : gmap replayKey Z) : now ≤ t → filter (live t) (filter (live now) m) = filter (live t) m.
Proof.
  intros Hle. rewrite map_filter_filter. apply map_filter_ext. intros k e _. simpl. lia.
Qed.

Record trace_ok (g0 : ReplayGuard) (x : trace) : Prop := {
  tr_ok : guard_ok x.1.1;
  tr_config : same_config g0 x.1.1;
  tr_tracks : tracks x.1.2 x.1.1 x.2;
  tr_once : NoDup x.2
}.

Lemma tracks_seen (now : Z) (g : ReplayGuard) (accepted : list (replayKey * Z)) (key : replayKey) :
  tracks now g accepted →
  is_Some (filter (live now) (RG_seen g) !! key) ↔ ∃ ts, (key, ts) ∈ accepted ∧ now < Time_Add ts (RG_window g).
Proof.
  intros Ht. pose proof (Ht now ltac:(lia)) as Hp. split.
  - intros [e He%elem_of_map_to_list]. rewrite Hp, list_elem_of_filter in He. destruct He as [Hlt He]. simpl in Hlt.
    apply list_elem_of_fmap in He as ([k ts] & [= -> ->] & Hin). eauto.
  - intros (ts & Hin & Hlt). exists (Time_Add ts (RG_window g)). apply elem_of_map_to_list. rewrite Hp.
    apply list_elem_of_filter. split; [done|]. apply list_elem_of_fmap. by exists (key, ts).
Qed.

Lemma guard_step_ok (g0 : ReplayGuard) (x y : trace) :
  RG_clock g0 = true → guard_step x y → trace_ok g0 x → trace_ok g0 y.
Proof.
  intros Hc0 [g now accepted op now' Hle] [Hok Hcf Ht Hn]. simpl in *.
  assert (RG_clock g = true) as Hc by (destruct Hcf; congruence). pose proof (op_run_good op now' g Hok Hc) as (_ & Hok' & Hcfg & He).
  destruct (op_run op now' g) as [o g']. simpl in *.
  assert (same_config g0 g') as Hcf' by (unfold same_config in *; intuition congruence). destruct Hcfg as (Hc1 & Hc2 & _ & _).
  destruct He as [[-> Hs]|(key & ts & -> & -> & Hlt & Hnone & Hs)].
  - split; simpl; [done|done| |done]. intros t Hlt. rewrite Hc2, <- Ht by lia. destruct Hs as [-> | ->]; [done|].
    by rewrite filter_live_filter.
  - assert (tracks now' g accepted) as Ht' by (intros t Hlt'; apply Ht; lia). cbn [is_Ok app].
    split; simpl; [done|done| |].
    + intros t Hge. rewrite Hs, Hc2. unfold expiries. rewrite fmap_cons. simpl.
      assert (filter (live t) (filter (live now') (RG_seen g)) !! key = None) as Hnone'.
      { apply map_lookup_filter_None. left. done. }
      rewrite map_filter_insert. simpl. case_decide as Hd.
      * rewrite filter_cons_True by done. rewrite map_to_list_insert by done. f_equiv. rewrite filter_live_filter by done. by apply Ht'.
      * rewrite filter_cons_False by done. rewrite delete_id by done. rewrite filter_live_filter by done. by apply Ht'.
    + apply NoDup_cons. split; [|done]. intros Hin. apply eq_None_not_Some in Hnone. apply Hnone.
      apply (tracks_seen now' g accepted key Ht'). eauto.
Qed.

Lemma trace_start_ok (window maxFutureSkew maxEntries now : Z) :
  let g0 := NewReplayGuard true window maxFutureSkew maxEntries in trace_ok g0 (g0, now, []).
Proof.
  split; simpl; [|done| |by constructor].
  - split; simpl; try apply cache_ok_empty; rewrite map_size_empty; lia.
  - intros t _. simpl. by rewrite map_filter_empty, map_to_list_empty.
Qed.

Lemma run_ok (g0 : ReplayGuard) (x y : trace) : RG_clock g0 = true → rtc guard_step x y → trace_ok g0 x → trace_ok g0 y.
Proof. induction 2; eauto using guard_step_ok. Qed.

(** ** Main result *)

(** C11: No authenticated request is accepted twice: over a clock that does not go
    back, in any sequence of operations on the guard, each request identity and
    timestamp is accepted at most once, however long ago the first time was.  The
    next request is refused exactly when its timestamp is outside the window, when
    the identity was accepted or recorded as invalid within the window, or when
    as many accepted requests as the cache holds have not expired; both caches
    stay within their bound. *)
Theorem replay_accepted_once (window maxFutureSkew maxEntries start now : Z) (g : ReplayGuard) (accepted : list (replayKey * Z)) :
  rtc guard_step (NewReplayGuard true window maxFutureSkew maxEntries, start, []) (g, now, accepted) →
  NoDup accepted ∧
  Z.of_nat (size (RG_seen g)) ≤ Z.max 0 maxEntries ∧ Z.of_nat (size (RG_invalid g)) ≤ Z.max 0 maxEntries ∧
  ∀ sender request ts now', now ≤ now' →
    let key := mkReplayKey sender request in
    let unexpired := filter (λ kt, now' < Time_Add kt.2 window) accepted in
    (ReplayGuard_Commit sender request ts now' g).1 =
      if (Time_Add now' maxFutureSkew <? ts) || (Time_Add ts window <=? now') then Err ErrTimestamp
      else if bool_decide (key ∈ unexpired.*1) || present key (filter (live now') (RG_invalid g)) then Err ErrReplay
      else if maxEntries <=? len unexpired then Err ErrReplayCacheFull
      else Ok tt.
Proof.
  intros Hrun. apply (run_ok (NewReplayGuard true window maxFutureSkew maxEntries)) in Hrun as [Hok (Hc & Hw & Hsk & Hm) Ht Hn];
    [|done|apply trace_start_ok]. simpl in *. pose proof Hok as [_ _ Hss His]. rewrite Hm in Hss, His.
  split_and!; [done|done|done|]. intros sender request ts now' Hle. cbv zeta.
  assert (outsideWindow ts now' g = (Time_Add now' maxFutureSkew <? ts) || (Time_Add ts window <=? now')) as <-
    by (unfold outsideWindow; by rewrite Hw, Hsk).
  destruct (outsideWindow ts now' g) eqn:Hout.
  { unfold ReplayGuard_Commit. rewrite withClock_on by done. unfold bind. by rewrite (proj1 (preflight_outside sender request ts now' g Hout)). }
  destruct (ReplayGuard_Commit_spec sender request ts now' g Hok Hc Hout) as (gs & g' & (_ & _ & Hs & Hi) & _ & _ & -> & _). cbn [fst].
  unfold verdict. rewrite Hs, Hi, Hm.
  assert (tracks now' g accepted) as Ht' by (intros t Hlt; apply Ht; lia).
  assert (present (mkReplayKey sender request) (filter (live now') (RG_seen g)) =
    bool_decide (mkReplayKey sender request ∈ (filter (λ kt, now' < Time_Add kt.2 window) accepted).*1)) as ->.
  { apply bool_decide_ext. rewrite (tracks_seen now' g accepted _ Ht'), Hw, list_elem_of_fmap. split.
    - intros (ts' & Hin & Hlt). exists (mkReplayKey sender request, ts'). split; [done|]. by apply list_elem_of_filter.
    - intros ([k ts'] & -> & [Hlt Hin]%list_elem_of_filter). eauto. }
  assert (Z.of_nat (size (filter (live now') (RG_seen g))) = len (filter (λ kt, now' < Time_Add kt.2 window) accepted)) as ->; [|done].
  unfold len. f_equal. rewrite <- length_map_to_list, (Ht' now' ltac:(lia)), Hw. unfold expiries.
  clear. induction accepted as [|[k ts'] l IH]; [done|]. rewrite fmap_cons, !filter_cons. simpl. by case_decide; simpl; rewrite IH.
Qed.

(** The requests of a run with a replay, an expiry and a refusal. *)
Definition exRequest : list byte := replicate 16 Byte.x01.
Definition exRun : list (replay_op * Z) :=
  [(OpCommit 1 exRequest 100, 100); (OpCommit 1 exRequest 100, 120); (OpRecordInvalid 2 exRequest 150, 160);
   (OpCommit 1 exRequest 240, 250); (OpCommit 1 exRequest 100, 250)].

Fixpoint exTrace (l : list (replay_op * Z)) (x : trace) : trace :=
  match l with
  | [] => x
  | (op, now) :: l =>
    exTrace l ((op_run op now x.1.1).2, now, (if is_Ok (op_run op now x.1.1).1 then accepts op else []) ++ x.2)
  end.

Lemma exTrace_run (l : list (replay_op * Z)) (x : trace) :
  StronglySorted Z.le (x.1.2 :: l.*2) → rtc guard_step x (exTrace l x).
Proof.
  revert x. induction l as [|[op now] l IH]; intros [[g now0] acc] Hs; simpl; [done|].
  eapply rtc_l; [apply (guard_op g now0 acc op now)|apply IH].
  - apply StronglySorted_inv in Hs as [_ Hs]. by inversion Hs.
  - by apply StronglySorted_inv in Hs as [Hs _].
Qed.

Lemma replay_accepted_once_witness :
  let x := exTrace exRun (NewReplayGuard true 100 50 8, 0, []) in
  x.2 = [(mkReplayKey 1 exRequest, 240); (mkReplayKey 1 exRequest, 100)] ∧ NoDup x.2 ∧
  (ReplayGuard_Commit 1 exRequest 100 260 x.1.1).1 = Err ErrTimestamp ∧ (ReplayGuard_Commit 1 exRequest 240 260 x.1.1).1 = Err ErrReplay ∧
  (ReplayGuard_Commit 3 exRequest 240 260 x.1.1).1 = Ok tt.
Proof.
  intros x. split; [vm_compute; reflexivity|].
  assert (rtc guard_step (NewReplayGuard true 100 50 8, 0, []) (x.1.1, x.1.2, x.2)) as Hrun.
  { replace (x.1.1, x.1.2, x.2) with x by (by destruct x as [[]]). apply exTrace_run. vm_compute. repeat constructor; discriminate. }
  destruct (replay_accepted_once 100 50 8 0 x.1.2 x.1.1 x.2 Hrun) as (Hn & _ & _ & Hc). split; [exact Hn|].
  split_and!; (rewrite Hc by (vm_compute; discriminate); vm_compute; reflexivity).
Defined.
End WireReplay.
