(* ===== verification/SwimTable.v ===== *)
(** * SWIM membership records and their table

    [internal/swim/member.go] and [table.go]: the member record of a node, the
    order in which records supersede each other, and the table a node keeps of the
    newest record and of the newest terminal generation of every other node.

    For every node the table amounts to a register that holds the greatest version
    it was told of: the records converge whatever the order and the number of
    copies in which gossip delivers them, and a generation that was forgotten does
    not come back. *)

From stdpp Require Import strings sorting.
From S2P Require Import Prelude.

Module SwimTable.
Open Scope go_scope.
Open Scope Z_scope.

(** ** Records *)

(** [Status] is a [uint8]; a value above [Left] is not valid. *)
Definition Alive : Z := 0.
Definition Suspect : Z := 1.
Definition Dead : Z := 2.
Definition Left : Z := 3.
Definition Status_valid (s : Z) : bool := s <=? Left.

Record Member := mkMember {
  NodeID : Z;
  Host : string;
  BasePort : Z;
  Incarnation : Z;
  Status : Z
}.
#[global] Instance eta_Member : Settable Member :=
  λ r, mkMember (NodeID r) (Host r) (BasePort r) (Incarnation r) (Status r).
#[global] Instance Member_eq_dec : EqDecision Member.
Proof. solve_decision. Defined.

Definition Member_zero : Member := mkMember 0 "" 0 0 0.

Record Update := mkUpdate { U_Member : Member; U_ReporterID : Z }.
#[global] Instance eta_Update : Settable Update := λ r, mkUpdate (U_Member r) (U_ReporterID r).
#[global] Instance Update_eq_dec : EqDecision Update.
Proof. solve_decision. Defined.

Inductive EventCause := EventMemberChanged | EventResyncRequired.

Record MembershipEvent := mkEvent {
  ME_Previous : Member;
  ME_Current : Member;
  ME_Cause : EventCause;
  ME_ReporterID : Z
}.
Definition MembershipEvent_zero : MembershipEvent := mkEvent Member_zero Member_zero EventMemberChanged 0.

(** The order of versions: the incarnation first, then the severity. *)
Definition compareMemberVersion (left right : Member) : Z :=
  if Incarnation left <? Incarnation right then -1
  else if Incarnation right <? Incarnation left then 1
  else if Status left <? Status right then -1
  else if Status right <? Status left then 1
  else 0.

Definition terminal (m : Member) : bool := (Status m =? Dead) || (Status m =? Left).

(** ** The table *)

Record Table := mkTable { T_members : gmap Z Member; T_floors : gmap Z Member }.
#[global] Instance eta_Table : Settable Table := λ t, mkTable (T_members t) (T_floors t).

Definition NewTable : Table := mkTable ∅ ∅.

Definition retainIncarnationFloor (member : Member) (t : Table) : Table :=
  if negb (terminal member) then t
  else match T_floors t !! NodeID member with
       | None => t <| T_floors ::= <[NodeID member := member]> |>
       | Some retained =>
         if 0 <? compareMemberVersion member retained then
           let member := if Incarnation member =? Incarnation retained
                         then retained <| Status := Status member |> else member in
           t <| T_floors ::= <[NodeID member := member]> |>
         else t
       end.

(** The record an incoming one is compared with: the visible one, or the floor
    when that is newer. *)
Definition reference (t : Table) (nodeID : Z) : option Member :=
  match T_members t !! nodeID, T_floors t !! nodeID with
  | Some previous, Some floor => Some (if 0 <? compareMemberVersion floor previous then floor else previous)
  | None, Some floor => Some floor
  | previous, None => previous
  end.

Definition Merge (update : Update) (t : Table) : bool * MembershipEvent * Table :=
  let incoming := U_Member update in
  if (NodeID incoming =? 0) || (U_ReporterID update =? 0) || negb (Status_valid (Status incoming))
  then (false, MembershipEvent_zero, t)
  else
    let previous := default Member_zero (T_members t !! NodeID incoming) in
    let accept (incoming : Member) :=
      (true, mkEvent previous incoming EventMemberChanged (U_ReporterID update),
       retainIncarnationFloor incoming (t <| T_members ::= <[NodeID incoming := incoming]> |>)) in
    match reference t (NodeID incoming) with
    | None => accept incoming
    | Some reference =>
      if Incarnation incoming <? Incarnation reference then (false, MembershipEvent_zero, t)
      else if Incarnation incoming =? Incarnation reference then
        if Status incoming <=? Status reference then (false, MembershipEvent_zero, t)
        else accept (reference <| Status := Status incoming |>)
      else accept incoming
    end.

Definition MergeIncarnationFloor (floor : Member) (reporterID : Z) (t : Table) : bool * MembershipEvent * Table :=
  if (NodeID floor =? 0) || (Incarnation floor =? 0) || (reporterID =? 0) || negb (terminal floor)
  then (false, MembershipEvent_zero, t)
  else
    let withCurrent (floor : Member) :=
      let keep := (true, MembershipEvent_zero, t <| T_floors ::= <[NodeID floor := floor]> |>) in
      match T_members t !! NodeID floor with
      | Some current =>
        if 0 <? compareMemberVersion floor current then
          let floor := if Incarnation floor =? Incarnation current
                       then current <| Status := Status floor |> else floor in
          Merge (mkUpdate floor reporterID) t
        else keep
      | None => keep
      end in
    match T_floors t !! NodeID floor with
    | Some retained =>
      if compareMemberVersion floor retained <=? 0 then (false, MembershipEvent_zero, t)
      else if Incarnation floor =? Incarnation retained
           then withCurrent (retained <| Status := Status floor |>)
           else withCurrent floor
    | None => withCurrent floor
    end.

Definition ExpireTerminal (member : Member) (t : Table) : bool * Table :=
  if negb (terminal member) then (false, t)
  else match T_members t !! NodeID member with
       | Some current =>
         if negb (bool_decide (current = member)) then (false, t)
         else (true, (retainIncarnationFloor current t) <| T_members ::= delete (NodeID member) |>)
       | None => (false, t)
       end.

Definition IncarnationFloor (nodeID : Z) (t : Table) : option Member := T_floors t !! nodeID.

Definition by_id (a b : Member) : Prop := NodeID a ≤ NodeID b.
#[global] Instance by_id_dec : RelDecision by_id.
Proof. intros a b. unfold by_id. apply _. Defined.

Definition values (m : gmap Z Member) : list Member := (map_to_list m).*2.

(** A floor is hidden when no visible record carries its version or a newer one. *)
Definition hidden (t : Table) (nodeID : Z) (floor : Member) : bool :=
  match T_members t !! nodeID with
  | Some current => compareMemberVersion current floor <? 0
  | None => true
  end.

Definition IncarnationFloors (t : Table) : list Member :=
  merge_sort by_id (values (filter (λ kv, hidden t kv.1 kv.2 = true) (T_floors t))).

Definition Table_Get (nodeID : Z) (t : Table) : option Member := T_members t !! nodeID.

Definition Table_MustGet (nodeID : Z) (t : Table) : outcome unit Member :=
  match Table_Get nodeID t with Some member => Ok member | None => Panic end.

Definition Table_Snapshot (t : Table) : list Member := merge_sort by_id (values (T_members t)).

(** ** Versions *)

(** The version of a record as one number. *)
Definition ver (m : Member) : Z := Incarnation m * 256 + Status m.
Definition ver0 (o : option Member) : Z := from_option ver (-1) o.

(** The greatest version the table was told of for a node, [-1] for none. *)
Definition known (t : Table) (n : Z) : Z := ver0 (T_members t !! n) `max` ver0 (T_floors t !! n).

(** The fields have their Go types. *)
Definition member_typed (m : Member) : Prop :=
  is_u16 (NodeID m) ∧ is_u16 (BasePort m) ∧ is_u64 (Incarnation m) ∧ is_u8 (Status m).

Definition same_address (a b : Member) : Prop := Host a = Host b ∧ BasePort a = BasePort b.

Lemma ver_lt (a b : Member) :
  is_u8 (Status a) → is_u8 (Status b) →
  ver a < ver b ↔ Incarnation a < Incarnation b ∨ (Incarnation a = Incarnation b ∧ Status a < Status b).
Proof. unfold ver. intros Ha Hb. ulia. Qed.

Lemma ver_eq (a b : Member) :
  is_u8 (Status a) → is_u8 (Status b) → ver a = ver b → Incarnation a = Incarnation b ∧ Status a = Status b.
Proof. unfold ver. intros. ulia. Qed.

Lemma compare_spec (a b : Member) :
  is_u8 (Status a) → is_u8 (Status b) →
  (ver a < ver b ∧ compareMemberVersion a b = -1) ∨ (ver b < ver a ∧ compareMemberVersion a b = 1) ∨
  (ver a = ver b ∧ compareMemberVersion a b = 0).
Proof.
  intros Ha Hb. unfold compareMemberVersion, ver. repeat case_goal; bool_hyps; ulia.
Qed.

Lemma terminal_status (m : Member) : terminal m = true → Status m = Dead ∨ Status m = Left.
Proof. unfold terminal. intros [?%Z.eqb_eq|?%Z.eqb_eq]%orb_true_iff; auto. Qed.

(** ** Invariant *)

Definition record_ok (n : Z) (m : Member) : Prop := NodeID m = n ∧ n ≠ 0 ∧ 0 ≤ Incarnation m ∧ 0 ≤ Status m ≤ Left.

Record table_ok (t : Table) : Prop := {
  ok_members : ∀ n m, T_members t !! n = Some m → record_ok n m;
  ok_floors : ∀ n f, T_floors t !! n = Some f → record_ok n f ∧ terminal f = true;
  (** A visible record is at least as new as the floor; one address per incarnation. *)
  ok_above : ∀ n m f, T_members t !! n = Some m → T_floors t !! n = Some f →
    ver f ≤ ver m ∧ (Incarnation f = Incarnation m → same_address f m);
  (** A visible terminal record is its floor. *)
  ok_retained : ∀ n m, T_members t !! n = Some m → terminal m = true → T_floors t !! n = Some m
}.

Lemma NewTable_ok : table_ok NewTable.
Proof. split; intros *; simpl; by rewrite lookup_empty. Qed.

Lemma record_u8 (n : Z) (m : Member) : record_ok n m → is_u8 (Status m).
Proof. unfold Left. intros (_ & _ & _ & H). unfold Left in *. ulia. Qed.

Lemma record_ver (n : Z) (m : Member) : record_ok n m → 0 ≤ ver m.
Proof. unfold ver. intros (_ & _ & Hi & Hs). lia. Qed.

(** A visible record is the reference; otherwise the floor is. *)
Lemma reference_spec (t : Table) (n : Z) :
  table_ok t → reference t n = match T_members t !! n with Some m => Some m | None => T_floors t !! n end ∧
    known t n = ver0 (reference t n).
Proof.
  intros Hok. unfold reference, known. destruct (T_members t !! n) as [m|] eqn:Hm, (T_floors t !! n) as [f|] eqn:Hf; simpl.
  - destruct (ok_above t Hok n m f Hm Hf) as [Hv _].
    pose proof (record_u8 _ _ (ok_members t Hok _ _ Hm)). pose proof (record_u8 _ _ (proj1 (ok_floors t Hok _ _ Hf))).
    destruct (compare_spec f m) as [[? ->]|[[? ->]|[? ->]]]; try done; simpl; split; try done; lia.
  - pose proof (record_ver _ _ (ok_members t Hok _ _ Hm)). split; [done|lia].
  - pose proof (record_ver _ _ (proj1 (ok_floors t Hok _ _ Hf))). split; [done|lia].
  - done.
Qed.

(** ** Accepting a record *)

(** The table with [m] as the newest record of its node. *)
Definition installed (m : Member) (t : Table) : Table :=
  mkTable (<[NodeID m := m]> (T_members t)) (if terminal m then <[NodeID m := m]> (T_floors t) else T_floors t).

(** [m] is newer than all the table knows of its node, and keeps the address of
    the generation it belongs to. *)
Definition advances (m : Member) (t : Table) : Prop :=
  record_ok (NodeID m) m ∧ known t (NodeID m) < ver m ∧
  ∀ r, reference t (NodeID m) = Some r → Incarnation r = Incarnation m → same_address r m.

Lemma same_member (a b : Member) :
  NodeID a = NodeID b → same_address a b → Incarnation a = Incarnation b → Status a = Status b → a = b.
Proof. destruct a, b. unfold same_address. simpl. naive_solver. Qed.

Lemma advances_floor (m f : Member) (t : Table) :
  table_ok t → advances m t → T_floors t !! NodeID m = Some f →
  ver f < ver m ∧ (Incarnation f = Incarnation m → same_address f m).
Proof.
  intros Hok (Hm & Hk & Ha) Hf. destruct (reference_spec t (NodeID m) Hok) as [Hr Hkr].
  destruct (ok_floors t Hok _ _ Hf) as [Hfok _]. pose proof (record_u8 _ _ Hm). pose proof (record_u8 _ _ Hfok).
  destruct (T_members t !! NodeID m) as [c|] eqn:Hc.
  - destruct (ok_above t Hok _ _ _ Hc Hf) as [Hv Hsame]. pose proof (record_u8 _ _ (ok_members t Hok _ _ Hc)).
    rewrite Hkr, Hr in Hk. simpl in Hk. split; [lia|]. intros Hi.
    assert (Incarnation f = Incarnation c) as Hfc by (unfold ver in *; ulia).
    destruct (Hsame Hfc), (Ha c Hr) as [? ?]; [congruence|]. unfold same_address in *. naive_solver congruence.
  - rewrite Hkr, Hr, Hf in Hk. simpl in Hk. split; [lia|]. apply Ha. by rewrite Hr.
Qed.

Lemma accept_installed (m : Member) (t : Table) :
  table_ok t → advances m t →
  retainIncarnationFloor m (t <| T_members ::= <[NodeID m := m]> |>) = installed m t.
Proof.
  intros Hok Hadv. unfold retainIncarnationFloor, installed. destruct (terminal m) eqn:Ht; [|done]. simpl.
  destruct (T_floors t !! NodeID m) as [f|] eqn:Hf; [|done].
  destruct (advances_floor m f t Hok Hadv Hf) as [Hv Ha]. destruct (ok_floors t Hok _ _ Hf) as [Hfok _].
  destruct Hadv as (Hm & _ & _). pose proof (record_u8 _ _ Hm). pose proof (record_u8 _ _ Hfok).
  destruct (compare_spec m f) as [[? ->]|[[? ->]|[? ->]]]; try done; try lia. simpl.
  destruct (Incarnation m =? Incarnation f) eqn:Hi; [|done]. apply Z.eqb_eq in Hi.
  assert (f <| Status := Status m |> = m) as ->; [|done].
  apply same_member; simpl; try done; [apply Hfok|]. destruct Ha; [done|]. done.
Qed.

Lemma installed_ok (m : Member) (t : Table) : table_ok t → advances m t → table_ok (installed m t).
Proof.
  intros Hok Hadv. pose proof (advances_floor m) as Hfl. pose proof Hadv as (Hm & Hk & Ha).
  assert (∀ n f, T_floors (installed m t) !! n = Some f →
    (n = NodeID m ∧ f = m ∧ terminal m = true) ∨ (T_floors t !! n = Some f ∧ (n ≠ NodeID m ∨ terminal m = false))) as Hf.
  { intros n f. unfold installed. destruct (terminal m) eqn:Ht; simpl; [|by auto].
    rewrite lookup_insert_Some. naive_solver. }
  split.
  - intros n c. simpl. intros [[<- <-]|[? ?]]%lookup_insert_Some; [done|by apply Hok].
  - intros n f [(-> & -> & ?)|[? _]]%Hf; [done|by apply Hok].
  - intros n c f. simpl. intros [[<- <-]|[Hne Hc]]%lookup_insert_Some Hf'%Hf.
    + destruct Hf' as [(_ & -> & _)|[Hf' _]]; [done|]. destruct (Hfl f t Hok Hadv Hf'). split; [lia|done].
    + destruct Hf' as [(-> & _)|[Hf' _]]; [done|]. by apply (ok_above t Hok n).
  - intros n c. simpl. unfold installed. intros [[<- <-]|[Hne Hc]]%lookup_insert_Some Ht.
    + simpl. by rewrite Ht, lookup_insert_eq.
    + pose proof (ok_retained t Hok _ _ Hc Ht). simpl. destruct (terminal m); [|done]. by rewrite lookup_insert_ne.
Qed.

Lemma installed_known (m : Member) (t : Table) (n : Z) :
  table_ok t → advances m t → known (installed m t) n = if n =? NodeID m then ver m else known t n.
Proof.
  intros Hok Hadv. unfold known. simpl. destruct (Z.eqb_spec n (NodeID m)) as [->|Hne].
  - rewrite lookup_insert_eq. simpl. destruct (terminal m); [rewrite lookup_insert_eq; simpl; lia|].
    destruct (T_floors t !! NodeID m) as [f|] eqn:Hf; simpl.
    + destruct (advances_floor m f t Hok Hadv Hf). lia.
    + pose proof (record_ver _ _ (proj1 Hadv)). lia.
  - rewrite lookup_insert_ne by done. destruct (terminal m); [by rewrite lookup_insert_ne|done].
Qed.

(** ** Operations *)

Definition update_valid (u : Update) : bool :=
  negb (NodeID (U_Member u) =? 0) && negb (U_ReporterID u =? 0) && Status_valid (Status (U_Member u)).

(** The record an accepted update leaves: at an equal incarnation the address of
    the reference is kept. *)
Definition merged (m : Member) (t : Table) : Member :=
  match reference t (NodeID m) with
  | Some r => if Incarnation m =? Incarnation r then r <| Status := Status m |> else m
  | None => m
  end.

Lemma reference_record (t : Table) (n : Z) (r : Member) : table_ok t → reference t n = Some r → record_ok n r.
Proof.
  intros Hok. destruct (reference_spec t n Hok) as [-> _]. destruct (T_members t !! n) eqn:Hm; intros H.
  - injection H as ->. by apply (ok_members t).
  - by apply (ok_floors t).
Qed.

Lemma merged_spec (m : Member) (t : Table) :
  table_ok t → record_ok (NodeID m) m → ver (merged m t) = ver m ∧ NodeID (merged m t) = NodeID m ∧
    (known t (NodeID m) < ver m → advances (merged m t) t).
Proof.
  intros Hok Hm. unfold merged, advances. destruct (reference t (NodeID m)) as [r|] eqn:Hr.
  - pose proof (reference_record t _ r Hok Hr) as Hrok. destruct (Z.eqb_spec (Incarnation m) (Incarnation r)) as [He|Hne].
    + assert (NodeID r = NodeID m) as Hid by apply Hrok.
      assert (ver (r <| Status := Status m |>) = ver m) as Hv by (unfold ver; simpl; lia).
      assert (record_ok (NodeID r) (r <| Status := Status m |>)) as Hrec.
      { destruct Hm as (_ & ? & ? & ?), Hrok as (? & ? & ? & ?). split_and!; simpl; try lia; try done; unfold Left in *; lia. }
      rewrite Hv. simpl. split_and!; [done..|]. rewrite Hid in *. rewrite Hr. intros Hk. split_and!; [done..|].
      intros ? [= <-] _. done.
    + split_and!; [done..|]. intros Hk. split_and!; [done..|]. rewrite Hr. intros ? [= <-]. congruence.
  - split_and!; [done..|]. intros Hk. split_and!; [done..|]. by rewrite Hr.
Qed.

Definition nonneg (m : Member) : Prop := 0 ≤ Incarnation m ∧ 0 ≤ Status m.

Lemma typed_nonneg (m : Member) : member_typed m → nonneg m.
Proof. intros (? & ? & ? & ?). split; ulia. Qed.

Lemma update_record (u : Update) : update_valid u = true → nonneg (U_Member u) → record_ok (NodeID (U_Member u)) (U_Member u).
Proof.
  unfold update_valid, Status_valid, nonneg, record_ok. intros Hv (? & ?). bool_hyps. split_and!; ulia.
Qed.

Lemma Merge_spec (u : Update) (t : Table) :
  table_ok t → nonneg (U_Member u) →
  Merge u t =
    if update_valid u && (known t (NodeID (U_Member u)) <? ver (U_Member u)) then
      (true, mkEvent (default Member_zero (T_members t !! NodeID (U_Member u))) (merged (U_Member u) t) EventMemberChanged
               (U_ReporterID u), installed (merged (U_Member u) t) t)
    else (false, MembershipEvent_zero, t).
Proof.
  intros Hok Hty. unfold Merge. set (m := U_Member u) in *.
  destruct (update_valid u) eqn:Hv.
  2: { unfold update_valid in Hv. fold m in Hv.
       destruct (NodeID m =? 0), (U_ReporterID u =? 0), (Status_valid (Status m)); done. }
  pose proof (update_record u Hv Hty) as Hrec. fold m in Hrec.
  assert ((NodeID m =? 0) || (U_ReporterID u =? 0) || negb (Status_valid (Status m)) = false) as ->.
  { unfold update_valid in Hv. fold m in Hv. bool_hyps. destruct (Status_valid _); [|done]. rewrite !orb_false_r, orb_false_iff, !Z.eqb_neq. done. }
  cbn [andb]. destruct (reference_spec t (NodeID m) Hok) as [_ Hk]. destruct (merged_spec m t Hok Hrec) as (Hver & Hid & Hadv).
  assert (∀ a, a = merged m t → known t (NodeID m) < ver m →
    retainIncarnationFloor a (t <| T_members ::= <[NodeID a := a]> |>) = installed (merged m t) t) as Hacc.
  { intros a -> Hlt. by apply accept_installed; [|apply Hadv]. }
  unfold merged in *. destruct (reference t (NodeID m)) as [r|] eqn:Hr.
  - pose proof (reference_record t _ r Hok Hr) as Hrok. pose proof (record_u8 _ _ Hrec). pose proof (record_u8 _ _ Hrok).
    simpl in Hk. rewrite Hk in *. destruct (Z.ltb_spec (ver r) (ver m)) as [Hlt|Hge].
    + apply ver_lt in Hlt as Hcase; [|done..]. rewrite (proj2 (Z.ltb_ge _ _)) by lia.
      destruct (Z.eqb_spec (Incarnation m) (Incarnation r)); [|f_equal; by apply Hacc].
      rewrite (proj2 (Z.leb_gt _ _)) by lia. f_equal. by apply Hacc.
    + unfold ver in Hge. destruct (Z.ltb_spec (Incarnation m) (Incarnation r)); [done|].
      destruct (Z.eqb_spec (Incarnation m) (Incarnation r)); [|ulia]. rewrite (proj2 (Z.leb_le _ _)) by ulia. done.
  - simpl in Hk. rewrite Hk in *. pose proof (record_ver _ _ Hrec). rewrite (proj2 (Z.ltb_lt _ _)) by lia.
    f_equal. apply Hacc; [done|lia].
Qed.

Definition floor_valid (floor : Member) (reporterID : Z) : bool :=
  negb (NodeID floor =? 0) && negb (Incarnation floor =? 0) && negb (reporterID =? 0) && terminal floor.

(** What a floor does: it is not newer than the one retained; it is retained; or
    it overtakes the visible record. *)
Inductive floor_result (floor : Member) (reporterID : Z) (t : Table) : bool * MembershipEvent * Table → Prop :=
| floor_stale :
    floor_valid floor reporterID = false ∨ ver floor ≤ known t (NodeID floor) →
    floor_result floor reporterID t (false, MembershipEvent_zero, t)
| floor_kept f :
    record_ok (NodeID floor) f → terminal f = true → ver f = ver floor → ver0 (T_floors t !! NodeID floor) < ver f →
    (∀ m, T_members t !! NodeID floor = Some m → ver f ≤ ver m ∧ (Incarnation f = Incarnation m → same_address f m)) →
    floor_result floor reporterID t (true, MembershipEvent_zero, t <| T_floors ::= <[NodeID floor := f]> |>)
| floor_advances previous m :
    T_members t !! NodeID floor = Some previous → advances m t → terminal m = true → ver m = ver floor →
    NodeID m = NodeID floor →
    floor_result floor reporterID t (true, mkEvent previous m EventMemberChanged reporterID, installed m t).

Lemma floor_overtakes (floor f current : Member) (reporterID : Z) (t : Table) :
  table_ok t → floor_valid floor reporterID = true → record_ok (NodeID floor) f → terminal f = true → ver f = ver floor →
  T_members t !! NodeID floor = Some current → ver current < ver f →
  floor_result floor reporterID t
    (Merge (mkUpdate (if Incarnation f =? Incarnation current then current <| Status := Status f |> else f) reporterID) t).
Proof.
  intros Hok Hval Hf Ht Hv Hc Hlt. set (g := if (Incarnation f =? Incarnation current) then _ else _).
  pose proof (ok_members t Hok _ _ Hc) as Hcok.
  assert (record_ok (NodeID floor) g ∧ ver g = ver floor ∧ terminal g = true) as (Hg & Hgv & Hgt).
  { unfold g. destruct (Z.eqb_spec (Incarnation f) (Incarnation current)); [|done].
    destruct Hf as (? & ? & ? & ?), Hcok as (? & ? & ? & ?). unfold ver in *. simpl.
    split_and!; [split_and!; simpl; try done; lia|lia|]. by unfold terminal in *; simpl. }
  assert (NodeID g = NodeID floor) as Hid by apply Hg.
  destruct (reference_spec t (NodeID floor) Hok) as [Hr Hk]. rewrite Hc in Hr. rewrite Hr in Hk. simpl in Hk.
  assert (nonneg g) as Hng by (destruct Hg as (? & ? & ? & ?); split; lia).
  rewrite (Merge_spec (mkUpdate g reporterID) t Hok Hng). simpl U_Member. simpl U_ReporterID.
  assert (update_valid (mkUpdate g reporterID) = true) as ->.
  { unfold update_valid, floor_valid, Status_valid in *. simpl. rewrite Hid. bool_hyps.
    destruct Hg as (? & ? & ? & ?). rewrite !andb_true_iff, !negb_true_iff, !Z.eqb_neq, Z.leb_le. split_and!; done || lia. }
  rewrite Hid, Hk, (proj2 (Z.ltb_lt _ _)) by lia. cbn [andb].
  rewrite Hc. cbn [default from_option id]. rewrite <- Hid in Hg. destruct (merged_spec g t Hok Hg) as (Hmv & Hmid & Hadv).
  assert (terminal (merged g t) = true).
  { unfold merged. rewrite Hid, Hr. destruct (Incarnation g =? Incarnation current); [|done]. by unfold terminal in *; simpl. }
  apply floor_advances; [done| |done|lia|lia]. apply Hadv. rewrite Hid, Hk. lia.
Qed.

Lemma floor_with_current (floor f : Member) (reporterID : Z) (t : Table) :
  table_ok t → floor_valid floor reporterID = true → record_ok (NodeID floor) f → terminal f = true → ver f = ver floor →
  ver0 (T_floors t !! NodeID floor) < ver f →
  floor_result floor reporterID t
    (match T_members t !! NodeID f with
     | Some current =>
       if 0 <? compareMemberVersion f current then
         Merge (mkUpdate (if Incarnation f =? Incarnation current then current <| Status := Status f |> else f) reporterID) t
       else (true, MembershipEvent_zero, t <| T_floors ::= <[NodeID f := f]> |>)
     | None => (true, MembershipEvent_zero, t <| T_floors ::= <[NodeID f := f]> |>)
     end).
Proof.
  intros Hok Hval Hf Ht Hv Hlt. assert (NodeID f = NodeID floor) as Hid by apply Hf. rewrite Hid.
  destruct (T_members t !! NodeID floor) as [current|] eqn:Hc; [|apply floor_kept; try done; by rewrite Hc].
  pose proof (ok_members t Hok _ _ Hc) as Hcok. pose proof (record_u8 _ _ Hf). pose proof (record_u8 _ _ Hcok).
  assert (ver f ≤ ver current → Incarnation f = Incarnation current → same_address f current) as Hsame.
  { intros Hle Hi. destruct (terminal current) eqn:Htc.
    - rewrite (ok_retained t Hok _ _ Hc Htc) in Hlt. simpl in Hlt. lia.
    - apply terminal_status in Ht. unfold terminal in Htc. apply orb_false_elim in Htc as [?%Z.eqb_neq ?%Z.eqb_neq].
      destruct Hcok as (_ & _ & _ & ?). unfold ver, Dead, Left in *. lia. }
  destruct (compare_spec f current) as [[? ->]|[[? ->]|[? ->]]]; try done; cbn [Z.ltb Z.compare].
  - apply floor_kept; try done. rewrite Hc. intros ? [= <-]. split; [lia|]. apply Hsame. lia.
  - by apply floor_overtakes.
  - apply floor_kept; try done. rewrite Hc. intros ? [= <-]. split; [lia|]. apply Hsame. lia.
Qed.

Lemma Floor_spec (floor : Member) (reporterID : Z) (t : Table) :
  table_ok t → nonneg floor → floor_result floor reporterID t (MergeIncarnationFloor floor reporterID t).
Proof.
  intros Hok [Hi Hs]. unfold MergeIncarnationFloor. destruct (floor_valid floor reporterID) eqn:Hv.
  2: { unfold floor_valid in Hv. case_goal; [apply floor_stale; by left|]. exfalso.
       destruct (NodeID floor =? 0), (Incarnation floor =? 0), (reporterID =? 0), (terminal floor); done. }
  assert (terminal floor = true) as Ht by (unfold floor_valid in Hv; by bool_hyps).
  assert (record_ok (NodeID floor) floor) as Hf.
  { unfold floor_valid in Hv. bool_hyps. apply terminal_status in Ht. unfold record_ok, Dead, Left in *. split_and!; [done| |done|..]; lia. }
  match goal with |- context [if ?b then _ else _] => assert (b = false) as -> end.
  { unfold floor_valid in Hv. destruct (NodeID floor =? 0), (Incarnation floor =? 0), (reporterID =? 0), (terminal floor); done. }
  cbv zeta. destruct (T_floors t !! NodeID floor) as [retained|] eqn:Hr.
  - destruct (ok_floors t Hok _ _ Hr) as [Hrok Hrt]. pose proof (record_u8 _ _ Hf). pose proof (record_u8 _ _ Hrok).
    assert (ver retained ≤ known t (NodeID floor)) as Hle by (unfold known; rewrite Hr; simpl; lia).
    destruct (compare_spec floor retained) as [[? ->]|[[? ->]|[? ->]]]; try done; cbn [Z.leb Z.compare].
    + apply floor_stale. right. lia.
    + destruct (Z.eqb_spec (Incarnation floor) (Incarnation retained)) as [He|Hne].
      * apply floor_with_current; try done.
        { destruct Hf as (? & ? & ? & ?), Hrok as (? & ? & ? & ?). split_and!; simpl; try done; lia. }
        { unfold ver. simpl. lia. }
        { rewrite Hr. unfold ver. simpl. unfold ver in *. lia. }
      * apply floor_with_current; try done. by rewrite Hr.
    + apply floor_stale. right. lia.
  - apply floor_with_current; try done. rewrite Hr. simpl. pose proof (record_ver _ _ Hf). lia.
Qed.

Lemma floor_kept_ok (n : Z) (f : Member) (t : Table) :
  table_ok t → record_ok n f → terminal f = true → ver0 (T_floors t !! n) < ver f →
  (∀ m, T_members t !! n = Some m → ver f ≤ ver m ∧ (Incarnation f = Incarnation m → same_address f m)) →
  table_ok (t <| T_floors ::= <[n := f]> |>).
Proof.
  intros Hok Hf Ht Hlt Hm. split; simpl.
  - apply Hok.
  - intros n' f'. intros [[<- <-]|[_ H]]%lookup_insert_Some; [done|by apply (ok_floors t)].
  - intros n' m f' Hm' [[<- <-]|[_ H]]%lookup_insert_Some; [by apply Hm|by apply (ok_above t Hok n')].
  - intros n' m Hm' Htm. pose proof (ok_retained t Hok _ _ Hm' Htm) as Hr. destruct (decide (n = n')) as [<-|Hne].
    + rewrite Hr in Hlt. simpl in Hlt. destruct (Hm m Hm'). lia.
    + by rewrite lookup_insert_ne.
Qed.

(** The version a call tells of node [n], [-1] for none. *)
Definition told_update (u : Update) (n : Z) : Z :=
  if update_valid u && (n =? NodeID (U_Member u)) then ver (U_Member u) else -1.
Definition told_floor (floor : Member) (reporterID n : Z) : Z :=
  if floor_valid floor reporterID && (n =? NodeID floor) then ver floor else -1.

Lemma known_range (t : Table) (n : Z) : table_ok t → -1 ≤ known t n.
Proof.
  intros Hok. destruct (reference_spec t n Hok) as [_ ->]. destruct (reference t n) as [r|] eqn:Hr; simpl; [|done].
  pose proof (record_ver _ _ (reference_record t n r Hok Hr)). lia.
Qed.

Lemma Merge_told (u : Update) (t : Table) :
  table_ok t → nonneg (U_Member u) →
  table_ok (Merge u t).2 ∧ ∀ n, known (Merge u t).2 n = known t n `max` told_update u n.
Proof.
  intros Hok Hn. rewrite (Merge_spec u t Hok Hn). unfold told_update. destruct (update_valid u) eqn:Hv; simpl.
  2: { split; [done|]. intros n. pose proof (known_range t n Hok); lia. }
  destruct (merged_spec (U_Member u) t Hok (update_record u Hv Hn)) as (Hver & Hid & Hadv).
  destruct (Z.ltb_spec (known t (NodeID (U_Member u))) (ver (U_Member u))) as [Hlt|Hge]; simpl.
  - specialize (Hadv Hlt). split; [by apply installed_ok|]. intros n. rewrite (installed_known _ t n Hok Hadv), Hid.
    destruct (Z.eqb_spec n (NodeID (U_Member u))) as [->|]; [lia|]. pose proof (known_range t n Hok); lia.
  - split; [done|]. intros n. destruct (Z.eqb_spec n (NodeID (U_Member u))) as [->|]; [lia|].
    pose proof (known_range t n Hok); lia.
Qed.

Lemma floor_told (floor : Member) (reporterID : Z) (t : Table) (r : bool * MembershipEvent * Table) :
  table_ok t → floor_result floor reporterID t r →
  floor_valid floor reporterID = true ∨ r = (false, MembershipEvent_zero, t) →
  table_ok r.2 ∧ ∀ n, known r.2 n = known t n `max` told_floor floor reporterID n.
Proof.
  intros Hok [Hst|f Hf Ht Hv Hlt Hm|previous m Hp Hadv Ht Hv Hid] Hval; simpl.
  - split; [done|]. intros n. unfold told_floor. pose proof (known_range t n Hok).
    destruct (floor_valid floor reporterID); simpl; [|lia]. destruct Hst as [|Hst]; [done|].
    destruct (Z.eqb_spec n (NodeID floor)) as [->|]; lia.
  - destruct Hval as [Hval|?]; [|done]. split; [by apply floor_kept_ok|]. intros n. unfold told_floor, known. simpl. rewrite Hval.
    destruct (Z.eqb_spec n (NodeID floor)) as [->|Hne]; simpl.
    + rewrite lookup_insert_eq. simpl. lia.
    + rewrite lookup_insert_ne by done. pose proof (known_range t n Hok); unfold known in *; lia.
  - destruct Hval as [Hval|?]; [|done]. split; [by apply installed_ok|]. intros n. unfold told_floor. rewrite Hval.
    rewrite (installed_known m t n Hok Hadv), Hid. simpl. destruct Hadv as (_ & Hk & _). rewrite Hid in Hk.
    destruct (Z.eqb_spec n (NodeID floor)) as [->|Hne]; [lia|]. pose proof (known_range t n Hok); lia.
Qed.

Lemma MergeIncarnationFloor_told (floor : Member) (reporterID : Z) (t : Table) :
  table_ok t → nonneg floor → table_ok (MergeIncarnationFloor floor reporterID t).2 ∧
    ∀ n, known (MergeIncarnationFloor floor reporterID t).2 n = known t n `max` told_floor floor reporterID n.
Proof.
  intros Hok Hn. apply floor_told; [done|by apply Floor_spec|].
  destruct (floor_valid floor reporterID) eqn:Hv; [by left|right]. unfold MergeIncarnationFloor. case_goal; [done|]. exfalso.
  unfold floor_valid in Hv. destruct (NodeID floor =? 0), (Incarnation floor =? 0), (reporterID =? 0), (terminal floor); done.
Qed.

(** Expiry forgets only the visible record: its floor keeps its version. *)
Lemma ExpireTerminal_spec (m : Member) (t : Table) :
  table_ok t →
  ExpireTerminal m t =
    if terminal m && bool_decide (T_members t !! NodeID m = Some m)
    then (true, t <| T_members ::= delete (NodeID m) |>) else (false, t).
Proof.
  intros Hok. unfold ExpireTerminal. destruct (terminal m) eqn:Ht; [|done]. simpl.
  destruct (T_members t !! NodeID m) as [current|] eqn:Hc; [|by rewrite bool_decide_false].
  destruct (decide (current = m)) as [->|Hne]; [|by rewrite !bool_decide_false by congruence].
  rewrite !bool_decide_true by done. simpl. f_equal. unfold retainIncarnationFloor. rewrite Ht. simpl.
  rewrite (ok_retained t Hok _ _ Hc Ht). pose proof (record_u8 _ _ (ok_members t Hok _ _ Hc)).
  destruct (compare_spec m m) as [[? ->]|[[? ->]|[? ->]]]; try done; lia.
Qed.

Lemma ExpireTerminal_told (m : Member) (t : Table) :
  table_ok t → table_ok (ExpireTerminal m t).2 ∧ ∀ n, known (ExpireTerminal m t).2 n = known t n.
Proof.
  intros Hok. rewrite ExpireTerminal_spec by done. destruct (terminal m) eqn:Ht; [|done]. simpl.
  case_bool_decide as Hm; [|done]. simpl. split.
  - split; simpl.
    + intros n m' [_ H]%lookup_delete_Some. by apply (ok_members t).
    + apply Hok.
    + intros n m' f [_ H]%lookup_delete_Some Hf. by apply (ok_above t Hok n).
    + intros n m' [_ H]%lookup_delete_Some Ht'. by apply (ok_retained t).
  - intros n. unfold known. simpl. destruct (decide (n = NodeID m)) as [->|Hne]; [|by rewrite lookup_delete_ne].
    rewrite lookup_delete_eq, Hm, (ok_retained t Hok _ _ Hm Ht). simpl.
    pose proof (record_ver _ _ (ok_members t Hok _ _ Hm)). lia.
Qed.

(** ** Runs *)

Inductive table_op :=
| OpMerge (update : Update)
| OpFloor (floor : Member) (reporterID : Z)
| OpExpire (member : Member).

Definition apply_op (t : Table) (op : table_op) : Table :=
  match op with
  | OpMerge u => (Merge u t).2
  | OpFloor f r => (MergeIncarnationFloor f r t).2
  | OpExpire m => (ExpireTerminal m t).2
  end.
Definition run (ops : list table_op) : Table := foldl apply_op NewTable ops.

Definition op_typed (op : table_op) : Prop :=
  match op with OpMerge u => member_typed (U_Member u) | OpFloor f _ => member_typed f | OpExpire _ => True end.

(** The version an operation tells of node [n]. *)
Definition told (n : Z) (op : table_op) : Z :=
  match op with OpMerge u => told_update u n | OpFloor f r => told_floor f r n | OpExpire _ => -1 end.

Lemma apply_op_told (op : table_op) (t : Table) :
  table_ok t → op_typed op → table_ok (apply_op t op) ∧ ∀ n, known (apply_op t op) n = known t n `max` told n op.
Proof.
  intros Hok Hty. destruct op as [u|f r|m]; simpl in *.
  - by apply Merge_told, typed_nonneg.
  - by apply MergeIncarnationFloor_told, typed_nonneg.
  - destruct (ExpireTerminal_told m t Hok) as [? Hk]. split; [done|]. intros n. pose proof (known_range t n Hok). rewrite Hk. lia.
Qed.

Lemma foldr_max_init (a b : Z) (l : list Z) : foldr Z.max (a `max` b) l = b `max` foldr Z.max a l.
Proof. induction l as [|x l IH]; simpl; lia. Qed.

Lemma run_told (ops : list table_op) (t : Table) :
  table_ok t → Forall op_typed ops →
  table_ok (foldl apply_op t ops) ∧
  ∀ n, known (foldl apply_op t ops) n = foldr Z.max (known t n) (told n <$> ops).
Proof.
  intros Hok Hty. revert t Hok. induction Hty as [|op ops Hop _ IH]; intros t Hok; [done|]. simpl.
  destruct (apply_op_told op t Hok Hop) as [Hok' Hk]. destruct (IH _ Hok') as [? Hkn]. split; [done|].
  intros n. rewrite Hkn, Hk. apply foldr_max_init.
Qed.

(** Updates of a generation agree on its address. *)
Definition consistent (us : list Update) : Prop :=
  ∀ u v, u ∈ us → v ∈ us → NodeID (U_Member u) = NodeID (U_Member v) →
    Incarnation (U_Member u) = Incarnation (U_Member v) → same_address (U_Member u) (U_Member v).

Definition merges (us : list Update) : Table := run (OpMerge <$> us).

(** The records of a table that merged [us] are the newest of [us]. *)
Record newest (us : list Update) (t : Table) : Prop := {
  nw_source : ∀ n m, T_members t !! n = Some m → ∃ u, u ∈ us ∧ update_valid u = true ∧ U_Member u = m ∧ NodeID m = n;
  nw_visible : ∀ n, reference t n = T_members t !! n
}.

Lemma visible_reference (t : Table) :
  table_ok t → (∀ n, T_members t !! n = None → T_floors t !! n = None) → ∀ n, reference t n = T_members t !! n.
Proof.
  intros Hok Hf n. destruct (reference_spec t n Hok) as [-> _]. destruct (T_members t !! n) eqn:Hm; [done|]. by apply Hf.
Qed.

Lemma newest_Merge (us : list Update) (u : Update) (t : Table) :
  table_ok t → consistent us → u ∈ us → member_typed (U_Member u) → newest us t → newest us (Merge u t).2.
Proof.
  intros Hok Hc Hu Hty [Hs Hv]. rewrite (Merge_spec u t Hok (typed_nonneg _ Hty)).
  destruct (update_valid u && _) eqn:Hb; [|done]. apply andb_prop in Hb as [Hval Hlt%Z.ltb_lt]. simpl.
  destruct (merged_spec (U_Member u) t Hok (update_record u Hval (typed_nonneg _ Hty))) as (Hver & Hid & Hadv).
  assert (merged (U_Member u) t = U_Member u) as He.
  { unfold merged. rewrite Hv. destruct (T_members t !! NodeID (U_Member u)) as [r|] eqn:Hr; [|done].
    destruct (Z.eqb_spec (Incarnation (U_Member u)) (Incarnation r)); [|done].
    destruct (Hs _ _ Hr) as (v & Hin & _ & <- & Hn). destruct (Hc v u Hin Hu) as [? ?]; [done..|]. by apply same_member. }
  rewrite He in *. specialize (Hadv Hlt). split.
  - intros n m. simpl. intros [[<- <-]|[_ H]]%lookup_insert_Some; [by exists u|by apply Hs].
  - apply visible_reference; [by apply installed_ok|]. intros n. simpl. intros [Hn Hne]%lookup_insert_None.
    assert (T_floors t !! n = None). { specialize (Hv n). rewrite Hn in Hv. unfold reference in Hv. rewrite Hn in Hv. by destruct (T_floors t !! n). }
    destruct (terminal (U_Member u)); [by rewrite lookup_insert_ne|done].
Qed.

Lemma merges_newest (us vs : list Update) :
  Forall (λ u, member_typed (U_Member u)) us → consistent us → (∀ v, v ∈ vs → v ∈ us) →
  newest us (merges vs) ∧ table_ok (merges vs) ∧
  ∀ n, ver0 (T_members (merges vs) !! n) = foldr Z.max (-1) ((λ u, told_update u n) <$> vs).
Proof.
  intros Hty Hc. rewrite Forall_forall in Hty. induction vs as [|v vs IH] using rev_ind; intros Hin.
  { split_and!; [|exact NewTable_ok|done]. split; [done|]. intros n. by unfold reference; simpl; rewrite !lookup_empty. }
  destruct IH as (Hn & Hok & _); [set_solver|].
  assert (v ∈ us) as Hv by set_solver. unfold merges, run in *. rewrite fmap_app, foldl_app. simpl.
  assert (newest us (Merge v (foldl apply_op NewTable (OpMerge <$> vs))).2 ∧
    table_ok (Merge v (foldl apply_op NewTable (OpMerge <$> vs))).2) as [Hn' Hok'].
  { split; [by apply newest_Merge; auto|]. apply Merge_told; [done|]. by apply typed_nonneg, Hty. }
  split_and!; [done..|]. intros n.
  destruct (run_told (OpMerge <$> (vs ++ [v])) NewTable NewTable_ok) as [_ Hk].
  { apply Forall_fmap, Forall_forall. intros w Hw. apply Hty, Hin, Hw. }
  specialize (Hk n). rewrite fmap_app, foldl_app, <- !fmap_app, <- list_fmap_compose in Hk. simpl in Hk.
  destruct (reference_spec _ n Hok') as [_ Hr]. rewrite (nw_visible _ _ Hn') in Hr. rewrite <- Hr, Hk. done.
Qed.

Lemma max_in (l : list Z) (d : Z) : foldr Z.max d l = d ∨ foldr Z.max d l ∈ l.
Proof. induction l as [|x l IH]; simpl; [by left|]. rewrite elem_of_cons. destruct (Z.max_spec x (foldr Z.max d l)) as [[_ ->]|[_ ->]]; [tauto|auto]. Qed.

Lemma max_bound (l : list Z) (d x : Z) : x ∈ l → x ≤ foldr Z.max d l.
Proof. induction 1; simpl; lia. Qed.

Lemma max_same_elements (l k : list Z) (d : Z) :
  (∀ x, x ∈ l ↔ x ∈ k) → foldr Z.max d l = foldr Z.max d k.
Proof.
  intros He. assert (∀ l' k', (∀ x, x ∈ l' → x ∈ k') → foldr Z.max d l' ≤ foldr Z.max d k') as Hle.
  { intros l' k' Hs. destruct (max_in l' d) as [->|Hin]; [|by apply max_bound, Hs].
    clear. induction k'; simpl; lia. }
  apply Z.le_antisymm; apply Hle; naive_solver.
Qed.

Lemma visible_known (t : Table) (n : Z) (m : Member) : table_ok t → Table_Get n t = Some m → known t n = ver m.
Proof. intros Hok Hm. destruct (reference_spec t n Hok) as [Hr ->]. unfold Table_Get in Hm. by rewrite Hr, Hm. Qed.

(** The snapshot lists every visible record once. *)
Lemma elem_of_snapshot (t : Table) (m : Member) : m ∈ Table_Snapshot t ↔ ∃ n, T_members t !! n = Some m.
Proof.
  unfold Table_Snapshot, values. rewrite merge_sort_Permutation, list_elem_of_fmap. split.
  - intros ([n x] & -> & H%elem_of_map_to_list). by exists n.
  - intros [n H]. exists (n, m). split; [done|]. by apply elem_of_map_to_list.
Qed.

Lemma snapshot_ids (t : Table) : table_ok t → NoDup (NodeID <$> Table_Snapshot t).
Proof.
  intros Hok. unfold Table_Snapshot, values. rewrite merge_sort_Permutation, <- list_fmap_compose.
  rewrite (list_fmap_ext _ fst); [apply NoDup_fst_map_to_list|].
  intros k [n m] H%list_elem_of_lookup_2%elem_of_map_to_list. by apply (ok_members t Hok).
Qed.

(** ** Main results *)

(** C15: The table is a register of the newest version: after any sequence of
    merges, floors and expirations an update is accepted exactly when it is valid
    and newer than everything the table was ever told of its node, expired or not,
    and a visible record has the newest version told.  So a dead or left
    generation that was forgotten cannot come back. *)
Theorem table_keeps_newest (ops : list table_op) (u : Update) :
  Forall op_typed ops → member_typed (U_Member u) →
  let newest := foldr Z.max (-1) (told (NodeID (U_Member u)) <$> ops) in
  (Merge u (run ops)).1.1 = update_valid u && (newest <? ver (U_Member u)) ∧
  ∀ m, Table_Get (NodeID (U_Member u)) (run ops) = Some m → ver m = newest.
Proof.
  intros Hty Hu newest. destruct (run_told ops NewTable NewTable_ok Hty) as [Hok Hk]. split.
  - unfold run. rewrite (Merge_spec u _ Hok (typed_nonneg _ Hu)), Hk. by destruct (update_valid u && _).
  - intros m Hm. by rewrite <- (visible_known _ _ _ Hok Hm), Hk.
Qed.

(** C16: Gossip converges: two tables that merged the same updates, in any order
    and any number of copies of each, show the same records, provided that updates
    of one generation agree on its address. *)
Theorem gossip_converges (us vs : list Update) :
  Forall (λ u, member_typed (U_Member u)) us → consistent us → (∀ u, u ∈ us ↔ u ∈ vs) →
  Table_Snapshot (merges us) = Table_Snapshot (merges vs).
Proof.
  intros Hty Hc He. destruct (merges_newest us us Hty Hc) as ([Hs1 _] & Hok1 & Hk1); [done|].
  destruct (merges_newest us vs Hty Hc) as ([Hs2 _] & Hok2 & Hk2); [naive_solver|].
  unfold Table_Snapshot. do 2 f_equal. apply map_eq. intros n.
  assert (ver0 (T_members (merges us) !! n) = ver0 (T_members (merges vs) !! n)) as Hv.
  { rewrite Hk1, Hk2. apply max_same_elements. intros x. rewrite !list_elem_of_fmap. naive_solver. }
  destruct (T_members (merges us) !! n) as [m|] eqn:H1, (T_members (merges vs) !! n) as [m'|] eqn:H2; simpl in Hv; [| | |done].
  - pose proof (record_u8 _ _ (ok_members _ Hok1 _ _ H1)). pose proof (record_u8 _ _ (ok_members _ Hok2 _ _ H2)).
    destruct (ver_eq m m') as [Hi Hst]; [done..|]. destruct (Hs1 _ _ H1) as (u & Hu & _ & <- & Hn).
    destruct (Hs2 _ _ H2) as (v & Hv' & _ & <- & Hn'). f_equal. apply same_member; [congruence| |done|done].
    apply Hc; congruence.
  - pose proof (record_ver _ _ (ok_members _ Hok1 _ _ H1)). lia.
  - pose proof (record_ver _ _ (ok_members _ Hok2 _ _ H2)). lia.
Qed.

(** ** Witnesses *)

Definition exMember (n inc status : Z) : Member := mkMember n "h" 7000 inc status.

Lemma exMember_typed (n inc status : Z) : is_u16 n → is_u64 inc → is_u8 status → member_typed (exMember n inc status).
Proof. intros. split_and!; simpl; ulia. Qed.

Lemma table_keeps_newest_witness :
  let ops := [OpMerge (mkUpdate (exMember 2 5 Dead) 1); OpExpire (exMember 2 5 Dead); OpMerge (mkUpdate (exMember 3 1 Alive) 1)] in
  Table_Get 2 (run ops) = None ∧ (Merge (mkUpdate (exMember 2 5 Suspect) 3) (run ops)).1.1 = false ∧
  (Merge (mkUpdate (exMember 2 6 Alive) 3) (run ops)).1.1 = true.
Proof.
  intros ops. assert (Forall op_typed ops) as Hty.
  { repeat apply Forall_cons_2; try done; by apply exMember_typed. }
  split; [reflexivity|]. split.
  - destruct (table_keeps_newest ops (mkUpdate (exMember 2 5 Suspect) 3) Hty) as [-> _]; [by apply exMember_typed|reflexivity].
  - destruct (table_keeps_newest ops (mkUpdate (exMember 2 6 Alive) 3) Hty) as [-> _]; [by apply exMember_typed|reflexivity].
Defined.

Lemma gossip_converges_witness :
  let us := [mkUpdate (exMember 2 5 Dead) 1; mkUpdate (exMember 2 6 Alive) 2; mkUpdate (exMember 3 1 Suspect) 1] in
  Table_Snapshot (merges us) = [exMember 2 6 Alive; exMember 3 1 Suspect] ∧ Table_Snapshot (merges us) = Table_Snapshot (merges (us ++ reverse us)).
Proof.
  intros us. split; [reflexivity|]. apply gossip_converges.
  - repeat apply Forall_cons_2; try done; by apply exMember_typed.
  - intros u v Hu Hv _ _. unfold us in *. rewrite !elem_of_cons, elem_of_nil in Hu, Hv.
    destruct Hu as [->|[->|[->|[]]]], Hv as [->|[->|[->|[]]]]; done.
  - intros u. rewrite elem_of_app, elem_of_reverse. tauto.
Defined.

End SwimTable.
