(* ===== verification/SwimDissemination.v ===== *)
(** * Dissemination of membership updates

    [internal/swim/dissemination.go]: the bounded queue of updates that a node
    piggybacks on its datagrams, most severe first, each for a bounded number of
    successful transmissions, and the digest flag that asks for a full snapshot
    when the queue cannot hold an update. *)

From stdpp Require Import strings sorting.
From S2P Require Import Prelude SwimTable.

Module SwimDissemination.
Import SwimTable.
Open Scope go_scope.
Open Scope Z_scope.

Inductive dissemination_error := ErrInvalidByteBudget | ErrNilBatchEncoder | ErrEncodeBatch.

Record disseminationItem := mkItem {
  DI_update : Update;
  DI_sequence : Z;
  DI_transmissions : Z;
  DI_inFlight : Z
}.
#[global] Instance eta_Item : Settable disseminationItem :=
  λ i, mkItem (DI_update i) (DI_sequence i) (DI_transmissions i) (DI_inFlight i).

Record Disseminator := mkDisseminator {
  DigestRequired : bool;
  D_maxItems : Z;
  D_retransmitMultiplier : Z;
  D_nextSequence : Z;
  D_digestGeneration : Z;
  D_items : gmap Z disseminationItem
}.
#[global] Instance eta_Disseminator : Settable Disseminator :=
  λ d, mkDisseminator (DigestRequired d) (D_maxItems d) (D_retransmitMultiplier d) (D_nextSequence d)
         (D_digestGeneration d) (D_items d).

Record disseminationToken := mkToken { TK_nodeID : Z; TK_sequence : Z }.

Record DisseminationBatch := mkBatch {
  B_Updates : list Update;
  B_tokens : list disseminationToken;
  B_budget : Z;
  B_reserved : bool
}.
#[global] Instance eta_Batch : Settable DisseminationBatch :=
  λ b, mkBatch (B_Updates b) (B_tokens b) (B_budget b) (B_reserved b).

Definition NewDisseminator (maxItems retransmitMultiplier : Z) : Disseminator :=
  mkDisseminator false maxItems retransmitMultiplier 1 0 ∅.

(** [bits.Len]: the number of bits of a positive value. *)
Definition bitsLen (n : Z) : Z := if n <=? 0 then 0 else Z.log2 n + 1.

Definition RetransmitBudget (multiplier aliveMembers : Z) : Z :=
  if (multiplier <=? 0) || (aliveMembers <=? 0) then 0
  else let levels := bitsLen aliveMembers in
       if max_int / levels <? multiplier then max_int else multiplier * levels.

Definition validUpdate (update : Update) : bool :=
  negb (NodeID (U_Member update) =? 0) && negb (Incarnation (U_Member update) =? 0) &&
  negb (U_ReporterID update =? 0) && Status_valid (Status (U_Member update)).

Definition mergePendingUpdate (current incoming : Update) : option Update :=
  let c := U_Member current in
  let i := U_Member incoming in
  if Incarnation i <? Incarnation c then None
  else if Incarnation c <? Incarnation i then Some incoming
  else if Status i <=? Status c then None
  else Some (incoming <| U_Member := c <| Status := Status i |> |>).

(** Sequence numbers stop at the largest value. *)
Definition takeSequence (d : Disseminator) : Z * Disseminator :=
  (D_nextSequence d,
   if D_nextSequence d <? max_uint64 then d <| D_nextSequence ::= (λ n, n + 1) |> else d).

Definition requireDigest (d : Disseminator) : Disseminator :=
  let generation := wrap64 (D_digestGeneration d + 1) in
  d <| DigestRequired := true |> <| D_digestGeneration := if generation =? 0 then 1 else generation |>.

Definition markDigestRepaired (generation : Z) (d : Disseminator) : bool * Disseminator :=
  if negb (DigestRequired d) || (generation =? 0) || negb (generation =? D_digestGeneration d) then (false, d)
  else (true, d <| DigestRequired := false |>).

(** An update that is not stale, with a place in the queue or not. *)
Definition admitItem (update : Update) (aliveMembers : Z) (d : Disseminator) : Disseminator :=
  let nodeID := NodeID (U_Member update) in
  let budget := RetransmitBudget (D_retransmitMultiplier d) aliveMembers in
  if (D_maxItems d <=? 0) || (budget <=? 0) then requireDigest (d <| D_items ::= delete nodeID |>)
  else if bool_decide (D_items d !! nodeID = None) && (D_maxItems d <=? Z.of_nat (size (D_items d)))
  then requireDigest d
  else let (sequence, d) := takeSequence d in
       d <| D_items ::= <[nodeID := mkItem update sequence 0 0]> |>.

Definition Enqueue (update : Update) (aliveMembers : Z) (d : Disseminator) : Disseminator :=
  if negb (validUpdate update) then d
  else match D_items d !! NodeID (U_Member update) with
       | Some current =>
         match mergePendingUpdate (DI_update current) update with
         | Some merged => admitItem merged aliveMembers d
         | None => d
         end
       | None => admitItem update aliveMembers d
       end.

(** ** Selection *)

(** The order of transmission: most severe first, then oldest first. *)
Definition before (left right : disseminationItem) : bool :=
  let l := U_Member (DI_update left) in
  let r := U_Member (DI_update right) in
  if negb (Status l =? Status r) then Status r <? Status l
  else if negb (DI_sequence left =? DI_sequence right) then DI_sequence left <? DI_sequence right
  else NodeID l <? NodeID r.

Definition not_after (left right : disseminationItem) : Prop := before right left = false.
#[global] Instance not_after_dec : RelDecision not_after.
Proof. intros a b. unfold not_after. apply _. Defined.

Section encoding.
Context (encode : list Update → option (list byte)).

(** The longest prefix that still fits; an encoding error ends the selection. *)
Fixpoint selectLoop (maxBytes : Z) (selected : list Update) (candidates : list disseminationItem) :
    option (list Update) :=
  match candidates with
  | [] => Some selected
  | item :: rest =>
    let trial := selected ++ [DI_update item] in
    match encode trial with
    | None => None
    | Some encoded => if maxBytes <? len encoded then Some selected else selectLoop maxBytes trial rest
    end
  end.

End encoding.

(** The items already sent often enough are dropped; those whose transmissions in
    flight would use up the budget wait. *)
Definition exhausted (budget : Z) (item : disseminationItem) : bool := budget <=? DI_transmissions item.
Definition waiting (budget : Z) (item : disseminationItem) : bool :=
  budget <=? DI_transmissions item + DI_inFlight item.

Definition items (m : gmap Z disseminationItem) : list disseminationItem := (map_to_list m).*2.

Fixpoint tokensFor (m : gmap Z disseminationItem) (updates : list Update) : outcome dissemination_error (list disseminationToken) :=
  match updates with
  | [] => Ok []
  | update :: rest =>
    match m !! NodeID (U_Member update) with
    | Some item =>
      let? tokens := tokensFor m rest in
      Ok (mkToken (NodeID (U_Member update)) (DI_sequence item) :: tokens)
    | None => Panic
    end
  end.

Definition Peek (maxBytes aliveMembers : Z) (encode : option (list Update → option (list byte))) :
    M Disseminator dissemination_error DisseminationBatch :=
  if maxBytes <? 0 then throw ErrInvalidByteBudget
  else match encode with
       | None => throw ErrNilBatchEncoder
       | Some encode =>
         let! d := get in
         if bool_decide (D_items d = ∅) then ret (mkBatch [] [] 0 false)
         else
           let currentBudget := RetransmitBudget (D_retransmitMultiplier d) aliveMembers in
           let kept := filter (λ kv, exhausted currentBudget kv.2 = false) (D_items d) in
           put (d <| D_items := kept |>) ;;!
           let candidates := filter (λ item, waiting currentBudget item = false) (items kept) in
           if (maxBytes =? 0) || bool_decide (candidates = []) then ret (mkBatch [] [] currentBudget false)
           else match selectLoop encode maxBytes [] (merge_sort not_after candidates) with
                | None => throw ErrEncodeBatch
                | Some selected =>
                  let! tokens := lift (tokensFor kept selected) in
                  ret (mkBatch selected tokens currentBudget false)
                end
       end.

(** ** Accounting *)

Definition adjust (nodeID : Z) (f : disseminationItem → disseminationItem) (d : Disseminator) : Disseminator :=
  d <| D_items ::= alter f nodeID |>.

(** The reservation of the tokens in turn; a failure undoes the earlier ones. *)
Fixpoint reserveLoop (budget : Z) (reserved : list Z) (tokens : list disseminationToken) (d : Disseminator) :
    bool * Disseminator :=
  match tokens with
  | [] => (true, d)
  | token :: rest =>
    let undo := foldl (λ d nodeID, adjust nodeID (λ i, i <| DI_inFlight ::= (λ n, n - 1) |>) d) d reserved in
    match D_items d !! TK_nodeID token with
    | None => (false, undo)
    | Some item =>
      if negb (DI_sequence item =? TK_sequence token) || waiting budget item then (false, undo)
      else reserveLoop budget (reserved ++ [TK_nodeID token]) rest
             (adjust (TK_nodeID token) (λ i, i <| DI_inFlight ::= (λ n, n + 1) |>) d)
    end
  end.

Definition Reserve (batch : DisseminationBatch) (d : Disseminator) : bool * DisseminationBatch * Disseminator :=
  match B_tokens batch with
  | [] => (true, batch, d)
  | _ =>
    if B_budget batch <=? 0 then (false, batch, d)
    else let (ok, d) := reserveLoop (B_budget batch) [] (B_tokens batch) d in
         (ok, if ok then batch <| B_reserved := true |> else batch, d)
  end.

Definition releaseToken (d : Disseminator) (token : disseminationToken) : Disseminator :=
  match D_items d !! TK_nodeID token with
  | Some item =>
    if (DI_sequence item =? TK_sequence token) && (0 <? DI_inFlight item)
    then adjust (TK_nodeID token) (λ i, i <| DI_inFlight ::= (λ n, n - 1) |>) d
    else d
  | None => d
  end.

Definition Release (batch : DisseminationBatch) (d : Disseminator) : Disseminator :=
  if negb (B_reserved batch) then d else foldl releaseToken d (B_tokens batch).

Definition commitToken (batch : DisseminationBatch) (d : Disseminator) (token : disseminationToken) : Disseminator :=
  match D_items d !! TK_nodeID token with
  | Some item =>
    if negb (DI_sequence item =? TK_sequence token) then d
    else if B_reserved batch && (DI_inFlight item =? 0) then d
    else
      let item := if B_reserved batch then item <| DI_inFlight ::= (λ n, n - 1) |> else item in
      let item := item <| DI_transmissions ::= (λ n, n + 1) |> in
      if B_budget batch <=? DI_transmissions item
      then d <| D_items ::= delete (TK_nodeID token) |>
      else d <| D_items ::= <[TK_nodeID token := item]> |>
  | None => d
  end.

Definition Commit (batch : DisseminationBatch) (d : Disseminator) : Disseminator :=
  if B_budget batch <=? 0 then d else foldl (commitToken batch) d (B_tokens batch).

Definition Take (maxBytes aliveMembers : Z) (encode : option (list Update → option (list byte))) :
    M Disseminator dissemination_error (list Update) :=
  let! batch := Peek maxBytes aliveMembers encode in
  modify (Commit batch) ;;!
  ret (B_Updates batch).

(** ** Budgets *)

Lemma bitsLen_ceil (n : Z) : 0 < n → bitsLen n = Z.log2_up (n + 1).
Proof.
  intros Hn. unfold bitsLen. rewrite (proj2 (Z.leb_gt _ _)) by lia.
  destruct (Z.eq_dec n 1) as [->|]; [done|]. rewrite Z.log2_up_eqn by lia.
  by replace (Z.pred (n + 1)) with n by lia.
Qed.

Lemma bitsLen_pos (n : Z) : 0 < n → 1 ≤ bitsLen n.
Proof. intros Hn. unfold bitsLen. rewrite (proj2 (Z.leb_gt _ _)) by lia. pose proof (Z.log2_nonneg n). lia. Qed.

(** The budget is the documented product, cut at the largest [int]. *)
Lemma RetransmitBudget_spec (multiplier alive : Z) :
  0 < multiplier ≤ max_int → 0 < alive →
  RetransmitBudget multiplier alive = Z.min max_int (multiplier * Z.log2_up (alive + 1)) ∧
  multiplier ≤ RetransmitBudget multiplier alive.
Proof.
  intros Hm Ha. unfold RetransmitBudget. rewrite !(proj2 (Z.leb_gt _ _)) by lia. simpl.
  rewrite <- bitsLen_ceil by done. pose proof (bitsLen_pos alive Ha) as Hl.
  destruct (Z.ltb_spec (max_int / bitsLen alive) multiplier) as [Hlt|Hge].
  - assert (max_int < multiplier * bitsLen alive); [|ulia].
    pose proof (Z.mul_succ_div_gt max_int (bitsLen alive)). nia.
  - pose proof (Z.mul_div_le max_int (bitsLen alive)). split; nia.
Qed.

(** ** Invariant of the queue *)

Definition node_of (i : disseminationItem) : Z := NodeID (U_Member (DI_update i)).
Definition token_of (i : disseminationItem) : disseminationToken := mkToken (node_of i) (DI_sequence i).
Definition item_ver (i : disseminationItem) : Z := ver (U_Member (DI_update i)).

Record queue_ok (d : Disseminator) : Prop := {
  q_items : ∀ n i, D_items d !! n = Some i →
    node_of i = n ∧ validUpdate (DI_update i) = true ∧ nonneg (U_Member (DI_update i)) ∧
    1 ≤ DI_sequence i ≤ D_nextSequence d ∧ 0 ≤ DI_transmissions i ∧ 0 ≤ DI_inFlight i;
  q_bound : Z.of_nat (size (D_items d)) ≤ 0 `max` D_maxItems d;
  q_sequence : 1 ≤ D_nextSequence d ≤ max_uint64
}.

Lemma elem_of_items (m : gmap Z disseminationItem) (i : disseminationItem) : i ∈ items m ↔ ∃ n, m !! n = Some i.
Proof.
  unfold items. rewrite list_elem_of_fmap. split.
  - intros ([n j] & -> & Hin%elem_of_map_to_list). by exists n.
  - intros [n Hn]. exists (n, i). split; [done|]. by apply elem_of_map_to_list.
Qed.

Lemma items_NoDup (m : gmap Z disseminationItem) :
  (∀ n i, m !! n = Some i → node_of i = n) → NoDup (node_of <$> items m).
Proof.
  intros Hn. unfold items. rewrite <- list_fmap_compose.
  rewrite (list_fmap_ext _ fst); [apply NoDup_fst_map_to_list|].
  intros k [n i] Hin%list_elem_of_lookup_2%elem_of_map_to_list. simpl. by apply Hn.
Qed.

(** ** Selection *)

(** The items that may be sent, in the order of transmission. *)
Definition pending (aliveMembers : Z) (d : Disseminator) : list disseminationItem :=
  let budget := RetransmitBudget (D_retransmitMultiplier d) aliveMembers in
  merge_sort not_after (filter (λ item, waiting budget item = false)
    (items (filter (λ kv, exhausted budget kv.2 = false) (D_items d)))).

Lemma before_iff (a b : disseminationItem) :
  before a b = true ↔ Status (U_Member (DI_update b)) < Status (U_Member (DI_update a)) ∨
    (Status (U_Member (DI_update a)) = Status (U_Member (DI_update b)) ∧
      (DI_sequence a < DI_sequence b ∨ (DI_sequence a = DI_sequence b ∧ node_of a < node_of b))).
Proof.
  unfold before, node_of. destruct (Z.eqb_spec (Status (U_Member (DI_update a))) (Status (U_Member (DI_update b)))); simpl;
    [|rewrite Z.ltb_lt; lia].
  destruct (Z.eqb_spec (DI_sequence a) (DI_sequence b)); simpl; rewrite Z.ltb_lt; lia.
Qed.

Lemma not_after_iff (a b : disseminationItem) : not_after a b ↔ ¬ before b a = true.
Proof. unfold not_after. by destruct (before b a). Qed.

#[global] Instance not_after_total : Total not_after.
Proof. intros a b. rewrite !not_after_iff, !before_iff. lia. Qed.

#[global] Instance not_after_trans : Transitive not_after.
Proof. intros a b c. rewrite !not_after_iff, !before_iff. lia. Qed.

Lemma elem_of_pending (alive : Z) (d : Disseminator) (i : disseminationItem) :
  queue_ok d →
  i ∈ pending alive d ↔
    (∃ n, D_items d !! n = Some i) ∧ waiting (RetransmitBudget (D_retransmitMultiplier d) alive) i = false.
Proof.
  intros Hok. unfold pending. rewrite merge_sort_Permutation, list_elem_of_filter, elem_of_items. split.
  - intros [? [n [Hn _]%map_lookup_filter_Some]]. eauto.
  - intros [[n Hn] Hw]. split; [done|]. exists n. apply map_lookup_filter_Some. split; [done|]. simpl.
    destruct (q_items d Hok _ _ Hn) as (_ & _ & _ & _ & _ & ?).
    unfold waiting, exhausted in *. apply Z.leb_gt in Hw. apply Z.leb_gt. lia.
Qed.

Lemma pending_kept (alive : Z) (d : Disseminator) (i : disseminationItem) :
  queue_ok d → i ∈ pending alive d →
  filter (λ kv, exhausted (RetransmitBudget (D_retransmitMultiplier d) alive) kv.2 = false) (D_items d) !! node_of i = Some i.
Proof.
  intros Hok. unfold pending. rewrite merge_sort_Permutation, list_elem_of_filter, elem_of_items.
  intros [_ [n Hn]]. pose proof Hn as [Hi _]%map_lookup_filter_Some.
  destruct (q_items d Hok _ _ Hi) as [-> _]. done.
Qed.

Lemma pending_strict (alive : Z) (d : Disseminator) :
  queue_ok d → StronglySorted (λ a b, before a b = true) (pending alive d).
Proof.
  intros Hok. unfold pending. set (l := filter _ (items _)).
  assert (NoDup (node_of <$> merge_sort not_after l)) as Hnd.
  { rewrite (merge_sort_Permutation not_after l). eapply sublist_NoDup; [eapply items_NoDup|apply fmap_sublist, sublist_filter].
    intros n i [Hn _]%map_lookup_filter_Some. by destruct (q_items d Hok _ _ Hn). }
  pose proof (StronglySorted_merge_sort not_after l) as Hs. clear - Hnd Hs.
  induction Hs as [|a k Hs IH Ha]; [constructor|]. simpl in Hnd. apply NoDup_cons in Hnd as [Hni Hnd].
  constructor; [by apply IH|]. rewrite Forall_forall in *. intros b Hb. specialize (Ha b Hb).
  rewrite not_after_iff, before_iff in Ha. apply before_iff.
  assert (node_of a ≠ node_of b) by (intros He; apply Hni; rewrite He; by apply list_elem_of_fmap_2). lia.
Qed.

Lemma selectLoop_spec (encode : list Update → option (list byte)) (maxBytes : Z) (cands : list disseminationItem)
    (selected : list Update) :
  (∀ us, is_Some (encode us)) →
  ∃ k, (k ≤ length cands)%nat ∧ selectLoop encode maxBytes selected cands = Some (selected ++ (DI_update <$> take k cands)) ∧
    (∀ j, (0 < j ≤ k)%nat → ∃ bytes, encode (selected ++ (DI_update <$> take j cands)) = Some bytes ∧ len bytes ≤ maxBytes) ∧
    ((k < length cands)%nat →
      ∃ bytes, encode (selected ++ (DI_update <$> take (S k) cands)) = Some bytes ∧ maxBytes < len bytes).
Proof.
  intros Henc. revert selected. induction cands as [|i cands IH]; intros selected; simpl.
  { exists 0%nat. split_and!; [lia|by rewrite app_nil_r|lia|lia]. }
  destruct (Henc (selected ++ [DI_update i])) as [bytes Hb]. rewrite Hb.
  destruct (Z.ltb_spec maxBytes (len bytes)) as [Hlt|Hge].
  { exists 0%nat. simpl. split_and!; [lia|by rewrite app_nil_r|lia|]. intros _. by exists bytes. }
  destruct (IH (selected ++ [DI_update i])) as (k & Hk & -> & Hfit & Hmax). exists (S k). simpl.
  rewrite <- app_assoc. simpl. split_and!; [lia|done| |].
  - intros [|j] Hj; [lia|]. simpl. destruct j as [|j]; [by exists bytes|].
    destruct (Hfit (S j)) as (b & He & ?); [lia|]. exists b. by rewrite <- app_assoc in He.
  - intros Hlt. destruct Hmax as (b & He & ?); [lia|]. exists b. by rewrite <- app_assoc in He.
Qed.

Lemma tokensFor_spec (m : gmap Z disseminationItem) (l : list disseminationItem) :
  (∀ i, i ∈ l → m !! node_of i = Some i) → tokensFor m (DI_update <$> l) = Ok (token_of <$> l).
Proof.
  induction l as [|i l IH]; intros Hin; csimpl; [done|].
  change (NodeID (U_Member (DI_update i))) with (node_of i). rewrite Hin by apply list_elem_of_here.
  rewrite IH by (intros; apply Hin; by apply list_elem_of_further). done.
Qed.

(** ** Runs of the queue *)

#[global] Instance token_eq_dec : EqDecision disseminationToken.
Proof. solve_decision. Defined.

(** The queue with the batches it issued and, for the statement, a history: the
    updates that were admitted, with their tokens, the tokens charged, and the
    tokens that a call made with no live member removed. *)
Record queue := mkQueue {
  Q_d : Disseminator;
  Q_issued : list DisseminationBatch;
  Q_admitted : list (disseminationToken * Update);
  Q_charged : list disseminationToken;
  Q_isolated : list disseminationToken
}.

Inductive queue_op :=
| QEnqueue (update : Update) (aliveMembers : Z)
| QPeek (maxBytes aliveMembers : Z) (encode : option (list Update → option (list byte)))
| QReserve (k : nat)
| QRelease (k : nat)
| QCommit (k : nat)
| QRepaired (generation : Z).

(** The token of an update that [Enqueue] admits. *)
Definition admission (u : Update) (alive : Z) (d : Disseminator) : list (disseminationToken * Update) :=
  match D_items (Enqueue u alive d) !! NodeID (U_Member u) with
  | Some i => if D_nextSequence d <? D_nextSequence (Enqueue u alive d) then [(token_of i, DI_update i)] else []
  | None => []
  end.

(** The tokens that [Commit] charges. *)
Fixpoint charges (batch : DisseminationBatch) (tokens : list disseminationToken) (d : Disseminator) : list disseminationToken :=
  match tokens with
  | [] => []
  | token :: rest =>
    match D_items d !! TK_nodeID token with
    | Some item => if (DI_sequence item =? TK_sequence token) && negb (B_reserved batch && (DI_inFlight item =? 0))
                   then [token] else []
    | None => []
    end ++ charges batch rest (commitToken batch d token)
  end.

(** The tokens pending in [d] and not in [d']. *)
Definition removed (d d' : Disseminator) : list disseminationToken :=
  token_of <$> filter (λ i, D_items d' !! node_of i = None) (items (D_items d)).

Definition isolated (aliveMembers : Z) (d d' : Disseminator) : list disseminationToken :=
  if aliveMembers <=? 0 then removed d d' else [].

Definition queue_step (q : queue) (op : queue_op) : queue :=
  let d := Q_d q in
  let on k (f : DisseminationBatch → queue) := match Q_issued q !! k with Some b => f b | None => q end in
  match op with
  | QEnqueue u alive =>
    let d' := Enqueue u alive d in
    mkQueue d' (Q_issued q) (Q_admitted q ++ admission u alive d) (Q_charged q) (Q_isolated q ++ isolated alive d d')
  | QPeek maxBytes alive encode =>
    let (r, d') := Peek maxBytes alive encode d in
    mkQueue d' (Q_issued q ++ match r with Ok b => [b] | _ => [] end) (Q_admitted q) (Q_charged q)
      (Q_isolated q ++ isolated alive d d')
  | QReserve k => on k (λ b, let '(_, b, d) := Reserve b d in
                             mkQueue d (<[k := b]> (Q_issued q)) (Q_admitted q) (Q_charged q) (Q_isolated q))
  | QRelease k => on k (λ b, mkQueue (Release b d) (Q_issued q) (Q_admitted q) (Q_charged q) (Q_isolated q))
  | QCommit k => on k (λ b, mkQueue (Commit b d) (Q_issued q) (Q_admitted q)
                              (Q_charged q ++ if B_budget b <=? 0 then [] else charges b (B_tokens b) d) (Q_isolated q))
  | QRepaired generation =>
    mkQueue (markDigestRepaired generation d).2 (Q_issued q) (Q_admitted q) (Q_charged q) (Q_isolated q)
  end.

Definition queue_run (maxItems multiplier : Z) (ops : list queue_op) : queue :=
  foldl queue_step (mkQueue (NewDisseminator maxItems multiplier) [] [] [] []) ops.

(** Fields have their Go types. *)
Definition queue_op_typed (op : queue_op) : Prop :=
  match op with QEnqueue u _ => nonneg (U_Member u) | _ => True end.

Definition times (token : disseminationToken) (l : list disseminationToken) : Z := len (filter (λ t, t = token) l).

(** An admitted update is pending; or a newer one of its node was admitted after
    it; or it was transmitted at least [multiplier] times; or a call made with no
    live member removed it. *)
Definition accounted (multiplier : Z) (q : queue) (token : disseminationToken) (u : Update) : Prop :=
  (∃ i, D_items (Q_d q) !! TK_nodeID token = Some i ∧ token_of i = token ∧ DI_update i = u) ∨
  (∃ token' u', (token', u') ∈ Q_admitted q ∧ TK_nodeID token' = TK_nodeID token ∧
    TK_sequence token < TK_sequence token' ∧ ver (U_Member u) < ver (U_Member u')) ∨
  multiplier ≤ times token (Q_charged q) ∨
  token ∈ Q_isolated q.

Record queue_inv (q : queue) : Prop := {
  qi_ok : queue_ok (Q_d q);
  qi_issued : ∀ b, b ∈ Q_issued q → B_tokens b = [] ∨ D_retransmitMultiplier (Q_d q) ≤ B_budget b;
  qi_admitted : ∀ token u, (token, u) ∈ Q_admitted q →
    TK_sequence token < D_nextSequence (Q_d q) ∧ accounted (D_retransmitMultiplier (Q_d q)) q token u;
  qi_pending : ∀ n i, D_items (Q_d q) !! n = Some i →
    (token_of i, DI_update i) ∈ Q_admitted q ∧ DI_transmissions i = times (token_of i) (Q_charged q);
  qi_charged : ∀ token, token ∈ Q_charged q → TK_sequence token < D_nextSequence (Q_d q)
}.

(** ** Steps that change no update and no charge *)

(** [i'] is [i] up to the transmissions in flight. *)
Definition same_item (i i' : disseminationItem) : Prop :=
  DI_update i' = DI_update i ∧ DI_sequence i' = DI_sequence i ∧ DI_transmissions i' = DI_transmissions i ∧ 0 ≤ DI_inFlight i'.

(** [d'] has the items of [d] up to what is in flight, except for some that were
    transmitted [multiplier] times. *)
Record lighter (d d' : Disseminator) : Prop := {
  li_max : D_maxItems d' = D_maxItems d;
  li_multiplier : D_retransmitMultiplier d' = D_retransmitMultiplier d;
  li_sequence : D_nextSequence d' = D_nextSequence d;
  li_from : ∀ n i', D_items d' !! n = Some i' → ∃ i, D_items d !! n = Some i ∧ same_item i i';
  li_kept : ∀ n i, D_items d !! n = Some i →
    is_Some (D_items d' !! n) ∨ D_retransmitMultiplier d ≤ DI_transmissions i
}.

Lemma lighter_refl (d : Disseminator) : queue_ok d → lighter d d.
Proof.
  intros Hok. split; try done; [|by eauto]. intros n i Hi. exists i. split; [done|]. split_and!; [done..|].
  by destruct (q_items d Hok _ _ Hi) as (_ & _ & _ & _ & _ & ?).
Qed.

Lemma lighter_ok (d d' : Disseminator) : queue_ok d → lighter d d' → queue_ok d'.
Proof.
  intros Hok [Hm Hmu Hs Hf _]. split.
  - intros n i' Hi'. destruct (Hf _ _ Hi') as (i & Hi & Hu & Hseq & Ht & Hfl). rewrite Hs.
    destruct (q_items d Hok _ _ Hi) as (? & ? & ? & ? & ? & ?). unfold node_of in *. rewrite Hu, Hseq, Ht. done.
  - rewrite Hm. etransitivity; [|apply (q_bound d Hok)]. apply inj_le.
    rewrite <- !(size_dom (D:=gset Z)). apply subseteq_size. intros n. rewrite !elem_of_dom. intros [i' Hi'].
    destruct (Hf _ _ Hi') as (i & Hi & _). by exists i.
  - rewrite Hs. apply (q_sequence d Hok).
Qed.

Lemma lighter_inv (q : queue) (d' : Disseminator) (issued : list DisseminationBatch) :
  queue_inv q → lighter (Q_d q) d' →
  (∀ b, b ∈ issued → B_tokens b = [] ∨ D_retransmitMultiplier (Q_d q) ≤ B_budget b) →
  queue_inv (mkQueue d' issued (Q_admitted q) (Q_charged q) (Q_isolated q)).
Proof.
  intros [Hok _ Ha Hp Hc] Hl Hb. pose proof (lighter_ok _ _ Hok Hl). destruct Hl as [Hm Hmu Hs Hf Hk].
  split; simpl; [done| | | |by rewrite Hs].
  - by rewrite Hmu.
  - intros token u Hin. rewrite Hs, Hmu. destruct (Ha _ _ Hin) as [Hlt Hacc]. split; [done|].
    destruct Hacc as [(i & Hi & Ht & Hu)|[Hsup|[Hct|Hiso]]]; [|by right; left|by right; right; left|by right; right; right].
    destruct (Hk _ _ Hi) as [[i' Hi']|Hdone].
    + left. simpl. exists i'. destruct (Hf _ _ Hi') as (i0 & Hi0 & Hu' & Hseq & _). assert (i0 = i) as -> by congruence.
      split_and!; [done| |congruence]. rewrite <- Ht. unfold token_of, node_of. congruence.
    + right. right. left. simpl. destruct (Hp _ _ Hi) as [_ Ht']. rewrite Ht in Ht'. lia.
  - intros n i' Hi'. destruct (Hf _ _ Hi') as (i & Hi & Hu' & Hseq & Ht & _). destruct (Hp _ _ Hi) as [Hin Hti].
    unfold token_of, node_of in *. rewrite Hu', Hseq, Ht. done.
Qed.

Lemma purge_lighter (budget : Z) (d : Disseminator) :
  queue_ok d → D_retransmitMultiplier d ≤ budget →
  lighter d (d <| D_items := filter (λ kv, exhausted budget kv.2 = false) (D_items d) |>).
Proof.
  intros Hok Hb. split; simpl; try done.
  - intros n i' [Hi _]%map_lookup_filter_Some. destruct (lighter_refl d Hok) as [_ _ _ Hf _]. by apply Hf.
  - intros n i Hi. destruct (exhausted budget i) eqn:He.
    + right. unfold exhausted in He. apply Z.leb_le in He. lia.
    + left. exists i. by apply map_lookup_filter_Some.
Qed.

Lemma Peek_lighter (maxBytes alive : Z) (encode : option (list Update → option (list byte))) (d : Disseminator) :
  queue_ok d → 0 < alive → 0 < D_retransmitMultiplier d ≤ max_int →
  lighter d (Peek maxBytes alive encode d).2 ∧
  ∀ b, (Peek maxBytes alive encode d).1 = Ok b → B_tokens b = [] ∨ D_retransmitMultiplier d ≤ B_budget b.
Proof.
  intros Hok Ha Hm. destruct (RetransmitBudget_spec (D_retransmitMultiplier d) alive Hm Ha) as [_ Hb].
  pose proof (lighter_refl d Hok). pose proof (purge_lighter _ d Hok Hb) as Hp. unfold Peek.
  destruct (maxBytes <? 0); [done|]. destruct encode as [encode|]; [|done]. unfold bind, get, put, ret, lift, throw.
  case_bool_decide; [split; [done|]; intros b [= <-]; by left|].
  destruct ((maxBytes =? 0) || _); [split; [done|]; intros b [= <-]; by left|].
  destruct (selectLoop _ _ _ _) as [selected|]; [|done].
  destruct (tokensFor _ selected); try done. split; [done|]. intros b [= <-]. by right.
Qed.

Lemma adjust_lookup (n m : Z) (f : disseminationItem → disseminationItem) (d : Disseminator) :
  D_items (adjust n f d) !! m = if decide (n = m) then f <$> D_items d !! m else D_items d !! m.
Proof.
  unfold adjust. simpl. case_decide as Hd; [subst; apply lookup_alter_eq|by apply lookup_alter_ne].
Qed.

(** [d'] differs from [d] in what is in flight only, by [delta] for each node. *)
Record shifted (delta : Z → Z) (d d' : Disseminator) : Prop := {
  sh_max : D_maxItems d' = D_maxItems d;
  sh_multiplier : D_retransmitMultiplier d' = D_retransmitMultiplier d;
  sh_sequence : D_nextSequence d' = D_nextSequence d;
  sh_items : ∀ n, D_items d' !! n =
    (λ i, i <| DI_inFlight ::= (λ k, k + delta n) |>) <$> D_items d !! n
}.

Lemma flight_eq (u : Update) (s t f f' : Z) : f = f' → mkItem u s t f = mkItem u s t f'.
Proof. by intros ->. Qed.

(** Equality of two optional items up to an equation of what is in flight. *)
Ltac same_flight :=
  match goal with |- context [D_items ?d !! ?n] => destruct (D_items d !! n) as [[]|]; [|done] end;
  cbn [fmap option_fmap option_map]; apply (f_equal Some), flight_eq; cbv beta; cbn [DI_inFlight set_field].

Lemma shifted_refl (d : Disseminator) : shifted (λ _, 0) d d.
Proof.
  split; try done. intros n. same_flight. lia.
Qed.

Lemma shifted_adjust (delta : Z → Z) (n k : Z) (d d' : Disseminator) :
  shifted delta d d' →
  shifted (λ m, delta m + if decide (n = m) then k else 0) d
    (adjust n (λ i, i <| DI_inFlight ::= (λ x, x + k) |>) d').
Proof.
  intros [Hm Hmu Hs Hi]. split; try done. intros m. rewrite adjust_lookup, Hi. case_decide as Hd.
  - subst. same_flight. lia.
  - same_flight. lia.
Qed.

Lemma shifted_lighter (delta : Z → Z) (d d' : Disseminator) :
  queue_ok d → (∀ n i, D_items d !! n = Some i → 0 ≤ DI_inFlight i + delta n) → shifted delta d d' → lighter d d'.
Proof.
  intros Hok Hd [Hm Hmu Hs Hi]. split; try done.
  - intros n i'. rewrite Hi. intros (i & <- & Hn)%fmap_Some_1 || intros (i & Hn & ->)%fmap_Some_1.
    exists i. split; [done|]. split_and!; simpl; try done. by apply Hd.
  - intros n i Hn. left. rewrite Hi, Hn. simpl. eauto.
Qed.

(** The tokens reserved so far, for a node. *)
Definition held (n : Z) (l : list Z) : Z := len (filter (λ m, m = n) l).

Lemma held_snoc (n m : Z) (l : list Z) : held n (l ++ [m]) = held n l + if decide (m = n) then 1 else 0.
Proof.
  unfold held. rewrite filter_app, len_app. rewrite filter_cons, filter_nil. case_decide; done.
Qed.

Lemma undo_shifted (reserved : list Z) (delta : Z → Z) (d d' : Disseminator) :
  shifted delta d d' →
  shifted (λ n, delta n - held n reserved) d
    (foldl (λ d nodeID, adjust nodeID (λ i, i <| DI_inFlight ::= (λ n, n - 1) |>) d) d' reserved).
Proof.
  revert delta d'. induction reserved as [|m l IH]; intros delta d' Hs; simpl.
  - destruct Hs as [? ? ? Hi]. split; try done. intros n. rewrite Hi. same_flight. unfold held, len. simpl length. lia.
  - pose proof (IH _ _ (shifted_adjust delta m (-1) d d' Hs)) as [? ? ? Hi]. split; try done. intros n.
    etransitivity; [apply Hi|]. same_flight. unfold held. rewrite filter_cons. case_decide; [rewrite len_cons|]; lia.
Qed.

Lemma reserveLoop_lighter (budget : Z) (tokens : list disseminationToken) (reserved : list Z) (d d' : Disseminator) :
  queue_ok d → shifted (λ n, held n reserved) d d' → lighter d (reserveLoop budget reserved tokens d').2.
Proof.
  intros Hok. revert reserved d'. induction tokens as [|token tokens IH]; intros reserved d' Hs; simpl.
  - eapply shifted_lighter; [done| |done]. intros n i Hi. destruct (q_items d Hok _ _ Hi) as (_ & _ & _ & _ & _ & ?).
    unfold held. pose proof (len_nonneg (filter (λ m, m = n) reserved)). lia.
  - assert (lighter d (foldl (λ d nodeID, adjust nodeID (λ i, i <| DI_inFlight ::= (λ n, n - 1) |>) d) d' reserved)) as Hundo.
    { eapply shifted_lighter; [done| |by apply undo_shifted]. intros n i Hi. simpl.
      destruct (q_items d Hok _ _ Hi) as (_ & _ & _ & _ & _ & ?). lia. }
    destruct (D_items d' !! TK_nodeID token) as [item|]; [|done]. destruct (negb _ || _); [done|].
    apply IH. pose proof (shifted_adjust _ (TK_nodeID token) 1 _ _ Hs) as [? ? ? Hi]. split; try done.
    intros n. rewrite held_snoc. apply Hi.
Qed.

Lemma Reserve_lighter (b : DisseminationBatch) (d : Disseminator) :
  queue_ok d → lighter d (Reserve b d).2 ∧
    B_tokens (Reserve b d).1.2 = B_tokens b ∧ B_budget (Reserve b d).1.2 = B_budget b.
Proof.
  intros Hok. pose proof (lighter_refl d Hok). unfold Reserve. destruct (B_tokens b) as [|t l] eqn:Ht; [done|].
  destruct (B_budget b <=? 0); [done|].
  pose proof (reserveLoop_lighter (B_budget b) (t :: l) [] d d Hok (shifted_refl d)) as Hl.
  destruct (reserveLoop _ _ _ _) as [[] d'] eqn:He; simpl in *; by rewrite ?Ht.
Qed.

Lemma lighter_trans (d1 d2 d3 : Disseminator) : lighter d1 d2 → lighter d2 d3 → lighter d1 d3.
Proof.
  intros [Hmx1 Hmu1 Hs1 Hf1 Hk1] [Hmx2 Hmu2 Hs2 Hf2 Hk2]. split; [congruence..| |].
  - intros n i3 L3. destruct (Hf2 _ _ L3) as (i2 & L2 & (? & ? & ? & ?)). destruct (Hf1 _ _ L2) as (i1 & L1 & (? & ? & ? & ?)).
    exists i1. split; [done|]. split_and!; [congruence..|done].
  - intros n i1 L1. destruct (Hk1 _ _ L1) as [[i2 L2]|]; [|by right]. destruct (Hf1 _ _ L2) as (i1' & L1' & (_ & _ & Ht & _)).
    assert (i1' = i1) as -> by congruence. destruct (Hk2 _ _ L2); [by left|right]. rewrite <- Hmu1. lia.
Qed.

Lemma Release_lighter (b : DisseminationBatch) (d : Disseminator) : queue_ok d → lighter d (Release b d).
Proof.
  intros Hok. unfold Release. destruct (negb _); [by apply lighter_refl|].
  generalize (B_tokens b) as tokens. intros tokens. revert d Hok. induction tokens as [|token tokens IH]; intros d Hok; simpl.
  { by apply lighter_refl. }
  assert (lighter d (releaseToken d token)) as Hl.
  { unfold releaseToken. destruct (D_items d !! TK_nodeID token) as [item|] eqn:Hi; [|by apply lighter_refl].
    destruct (_ && _) eqn:Hb; [|by apply lighter_refl]. apply andb_prop in Hb as [_ Hb%Z.ltb_lt].
    eapply shifted_lighter; [done| |apply (shifted_adjust _ _ (-1) _ _ (shifted_refl d))].
    intros n i Hn. simpl. destruct (q_items d Hok _ _ Hn) as (_ & _ & _ & _ & _ & ?).
    case_decide; [|lia]. subst. assert (i = item) as -> by congruence. lia. }
  eapply lighter_trans; [done|]. apply IH. by eapply lighter_ok.
Qed.

(** ** Charges *)

Lemma times_app (token : disseminationToken) (l k : list disseminationToken) : times token (l ++ k) = times token l + times token k.
Proof. unfold times. by rewrite filter_app, len_app. Qed.

Lemma times_nonneg (token : disseminationToken) (l : list disseminationToken) : 0 ≤ times token l.
Proof. apply len_nonneg. Qed.

Lemma times_single (token token' : disseminationToken) : times token [token'] = if decide (token' = token) then 1 else 0.
Proof. unfold times. rewrite filter_cons, filter_nil. by case_decide. Qed.

Lemma accounted_more (multiplier : Z) (q q' : queue) (token : disseminationToken) (u : Update) (l : list disseminationToken) :
  D_items (Q_d q') = D_items (Q_d q) ∨ D_items (Q_d q') !! TK_nodeID token = D_items (Q_d q) !! TK_nodeID token →
  Q_admitted q' = Q_admitted q → Q_charged q' = Q_charged q ++ l → Q_isolated q' = Q_isolated q →
  accounted multiplier q token u → accounted multiplier q' token u.
Proof.
  intros Hi Ha Hc Hl [H|[H|[H|H]]].
  - left. destruct Hi as [Hi|Hi]; by rewrite Hi.
  - right. left. by rewrite Ha.
  - right. right. left. rewrite Hc, times_app. pose proof (times_nonneg token l). lia.
  - right. right. right. by rewrite Hl.
Qed.

(** One charge. *)
Lemma charge_inv (q : queue) (n : Z) (i i' : disseminationItem) (budget : Z) :
  queue_inv q → D_retransmitMultiplier (Q_d q) ≤ budget → D_items (Q_d q) !! n = Some i →
  DI_update i' = DI_update i → DI_sequence i' = DI_sequence i → DI_transmissions i' = DI_transmissions i + 1 → 0 ≤ DI_inFlight i' →
  queue_inv (mkQueue (if budget <=? DI_transmissions i' then (Q_d q) <| D_items ::= delete n |>
                      else (Q_d q) <| D_items ::= <[n := i']> |>)
    (Q_issued q) (Q_admitted q) (Q_charged q ++ [token_of i]) (Q_isolated q)).
Proof.
  intros [Hok Hb Ha Hp Hc] Hbudget Hn Hu Hs Ht Hf. destruct (q_items _ Hok _ _ Hn) as (Hnode & Hrest).
  set (d' := if budget <=? _ then _ else _). destruct (Hp _ _ Hn) as [Hadm Htimes].
  assert (D_maxItems d' = D_maxItems (Q_d q) ∧ D_retransmitMultiplier d' = D_retransmitMultiplier (Q_d q) ∧
    D_nextSequence d' = D_nextSequence (Q_d q)) as (Hd1 & Hd2 & Hd3) by (unfold d'; by destruct (budget <=? _)).
  assert (∀ m j, D_items d' !! m = Some j → (m = n ∧ j = i' ∧ DI_transmissions i' < budget) ∨ (m ≠ n ∧ D_items (Q_d q) !! m = Some j)) as Hj.
  { intros m j. unfold d'. destruct (Z.leb_spec budget (DI_transmissions i')); simpl;
      [intros [? ?]%lookup_delete_Some; auto|intros [[<- <-]|[? ?]]%lookup_insert_Some; auto]. }
  assert (∀ m, m ≠ n → D_items d' !! m = D_items (Q_d q) !! m) as Hne.
  { intros m Hm. unfold d'. destruct (budget <=? _); simpl; [by rewrite lookup_delete_ne|by rewrite lookup_insert_ne]. }
  assert (token_of i' = token_of i) as Hti by (unfold token_of, node_of; congruence).
  split; simpl; rewrite ?Hd2, ?Hd3; [|done| | |].
  - split; rewrite ?Hd1, ?Hd3; [| |apply (q_sequence _ Hok)].
    + intros m j [(-> & -> & _)|[_ H]]%Hj; [|by apply (q_items _ Hok)].
      unfold node_of in *. rewrite Hu, Hs. split_and!; try apply Hrest; [done|lia|done].
    + etransitivity; [|apply (q_bound _ Hok)]. apply inj_le. rewrite <- !(size_dom (D:=gset Z)). apply subseteq_size.
      intros m. rewrite !elem_of_dom. intros [j [(-> & _)|[_ H]]%Hj]; by eauto.
  - intros token u Hin. destruct (Ha _ _ Hin) as [Hlt Hacc]. split; [done|]. destruct (decide (TK_nodeID token = n)) as [He|Hne'].
    2: { eapply (accounted_more _ q); [right; by apply Hne|done..]. }
    destruct Hacc as [(i0 & Hi0 & Htok & Hu0)|[Hsup|[Hct|Hiso]]]; [|by right; left| |by right; right; right].
    2: { right. right. left. simpl. rewrite times_app. pose proof (times_nonneg token [token_of i]). lia. }
    rewrite He in Hi0. assert (i0 = i) as -> by congruence. unfold d'.
    destruct (Z.leb_spec budget (DI_transmissions i')) as [Hle|Hgt].
    + right. right. left. simpl. rewrite times_app, times_single, <- Htok, decide_True by done. lia.
    + left. simpl. exists i'. rewrite He, lookup_insert_eq. split_and!; [done|congruence|congruence].
  - intros m j [(-> & -> & _)|[Hm H]]%Hj.
    + rewrite Hti, Hu, times_app, times_single, decide_True by done. split; [done|lia].
    + destruct (Hp _ _ H) as [? ->]. split; [done|]. rewrite times_app, times_single, decide_False; [lia|].
      intros E. apply Hm. destruct (q_items _ Hok _ _ H) as [<- _]. unfold token_of in E. congruence.
  - intros token [H|[->|[]%not_elem_of_nil]%elem_of_cons]%elem_of_app; [by apply Hc|]. by apply (Ha _ (DI_update i)).
Qed.

Lemma commits_inv (b : DisseminationBatch) (tokens : list disseminationToken) (q : queue) :
  queue_inv q → D_retransmitMultiplier (Q_d q) ≤ B_budget b →
  queue_inv (mkQueue (foldl (commitToken b) (Q_d q) tokens) (Q_issued q) (Q_admitted q)
    (Q_charged q ++ charges b tokens (Q_d q)) (Q_isolated q)) ∧
  D_retransmitMultiplier (foldl (commitToken b) (Q_d q) tokens) = D_retransmitMultiplier (Q_d q).
Proof.
  revert q. induction tokens as [|token tokens IH]; intros q Hinv Hb; simpl.
  { rewrite app_nil_r. by destruct q. }
  assert (∀ l, queue_inv (mkQueue (commitToken b (Q_d q) token) (Q_issued q) (Q_admitted q) (Q_charged q ++ l) (Q_isolated q)) →
    D_retransmitMultiplier (commitToken b (Q_d q) token) = D_retransmitMultiplier (Q_d q) →
    queue_inv (mkQueue (foldl (commitToken b) (commitToken b (Q_d q) token) tokens) (Q_issued q) (Q_admitted q)
      (Q_charged q ++ l ++ charges b tokens (commitToken b (Q_d q) token)) (Q_isolated q)) ∧
    D_retransmitMultiplier (foldl (commitToken b) (commitToken b (Q_d q) token) tokens) = D_retransmitMultiplier (Q_d q)) as Hnext.
  { intros l Hl Hm. destruct (IH _ Hl) as [H1 H2]; simpl in *; [by rewrite Hm|]. rewrite <- app_assoc in H1. by rewrite <- Hm. }
  apply Hnext.
  - unfold commitToken. destruct (D_items (Q_d q) !! TK_nodeID token) as [item|] eqn:Hi; [|rewrite app_nil_r; by destruct q].
    destruct (Z.eqb_spec (DI_sequence item) (TK_sequence token)) as [Hs|]; simpl; [|rewrite app_nil_r; by destruct q].
    destruct (B_reserved b && (DI_inFlight item =? 0)) eqn:Hr; simpl; [rewrite app_nil_r; by destruct q|].
    destruct (q_items _ (qi_ok _ Hinv) _ _ Hi) as (Hnode & _ & _ & _ & _ & Hfl).
    assert (token_of item = token) as Htok by (unfold token_of; rewrite Hnode, Hs; by destruct token).
    set (item' := _ <| DI_transmissions ::= _ |>).
    pose proof (charge_inv q (TK_nodeID token) item item' (B_budget b) Hinv Hb Hi) as H. rewrite Htok in H.
    apply H; unfold item'; destruct (B_reserved b); try done. simpl in *. apply Z.eqb_neq in Hr. lia.
  - unfold commitToken. destruct (D_items (Q_d q) !! TK_nodeID token) as [item|]; [|done]. by repeat case_goal.
Qed.

Lemma Commit_inv (b : DisseminationBatch) (q : queue) :
  queue_inv q → b ∈ Q_issued q →
  queue_inv (mkQueue (Commit b (Q_d q)) (Q_issued q) (Q_admitted q)
    (Q_charged q ++ if B_budget b <=? 0 then [] else charges b (B_tokens b) (Q_d q)) (Q_isolated q)).
Proof.
  intros Hinv Hin. unfold Commit. destruct (B_budget b <=? 0); [rewrite app_nil_r; by destruct q|].
  destruct (qi_issued q Hinv b Hin) as [->|Hb]; [simpl; rewrite app_nil_r; by destruct q|]. by apply commits_inv.
Qed.

(** ** Admission *)

Lemma mergePending_spec (c u : Update) :
  nonneg (U_Member c) → nonneg (U_Member u) → validUpdate c = true → validUpdate u = true →
  NodeID (U_Member u) = NodeID (U_Member c) →
  match mergePendingUpdate c u with
  | Some v => ver (U_Member c) < ver (U_Member v) ∧ ver (U_Member v) = ver (U_Member u) ∧
      NodeID (U_Member v) = NodeID (U_Member u) ∧ validUpdate v = true ∧ nonneg (U_Member v)
  | None => ver (U_Member u) ≤ ver (U_Member c)
  end.
Proof.
  intros [Hci Hcs] [Hui Hus] Hvc Hvu Hid. unfold mergePendingUpdate.
  assert (Status (U_Member c) ≤ 3 ∧ Status (U_Member u) ≤ 3) as [? ?].
  { unfold validUpdate, Status_valid, Left in *. bool_hyps. lia. }
  destruct (Z.ltb_spec (Incarnation (U_Member u)) (Incarnation (U_Member c))); [unfold ver; lia|].
  destruct (Z.ltb_spec (Incarnation (U_Member c)) (Incarnation (U_Member u))); [unfold ver, nonneg; split_and!; done || lia|].
  destruct (Z.leb_spec (Status (U_Member u)) (Status (U_Member c))); [unfold ver; lia|].
  unfold ver, nonneg. simpl. split_and!; try lia. unfold validUpdate in *. simpl. bool_hyps.
  rewrite !andb_true_iff, !negb_true_iff, !Z.eqb_neq. split_and!; done || lia.
Qed.

(** A queue with a new item for its node. *)
Definition with_item (n : Z) (u : Update) (d : Disseminator) : Disseminator :=
  d <| D_nextSequence ::= (λ s, s + 1) |> <| D_items ::= <[n := mkItem u (D_nextSequence d) 0 0]> |>.

Lemma with_item_ok (n : Z) (u : Update) (d : Disseminator) :
  queue_ok d → validUpdate u = true → nonneg (U_Member u) → NodeID (U_Member u) = n → D_nextSequence d < max_uint64 →
  (D_items d !! n = None → Z.of_nat (size (D_items d)) < D_maxItems d) → queue_ok (with_item n u d).
Proof.
  intros Hok Hv Hnn Hid Hlt Hsz. pose proof (q_sequence d Hok). split; simpl.
  - intros m i [[<- <-]|[Hne Hi]]%lookup_insert_Some.
    + unfold node_of. simpl. split_and!; done || lia.
    + destruct (q_items d Hok _ _ Hi) as (? & ? & ? & ? & ? & ?). split_and!; try done; try lia; apply Hnn.
  - pose proof (q_bound d Hok). destruct (D_items d !! n) as [i|] eqn:Hi.
    + rewrite map_size_insert_Some by (by exists i || done || eauto). done.
    + rewrite map_size_insert_None by done. specialize (Hsz eq_refl). lia.
  - ulia.
Qed.

Lemma times_fresh (token : disseminationToken) (l : list disseminationToken) : token ∉ l → times token l = 0.
Proof.
  intros Hn. unfold times. induction l as [|t l IH]; [done|]. rewrite not_elem_of_cons in Hn. destruct Hn as [Hne Hn].
  rewrite filter_cons, decide_False by done. by apply IH.
Qed.

Lemma with_item_inv (q : queue) (n : Z) (u : Update) :
  queue_inv q → validUpdate u = true → nonneg (U_Member u) → NodeID (U_Member u) = n →
  D_nextSequence (Q_d q) < max_uint64 →
  (D_items (Q_d q) !! n = None → Z.of_nat (size (D_items (Q_d q))) < D_maxItems (Q_d q)) →
  (∀ i, D_items (Q_d q) !! n = Some i → item_ver i < ver (U_Member u)) →
  queue_inv (mkQueue (with_item n u (Q_d q)) (Q_issued q) (Q_admitted q ++ [(mkToken n (D_nextSequence (Q_d q)), u)])
    (Q_charged q) (Q_isolated q)).
Proof.
  intros [Hok Hb Ha Hp Hc] Hv Hnn Hid Hlt Hsz Hver. set (next := D_nextSequence (Q_d q)) in *.
  split; simpl; fold next.
  - by apply with_item_ok.
  - done.
  - intros token v [Hin|[[= -> ->]|[]%not_elem_of_nil]%elem_of_cons]%elem_of_app.
    + destruct (Ha _ _ Hin) as [Hs Hacc]. split; [fold next in Hs; lia|].
      destruct Hacc as [(i & Hi & Ht & Hu)|[(t' & v' & Hin' & Hrest)|[Hct|Hiso]]].
      * destruct (decide (TK_nodeID token = n)) as [He|Hne].
        { right. left. exists (mkToken n next), u. simpl. split_and!; [|done|done|].
          - apply elem_of_app. right. apply list_elem_of_here.
          - rewrite <- Hu. apply Hver. by rewrite <- He. }
        left. simpl. exists i. by rewrite lookup_insert_ne.
      * right. left. exists t', v'. split; [apply elem_of_app; by left|done].
      * by right; right; left.
      * by right; right; right.
    + split; [simpl; lia|]. left. simpl. rewrite lookup_insert_eq. eexists. split_and!; [done| |done].
      unfold token_of, node_of. simpl. by rewrite Hid.
  - intros m i [[<- <-]|[Hne Hi]]%lookup_insert_Some.
    + unfold token_of, node_of. simpl. rewrite Hid. split; [apply elem_of_app; right; apply list_elem_of_here|].
      rewrite times_fresh; [done|]. intros Hin%Hc. simpl in Hin. fold next in Hin. lia.
    + destruct (Hp _ _ Hi) as [? ?]. split; [apply elem_of_app; by left|done].
  - intros token Hin%Hc. fold next in Hin. lia.
Qed.

Lemma digest_lighter (d : Disseminator) : queue_ok d → lighter d (requireDigest d).
Proof. intros Hok. destruct (lighter_refl d Hok) as [? ? ? Hf Hk]. by split. Qed.

(** An update that is not stale is admitted, or a digest is required. *)
Lemma admit_cases (u : Update) (alive : Z) (d : Disseminator) :
  0 < D_maxItems d → 0 < RetransmitBudget (D_retransmitMultiplier d) alive → D_nextSequence d < max_uint64 →
  (admitItem u alive d = requireDigest d) ∨
  (admitItem u alive d = with_item (NodeID (U_Member u)) u d ∧
    (D_items d !! NodeID (U_Member u) = None → Z.of_nat (size (D_items d)) < D_maxItems d)).
Proof.
  intros Hm Hb Hlt. unfold admitItem. rewrite !(proj2 (Z.leb_gt _ _)) by lia. cbn [orb].
  destruct (bool_decide _ && _) eqn:He; [by left|]. right. unfold takeSequence, with_item.
  rewrite (proj2 (Z.ltb_lt _ _)) by done. split; [done|]. intros Hn. rewrite bool_decide_true in He by done.
  apply andb_false_iff in He as [?|He%Z.leb_gt]; [done|lia].
Qed.

Lemma Enqueue_cases (u : Update) (alive : Z) (d : Disseminator) :
  queue_ok d → 0 < D_maxItems d → 0 < alive → 0 < D_retransmitMultiplier d ≤ max_int → D_nextSequence d < max_uint64 →
  nonneg (U_Member u) →
  (Enqueue u alive d = d ∧
    (validUpdate u = true → ∃ i, D_items d !! NodeID (U_Member u) = Some i ∧ ver (U_Member u) ≤ item_ver i)) ∨
  Enqueue u alive d = requireDigest d ∨
  ∃ v, Enqueue u alive d = with_item (NodeID (U_Member u)) v d ∧ ver (U_Member v) = ver (U_Member u) ∧
    NodeID (U_Member v) = NodeID (U_Member u) ∧ validUpdate v = true ∧ nonneg (U_Member v) ∧
    (D_items d !! NodeID (U_Member u) = None → Z.of_nat (size (D_items d)) < D_maxItems d) ∧
    ∀ i, D_items d !! NodeID (U_Member u) = Some i → item_ver i < ver (U_Member v).
Proof.
  intros Hok Hm Ha Hmu Hlt Hnn. destruct (RetransmitBudget_spec _ alive Hmu Ha) as [_ Hb]. unfold Enqueue.
  destruct (validUpdate u) eqn:Hv; [|by left]. simpl.
  destruct (D_items d !! NodeID (U_Member u)) as [i|] eqn:Hi.
  - destruct (q_items d Hok _ _ Hi) as (Hnode & Hvi & Hni & _).
    pose proof (mergePending_spec (DI_update i) u Hni Hnn Hvi Hv (eq_sym Hnode)) as Hmp.
    destruct (mergePendingUpdate _ _) as [v|]; [|left; split; [done|]; by exists i].
    destruct Hmp as (Hver & Hve & Hid & Hvv & Hnv). right.
    destruct (admit_cases v alive d) as [->|[-> Hsz]]; [done|lia|done|by left|right].
    exists v. rewrite Hid. split_and!; try done; try apply Hnv. by intros ? [= <-].
  - right. destruct (admit_cases u alive d) as [->|[-> Hsz]]; [done|lia|done|by left|right].
    exists u. rewrite Hi in Hsz. split_and!; try done; try apply Hnn.
Qed.

(** ** Runs *)

Lemma foldl_same {A B C} (f : A → B → A) (g : A → C) (l : list B) (a : A) :
  (∀ a b, g (f a b) = g a) → g (foldl f a l) = g a.
Proof. intros H. revert a. induction l as [|b l IH]; intros a; simpl; [done|]. by rewrite IH, H. Qed.

Lemma reserveLoop_sequence (budget : Z) (tokens : list disseminationToken) (reserved : list Z) (d : Disseminator) :
  D_nextSequence (reserveLoop budget reserved tokens d).2 = D_nextSequence d.
Proof.
  revert reserved d. induction tokens as [|token tokens IH]; intros reserved d; simpl; [done|].
  destruct (D_items d !! TK_nodeID token); [destruct (_ || _)|]; [|by rewrite IH|]; simpl;
    by rewrite (foldl_same _ D_nextSequence).
Qed.

Lemma queue_step_sequence (q : queue) (op : queue_op) :
  D_nextSequence (Q_d q) ≤ D_nextSequence (Q_d (queue_step q op)).
Proof.
  destruct op as [u alive|mb alive encode|k|k|k|g]; simpl.
  - unfold Enqueue, admitItem, takeSequence. repeat case_goal; simpl; lia.
  - unfold Peek, bind, get, put, ret, lift, throw. repeat case_goal; simpl; lia.
  - destruct (Q_issued q !! k) as [b|]; [|done]. unfold Reserve. destruct (B_tokens b); [done|].
    destruct (B_budget b <=? 0); [done|].
    pose proof (reserveLoop_sequence (B_budget b) (d :: l) [] (Q_d q)). destruct (reserveLoop _ _ _ _). simpl in *. lia.
  - destruct (Q_issued q !! k) as [b|]; [|done]. simpl. unfold Release. destruct (negb _); [done|].
    rewrite (foldl_same releaseToken D_nextSequence); [done|]. intros a c. unfold releaseToken. by repeat case_goal.
  - destruct (Q_issued q !! k) as [b|]; [|done]. simpl. unfold Commit. destruct (_ <=? 0); [done|].
    rewrite (foldl_same (commitToken b) D_nextSequence); [done|]. intros a c. unfold commitToken. by repeat case_goal.
  - unfold markDigestRepaired. by case_goal.
Qed.

Definition params_ok (maxItems multiplier : Z) (q : queue) : Prop :=
  D_maxItems (Q_d q) = maxItems ∧ D_retransmitMultiplier (Q_d q) = multiplier.

Lemma lighter_params (maxItems multiplier : Z) (q q' : queue) :
  params_ok maxItems multiplier q → lighter (Q_d q) (Q_d q') → params_ok maxItems multiplier q'.
Proof. intros [? ?] [? ? _ _ _]. split; congruence. Qed.

(** ** Calls with no live member *)

Lemma RetransmitBudget_isolated (multiplier alive : Z) : alive ≤ 0 → RetransmitBudget multiplier alive = 0.
Proof. intros Ha. unfold RetransmitBudget. rewrite (proj2 (Z.leb_le alive 0)), orb_true_r by done. done. Qed.

Lemma Enqueue_isolated (u : Update) (alive : Z) (d : Disseminator) :
  alive ≤ 0 →
  (Enqueue u alive d = d ∧
    (validUpdate u = true → ∃ i, D_items d !! NodeID (U_Member u) = Some i ∧ mergePendingUpdate (DI_update i) u = None)) ∨
  ∃ n, Enqueue u alive d = requireDigest (d <| D_items ::= delete n |>).
Proof.
  intros Ha. assert (∀ v, admitItem v alive d = requireDigest (d <| D_items ::= delete (NodeID (U_Member v)) |>)) as Hadm.
  { intros v. unfold admitItem. rewrite RetransmitBudget_isolated by done. by rewrite orb_true_r. }
  unfold Enqueue. destruct (validUpdate u); [|by left]. simpl.
  destruct (D_items d !! NodeID (U_Member u)) as [i|]; [|rewrite Hadm; eauto].
  destruct (mergePendingUpdate _ _) as [v|] eqn:Hm; [rewrite Hadm; eauto|left; eauto].
Qed.

Lemma Peek_isolated (maxBytes alive : Z) (encode : option (list Update → option (list byte))) (d : Disseminator) :
  queue_ok d → alive ≤ 0 →
  ((Peek maxBytes alive encode d).2 = d ∨ (Peek maxBytes alive encode d).2 = d <| D_items := ∅ |>) ∧
  ∀ b, (Peek maxBytes alive encode d).1 = Ok b → B_tokens b = [].
Proof.
  intros Hok Ha. unfold Peek. destruct (maxBytes <? 0); [by split; [left|]|].
  destruct encode as [encode|]; [|by split; [left|]]. unfold bind, get, put, ret, lift, throw.
  rewrite RetransmitBudget_isolated by done.
  case_bool_decide; [split; [by left|]; by intros b [= <-]|].
  assert (filter (λ kv, exhausted 0 kv.2 = false) (D_items d) = ∅) as ->.
  { apply map_empty. intros n. apply map_lookup_filter_None. right. intros i Hi. simpl.
    destruct (q_items d Hok _ _ Hi) as (_ & _ & _ & _ & ? & _). unfold exhausted. by rewrite (proj2 (Z.leb_le _ _)). }
  rewrite (bool_decide_true (filter _ (items ∅) = [])) by done. rewrite orb_true_r. split; [by right|]. by intros b [= <-].
Qed.

(** What a call with no live member removes is recorded. *)
Lemma isolate_inv (q : queue) (d' : Disseminator) (issued : list DisseminationBatch) :
  queue_inv q → D_maxItems d' = D_maxItems (Q_d q) → D_retransmitMultiplier d' = D_retransmitMultiplier (Q_d q) →
  D_nextSequence d' = D_nextSequence (Q_d q) → D_items d' ⊆ D_items (Q_d q) →
  (∀ b, b ∈ issued → B_tokens b = [] ∨ D_retransmitMultiplier (Q_d q) ≤ B_budget b) →
  queue_inv (mkQueue d' issued (Q_admitted q) (Q_charged q) (Q_isolated q ++ removed (Q_d q) d')).
Proof.
  intros [Hok _ Ha Hp Hc] Hm Hmu Hs Hsub Hb. assert (∀ n i, D_items d' !! n = Some i → D_items (Q_d q) !! n = Some i) as Hin
    by (intros n i Hi; by eapply lookup_weaken). split; simpl; rewrite ?Hmu, ?Hs; try done.
  - split; rewrite ?Hm, ?Hs; [|etransitivity; [|apply (q_bound _ Hok)]; by apply inj_le, map_subseteq_size|apply Hok].
    intros n i Hi%Hin. by apply (q_items _ Hok).
  - intros token u H. destruct (Ha _ _ H) as [Hlt Hacc]. split; [done|].
    destruct Hacc as [(i & Hi & Ht & Hu)|[Hsup|[Hct|Hiso]]]; [|by right; left|by right; right; left|].
    2: { right. right. right. simpl. apply elem_of_app. by left. }
    destruct (q_items _ Hok _ _ Hi) as [Hnode _]. destruct (D_items d' !! TK_nodeID token) as [i'|] eqn:Hi'.
    + left. simpl. exists i'. pose proof (Hin _ _ Hi'). split_and!; [done|congruence..].
    + right. right. right. simpl. apply elem_of_app. right. unfold removed. rewrite <- Ht. apply list_elem_of_fmap_2.
      apply list_elem_of_filter. split; [by rewrite Hnode|]. apply elem_of_items. eauto.
  - intros n i Hi%Hin. by apply (Hp n).
Qed.

Lemma isolated_inv (q : queue) (u : Update) (alive : Z) :
  queue_inv q → alive ≤ 0 → queue_inv (queue_step q (QEnqueue u alive)) ∧
  D_maxItems (Enqueue u alive (Q_d q)) = D_maxItems (Q_d q) ∧
  D_retransmitMultiplier (Enqueue u alive (Q_d q)) = D_retransmitMultiplier (Q_d q).
Proof.
  intros Hinv Ha. simpl. unfold isolated. rewrite (proj2 (Z.leb_le _ _)) by done.
  assert (D_nextSequence (Enqueue u alive (Q_d q)) = D_nextSequence (Q_d q)) as Hseq
    by (by destruct (Enqueue_isolated u alive (Q_d q) Ha) as [[-> _]|[n ->]]).
  assert (admission u alive (Q_d q) = []) as ->.
  { unfold admission. rewrite Hseq, Z.ltb_irrefl. by destruct (D_items _ !! _). }
  rewrite app_nil_r. destruct (Enqueue_isolated u alive (Q_d q) Ha) as [[He _]|[n He]]; rewrite He; (split; [|done]);
    apply isolate_inv; try done; try apply Hinv. apply delete_subseteq.
Qed.

Lemma queue_step_inv (maxItems multiplier : Z) (q : queue) (op : queue_op) :
  0 < maxItems → 0 < multiplier ≤ max_int → queue_op_typed op → D_nextSequence (Q_d q) < max_uint64 →
  queue_inv q ∧ params_ok maxItems multiplier q →
  queue_inv (queue_step q op) ∧ params_ok maxItems multiplier (queue_step q op).
Proof.
  intros Hm Hmu Hty Hlt [Hinv Hpar]. pose proof (qi_ok q Hinv) as Hok. pose proof (qi_issued q Hinv) as Hiss.
  destruct Hpar as [Hp1 Hp2]. destruct op as [u alive|mb alive encode|k|k|k|g]; simpl in *.
  - destruct (Z.le_gt_cases alive 0) as [Hle|Ha].
    { destruct (isolated_inv q u alive Hinv Hle) as (? & Hx & Hy). split; [done|]. split; simpl; congruence. }
    unfold admission, isolated. rewrite (proj2 (Z.leb_gt _ _)), app_nil_r by lia.
    destruct (Enqueue_cases u alive (Q_d q)) as [[-> _]|[->|(v & -> & _ & Hid & Hv & Hnv & Hsz & Hver)]]; try done; try lia.
    + rewrite Z.ltb_irrefl. destruct (D_items (Q_d q) !! _); rewrite app_nil_r; by destruct q.
    + change (D_nextSequence (requireDigest (Q_d q))) with (D_nextSequence (Q_d q)). rewrite Z.ltb_irrefl.
      pose proof (digest_lighter _ Hok). destruct (D_items (requireDigest (Q_d q)) !! _); rewrite app_nil_r;
        (split; [by apply lighter_inv|by split]).
    + unfold with_item at 2. simpl. rewrite lookup_insert_eq, (proj2 (Z.ltb_lt _ _)) by lia. split; [|by split].
      unfold token_of, node_of. simpl. rewrite Hid. by apply with_item_inv.
  - unfold isolated. destruct (Z.leb_spec alive 0) as [Hle|Ha].
    { destruct (Peek_isolated mb alive encode (Q_d q) Hok Hle) as [Hd Hb]. destruct (Peek _ _ _ _) as [r d'] eqn:He. simpl in *.
      assert (D_items d' ⊆ D_items (Q_d q) ∧ D_nextSequence d' = D_nextSequence (Q_d q) ∧ params_ok maxItems multiplier
        (mkQueue d' [] [] [] [])) as (? & ? & [? ?]) by (destruct Hd as [->| ->]; split_and!; try done; apply map_empty_subseteq).
      simpl in *. split; [|done]. apply isolate_inv; try done; try congruence. intros b [?|Hin]%elem_of_app; [by apply Hiss|].
      destruct r; try by apply not_elem_of_nil in Hin. apply list_elem_of_singleton in Hin as ->. left. by apply Hb. }
    destruct (Peek_lighter mb alive encode (Q_d q) Hok Ha) as [Hl Hb]; [lia|]. destruct (Peek _ _ _ _) as [r d'] eqn:He. simpl in *.
    rewrite app_nil_r.
    split; [|by eapply lighter_params]. apply lighter_inv; [done..|]. intros b [?|Hin]%elem_of_app; [by apply Hiss|].
    destruct r; try by apply not_elem_of_nil in Hin. apply list_elem_of_singleton in Hin as ->. by apply Hb.
  - destruct (Q_issued q !! k) as [b|] eqn:Hk; [|done]. destruct (Reserve_lighter b (Q_d q) Hok) as (Hl & Ht & Hb).
    destruct (Reserve b (Q_d q)) as [[r b'] d'] eqn:He. simpl in *. split; [|by eapply lighter_params].
    apply lighter_inv; [done..|]. intros b0 Hin. apply list_elem_of_lookup in Hin as [j Hj].
    apply list_lookup_insert_Some in Hj as [(<- & <- & _)|[_ Hj]]; [rewrite Ht, Hb|]; by eapply Hiss, list_elem_of_lookup_2.
  - destruct (Q_issued q !! k) as [b|] eqn:Hk; [|done]. pose proof (Release_lighter b _ Hok).
    split; [by apply lighter_inv|by eapply lighter_params].
  - destruct (Q_issued q !! k) as [b|] eqn:Hk; [|done]. split; [apply Commit_inv; [done|by eapply list_elem_of_lookup_2]|].
    split; simpl; unfold Commit; destruct (B_budget b <=? 0); try done.
    + rewrite (foldl_same (commitToken b) D_maxItems); [done|]. intros a c. unfold commitToken. by repeat case_goal.
    + rewrite (foldl_same (commitToken b) D_retransmitMultiplier); [done|]. intros a c. unfold commitToken. by repeat case_goal.
  - assert (lighter (Q_d q) (markDigestRepaired g (Q_d q)).2) as Hl.
    { destruct (lighter_refl _ Hok) as [? ? ? Hf Hk]. unfold markDigestRepaired. case_goal; by split. }
    split; [by apply lighter_inv|by eapply lighter_params].
Qed.

Lemma queue_run_inv (maxItems multiplier : Z) (ops : list queue_op) :
  0 < maxItems → 0 < multiplier ≤ max_int → Forall queue_op_typed ops →
  D_nextSequence (Q_d (queue_run maxItems multiplier ops)) < max_uint64 →
  queue_inv (queue_run maxItems multiplier ops) ∧ params_ok maxItems multiplier (queue_run maxItems multiplier ops).
Proof.
  intros Hm Hmu Hty. unfold queue_run. induction ops as [|op ops IH] using rev_ind.
  - intros _. split; [|done]. split; simpl; try set_solver.
    split; simpl; [by intros ? ? ?%lookup_empty_Some|rewrite map_size_empty; lia|ulia].
  - apply Forall_app in Hty as [Hty Hop]. rewrite foldl_app. cbn [foldl]. intros Hlt.
    pose proof (queue_step_sequence (foldl queue_step (mkQueue (NewDisseminator maxItems multiplier) [] [] [] []) ops) op).
    apply queue_step_inv; try done; [by inversion Hop|lia|]. apply IH; [done|lia].
Qed.

Lemma Peek_prefix (encode : list Update → option (list byte)) (maxBytes alive : Z) (d : Disseminator) :
  queue_ok d → (∀ us, is_Some (encode us)) → 0 < maxBytes →
  let budget := RetransmitBudget (D_retransmitMultiplier d) alive in
  let order := pending alive d in
  ∃ k batch d', Peek maxBytes alive (Some encode) d = (Ok batch, d') ∧
    B_Updates batch = DI_update <$> take k order ∧ B_tokens batch = token_of <$> take k order ∧
    B_reserved batch = false ∧
    d' = d <| D_items := filter (λ kv, exhausted budget kv.2 = false) (D_items d) |> ∧
    (∀ j, (0 < j ≤ k)%nat → ∃ bytes, encode (DI_update <$> take j order) = Some bytes ∧ len bytes ≤ maxBytes) ∧
    ((k < length order)%nat → ∃ bytes, encode (DI_update <$> take (S k) order) = Some bytes ∧ maxBytes < len bytes).
Proof.
  intros Hok Henc Hmax budget order.
  unfold Peek. rewrite (proj2 (Z.ltb_ge _ _)) by lia. unfold bind, get, put, ret, lift, throw.
  assert (pending alive d = merge_sort not_after (filter (λ item, waiting budget item = false)
    (items (filter (λ kv, exhausted budget kv.2 = false) (D_items d))))) as Hp by done.
  fold budget. fold order in Hp. case_bool_decide as He.
  { exists 0%nat. do 2 eexists. split; [done|].
    assert (order = []) as Ho by (rewrite Hp, He, map_filter_empty; done).
    rewrite Ho. simpl. split_and!; try done; [|lia|lia]. rewrite He, map_filter_empty, <- He. by destruct d. }
  rewrite (proj2 (Z.eqb_neq _ _)) by lia. cbn [orb]. case_bool_decide as Hc.
  { exists 0%nat. do 2 eexists. split; [done|]. rewrite Hp, Hc. simpl. split_and!; try done; lia. }
  destruct (selectLoop_spec encode maxBytes order [] Henc) as (k & Hk & Hsel & Hfit & Hnext). rewrite <- Hp, Hsel. simpl in *.
  rewrite tokensFor_spec.
  2: { intros i Hi. apply pending_kept; [done|]. fold order. by eapply elem_of_take in Hi as (j & Hi%list_elem_of_lookup_2 & _). }
  exists k. do 2 eexists. split; [done|]. split_and!; done.
Qed.

(** ** Operations that add no update *)

(** The updates of [d'] are pending in [d]. *)
Definition fewer (d d' : Disseminator) : Prop :=
  ∀ n i', D_items d' !! n = Some i' → ∃ i, D_items d !! n = Some i ∧ DI_update i' = DI_update i.

#[global] Instance fewer_preorder : PreOrder fewer.
Proof.
  split; [intros d n i Hi; by exists i|]. intros d1 d2 d3 H1 H2 n i3 (i2 & Hi2 & E2)%H2.
  destruct (H1 _ _ Hi2) as (i1 & Hi1 & E1). exists i1. split; [done|congruence].
Qed.

Lemma foldl_fewer {B} (f : Disseminator → B → Disseminator) (l : list B) (d : Disseminator) :
  (∀ d b, fewer d (f d b)) → fewer d (foldl f d l).
Proof. intros Hf. revert d. induction l as [|b l IH]; intros d; simpl; [reflexivity|]. etransitivity; [apply Hf|apply IH]. Qed.

Lemma adjust_fewer (n : Z) (f : disseminationItem → disseminationItem) (d : Disseminator) :
  (∀ i, DI_update (f i) = DI_update i) → fewer d (adjust n f d).
Proof.
  intros Hf m i'. rewrite adjust_lookup. case_decide; [|by eauto].
  intros (i & Hi & ->)%fmap_Some_1. by exists i.
Qed.

Lemma Peek_fewer (maxBytes alive : Z) (encode : option (list Update → option (list byte))) (d : Disseminator) :
  fewer d (Peek maxBytes alive encode d).2.
Proof.
  assert (fewer d (d <| D_items := filter (λ kv, exhausted (RetransmitBudget (D_retransmitMultiplier d) alive) kv.2 = false) (D_items d) |>))
    as Hp by (intros n i [Hi _]%map_lookup_filter_Some; eauto).
  unfold Peek. case_goal; [reflexivity|]. destruct encode as [encode|]; [|reflexivity]. unfold bind, get, put, ret, lift, throw.
  case_bool_decide; [reflexivity|]. repeat case_goal; exact Hp.
Qed.

Lemma reserveLoop_fewer (budget : Z) (tokens : list disseminationToken) (reserved : list Z) (d : Disseminator) :
  fewer d (reserveLoop budget reserved tokens d).2.
Proof.
  revert reserved d. induction tokens as [|token tokens IH]; intros reserved d; simpl; [reflexivity|].
  assert (fewer d (foldl (λ d nodeID, adjust nodeID (λ i, i <| DI_inFlight ::= (λ n, n - 1) |>) d) d reserved)) as Hundo
    by (apply foldl_fewer; intros; by apply adjust_fewer).
  destruct (D_items d !! TK_nodeID token); [destruct (_ || _)|]; [done| |done]. etransitivity; [|apply IH]. by apply adjust_fewer.
Qed.

Lemma Reserve_fewer (b : DisseminationBatch) (d : Disseminator) : fewer d (Reserve b d).2.
Proof.
  unfold Reserve. destruct (B_tokens b) as [|t l]; [reflexivity|]. destruct (_ <=? _); [reflexivity|].
  pose proof (reserveLoop_fewer (B_budget b) (t :: l) [] d) as H. by destruct (reserveLoop _ _ _ _).
Qed.

Lemma Release_fewer (b : DisseminationBatch) (d : Disseminator) : fewer d (Release b d).
Proof.
  unfold Release. destruct (negb _); [reflexivity|]. apply foldl_fewer. intros a token. unfold releaseToken.
  destruct (D_items a !! _); [|reflexivity]. case_goal; [by apply adjust_fewer|reflexivity].
Qed.

Lemma Commit_fewer (b : DisseminationBatch) (d : Disseminator) : fewer d (Commit b d).
Proof.
  unfold Commit. destruct (_ <=? _); [reflexivity|]. apply foldl_fewer. intros a token. unfold commitToken.
  destruct (D_items a !! TK_nodeID token) as [item|] eqn:Hi; [|reflexivity]. do 2 (case_goal; [reflexivity|]). cbv zeta.
  destruct (_ <=? _); intros n i'; simpl; [intros [_ ?]%lookup_delete_Some; eauto|].
  intros [[<- <-]|[_ ?]]%lookup_insert_Some; [|by eauto]. exists item. split; [done|]. by destruct (B_reserved b).
Qed.

(** A pending item of node [n], not newer than a bound of the versions. *)
Definition versioned (K : Z → Z) (n : Z) (i : disseminationItem) : Prop :=
  node_of i = n ∧ nonneg (U_Member (DI_update i)) ∧ item_ver i ≤ K n.

(** Enqueuing keeps a bound of the versions that the update respects. *)
Lemma Enqueue_versions (K : Z → Z) (u : Update) (alive : Z) (d : Disseminator) :
  (∀ n i, D_items d !! n = Some i → versioned K n i) →
  nonneg (U_Member u) → ver (U_Member u) ≤ K (NodeID (U_Member u)) →
  ∀ n i, D_items (Enqueue u alive d) !! n = Some i → versioned K n i.
Proof.
  intros Hd Hn Hv.
  assert (∀ v, nonneg (U_Member v) → ver (U_Member v) ≤ K (NodeID (U_Member v)) →
    ∀ n i, D_items (admitItem v alive d) !! n = Some i → versioned K n i) as Hadm.
  { intros v Hnv Hvv n i. unfold admitItem, takeSequence.
    destruct (_ || _); simpl; [intros [_ ?]%lookup_delete_Some; eauto|]. destruct (_ && _); simpl; [by apply Hd|].
    destruct (_ <? _); simpl; (intros [[<- <-]|[_ ?]]%lookup_insert_Some; [done|by eauto]). }
  unfold Enqueue. destruct (validUpdate u); [|done]. simpl.
  destruct (D_items d !! NodeID (U_Member u)) as [c|] eqn:Hc; [|by apply Hadm].
  destruct (mergePendingUpdate _ _) as [v|] eqn:Hm; [|done]. unfold mergePendingUpdate in Hm.
  destruct (Z.ltb_spec (Incarnation (U_Member u)) (Incarnation (U_Member (DI_update c)))); [done|].
  destruct (Z.ltb_spec (Incarnation (U_Member (DI_update c))) (Incarnation (U_Member u))); [simplify_eq; by apply Hadm|].
  destruct (_ <=? _); simplify_eq. apply Hadm; simpl.
  - destruct (Hd _ _ Hc) as (_ & [? ?] & _). destruct Hn. by split.
  - destruct (Hd _ _ Hc) as (Hnode & _ & _). unfold node_of in Hnode. rewrite Hnode. unfold ver in *. simpl.
    replace (Incarnation (U_Member (DI_update c))) with (Incarnation (U_Member u)) by lia. done.
Qed.

(** An update of a newer generation than the pending one is queued as it is, or a
    digest is required. *)
Lemma Enqueue_newer (u : Update) (alive : Z) (d : Disseminator) :
  validUpdate u = true →
  (∀ i, D_items d !! NodeID (U_Member u) = Some i → Incarnation (U_Member (DI_update i)) < Incarnation (U_Member u)) →
  (∃ s, D_items (Enqueue u alive d) !! NodeID (U_Member u) = Some (mkItem u s 0 0)) ∨ DigestRequired (Enqueue u alive d) = true.
Proof.
  intros Hv Hi.
  assert (Enqueue u alive d = admitItem u alive d) as ->.
  { unfold Enqueue. rewrite Hv. simpl. destruct (D_items d !! NodeID (U_Member u)) as [i|]; [|done].
    specialize (Hi i eq_refl). unfold mergePendingUpdate. rewrite (proj2 (Z.ltb_ge _ _)), (proj2 (Z.ltb_lt _ _)) by lia. done. }
  unfold admitItem, takeSequence. destruct (_ || _); [by right|]. destruct (_ && _); [by right|]. left.
  exists (D_nextSequence d). destruct (_ <? _); simpl; by rewrite lookup_insert_eq.
Qed.

(** ** What the queue promises *)

(** The documented number of transmissions: [multiplier * ceil(log2(alive + 1))],
    cut at the largest [int], and none without a live member. *)
Definition transmission_budget (multiplier alive : Z) : Z :=
  if (multiplier <=? 0) || (alive <=? 0) then 0 else Z.min max_int (multiplier * Z.log2_up (alive + 1)).

Lemma transmission_budget_eq (multiplier alive : Z) :
  multiplier ≤ max_int → RetransmitBudget multiplier alive = transmission_budget multiplier alive.
Proof.
  intros Hm. unfold transmission_budget. destruct ((multiplier <=? 0) || (alive <=? 0)) eqn:H.
  - unfold RetransmitBudget. by rewrite H.
  - bool_hyps. by apply RetransmitBudget_spec.
Qed.

(** [a] is sent before [b]: a departure before a death before a suspicion before
    news of a live member; among these, the one admitted first. *)
Inductive sent_before (a b : disseminationItem) : Prop :=
| sent_severer : Status (U_Member (DI_update b)) < Status (U_Member (DI_update a)) → sent_before a b
| sent_older : Status (U_Member (DI_update a)) = Status (U_Member (DI_update b)) →
    DI_sequence a < DI_sequence b → sent_before a b
| sent_lower : Status (U_Member (DI_update a)) = Status (U_Member (DI_update b)) →
    DI_sequence a = DI_sequence b → node_of a < node_of b → sent_before a b.

Lemma before_sent (a b : disseminationItem) : before a b = true → sent_before a b.
Proof.
  intros [?|[? [?|[? ?]]]]%before_iff; [by apply sent_severer|by apply sent_older|by apply sent_lower].
Qed.

Lemma pending_sent (alive : Z) (d : Disseminator) : queue_ok d → StronglySorted sent_before (pending alive d).
Proof.
  intros Hok. induction (pending_strict alive d Hok) as [|a l _ IH Ha]; constructor; [done|].
  eapply Forall_impl; [exact Ha|]. intros b. apply before_sent.
Qed.

(** C18: A batch is the longest prefix that still fits the byte budget of the
    updates that may be sent: [order] holds exactly the items of the queue whose
    transmissions, done and in flight, are below the documented budget, a
    departure before a death before a suspicion before a live member, and the
    oldest first among these.  Every prefix of the batch fits and one more update
    would not.  The selection charges nothing, drops exactly the items that used
    up their transmissions, and never panics. *)
Theorem Peek_longest_prefix (encode : list Update → option (list byte)) (maxBytes alive : Z) (d : Disseminator) :
  queue_ok d → D_retransmitMultiplier d ≤ max_int → (∀ us, is_Some (encode us)) → 0 < maxBytes →
  let budget := transmission_budget (D_retransmitMultiplier d) alive in
  ∃ order k batch d', Peek maxBytes alive (Some encode) d = (Ok batch, d') ∧
    StronglySorted sent_before order ∧
    (∀ i, i ∈ order ↔ D_items d !! node_of i = Some i ∧ DI_transmissions i + DI_inFlight i < budget) ∧
    B_Updates batch = DI_update <$> take k order ∧ B_tokens batch = token_of <$> take k order ∧
    B_reserved batch = false ∧
    d' = d <| D_items := filter (λ kv, DI_transmissions kv.2 < budget) (D_items d) |> ∧
    (∀ j, (0 < j ≤ k)%nat → ∃ bytes, encode (DI_update <$> take j order) = Some bytes ∧ len bytes ≤ maxBytes) ∧
    ((k < length order)%nat → ∃ bytes, encode (DI_update <$> take (S k) order) = Some bytes ∧ maxBytes < len bytes).
Proof.
  intros Hok Hmu Henc Hmax budget.
  destruct (Peek_prefix encode maxBytes alive d Hok Henc Hmax) as (k & batch & d' & Hp & Hu & Ht & Hr & Hd & Hfit & Hnext).
  rewrite transmission_budget_eq in Hd by done. fold budget in Hd.
  exists (pending alive d), k, batch, d'. split_and!; try done.
  - by apply pending_sent.
  - intros i. rewrite elem_of_pending, transmission_budget_eq by done. unfold waiting. fold budget. rewrite Z.leb_gt. split.
    + intros [[n Hn] Hw]. split; [|done]. by destruct (q_items d Hok _ _ Hn) as [-> _].
    + intros [Hn Hw]. eauto.
  - rewrite Hd. rewrite (proj1 (map_filter_ext _ (λ kv, DI_transmissions kv.2 < budget) (D_items d))); [done|].
    intros n i _. unfold exhausted. simpl. by rewrite Z.leb_gt.
Qed.

(** C17: No admitted update is lost silently: after any sequence of operations on
    the queue, with batches reserved, released and committed in any order and with
    any number of live members, the queue is within its bound and every update ever
    admitted is still pending, was replaced by a newer one of its node, was charged
    at least the retransmit multiplier times, or was removed by a call made when no
    member was alive, which leaves nobody to send it to.  A valid update is
    admitted, is not newer than the pending one, or requires a digest. *)
Theorem dissemination_accounts (maxItems multiplier : Z) (ops : list queue_op) :
  0 < maxItems → 0 < multiplier ≤ max_int → Forall queue_op_typed ops →
  let q := queue_run maxItems multiplier ops in
  D_nextSequence (Q_d q) < max_uint64 →
  Z.of_nat (size (D_items (Q_d q))) ≤ maxItems ∧
  (∀ token u, (token, u) ∈ Q_admitted q → accounted multiplier q token u) ∧
  ∀ u alive, validUpdate u = true → nonneg (U_Member u) →
    let d := Enqueue u alive (Q_d q) in
    (∃ i, D_items d !! NodeID (U_Member u) = Some i ∧ ver (U_Member u) ≤ item_ver i) ∨ DigestRequired d = true.
Proof.
  intros Hm Hmu Hty q Hlt. destruct (queue_run_inv maxItems multiplier ops Hm Hmu Hty Hlt) as [Hinv [Hp1 Hp2]]. fold q in Hinv, Hp1, Hp2.
  pose proof (qi_ok q Hinv) as Hok. split_and!.
  - pose proof (q_bound _ Hok). lia.
  - intros token u Hin. destruct (qi_admitted q Hinv _ _ Hin) as [_ H]. by rewrite Hp2 in H.
  - intros u alive Hv Hnn d. unfold d. destruct (Z.le_gt_cases alive 0) as [Hle|Ha].
    + destruct (Enqueue_isolated u alive (Q_d q) Hle) as [[-> Hst]|[n ->]]; [left|by right].
      destruct (Hst Hv) as (i & Hi & Hn). exists i. split; [done|].
      destruct (q_items _ Hok _ _ Hi) as (Hnode & Hvi & Hni & _).
      pose proof (mergePending_spec (DI_update i) u Hni Hnn Hvi Hv (eq_sym Hnode)) as Hmp. by rewrite Hn in Hmp.
    + destruct (Enqueue_cases u alive (Q_d q)) as [[-> Hst]|[->|(v & -> & Hve & _)]]; try done; try lia; [by left; apply Hst|by right|].
      left. simpl. rewrite lookup_insert_eq. eexists. split; [done|]. unfold item_ver. simpl. lia.
Qed.

(** ** Witnesses *)

Definition exUpdate (n inc status : Z) : Update := mkUpdate (exMember n inc status) 1.
Definition exEncode (us : list Update) : option (list byte) := Some (replicate (10 * length us) Byte.x00).
(** Three updates; the most severe one is sent twice and exhausts its budget. *)
Definition exQueueOps : list queue_op :=
  [QEnqueue (exUpdate 2 1 Alive) 1; QEnqueue (exUpdate 3 1 Dead) 1; QEnqueue (exUpdate 2 2 Alive) 1;
   QPeek 15 1 (Some exEncode); QReserve 0; QPeek 15 1 (Some exEncode); QReserve 1; QCommit 0; QCommit 1].

Lemma exQueueOps_typed : Forall queue_op_typed exQueueOps.
Proof. repeat constructor; unfold nonneg, exUpdate; simpl; unfold Alive, Dead; lia. Qed.

Lemma exQueue_sequence :
  D_nextSequence (Q_d (queue_run 8 2 exQueueOps)) < max_uint64 ∧
  D_nextSequence (Q_d (queue_run 8 2 (take 3 exQueueOps))) < max_uint64.
Proof. split; vm_compute; reflexivity. Qed.

Lemma dissemination_accounts_witness :
  let q := queue_run 8 2 exQueueOps in
  Q_charged q = [mkToken 3 2; mkToken 3 2] ∧ D_items (Q_d q) !! 3 = None ∧
  accounted 2 q (mkToken 3 2) (exUpdate 3 1 Dead) ∧ accounted 2 q (mkToken 2 1) (exUpdate 2 1 Alive).
Proof.
  intros q. split; [vm_compute; reflexivity|]. split; [vm_compute; reflexivity|].
  destruct (dissemination_accounts 8 2 exQueueOps) as (_ & Ha & _); [lia|ulia|exact exQueueOps_typed|apply exQueue_sequence|].
  assert (Q_admitted q = [(mkToken 2 1, exUpdate 2 1 Alive); (mkToken 3 2, exUpdate 3 1 Dead); (mkToken 2 3, exUpdate 2 2 Alive)])
    as He by (vm_compute; reflexivity).
  change (queue_run 8 2 exQueueOps) with q in Ha. clearbody q.
  split; apply Ha; rewrite He; [apply list_elem_of_further, list_elem_of_here|apply list_elem_of_here].
Defined.

Lemma Peek_longest_prefix_witness :
  let d := Q_d (queue_run 8 2 (take 3 exQueueOps)) in
  (Peek 15 1 (Some exEncode) d).1 = Ok (mkBatch [exUpdate 3 1 Dead] [mkToken 3 2] 2 false) ∧
  ∃ order, StronglySorted sent_before order ∧
    ∀ i, i ∈ order ↔ D_items d !! node_of i = Some i ∧ DI_transmissions i + DI_inFlight i < 2.
Proof.
  intros d. split; [vm_compute; reflexivity|].
  destruct (queue_run_inv 8 2 (take 3 exQueueOps)) as [Hinv [_ Hmu]];
    [lia|ulia|apply Forall_take, exQueueOps_typed|apply exQueue_sequence|].
  destruct (Peek_longest_prefix exEncode 15 1 d) as (order & _ & _ & _ & _ & Hs & Hin & _);
    [apply Hinv|unfold d; rewrite Hmu; ulia|by eexists|lia|].
  exists order. split; [exact Hs|]. unfold d in *. rewrite Hmu in Hin. exact Hin.
Defined.

(** A node that leaves with a pending update and no live peer. *)
Definition exIsolated : list queue_op := [QEnqueue (exUpdate 2 1 Dead) 1; QPeek 15 0 (Some exEncode)].

Lemma exIsolated_removed :
  let q := queue_run 8 2 exIsolated in
  D_items (Q_d q) = ∅ ∧ Q_charged q = [] ∧ DigestRequired (Q_d q) = false ∧ Q_isolated q = [mkToken 2 1].
Proof. vm_compute. done. Qed.

End SwimDissemination.
