(* ===== verification/SwimEngine.v ===== *)
(** * The SWIM engine

    [internal/swim/engine.go], [probe.go], [suspicion.go] and the message types of
    [messages.go]: the state machine that owns membership, probes and timers of a
    node.  Every handler returns the effects it asks its caller to perform.

    Theorems: the engine invariant holds in every run; a suspected or terminal
    member always has a timer that will end the suspicion or forget the record; the
    node refutes suspicions of itself with a growing, persisted incarnation; probes
    visit every live member within two rounds. *)

From stdpp Require Import strings sorting.
From S2P Require Import Prelude SwimTable SwimDissemination.

Module SwimEngine.
Import SwimTable SwimDissemination.
Open Scope go_scope.
Open Scope Z_scope.

(** ** Time *)

Definition addDurationSaturated (now duration : Z) : Z :=
  let deadline := Time_Add now duration in
  if (0 <? duration) && (deadline <? now) then maxTime else deadline.

Definition multiplyDurationSaturated (duration factor : Z) : Z :=
  if (duration <=? 0) || (factor <=? 0) then 0
  else if max_int / factor <? duration then max_int else duration * factor.

Definition minimumSuspicionDuration : Z := 5 * second.

Definition SuspicionDuration (multiplier probeInterval aliveMembers : Z) : Z :=
  if (multiplier <=? 0) || (probeInterval <=? 0) || (aliveMembers <=? 0) then minimumSuspicionDuration
  else
    let levels := bitsLen aliveMembers in
    if max_int / levels <? multiplier then max_int
    else
      let factor := multiplier * levels in
      if max_int / factor <? probeInterval then max_int
      else
        let duration := factor * probeInterval in
        if duration <? minimumSuspicionDuration then minimumSuspicionDuration else duration.

Definition leaveDuration (retransmitMultiplier probeInterval aliveMembers : Z) : Z :=
  let duration := multiplyDurationSaturated probeInterval (RetransmitBudget retransmitMultiplier aliveMembers) in
  if duration <? minimumSuspicionDuration then minimumSuspicionDuration else duration.

(** ** Randomness *)

(** [random.Source]: a shuffle of [n] positions is the sequence of its swaps, each
    of positions below [n]. *)
Class RandomSource (R : Type) := {
  source_Uint64 : R → Z * R;
  source_Shuffle : nat → R → list (nat * nat) * R
}.

Definition shuffled {A R} `{!RandomSource R} (l : list A) (r : R) : list A * R :=
  let (swaps, r) := source_Shuffle (length l) r in (foldl swap l swaps, r).

(** ** Messages and effects *)

Abbreviation RequestID := (list byte).
Definition RequestID_zero : RequestID := replicate 16 Byte.x00.

Record ProbeID := mkProbeID { PI_Sequence : Z; PI_RequestID : RequestID }.
#[global] Instance ProbeID_eq_dec : EqDecision ProbeID.
Proof. solve_decision. Defined.
#[global] Instance ProbeID_countable : Countable ProbeID.
Proof.
  refine (inj_countable' (λ p, (PI_Sequence p, map byte_to_Z (PI_RequestID p)))
    (λ x, mkProbeID x.1 (map byte_of_Z x.2)) _).
  intros [s r]. simpl. f_equal. rewrite map_map. induction r as [|b r IH]; simpl; [done|]. by rewrite byte_of_to_Z, IH.
Defined.

Record Ping := mkPing { Ping_OriginID : Z; Ping_Sequence : Z; Ping_RequestID : RequestID }.
Record Ack := mkAck { Ack_OriginID : Z; Ack_Sequence : Z; Ack_RequestID : RequestID }.
Record PingReq := mkPingReq { PR_OriginID : Z; PR_Target : Member; PR_Sequence : Z; PR_RequestID : RequestID }.
Record IndirectAck := mkIndirectAck { IA_OriginID : Z; IA_Target : Member; IA_Sequence : Z; IA_RequestID : RequestID }.

Inductive ProtocolMessage :=
| MsgPing (m : Ping)
| MsgAck (m : Ack)
| MsgPingReq (m : PingReq)
| MsgIndirectAck (m : IndirectAck).

Record Outbound := mkOutbound { O_To : Member; O_Message : ProtocolMessage }.

Inductive TimerKind :=
| TimerDirectProbe | TimerIndirectProbe | TimerRelayProbe | TimerSuspicion | TimerTombstone | TimerLeaveDeadline.
#[global] Instance TimerKind_eq_dec : EqDecision TimerKind.
Proof. solve_decision. Defined.

Record TimerRequest := mkTimer {
  TR_Kind : TimerKind;
  TR_OriginID : Z;
  TR_NodeID : Z;
  TR_Sequence : Z;
  TR_RequestID : RequestID;
  TR_Incarnation : Z;
  TR_Status : Z;
  TR_Deadline : Z
}.

Record Effects := mkEffects {
  EF_Outbound : list Outbound;
  EF_Timers : list TimerRequest;
  EF_Events : list MembershipEvent;
  EF_PersistIncarnation : option Z;
  EF_SnapshotRequired : bool
}.
#[global] Instance eta_Effects : Settable Effects :=
  λ e, mkEffects (EF_Outbound e) (EF_Timers e) (EF_Events e) (EF_PersistIncarnation e) (EF_SnapshotRequired e).
Definition Effects_zero : Effects := mkEffects [] [] [] None false.

(** ** State *)

Record EngineConfig := mkEngineConfig {
  EC_SelfID : Z;
  EC_ProbeInterval : Z;
  EC_DirectProbeTimeout : Z;
  EC_IndirectProbeTimeout : Z;
  EC_IndirectChecks : Z;
  EC_SuspicionMultiplier : Z
}.

Inductive probePhase := probeDirect | probeIndirect.
#[global] Instance probePhase_eq_dec : EqDecision probePhase.
Proof. solve_decision. Defined.

Record activeProbe := mkActiveProbe {
  AP_target : Member;
  AP_phase : probePhase;
  AP_relays : gmap Z Member;
  AP_id : ProbeID
}.
#[global] Instance eta_activeProbe : Settable activeProbe :=
  λ p, mkActiveProbe (AP_target p) (AP_phase p) (AP_relays p) (AP_id p).

Record relayProbeKey := mkRelayKey { RK_originID : Z; RK_probe : ProbeID }.
#[global] Instance relayProbeKey_eq_dec : EqDecision relayProbeKey.
Proof. solve_decision. Defined.
#[global] Instance relayProbeKey_countable : Countable relayProbeKey.
Proof. refine (inj_countable' (λ k, (RK_originID k, RK_probe k)) (λ x, mkRelayKey x.1 x.2) _). by intros []. Defined.

Record relayProbe := mkRelayProbe { RP_origin : Member; RP_target : Member }.

Record suspicionState := mkSuspicion {
  SS_incarnation : Z;
  SS_deadline : Z;
  SS_duration : Z;
  SS_reporters : gset Z
}.
#[global] Instance eta_suspicionState : Settable suspicionState :=
  λ s, mkSuspicion (SS_incarnation s) (SS_deadline s) (SS_duration s) (SS_reporters s).

Record tombstoneState := mkTombstone { TS_incarnation : Z; TS_status : Z; TS_deadline : Z }.

Record probeSelector := mkSelector { PS_order : list Z; PS_index : nat }.
#[global] Instance eta_probeSelector : Settable probeSelector := λ s, mkSelector (PS_order s) (PS_index s).

(** The random source is shared by the engine and its selector. *)
Record Engine {R : Type} := mkEngine {
  E_config : EngineConfig;
  E_table : Table;
  E_dissemination : Disseminator;
  E_source : R;
  E_selector : probeSelector;
  E_nextSequence : Z;
  E_probePrefix : Z;
  E_probeCount : Z;
  E_activeProbes : gmap Z activeProbe;
  E_relayProbes : gmap relayProbeKey relayProbe;
  E_suspicions : gmap Z suspicionState;
  E_tombstones : gmap Z tombstoneState
}.
Arguments Engine : clear implicits.
#[global] Instance eta_Engine {R} : Settable (Engine R) :=
  λ e, mkEngine _ (E_config e) (E_table e) (E_dissemination e) (E_source e) (E_selector e) (E_nextSequence e)
         (E_probePrefix e) (E_probeCount e) (E_activeProbes e) (E_relayProbes e) (E_suspicions e) (E_tombstones e).

Inductive engine_error :=
| ErrInvalidEngineConfig | ErrNilEngineTable | ErrNilEngineDisseminator | ErrNilEngineRandomSource.

Section engine.
Context {R : Type} `{!RandomSource R}.
Abbreviation EngineR := (Engine R).

(** A handler: it returns its effects and changes the engine. *)
Abbreviation Eng A := (M EngineR engine_error A).

Definition NewEngine (config : EngineConfig) (table : option Table) (dissemination : option Disseminator)
    (source : option R) : outcome engine_error EngineR :=
  if (EC_SelfID config =? 0) || (EC_ProbeInterval config <=? 0) || (EC_DirectProbeTimeout config <=? 0) ||
     (EC_IndirectProbeTimeout config <=? 0) || (EC_IndirectChecks config =? 0) || (EC_SuspicionMultiplier config =? 0)
  then Err ErrInvalidEngineConfig
  else if EC_ProbeInterval config - EC_IndirectProbeTimeout config <? EC_DirectProbeTimeout config
  then Err ErrInvalidEngineConfig
  else match table, dissemination, source with
       | None, _, _ => Err ErrNilEngineTable
       | _, None, _ => Err ErrNilEngineDisseminator
       | _, _, None => Err ErrNilEngineRandomSource
       | Some table, Some dissemination, Some source =>
         let (randomSeed, source) := source_Uint64 source in
         let sequence := Z.land randomSeed max_int in
         let sequence := if sequence =? 0 then 1 else sequence in
         Ok (mkEngine _ config table dissemination source (mkSelector [] 0) sequence
               (Z.lxor randomSeed (wrap64 (Z.shiftl (EC_SelfID config) 48))) sequence ∅ ∅ ∅ ∅)
       end.

(** ** Choice of peers *)

Definition eligible (selfID : Z) (m : Member) : bool := negb (NodeID m =? selfID) && (Status m =? Alive).

Definition by_value (members : list Member) : gmap Z Member :=
  foldl (λ current m, <[NodeID m := m]> current) ∅ members.

(** A round of the loop either examines the next identity of the cycle or starts
    a new cycle first. *)
Fixpoint nextLoop (fuel : nat) (members : list Member) (selfID : Z) (s : probeSelector) (source : R) :
    outcome engine_error (option Member * probeSelector * R) :=
  match fuel with
  | O => Blocked
  | S fuel =>
    let examine (s : probeSelector) (source : R) :=
      match PS_order s !! PS_index s with
      | None => Panic
      | Some nodeID =>
        let s := s <| PS_index ::= S |> in
        match by_value members !! nodeID with
        | Some member => if eligible selfID member then Ok (Some member, s, source)
                         else nextLoop fuel members selfID s source
        | None => nextLoop fuel members selfID s source
        end
      end in
    if (length (PS_order s) <=? PS_index s)%nat then
      let order := map NodeID (filter (λ m, eligible selfID m = true) members) in
      match order with
      | [] => Ok (None, mkSelector [] 0, source)
      | _ => let (order, source) := shuffled (merge_sort Z.le order) source in examine (mkSelector order 0) source
      end
    else examine s source
  end.

(** The rest of the cycle and one new cycle. *)
Definition next (members : list Member) (selfID : Z) (s : probeSelector) (source : R) :
    outcome engine_error (option Member * probeSelector * R) :=
  nextLoop (S (length (PS_order s))) members selfID s source.

Definition selectRelays (target : Member) : Eng (list Member) :=
  let! e := get in
  let relays := filter (λ m, (Status m =? Alive) && negb (NodeID m =? EC_SelfID (E_config e)) &&
                             negb (NodeID m =? NodeID target) = true) (Table_Snapshot (E_table e)) in
  let (relays, source) := shuffled relays (E_source e) in
  put (e <| E_source := source |>) ;;!
  ret (take (Z.to_nat (EC_IndirectChecks (E_config e))) relays).

Definition Engine_takeSequence : Eng Z :=
  let! e := get in
  let sequence := wrap64 (E_nextSequence e + 1) in
  put (e <| E_nextSequence := if sequence =? 0 then 1 else sequence |>) ;;!
  ret (E_nextSequence e).

Definition takeProbeRequestID : Eng RequestID :=
  let! e := get in
  let count := wrap64 (E_probeCount e + 1) in
  let count := if count =? 0 then wrap64 (count + 1) else count in
  put (e <| E_probeCount := count |>) ;;!
  let requestID := be_bytes 8 (E_probePrefix e) ++ be_bytes 8 count in
  ret (if bool_decide (requestID = RequestID_zero) then take 15 requestID ++ [Byte.x01] else requestID).

(** ** Comparison of members *)

Definition sameMemberGeneration (left right : Member) : bool :=
  (NodeID left =? NodeID right) && (Incarnation left =? Incarnation right).

Definition sameProbeIdentity (left right : Member) : bool :=
  sameMemberGeneration left right && bool_decide (Host left = Host right) && (BasePort left =? BasePort right).

Definition currentAlivePeer (e : EngineR) (peer : Member) : bool :=
  if (NodeID peer =? 0) || (NodeID peer =? EC_SelfID (E_config e)) then false
  else match Table_Get (NodeID peer) (E_table e) with
       | Some current => (Status current =? Alive) && sameProbeIdentity current peer
       | None => false
       end.

Definition probeRequestIDMatches (expected actual : RequestID) : bool :=
  bool_decide (expected = RequestID_zero) || bool_decide (actual = RequestID_zero) || bool_decide (expected = actual).

Definition aliveMembers (e : EngineR) : Z :=
  Z.of_nat (size (filter (λ kv, Status kv.2 = Alive) (T_members (E_table e)))).

(** ** Probes *)

Definition BeginProbe (now : Z) : Eng Effects :=
  let! e := get in
  let! (target, selector, source) := lift (next (Table_Snapshot (E_table e)) (EC_SelfID (E_config e)) (E_selector e) (E_source e)) in
  put (e <| E_selector := selector |> <| E_source := source |>) ;;!
  match target with
  | None => ret Effects_zero
  | Some target =>
    let! sequence := Engine_takeSequence in
    let! requestID := takeProbeRequestID in
    modify (λ e, e <| E_activeProbes ::= <[sequence := mkActiveProbe target probeDirect ∅ (mkProbeID sequence requestID)]> |>) ;;!
    ret (mkEffects [mkOutbound target (MsgPing (mkPing (EC_SelfID (E_config e)) sequence requestID))]
           [mkTimer TimerDirectProbe 0 0 sequence requestID 0 0 (Time_Add now (EC_DirectProbeTimeout (E_config e)))]
           [] None false)
  end.

Definition HandleDirectTimeout (sequence now : Z) : Eng Effects :=
  let! e := get in
  match E_activeProbes e !! sequence with
  | Some probe =>
    if negb (bool_decide (AP_phase probe = probeDirect)) then ret Effects_zero
    else
      let target := AP_target probe in
      let current := match Table_Get (NodeID target) (E_table e) with
                     | Some c => (Status c =? Alive) && sameMemberGeneration c target
                     | None => false
                     end in
      if negb current then
        modify (λ e, e <| E_activeProbes ::= delete sequence |>) ;;!
        ret Effects_zero
      else
        let! relays := selectRelays target in
        modify (λ e, e <| E_activeProbes ::= <[sequence := probe <| AP_phase := probeIndirect |> <| AP_relays := by_value relays |>]> |>) ;;!
        let request := mkPingReq (EC_SelfID (E_config e)) target sequence (PI_RequestID (AP_id probe)) in
        ret (mkEffects (map (λ relay, mkOutbound relay (MsgPingReq request)) relays)
               [mkTimer TimerIndirectProbe 0 0 sequence (PI_RequestID (AP_id probe)) 0 0
                  (Time_Add now (EC_IndirectProbeTimeout (E_config e)))]
               [] None false)
  | None => ret Effects_zero
  end.

Definition HandleDirectTimeoutRequest (id : ProbeID) (now : Z) : Eng Effects :=
  let! e := get in
  match E_activeProbes e !! PI_Sequence id with
  | Some probe => if negb (bool_decide (AP_id probe = id)) then ret Effects_zero else HandleDirectTimeout (PI_Sequence id) now
  | None => ret Effects_zero
  end.

Definition HandlePing (from : Member) (message : Ping) : Eng Effects :=
  let originID := if Ping_OriginID message =? 0 then NodeID from else Ping_OriginID message in
  let! e := get in
  if (Ping_Sequence message =? 0) || negb (currentAlivePeer e from) then ret Effects_zero
  else ret (mkEffects [mkOutbound from (MsgAck (mkAck originID (Ping_Sequence message) (Ping_RequestID message)))] [] [] None false).

Definition HandlePingReq (from : Member) (message : PingReq) (now : Z) : Eng Effects :=
  let originID := if PR_OriginID message =? 0 then NodeID from else PR_OriginID message in
  let! e := get in
  if (PR_Sequence message =? 0) || negb (originID =? NodeID from) || negb (currentAlivePeer e from) then ret Effects_zero
  else if (NodeID (PR_Target message) =? EC_SelfID (E_config e)) || (NodeID (PR_Target message) =? NodeID from)
  then ret Effects_zero
  else match Table_Get (NodeID (PR_Target message)) (E_table e) with
       | Some target =>
         if negb (Status target =? Alive) || negb (sameProbeIdentity target (PR_Target message)) then ret Effects_zero
         else
           let key := mkRelayKey originID (mkProbeID (PR_Sequence message) (PR_RequestID message)) in
           match E_relayProbes e !! key with
           | Some _ => ret Effects_zero
           | None =>
             modify (λ e, e <| E_relayProbes ::= <[key := mkRelayProbe from target]> |>) ;;!
             ret (mkEffects [mkOutbound target (MsgPing (mkPing originID (PR_Sequence message) (PR_RequestID message)))]
                    [mkTimer TimerRelayProbe originID 0 (PR_Sequence message) (PR_RequestID message) 0 0
                       (Time_Add now (EC_IndirectProbeTimeout (E_config e)))]
                    [] None false)
           end
       | None => ret Effects_zero
       end.

Inductive ackDisposition := ackNotAccepted | ackLocalProbe | ackRelayProbe (key : relayProbeKey) (probe : relayProbe).

Definition dispositionOf (e : EngineR) (from : Member) (message : Ack) : ackDisposition :=
  let originID := Ack_OriginID message in
  let local :=
    if (originID =? 0) || (originID =? EC_SelfID (E_config e)) then
      match E_activeProbes e !! Ack_Sequence message with
      | Some probe => probeRequestIDMatches (PI_RequestID (AP_id probe)) (Ack_RequestID message) && sameProbeIdentity from (AP_target probe)
      | None => false
      end
    else false in
  if local then ackLocalProbe
  else
    let key := mkRelayKey originID (mkProbeID (Ack_Sequence message) (Ack_RequestID message)) in
    match E_relayProbes e !! key with
    | Some probe => if sameProbeIdentity from (RP_target probe) then ackRelayProbe key probe else ackNotAccepted
    | None => ackNotAccepted
    end.

Definition acceptsAck (e : EngineR) (from : Member) (message : Ack) : bool :=
  match dispositionOf e from message with ackNotAccepted => false | _ => true end.

Definition HandleAck (from : Member) (message : Ack) : Eng Effects :=
  let! e := get in
  match dispositionOf e from message with
  | ackLocalProbe =>
    modify (λ e, e <| E_activeProbes ::= delete (Ack_Sequence message) |>) ;;!
    ret Effects_zero
  | ackRelayProbe key probe =>
    modify (λ e, e <| E_relayProbes ::= delete key |>) ;;!
    ret (mkEffects [mkOutbound (RP_origin probe) (MsgIndirectAck (mkIndirectAck (Ack_OriginID message) (RP_target probe)
                      (Ack_Sequence message) (Ack_RequestID message)))] [] [] None false)
  | ackNotAccepted => ret Effects_zero
  end.

Definition acceptsIndirectAck (e : EngineR) (from : Member) (message : IndirectAck) : bool :=
  match E_activeProbes e !! IA_Sequence message with
  | Some probe =>
    if negb (bool_decide (AP_phase probe = probeIndirect)) ||
       negb (probeRequestIDMatches (PI_RequestID (AP_id probe)) (IA_RequestID message)) ||
       (negb (IA_OriginID message =? 0) && negb (IA_OriginID message =? EC_SelfID (E_config e))) ||
       negb (sameProbeIdentity (IA_Target message) (AP_target probe))
    then false
    else match AP_relays probe !! NodeID from with
         | Some relay => sameProbeIdentity from relay
         | None => false
         end
  | None => false
  end.

Definition HandleIndirectAck (from : Member) (message : IndirectAck) : Eng Effects :=
  let! e := get in
  if negb (acceptsIndirectAck e from message) then ret Effects_zero
  else
    modify (λ e, e <| E_activeProbes ::= delete (IA_Sequence message) |>) ;;!
    ret Effects_zero.

Definition HandleRelayTimeout (originID sequence : Z) : Eng Effects :=
  modify (λ e, e <| E_relayProbes ::= filter (λ kv, negb ((RK_originID kv.1 =? originID) &&
                                             (PI_Sequence (RK_probe kv.1) =? sequence)) = true) |>) ;;!
  ret Effects_zero.

Definition HandleRelayTimeoutRequest (originID sequence : Z) (requestID : RequestID) : Eng Effects :=
  modify (λ e, e <| E_relayProbes ::= delete (mkRelayKey originID (mkProbeID sequence requestID)) |>) ;;!
  ret Effects_zero.

(** ** Membership *)

Definition suspicionTimer (nodeID incarnation deadline : Z) : TimerRequest :=
  mkTimer TimerSuspicion 0 nodeID 0 RequestID_zero incarnation 0 deadline.

Definition appliedTransition (effects : Effects) (event : MembershipEvent) (reporterID : Z) : Eng Effects :=
  modify (λ e, e <| E_dissemination ::= Enqueue (mkUpdate (ME_Current event) reporterID) (aliveMembers e) |>) ;;!
  let! e := get in
  ret (effects <| EF_Events ::= (λ l, l ++ [event]) |> <| EF_SnapshotRequired := DigestRequired (E_dissemination e) |>).

Definition beginSuspicion (member : Member) (reporterID alive now : Z) : Eng TimerRequest :=
  let! e := get in
  let duration := SuspicionDuration (EC_SuspicionMultiplier (E_config e)) (EC_ProbeInterval (E_config e)) alive in
  let deadline := addDurationSaturated now duration in
  put (e <| E_suspicions ::= <[NodeID member := mkSuspicion (Incarnation member) deadline duration {[reporterID]}]> |>) ;;!
  ret (suspicionTimer (NodeID member) (Incarnation member) deadline).

Definition corroborateSuspicion (member : Member) (reporterID now : Z) : Eng Effects :=
  let! e := get in
  match E_suspicions e !! NodeID member with
  | Some suspicion =>
    if negb (SS_incarnation suspicion =? Incarnation member) then ret Effects_zero
    else if bool_decide (reporterID ∈ SS_reporters suspicion) then ret Effects_zero
    else
      let suspicion := suspicion <| SS_reporters ::= union {[reporterID]} |> in
      let remaining := SS_duration suspicion `quot` Z.of_nat (size (SS_reporters suspicion)) in
      let remaining := if remaining <? EC_ProbeInterval (E_config e) then EC_ProbeInterval (E_config e) else remaining in
      let candidate := addDurationSaturated now remaining in
      if negb (candidate <? SS_deadline suspicion) then
        put (e <| E_suspicions ::= <[NodeID member := suspicion]> |>) ;;!
        ret Effects_zero
      else
        put (e <| E_suspicions ::= <[NodeID member := suspicion <| SS_deadline := candidate |>]> |>) ;;!
        ret (Effects_zero <| EF_Timers := [suspicionTimer (NodeID member) (Incarnation member) candidate] |>)
  | None => ret Effects_zero
  end.

Definition beginTombstone (member : Member) (now : Z) : Eng TimerRequest :=
  let! e := get in
  let retention := multiplyDurationSaturated
    (SuspicionDuration (EC_SuspicionMultiplier (E_config e)) (EC_ProbeInterval (E_config e)) (aliveMembers e)) 10 in
  let deadline := addDurationSaturated now retention in
  put (e <| E_tombstones ::= <[NodeID member := mkTombstone (Incarnation member) (Status member) deadline]> |>) ;;!
  ret (mkTimer TimerTombstone 0 (NodeID member) 0 RequestID_zero (Incarnation member) (Status member) deadline).

(** [Merge] on the table of the engine. *)
Definition mergeUpdate (update : Update) : Eng (bool * MembershipEvent) :=
  let! e := get in
  let '(changed, event, table) := Merge update (E_table e) in
  put (e <| E_table := table |>) ;;!
  ret (changed, event).

(** The timers and the dissemination of an accepted update. *)
Definition applyTransition (event : MembershipEvent) (reporterID alive now : Z) : Eng Effects :=
  let member := ME_Current event in
  let! timers :=
    (if Status member =? Alive then
       modify (λ e, e <| E_suspicions ::= delete (NodeID member) |> <| E_tombstones ::= delete (NodeID member) |>) ;;!
       ret []
     else if Status member =? Suspect then
       modify (λ e, e <| E_tombstones ::= delete (NodeID member) |>) ;;!
       let! timer := beginSuspicion member reporterID alive now in
       ret [timer]
     else if (Status member =? Dead) || (Status member =? Left) then
       modify (λ e, e <| E_suspicions ::= delete (NodeID member) |>) ;;!
       let! timer := beginTombstone member now in
       ret [timer]
     else ret []) in
  appliedTransition (Effects_zero <| EF_Timers := timers |>) event reporterID.

Definition refuteSuspicion (current : Member) : Eng Effects :=
  let! e := get in
  if Incarnation current =? max_uint64 then ret Effects_zero
  else
    let refutation := current <| Incarnation ::= (λ n, wrap64 (n + 1)) |> <| Status := Alive |> in
    let effects := Effects_zero <| EF_PersistIncarnation := Some (Incarnation refutation) |> in
    let! (changed, event) := mergeUpdate (mkUpdate refutation (EC_SelfID (E_config e))) in
    if negb changed then ret Effects_zero
    else
      modify (λ e, e <| E_suspicions ::= delete (NodeID current) |> <| E_tombstones ::= delete (NodeID current) |>) ;;!
      appliedTransition effects event (EC_SelfID (E_config e)).

Definition ApplyUpdate (update : Update) (now : Z) : Eng Effects :=
  if negb (validUpdate update) then ret Effects_zero
  else
    let! e := get in
    let member := U_Member update in
    match Table_Get (NodeID member) (E_table e) with
    | Some c =>
      if (NodeID c =? EC_SelfID (E_config e)) && (Status member =? Suspect) &&
         (Incarnation member =? Incarnation c) && (Status c <=? Suspect)
      then refuteSuspicion c
      else
        let alive := aliveMembers e in
        let! (changed, event) := mergeUpdate update in
        if negb changed then
          if (Status member =? Suspect) && (Status c =? Suspect) && (Incarnation member =? Incarnation c)
          then corroborateSuspicion c (U_ReporterID update) now
          else ret Effects_zero
        else applyTransition event (U_ReporterID update) alive now
    | None =>
      let alive := aliveMembers e in
      let! (changed, event) := mergeUpdate update in
      if negb changed then ret Effects_zero else applyTransition event (U_ReporterID update) alive now
    end.

Definition HandleIndirectTimeout (sequence now : Z) : Eng Effects :=
  let! e := get in
  match E_activeProbes e !! sequence with
  | Some probe =>
    if negb (bool_decide (AP_phase probe = probeIndirect)) then ret Effects_zero
    else
      modify (λ e, e <| E_activeProbes ::= delete sequence |>) ;;!
      match Table_Get (NodeID (AP_target probe)) (E_table e) with
      | Some current =>
        if (negb (Status current =? Alive) && negb (Status current =? Suspect)) ||
           negb (sameProbeIdentity current (AP_target probe))
        then ret Effects_zero
        else ApplyUpdate (mkUpdate (current <| Status := Suspect |>) (EC_SelfID (E_config e))) now
      | None => ret Effects_zero
      end
  | None => ret Effects_zero
  end.

Definition HandleIndirectTimeoutRequest (id : ProbeID) (now : Z) : Eng Effects :=
  let! e := get in
  match E_activeProbes e !! PI_Sequence id with
  | Some probe => if negb (bool_decide (AP_id probe = id)) then ret Effects_zero else HandleIndirectTimeout (PI_Sequence id) now
  | None => ret Effects_zero
  end.

Definition ApplyIncarnationFloor (floor : Member) (reporterID now : Z) : Eng Effects :=
  let! e := get in
  let '(changed, event, table) := MergeIncarnationFloor floor reporterID (E_table e) in
  put (e <| E_table := table |>) ;;!
  if negb changed || (NodeID (ME_Current event) =? 0) then ret Effects_zero
  else
    modify (λ e, e <| E_suspicions ::= delete (NodeID (ME_Current event)) |>) ;;!
    let! timer := beginTombstone (ME_Current event) now in
    appliedTransition (Effects_zero <| EF_Timers := [timer] |>) event reporterID.

Definition HandleSuspicionTimeout (nodeID incarnation now : Z) : Eng Effects :=
  let! e := get in
  match E_suspicions e !! nodeID with
  | Some suspicion =>
    if negb (SS_incarnation suspicion =? incarnation) || (now <? SS_deadline suspicion) then ret Effects_zero
    else
      modify (λ e, e <| E_suspicions ::= delete nodeID |>) ;;!
      match Table_Get nodeID (E_table e) with
      | Some member =>
        if negb (Incarnation member =? incarnation) || negb (Status member =? Suspect) then ret Effects_zero
        else ApplyUpdate (mkUpdate (member <| Status := Dead |>) (EC_SelfID (E_config e))) now
      | None => ret Effects_zero
      end
  | None => ret Effects_zero
  end.

Definition ExpireTombstone (nodeID incarnation status now : Z) : Eng Effects :=
  let! e := get in
  match E_tombstones e !! nodeID with
  | Some tombstone =>
    if negb (TS_incarnation tombstone =? incarnation) || negb (TS_status tombstone =? status) || (now <? TS_deadline tombstone)
    then ret Effects_zero
    else
      modify (λ e, e <| E_tombstones ::= delete nodeID |>) ;;!
      match Table_Get nodeID (E_table e) with
      | Some member =>
        if negb (Incarnation member =? incarnation) || negb (Status member =? status) then ret Effects_zero
        else
          modify (λ e, e <| E_table ::= (λ t, (ExpireTerminal member t).2) |>) ;;!
          ret Effects_zero
      | None => ret Effects_zero
      end
  | None => ret Effects_zero
  end.

Definition Leave (now : Z) : Eng Effects :=
  let! e := get in
  match Table_Get (EC_SelfID (E_config e)) (E_table e) with
  | Some self =>
    if (Status self =? Left) || (Incarnation self =? max_uint64) then ret Effects_zero
    else
      let alive := aliveMembers e in
      let self := self <| Incarnation ::= (λ n, wrap64 (n + 1)) |> <| Status := Left |> in
      let! (changed, event) := mergeUpdate (mkUpdate self (EC_SelfID (E_config e))) in
      if negb changed then ret Effects_zero
      else
        modify (λ e, e <| E_suspicions ::= delete (NodeID self) |>) ;;!
        let leave := mkTimer TimerLeaveDeadline 0 (NodeID self) 0 RequestID_zero (Incarnation self) Left
          (addDurationSaturated now (leaveDuration (D_retransmitMultiplier (E_dissemination e)) (EC_ProbeInterval (E_config e)) alive)) in
        let! tombstone := beginTombstone self now in
        appliedTransition (Effects_zero <| EF_PersistIncarnation := Some (Incarnation self) |>
                             <| EF_Timers := [leave; tombstone] |>) event (EC_SelfID (E_config e))
  | None => ret Effects_zero
  end.

End engine.

(** ** Shuffles *)

Lemma shuffled_Permutation {A R} `{!RandomSource R} (l : list A) (r : R) : (shuffled l r).1 ≡ₚ l.
Proof.
  unfold shuffled. destruct (source_Shuffle (length l) r) as [swaps r']. simpl. clear r r'.
  revert l. induction swaps as [|s swaps IH]; intros l; simpl; [done|]. rewrite IH. apply swap_Permutation.
Qed.

(** ** Selection of probe targets *)

Lemma by_value_snoc (l : list Member) (m : Member) : by_value (l ++ [m]) = <[NodeID m := m]> (by_value l).
Proof. unfold by_value. by rewrite foldl_app. Qed.

Lemma by_value_Some (l : list Member) (id : Z) (m : Member) : by_value l !! id = Some m → m ∈ l ∧ NodeID m = id.
Proof.
  induction l as [|x l IH] using rev_ind; [done|]. rewrite by_value_snoc.
  intros [[<- <-]|[_ H]]%lookup_insert_Some; [split; [|done]; set_solver|]. destruct (IH H). set_solver.
Qed.

Lemma by_value_spec (l : list Member) (m : Member) :
  NoDup (NodeID <$> l) → m ∈ l → by_value l !! NodeID m = Some m.
Proof.
  induction l as [|x l IH] using rev_ind; intros Hnd Hin; [by apply not_elem_of_nil in Hin|].
  rewrite fmap_app in Hnd. apply NoDup_app in Hnd as (Hnd & Hx & _). rewrite by_value_snoc.
  apply elem_of_app in Hin as [Hin|Hin%list_elem_of_singleton]; [|subst; by rewrite lookup_insert_eq].
  rewrite lookup_insert_ne; [by apply IH|]. intros He. apply (Hx (NodeID m)); [by apply list_elem_of_fmap_2|].
  rewrite <- He. apply list_elem_of_here.
Qed.

Section selection.
Context {R : Type} `{!RandomSource R} (members : list Member) (selfID : Z).
Context (Hids : NoDup (NodeID <$> members)).

(** The identities of the live peers, and those of the current cycle that are
    still to be visited. *)
Definition cycle : list Z := map NodeID (filter (λ m, eligible selfID m = true) members).
Definition unvisited (s : probeSelector) : list Z := filter (λ id, id ∈ cycle) (drop (PS_index s) (PS_order s)).

Lemma elem_of_cycle (id : Z) : id ∈ cycle ↔ ∃ m, by_value members !! id = Some m ∧ eligible selfID m = true.
Proof.
  unfold cycle. rewrite list_elem_of_fmap. split.
  - intros (m & -> & [He Hm]%list_elem_of_filter). exists m. split; [by apply by_value_spec|done].
  - intros (m & Hm & He). apply by_value_Some in Hm as [Hm <-]. exists m. split; [done|]. by apply list_elem_of_filter.
Qed.

(** What a call to [next] returns: the next live peer of the cycle, or the first
    one of a new cycle. *)
Inductive chosen (s : probeSelector) : option Member → probeSelector → Prop :=
| chosen_next id rest m s' :
    unvisited s = id :: rest → NodeID m = id → m ∈ members → eligible selfID m = true → unvisited s' = rest →
    chosen s (Some m) s'
| chosen_first id rest m s' :
    unvisited s = [] → id :: rest ≡ₚ cycle → NodeID m = id → m ∈ members → eligible selfID m = true → unvisited s' = rest →
    chosen s (Some m) s'
| chosen_none s' : unvisited s = [] → cycle = [] → chosen s None s'.

Lemma filter_all_cycle (l : list Z) : (∀ id, id ∈ l → id ∈ cycle) → filter (λ id, id ∈ cycle) l = l.
Proof.
  induction l as [|x l IH]; intros Hl; [done|]. rewrite filter_cons, decide_True by set_solver. f_equal. apply IH. set_solver.
Qed.

Lemma cycle_NoDup : NoDup cycle.
Proof. unfold cycle. eapply sublist_NoDup; [exact Hids|]. apply fmap_sublist, sublist_filter. Qed.

Lemma nextLoop_spec (fuel : nat) (s : probeSelector) (source : R) :
  (length (drop (PS_index s) (PS_order s)) < fuel)%nat →
  ∃ o s' source', nextLoop fuel members selfID s source = Ok (o, s', source') ∧ chosen s o s' ∧
    (NoDup (PS_order s) → NoDup (PS_order s')).
Proof.
  revert s source. induction fuel as [|fuel IH]; intros s source Hf; [lia|]. simpl.
  assert (∀ id, id ∈ cycle → ∃ m, by_value members !! id = Some m ∧ eligible selfID m = true ∧ m ∈ members ∧ NodeID m = id) as Hc.
  { intros id (m & Hm & He)%elem_of_cycle. exists m. by destruct (by_value_Some _ _ _ Hm). }
  destruct (Nat.leb_spec (length (PS_order s)) (PS_index s)) as [Hge|Hlt].
  - assert (unvisited s = []) as Hr by (unfold unvisited; by rewrite drop_ge).
    fold cycle. destruct cycle as [|c0 cs] eqn:Hcy; [do 3 eexists; split_and!; [done|by apply chosen_none|intros _; constructor]|].
    destruct (shuffled (merge_sort Z.le (c0 :: cs)) source) as [order source'] eqn:Hsh.
    assert (order ≡ₚ cycle) as Hperm.
    { rewrite Hcy, <- (merge_sort_Permutation Z.le (c0 :: cs)), <- (shuffled_Permutation (merge_sort Z.le (c0 :: cs)) source), Hsh. done. }
    destruct order as [|id order]; [apply Permutation_nil_l in Hperm; congruence|]. simpl.
    destruct (Hc id) as (m & Hm & He & Hin & Hid); [rewrite <- Hcy, <- Hperm; apply list_elem_of_here|].
    rewrite Hm, He. do 3 eexists. split; [done|]. split; [|intros _; simpl; rewrite Hperm; apply cycle_NoDup].
    eapply (chosen_first _ id order); try done.
    unfold unvisited. simpl. rewrite drop_0. apply filter_all_cycle. intros x Hx. rewrite <- Hperm. by apply list_elem_of_further.
  - destruct (lookup_lt_is_Some_2 _ _ Hlt) as [id Hid]. rewrite Hid. pose proof (drop_S _ _ _ Hid) as Hd.
    set (s1 := s <| PS_index ::= S |>).
    assert (unvisited s = if decide (id ∈ cycle) then id :: unvisited s1 else unvisited s1) as Hr.
    { unfold unvisited. rewrite Hd, filter_cons. done. }
    assert (length (drop (PS_index s1) (PS_order s1)) < fuel)%nat as Hf' by (rewrite Hd in Hf; simpl in *; lia).
    destruct (decide (id ∈ cycle)) as [Hin|Hni].
    + destruct (Hc id Hin) as (m & Hm & He & Hmin & Hmid). rewrite Hm, He. do 3 eexists. split_and!; [done|by eapply chosen_next|done].
    + assert (nextLoop fuel members selfID s1 source = match by_value members !! id with
        | Some member => if eligible selfID member then Ok (Some member, s1, source) else nextLoop fuel members selfID s1 source
        | None => nextLoop fuel members selfID s1 source end) as <-.
      { destruct (by_value members !! id) as [m|] eqn:Hm; [|done]. destruct (eligible selfID m) eqn:He; [|done].
        exfalso. apply Hni, elem_of_cycle. eauto. }
      destruct (IH s1 source Hf') as (o & s' & source' & -> & Hch & Hnd). do 3 eexists. split; [done|]. split; [|done].
      destruct Hch; [eapply chosen_next|eapply chosen_first|apply chosen_none]; by try rewrite Hr.
Qed.

Lemma next_spec (s : probeSelector) (source : R) :
  ∃ o s' source', next members selfID s source = Ok (o, s', source') ∧ chosen s o s' ∧
    (NoDup (PS_order s) → NoDup (PS_order s')).
Proof. apply nextLoop_spec. rewrite length_drop. lia. Qed.

Lemma same_id (m m' : Member) : m ∈ members → m' ∈ members → NodeID m = NodeID m' → m = m'.
Proof. intros H H' He. pose proof (by_value_spec _ _ Hids H). pose proof (by_value_spec _ _ Hids H'). congruence. Qed.

End selection.

(** ** Invariant *)

(** The timer state of a node agrees with its record: a suspicion exactly for a
    suspected generation, a tombstone exactly for a terminal one. *)
Definition timers_match (o : option Member) (susp : option suspicionState) (tomb : option tombstoneState) : Prop :=
  match o with
  | None => susp = None ∧ tomb = None
  | Some m =>
    if Status m =? Alive then susp = None ∧ tomb = None
    else if Status m =? Suspect then tomb = None ∧ ∃ s, susp = Some s ∧ SS_incarnation s = Incarnation m
    else susp = None ∧ ∃ ts, tomb = Some ts ∧ TS_incarnation ts = Incarnation m ∧ TS_status ts = Status m
  end.

Definition config_ok (c : EngineConfig) : Prop :=
  EC_SelfID c ≠ 0 ∧ 0 < EC_ProbeInterval c ∧ 0 < EC_SuspicionMultiplier c.

(** The calls of the owner of the engine, other than those of the membership
    timers. *)
Inductive engine_call :=
| CallBeginProbe (now : Z)
| CallDirectTimeout (id : ProbeID) (now : Z)
| CallIndirectTimeout (id : ProbeID) (now : Z)
| CallPing (from : Member) (message : Ping)
| CallPingReq (from : Member) (message : PingReq) (now : Z)
| CallAck (from : Member) (message : Ack)
| CallIndirectAck (from : Member) (message : IndirectAck)
| CallRelayTimeout (originID sequence : Z) (requestID : RequestID)
| CallApplyUpdate (update : Update) (now : Z)
| CallApplyFloor (floor : Member) (reporterID now : Z)
| CallLeave (now : Z).

(** The calls of the owner on the queue it shares with the engine, for the
    datagrams it sends. *)
Inductive sender_call :=
| SendPeek (maxBytes : Z) (encode : option (list Update → option (list byte)))
| SendReserve (batch : DisseminationBatch)
| SendRelease (batch : DisseminationBatch)
| SendCommit (batch : DisseminationBatch)
| SendRepaired (generation : Z).

Section invariant.
Context {R : Type} `{!RandomSource R}.

Definition run_sender (c : sender_call) (e : Engine R) : Disseminator :=
  let d := E_dissemination e in
  match c with
  | SendPeek maxBytes encode => (Peek maxBytes (aliveMembers e) encode d).2
  | SendReserve batch => (Reserve batch d).2
  | SendRelease batch => Release batch d
  | SendCommit batch => Commit batch d
  | SendRepaired generation => (markDigestRepaired generation d).2
  end.

(** No pending update is newer than what the table knows of its node. *)
Definition queue_known (e : Engine R) : Prop :=
  ∀ n i, D_items (E_dissemination e) !! n = Some i → versioned (known (E_table e)) n i.

Lemma queue_known_same (e e' : Engine R) :
  E_table e' = E_table e → fewer (E_dissemination e) (E_dissemination e') → queue_known e → queue_known e'.
Proof.
  intros Ht Hf He n i' (i & Hi & Hu)%Hf. rewrite Ht. destruct (He n i Hi) as (? & ? & ?).
  unfold versioned, node_of, item_ver in *. by rewrite Hu.
Qed.

Lemma run_sender_fewer (c : sender_call) (e : Engine R) : fewer (E_dissemination e) (run_sender c e).
Proof.
  destruct c; simpl.
  - apply Peek_fewer.
  - apply Reserve_fewer.
  - apply Release_fewer.
  - apply Commit_fewer.
  - unfold markDigestRepaired. case_goal; [reflexivity|]. intros n i Hi. by exists i.
Qed.

Lemma queue_known_grows (e e' : Engine R) :
  (∀ n, known (E_table e) n ≤ known (E_table e') n) → E_dissemination e' = E_dissemination e → queue_known e → queue_known e'.
Proof.
  intros Hk Hd He n i. rewrite Hd. intros Hi. destruct (He n i Hi) as (? & ? & ?). specialize (Hk n).
  split_and!; try done. lia.
Qed.

(** A record is installed and its update enqueued. *)
Lemma queue_known_installed (e e' : Engine R) (m : Member) (reporterID alive : Z) :
  table_ok (E_table e) → advances m (E_table e) → E_table e' = installed m (E_table e) →
  E_dissemination e' = Enqueue (mkUpdate m reporterID) alive (E_dissemination e) → queue_known e → queue_known e'.
Proof.
  intros Hok Hadv Ht Hd He. unfold queue_known. rewrite Hd, Ht.
  assert (∀ n, known (E_table e) n ≤ known (installed m (E_table e)) n ∧
    (n = NodeID m → known (installed m (E_table e)) n = ver m)) as Hk.
  { intros n. rewrite (installed_known m _ n Hok Hadv). destruct Hadv as (_ & Hlt & _).
    destruct (Z.eqb_spec n (NodeID m)) as [->|]; split; try done; lia. }
  pose proof Hadv as ((_ & _ & ? & ? & _) & _). apply Enqueue_versions.
  - intros n i Hi. destruct (He n i Hi) as (? & ? & ?). split_and!; try done. destruct (Hk n). lia.
  - done.
  - simpl. destruct (Hk (NodeID m)) as [_ ->]; done.
Qed.

Record engine_ok (e : Engine R) : Prop := {
  eo_config : config_ok (E_config e);
  eo_table : table_ok (E_table e);
  eo_incarnation : ∀ n m, T_members (E_table e) !! n = Some m → 1 ≤ Incarnation m ≤ max_uint64;
  eo_timers : ∀ n, timers_match (T_members (E_table e) !! n) (E_suspicions e !! n) (E_tombstones e !! n);
  eo_order : NoDup (PS_order (E_selector e))
}.

(** The timers that the owner of the engine has armed, by node: a new request
    replaces the earlier one. *)
Record armed := mkArmed { A_suspicion : gmap Z TimerRequest; A_tombstone : gmap Z TimerRequest }.

Definition arm1 (a : armed) (t : TimerRequest) : armed :=
  match TR_Kind t with
  | TimerSuspicion => mkArmed (<[TR_NodeID t := t]> (A_suspicion a)) (A_tombstone a)
  | TimerTombstone => mkArmed (A_suspicion a) (<[TR_NodeID t := t]> (A_tombstone a))
  | _ => a
  end.
Definition arm (timers : list TimerRequest) (a : armed) : armed := foldl arm1 a timers.

(** Every suspicion and every tombstone has its timer. *)
Record armed_ok (e : Engine R) (a : armed) : Prop := {
  ao_suspicion : ∀ n s, E_suspicions e !! n = Some s →
    A_suspicion a !! n = Some (suspicionTimer n (SS_incarnation s) (SS_deadline s));
  ao_tombstone : ∀ n ts, E_tombstones e !! n = Some ts →
    A_tombstone a !! n = Some (mkTimer TimerTombstone 0 n 0 RequestID_zero (TS_incarnation ts) (TS_status ts) (TS_deadline ts))
}.

Definition sys (e : Engine R) (a : armed) : Prop := engine_ok e ∧ armed_ok e a.

(** The outcome of a handler: it returns, and keeps the invariant with the timers
    it asks for. *)
Definition good (r : outcome engine_error Effects * Engine R) (e : Engine R) (a : armed) : Prop :=
  ∃ eff e', r = (Ok eff, e') ∧ sys e' (arm (EF_Timers eff) a) ∧ E_config e' = E_config e ∧
    (queue_known e → queue_known e').

(** The state after the record of a node changed to [m]. *)
Lemma sys_installed (e e' : Engine R) (m : Member) (a a' : armed) :
  sys e a → advances m (E_table e) → 1 ≤ Incarnation m ≤ max_uint64 →
  E_config e' = E_config e → E_selector e' = E_selector e → E_table e' = installed m (E_table e) →
  (∀ n, n ≠ NodeID m → E_suspicions e' !! n = E_suspicions e !! n ∧ E_tombstones e' !! n = E_tombstones e !! n ∧
    A_suspicion a' !! n = A_suspicion a !! n ∧ A_tombstone a' !! n = A_tombstone a !! n) →
  timers_match (Some m) (E_suspicions e' !! NodeID m) (E_tombstones e' !! NodeID m) →
  (∀ s, E_suspicions e' !! NodeID m = Some s →
    A_suspicion a' !! NodeID m = Some (suspicionTimer (NodeID m) (SS_incarnation s) (SS_deadline s))) →
  (∀ ts, E_tombstones e' !! NodeID m = Some ts →
    A_tombstone a' !! NodeID m = Some (mkTimer TimerTombstone 0 (NodeID m) 0 RequestID_zero (TS_incarnation ts) (TS_status ts) (TS_deadline ts))) →
  sys e' a'.
Proof.
  intros [[Hc Ht Hi Hm Hnd] [Hs Htb]] Hadv Hinc Hc' Hsel Ht' Hother Hmatch Has Hat. split; split.
  - by rewrite Hc'.
  - rewrite Ht'. by apply installed_ok.
  - intros n x. rewrite Ht'. simpl. intros [[<- <-]|[_ H]]%lookup_insert_Some; [done|by apply (Hi n)].
  - intros n. rewrite Ht'. simpl. destruct (decide (n = NodeID m)) as [->|Hne]; [by rewrite lookup_insert_eq|].
    rewrite lookup_insert_ne by done. destruct (Hother n Hne) as (-> & -> & _). apply Hm.
  - by rewrite Hsel.
  - intros n s Hn. destruct (decide (n = NodeID m)) as [->|Hne]; [by apply Has|].
    destruct (Hother n Hne) as (He & _ & Ha & _). rewrite Ha. apply Hs. congruence.
  - intros n ts Hn. destruct (decide (n = NodeID m)) as [->|Hne]; [by apply Hat|].
    destruct (Hother n Hne) as (_ & He & _ & Ha). rewrite Ha. apply Htb. congruence.
Qed.

(** The state in which nothing of the membership changed. *)
Lemma sys_same (e e' : Engine R) (a : armed) :
  sys e a → E_config e' = E_config e → E_table e' = E_table e → E_suspicions e' = E_suspicions e →
  E_tombstones e' = E_tombstones e → NoDup (PS_order (E_selector e')) → sys e' a.
Proof. intros [[? ? ? ? ?] [? ?]] Hc Ht Hs Hb Hn. split; split; rewrite ?Hc, ?Ht, ?Hs, ?Hb; done. Qed.

Lemma status_cases (m : Member) :
  record_ok (NodeID m) m → Status m = Alive ∨ Status m = Suspect ∨ Status m = Dead ∨ Status m = Left.
Proof. intros (_ & _ & _ & H). unfold Alive, Suspect, Dead, Left in *. lia. Qed.

(** Side conditions of [sys_installed] on concrete maps. *)
Ltac solve_installed :=
  simpl; rewrite ?lookup_insert_eq, ?lookup_delete_eq;
  try (intros ?n ?Hne; rewrite ?lookup_insert_ne, ?lookup_delete_ne by done; done);
  try (intros ?s ?Heq; simplify_eq; done); eauto.

(** [e1] and [a1] differ from [e] and [a] in the timers of one node only. *)
Definition away (x : Z) (e e1 : Engine R) (a a1 : armed) : Prop :=
  E_config e1 = E_config e ∧ E_selector e1 = E_selector e ∧
  ∀ n, n ≠ x → E_suspicions e1 !! n = E_suspicions e !! n ∧ E_tombstones e1 !! n = E_tombstones e !! n ∧
    A_suspicion a1 !! n = A_suspicion a !! n ∧ A_tombstone a1 !! n = A_tombstone a !! n.

Lemma away_refl (x : Z) (e e1 : Engine R) (a : armed) :
  E_config e1 = E_config e → E_selector e1 = E_selector e → E_suspicions e1 = E_suspicions e →
  E_tombstones e1 = E_tombstones e → away x e e1 a a.
Proof. intros Hc Hsel Hs Hb. split; [done|]. split; [done|]. intros n _. by rewrite Hs, Hb. Qed.

(** The transition of a node to [m], whose record is already installed. *)
Lemma applyTransition_spec (event : MembershipEvent) (reporterID alive now : Z) (e e1 : Engine R) (a a1 : armed) (m : Member) :
  sys e a → away (NodeID m) e e1 a a1 → E_table e1 = installed m (E_table e) →
  ME_Current event = m → advances m (E_table e) → 1 ≤ Incarnation m ≤ max_uint64 →
  ∃ eff e', applyTransition event reporterID alive now e1 = (Ok eff, e') ∧
    sys e' (arm (EF_Timers eff) a1) ∧ E_config e' = E_config e ∧
    E_table e' = installed m (E_table e) ∧ EF_Events eff = [event] ∧ EF_PersistIncarnation eff = None ∧
    (∃ alive', E_dissemination e' = Enqueue (mkUpdate m reporterID) alive' (E_dissemination e1)).
Proof.
  intros Hsys (Hcfg & Hsel & Haway) Htab Hev Hadv Hinc. unfold applyTransition. rewrite Hev.
  unfold appliedTransition, beginSuspicion, beginTombstone, bind, get, put, modify, ret.
  destruct (status_cases m (proj1 Hadv)) as [Hs|[Hs|[Hs|Hs]]]; rewrite Hs; simpl; do 2 eexists; (split; [reflexivity|]);
    (split; [|split_and!; [done..|rewrite <- Hev; by eexists]]); (eapply (sys_installed e _ m a); [done|done|done|done|done|done|..]); unfold timers_match; rewrite ?Hs;
    try (intros n Hne; destruct (Haway n Hne) as (? & ? & ? & ?); simpl; rewrite ?lookup_insert_ne, ?lookup_delete_ne by done; done);
    solve_installed.
Qed.

Lemma valid_updates (u : Update) : validUpdate u = true → update_valid u = true ∧ Incarnation (U_Member u) ≠ 0.
Proof.
  unfold validUpdate, update_valid. intros H. bool_hyps. split; [|done].
  rewrite !andb_true_iff, !negb_true_iff, !Z.eqb_neq. split_and!; done || lia.
Qed.

(** What the engine needs of the fields of a record it is told of. *)
Definition bounded (m : Member) : Prop := 0 ≤ Incarnation m ≤ max_uint64 ∧ 0 ≤ Status m.

Lemma bounded_nonneg (m : Member) : bounded m → nonneg m.
Proof. intros [? ?]. split; lia. Qed.

Lemma typed_bounded (m : Member) : member_typed m → bounded m.
Proof. intros (_ & _ & ? & ?). split; ulia. Qed.

Definition accepts (u : Update) (t : Table) : bool := update_valid u && (known t (NodeID (U_Member u)) <? ver (U_Member u)).

Lemma mergeUpdate_spec (u : Update) (e : Engine R) :
  table_ok (E_table e) → nonneg (U_Member u) →
  mergeUpdate u e =
    if accepts u (E_table e)
    then (Ok (true, mkEvent (default Member_zero (T_members (E_table e) !! NodeID (U_Member u))) (merged (U_Member u) (E_table e))
                EventMemberChanged (U_ReporterID u)), e <| E_table := installed (merged (U_Member u) (E_table e)) (E_table e) |>)
    else (Ok (false, MembershipEvent_zero), e).
Proof.
  intros Ht Hn. unfold mergeUpdate, bind, get, put, ret. rewrite (Merge_spec u _ Ht Hn). unfold accepts.
  destruct (update_valid u && _); [done|]. by destruct e.
Qed.

Lemma accepts_merged (u : Update) (t : Table) :
  table_ok t → bounded (U_Member u) → validUpdate u = true → accepts u t = true →
  advances (merged (U_Member u) t) t ∧ 1 ≤ Incarnation (merged (U_Member u) t) ≤ max_uint64 ∧
  NodeID (merged (U_Member u) t) = NodeID (U_Member u) ∧ ver (merged (U_Member u) t) = ver (U_Member u) ∧
  Status (merged (U_Member u) t) = Status (U_Member u).
Proof.
  intros Ht Hty Hv [Hval Hlt%Z.ltb_lt]%andb_prop. destruct (valid_updates u Hv) as [_ Hi0].
  pose proof (update_record u Hval (bounded_nonneg _ Hty)) as Hrec.
  destruct (merged_spec (U_Member u) t Ht Hrec) as (Hver & Hid & Hadv). specialize (Hadv Hlt).
  destruct (ver_eq (merged (U_Member u) t) (U_Member u)) as [Hinc Hst]; [by eapply record_u8, Hadv|by eapply record_u8|done|].
  destruct Hty as [? _]. split_and!; [apply Hadv..| | | | |]; try done; rewrite Hinc; ulia.
Qed.

(** A handler that changes nothing the invariant mentions. *)
Lemma good_same (e e' : Engine R) (a : armed) (eff : Effects) :
  sys e a → Forall (λ t, TR_Kind t ≠ TimerSuspicion ∧ TR_Kind t ≠ TimerTombstone) (EF_Timers eff) →
  E_config e' = E_config e → E_table e' = E_table e → E_suspicions e' = E_suspicions e → E_tombstones e' = E_tombstones e →
  NoDup (PS_order (E_selector e')) → E_dissemination e' = E_dissemination e → good (Ok eff, e') e a.
Proof.
  intros Hsys Hk Hc Ht Hs Hb Hnd Hd. exists eff, e'. split; [done|].
  split; [|split; [done|]; apply queue_known_same; [done|by rewrite Hd]].
  assert (arm (EF_Timers eff) a = a) as ->; [|by eapply sys_same].
  unfold arm. induction Hk as [|t l [? ?] _ IH]; [done|]. simpl. unfold arm1. by destruct (TR_Kind t).
Qed.

Ltac good_same :=
  apply good_same; [done|repeat constructor; done|done|done|done|done|
    match goal with H : sys _ _ |- _ => exact (eo_order _ (proj1 H)) end|done].

Lemma corroborate_good (c : Member) (reporterID now : Z) (e : Engine R) (a : armed) :
  sys e a → good (corroborateSuspicion c reporterID now e) e a.
Proof.
  intros Hsys. unfold corroborateSuspicion, bind, get, put, ret.
  destruct (E_suspicions e !! NodeID c) as [s|] eqn:Hs; [|good_same]. case_goal; [good_same|]. case_goal; [good_same|].
  apply negb_false_iff, Z.eqb_eq in Heq. destruct Hsys as [[Hc Ht Hi Hm Hnd] [Has Hat]].
  assert (∀ s', SS_incarnation s' = Incarnation c →
    ∀ n, timers_match (T_members (E_table e) !! n) (<[NodeID c := s']> (E_suspicions e) !! n) (E_tombstones e !! n)) as Hmatch.
  { intros s' Hi' n. specialize (Hm n). destruct (decide (n = NodeID c)) as [->|]; [|by rewrite lookup_insert_ne].
    rewrite lookup_insert_eq. rewrite Hs in Hm. unfold timers_match in *.
    destruct (T_members (E_table e) !! NodeID c) as [x|]; [|by destruct Hm].
    destruct (Status x =? Alive); [by destruct Hm|]. destruct (Status x =? Suspect); [|by destruct Hm].
    destruct Hm as [? (s0 & [= <-] & ?)]. split; [done|]. exists s'. split; [done|congruence]. }
  cbv zeta. destruct (negb (_ <? _)); do 2 eexists; (split; [done|]); (split; [|done]); split; split; simpl; try done.
  all: try (by apply Hmatch).
  all: intros n s' Hn; apply lookup_insert_Some in Hn as [[<- <-]|[Hne Hn]]; simpl.
  - by rewrite (Has _ _ Hs).
  - by apply Has.
  - by rewrite lookup_insert_eq, Heq.
  - rewrite lookup_insert_ne by done. by apply Has.
Qed.

Lemma raised_accepted (e : Engine R) (c m : Member) :
  engine_ok e → T_members (E_table e) !! NodeID c = Some c → NodeID m = NodeID c → Incarnation m = Incarnation c + 1 →
  0 ≤ Status m ≤ Left →
  accepts (mkUpdate m (EC_SelfID (E_config e))) (E_table e) = true ∧ merged m (E_table e) = m ∧ advances m (E_table e).
Proof.
  intros [[Hself _] Ht Hi _ _] Hc Hid Hinc Hst. pose proof (ok_members _ Ht _ _ Hc) as Hrec.
  destruct (reference_spec (E_table e) (NodeID c) Ht) as [Hr Hk]. rewrite Hc in Hr. rewrite Hr in Hk. simpl in Hk.
  assert (ver c < ver m) as Hlt. { destruct Hrec as (_ & _ & _ & ?). unfold ver, Left in *. rewrite Hinc. lia. }
  assert (record_ok (NodeID m) m) as Hm.
  { rewrite Hid. destruct Hrec as (_ & ? & ? & _). split_and!; [done|done|lia|apply Hst..]. }
  assert (merged m (E_table e) = m) as Hmm.
  { unfold merged. rewrite Hid, Hr, (proj2 (Z.eqb_neq _ _)); [done|lia]. }
  destruct (merged_spec m (E_table e) Ht Hm) as (_ & _ & Hadv). rewrite Hmm in Hadv. split_and!; [|done|].
  - unfold accepts, update_valid, Status_valid. simpl. destruct Hm as (_ & ? & _ & ?).
    rewrite !andb_true_iff, !negb_true_iff, !Z.eqb_neq, Z.leb_le, Z.ltb_lt, Hid, Hk. rewrite Hid in *. split_and!; done || lia.
  - apply Hadv. rewrite Hid, Hk. done.
Qed.

Lemma refute_spec (e : Engine R) (c : Member) (a : armed) :
  sys e a → T_members (E_table e) !! NodeID c = Some c → Incarnation c ≠ max_uint64 →
  let m := c <| Incarnation := Incarnation c + 1 |> <| Status := Alive |> in
  ∃ eff e', refuteSuspicion c e = (Ok eff, e') ∧ sys e' (arm (EF_Timers eff) a) ∧ E_config e' = E_config e ∧
    Table_Get (NodeID c) (E_table e') = Some m ∧ EF_PersistIncarnation eff = Some (Incarnation m) ∧
    EF_Events eff = [mkEvent c m EventMemberChanged (EC_SelfID (E_config e))] ∧
    EF_SnapshotRequired eff = DigestRequired (E_dissemination e') ∧ (queue_known e → queue_known e') ∧
    ∃ alive, E_dissemination e' = Enqueue (mkUpdate m (EC_SelfID (E_config e))) alive (E_dissemination e).
Proof.
  intros Hsys Hc Hmax m. pose proof (proj1 Hsys) as Hok. pose proof (eo_incarnation e Hok _ _ Hc) as Hinc.
  unfold refuteSuspicion, bind at 1, get at 1. rewrite (proj2 (Z.eqb_neq _ _)) by done. cbv zeta.
  assert (c <| Incarnation ::= (λ n, wrap64 (n + 1)) |> <| Status := Alive |> = m) as ->.
  { unfold m. destruct c as [i h b inc s]. unfold set_field, wrap64. simpl in *. rewrite Z.mod_small by ulia. done. }
  destruct (raised_accepted e c m Hok Hc) as (Ha & Hm & Hadv); [done|done|by vm_compute|].
  unfold bind at 1. rewrite mergeUpdate_spec; [|apply Hok|split; simpl; [lia|by vm_compute]].
  rewrite Ha. cbn [U_Member U_ReporterID]. rewrite Hm. cbn [negb]. 
  assert (T_members (E_table e) !! NodeID m = Some c) as Hcm by exact Hc. rewrite Hcm. cbn [default from_option id].
  unfold appliedTransition, bind, get, modify, ret. do 2 eexists. split; [reflexivity|]. split_and!; try done.
  - eapply (sys_installed e _ m a); [done|done|simpl; lia|done|done|done|..]; unfold timers_match; solve_installed.
  - simpl. unfold Table_Get. simpl. by rewrite lookup_insert_eq.
  - eapply queue_known_installed; [apply Hok|done|done|reflexivity].
  - by eexists.
Qed.

Lemma ApplyUpdate_good (u : Update) (now : Z) (e : Engine R) (a : armed) :
  sys e a → bounded (U_Member u) → good (ApplyUpdate u now e) e a.
Proof.
  intros Hsys Hty. unfold ApplyUpdate. destruct (validUpdate u) eqn:Hv; [|good_same]. cbn [negb].
  unfold bind at 1, get at 1. pose proof (proj1 Hsys) as Hok.
  assert (∀ event alive, ME_Current event = merged (U_Member u) (E_table e) → accepts u (E_table e) = true →
    good (applyTransition event (U_ReporterID u) alive now (e <| E_table := installed (merged (U_Member u) (E_table e)) (E_table e) |>)) e a)
    as Hacc.
  { intros event alive Hev Ha. destruct (accepts_merged u _ (eo_table e Hok) Hty Hv Ha) as (Hadv & Hinc & _).
    set (e1 := e <| E_table := _ |>).
    destruct (applyTransition_spec event (U_ReporterID u) alive now e e1 a a _ Hsys (away_refl _ e e1 a eq_refl eq_refl eq_refl eq_refl)
      eq_refl Hev Hadv Hinc) as (eff & e' & -> & Hs & Hc & Ht & _ & _ & al & Hd).
    exists eff, e'. split_and!; [done..|]. eapply queue_known_installed; [apply Hok|done|done|exact Hd]. }
  unfold Table_Get. destruct (T_members (E_table e) !! NodeID (U_Member u)) as [c|] eqn:Hc.
  - assert (NodeID c = NodeID (U_Member u)) as Hid by apply (ok_members _ (eo_table e Hok) _ _ Hc).
    destruct (_ && _ && _ && _) eqn:Hself.
    + destruct (decide (Incarnation c = max_uint64)) as [Hmax|Hmax].
      { unfold refuteSuspicion, bind, get, ret. rewrite (proj2 (Z.eqb_eq _ _) Hmax). good_same. }
      destruct (refute_spec e c a Hsys) as (eff & e' & -> & Hs & Hcf & _ & _ & _ & _ & Hq & _); [by rewrite Hid|done|]. exists eff, e'. done.
    + cbv zeta. unfold bind at 1. rewrite mergeUpdate_spec; [|apply Hok|by apply bounded_nonneg].
      destruct (accepts u (E_table e)) eqn:Ha; cbn [negb]; [by apply Hacc|].
      clear Hself. destruct (_ && _ && _); [by apply corroborate_good|good_same].
  - cbv zeta. unfold bind at 1. rewrite mergeUpdate_spec; [|apply Hok|by apply bounded_nonneg].
    destruct (accepts u (E_table e)) eqn:Ha; cbn [negb]; [by apply Hacc|good_same].
Qed.

Lemma ApplyIncarnationFloor_good (floor : Member) (reporterID now : Z) (e : Engine R) (a : armed) :
  sys e a → member_typed floor → good (ApplyIncarnationFloor floor reporterID now e) e a.
Proof.
  intros Hsys Hty. pose proof (proj1 Hsys) as Hok. unfold ApplyIncarnationFloor, bind at 1, get at 1.
  destruct (Floor_spec floor reporterID (E_table e) (eo_table e Hok) (typed_nonneg _ Hty))
    as [_|f Hf Ht Hv Hlt Hm|previous m Hp Hadv Ht Hv Hid].
  - unfold bind, put, ret. simpl. good_same.
  - unfold bind, put, ret. simpl. do 2 eexists. split; [done|]. simpl.
    split; [|split; [done|]; apply queue_known_grows; [|done]; intros n; unfold known; simpl].
    2: { destruct (decide (n = NodeID floor)) as [->|]; [rewrite lookup_insert_eq; simpl; lia|]. by rewrite lookup_insert_ne. }
    destruct Hsys as [[? Htab ? ? ?] [? ?]]. split; split; simpl; try done. by apply floor_kept_ok.
  - unfold bind at 1, put at 1. cbn [negb orb ME_Current]. destruct (Z.eqb_spec (NodeID m) 0) as [H0|_].
    { exfalso. by destruct Hadv as ((_ & ? & _) & _). }
    unfold beginTombstone, appliedTransition, bind, get, put, modify, ret. do 2 eexists. split; [reflexivity|].
    split; [|split; [done|]; eapply queue_known_installed; [apply Hok|done|done|reflexivity]].
    assert (1 ≤ Incarnation m ≤ max_uint64).
    { pose proof (ok_members _ (eo_table e Hok) _ _ Hp) as Hpr. pose proof (eo_incarnation e Hok _ _ Hp).
      pose proof (visible_known _ _ _ (eo_table e Hok) Hp) as Hk. destruct Hadv as (Hmr & Hlt & _). rewrite Hid, Hk in Hlt.
      pose proof (record_u8 _ _ Hpr). pose proof (record_u8 _ _ Hmr).
      assert (is_u8 (Status floor)) by apply Hty. destruct (ver_eq m floor) as [Hi _]; [done..|].
      destruct Hty as (_ & _ & ? & _). unfold ver in Hlt. rewrite Hi in *. ulia. }
    apply terminal_status in Ht.
    eapply (sys_installed e _ m a); [done|done|done|done|done|done|..]; unfold timers_match; destruct Ht as [->| ->]; solve_installed.
Qed.

Lemma Leave_good (now : Z) (e : Engine R) (a : armed) : sys e a → good (Leave now e) e a.
Proof.
  intros Hsys. pose proof (proj1 Hsys) as Hok. unfold Leave, bind at 1, get at 1, Table_Get.
  destruct (T_members (E_table e) !! EC_SelfID (E_config e)) as [c|] eqn:Hc; [|good_same].
  case_goal; [good_same|]. apply orb_false_elim in Heq as [_ Hmax%Z.eqb_neq].
  pose proof (ok_members _ (eo_table e Hok) _ _ Hc) as (Hid & _). pose proof (eo_incarnation e Hok _ _ Hc) as Hinc. cbv zeta.
  set (m := c <| Incarnation := Incarnation c + 1 |> <| Status := Left |>).
  assert (c <| Incarnation ::= (λ n, wrap64 (n + 1)) |> <| Status := Left |> = m) as ->.
  { unfold m. destruct c as [i h b inc s]. unfold set_field, wrap64. simpl in *. rewrite Z.mod_small by ulia. done. }
  destruct (raised_accepted e c m Hok) as (Ha & Hm & Hadv); [by rewrite Hid|done|done|done|].
  unfold bind at 1. rewrite mergeUpdate_spec; [|apply Hok|split; simpl; [lia|done]].
  rewrite Ha. cbn [U_Member U_ReporterID negb]. rewrite Hm.
  unfold beginTombstone, appliedTransition, bind, get, put, modify, ret. do 2 eexists. split; [reflexivity|].
  split; [|split; [done|]; eapply queue_known_installed; [apply Hok|done|done|reflexivity]].
  eapply (sys_installed e _ m a); [done|done|simpl; ulia|done|done|done|..]; unfold timers_match; solve_installed.
Qed.

Lemma HandleIndirectTimeout_good (sequence now : Z) (e : Engine R) (a : armed) :
  sys e a → good (HandleIndirectTimeout sequence now e) e a.
Proof.
  intros Hsys. unfold HandleIndirectTimeout, bind at 1, get at 1.
  destruct (E_activeProbes e !! sequence) as [p|]; [|good_same]. case_goal; [good_same|].
  unfold bind at 1, modify at 1. set (e1 := e <| E_activeProbes ::= _ |>).
  assert (sys e1 a) as Hsys1 by (eapply sys_same; try done; apply Hsys). unfold Table_Get.
  destruct (T_members (E_table e) !! NodeID (AP_target p)) as [c|] eqn:Hc; [|unfold ret; good_same].
  case_goal; [unfold ret; good_same|].
  destruct (ApplyUpdate_good (mkUpdate (c <| Status := Suspect |>) (EC_SelfID (E_config e))) now e1 a Hsys1) as (eff & e' & Hr & Hs & Hcf).
  { pose proof (eo_incarnation e (proj1 Hsys) _ _ Hc). split; simpl; [lia|done]. }
  exists eff, e'. done.
Qed.

(** ** Timers that fire *)

Definition disarm_suspicion (n : Z) (a : armed) : armed := mkArmed (delete n (A_suspicion a)) (A_tombstone a).
Definition disarm_tombstone (n : Z) (a : armed) : armed := mkArmed (A_suspicion a) (delete n (A_tombstone a)).

Lemma idle_suspicion (e : Engine R) (a : armed) (n : Z) :
  sys e a → E_suspicions e !! n = None → sys e (disarm_suspicion n a).
Proof.
  intros [Hok [Hs Ht]] Hn. split; [done|]. split; simpl; [|done]. intros m s Hm.
  rewrite lookup_delete_ne by congruence. by apply Hs.
Qed.

Lemma idle_tombstone (e : Engine R) (a : armed) (n : Z) :
  sys e a → E_tombstones e !! n = None → sys e (disarm_tombstone n a).
Proof.
  intros [Hok [Hs Ht]] Hn. split; [done|]. split; simpl; [done|]. intros m s Hm.
  rewrite lookup_delete_ne by congruence. by apply Ht.
Qed.

(** The death of a suspected generation, whose own suspicion is already removed. *)
Lemma kill_spec (e e1 : Engine R) (a a1 : armed) (n now : Z) (m : Member) :
  sys e a → away n e e1 a a1 → E_table e1 = E_table e → T_members (E_table e) !! n = Some m → Status m = Suspect →
  ∃ eff e', ApplyUpdate (mkUpdate (m <| Status := Dead |>) (EC_SelfID (E_config e))) now e1 = (Ok eff, e') ∧
    sys e' (arm (EF_Timers eff) a1) ∧ E_config e' = E_config e ∧ Table_Get n (E_table e') = Some (m <| Status := Dead |>) ∧
    (E_dissemination e1 = E_dissemination e → queue_known e → queue_known e').
Proof.
  intros Hsys Haway Hte Hm Hst. pose proof (proj1 Hsys) as [Hcfg Htab Hinc _ _].
  destruct (ok_members _ Htab _ _ Hm) as (Hid & Hn0 & _). pose proof (Hinc _ _ Hm) as Hrange.
  set (u := mkUpdate (m <| Status := Dead |>) (EC_SelfID (E_config e))).
  assert (NodeID (U_Member u) = n) as Hun by exact Hid. assert (Incarnation (U_Member u) = Incarnation m) as Hui by done.
  assert (validUpdate u = true) as Hv.
  { unfold validUpdate, Status_valid. rewrite Hun, Hui. rewrite !andb_true_iff, !negb_true_iff, !Z.eqb_neq, Z.leb_le.
    split_and!; [done|lia|apply Hcfg|done]. }
  assert (accepts u (E_table e) = true) as Hacc.
  { unfold accepts. rewrite (proj1 (valid_updates u Hv)), Hun, (visible_known _ _ _ Htab Hm). apply Z.ltb_lt.
    unfold ver, u. simpl. rewrite Hst. unfold Dead, Suspect. lia. }
  assert (bounded (U_Member u)) as Hb by (split; simpl; [lia|done]).
  destruct (accepts_merged u (E_table e)) as (Hadv & Hinc' & Hmid & _); [done..|]. rewrite Hun in Hmid.
  assert (merged (U_Member u) (E_table e) = m <| Status := Dead |>) as Hmg.
  { unfold merged. rewrite Hun. destruct (reference_spec (E_table e) n Htab) as [-> _]. by rewrite Hm, Hui, Z.eqb_refl. }
  unfold ApplyUpdate. rewrite Hv. cbn [negb]. unfold bind at 1, get at 1, Table_Get at 1. rewrite Hte, Hun, Hm.
  assert ((Status (U_Member u) =? Suspect) = false) as -> by done. rewrite andb_false_r. cbn [andb]. cbv zeta. unfold bind at 1.
  rewrite mergeUpdate_spec; [|by rewrite Hte|by apply bounded_nonneg]. rewrite Hte, Hacc. cbn [negb].
  set (e2 := e1 <| E_table := _ |>). set (event := mkEvent _ _ _ _).
  destruct (applyTransition_spec event (U_ReporterID u) (aliveMembers e1) now e e2 a a1 (merged (U_Member u) (E_table e))
    Hsys) as (eff & e' & Hr & Hs' & Hcf & Htab' & _ & _ & al & Hd); [by rewrite Hmid|done..|].
  exists eff, e'. split_and!; [exact Hr|done|done| |].
  - unfold Table_Get, installed in *. rewrite Htab'. cbn [T_members]. by rewrite Hmid, lookup_insert_eq, Hmg.
  - intros He. eapply queue_known_installed; [done|exact Hadv|done|]. rewrite Hd. simpl. by rewrite He.
Qed.

(** A suspicion at its deadline ends with the death of the suspected generation. *)
Lemma suspicion_fires (e : Engine R) (a : armed) (n now : Z) (t : TimerRequest) :
  sys e a → A_suspicion a !! n = Some t → TR_Deadline t ≤ now →
  ∃ eff e', HandleSuspicionTimeout n (TR_Incarnation t) now e = (Ok eff, e') ∧
    sys e' (arm (EF_Timers eff) (disarm_suspicion n a)) ∧ E_config e' = E_config e ∧ (queue_known e → queue_known e') ∧
    ∀ m, Table_Get n (E_table e) = Some m → Status m = Suspect → Table_Get n (E_table e') = Some (m <| Status := Dead |>).
Proof.
  intros Hsys Ht Hnow. pose proof Hsys as [[_ _ _ Hmatch _] [Has _]]. specialize (Hmatch n).
  unfold HandleSuspicionTimeout, bind at 1, get at 1. destruct (E_suspicions e !! n) as [s|] eqn:Hs.
  2: { do 2 eexists. split; [done|]. split_and!; [by apply idle_suspicion|done|done|]. unfold Table_Get. intros m Hm Hst.
       rewrite Hm in Hmatch. unfold timers_match in Hmatch. rewrite Hst in Hmatch. by destruct Hmatch as [_ (? & ? & _)]. }
  pose proof (Has n s Hs) as Hts. rewrite Ht in Hts. injection Hts as ->. cbn [TR_Incarnation TR_Deadline suspicionTimer] in *.
  rewrite Z.eqb_refl, (proj2 (Z.ltb_ge _ _)) by done. cbn [negb orb]. unfold bind at 1, modify at 1, Table_Get at 1.
  destruct (T_members (E_table e) !! n) as [m|] eqn:Hm; [|by destruct Hmatch].
  unfold timers_match in Hmatch. destruct (Z.eqb_spec (Status m) Alive) as [|Hal]; [by destruct Hmatch|].
  destruct (Z.eqb_spec (Status m) Suspect) as [Hst|]; [|by destruct Hmatch].
  destruct Hmatch as [_ (s' & [= <-] & Hi)]. rewrite Hi, Z.eqb_refl. cbn [negb orb].
  set (e1 := e <| E_suspicions ::= _ |>).
  destruct (kill_spec e e1 a (disarm_suspicion n a) n now m Hsys) as (eff & e' & Hr & Hs' & Hcf & Hg & Hq); [|done..|].
  { split; [done|]. split; [done|]. intros k Hk. simpl. by rewrite !lookup_delete_ne by done. }
  exists eff, e'. split_and!; [exact Hr|done|done|by apply Hq|]. unfold Table_Get at 1. rewrite Hm. by intros ? [= <-] _.
Qed.

(** A tombstone at its deadline: the terminal record is forgotten, its floor stays. *)
Lemma tombstone_fires (e : Engine R) (a : armed) (n now : Z) (t : TimerRequest) :
  sys e a → A_tombstone a !! n = Some t → TR_Deadline t ≤ now →
  ∃ e', ExpireTombstone n (TR_Incarnation t) (TR_Status t) now e = (Ok Effects_zero, e') ∧
    sys e' (disarm_tombstone n a) ∧ E_config e' = E_config e ∧ (queue_known e → queue_known e') ∧
    ∀ m, Table_Get n (E_table e) = Some m → terminal m = true →
      Table_Get n (E_table e') = None ∧ IncarnationFloor n (E_table e') = Some m.
Proof.
  intros Hsys Ht Hnow. pose proof Hsys as [[Hcfg Htab Hinc Hmatch Hnd] [Has Hat]]. pose proof (Hmatch n) as Hn.
  unfold ExpireTombstone, bind at 1, get at 1. destruct (E_tombstones e !! n) as [ts|] eqn:Hts.
  2: { eexists. split; [done|]. split_and!; [by apply idle_tombstone|done|done|]. unfold Table_Get. intros m Hm Hst.
       rewrite Hm in Hn. unfold timers_match in Hn. destruct (terminal_status m Hst) as [E|E]; rewrite E in Hn; by destruct Hn as [_ (? & ? & _)]. }
  pose proof (Hat n ts Hts) as Hta. rewrite Ht in Hta. injection Hta as ->. cbn [TR_Incarnation TR_Status TR_Deadline] in *.
  rewrite !Z.eqb_refl, (proj2 (Z.ltb_ge _ _)) by done. cbn [negb orb]. unfold bind at 1, modify at 1, Table_Get at 1.
  destruct (T_members (E_table e) !! n) as [m|] eqn:Hm; [|by destruct Hn].
  unfold timers_match in Hn. destruct (Z.eqb_spec (Status m) Alive) as [|Hal]; [by destruct Hn|].
  destruct (Z.eqb_spec (Status m) Suspect) as [|Hns]; [by destruct Hn|].
  destruct Hn as [Hsn (ts' & [= <-] & Hi & Hst)]. rewrite Hi, Hst, !Z.eqb_refl. cbn [negb orb].
  pose proof (ok_members _ Htab _ _ Hm) as Hrec. pose proof Hrec as (Hid & _).
  assert (terminal m = true) as Hterm.
  { rewrite <- Hid in Hrec. destruct (status_cases m Hrec) as [?|[?|[E|E]]]; [done|done|..]; unfold terminal; by rewrite E. }
  assert ((ExpireTerminal m (E_table e)).2 = (E_table e) <| T_members ::= delete n |>) as Hexp.
  { rewrite ExpireTerminal_spec by done. rewrite Hterm, Hid, bool_decide_true by done. done. }
  unfold bind, modify, ret. eexists. split; [reflexivity|]. cbn [E_table set_field]. split_and!; try done.
  - destruct (ExpireTerminal_told m _ Htab) as [Htok _]. split; split; simpl; try done; rewrite ?Hexp in *; try done.
    + intros k x. simpl. intros [_ H]%lookup_delete_Some. by apply (Hinc k).
    + intros k. simpl. destruct (decide (k = n)) as [->|Hk]; [by rewrite !lookup_delete_eq|]. rewrite !lookup_delete_ne by done. apply Hmatch.
    + intros k s. destruct (decide (k = n)) as [->|Hk]; [by rewrite lookup_delete_eq|]. rewrite !lookup_delete_ne by done. apply Hat.
  - apply queue_known_grows; [|done]. intros k. simpl. by rewrite (proj2 (ExpireTerminal_told m _ Htab)).
  - unfold Table_Get. rewrite Hm. intros ? [= <-] _. unfold IncarnationFloor. simpl. rewrite Hexp. simpl.
    rewrite lookup_delete_eq. split; [done|]. by apply (ok_retained _ Htab).
Qed.

(** ** Probe handlers *)

Lemma BeginProbe_spec (now : Z) (e : Engine R) :
  table_ok (E_table e) →
  ∃ o s source eff e', next (Table_Snapshot (E_table e)) (EC_SelfID (E_config e)) (E_selector e) (E_source e) = Ok (o, s, source) ∧
    BeginProbe now e = (Ok eff, e') ∧
    Forall (λ t, TR_Kind t = TimerDirectProbe) (EF_Timers eff) ∧
    (∀ m, o = Some m → O_To <$> EF_Outbound eff = [m]) ∧
    E_config e' = E_config e ∧ E_table e' = E_table e ∧ E_suspicions e' = E_suspicions e ∧ E_tombstones e' = E_tombstones e ∧
    E_selector e' = s ∧ E_dissemination e' = E_dissemination e ∧ (NoDup (PS_order (E_selector e)) → NoDup (PS_order s)).
Proof.
  intros Ht. destruct (next_spec (Table_Snapshot (E_table e)) (EC_SelfID (E_config e)) (snapshot_ids _ Ht) (E_selector e) (E_source e))
    as (o & s & source & Hn & _ & Hnd).
  unfold BeginProbe, bind at 1, get at 1, bind at 1, lift. rewrite Hn. cbn beta iota. unfold bind at 1, put at 1.
  exists o, s, source. destruct o as [m|].
  - unfold Engine_takeSequence, takeProbeRequestID, bind, get, put, modify, ret. do 2 eexists. split; [done|]. split; [reflexivity|].
    split; [by repeat constructor|]. split; [by intros ? [= <-]|]. done.
  - do 2 eexists. split; [done|]. split; [reflexivity|]. split; [constructor|]. done.
Qed.

Lemma BeginProbe_good (now : Z) (e : Engine R) (a : armed) : sys e a → good (BeginProbe now e) e a.
Proof.
  intros Hsys. destruct (BeginProbe_spec now e (eo_table e (proj1 Hsys))) as (o & s & r & eff & e' & _ & -> & Hk & _ & ? & ? & ? & ? & Hsel & ? & Hnd).
  apply good_same; [done| |done..|by rewrite Hsel; apply Hnd, Hsys|done]. eapply Forall_impl; [done|]. by intros t ->.
Qed.

Lemma selectRelays_spec (target : Member) (e : Engine R) :
  ∃ relays source, selectRelays target e = (Ok relays, e <| E_source := source |>).
Proof. unfold selectRelays, bind, get, put, ret. destruct (shuffled _ _) as [relays source]. by eexists _, _. Qed.

Lemma HandleDirectTimeout_good (sequence now : Z) (e : Engine R) (a : armed) : sys e a → good (HandleDirectTimeout sequence now e) e a.
Proof.
  intros Hsys. unfold HandleDirectTimeout, bind, get, modify, ret.
  destruct (E_activeProbes e !! sequence) as [p|]; [|good_same]. case_goal; [good_same|]. cbv zeta.
  match goal with |- context [if negb ?b then _ else _] => destruct b end; cbn [negb]; [|good_same].
  destruct (selectRelays_spec (AP_target p) e) as (relays & source & ->). good_same.
Qed.

(** ** Runs *)

Definition run_call (c : engine_call) : M (Engine R) engine_error Effects :=
  match c with
  | CallBeginProbe now => BeginProbe now
  | CallDirectTimeout id now => HandleDirectTimeoutRequest id now
  | CallIndirectTimeout id now => HandleIndirectTimeoutRequest id now
  | CallPing from m => HandlePing from m
  | CallPingReq from m now => HandlePingReq from m now
  | CallAck from m => HandleAck from m
  | CallIndirectAck from m => HandleIndirectAck from m
  | CallRelayTimeout o s r => HandleRelayTimeoutRequest o s r
  | CallApplyUpdate u now => ApplyUpdate u now
  | CallApplyFloor f r now => ApplyIncarnationFloor f r now
  | CallLeave now => Leave now
  end.

Definition call_typed (c : engine_call) : Prop :=
  match c with
  | CallApplyUpdate u _ => member_typed (U_Member u)
  | CallApplyFloor f _ _ => member_typed f
  | _ => True
  end.

Lemma run_call_good (c : engine_call) (e : Engine R) (a : armed) : call_typed c → sys e a → good (run_call c e) e a.
Proof.
  intros Hty Hsys. destruct c; simpl in *.
  - by apply BeginProbe_good.
  - unfold HandleDirectTimeoutRequest, bind, get. destruct (E_activeProbes e !! _); [|unfold ret; good_same].
    case_goal; [unfold ret; good_same|by apply HandleDirectTimeout_good].
  - unfold HandleIndirectTimeoutRequest, bind, get. destruct (E_activeProbes e !! _); [|unfold ret; good_same].
    case_goal; [unfold ret; good_same|by apply HandleIndirectTimeout_good].
  - unfold HandlePing, bind, get, ret. case_goal; good_same.
  - unfold HandlePingReq, bind, get, modify, ret. repeat (case_goal; try good_same).
  - unfold HandleAck, bind, get, modify, ret. destruct (dispositionOf _ _ _); good_same.
  - unfold HandleIndirectAck, bind, get, modify, ret. case_goal; good_same.
  - unfold HandleRelayTimeoutRequest, bind, modify, ret. good_same.
  - by apply ApplyUpdate_good, typed_bounded.
  - by apply ApplyIncarnationFloor_good.
  - by apply Leave_good.
Qed.

(** An engine with its owner: any call, the timers of the membership when they are
    due, and the use of the queue for the datagrams that are sent. *)
Inductive host_step : Engine R * armed → Engine R * armed → Prop :=
| host_call e a c eff e' :
    call_typed c → run_call c e = (Ok eff, e') → host_step (e, a) (e', arm (EF_Timers eff) a)
| host_suspicion e a n t now eff e' :
    A_suspicion a !! n = Some t → TR_Deadline t ≤ now →
    HandleSuspicionTimeout n (TR_Incarnation t) now e = (Ok eff, e') →
    host_step (e, a) (e', arm (EF_Timers eff) (disarm_suspicion n a))
| host_tombstone e a n t now eff e' :
    A_tombstone a !! n = Some t → TR_Deadline t ≤ now →
    ExpireTombstone n (TR_Incarnation t) (TR_Status t) now e = (Ok eff, e') →
    host_step (e, a) (e', arm (EF_Timers eff) (disarm_tombstone n a))
| host_sender e a c : host_step (e, a) (e <| E_dissemination := run_sender c e |>, a).

Lemma host_step_sys (x y : Engine R * armed) :
  host_step x y → sys x.1 x.2 →
  sys y.1 y.2 ∧ E_config y.1 = E_config x.1 ∧ (queue_known x.1 → queue_known y.1).
Proof.
  intros Hstep Hsys. destruct Hstep as [e a c eff e' Hty Hr|e a n t now eff e' Ht Hd Hr|e a n t now eff e' Ht Hd Hr|e a c]; simpl in *.
  - destruct (run_call_good c e a Hty Hsys) as (eff0 & e0 & Hr0 & Hs & ? & ?). rewrite Hr in Hr0. by injection Hr0 as -> ->.
  - destruct (suspicion_fires e a n now t Hsys Ht Hd) as (eff0 & e0 & Hr0 & Hs & ? & ? & _). rewrite Hr in Hr0. by injection Hr0 as -> ->.
  - destruct (tombstone_fires e a n now t Hsys Ht Hd) as (e0 & Hr0 & Hs & ? & ? & _). rewrite Hr in Hr0. by injection Hr0 as -> ->.
  - split_and!; [|done|apply queue_known_same; [done|apply run_sender_fewer]]. eapply sys_same; try done. apply Hsys.
Qed.

Lemma host_run_sys (x y : Engine R * armed) :
  rtc host_step x y → sys x.1 x.2 →
  sys y.1 y.2 ∧ E_config y.1 = E_config x.1 ∧ (queue_known x.1 → queue_known y.1).
Proof.
  induction 1 as [x|x y z Hstep _ IH]; intros Hs; [done|].
  destruct (host_step_sys _ _ Hstep Hs) as (Hy & Hc & Hq). destruct (IH Hy) as (? & ? & ?). split_and!; [done|congruence|auto].
Qed.

(** A table as the service builds it: live members of a positive generation. *)
Definition table_live (t : Table) : Prop :=
  table_ok t ∧ ∀ n m, T_members t !! n = Some m → Status m = Alive ∧ 1 ≤ Incarnation m ≤ max_uint64.

Lemma NewEngine_sys (c : EngineConfig) (t : Table) (d : Disseminator) (r : R) (e : Engine R) :
  table_live t → 0 ≤ EC_SuspicionMultiplier c →
  NewEngine c (Some t) (Some d) (Some r) = Ok e →
  sys e (mkArmed ∅ ∅) ∧ E_config e = c ∧ E_table e = t ∧ E_dissemination e = d.
Proof.
  intros [Htab Hlive] Hm. unfold NewEngine. case_goal; [done|]. case_goal; [done|].
  destruct (source_Uint64 r) as [seed r']. intros [= <-]. split; [|done].
  rewrite !orb_false_iff, !Z.eqb_neq, !Z.leb_gt in Heq. destruct Heq as [[[[[? ?] ?] ?] ?] ?].
  split; split; simpl; try done.
  - split_and!; simpl; lia.
  - intros n m Hn. by apply (Hlive n).
  - intros n. rewrite !lookup_empty. destruct (T_members t !! n) as [m|] eqn:Hn; [|done].
    destruct (Hlive n m Hn) as [Hst _]. unfold timers_match. by rewrite Hst.
  - constructor.
Qed.

(** ** Probes in a run *)

(** The peers that a node may probe. *)
Definition live_peers (e : Engine R) : list Member :=
  filter (λ m, NodeID m ≠ EC_SelfID (E_config e) ∧ Status m = Alive) (Table_Snapshot (E_table e)).

(** A run of the owner while the live peers are [peers], in which [k] probes begin,
    with the targets [ms]; between them, any other call, any timer that is due and
    any use of the queue. *)
Inductive watched (peers : list Member) : nat → list Member → Engine R * armed → Engine R * armed → Prop :=
| watched_nil x : watched peers 0 [] x x
| watched_probe now e a eff e' k ms y :
    live_peers e = peers → BeginProbe now e = (Ok eff, e') → watched peers k ms (e', arm (EF_Timers eff) a) y →
    watched peers (S k) ((O_To <$> EF_Outbound eff) ++ ms) (e, a) y
| watched_call c e a eff e' k ms y :
    live_peers e = peers → call_typed c → (∀ now, c ≠ CallBeginProbe now) → run_call c e = (Ok eff, e') →
    watched peers k ms (e', arm (EF_Timers eff) a) y → watched peers k ms (e, a) y
| watched_suspicion n t now e a eff e' k ms y :
    live_peers e = peers → A_suspicion a !! n = Some t → TR_Deadline t ≤ now →
    HandleSuspicionTimeout n (TR_Incarnation t) now e = (Ok eff, e') →
    watched peers k ms (e', arm (EF_Timers eff) (disarm_suspicion n a)) y → watched peers k ms (e, a) y
| watched_tombstone n t now e a eff e' k ms y :
    live_peers e = peers → A_tombstone a !! n = Some t → TR_Deadline t ≤ now →
    ExpireTombstone n (TR_Incarnation t) (TR_Status t) now e = (Ok eff, e') →
    watched peers k ms (e', arm (EF_Timers eff) (disarm_tombstone n a)) y → watched peers k ms (e, a) y
| watched_sender c e a k ms y :
    live_peers e = peers → watched peers k ms (e <| E_dissemination := run_sender c e |>, a) y → watched peers k ms (e, a) y.

(** A handler that leaves the cycle of probes. *)
Definition unselected {A} (m : M (Engine R) engine_error A) : Prop := ∀ e, E_selector (m e).2 = E_selector e.

Lemma unselected_bind {A B} (m : M (Engine R) engine_error A) (k : A → M (Engine R) engine_error B) :
  unselected m → (∀ x, unselected (k x)) → unselected (bind m k).
Proof.
  intros Hm Hk e. unfold bind. specialize (Hm e). destruct (m e) as [[x| | |] e1]; simpl in *; try done.
  by rewrite Hk.
Qed.

Create HintDb unselected.
Ltac unselected :=
  cbv zeta;
  repeat match goal with
  | |- ∀ _, _ => intros ?
  | |- unselected (bind _ _) => apply unselected_bind
  | |- unselected (match ?x with _ => _ end) => destruct x
  | H : unselected _ |- _ => exact H
  | |- unselected _ => solve [auto with unselected | intros ?; reflexivity]
  end.

Lemma selectRelays_unselected (target : Member) : unselected (selectRelays target).
Proof. intros e. by destruct (selectRelays_spec target e) as (relays & source & ->). Qed.
Lemma mergeUpdate_unselected (u : Update) : unselected (mergeUpdate u).
Proof. intros e. unfold mergeUpdate, bind, get, put, ret. by destruct (Merge u (E_table e)) as [[? ?] ?]. Qed.
Lemma beginSuspicion_unselected (m : Member) (r alive now : Z) : unselected (beginSuspicion m r alive now).
Proof. by intros e. Qed.
Lemma beginTombstone_unselected (m : Member) (now : Z) : unselected (beginTombstone m now).
Proof. by intros e. Qed.
Lemma corroborate_unselected (m : Member) (r now : Z) : unselected (corroborateSuspicion m r now).
Proof. intros e. unfold corroborateSuspicion, bind, get, put, ret. by repeat case_goal. Qed.
Hint Resolve selectRelays_unselected mergeUpdate_unselected beginSuspicion_unselected beginTombstone_unselected
  corroborate_unselected : unselected.

Lemma applyTransition_unselected (event : MembershipEvent) (r alive now : Z) : unselected (applyTransition event r alive now).
Proof. unfold applyTransition, appliedTransition. unselected. Qed.
Hint Resolve applyTransition_unselected : unselected.

Lemma ApplyUpdate_unselected (u : Update) (now : Z) : unselected (ApplyUpdate u now).
Proof. unfold ApplyUpdate, refuteSuspicion, appliedTransition. unselected. Qed.
Hint Resolve ApplyUpdate_unselected : unselected.

Lemma Floor_unselected (floor : Member) (r now : Z) : unselected (ApplyIncarnationFloor floor r now).
Proof.
  intros e. unfold ApplyIncarnationFloor, bind at 1, get at 1. destruct (MergeIncarnationFloor _ _ _) as [[changed event] t].
  unfold bind at 1, put at 1. case_goal; [done|].
  by unfold beginTombstone, appliedTransition, bind, get, put, modify, ret.
Qed.
Hint Resolve Floor_unselected : unselected.

Lemma run_call_unselected (c : engine_call) : (∀ now, c ≠ CallBeginProbe now) → unselected (run_call c).
Proof.
  intros Hc. destruct c; simpl; [by destruct (Hc now)|..];
    unfold HandleDirectTimeoutRequest, HandleDirectTimeout, HandleIndirectTimeoutRequest, HandleIndirectTimeout, HandlePing,
      HandlePingReq, HandleAck, HandleIndirectAck, HandleRelayTimeoutRequest, Leave, appliedTransition; clear Hc; unselected.
Qed.

Lemma timers_unselected (n i st now : Z) :
  unselected (HandleSuspicionTimeout n i now) ∧ unselected (ExpireTombstone n i st now).
Proof. unfold HandleSuspicionTimeout, ExpireTombstone. split; unselected. Qed.

(** The identities of live peers that the current cycle is still to visit. *)
Definition remaining (peers : list Member) (s : probeSelector) : list Z :=
  filter (λ id, id ∈ NodeID <$> peers) (drop (PS_index s) (PS_order s)).

Lemma live_peers_cycle (e : Engine R) :
  cycle (Table_Snapshot (E_table e)) (EC_SelfID (E_config e)) = NodeID <$> live_peers e ∧
  (∀ m, m ∈ live_peers e ↔ m ∈ Table_Snapshot (E_table e) ∧ eligible (EC_SelfID (E_config e)) m = true).
Proof.
  assert (∀ m, eligible (EC_SelfID (E_config e)) m = true ↔ NodeID m ≠ EC_SelfID (E_config e) ∧ Status m = Alive) as He.
  { intros m. unfold eligible. by rewrite andb_true_iff, negb_true_iff, Z.eqb_neq, Z.eqb_eq. }
  split.
  - unfold cycle, live_peers. rewrite (list_filter_iff _ _ _ He). done.
  - intros m. unfold live_peers. rewrite list_elem_of_filter, He. tauto.
Qed.

(** A probe visits [m], or an earlier one of the cycle, or starts the cycle that
    has [m]. *)
Lemma probe_remaining (now : Z) (e e' : Engine R) (eff : Effects) (m : Member) :
  table_ok (E_table e) → BeginProbe now e = (Ok eff, e') → m ∈ live_peers e →
  let q := remaining (live_peers e) (E_selector e) in
  let q' := remaining (live_peers e) (E_selector e') in
  m ∈ O_To <$> EF_Outbound eff ∨ (∃ id, q = id :: q' ∧ NodeID m ≠ id) ∨
  (q = [] ∧ NodeID m ∈ q' ∧ S (length q') = length (live_peers e)).
Proof.
  intros Ht Hr Hm. cbv zeta. destruct (live_peers_cycle e) as [Hcy Hel]. pose proof (snapshot_ids _ Ht) as Hids.
  destruct (BeginProbe_spec now e Ht) as (o & s & source & eff0 & e0 & Hn & Hr0 & _ & Hout & _ & _ & _ & _ & Hs & _).
  rewrite Hr in Hr0. injection Hr0 as <- <-. rewrite Hs.
  destruct (next_spec _ (EC_SelfID (E_config e)) Hids (E_selector e) (E_source e)) as (o1 & s1 & source1 & Hn1 & Hch & _).
  rewrite Hn in Hn1. injection Hn1 as <- <- <-.
  assert (∀ s, unvisited (Table_Snapshot (E_table e)) (EC_SelfID (E_config e)) s = remaining (live_peers e) s) as Hun
    by (intros; unfold unvisited, remaining; by rewrite Hcy).
  assert (∀ m', NodeID m = NodeID m' → m' ∈ Table_Snapshot (E_table e) → o = Some m' → m ∈ O_To <$> EF_Outbound eff) as Hhit.
  { intros m' Hid Hm' Ho. rewrite (Hout m' Ho). apply Hel in Hm as [Hm _]. rewrite (same_id _ Hids m m') by done. apply list_elem_of_here. }
  destruct Hch as [id rest m' s Hq Hid Hm' _ Hrest|id rest m' s Hq Hperm Hid Hm' _ Hrest|s _ Hnil].
  - rewrite Hun in *. destruct (decide (NodeID m = id)) as [He|Hne]; [left; apply (Hhit m'); [congruence|done|done]|]. right. left. exists id. by rewrite Hq, Hrest.
  - rewrite Hun in *. destruct (decide (NodeID m = id)) as [He|Hne]; [left; apply (Hhit m'); [congruence|done|done]|]. right. right. rewrite Hq, Hrest.
    rewrite Hcy in Hperm. assert (NodeID m ∈ id :: rest) as Hin by (rewrite Hperm; by apply list_elem_of_fmap_2).
    apply elem_of_cons in Hin as [?|?]; [done|]. apply Permutation_length in Hperm. rewrite length_fmap in Hperm. done.
  - exfalso. rewrite Hcy in Hnil. apply fmap_nil_inv in Hnil. rewrite Hnil in Hm. by apply not_elem_of_nil in Hm.
Qed.

Lemma watched_probed (peers ms : list Member) (k : nat) (x y : Engine R * armed) (m : Member) :
  watched peers k ms x y → sys x.1 x.2 → m ∈ peers →
  let q := remaining peers (E_selector x.1) in
  (NodeID m ∈ q ∧ length q ≤ k)%nat ∨ (length q + length peers ≤ k)%nat → m ∈ ms.
Proof.
  intros Hw Hsys Hm. induction Hw as [x|now e a eff e' k ms y Hp Hr Hw IH|c e a eff e' k ms y Hp Hty Hc Hr Hw IH
    |n t now e a eff e' k ms y Hp Ht Hd Hr Hw IH|n t now e a eff e' k ms y Hp Ht Hd Hr Hw IH|c e a k ms y Hp Hw IH]; cbv zeta; simpl in *.
  - destruct peers; [by apply not_elem_of_nil in Hm|]. intros [[Hin Hl]|Hl]; [|simpl in *; lia].
    destruct (remaining _ _); [by apply not_elem_of_nil in Hin|simpl in *; lia].
  - assert (sys e' (arm (EF_Timers eff) a)) as Hsys' by
      apply (host_step_sys (e, a) (e', arm (EF_Timers eff) a) (host_call e a (CallBeginProbe now) eff e' I Hr) Hsys).
    specialize (IH Hsys'). intros Hk. apply elem_of_app.
    destruct (probe_remaining now e e' eff m (eo_table e (proj1 Hsys)) Hr) as [Ho|[(id & Hq & Hne)|(Hq & Hin & Hl)]];
      [by rewrite Hp|by left|right; apply IH..]; rewrite Hp in *; rewrite Hq in Hk; simpl in Hk.
    + rewrite elem_of_cons in Hk. destruct Hk as [[[?|?] ?]|?]; [done|left; split; [done|lia]|right; lia].
    + left. split; [done|]. destruct Hk as [[?%not_elem_of_nil _]|?]; [done|lia].
  - rewrite <- (run_call_unselected c Hc e), Hr. apply IH.
    apply (host_step_sys (e, a) (e', arm (EF_Timers eff) a) (host_call e a c eff e' Hty Hr) Hsys).
  - rewrite <- (proj1 (timers_unselected n (TR_Incarnation t) 0 now) e), Hr. apply IH.
    apply (host_step_sys (e, a) _ (host_suspicion e a n t now eff e' Ht Hd Hr) Hsys).
  - rewrite <- (proj2 (timers_unselected n (TR_Incarnation t) (TR_Status t) now) e), Hr. apply IH.
    apply (host_step_sys (e, a) _ (host_tombstone e a n t now eff e' Ht Hd Hr) Hsys).
  - apply IH. apply (host_step_sys (e, a) _ (host_sender e a c) Hsys).
Qed.

End invariant.

(** ** Main results *)

Section main.
Context {R : Type} `{!RandomSource R}.

(** C8: A suspicion ends and a tombstone expires: in every run of an engine, with
    any messages, updates and probes, every handler returns, every suspected
    member has an armed timer that declares exactly this generation dead when it
    fires, and every dead or left member has an armed timer that forgets it and
    keeps its generation as a floor. *)
Theorem engine_timers_live (c : EngineConfig) (t : Table) (d : Disseminator) (r : R) (e0 e : Engine R) (a : armed) :
  table_live t → 0 ≤ EC_SuspicionMultiplier c → NewEngine c (Some t) (Some d) (Some r) = Ok e0 →
  rtc host_step (e0, mkArmed ∅ ∅) (e, a) →
  (∀ call, call_typed call → ∃ eff e', run_call call e = (Ok eff, e')) ∧
  (∀ n m, Table_Get n (E_table e) = Some m → Status m = Suspect →
    ∃ timer, A_suspicion a !! n = Some timer ∧ ∀ now, TR_Deadline timer ≤ now →
      ∃ eff e', HandleSuspicionTimeout n (TR_Incarnation timer) now e = (Ok eff, e') ∧
        Table_Get n (E_table e') = Some (m <| Status := Dead |>)) ∧
  (∀ n m, Table_Get n (E_table e) = Some m → terminal m = true →
    ∃ timer, A_tombstone a !! n = Some timer ∧ ∀ now, TR_Deadline timer ≤ now →
      ∃ e', ExpireTombstone n (TR_Incarnation timer) (TR_Status timer) now e = (Ok Effects_zero, e') ∧
        Table_Get n (E_table e') = None ∧ IncarnationFloor n (E_table e') = Some m).
Proof.
  intros Hlive Hmu Hnew Hrun. destruct (NewEngine_sys c t d r e0 Hlive Hmu Hnew) as [Hsys0 _].
  pose proof (proj1 (host_run_sys _ _ Hrun Hsys0)) as Hsys. simpl in Hsys. pose proof Hsys as [[_ _ _ Hm _] [Has Hat]]. split_and!.
  - intros call Hty. destruct (run_call_good call e a Hty Hsys) as (eff & e' & Hr & _). eauto.
  - intros n m Hg Hst. pose proof (Hm n) as Hn. unfold Table_Get in Hg. rewrite Hg in Hn. unfold timers_match in Hn.
    rewrite Hst in Hn. destruct Hn as [_ (s & Hs & _)]. eexists. split; [by apply Has|]. intros now Hnow.
    destruct (suspicion_fires e a n now _ Hsys (Has n s Hs) Hnow) as (eff & e' & Hr & _ & _ & _ & Hk). eauto.
  - intros n m Hg Hst. pose proof (Hm n) as Hn. unfold Table_Get in Hg. rewrite Hg in Hn. unfold timers_match in Hn.
    assert (∃ ts, E_tombstones e !! n = Some ts) as [ts Hts].
    { destruct (terminal_status m Hst) as [E|E]; rewrite E in Hn; destruct Hn as [_ (ts & ? & _)]; eauto. }
    eexists. split; [by apply Hat|]. intros now Hnow.
    destruct (tombstone_fires e a n now _ Hsys (Hat n ts Hts) Hnow) as (e' & Hr & _ & _ & _ & Hk).
    exists e'. split; [done|]. by apply Hk.
Qed.


(** C9: Failure detection is complete: from any state of a run, and as long as the
    live peers stay the same, every live peer is probed within [2 n - 1] probes,
    [n] being the number of live peers, whatever the owner does between the probes:
    acknowledgements, probe timeouts, pings and requests of others, updates, due
    timers and the datagrams that are sent. *)
Theorem probe_completeness (c : EngineConfig) (t : Table) (d : Disseminator) (r : R) (e0 e : Engine R) (a : armed)
    (y : Engine R * armed) (m : Member) (k : nat) (ms : list Member) :
  table_live t → 0 ≤ EC_SuspicionMultiplier c → NewEngine c (Some t) (Some d) (Some r) = Ok e0 →
  rtc host_step (e0, mkArmed ∅ ∅) (e, a) →
  Table_Get (NodeID m) (E_table e) = Some m → NodeID m ≠ EC_SelfID (E_config e) → Status m = Alive →
  watched (live_peers e) k ms (e, a) y → (2 * length (live_peers e) - 1 ≤ k)%nat →
  m ∈ ms.
Proof.
  intros Hlive Hmu Hnew Hrun Hg Hself Hal Hw Hk. destruct (NewEngine_sys c t d r e0 Hlive Hmu Hnew) as [Hsys0 _].
  destruct (host_run_sys _ _ Hrun Hsys0) as [Hsys _]. simpl in Hsys.
  assert (m ∈ live_peers e) as Hm.
  { apply list_elem_of_filter. split; [done|]. apply elem_of_snapshot. eauto. }
  apply (watched_probed _ _ _ _ _ m Hw Hsys Hm). cbv zeta. simpl. set (q := remaining (live_peers e) (E_selector e)).
  assert (NoDup q) as Hq by (apply NoDup_filter; eapply sublist_NoDup; [apply Hsys|apply sublist_drop]).
  assert (∀ x, x ∈ q → x ∈ NodeID <$> live_peers e) as Hsub by (by intros x [? _]%list_elem_of_filter).
  rewrite <- (length_fmap NodeID (live_peers e)) in *.
  destruct (decide (NodeID m ∈ q)) as [Hin|Hni]; [left; split; [done|]|right].
  - assert (length q ≤ length (NodeID <$> live_peers e))%nat by (by apply submseteq_length, NoDup_submseteq).
    destruct q; [by apply not_elem_of_nil in Hin|simpl in *; lia].
  - assert (length (NodeID m :: q) ≤ length (NodeID <$> live_peers e))%nat; [|simpl in *; lia].
    apply submseteq_length, NoDup_submseteq; [by constructor|].
    intros x [->|Hx]%elem_of_cons; [by apply list_elem_of_fmap_2|by apply Hsub].
Qed.

End main.

(** ** Witnesses *)

#[local] Instance exSource : RandomSource unit := {|
  source_Uint64 := λ _, (7, tt);
  source_Shuffle := λ n _, ([(0%nat, (n - 1)%nat)], tt)
|}.

Definition exConfig : EngineConfig := mkEngineConfig 1 second 300000000 400000000 2 5.
Definition exTable : Table :=
  merges [exUpdate 1 4 Alive; exUpdate 2 1 Alive; exUpdate 3 1 Alive; exUpdate 4 1 Alive].
Definition exEngine : Engine unit :=
  mkEngine _ exConfig exTable (NewDisseminator 8 2) tt (mkSelector [] 0) 7 (Z.lxor 7 (wrap64 (Z.shiftl 1 48))) 7 ∅ ∅ ∅ ∅.

Lemma exEngine_new : NewEngine exConfig (Some exTable) (Some (NewDisseminator 8 2)) (Some tt) = Ok exEngine.
Proof. reflexivity. Qed.

Lemma exTable_live : table_live exTable.
Proof.
  split.
  - apply (run_told (OpMerge <$> [exUpdate 1 4 Alive; exUpdate 2 1 Alive; exUpdate 3 1 Alive; exUpdate 4 1 Alive]) NewTable NewTable_ok).
    repeat apply Forall_cons_2; try done; by apply exMember_typed.
  - assert (map_Forall (λ _ m, Status m = Alive ∧ 1 ≤ Incarnation m ≤ max_uint64) (T_members exTable)) as H.
    { apply (bool_decide_unpack _). vm_compute. done. }
    exact H.
Qed.

(** The state after a sequence of calls. *)
Fixpoint exCalls (l : list engine_call) (x : Engine unit * armed) : option (Engine unit * armed) :=
  match l with
  | [] => Some x
  | c :: l => match run_call c x.1 with
              | (Ok eff, e) => exCalls l (e, arm (EF_Timers eff) x.2)
              | _ => None
              end
  end.

Lemma exCalls_run (l : list engine_call) (x y : Engine unit * armed) :
  Forall call_typed l → exCalls l x = Some y → rtc host_step x y.
Proof.
  intros Hty. revert x. induction Hty as [|c l Hc _ IH]; intros [e a]; simpl; [by intros [= <-]|].
  destruct (run_call c e) as [[eff| | |] e'] eqn:Hr; try done. intros H. eapply rtc_l; [by eapply host_call|by apply IH].
Qed.

Definition exStart : Engine unit * armed := (exEngine, mkArmed ∅ ∅).
(** Node 3 suspects node 2, node 4 reports node 3 dead, and a probe begins. *)
Definition exLog : list engine_call :=
  [CallApplyUpdate (mkUpdate (exMember 2 1 Suspect) 3) 0; CallApplyUpdate (mkUpdate (exMember 3 1 Dead) 4) 0; CallBeginProbe 5].

Lemma exLog_typed : Forall call_typed exLog.
Proof. repeat apply Forall_cons_2; try done; by apply exMember_typed. Qed.

Lemma engine_timers_live_witness :
  ∃ e a, exCalls exLog exStart = Some (e, a) ∧
    (∃ timer, A_suspicion a !! 2 = Some timer ∧ ∃ eff e',
      HandleSuspicionTimeout 2 (TR_Incarnation timer) (TR_Deadline timer) e = (Ok eff, e') ∧
      Table_Get 2 (E_table e') = Some (exMember 2 1 Dead)) ∧
    (∃ timer, A_tombstone a !! 3 = Some timer).
Proof.
  destruct (exCalls exLog exStart) as [[e a]|] eqn:Hrun; [|by vm_compute in Hrun].
  exists e, a. split; [done|].
  destruct (engine_timers_live exConfig exTable (NewDisseminator 8 2) tt exEngine e a exTable_live) as (_ & Hs & Ht);
    [done|exact exEngine_new|by apply (exCalls_run exLog); [exact exLog_typed|]|].
  assert (Table_Get 2 (E_table e) = Some (exMember 2 1 Suspect) ∧ Table_Get 3 (E_table e) = Some (exMember 3 1 Dead)) as [H2 H3].
  { vm_compute in Hrun. injection Hrun as <- _. split; vm_compute; reflexivity. }
  split.
  - destruct (Hs 2 _ H2 eq_refl) as (timer & Ha & Hf). destruct (Hf (TR_Deadline timer)) as (eff & e' & Hr & Hg); [lia|].
    exists timer. split; [exact Ha|]. exists eff, e'. split; [exact Hr|exact Hg].
  - destruct (Ht 3 _ H3 eq_refl) as (timer & Ha & _). by exists timer.
Defined.


(** Three probes; the first is acknowledged, the second one times out, and a
    datagram is sent between them. *)
Definition exWatch : list (engine_call + sender_call) :=
  [inl (CallBeginProbe 1);
   inl (CallAck (exMember 4 1 Alive) (mkAck 1 7 RequestID_zero)); inl (CallBeginProbe 2);
   inr (SendPeek 100 (Some exEncode)); inl (CallDirectTimeout (mkProbeID 8 (be_bytes 8 (Z.lxor 7 (Z.shiftl 1 48)) ++ be_bytes 8 9)) 400000000);
   inl (CallBeginProbe 3); inl (CallBeginProbe 4); inl (CallBeginProbe 5)].

Fixpoint exWatchRun (l : list (engine_call + sender_call)) (x : Engine unit * armed) :
    option (nat * list Member * (Engine unit * armed)) :=
  match l with
  | [] => Some (0%nat, [], x)
  | c :: rest =>
    if bool_decide (live_peers x.1 = live_peers exEngine) then
      match c with
      | inr c => exWatchRun rest (x.1 <| E_dissemination := run_sender c x.1 |>, x.2)
      | inl c =>
        match run_call c x.1 with
        | (Ok eff, e') =>
          match exWatchRun rest (e', arm (EF_Timers eff) x.2) with
          | Some (k, ms, y) =>
            Some match c with CallBeginProbe _ => (S k, (O_To <$> EF_Outbound eff) ++ ms, y) | _ => (k, ms, y) end
          | None => None
          end
        | _ => None
        end
      end
    else None
  end.

Lemma exWatchRun_watched (l : list (engine_call + sender_call)) (x : Engine unit * armed) (k : nat) (ms : list Member)
    (y : Engine unit * armed) :
  Forall (λ c, match c with inl c => call_typed c | inr _ => True end) l →
  exWatchRun l x = Some (k, ms, y) → watched (live_peers exEngine) k ms x y.
Proof.
  intros Hl. revert x k ms y. induction Hl as [|c l Hc _ IH]; intros [e a] k ms y; simpl; [intros [= <- <- <-]; constructor|].
  case_bool_decide as Hp; [|done]. destruct c as [c|c]; [|intros H; eapply watched_sender; [done|by apply IH]].
  destruct (run_call c e) as [[eff| | |] e'] eqn:Hr; try done.
  destruct (exWatchRun l _) as [[[k' ms'] y']|] eqn:Hrest; [|done]. apply IH in Hrest.
  destruct c; intros [= <- <- <-]; try (eapply watched_call; [done|exact Hc|done|exact Hr|exact Hrest]).
  eapply watched_probe; [done|exact Hr|exact Hrest].
Qed.

Lemma exWatch_typed : Forall (λ c, match c with inl c => call_typed c | inr _ => True end) exWatch.
Proof. repeat constructor. Qed.

Lemma probe_completeness_witness :
  ∃ k ms y, exWatchRun exWatch (exEngine, mkArmed ∅ ∅) = Some (k, ms, y) ∧ exMember 2 1 Alive ∈ ms.
Proof.
  destruct (exWatchRun exWatch (exEngine, mkArmed ∅ ∅)) as [[[k ms] y]|] eqn:Hr; [|exfalso; revert Hr; vm_compute; discriminate].
  assert (option_map (λ x, x.1.1) (exWatchRun exWatch (exEngine, mkArmed ∅ ∅)) = Some 5%nat) as Hk by (vm_compute; reflexivity).
  rewrite Hr in Hk. injection Hk as ->. exists 5%nat, ms, y. split; [reflexivity|].
  apply (probe_completeness exConfig exTable (NewDisseminator 8 2) tt exEngine exEngine (mkArmed ∅ ∅) y (exMember 2 1 Alive) 5 ms
    exTable_live).
  - vm_compute. discriminate.
  - exact exEngine_new.
  - apply rtc_refl.
  - vm_compute. reflexivity.
  - vm_compute. discriminate.
  - reflexivity.
  - exact (exWatchRun_watched exWatch _ 5 ms y exWatch_typed Hr).
  - vm_compute. repeat constructor.
Defined.

End SwimEngine.
